(* ===== verification/_CoqProject ===== *)
-Q . S2P
Prelude.v
RustStd.v
Text.v
Error.v
Protocol.v
IpFilter.v
Dns.v
Acl.v
Hooks.v
AclRouter.v
Codec.v
Connection.v
AsyncIo.v
Relay.v
RelayLive.v
Logger.v
ConfigAuto.v
Config.v
Server.v
Effects.v
Handler.v
Udp.v
UdpSession.v
UdpReplies.v
Ssrf.v
Typing.v
Percent.v
Grpc.v
GrpcConn.v
Ws.v
WsRelay.v
GrpcRelay.v
Net.v
Runner.v
Panel.v
Main.v
Service.v
Wire.v
Session.v
WsSession.v
GrpcSession.v
