(* ===== verification/Prelude.v ===== *)
(** * A verified model of the Trojan proxy server

    The server (the Rust crate under [src/]) accepts connections over TCP,
    WebSocket or gRPC, always behind TLS; reads a Trojan request; authenticates
    it; routes its target by an access-control list; and relays a TCP stream or
    UDP packets, billing the user.  A panel supplies the node's configuration
    and users and receives the traffic.  This library models the server from
    its bytes to its process and proves what makes it correct.

    ** How the program is modelled

    Pure functions are functions.  A byte is [Byte.byte], an integer is a [Z]
    whose width is written out where it can be left, an index is a [nat].  An
    access that Rust may refuse with a panic returns an [option], [None] being
    the panic, so that totality is a theorem.  Fallible code returns [result].
    A poll function maps a state to a state and a [poll].  A loop that is not
    structural has fuel, and a theorem says how much is enough.  Where tasks
    interleave, each atomic access is one function and a step relation or a
    sequence of events interleaves them.  Handlers that talk to the network are
    programs over their effects, run against an environment that answers from
    the history so far.  Code outside [src/] is a class, a parameter of what
    uses it; what the server relies on is a second class of laws, and a sample
    instance shows that the laws can hold.

    ** The files

    - [Prelude], [RustStd], [Text]: bytes, results, machine integers, lists;
      UTF-8, number and IP-address parsing and printing, string helpers of the
      Rust standard library.  [Error] ([error.rs]): the error enumeration and
      its messages.
    - [Protocol] ([core/protocol.rs]): addresses, request header, UDP packets.
      The decoders accept exactly the documented layouts, never panic, give
      final verdicts, and the checking, copying and zero-copy variants agree; a
      request for a one- or two-byte domain can stall, and a payload above
      65535 bytes is truncated.
    - [IpFilter] ([core/ip_filter.rs]), [Dns] ([core/dns.rs]): the filter of
      private addresses is a list of address blocks; resolution keeps the
      resolver's preference and screening lets only public addresses through.
    - [Acl] and [AclRouter] ([acl.rs]), [Hooks] ([core/hooks.rs]): outbounds
      built from the configuration, the routing decision, the traits of the
      core.  Routing is safe under [block_private_ip], but for a name the
      resolver answers with an empty list, which is let through unscreened; it
      looks names up only to connect to them.
    - [Codec], [Grpc], [GrpcConn], [Percent] ([transport/grpc/]): the message
      format, the tunnel over one HTTP/2 stream, and the connection with its
      heartbeat and idle close.  The parser is exact; the tunnel delivers and
      sends exactly the bytes it should, in bounded memory, up to and after a
      failed write, and each poll returns; a silent peer and an idle connection
      are given up, and only those.
    - [Ws] ([transport/ws.rs]): the WebSocket tunnel and its upgrade.  The same
      faithfulness, the end of the stream (an orderly close is an end, any other
      failure an error), the path guard and the early data.  [WsRelay] and
      [GrpcRelay] put the two tunnels under the relay, in any state they can get
      into: each keeps the contract of a stream.
    - [AsyncIo] ([transport/mod.rs]), [Relay] ([core/relay.rs]): streams as
      classes with laws; the relay loses and invents nothing under any schedule
      of polls, bills exactly what it wrote however it ends, returns from each
      poll, and ends by its timers; [RelayLive] shows that a relay that waits is
      blocked by its streams and never stalls.
    - [Connection] ([core/connection.rs]): the two indexes of live connections
      under any interleaving of registrations, removals and kicks.
    - [Logger], [ConfigAuto], [Config], [Server] ([logger.rs],
      [config_auto.rs], [config.rs], [core/server.rs]): levels and
      the subscriber, the automatic connection limit, validation and derived settings, the server object.
      What passes validation is safe to run with.
    - [Effects], [Handler], [Udp], [UdpSession], [UdpReplies] ([handler.rs]):
      the programs of a connection task.  A task reads, authenticates, registers,
      arms its scope guard, runs one command and unregisters, on every path; UDP
      packets are forwarded as they
      were framed, all of them while routes and dials allow, in bounded memory;
      replies come back framed as they arrived, and the bill is exact; a failed
      dial silences a proxy.
    - [Ssrf], [Typing]: routers, screening and handlers together.  No connection
      reaches the private network, unanswered names excepted, and every value a
      task hands to the network, the client or the bill is well-formed.
    - [Net] ([net.rs], [transport/tls.rs]), [Runner] ([server_runner.rs]),
      [Panel] ([business/mod.rs]), [Main] ([main.rs]): sockets and
      certificates, the accept loop with its permits, the traffic report, the
      process.  Permits bound the sessions and none is lost; a run registers
      after all local checks and unregisters once, after the last report, unless
      a signal handler cannot be installed, which aborts a release build.
    - [Service]: accept loop, connection tasks and manager together, as one step
      relation that the manager's own interleavings simulate.  Registered
      connections are authenticated sessions, as many as the permits allow, and
      none is left behind, also when an HTTP/2 connection ends and its sessions
      are dropped where they wait, which runs their scope guards; the removal of
      a user can miss a session that has authenticated and not yet registered.
    - [Wire], [Session], [WsSession], [GrpcSession]: the programs of a task run on
      their streams.  [Wire] gives every effect its meaning as calls of the client
      transport, the outbound stream, the relay and the collector; [Session]
      follows the bytes of a whole session, from the first one the client sends,
      to the remote or the UDP outside and back, and to the bill, for any client
      stream; the other two put the upgraded WebSocket and the accepted gRPC
      stream in its place, down to the messages of their wires.

    ** Bounds and fuel

    The copy loop of the relay, the read and send loops of the transports and
    the request reader take fuel; termination theorems give enough of it.  The
    streams under the relay are ready a bounded number of times ([CoopStream],
    and [TungsteniteCoop] for the messages of a WebSocket; no operation raises
    these measures, so they stand for what a finite run still brings).  Nothing of
    the kind is assumed of an HTTP/2 stream: a poll of a gRPC tunnel ends within rounds
    linear in what that stream hands over, or how often it reports capacity,
    within this poll; a whole session over gRPC is followed for streams whose
    peer sends, and whose window opens, finitely often ([H2Finite]).  A
    relay inside a session is given at each poll the fuel that its streams need
    ([schedule_at]), so a session theorem has no fuel.  A UDP session may last for
    ever and is observed for any number of rounds.  The drain loop at shutdown has 51 turns, enough
    for five seconds in steps of 100 ms.  Byte counters of one session are not
    wrapped.

    ** What is not modelled

    Log lines other than those of the two log helpers, their printing, and the
    periodic log of cache statistics; the capacity of buffers, as opposed to their contents; argument parsing, YAML
    and JSON decoding, the TLS, HTTP/2 and WebSocket libraries, the DNS cache,
    the ACL rule engine and the panel client, which are libraries the sources
    call and hence parameters; the background tasks, which run inside the panel
    library; the signal handler of systems other than Unix; module roots and
    tests. *)

From Stdlib Require Export ZArith Lia Bool List.
From Stdlib Require Export Strings.Byte.
From stdpp Require Export base tactics option list numbers strings gmap.

(** ** Bytes *)

Abbreviation byte := Init.Byte.byte.

Definition b2z (b : byte) : Z := Z.of_N (Byte.to_N b).
Definition b2n (b : byte) : nat := N.to_nat (Byte.to_N b).

(** [x as u8]: truncation to the low eight bits. *)
Definition z2b (z : Z) : byte :=
  default Byte.x00 (Byte.of_N (Z.to_N (z mod 256)%Z)).

#[export] Instance byte_eq_dec : EqDecision byte := Byte.byte_eq_dec.
#[export] Instance byte_countable : Countable byte :=
  inj_countable Byte.to_N Byte.of_N Byte.of_to_N.

Lemma b2z_range b : (0 ≤ b2z b < 256)%Z.
Proof. unfold b2z. pose proof (Byte.to_N_bounded b). lia. Qed.

Lemma b2z_b2n b : b2z b = Z.of_nat (b2n b).
Proof. unfold b2z, b2n. lia. Qed.

Lemma b2n_range b : b2n b < 256.
Proof. pose proof (b2z_range b). rewrite b2z_b2n in H. lia. Qed.

Lemma b2z_z2b z : b2z (z2b z) = (z mod 256)%Z.
Proof.
  unfold b2z, z2b. pose proof (Z.mod_pos_bound z 256 ltac:(lia)).
  destruct (Byte.of_N _) as [b|] eqn:E; simpl.
  - apply Byte.to_of_N in E. rewrite E. lia.
  - apply Byte.of_N_None_iff in E. lia.
Qed.

Lemma b2z_inj b1 b2 : b2z b1 = b2z b2 → b1 = b2.
Proof.
  unfold b2z. intros H. apply N2Z.inj in H.
  pose proof (Byte.of_to_N b1). pose proof (Byte.of_to_N b2). congruence.
Qed.

Lemma z2b_b2z b : z2b (b2z b) = b.
Proof. apply b2z_inj. rewrite b2z_z2b. apply Z.mod_small, b2z_range. Qed.

Lemma z2b_of_nat_b2n b : z2b (Z.of_nat (b2n b)) = b.
Proof. by rewrite <- b2z_b2n, z2b_b2z. Qed.

Lemma b2n_z2b_of_nat n : n < 256 → b2n (z2b (Z.of_nat n)) = n.
Proof.
  intros H. apply Nat2Z.inj. rewrite <- b2z_b2n, b2z_z2b. apply Z.mod_small. lia.
Qed.

(** ** Results, polls and panics

    A Rust [Result] keeps its two constructors.  A computation that may panic
    (index out of range, [unwrap] of [None], [unreachable!]) is an [option]:
    [None] is the panic, and stdpp's bind notation threads it. *)

Inductive result (A E : Type) : Type :=
| Ok (a : A)
| Err (e : E).
Arguments Ok {A E} a.
Arguments Err {A E} e.

#[export] Instance result_eq_dec {A E} `{EqDecision A, EqDecision E} : EqDecision (result A E).
Proof. solve_decision. Defined.

(** The [?] operator and [Result::map_err]. *)
Definition res_bind {A B E} (r : result A E) (k : A → result B E) : result B E :=
  match r with Ok a => k a | Err e => Err e end.

Notation "x <-? r ; k" := (res_bind r (λ x, k))
  (at level 20, r at level 100, k at level 200, only parsing).

Definition map_err {A E F} (f : E → F) (r : result A E) : result A F :=
  match r with Ok a => Ok a | Err e => Err (f e) end.

(** [core::task::Poll]. *)
Inductive poll (A : Type) : Type :=
| Ready (a : A)
| Pending.
Arguments Ready {A} a.
Arguments Pending {A}.

(** [&buf[i..j]]: a panic unless [i <= j <= buf.len()]. *)
Definition slice {A} (buf : list A) (i j : nat) : option (list A) :=
  if decide (i ≤ j ∧ j ≤ length buf) then Some (take (j - i) (drop i buf)) else None.

(** [dst.copy_from_slice(src)] into a fresh [[0u8; n]]: a panic unless the
    lengths agree. *)
Definition array_from_slice {A} (n : nat) (src : list A) : option (list A) :=
  if decide (length src = n) then Some src else None.

(** [BytesMut::split_to(at)]: (returned front, remaining buffer); a panic when
    [at] is past the end. *)
Definition split_to {A} (n : nat) (buf : list A) : option (list A * list A) :=
  if decide (n ≤ length buf) then Some (take n buf, drop n buf) else None.

(** ** Big-endian integers *)

Definition u16_from_be_bytes (b0 b1 : byte) : Z := (b2z b0 * 256 + b2z b1)%Z.
Definition u16_to_be_bytes (v : Z) : list byte := [z2b (v / 256); z2b v].
Definition u32_from_be_bytes (b0 b1 b2 b3 : byte) : Z :=
  (((b2z b0 * 256 + b2z b1) * 256 + b2z b2) * 256 + b2z b3)%Z.
Definition u32_to_be_bytes (v : Z) : list byte :=
  [z2b (v / 16777216); z2b (v / 65536); z2b (v / 256); z2b v].

Definition u16_max : Z := 65535.
Definition u32_max : Z := 4294967295.
Definition u64_max : Z := 18446744073709551615.
Definition is_u16 (v : Z) : Prop := (0 ≤ v ≤ u16_max)%Z.
Definition is_u32 (v : Z) : Prop := (0 ≤ v ≤ u32_max)%Z.
Definition is_u64 (v : Z) : Prop := (0 ≤ v ≤ u64_max)%Z.

#[export] Instance is_u16_dec v : Decision (is_u16 v).
Proof. unfold is_u16. apply _. Defined.

Lemma u16_from_be_range b0 b1 : is_u16 (u16_from_be_bytes b0 b1).
Proof.
  unfold is_u16, u16_max, u16_from_be_bytes.
  pose proof (b2z_range b0). pose proof (b2z_range b1). lia.
Qed.

Lemma u16_from_to_be v :
  is_u16 v → u16_from_be_bytes (z2b (v / 256)) (z2b v) = v.
Proof.
  unfold is_u16, u16_max, u16_from_be_bytes. intros H. rewrite !b2z_z2b.
  rewrite (Z.mod_small (v / 256)) by (split; [apply Z.div_pos|apply Z.div_lt_upper_bound]; lia).
  pose proof (Z.div_mod v 256). lia.
Qed.

Lemma u16_to_from_be b0 b1 : u16_to_be_bytes (u16_from_be_bytes b0 b1) = [b0; b1].
Proof.
  unfold u16_to_be_bytes, u16_from_be_bytes.
  pose proof (b2z_range b0). pose proof (b2z_range b1).
  f_equal; [|f_equal]; apply b2z_inj; rewrite b2z_z2b.
  - rewrite Z.div_add_l by lia. rewrite (Z.div_small (b2z b1)) by lia.
    rewrite Z.add_0_r. by apply Z.mod_small.
  - rewrite Z.add_comm, Z.mod_add by lia. by apply Z.mod_small.
Qed.

Lemma u32_from_to_be v :
  is_u32 v →
  u32_from_be_bytes (z2b (v / 16777216)) (z2b (v / 65536)) (z2b (v / 256)) (z2b v) = v.
Proof.
  unfold is_u32, u32_max, u32_from_be_bytes. intros H. rewrite !b2z_z2b.
  Z.to_euclidean_division_equations. lia.
Qed.

Lemma u32_from_be_range b0 b1 b2 b3 : is_u32 (u32_from_be_bytes b0 b1 b2 b3).
Proof.
  unfold is_u32, u32_max, u32_from_be_bytes.
  pose proof (b2z_range b0). pose proof (b2z_range b1).
  pose proof (b2z_range b2). pose proof (b2z_range b3). lia.
Qed.

(** ** Saturating and wrapping machine arithmetic *)

Definition saturating_sub (a b : Z) : Z := Z.max 0 (a - b).
Definition saturating_mul_u64 (a b : Z) : Z := Z.min u64_max (a * b).
Definition wrapping_add_u64 (a b : Z) : Z := ((a + b) mod (u64_max + 1))%Z.

(** ** Lemmas on slices and lookups *)

Lemma slice_Some {A} (buf : list A) i j :
  i ≤ j → j ≤ length buf → slice buf i j = Some (take (j - i) (drop i buf)).
Proof. intros. unfold slice. by rewrite decide_True by lia. Qed.

Lemma slice_mid {A} (l1 l2 l3 : list A) i j :
  i = length l1 → j = i + length l2 → slice (l1 ++ l2 ++ l3) i j = Some l2.
Proof.
  intros -> ->. rewrite slice_Some by (rewrite ?length_app; lia).
  rewrite drop_app_length. f_equal.
  rewrite take_app_le by lia. apply take_ge. lia.
Qed.

Lemma slice_front {A} (l1 l2 : list A) j :
  j = length l1 → slice (l1 ++ l2) 0 j = Some l1.
Proof. intros ->. apply (slice_mid []); done. Qed.

Lemma slice_to_end {A} (buf : list A) i :
  i ≤ length buf → slice buf i (length buf) = Some (drop i buf).
Proof.
  intros. rewrite slice_Some by lia. f_equal. apply take_ge. rewrite length_drop. lia.
Qed.

Lemma slice_length {A} (buf : list A) i j l : slice buf i j = Some l → length l = j - i.
Proof.
  unfold slice. case_decide; [|done]. intros [= <-]. rewrite length_take, length_drop. lia.
Qed.

Lemma array_from_slice_Some {A} n (l : list A) : length l = n → array_from_slice n l = Some l.
Proof. intros. unfold array_from_slice. by rewrite decide_True. Qed.

Lemma split_to_app {A} (l1 l2 : list A) n :
  n = length l1 → split_to n (l1 ++ l2) = Some (l1, l2).
Proof.
  intros ->. unfold split_to. rewrite decide_True by (rewrite length_app; lia).
  by rewrite take_app_length, drop_app_length.
Qed.

Lemma split_to_Some {A} (l : list A) n :
  n ≤ length l → split_to n l = Some (take n l, drop n l).
Proof. intros. unfold split_to. by rewrite decide_True. Qed.

(** A list of at least [n] elements splits after its first [n]. *)
Lemma list_split_at {A} (l : list A) n :
  n ≤ length l → ∃ l1 l2, l = l1 ++ l2 ∧ length l1 = n.
Proof.
  intros H. exists (take n l), (drop n l). rewrite take_drop, length_take. split; [done|lia].
Qed.

Lemma list_two_more {A} (l : list A) :
  2 ≤ length l → ∃ x y r, l = x :: y :: r.
Proof. destruct l as [|x [|y r]]; simpl; intros; [lia..|]. by exists x, y, r. Qed.

Lemma lookup_past {A} (l1 l2 : list A) k :
  length l1 ≤ k → (l1 ++ l2) !! k = l2 !! (k - length l1).
Proof. apply lookup_app_r. Qed.

Lemma drop_past {A} (l1 l2 : list A) k :
  length l1 ≤ k → drop k (l1 ++ l2) = drop (k - length l1) l2.
Proof. intros H. rewrite drop_app. by rewrite drop_ge by lia. Qed.

Lemma lookup_app_plus {A} (l1 l2 : list A) i : (l1 ++ l2) !! (length l1 + i) = l2 !! i.
Proof. rewrite lookup_past by lia. f_equal. lia. Qed.

Lemma lookup_app_here {A} (l1 l2 : list A) : (l1 ++ l2) !! length l1 = l2 !! 0.
Proof. rewrite lookup_past by lia. f_equal. lia. Qed.

Lemma drop_app_plus {A} (l1 l2 : list A) i : drop (length l1 + i) (l1 ++ l2) = drop i l2.
Proof. rewrite drop_past by lia. f_equal. lia. Qed.

Lemma ltb_add_l k n m : (k + n <? k + m + 2) = (n <? m + 2).
Proof. apply eq_iff_eq_true. rewrite !Nat.ltb_lt. lia. Qed.

Lemma length_u16_to_be v : length (u16_to_be_bytes v) = 2.
Proof. done. Qed.

(** A set whose elements are images of another set is no larger. *)
Lemma size_cover `{Countable K, Countable L} (f : K → option L) (X : gset K) (Y : gset L) :
  (∀ y, y ∈ Y → ∃ x, x ∈ X ∧ f x = Some y) → size Y ≤ size X.
Proof.
  intros Hf. unfold size, set_size. cbn.
  trans (length (omap f (elements X))).
  - apply submseteq_length, NoDup_submseteq; [apply NoDup_elements|].
    intros y (x & Hx & Hy)%elem_of_elements%Hf. apply list_elem_of_omap. exists x.
    by rewrite elem_of_elements.
  - induction (elements X) as [|x l IH]; [done|]. cbn. destruct (f x); cbn; lia.
Qed.

(** ** Automation

    [trojan] holds the side conditions that recur in the components; the
    tactics below compute through the guards and indexing steps of a decoder. *)

Create HintDb trojan discriminated.
#[export] Hint Resolve b2z_range b2n_range u16_from_be_range u32_from_be_range : trojan.
#[export] Hint Extern 1 (_ ≤ _) => lia : trojan.
#[export] Hint Extern 1 (_ < _) => lia : trojan.

Create Rewrite HintDb list_len.
#[export] Hint Rewrite @length_app @length_cons @length_nil @length_take @length_drop
  @length_insert @length_replicate : list_len.

Ltac len := autorewrite with list_len in *; simpl length in *; try lia.

(** One step of an [option] computation: reduce concrete lookups, drops and
    binds, leaving arithmetic alone. *)
Ltac opt_step := cbn [lookup list_lookup mbind option_bind drop Nat.sub]; rewrite ?drop_0.

(** Decide a guard [n <? m] of the goal (or of the hypotheses) by [lia]. *)
Ltac ltb_false := rewrite (proj2 (Nat.ltb_ge _ _)) by len.
Ltac ltb_true := rewrite (proj2 (Nat.ltb_lt _ _)) by len.

(** ** Bit operations *)

(** [(x << k) | y] is a sum when [y] fits below the shift. *)
Lemma lor_shiftl_add x y k :
  (0 ≤ k)%Z → (0 ≤ y < 2 ^ k)%Z → Z.lor (Z.shiftl x k) y = (x * 2 ^ k + y)%Z.
Proof.
  intros Hk Hy. rewrite <- Z.shiftl_mul_pow2 by done. symmetry. apply Z.add_nocarry_lor.
  apply Z.bits_inj'. intros n Hn. rewrite Z.land_spec, Z.bits_0, Z.shiftl_spec by done.
  destruct (Z.lt_ge_cases n k).
  - by rewrite Z.testbit_neg_r by lia.
  - rewrite (proj1 (Z.bounded_iff_bits_nonneg k y Hk ltac:(lia)) ltac:(lia)) by lia.
    apply andb_false_r.
Qed.

(** A mask of the high bits of a [w]-bit word is a rounding down. *)
Lemma land_high_mask x w k :
  (0 ≤ k ≤ w)%Z → (0 ≤ x < 2 ^ w)%Z →
  Z.land x (2 ^ w - 2 ^ k) = (x / 2 ^ k * 2 ^ k)%Z.
Proof.
  intros Hk Hx.
  assert (2 ^ w - 2 ^ k = Z.shiftl (Z.ones (w - k)) k)%Z as ->.
  { rewrite Z.shiftl_mul_pow2, Z.ones_equiv by lia.
    replace w with ((w - k) + k)%Z at 1 by lia. rewrite Z.pow_add_r by lia. lia. }
  rewrite <- Z.shiftr_div_pow2, <- Z.shiftl_mul_pow2 by lia.
  apply Z.bits_inj'. intros n Hn. rewrite Z.land_spec, !Z.shiftl_spec by done.
  destruct (Z.lt_ge_cases n k).
  - rewrite !(Z.testbit_neg_r _ (n - k)) by lia. apply andb_false_r.
  - rewrite Z.shiftr_spec by lia. replace (n - k + k)%Z with n by lia.
    destruct (Z.lt_ge_cases n w).
    + rewrite Z.ones_spec_low by lia. apply andb_true_r.
    + rewrite (proj1 (Z.bounded_iff_bits_nonneg w x ltac:(lia) ltac:(lia)) ltac:(lia)) by lia.
      done.
Qed.
