(* ===== verification/RustStd.v ===== *)
(** * The parts of Rust's standard library the server relies on

    UTF-8 validation ([core::str::from_utf8]), the ASCII helpers of [str] and
    [u8], and [std::net]: [Ipv4Addr], [Ipv6Addr] and [IpAddr] with their
    [FromStr] and [Display] implementations.  A Rust [String] is a Rocq
    [string], read as its sequence of bytes. *)

From S2P Require Import Prelude.

(** ** Strings and their bytes *)

Definition as_bytes (s : string) : list byte := String.list_byte_of_string s.
Definition of_bytes (bs : list byte) : string := String.string_of_list_byte bs.
Definition str_len (s : string) : nat := length (as_bytes s).

Lemma of_bytes_as_bytes s : of_bytes (as_bytes s) = s.
Proof. apply String.string_of_list_byte_of_string. Qed.

Lemma as_bytes_of_bytes bs : as_bytes (of_bytes bs) = bs.
Proof. apply String.list_byte_of_string_of_list_byte. Qed.

Lemma as_bytes_inj s1 s2 : as_bytes s1 = as_bytes s2 → s1 = s2.
Proof. intros H. by rewrite <- (of_bytes_as_bytes s1), H, of_bytes_as_bytes. Qed.

Lemma of_bytes_inj b1 b2 : of_bytes b1 = of_bytes b2 → b1 = b2.
Proof. intros H. by rewrite <- (as_bytes_of_bytes b1), H, as_bytes_of_bytes. Qed.

Lemma as_bytes_app s1 s2 : as_bytes (s1 +:+ s2) = as_bytes s1 ++ as_bytes s2.
Proof.
  unfold as_bytes. induction s1 as [|a s1 IH]; [done|].
  change (Ascii.byte_of_ascii a :: String.list_byte_of_string (s1 +:+ s2)
          = Ascii.byte_of_ascii a :: String.list_byte_of_string s1 ++ String.list_byte_of_string s2).
  by rewrite IH.
Qed.

(** A byte test by numeric range, as in Rust's [a..=b] patterns. *)
Definition in_range (lo hi : Z) (b : byte) : bool :=
  (lo <=? b2z b)%Z && (b2z b <=? hi)%Z.

Definition is_ascii_digit (b : byte) : bool := in_range 48 57 b.
Definition is_ascii_hexdigit (b : byte) : bool :=
  in_range 48 57 b || in_range 65 70 b || in_range 97 102 b.
Definition to_ascii_lowercase_byte (b : byte) : byte :=
  if in_range 65 90 b then z2b (b2z b + 32) else b.
Definition to_ascii_lowercase (s : string) : string :=
  of_bytes (map to_ascii_lowercase_byte (as_bytes s)).
Definition eq_ignore_ascii_case (s t : string) : bool :=
  bool_decide (to_ascii_lowercase s = to_ascii_lowercase t).

(** [str::trim_end_matches(c)], [str::rsplit(c).next()], [str::strip_prefix],
    [str::ends_with], for an ASCII character [c]. *)
Fixpoint drop_while {A} (p : A → bool) (l : list A) : list A :=
  match l with
  | [] => []
  | x :: l' => if p x then drop_while p l' else l
  end.

Fixpoint take_while {A} (p : A → bool) (l : list A) : list A :=
  match l with
  | [] => []
  | x :: l' => if p x then x :: take_while p l' else []
  end.

Definition is_byte (c b : byte) : bool := bool_decide (b = c).

Definition trim_end_byte (c : byte) (l : list byte) : list byte :=
  rev (drop_while (is_byte c) (rev l)).

Definition last_label (c : byte) (l : list byte) : list byte :=
  rev (take_while (λ b, negb (is_byte c b)) (rev l)).

Fixpoint strip_prefix (p l : list byte) : option (list byte) :=
  match p, l with
  | [], _ => Some l
  | x :: p', y :: l' => if decide (x = y) then strip_prefix p' l' else None
  | _ :: _, [] => None
  end.

Definition ends_with (suf l : list byte) : bool :=
  match strip_prefix (rev suf) (rev l) with Some _ => true | None => false end.

(** ** UTF-8 validation *)

Definition is_cont (b : byte) : bool := in_range 128 191 b.

(** The second byte allowed after a three-byte lead (no overlong forms, no
    surrogates) and after a four-byte lead (no overlong forms, at most
    U+10FFFF). *)
Definition utf8_second3 (b0 b1 : byte) : bool :=
  if (b2z b0 =? 224)%Z then in_range 160 191 b1
  else if (b2z b0 =? 237)%Z then in_range 128 159 b1
  else is_cont b1.

Definition utf8_second4 (b0 b1 : byte) : bool :=
  if (b2z b0 =? 240)%Z then in_range 144 191 b1
  else if (b2z b0 =? 244)%Z then in_range 128 143 b1
  else is_cont b1.

Fixpoint utf8_valid (bs : list byte) : bool :=
  match bs with
  | [] => true
  | b0 :: r0 =>
      if (b2z b0 <? 128)%Z then utf8_valid r0
      else if in_range 194 223 b0 then
        match r0 with
        | b1 :: r1 => is_cont b1 && utf8_valid r1
        | [] => false
        end
      else if in_range 224 239 b0 then
        match r0 with
        | b1 :: b2 :: r2 => utf8_second3 b0 b1 && is_cont b2 && utf8_valid r2
        | _ => false
        end
      else if in_range 240 244 b0 then
        match r0 with
        | b1 :: b2 :: b3 :: r3 =>
            utf8_second4 b0 b1 && is_cont b2 && is_cont b3 && utf8_valid r3
        | _ => false
        end
      else false
  end.

Definition from_utf8 (bs : list byte) : option string :=
  if utf8_valid bs then Some (of_bytes bs) else None.

Definition is_str (s : string) : Prop := utf8_valid (as_bytes s) = true.

Lemma from_utf8_spec bs s :
  from_utf8 bs = Some s ↔ is_str s ∧ as_bytes s = bs.
Proof.
  unfold from_utf8, is_str. split.
  - destruct (utf8_valid bs) eqn:E; intros [= <-]. by rewrite as_bytes_of_bytes.
  - intros [H <-]. by rewrite H, of_bytes_as_bytes.
Qed.

Example utf8_ascii : utf8_valid (as_bytes "example.com") = true.
Proof. reflexivity. Qed.
Example utf8_surrogate : utf8_valid [Byte.xed; Byte.xa0; Byte.x80] = false.
Proof. reflexivity. Qed.
Example utf8_euro : utf8_valid [Byte.xe2; Byte.x82; Byte.xac] = true.
Proof. reflexivity. Qed.

(** ** [std::net] addresses

    The octets of an address are a [list byte] of length 4 or 16
    ([ip_wf]), the way the Rust arrays [[u8; 4]] and [[u8; 16]] hold them. *)

Inductive IpAddr : Type :=
| V4 (octets : list byte)
| V6 (octets : list byte).

#[export] Instance ipaddr_eq_dec : EqDecision IpAddr.
Proof. solve_decision. Defined.

Definition ip_wf (ip : IpAddr) : Prop :=
  match ip with
  | V4 o => length o = 4
  | V6 o => length o = 16
  end.

(** The eight big-endian segments of an IPv6 address, and back. *)
Fixpoint segments (o : list byte) : list Z :=
  match o with
  | a :: b :: o' => u16_from_be_bytes a b :: segments o'
  | _ => []
  end.

Definition from_segments (s : list Z) : list byte := s ≫= u16_to_be_bytes.

Record SocketAddr := SocketAddrNew { sa_ip : IpAddr; sa_port : Z }.

#[export] Instance socketaddr_eq_dec : EqDecision SocketAddr.
Proof. solve_decision. Defined.

(** *** Parsing ([core::net::parser])

    The parser state is the unread input; a sub-parser that fails leaves it
    untouched ([read_atomically]). *)

Definition digit_raw (b : byte) : Z :=
  if in_range 48 57 b then b2z b - 48
  else if in_range 97 122 b then b2z b - 87
  else if in_range 65 90 b then b2z b - 55
  else 99.

Definition digit_val (radix : Z) (b : byte) : option Z :=
  if (digit_raw b <? radix)%Z then Some (digit_raw b) else None.

(** The digit loop of [read_number]: value and count of the digits read;
    [None] once [max_digits] is exceeded. *)
Fixpoint read_digits (radix : Z) (max_digits : nat) (acc : Z) (count : nat)
    (l : list byte) : option (Z * nat * list byte) :=
  match l with
  | b :: l' =>
      match digit_val radix b with
      | Some d =>
          if Nat.ltb max_digits (S count) then None
          else read_digits radix max_digits (acc * radix + d) (S count) l'
      | None => Some (acc, count, l)
      end
  | [] => Some (acc, count, l)
  end.

Definition read_number (radix : Z) (max_digits : nat) (allow_zero_prefix : bool)
    (limit : Z) (l : list byte) : option (Z * list byte) :=
  let has_leading_zero := match l with b :: _ => is_byte Byte.x30 b | [] => false end in
  match read_digits radix max_digits 0 0 l with
  | None => None
  | Some (v, count, rest) =>
      if Nat.eqb count 0 then None
      else if negb allow_zero_prefix && has_leading_zero && Nat.ltb 1 count then None
      else if (v <=? limit)%Z then Some (v, rest) else None
  end.

Definition read_given_char (c : byte) (l : list byte) : option (list byte) :=
  match l with
  | b :: l' => if is_byte c b then Some l' else None
  | [] => None
  end.

(** [read_separator(sep, index, inner)]: the separator is required before
    every item but the first. *)
Definition read_separator {A} (sep : byte) (index : nat)
    (inner : list byte → option (A * list byte)) (l : list byte) : option (A * list byte) :=
  match index with
  | 0 => inner l
  | _ => l' ← read_given_char sep l; inner l'
  end.

Fixpoint read_octets (index todo : nat) (l : list byte) : option (list byte * list byte) :=
  match todo with
  | 0 => Some ([], l)
  | S todo' =>
      '(v, l1) ← read_separator Byte.x2e index (read_number 10 3 false 255) l;
      '(vs, l2) ← read_octets (S index) todo' l1;
      Some (z2b v :: vs, l2)
  end.

Definition read_ipv4_addr (l : list byte) : option (list byte * list byte) :=
  read_octets 0 4 l.

(** [read_groups(p, groups)] with [limit = groups.len()]: the groups read,
    whether an embedded IPv4 address ended them, and the unread input. *)
Fixpoint read_groups (index todo : nat) (l : list byte) : list Z * bool * list byte :=
  match todo with
  | 0 => ([], false, l)
  | S todo' =>
      let plain :=
        match read_separator Byte.x3a index (read_number 16 4 true u16_max) l with
        | Some (g, l1) =>
            let '(gs, v4, l2) := read_groups (S index) todo' l1 in (g :: gs, v4, l2)
        | None => ([], false, l)
        end in
      match todo' with
      | 0 => plain
      | S _ =>
          match read_separator Byte.x3a index read_ipv4_addr l with
          | Some (o, l1) => (segments o, true, l1)
          | None => plain
          end
      end
  end.

Definition read_ipv6_addr (l : list byte) : option (list byte * list byte) :=
  let '(head, head_ipv4, l1) := read_groups 0 8 l in
  if Nat.eqb (length head) 8 then Some (from_segments head, l1)
  else if head_ipv4 then None
  else
    l2 ← read_given_char Byte.x3a l1;
    l3 ← read_given_char Byte.x3a l2;
    let '(tail, _, l4) := read_groups 0 (8 - (length head + 1)) l3 in
    Some (from_segments (head ++ repeat 0%Z (8 - length head - length tail) ++ tail), l4).

(** [parse_with]: the whole input must be consumed. *)
Definition parse_all {A} (r : option (A * list byte)) : option A :=
  match r with
  | Some (a, []) => Some a
  | _ => None
  end.

(** [str::parse::<IpAddr>()], [::<Ipv4Addr>()] and [::<Ipv6Addr>()]; [None]
    is [AddrParseError]. *)
Definition parse_ip (s : string) : option IpAddr :=
  let l := as_bytes s in
  match read_ipv4_addr l with
  | Some (o, rest) => parse_all (Some (V4 o, rest))
  | None => parse_all ('(o, rest) ← read_ipv6_addr l; Some (V6 o, rest))
  end.

Definition parse_ipv4 (s : string) : option (list byte) :=
  if Nat.ltb 15 (str_len s) then None else parse_all (read_ipv4_addr (as_bytes s)).

Definition parse_ipv6 (s : string) : option (list byte) := parse_all (read_ipv6_addr (as_bytes s)).

(** *** Printing ([Display]) *)

Definition digit_char (d : Z) : byte := if (d <? 10)%Z then z2b (48 + d) else z2b (87 + d).

Fixpoint show_digits (fuel : nat) (radix v : Z) (acc : list byte) : list byte :=
  match fuel with
  | 0 => acc
  | S fuel' =>
      let acc' := digit_char (v mod radix) :: acc in
      if (v / radix =? 0)%Z then acc' else show_digits fuel' radix (v / radix) acc'
  end.

(** [{}] and [{:x}] of an unsigned integer below [2^64]. *)
Definition show_dec (v : Z) : list byte := show_digits 20 10 v [].
Definition show_hex (v : Z) : list byte := show_digits 16 16 v [].

Fixpoint join (sep : list byte) (ls : list (list byte)) : list byte :=
  match ls with
  | [] => []
  | [l] => l
  | l :: ls' => l ++ sep ++ join sep ls'
  end.

Definition show_ipv4 (o : list byte) : list byte :=
  join [Byte.x2e] (map (λ b, show_dec (b2z b)) o).

(** The [zeroes] span of [Ipv6Addr]'s [Display]: start and length of the first
    longest run of zero segments. *)
Fixpoint longest_zero_run (i : nat) (cur best : nat * nat) (s : list Z) : nat * nat :=
  match s with
  | [] => best
  | x :: s' =>
      if (x =? 0)%Z then
        let cur' := if Nat.eqb cur.2 0 then (i, 1) else (cur.1, S cur.2) in
        longest_zero_run (S i) cur' (if Nat.ltb best.2 cur'.2 then cur' else best) s'
      else longest_zero_run (S i) (0, 0) best s'
  end.

Definition fmt_subslice (s : list Z) : list byte := join [Byte.x3a] (map show_hex s).

(** [Ipv6Addr::to_ipv4_mapped]. *)
Definition to_ipv4_mapped (o : list byte) : option (list byte) :=
  if decide (take 12 o = repeat Byte.x00 10 ++ [Byte.xff; Byte.xff])
  then Some (drop 12 o) else None.

Definition show_ipv6 (o : list byte) : list byte :=
  match to_ipv4_mapped o with
  | Some v4 => as_bytes "::ffff:" ++ show_ipv4 v4
  | None =>
      let s := segments o in
      let '(start, len) := longest_zero_run 0 (0, 0) (0, 0) s in
      if Nat.ltb 1 len then
        fmt_subslice (take start s) ++ as_bytes "::" ++ fmt_subslice (drop (start + len) s)
      else fmt_subslice s
  end.

Definition ip_to_string (ip : IpAddr) : string :=
  match ip with
  | V4 o => of_bytes (show_ipv4 o)
  | V6 o => of_bytes (show_ipv6 o)
  end.

Example show_v6_1 : ip_to_string (V6 (from_segments [0x2001; 0xdb8; 0; 0; 1; 0; 0; 1]%Z)) = "2001:db8::1:0:0:1".
Proof. vm_compute. reflexivity. Qed.
Example show_v6_2 : ip_to_string (V6 (from_segments [0; 0; 0; 0; 0; 0xffff; 0x7f00; 1]%Z)) = "::ffff:127.0.0.1".
Proof. vm_compute. reflexivity. Qed.
Example parse_v6_1 : parse_ip "2001:db8::1:0:0:1" = Some (V6 (from_segments [0x2001; 0xdb8; 0; 0; 1; 0; 0; 1]%Z)).
Proof. vm_compute. reflexivity. Qed.
Example parse_v6_2 : parse_ip "::ffff:127.0.0.1" = Some (V6 (from_segments [0; 0; 0; 0; 0; 0xffff; 0x7f00; 1]%Z)).
Proof. vm_compute. reflexivity. Qed.
Example parse_v6_3 : parse_ip "::" = Some (V6 (repeat Byte.x00 16)).
Proof. vm_compute. reflexivity. Qed.
Example parse_v4_1 : parse_ip "8.8.4.4" = Some (V4 [Byte.x08; Byte.x08; Byte.x04; Byte.x04]).
Proof. vm_compute. reflexivity. Qed.
Example parse_v4_2 : map parse_ip ["127.1"; "01.2.3.4"; "1.2.3.4."; "256.1.1.1"; "1::2::3"] = repeat None 5.
Proof. vm_compute. reflexivity. Qed.

(** ** Round trip of printing and parsing *)

(** The value of a digit string read from the left, most significant first. *)
Fixpoint digits_val (radix acc : Z) (l : list byte) : option Z :=
  match l with
  | [] => Some acc
  | b :: l' => d ← digit_val radix b; digits_val radix (acc * radix + d) l'
  end.

Definition stops (radix : Z) (rest : list byte) : Prop :=
  match rest with
  | [] => True
  | b :: _ => digit_val radix b = None
  end.

Lemma read_digits_app radix max acc count l rest v :
  digits_val radix acc l = Some v → count + length l ≤ max → stops radix rest →
  read_digits radix max acc count (l ++ rest) = Some (v, count + length l, rest).
Proof.
  revert acc count. induction l as [|b l IH]; simpl; intros acc count Hv Hlen Hstop.
  - simplify_eq. rewrite Nat.add_0_r. destruct rest; simpl in *; [done|]. by rewrite Hstop.
  - destruct (digit_val radix b) as [d|]; simpl in Hv; [|done].
    destruct (Nat.ltb_spec max (S count)); [lia|].
    rewrite (IH (acc * radix + d)%Z (S count)) by (done || lia). do 3 f_equal. lia.
Qed.

Lemma digit_val_char radix d :
  (0 ≤ d < radix)%Z → (radix ≤ 16)%Z → digit_val radix (digit_char d) = Some d.
Proof.
  intros H1 H2. unfold digit_val.
  assert (digit_raw (digit_char d) = d) as ->.
  { assert (∃ n, d = Z.of_nat n ∧ n < 16) as (n & -> & Hn) by (exists (Z.to_nat d); lia).
    clear H1 H2. do 16 (destruct n as [|n]; [reflexivity|]). lia. }
  by rewrite (proj2 (Z.ltb_lt _ _)) by lia.
Qed.

Lemma digits_val_app radix acc l1 l2 :
  digits_val radix acc (l1 ++ l2) = a ← digits_val radix acc l1; digits_val radix a l2.
Proof.
  revert acc. induction l1 as [|b l1 IH]; intros acc; simpl; [done|].
  destruct (digit_val radix b); simpl; auto.
Qed.

Lemma show_digits_acc fuel radix v acc :
  show_digits fuel radix v acc = show_digits fuel radix v [] ++ acc.
Proof.
  revert v acc. induction fuel as [|fuel IH]; intros v acc; simpl; [done|].
  destruct (v / radix =? 0)%Z; [done|].
  rewrite (IH _ (_ :: acc)), (IH _ [_]). by rewrite <- app_assoc.
Qed.

Lemma show_digits_spec k fuel radix v :
  (1 < radix ≤ 16)%Z → (0 ≤ v < radix ^ Z.of_nat (S k))%Z → k < fuel →
  digits_val radix 0 (show_digits fuel radix v []) = Some v
  ∧ 0 < length (show_digits fuel radix v []) ≤ S k.
Proof.
  intros Hr. revert fuel v. induction k as [|k IH]; intros [|fuel] v Hv Hf; [lia| |lia|]; simpl.
  - assert (v / radix = 0)%Z as -> by (apply Z.div_small; lia). simpl.
    rewrite Z.mod_small, digit_val_char by lia. simpl. split; [do 2 f_equal|]; lia.
  - pose proof (Z.mod_pos_bound v radix ltac:(lia)).
    destruct (Z.eqb_spec (v / radix) 0) as [E|E]; simpl.
    + rewrite digit_val_char by lia. simpl.
      pose proof (Z.div_mod v radix). split; [f_equal|]; lia.
    + rewrite show_digits_acc, digits_val_app, length_app.
      destruct (IH fuel (v / radix)%Z) as [-> ?]; [|lia|].
      { split; [apply Z.div_pos; lia|]. apply Z.div_lt_upper_bound; [lia|].
        rewrite <- Z.pow_succ_r by lia. replace (Z.succ (Z.of_nat (S k))) with (Z.of_nat (S (S k))) by lia. lia. }
      simpl. rewrite digit_val_char by lia. simpl.
      pose proof (Z.div_mod v radix). split; [f_equal|]; lia.
Qed.

Lemma show_dec_no_leading_zero (b : byte) :
  match show_dec (b2z b) with
  | c :: _ :: _ => negb (is_byte Byte.x30 c)
  | _ => true
  end = true.
Proof. destruct b; reflexivity. Qed.

Lemma read_number_dec b rest :
  stops 10 rest → read_number 10 3 false 255 (show_dec (b2z b) ++ rest) = Some (b2z b, rest).
Proof.
  intros Hs. pose proof (b2z_range b) as Hb. pose proof (show_dec_no_leading_zero b) as Hz.
  destruct (show_digits_spec 2 20 10 (b2z b)) as [Hv Hl]; [lia..|]. fold (show_dec (b2z b)) in *.
  unfold read_number. rewrite (read_digits_app _ _ _ _ _ _ _ Hv) by (done || lia). simpl.
  destruct (show_dec (b2z b)) as [|c l]; simpl in *; [lia|].
  destruct l as [|c' l]; simpl in *.
  - rewrite andb_false_r. by rewrite (proj2 (Z.leb_le _ _)) by lia.
  - destruct (is_byte Byte.x30 c); [done|]. simpl.
    by rewrite (proj2 (Z.leb_le _ _)) by lia.
Qed.

Lemma read_number_hex v rest :
  is_u16 v → stops 16 rest → read_number 16 4 true u16_max (show_hex v ++ rest) = Some (v, rest).
Proof.
  intros Hv Hs. unfold is_u16, u16_max in *.
  destruct (show_digits_spec 3 16 16 v) as [Hd Hl]; [lia..|]. fold (show_hex v) in *.
  unfold read_number. rewrite (read_digits_app _ _ _ _ _ _ _ Hd) by (done || lia). simpl.
  destruct (length (show_hex v)) eqn:E; [lia|].
  simpl. by rewrite (proj2 (Z.leb_le _ _)) by lia.
Qed.

Lemma read_given_char_same c l : read_given_char c (c :: l) = Some l.
Proof. unfold read_given_char, is_byte. by rewrite bool_decide_eq_true_2. Qed.

(** [Ipv4Addr]'s [Display] is read back exactly, whatever follows it, as long
    as what follows does not continue the last octet. *)
Lemma read_show_ipv4 o rest :
  length o = 4 → stops 10 rest → read_ipv4_addr (show_ipv4 o ++ rest) = Some (o, rest).
Proof.
  intros Ho Hs. destruct o as [|a [|b [|c [|d [|]]]]]; try discriminate Ho.
  unfold show_ipv4, read_ipv4_addr. cbn [map join]. rewrite <- !app_assoc.
  cbn [read_octets read_separator app].
  repeat (rewrite read_number_dec by done; cbn -[read_number show_dec read_given_char];
          rewrite ?read_given_char_same; cbn -[read_number show_dec read_given_char]).
  by rewrite !z2b_b2z.
Qed.

Lemma parse_show_ipv4 o : length o = 4 → parse_ip (ip_to_string (V4 o)) = Some (V4 o).
Proof.
  intros Ho. unfold parse_ip, ip_to_string. rewrite as_bytes_of_bytes.
  rewrite <- (app_nil_r (show_ipv4 o)), read_show_ipv4 by done. done.
Qed.

(** ** [std::io::Error]

    The kinds the server creates or inspects; any other OS error is [OsError]
    with its number.  A message is the literal text of the format string. *)

Inductive ErrorKind : Type :=
| EkNotFound
| EkTimedOut
| EkInvalidInput
| EkInvalidData
| EkUnexpectedEof
| EkWriteZero
| EkBrokenPipe
| EkConnectionReset
| EkOutOfMemory
| EkOther
| OsError (errno : Z).

#[export] Instance error_kind_eq_dec : EqDecision ErrorKind.
Proof. solve_decision. Defined.

Record io_error := IoError { err_kind : ErrorKind; err_msg : string }.

#[export] Instance io_error_eq_dec : EqDecision io_error.
Proof. solve_decision. Defined.
