(* ===== verification/Text.v ===== *)
(** * Text helpers of Rust's standard library used by the configuration code

    [str::to_lowercase], [str::trim], integer parsing, [str::split], and the
    parts of [std::path::Path] the server inspects. *)

From S2P Require Import Prelude RustStd.

(** [str::to_lowercase] as observed by comparisons with ASCII literals: of the
    letters outside ASCII only U+212A (the Kelvin sign) has an ASCII lower
    case; the others stay outside ASCII and are left as they are. *)
Fixpoint to_lowercase_bytes (l : list byte) : list byte :=
  match l with
  | Byte.xe2 :: Byte.x84 :: Byte.xaa :: l' => Byte.x6b :: to_lowercase_bytes l'
  | b :: l' => to_ascii_lowercase_byte b :: to_lowercase_bytes l'
  | [] => []
  end.

Definition to_lowercase (s : string) : string := of_bytes (to_lowercase_bytes (as_bytes s)).

Example to_lowercase_kelvin :
  to_lowercase (of_bytes [Byte.xe2; Byte.x84; Byte.xaa; Byte.x42]) = "kb".
Proof. reflexivity. Qed.

(** [u64::from_str] / [usize::from_str]: an optional plus sign and at least one
    digit, without overflow. *)
Fixpoint parse_digits (acc : Z) (l : list byte) : option Z :=
  match l with
  | [] => Some acc
  | b :: l' =>
      if is_ascii_digit b then
        let acc' := (acc * 10 + (b2z b - 48))%Z in
        if (acc' <=? u64_max)%Z then parse_digits acc' l' else None
      else None
  end.

Definition parse_u64 (s : string) : option Z :=
  match as_bytes s with
  | [] => None
  | Byte.x2b :: [] => None
  | Byte.x2b :: l => parse_digits 0 l
  | l => parse_digits 0 l
  end.

Lemma parse_digits_range acc l v :
  (0 ≤ acc ≤ u64_max)%Z → parse_digits acc l = Some v → is_u64 v.
Proof.
  revert acc. induction l as [|b l IH]; intros acc Ha; simpl; [by intros [= <-]|].
  destruct (is_ascii_digit b) eqn:Hd; [|done]. destruct (Z.leb_spec (acc * 10 + (b2z b - 48)) u64_max); [|done].
  apply IH. unfold is_ascii_digit, in_range in Hd. rewrite andb_true_iff, !Z.leb_le in Hd. lia.
Qed.

Lemma parse_u64_range s v : parse_u64 s = Some v → is_u64 v.
Proof.
  unfold parse_u64. intros H. assert (Hz : (0 ≤ 0 ≤ u64_max)%Z) by (unfold u64_max; lia).
  destruct (as_bytes s) as [|b l]; [done|].
  destruct b; try (by eapply parse_digits_range in H). destruct l; [done|].
  by eapply parse_digits_range in H.
Qed.

(** ** Whitespace

    The encodings of the characters with the Unicode property [White_Space]. *)
Definition white_space : list (list byte) :=
  [[Byte.x09]; [Byte.x0a]; [Byte.x0b]; [Byte.x0c]; [Byte.x0d]; [Byte.x20];
   [Byte.xc2; Byte.x85]; [Byte.xc2; Byte.xa0]; [Byte.xe1; Byte.x9a; Byte.x80];
   [Byte.xe2; Byte.x80; Byte.x80]; [Byte.xe2; Byte.x80; Byte.x81]; [Byte.xe2; Byte.x80; Byte.x82];
   [Byte.xe2; Byte.x80; Byte.x83]; [Byte.xe2; Byte.x80; Byte.x84]; [Byte.xe2; Byte.x80; Byte.x85];
   [Byte.xe2; Byte.x80; Byte.x86]; [Byte.xe2; Byte.x80; Byte.x87]; [Byte.xe2; Byte.x80; Byte.x88];
   [Byte.xe2; Byte.x80; Byte.x89]; [Byte.xe2; Byte.x80; Byte.x8a]; [Byte.xe2; Byte.x80; Byte.xa8];
   [Byte.xe2; Byte.x80; Byte.xa9]; [Byte.xe2; Byte.x80; Byte.xaf]; [Byte.xe2; Byte.x81; Byte.x9f];
   [Byte.xe3; Byte.x80; Byte.x80]].

(** The remainder after the first pattern of [ps] that is a prefix of [l]. *)
Fixpoint strip_any (ps : list (list byte)) (l : list byte) : option (list byte) :=
  match ps with
  | [] => None
  | p :: ps' => match strip_prefix p l with Some r => Some r | None => strip_any ps' l end
  end.

(** Strip patterns from the front until none fits. *)
Fixpoint strip_all (fuel : nat) (ps : list (list byte)) (l : list byte) : list byte :=
  match fuel with
  | 0 => l
  | S fuel' => match strip_any ps l with Some r => strip_all fuel' ps r | None => l end
  end.

Definition trim_start (l : list byte) : list byte := strip_all (length l) white_space l.
Definition trim_end (l : list byte) : list byte :=
  rev (strip_all (length l) (map (@rev byte) white_space) (rev l)).
Definition trim (l : list byte) : list byte := trim_end (trim_start l).

Lemma strip_prefix_length p l r : strip_prefix p l = Some r → length l = length p + length r.
Proof.
  revert l. induction p as [|x p IH]; intros l; simpl; [by intros [= <-]|].
  destruct l as [|y l]; [done|]. case_decide; [|done]. intros Hr. simpl. by rewrite (IH _ Hr).
Qed.

Lemma strip_prefix_app p l r : strip_prefix p l = Some r ↔ l = p ++ r.
Proof.
  revert l. induction p as [|x p IH]; intros l; simpl.
  - split; [by intros [= ->]|by intros ->].
  - destruct l as [|y l]; [done|]. case_decide as Hd.
    + rewrite IH. subst. split; [by intros ->|by intros [= ->]].
    + split; [done|]. intros [= -> _]. done.
Qed.

Lemma strip_any_shorter ps l r :
  Forall (λ p, p ≠ []) ps → strip_any ps l = Some r → length r < length l.
Proof.
  induction 1 as [|p ps Hp _ IH]; simpl; [done|].
  destruct (strip_prefix p l) as [r'|] eqn:E; [|done]. intros [= <-].
  apply strip_prefix_length in E. destruct p; [done|]. simpl in E. lia.
Qed.

(** With enough fuel nothing is left to strip. *)
Lemma strip_all_done ps fuel l :
  Forall (λ p, p ≠ []) ps → length l ≤ fuel → strip_any ps (strip_all fuel ps l) = None.
Proof.
  intros Hps. revert l. induction fuel as [|fuel IH]; intros l Hl; simpl.
  - destruct l; [|simpl in Hl; lia]. clear -Hps. induction Hps as [|p ps Hp _ IH]; simpl; [done|].
    by destruct p.
  - destruct (strip_any ps l) as [r|] eqn:E; [|done]. apply IH.
    apply strip_any_shorter in E; [lia|done].
Qed.

Lemma white_space_nonempty : Forall (λ p, p ≠ []) white_space.
Proof. repeat constructor; done. Qed.

Lemma rev_white_space_nonempty : Forall (λ p, p ≠ []) (map (@rev byte) white_space).
Proof. repeat constructor; done. Qed.

Lemma strip_all_suffix fuel ps l : ∃ p, l = p ++ strip_all fuel ps l.
Proof.
  revert l. induction fuel as [|fuel IH]; intros l; simpl; [by exists []|].
  destruct (strip_any ps l) as [r|] eqn:E; [|by exists []].
  destruct (IH r) as [p Hp].
  assert (Hr : ∃ q, l = q ++ r).
  { clear -E. induction ps as [|q ps IH]; simpl in E; [done|].
    destruct (strip_prefix q l) as [r'|] eqn:Eq; [|auto].
    injection E as <-. apply strip_prefix_app in Eq. eauto. }
  destruct Hr as [q ->]. exists (q ++ p). rewrite Hp at 1. by rewrite app_assoc.
Qed.

(** [str::split(c).next()]: the text before the first [c]. *)
Definition before (c : byte) (l : list byte) : list byte := take_while (λ b, negb (is_byte c b)) l.

(** ** Paths *)

(** [str::split(c)]. *)
Fixpoint split_on (c : byte) (l : list byte) : list (list byte) :=
  match l with
  | [] => [[]]
  | x :: l' =>
      if is_byte c x then [] :: split_on c l'
      else match split_on c l' with
           | part :: parts => (x :: part) :: parts
           | [] => [[x]]
           end
  end.

(** [Path::file_name]: the last component, unless it is [..]; empty and [.]
    components are dropped. *)
Definition file_name (path : string) : option (list byte) :=
  let comps := filter (λ c, c ≠ [] ∧ c ≠ [Byte.x2e]) (split_on Byte.x2f (as_bytes path)) in
  match last comps with
  | Some c => if decide (c = [Byte.x2e; Byte.x2e]) then None else Some c
  | None => None
  end.

(** [Path::extension]: what follows the last dot of the file name, unless the
    only dot is its first character. *)
Definition path_extension (path : string) : option string :=
  name ← file_name path;
  let ext := last_label Byte.x2e name in
  let stem_len := length name - length ext - 1 in
  if (length ext <? length name) && negb (stem_len =? 0) then Some (of_bytes ext) else None.

Example path_extension_examples :
  map path_extension ["/etc/acl.yaml"; "acl.YML"; ".yaml"; "a/b.tar.gz/"; "noext"; ".."]
  = [Some "yaml"; Some "YML"; None; Some "gz"; None; None].
Proof. vm_compute. reflexivity. Qed.
