(* ===== verification/Error.v ===== *)
(** * The error enumeration ([src/src/error.rs])

    Its constructors, its messages and its conversions.  [io::Error] and
    [anyhow::Error] print as their text. *)

From S2P Require Import Prelude RustStd.

Inductive TrojanError : Type :=
| Io (e : io_error)
| ConfigError (msg : string)
| ProtocolParse (msg : string)
| Authentication (msg : string)
| Tls (msg : string)
| ConnectionError (msg : string)
| TransportError (msg : string)
| Other (msg : string).

(** The tag a variant prints before its message, if any. *)
Definition error_tag (e : TrojanError) : option string :=
  match e with
  | Io _ => Some "IO error"
  | ConfigError _ => Some "Configuration error"
  | ProtocolParse _ => Some "Protocol parse error"
  | Authentication _ => Some "Authentication error"
  | Tls _ => Some "TLS error"
  | ConnectionError _ => Some "Network connection error"
  | TransportError _ => Some "Transport error"
  | Other _ => None
  end.

Definition error_text (e : TrojanError) : string :=
  match e with
  | Io e => err_msg e
  | ConfigError m | ProtocolParse m | Authentication m | Tls m | ConnectionError m
  | TransportError m | Other m => m
  end.

(** [Display]. *)
Definition error_fmt (e : TrojanError) : string :=
  match error_tag e with
  | Some tag => tag +:+ ": " +:+ error_text e
  | None => error_text e
  end.

(** [#[from] io::Error] and [From<anyhow::Error>]. *)
Definition from_io (e : io_error) : TrojanError := Io e.
Definition from_anyhow (msg : string) : TrojanError := Other msg.

(** A message before its first colon. *)
Fixpoint before_colon (l : list byte) : list byte :=
  match l with
  | [] => []
  | b :: l' => if decide (b = Byte.x3a) then [] else b :: before_colon l'
  end.

Lemma before_colon_app l rest :
  Forall (λ b, b ≠ Byte.x3a) l → before_colon (l ++ Byte.x3a :: rest) = l.
Proof. induction 1 as [|b l Hb _ IH]; simpl; [done|]. rewrite decide_False by done. by rewrite IH. Qed.

Lemma error_tag_no_colon e tag : error_tag e = Some tag → Forall (λ b, b ≠ Byte.x3a) (as_bytes tag).
Proof. destruct e; intros [= <-]; by repeat constructor. Qed.

(** Tagged errors are told apart by what they print, and the printed message
    determines the text; only an untagged error can print like another one. *)
Lemma error_fmt_injective e1 e2 t1 t2 :
  error_tag e1 = Some t1 → error_tag e2 = Some t2 → error_fmt e1 = error_fmt e2 →
  t1 = t2 ∧ error_text e1 = error_text e2.
Proof.
  intros H1 H2 He. unfold error_fmt in He. rewrite H1, H2 in He. apply (f_equal as_bytes) in He.
  rewrite !as_bytes_app in He. change (as_bytes ": ") with [Byte.x3a; Byte.x20] in He. cbn [app] in He.
  assert (Ht : as_bytes t1 = as_bytes t2).
  { apply (f_equal before_colon) in He.
    by rewrite !before_colon_app in He by (by eapply error_tag_no_colon). }
  rewrite Ht in He. apply as_bytes_inj in Ht as ->. split; [done|].
  apply app_inv_head in He. injection He as He. by apply as_bytes_inj.
Qed.
