(* ===== verification/Protocol.v ===== *)
(** * The Trojan wire protocol ([src/src/core/protocol.rs])

    Addresses, the request header and the UDP-over-TCP packets.  Every access
    into an attacker-controlled buffer is an [option] whose [None] is a Rust
    panic, so that totality of the decoders is a theorem and not a convention
    of the model. *)

From S2P Require Import Prelude RustStd.

(** ** Commands *)

Inductive TrojanCmd : Type :=
| Connect
| UdpAssociate.

#[export] Instance trojan_cmd_eq_dec : EqDecision TrojanCmd.
Proof. solve_decision. Defined.

Definition cmd_byte (c : TrojanCmd) : byte :=
  match c with Connect => Byte.x01 | UdpAssociate => Byte.x03 end.

(** [impl TryFrom<u8> for TrojanCmd]. *)
Definition cmd_try_from (value : byte) : result TrojanCmd string :=
  match value with
  | Byte.x01 => Ok Connect
  | Byte.x03 => Ok UdpAssociate
  | _ => Err "invalid trojan command"
  end.

Definition ATYP_IPV4 : byte := Byte.x01.
Definition ATYP_DOMAIN : byte := Byte.x03.
Definition ATYP_IPV6 : byte := Byte.x04.

Definition CR : byte := Byte.x0d.
Definition LF : byte := Byte.x0a.

(** ** Addresses *)

Inductive Address : Type :=
| IPv4 (ip : list byte) (port : Z)
| IPv6 (ip : list byte) (port : Z)
| Domain (domain : string) (port : Z).

#[export] Instance addr_eq_dec : EqDecision Address.
Proof. solve_decision. Defined.

#[export] Instance addr_countable : Countable Address.
Proof.
  refine (inj_countable'
    (λ a, match a with
          | IPv4 ip p => inl (inl (ip, p))
          | IPv6 ip p => inl (inr (ip, p))
          | Domain d p => inr (d, p)
          end)
    (λ s, match s with
          | inl (inl (ip, p)) => IPv4 ip p
          | inl (inr (ip, p)) => IPv6 ip p
          | inr (d, p) => Domain d p
          end) _).
  by intros [].
Defined.

(** The Rust types carry these facts: array lengths, port width, and UTF-8
    validity of a [String]. *)
Definition addr_typed (a : Address) : Prop :=
  match a with
  | IPv4 ip p => length ip = 4 ∧ is_u16 p
  | IPv6 ip p => length ip = 16 ∧ is_u16 p
  | Domain d p => is_str d ∧ is_u16 p
  end.

(** A typed address whose domain fits the one-byte length field. *)
Definition addr_wf (a : Address) : Prop :=
  addr_typed a ∧ match a with Domain d _ => str_len d ≤ 255 | _ => True end.

Inductive DecodeResult (A : Type) : Type :=
| Decoded (a : A) (consumed : nat)
| NeedMoreData
| Invalid (msg : string).
Arguments Decoded {A} a consumed.
Arguments NeedMoreData {A}.
Arguments Invalid {A} msg.

Module Address.

Definition from_ip (ip : IpAddr) (port : Z) : Address :=
  match ip with
  | V4 o => IPv4 o port
  | V6 o => IPv6 o port
  end.

Definition literal_ip (a : Address) : option IpAddr :=
  match a with
  | IPv4 ip _ => Some (V4 ip)
  | IPv6 ip _ => Some (V6 ip)
  | Domain d _ => parse_ip d
  end.

Definition decode (buf : list byte) : option (DecodeResult Address) :=
  if decide (buf = []) then Some NeedMoreData else
  atyp ← buf !! 0;
  if decide (atyp = ATYP_IPV4) then
    if length buf <? 7 then Some NeedMoreData else
    src ← slice buf 1 5;
    ip ← array_from_slice 4 src;
    b5 ← buf !! 5;
    b6 ← buf !! 6;
    Some (Decoded (IPv4 ip (u16_from_be_bytes b5 b6)) 7)
  else if decide (atyp = ATYP_IPV6) then
    if length buf <? 19 then Some NeedMoreData else
    src ← slice buf 1 17;
    ip ← array_from_slice 16 src;
    b17 ← buf !! 17;
    b18 ← buf !! 18;
    Some (Decoded (IPv6 ip (u16_from_be_bytes b17 b18)) 19)
  else if decide (atyp = ATYP_DOMAIN) then
    if length buf <? 2 then Some NeedMoreData else
    b1 ← buf !! 1;
    let domain_len := b2n b1 in
    let total_len := 1 + 1 + domain_len + 2 in
    if length buf <? total_len then Some NeedMoreData else
    bytes ← slice buf 2 (2 + domain_len);
    match from_utf8 bytes with
    | None => Some (Invalid "invalid domain encoding")
    | Some domain =>
        bh ← buf !! (2 + domain_len);
        bl ← buf !! (3 + domain_len);
        Some (Decoded (Domain domain (u16_from_be_bytes bh bl)) total_len)
    end
  else Some (Invalid "invalid address type").

(** [encode(&self, buf)]: the extended buffer and the number of bytes written.
    The [debug_assert!] on the domain length is compiled out of release
    builds; the truncation to 255 bytes below it is what remains. *)
Definition encode (a : Address) (buf : list byte) : list byte * nat :=
  let start_len := length buf in
  let buf' :=
    match a with
    | IPv4 ip port => buf ++ [ATYP_IPV4] ++ ip ++ u16_to_be_bytes port
    | IPv6 ip port => buf ++ [ATYP_IPV6] ++ ip ++ u16_to_be_bytes port
    | Domain domain port =>
        buf ++ [ATYP_DOMAIN] ++ [z2b (Z.of_nat (Nat.min (str_len domain) 255))]
            ++ take (Nat.min (str_len domain) 255) (as_bytes domain)
            ++ u16_to_be_bytes port
    end in
  (buf', length buf' - start_len).

Definition port (a : Address) : Z :=
  match a with IPv4 _ p => p | IPv6 _ p => p | Domain _ p => p end.

Definition host (a : Address) : string :=
  match a with
  | IPv4 ip _ => ip_to_string (V4 ip)
  | IPv6 ip _ => ip_to_string (V6 ip)
  | Domain domain _ => domain
  end.

(** [impl Display for Address]. *)
Definition fmt (a : Address) : string :=
  match a with
  | IPv4 ip p => ip_to_string (V4 ip) +:+ ":" +:+ of_bytes (show_dec p)
  | IPv6 ip p => "[" +:+ ip_to_string (V6 ip) +:+ "]:" +:+ of_bytes (show_dec p)
  | Domain d p => d +:+ ":" +:+ of_bytes (show_dec p)
  end.

End Address.

(** ** Requests *)

Record TrojanRequest := MkRequest {
  password : list byte;
  cmd : TrojanCmd;
  addr : Address;
  payload : list byte;
}.

Module TrojanRequest.

Definition MIN_SIZE : nat := 68.

(** [Err(None)] asks for more data, [Err(Some(msg))] is a malformed header. *)
Definition check_complete (buf : list byte) : option (result nat (option string)) :=
  if length buf <? MIN_SIZE then Some (Err None) else
  b56 ← buf !! 56;
  b57 ← buf !! 57;
  if decide (b56 ≠ CR ∨ b57 ≠ LF) then Some (Err (Some "missing CRLF after password")) else
  b58 ← buf !! 58;
  match cmd_try_from b58 with
  | Err _ => Some (Err (Some "invalid trojan command"))
  | Ok _ =>
      tail ← slice buf 59 (length buf);
      addr_result ← Address.decode tail;
      match addr_result with
      | NeedMoreData => Some (Err None)
      | Invalid msg => Some (Err (Some msg))
      | Decoded _ addr_consumed =>
          let crlf_pos := 59 + addr_consumed in
          if length buf <? crlf_pos + 2 then Some (Err None) else
          c0 ← buf !! crlf_pos;
          c1 ← buf !! (crlf_pos + 1);
          if decide (c0 ≠ CR ∨ c1 ≠ LF) then Some (Err (Some "missing CRLF after address")) else
          Some (Ok (crlf_pos + 2))
      end
  end.

(** [decode_zerocopy(&mut buf)]: the result and the buffer it leaves. *)
Definition decode_zerocopy (buf : list byte) : option (DecodeResult TrojanRequest * list byte) :=
  if length buf <? MIN_SIZE then Some (NeedMoreData, buf) else
  pw ← slice buf 0 56;
  password ← array_from_slice 56 pw;
  b56 ← buf !! 56;
  b57 ← buf !! 57;
  if decide (b56 ≠ CR ∨ b57 ≠ LF) then Some (Invalid "missing CRLF after password", buf) else
  b58 ← buf !! 58;
  match cmd_try_from b58 with
  | Err msg => Some (Invalid msg, buf)
  | Ok cmd =>
      tail ← slice buf 59 (length buf);
      addr_result ← Address.decode tail;
      match addr_result with
      | NeedMoreData => Some (NeedMoreData, buf)
      | Invalid msg => Some (Invalid msg, buf)
      | Decoded addr addr_consumed =>
          let crlf_pos := 59 + addr_consumed in
          if length buf <? crlf_pos + 2 then Some (NeedMoreData, buf) else
          c0 ← buf !! crlf_pos;
          c1 ← buf !! (crlf_pos + 1);
          if decide (c0 ≠ CR ∨ c1 ≠ LF) then Some (Invalid "missing CRLF after address", buf) else
          let header_len := crlf_pos + 2 in
          '(_, rest) ← split_to header_len buf;
          Some (Decoded (MkRequest password cmd addr rest) header_len, [])
      end
  end.

End TrojanRequest.

(** ** UDP packets inside the TCP stream *)

Record TrojanUdpPacket := MkUdpPacket { udp_addr : Address; udp_payload : list byte }.

Module TrojanUdpPacket.

Definition MIN_SIZE : nat := 11.

Definition decode (buf : list byte) : option (DecodeResult TrojanUdpPacket) :=
  if length buf <? MIN_SIZE then Some NeedMoreData else
  r ← Address.decode buf;
  match r with
  | NeedMoreData => Some NeedMoreData
  | Invalid msg => Some (Invalid msg)
  | Decoded addr addr_len =>
      if length buf <? addr_len + 4 then Some NeedMoreData else
      l0 ← buf !! addr_len;
      l1 ← buf !! (addr_len + 1);
      let payload_len := Z.to_nat (u16_from_be_bytes l0 l1) in
      c0 ← buf !! (addr_len + 2);
      c1 ← buf !! (addr_len + 3);
      if decide (c0 ≠ CR ∨ c1 ≠ LF) then Some (Invalid "missing CRLF in UDP packet") else
      let total_len := addr_len + 4 + payload_len in
      if length buf <? total_len then Some NeedMoreData else
      payload ← slice buf (addr_len + 4) total_len;
      Some (Decoded (MkUdpPacket addr payload) total_len)
  end.

Definition decode_zerocopy (buf : list byte) : option (DecodeResult TrojanUdpPacket * list byte) :=
  if length buf <? MIN_SIZE then Some (NeedMoreData, buf) else
  r ← Address.decode buf;
  match r with
  | NeedMoreData => Some (NeedMoreData, buf)
  | Invalid msg => Some (Invalid msg, buf)
  | Decoded addr addr_len =>
      if length buf <? addr_len + 4 then Some (NeedMoreData, buf) else
      l0 ← buf !! addr_len;
      l1 ← buf !! (addr_len + 1);
      let payload_len := Z.to_nat (u16_from_be_bytes l0 l1) in
      c0 ← buf !! (addr_len + 2);
      c1 ← buf !! (addr_len + 3);
      if decide (c0 ≠ CR ∨ c1 ≠ LF) then Some (Invalid "missing CRLF in UDP packet", buf) else
      let total_len := addr_len + 4 + payload_len in
      if length buf <? total_len then Some (NeedMoreData, buf) else
      let header_len := addr_len + 4 in
      '(_, buf1) ← split_to header_len buf;
      '(payload, buf2) ← split_to payload_len buf1;
      Some (Decoded (MkUdpPacket addr payload) total_len, buf2)
  end.

(** [payload.len() as u16] truncates. *)
Definition encode (addr : Address) (payload : list byte) : list byte :=
  let '(buf, _) := Address.encode addr [] in
  buf ++ u16_to_be_bytes (Z.of_nat (length payload)) ++ [CR; LF] ++ payload.

End TrojanUdpPacket.

(** ** The address codec *)

(** The wire form of an address: what [Address.encode] appends. *)
Definition wire (a : Address) : list byte := (Address.encode a []).1.

Lemma encode_wire a buf : Address.encode a buf = (buf ++ wire a, length (wire a)).
Proof.
  unfold wire, Address.encode. destruct a; simpl; f_equal; rewrite length_app; simpl; lia.
Qed.

Lemma wire_domain d p :
  str_len d ≤ 255 →
  wire (Domain d p)
  = ATYP_DOMAIN :: z2b (Z.of_nat (str_len d)) :: as_bytes d ++ u16_to_be_bytes p.
Proof.
  intros H. unfold wire. simpl. rewrite Nat.min_l by done.
  rewrite take_ge by done. done.
Qed.

Lemma length_wire_ip4 ip p : length ip = 4 → length (wire (IPv4 ip p)) = 7.
Proof. intros H. unfold wire. simpl. rewrite length_app, H. done. Qed.

Lemma length_wire_ip6 ip p : length ip = 16 → length (wire (IPv6 ip p)) = 19.
Proof. intros H. unfold wire. simpl. rewrite length_app, H. done. Qed.

Lemma length_wire_domain d p : str_len d ≤ 255 → length (wire (Domain d p)) = 4 + str_len d.
Proof. intros H. rewrite wire_domain by done. simpl. rewrite length_app. unfold str_len. simpl. lia. Qed.

(** [Address.decode] on each of its three complete shapes. *)
Lemma decode_ip4_shape ip h l rest :
  length ip = 4 →
  Address.decode (ATYP_IPV4 :: ip ++ h :: l :: rest)
  = Some (Decoded (IPv4 ip (u16_from_be_bytes h l)) 7).
Proof.
  intros Hip. destruct ip as [|a [|b [|c [|d [|]]]]]; done.
Qed.

Lemma decode_ip6_shape ip h l rest :
  length ip = 16 →
  Address.decode (ATYP_IPV6 :: ip ++ h :: l :: rest)
  = Some (Decoded (IPv6 ip (u16_from_be_bytes h l)) 19).
Proof.
  intros Hip. do 16 (destruct ip as [|? ip]; [done|]). destruct ip; done.
Qed.

Lemma decode_domain_shape n ds h l rest :
  length ds = b2n n →
  Address.decode (ATYP_DOMAIN :: n :: ds ++ h :: l :: rest)
  = Some (match from_utf8 ds with
          | Some d => Decoded (Domain d (u16_from_be_bytes h l)) (4 + b2n n)
          | None => Invalid "invalid domain encoding"
          end).
Proof.
  intros Hds. unfold Address.decode. simpl. rewrite length_app. simpl.
  ltb_false. change (ATYP_DOMAIN :: n :: ds ++ h :: l :: rest)
    with ([ATYP_DOMAIN; n] ++ ds ++ h :: l :: rest).
  rewrite slice_mid by (simpl; lia). simpl.
  destruct (from_utf8 ds) as [d|]; [|done].
  rewrite (list_lookup_middle ds (l :: rest) h (b2n n)) by lia. simpl.
  rewrite (cons_middle h ds), app_assoc.
  rewrite (list_lookup_middle (ds ++ [h]) rest l) by len. simpl.
  do 3 f_equal. lia.
Qed.

Lemma decode_wire a rest :
  addr_wf a → Address.decode (wire a ++ rest) = Some (Decoded a (length (wire a))).
Proof.
  intros [Ht Hd]. destruct a as [ip p|ip p|d p].
  - destruct Ht as [Hip Hp]. rewrite length_wire_ip4 by done. unfold wire. simpl.
    rewrite <- app_assoc. simpl. rewrite decode_ip4_shape by done. by rewrite u16_from_to_be.
  - destruct Ht as [Hip Hp]. rewrite length_wire_ip6 by done. unfold wire. simpl.
    rewrite <- app_assoc. simpl. rewrite decode_ip6_shape by done. by rewrite u16_from_to_be.
  - destruct Ht as [Hs Hp]. rewrite length_wire_domain, wire_domain by done. simpl.
    rewrite <- app_assoc. simpl.
    assert (b2n (z2b (Z.of_nat (str_len d))) = str_len d) as Hb by (apply b2n_z2b_of_nat; lia).
    rewrite decode_domain_shape by (by rewrite Hb). rewrite Hb.
    assert (from_utf8 (as_bytes d) = Some d) as -> by (by apply from_utf8_spec).
    by rewrite u16_from_to_be.
Qed.

(** What the decoder needs to see of a buffer before it can decide. *)
Definition wanted (buf : list byte) : nat :=
  match buf with
  | [] => 1
  | t :: r =>
      if decide (t = ATYP_IPV4) then 7
      else if decide (t = ATYP_IPV6) then 19
      else if decide (t = ATYP_DOMAIN) then match r with [] => 2 | n :: _ => 4 + b2n n end
      else 1
  end.

(** Every outcome of [Address.decode], with the shape of the buffer that
    causes it. *)
Inductive decode_view : list byte → DecodeResult Address → Prop :=
| view_ok a rest :
    addr_wf a → decode_view (wire a ++ rest) (Decoded a (length (wire a)))
| view_more buf :
    length buf < wanted buf → decode_view buf NeedMoreData
| view_bad_type t rest :
    t ≠ ATYP_IPV4 → t ≠ ATYP_IPV6 → t ≠ ATYP_DOMAIN →
    decode_view (t :: rest) (Invalid "invalid address type")
| view_bad_utf8 n ds h l rest :
    length ds = b2n n → from_utf8 ds = None →
    decode_view (ATYP_DOMAIN :: n :: ds ++ h :: l :: rest) (Invalid "invalid domain encoding").

Lemma split_ip_port n (r : list byte) :
  n + 2 ≤ length r → ∃ ip h l rest, r = ip ++ h :: l :: rest ∧ length ip = n.
Proof.
  intros H. destruct (list_split_at r n) as (ip & r' & -> & Hip); [lia|].
  destruct (list_two_more r') as (h & l & rest & ->); [len|].
  by exists ip, h, l, rest.
Qed.

Lemma decode_ip_short t r k :
  (t = ATYP_IPV4 ∧ k = 7) ∨ (t = ATYP_IPV6 ∧ k = 19) →
  S (length r) < k → Address.decode (t :: r) = Some NeedMoreData.
Proof. intros [[-> ->]|[-> ->]] H; unfold Address.decode; simpl; by ltb_true. Qed.

Lemma decode_domain_short r :
  S (length r) < wanted (ATYP_DOMAIN :: r) → Address.decode (ATYP_DOMAIN :: r) = Some NeedMoreData.
Proof.
  destruct r as [|n r]; [done|]. simpl. intros H. unfold Address.decode. simpl. by ltb_true.
Qed.

Lemma wire_ip4_shape ip h l rest :
  ATYP_IPV4 :: ip ++ h :: l :: rest = wire (IPv4 ip (u16_from_be_bytes h l)) ++ rest.
Proof. unfold wire. simpl. rewrite u16_to_from_be, <- app_assoc. done. Qed.

Lemma wire_ip6_shape ip h l rest :
  ATYP_IPV6 :: ip ++ h :: l :: rest = wire (IPv6 ip (u16_from_be_bytes h l)) ++ rest.
Proof. unfold wire. simpl. rewrite u16_to_from_be, <- app_assoc. done. Qed.

Lemma wire_domain_shape d n h l rest :
  str_len d = b2n n →
  ATYP_DOMAIN :: n :: as_bytes d ++ h :: l :: rest
  = wire (Domain d (u16_from_be_bytes h l)) ++ rest.
Proof.
  intros Hd. pose proof (b2n_range n). rewrite wire_domain by lia.
  simpl. rewrite u16_to_from_be, Hd, z2b_of_nat_b2n. by rewrite <- app_assoc.
Qed.

Lemma decode_view_ip4 r : ∃ o, Address.decode (ATYP_IPV4 :: r) = Some o ∧ decode_view (ATYP_IPV4 :: r) o.
Proof.
  destruct (decide (S (length r) < 7)) as [Hs|Hs].
  { exists NeedMoreData. split; [eapply decode_ip_short; eauto|]. by apply view_more. }
  destruct (split_ip_port 4 r) as (ip & h & l & rest & -> & Hip); [lia|].
  rewrite decode_ip4_shape by done. eexists. split; [done|].
  rewrite wire_ip4_shape, <- (length_wire_ip4 ip (u16_from_be_bytes h l)) by done.
  apply view_ok. repeat split; try done; apply u16_from_be_range.
Qed.

Lemma decode_view_ip6 r : ∃ o, Address.decode (ATYP_IPV6 :: r) = Some o ∧ decode_view (ATYP_IPV6 :: r) o.
Proof.
  destruct (decide (S (length r) < 19)) as [Hs|Hs].
  { exists NeedMoreData. split; [eapply decode_ip_short; eauto|]. by apply view_more. }
  destruct (split_ip_port 16 r) as (ip & h & l & rest & -> & Hip); [lia|].
  rewrite decode_ip6_shape by done. eexists. split; [done|].
  rewrite wire_ip6_shape, <- (length_wire_ip6 ip (u16_from_be_bytes h l)) by done.
  apply view_ok. repeat split; try done; apply u16_from_be_range.
Qed.

Lemma decode_view_domain r :
  ∃ o, Address.decode (ATYP_DOMAIN :: r) = Some o ∧ decode_view (ATYP_DOMAIN :: r) o.
Proof.
  destruct (decide (S (length r) < wanted (ATYP_DOMAIN :: r))) as [Hs|Hs].
  { exists NeedMoreData. split; [by apply decode_domain_short|]. by apply view_more. }
  destruct r as [|n r]; [simpl in Hs; lia|]. simpl in Hs.
  destruct (split_ip_port (b2n n) r) as (ds & h & l & rest & -> & Hds); [simpl in *; lia|].
  rewrite decode_domain_shape by done. eexists. split; [done|].
  destruct (from_utf8 ds) as [d|] eqn:Hu; [|by apply view_bad_utf8].
  apply from_utf8_spec in Hu as [Hd <-].
  pose proof (b2n_range n) as Hn. fold (str_len d) in Hds.
  rewrite wire_domain_shape, <- Hds, <- (length_wire_domain d (u16_from_be_bytes h l)) by lia.
  apply view_ok. repeat split; try done; try apply u16_from_be_range. lia.
Qed.

Lemma decode_viewP buf : ∃ r, Address.decode buf = Some r ∧ decode_view buf r.
Proof.
  destruct buf as [|t r].
  { eexists. split; [done|]. apply view_more. simpl. lia. }
  destruct (decide (t = ATYP_IPV4)) as [->|N4]; [apply decode_view_ip4|].
  destruct (decide (t = ATYP_IPV6)) as [->|N6]; [apply decode_view_ip6|].
  destruct (decide (t = ATYP_DOMAIN)) as [->|Nd]; [apply decode_view_domain|].
  exists (Invalid "invalid address type"). split; [|by apply view_bad_type].
  unfold Address.decode. simpl. by rewrite !decide_False.
Qed.

Lemma decode_total buf : is_Some (Address.decode buf).
Proof. destruct (decode_viewP buf) as (r & -> & _). by eexists. Qed.

Lemma decode_iff buf a n :
  Address.decode buf = Some (Decoded a n)
  ↔ addr_wf a ∧ n = length (wire a) ∧ ∃ rest, buf = wire a ++ rest.
Proof.
  split.
  - intros H. destruct (decode_viewP buf) as (r & E & V). rewrite H in E. simplify_eq.
    inversion V; subst. eauto.
  - intros (Hwf & -> & rest & ->). by apply decode_wire.
Qed.

Lemma decode_stable buf more r :
  Address.decode buf = Some r → r ≠ NeedMoreData → Address.decode (buf ++ more) = Some r.
Proof.
  intros H Hr. destruct (decode_viewP buf) as (r' & E & V). rewrite H in E. simplify_eq.
  inversion V as [a rest Hwf| |t rest N4 N6 Nd|n ds h l rest Hds Hu]; subst; [|done| |].
  - rewrite <- app_assoc. by apply decode_wire.
  - unfold Address.decode. simpl. by rewrite !decide_False.
  - simpl. rewrite <- app_assoc. simpl. rewrite decode_domain_shape by done. by rewrite Hu.
Qed.

Lemma decode_prefix a k :
  addr_wf a → k < length (wire a) → Address.decode (take k (wire a)) = Some NeedMoreData.
Proof.
  intros Hwf Hk. destruct (decode_total (take k (wire a))) as [r Hr].
  assert (Hs : r ≠ NeedMoreData → Address.decode (wire a) = Some r).
  { intros Hn. rewrite <- (take_drop k (wire a)). by apply decode_stable. }
  rewrite <- (app_nil_r (wire a)), decode_wire in Hs by done.
  destruct r as [a' n| |m]; [| done |]; specialize (Hs ltac:(done)); simplify_eq.
  apply decode_iff in Hr as (_ & _ & rest & Hr).
  apply (f_equal length) in Hr. len.
Qed.

(** The address codec is exact.  [Address::decode] accepts a buffer with
    address [a] and length [n] if and only if [a] is well formed (array
    lengths, 16-bit port, UTF-8 domain of at most 255 bytes), [n] is the number
    of bytes [Address::encode] writes for [a], and the buffer starts with
    exactly those bytes. *)
Theorem address_codec_exact buf a n :
  Address.decode buf = Some (Decoded a n)
  ↔ addr_wf a ∧ n = (Address.encode a []).2
    ∧ ∃ rest, buf = (Address.encode a []).1 ++ rest.
Proof. rewrite encode_wire. apply decode_iff. Qed.

(** The address decoder is a total, incremental parser.  It never panics;
    a verdict other than "need more data" is final when more bytes arrive; and
    every strict prefix of an encoded address asks for more data. *)
Theorem address_decode_incremental :
  (∀ buf, is_Some (Address.decode buf))
  ∧ (∀ buf more r,
       Address.decode buf = Some r → r ≠ NeedMoreData →
       Address.decode (buf ++ more) = Some r)
  ∧ (∀ a k, addr_wf a → k < (Address.encode a []).2 →
       Address.decode (take k (Address.encode a []).1) = Some NeedMoreData).
Proof.
  split_and!; [apply decode_total|apply decode_stable|].
  intros a k. rewrite encode_wire. apply decode_prefix.
Qed.

(** ** The request header *)

Definition request_typed (r : TrojanRequest) : Prop :=
  length (password r) = 56 ∧ addr_wf (addr r).

(** The documented layout: password, CRLF, command, address, CRLF. *)
Definition header_wire (r : TrojanRequest) : list byte :=
  password r ++ [CR; LF; cmd_byte (cmd r)] ++ wire (addr r) ++ [CR; LF].

Lemma cmd_try_from_byte c : cmd_try_from (cmd_byte c) = Ok c.
Proof. by destruct c. Qed.

Lemma cmd_try_from_inv b :
  match cmd_try_from b with
  | Ok c => b = cmd_byte c
  | Err m => m = "invalid trojan command"
  end.
Proof. by destruct b. Qed.

Lemma crlf_guard c0 c1 : ¬ (c0 ≠ CR ∨ c1 ≠ LF) → c0 = CR ∧ c1 = LF.
Proof. destruct (decide (c0 = CR)), (decide (c1 = LF)); tauto. Qed.

Lemma header_shape (buf : list byte) :
  59 ≤ length buf →
  ∃ pw c0 c1 k tail, buf = pw ++ c0 :: c1 :: k :: tail ∧ length pw = 56.
Proof.
  intros H. destruct (list_split_at buf 56) as (pw & r & -> & Hpw); [lia|].
  destruct r as [|c0 [|c1 [|k tail]]]; [len..|]. by exists pw, c0, c1, k, tail.
Qed.

(** Both request parsers, computed on a buffer of the right shape. *)
Section request_shape.
Context (pw : list byte) (c0 c1 k : byte) (tail : list byte).
Context (Hpw : length pw = 56) (Htail : 9 ≤ length tail).

Local Abbreviation buf := (pw ++ c0 :: c1 :: k :: tail).

Lemma check_complete_shape :
  TrojanRequest.check_complete buf =
    if decide (c0 ≠ CR ∨ c1 ≠ LF) then Some (Err (Some "missing CRLF after password")) else
    match cmd_try_from k with
    | Err _ => Some (Err (Some "invalid trojan command"))
    | Ok _ =>
        r ← Address.decode tail;
        match r with
        | NeedMoreData => Some (Err None)
        | Invalid msg => Some (Err (Some msg))
        | Decoded _ n =>
            if length tail <? n + 2 then Some (Err None) else
            d0 ← tail !! n;
            d1 ← tail !! (n + 1);
            if decide (d0 ≠ CR ∨ d1 ≠ LF) then Some (Err (Some "missing CRLF after address"))
            else Some (Ok (59 + n + 2))
        end
    end.
Proof.
  unfold TrojanRequest.check_complete, TrojanRequest.MIN_SIZE.
  assert (Hlen : length buf = 59 + length tail) by len.
  ltb_false. rewrite !(lookup_past pw) by lia. rewrite Hpw. opt_step.
  case_decide; [done|]. destruct (cmd_try_from k); [|done].
  rewrite slice_to_end, (drop_past pw) by lia. rewrite Hpw. opt_step.
  destruct (Address.decode tail) as [[a' n| |m]|]; [|done..]. opt_step.
  rewrite Hlen. rewrite (ltb_add_l 59). destruct (_ <? _); [done|].
  rewrite !(lookup_past pw) by lia.
  replace (59 + n + 1 - length pw) with (3 + (n + 1)) by lia.
  replace (59 + n - length pw) with (3 + n) by lia. done.
Qed.

Lemma decode_zerocopy_shape :
  TrojanRequest.decode_zerocopy buf =
    if decide (c0 ≠ CR ∨ c1 ≠ LF) then Some (Invalid "missing CRLF after password", buf) else
    match cmd_try_from k with
    | Err m => Some (Invalid m, buf)
    | Ok c =>
        r ← Address.decode tail;
        match r with
        | NeedMoreData => Some (NeedMoreData, buf)
        | Invalid msg => Some (Invalid msg, buf)
        | Decoded a n =>
            if length tail <? n + 2 then Some (NeedMoreData, buf) else
            d0 ← tail !! n;
            d1 ← tail !! (n + 1);
            if decide (d0 ≠ CR ∨ d1 ≠ LF) then Some (Invalid "missing CRLF after address", buf)
            else Some (Decoded (MkRequest pw c a (drop (n + 2) tail)) (59 + n + 2), [])
        end
    end.
Proof.
  unfold TrojanRequest.decode_zerocopy, TrojanRequest.MIN_SIZE.
  assert (Hlen : length buf = 59 + length tail) by len.
  ltb_false. rewrite slice_front by done. opt_step.
  rewrite array_from_slice_Some by done. opt_step.
  rewrite !(lookup_past pw) by lia. rewrite Hpw. opt_step.
  case_decide; [done|]. destruct (cmd_try_from k) as [c|]; [|done].
  rewrite slice_to_end, (drop_past pw) by lia. rewrite Hpw. opt_step.
  destruct (Address.decode tail) as [[a' n| |m]|]; [|done..]. opt_step.
  rewrite Hlen. rewrite (ltb_add_l 59). destruct (Nat.ltb_spec (length tail) (n + 2)); [done|].
  rewrite !(lookup_past pw), split_to_Some, (drop_past pw) by (rewrite ?Hlen; lia).
  replace (59 + n + 1 - length pw) with (3 + (n + 1)) by lia.
  replace (59 + n + 2 - length pw) with (3 + (n + 2)) by lia.
  replace (59 + n - length pw) with (3 + n) by lia. done.
Qed.

End request_shape.

(** What [check_complete] answers, [decode_zerocopy] does. *)
Lemma check_complete_agrees buf :
  match TrojanRequest.check_complete buf with
  | Some (Ok n) => ∃ req, TrojanRequest.decode_zerocopy buf = Some (Decoded req n, [])
  | Some (Err None) => TrojanRequest.decode_zerocopy buf = Some (NeedMoreData, buf)
  | Some (Err (Some msg)) => TrojanRequest.decode_zerocopy buf = Some (Invalid msg, buf)
  | None => False
  end.
Proof.
  destruct (decide (length buf < 68)) as [Hs|Hs].
  { unfold TrojanRequest.check_complete, TrojanRequest.decode_zerocopy, TrojanRequest.MIN_SIZE.
    by ltb_true. }
  destruct (header_shape buf) as (pw & c0 & c1 & k & tail & -> & Hpw); [lia|].
  rewrite check_complete_shape, decode_zerocopy_shape by len.
  case_decide; [done|].
  pose proof (cmd_try_from_inv k). destruct (cmd_try_from k) as [c|m]; [|by subst m].
  destruct (decode_total tail) as [[a n| |m] ->]; opt_step; [|done..].
  destruct (Nat.ltb_spec (length tail) (n + 2)); [done|].
  destruct (lookup_lt_is_Some_2 tail n) as [d0 ->]; [lia|].
  destruct (lookup_lt_is_Some_2 tail (n + 1)) as [d1 ->]; [lia|]. opt_step.
  case_decide; [done|]. by eexists.
Qed.

Lemma request_decode_wire r :
  request_typed r → 68 ≤ length (header_wire r ++ payload r) →
  TrojanRequest.decode_zerocopy (header_wire r ++ payload r)
  = Some (Decoded r (length (header_wire r)), []).
Proof.
  destruct r as [pw c a pl]. unfold request_typed, header_wire. simpl. intros [Hpw Ha] Hlen.
  rewrite <- app_assoc. simpl. rewrite decode_zerocopy_shape by len.
  rewrite decide_False by (intros [?|?]; done). rewrite cmd_try_from_byte.
  rewrite <- !app_assoc, decode_wire by done. opt_step. ltb_false.
  rewrite lookup_app_here, lookup_app_plus, drop_app_plus. simpl. do 3 f_equal. len.
Qed.

Lemma request_decode_inv buf r n buf' :
  TrojanRequest.decode_zerocopy buf = Some (Decoded r n, buf') →
  request_typed r ∧ buf = header_wire r ++ payload r ∧ n = length (header_wire r) ∧ buf' = []
  ∧ 68 ≤ length buf.
Proof.
  intros H. destruct (decide (length buf < 68)) as [Hs|Hs].
  { unfold TrojanRequest.decode_zerocopy, TrojanRequest.MIN_SIZE in H.
    rewrite (proj2 (Nat.ltb_lt _ _)) in H by done. done. }
  destruct (header_shape buf) as (pw & c0 & c1 & k & tail & -> & Hpw); [lia|].
  rewrite decode_zerocopy_shape in H by len. case_decide as Hc; [done|].
  pose proof (cmd_try_from_inv k) as Hk. destruct (cmd_try_from k) as [c|m]; [|done]. subst k.
  destruct (Address.decode tail) as [[a m| |m]|] eqn:Ha; simpl in H; try done.
  apply decode_iff in Ha as (Hwf & -> & rest & ->).
  destruct (Nat.ltb_spec (length (wire a ++ rest)) (length (wire a) + 2)) as [|Hl]; [done|].
  destruct (list_two_more rest) as (d0 & d1 & rest' & ->); [len|].
  rewrite lookup_app_here, lookup_app_plus, drop_app_plus in H. simpl in H.
  case_decide as Hd; [done|]. simplify_eq.
  apply crlf_guard in Hc as [-> ->].
  apply crlf_guard in Hd as [-> ->].
  unfold request_typed, header_wire. simpl. split_and!; try done.
  - rewrite <- !app_assoc. simpl. by rewrite <- app_assoc.
  - len.
  - len.
Qed.

(** ** UDP packets *)

Definition udp_wf (p : TrojanUdpPacket) : Prop :=
  addr_wf (udp_addr p) ∧ (Z.of_nat (length (udp_payload p)) ≤ u16_max)%Z.

(** [decode] once the address is known, on the bytes after it. *)
Definition udp_after_addr (a : Address) (n : nat) (rest : list byte)
    : DecodeResult TrojanUdpPacket :=
  match rest with
  | l0 :: l1 :: c0 :: c1 :: body =>
      let payload_len := Z.to_nat (u16_from_be_bytes l0 l1) in
      if decide (c0 ≠ CR ∨ c1 ≠ LF) then Invalid "missing CRLF in UDP packet"
      else if length body <? payload_len then NeedMoreData
      else Decoded (MkUdpPacket a (take payload_len body)) (n + 4 + payload_len)
  | _ => NeedMoreData
  end.

Lemma udp_decode_after_addr a rest :
  addr_wf a → 11 ≤ length (wire a ++ rest) →
  TrojanUdpPacket.decode (wire a ++ rest) = Some (udp_after_addr a (length (wire a)) rest).
Proof.
  intros Ha Hlen. unfold TrojanUdpPacket.decode, TrojanUdpPacket.MIN_SIZE.
  ltb_false. rewrite decode_wire by done. opt_step. rewrite length_app.
  destruct rest as [|l0 [|l1 [|c0 [|c1 body]]]]; [by ltb_true..|].
  ltb_false. rewrite lookup_app_here, !lookup_app_plus. opt_step. unfold udp_after_addr.
  set (k := Z.to_nat _). case_decide; [done|].
  replace (_ <? _) with (length body <? k) by (apply eq_iff_eq_true; rewrite !Nat.ltb_lt; len).
  destruct (Nat.ltb_spec (length body) k); [done|].
  rewrite slice_Some by len. rewrite drop_app_plus. simpl. by replace (_ - _) with k by lia.
Qed.

Lemma udp_zerocopy_after_addr a rest :
  addr_wf a → 11 ≤ length (wire a ++ rest) →
  TrojanUdpPacket.decode_zerocopy (wire a ++ rest)
  = Some (udp_after_addr a (length (wire a)) rest,
          match udp_after_addr a (length (wire a)) rest with
          | Decoded _ n => drop n (wire a ++ rest)
          | _ => wire a ++ rest
          end).
Proof.
  intros Ha Hlen. unfold TrojanUdpPacket.decode_zerocopy, TrojanUdpPacket.MIN_SIZE.
  ltb_false. rewrite decode_wire by done. opt_step. rewrite length_app.
  destruct rest as [|l0 [|l1 [|c0 [|c1 body]]]]; [by ltb_true..|].
  ltb_false. rewrite lookup_app_here, !lookup_app_plus. opt_step. unfold udp_after_addr.
  set (k := Z.to_nat _). case_decide; [done|].
  replace (_ <? _) with (length body <? k) by (apply eq_iff_eq_true; rewrite !Nat.ltb_lt; len).
  destruct (Nat.ltb_spec (length body) k); [done|].
  rewrite split_to_Some by len. opt_step. rewrite drop_app_plus. cbn [drop].
  rewrite drop_0, split_to_Some by lia. opt_step.
  by rewrite <- Nat.add_assoc, drop_app_plus.
Qed.

Lemma udp_zerocopy_agrees buf :
  ∃ r, TrojanUdpPacket.decode buf = Some r
     ∧ TrojanUdpPacket.decode_zerocopy buf
       = Some (r, match r with Decoded _ n => drop n buf | _ => buf end).
Proof.
  destruct (decide (length buf < 11)) as [Hs|Hs].
  { exists NeedMoreData. unfold TrojanUdpPacket.decode, TrojanUdpPacket.decode_zerocopy,
      TrojanUdpPacket.MIN_SIZE. by ltb_true. }
  destruct (decode_viewP buf) as (r & E & V). inversion V; subst;
    [rewrite udp_decode_after_addr, udp_zerocopy_after_addr by (done || lia); by eexists|..];
    unfold TrojanUdpPacket.decode, TrojanUdpPacket.decode_zerocopy, TrojanUdpPacket.MIN_SIZE;
    rewrite (proj2 (Nat.ltb_ge _ _)), E by lia; by eexists.
Qed.

Lemma udp_encode_eq a pl :
  TrojanUdpPacket.encode a pl
  = wire a ++ u16_to_be_bytes (Z.of_nat (length pl)) ++ [CR; LF] ++ pl.
Proof. unfold TrojanUdpPacket.encode. by rewrite encode_wire. Qed.

(** [len as u16]. *)
Definition as_u16 (n : nat) : nat := Z.to_nat (Z.of_nat n mod (u16_max + 1)).

Lemma as_u16_le n : as_u16 n ≤ n.
Proof. unfold as_u16, u16_max. pose proof (Z.mod_le (Z.of_nat n) (65535 + 1)). lia. Qed.

Lemma as_u16_small n : (Z.of_nat n ≤ u16_max)%Z → as_u16 n = n.
Proof. unfold as_u16, u16_max. intros. rewrite Z.mod_small; lia. Qed.

Lemma u16_len_wraps n :
  Z.to_nat (u16_from_be_bytes (z2b (Z.of_nat n / 256)) (z2b (Z.of_nat n))) = as_u16 n.
Proof.
  unfold u16_from_be_bytes, as_u16, u16_max. rewrite !b2z_z2b. f_equal.
  Z.to_euclidean_division_equations. lia.
Qed.

Lemma udp_decode_encode a pl rest :
  addr_wf a → 11 ≤ length (TrojanUdpPacket.encode a pl ++ rest) →
  TrojanUdpPacket.decode (TrojanUdpPacket.encode a pl ++ rest)
  = Some (Decoded (MkUdpPacket a (take (as_u16 (length pl)) pl))
                  (length (wire a) + 4 + as_u16 (length pl))).
Proof.
  rewrite udp_encode_eq. rewrite <- !app_assoc. intros Ha Hl.
  rewrite udp_decode_after_addr by done. simpl. rewrite u16_len_wraps.
  pose proof (as_u16_le (length pl)).
  rewrite (proj2 (Nat.ltb_ge _ _)) by len. by rewrite take_app_le by lia.
Qed.

Lemma udp_decode_inv buf p n :
  TrojanUdpPacket.decode buf = Some (Decoded p n) →
  11 ≤ length buf ∧ udp_wf p
  ∧ n = length (TrojanUdpPacket.encode (udp_addr p) (udp_payload p))
  ∧ ∃ rest, buf = TrojanUdpPacket.encode (udp_addr p) (udp_payload p) ++ rest.
Proof.
  intros H. destruct (decide (length buf < 11)) as [Hs|Hs].
  { unfold TrojanUdpPacket.decode, TrojanUdpPacket.MIN_SIZE in H.
    by rewrite (proj2 (Nat.ltb_lt _ _)) in H by done. }
  destruct (decode_viewP buf) as (r & E & V). inversion V as [a rest Ha| | |]; subst;
    [|unfold TrojanUdpPacket.decode, TrojanUdpPacket.MIN_SIZE in H;
      rewrite (proj2 (Nat.ltb_ge _ _)), E in H by lia; done..].
  rewrite udp_decode_after_addr in H by (done || lia).
  destruct rest as [|l0 [|l1 [|c0 [|c1 body]]]]; [done..|]. unfold udp_after_addr in H.
  pose proof (u16_from_be_range l0 l1) as Hu. unfold is_u16, u16_max in Hu.
  case_decide as Hc; [done|]. destruct (Nat.ltb_spec (length body) (Z.to_nat (u16_from_be_bytes l0 l1))) as [|Hb]; [done|].
  injection H as <- <-. simpl. rewrite udp_encode_eq, length_take, Nat.min_l by done.
  rewrite Z2Nat.id, u16_to_from_be by lia.
  apply crlf_guard in Hc as [-> ->].
  split; [lia|]. split; [|split].
  - split; [done|]. simpl. rewrite length_take. unfold u16_max. lia.
  - rewrite !length_app, length_take. simpl. lia.
  - exists (drop (Z.to_nat (u16_from_be_bytes l0 l1)) body).
    rewrite <- !app_assoc. simpl. by rewrite take_drop.
Qed.

(** ** Properties of requests and packets *)

(** C21: [check_complete] and [decode_zerocopy] agree on every buffer: the same
    header length, the same request for more data, the same error message; and
    neither panics.  In particular the [unreachable!] after a successful
    [check_complete] is unreachable. *)
Theorem request_parsers_agree buf :
  match TrojanRequest.check_complete buf with
  | Some (Ok n) => ∃ req, TrojanRequest.decode_zerocopy buf = Some (Decoded req n, [])
  | Some (Err None) => TrojanRequest.decode_zerocopy buf = Some (NeedMoreData, buf)
  | Some (Err (Some msg)) => TrojanRequest.decode_zerocopy buf = Some (Invalid msg, buf)
  | None => False
  end.
Proof. apply check_complete_agrees. Qed.

(** C16: the request decoder accepts exactly the documented layout.  It returns
    request [r] and header length [n] iff the buffer is
    password(56) CRLF cmd address CRLF payload for the fields of [r] and holds
    at least [MIN_SIZE] bytes; the whole buffer is consumed and everything
    after the header becomes the payload. *)
Theorem request_codec_exact buf r n buf' :
  TrojanRequest.decode_zerocopy buf = Some (Decoded r n, buf')
  ↔ request_typed r ∧ buf = header_wire r ++ payload r ∧ n = length (header_wire r)
    ∧ buf' = [] ∧ TrojanRequest.MIN_SIZE ≤ length buf.
Proof.
  split; [apply request_decode_inv|].
  intros (Hr & -> & -> & -> & Hl). by apply request_decode_wire.
Qed.

Lemma length_header r : length (password r) = 56 → length (header_wire r) = 61 + length (wire (addr r)).
Proof. intros H. unfold header_wire. len. Qed.

Lemma header_below_min r :
  request_typed r →
  length (header_wire r ++ payload r) < TrojanRequest.MIN_SIZE ↔
  match addr r with
  | Domain d _ => str_len d + length (payload r) < 3
  | _ => False
  end.
Proof.
  intros [Hpw [Ht Hd]]. unfold TrojanRequest.MIN_SIZE. rewrite length_app, length_header by done.
  destruct (addr r) as [ip p|ip p|d p].
  - rewrite length_wire_ip4 by apply Ht. lia.
  - rewrite length_wire_ip6 by apply Ht. lia.
  - rewrite length_wire_domain by done. lia.
Qed.

(** C22: [MIN_SIZE] assumes a seven-byte address, so a complete and valid
    request for a domain of at most two bytes is not recognised: the parsers
    ask for more data exactly when domain and payload together have fewer than
    three bytes, and accept every other complete request. *)
Theorem request_short_domain_stalls r :
  request_typed r →
  TrojanRequest.check_complete (header_wire r ++ payload r)
  = Some (match addr r with
          | Domain d _ =>
              if decide (str_len d + length (payload r) < 3) then Err None
              else Ok (length (header_wire r))
          | _ => Ok (length (header_wire r))
          end).
Proof.
  intros Hr. pose proof (header_below_min r Hr) as Hmin.
  pose proof (check_complete_agrees (header_wire r ++ payload r)) as Hc.
  destruct (decide (length (header_wire r ++ payload r) < TrojanRequest.MIN_SIZE)) as [Hs|Hs].
  - apply Hmin in Hs as Hs'. destruct (addr r); [done..|]. rewrite decide_True by done.
    unfold TrojanRequest.check_complete. by rewrite (proj2 (Nat.ltb_lt _ _)).
  - rewrite (request_decode_wire r Hr) in Hc by (unfold TrojanRequest.MIN_SIZE in Hs; lia).
    assert (Hok : TrojanRequest.check_complete (header_wire r ++ payload r)
                  = Some (Ok (length (header_wire r)))).
    { destruct (TrojanRequest.check_complete _) as [[m|[m|]]|]; try done.
      by destruct Hc as (? & [= _ <-]). }
    rewrite Hok. destruct (addr r); [done..|]. rewrite decide_False; [done|]. tauto.
Qed.

Definition sample_request : TrojanRequest :=
  MkRequest (repeat Byte.x61 56) Connect (Domain "ab" 443) [].

Lemma request_short_domain_stalls_witness :
  TrojanRequest.check_complete (header_wire sample_request ++ payload sample_request)
  = Some (Err None).
Proof.
  apply (request_short_domain_stalls sample_request).
  vm_compute. repeat split; try discriminate; auto with arith.
Defined.

(** The copying and the zero-copy UDP decoders give the same verdict on
    every buffer and never panic; the zero-copy one removes exactly the packet
    it returns from the front of the buffer and leaves the buffer untouched
    otherwise. *)
Theorem udp_decoders_agree buf :
  ∃ r, TrojanUdpPacket.decode buf = Some r
     ∧ TrojanUdpPacket.decode_zerocopy buf
       = Some (r, match r with Decoded _ n => drop n buf | _ => buf end).
Proof. apply udp_zerocopy_agrees. Qed.

(** C23: UDP packet decoding is exact.  A buffer decodes to packet [p] with
    length [n] iff it holds at least [MIN_SIZE] bytes, [p] has a well-formed
    address and a payload of at most 65535 bytes, and the buffer starts with
    the [n] bytes [TrojanUdpPacket::encode] produces for [p]. *)
Theorem udp_codec_exact buf p n :
  TrojanUdpPacket.decode buf = Some (Decoded p n)
  ↔ TrojanUdpPacket.MIN_SIZE ≤ length buf ∧ udp_wf p
    ∧ n = length (TrojanUdpPacket.encode (udp_addr p) (udp_payload p))
    ∧ ∃ rest, buf = TrojanUdpPacket.encode (udp_addr p) (udp_payload p) ++ rest.
Proof.
  split; [apply udp_decode_inv|].
  intros (Hl & [Ha Hp] & -> & rest & ->). rewrite udp_decode_encode by done.
  rewrite as_u16_small, take_ge by (done || lia). rewrite udp_encode_eq. destruct p; simpl.
  do 3 f_equal. len.
Qed.

(** C24: the 16-bit length field truncates.  For a well-formed address and a
    payload of any size, decoding an encoded packet yields the address and the
    first [len as u16] bytes of the payload: the packet itself below 65536
    bytes, a shortened payload (and an out-of-sync stream) from there on. *)
Theorem udp_encode_truncates a pl rest :
  addr_wf a → TrojanUdpPacket.MIN_SIZE ≤ length (TrojanUdpPacket.encode a pl ++ rest) →
  TrojanUdpPacket.decode (TrojanUdpPacket.encode a pl ++ rest)
  = Some (Decoded (MkUdpPacket a (take (as_u16 (length pl)) pl))
                  ((Address.encode a []).2 + 4 + as_u16 (length pl))).
Proof. rewrite encode_wire. apply udp_decode_encode. Qed.

Lemma udp_encode_truncates_witness :
  let a := IPv4 [Byte.x01; Byte.x02; Byte.x03; Byte.x04] 53 in
  addr_wf a ∧ TrojanUdpPacket.decode (TrojanUdpPacket.encode a [Byte.x68; Byte.x69] ++ [Byte.x00])
    = Some (Decoded (MkUdpPacket a [Byte.x68; Byte.x69]) 13).
Proof.
  split; [vm_compute; repeat split; discriminate|].
  apply (udp_encode_truncates (IPv4 [Byte.x01; Byte.x02; Byte.x03; Byte.x04] 53)
           [Byte.x68; Byte.x69] [Byte.x00]); [vm_compute; repeat split; discriminate|].
  apply Nat.leb_le. reflexivity.
Defined.
