(* ===== verification/IpFilter.v ===== *)
(** * Private-address screening ([src/src/core/ip_filter.rs])

    The predicates of the SSRF filter, bit tests included, and their meaning:
    membership of the address, read as a big-endian number, in the CIDR blocks
    the source lists. *)

From S2P Require Import Prelude RustStd.

(** ** [std::net] classification, as used by the filter *)

Section std_ipv4.
Context (a b c d : byte).

Definition v4_is_loopback : bool := (b2z a =? 127)%Z.
Definition v4_is_private : bool :=
  (b2z a =? 10)%Z
  || ((b2z a =? 172)%Z && (16 <=? b2z b)%Z && (b2z b <=? 31)%Z)
  || ((b2z a =? 192)%Z && (b2z b =? 168)%Z).
Definition v4_is_link_local : bool := (b2z a =? 169)%Z && (b2z b =? 254)%Z.
Definition v4_is_broadcast : bool :=
  (b2z a =? 255)%Z && (b2z b =? 255)%Z && (b2z c =? 255)%Z && (b2z d =? 255)%Z.
Definition v4_is_multicast : bool := (224 <=? b2z a)%Z && (b2z a <=? 239)%Z.

End std_ipv4.

Definition v6_is_unspecified (o : list byte) : bool := bool_decide (o = repeat Byte.x00 16).
Definition v6_is_loopback (o : list byte) : bool :=
  bool_decide (o = repeat Byte.x00 15 ++ [Byte.x01]).

(** [segments()[i]], zero past the end (an [Ipv6Addr] always has eight). *)
Definition seg (o : list byte) (i : nat) : Z := default 0%Z (segments o !! i).

Definition v6_is_multicast (o : list byte) : bool := (Z.land (seg o 0) 0xff00 =? 0xff00)%Z.

(** ** The filter *)

Definition is_private_ipv4 (ip : list byte) : bool :=
  match ip with
  | [a; b; c; d] =>
      v4_is_loopback a
      || v4_is_private a b
      || v4_is_link_local a b
      || (b2z a =? 0)%Z
      || ((b2z a =? 100)%Z && (Z.land (b2z b) 0xC0 =? 64)%Z)
      || ((b2z a =? 192)%Z && (b2z b =? 0)%Z && (b2z c =? 0)%Z)
      || v4_is_broadcast a b c d
      || v4_is_multicast a
  | _ => false
  end.

Definition embedded_ipv4 (ip : list byte) : option (list byte) :=
  let s := segments ip in
  if decide (take 6 s = [0x64; 0xff9b; 0; 0; 0; 0]%Z) then
    Some (u32_to_be_bytes (Z.lor (Z.shiftl (seg ip 6) 16) (seg ip 7)))
  else match to_ipv4_mapped ip with
  | Some v4 => Some v4
  | None =>
      if decide (take 6 s = [0; 0; 0; 0; 0; 0]%Z ∧ (seg ip 6 ≠ 0 ∨ seg ip 7 > 1)%Z) then
        Some (u32_to_be_bytes (Z.lor (Z.shiftl (seg ip 6) 16) (seg ip 7)))
      else None
  end.

Definition is_ipv6_ula (ip : list byte) : bool := (Z.land (seg ip 0) 0xfe00 =? 0xfc00)%Z.
Definition is_ipv6_link_local (ip : list byte) : bool := (Z.land (seg ip 0) 0xffc0 =? 0xfe80)%Z.

Definition is_private_ipv6 (ip : list byte) : bool :=
  match embedded_ipv4 ip with
  | Some v4 => is_private_ipv4 v4
  | None =>
      v6_is_unspecified ip
      || v6_is_loopback ip
      || v6_is_multicast ip
      || is_ipv6_ula ip
      || is_ipv6_link_local ip
  end.

Definition is_private_ip (ip : IpAddr) : bool :=
  match ip with
  | V4 v4 => is_private_ipv4 v4
  | V6 v6 => is_private_ipv6 v6
  end.

(** ** CIDR blocks: the meaning of the bit tests *)

(** Big-endian value of an address of any width. *)
Definition be_val (o : list byte) : Z := fold_left (λ acc b, acc * 256 + b2z b)%Z o 0%Z.

(** [cidr_mem width (base, len) v]: the first [len] bits of [v] are those of
    [base]. *)
Definition cidr_mem (width : Z) (blk : Z * Z) (v : Z) : bool :=
  (v / 2 ^ (width - blk.2) =? blk.1 / 2 ^ (width - blk.2))%Z.

Definition v4_block (a b c d len : Z) : Z * Z := ((((a * 256 + b) * 256 + c) * 256 + d)%Z, len).

(** The blocks named in the comments of [is_private_ipv4]. *)
Definition private_v4_blocks : list (Z * Z) :=
  [v4_block 127 0 0 0 8; v4_block 10 0 0 0 8; v4_block 172 16 0 0 12; v4_block 192 168 0 0 16;
   v4_block 169 254 0 0 16; v4_block 0 0 0 0 8; v4_block 100 64 0 0 10; v4_block 192 0 0 0 24;
   v4_block 255 255 255 255 32; v4_block 224 0 0 0 4]%Z.

(** The IPv6 blocks of [is_private_ipv6]: [::/128], [::1/128], [ff00::/8],
    [fc00::/7], [fe80::/10]. *)
Definition private_v6_blocks : list (Z * Z) :=
  [(0, 128); (1, 128); (0xff00 * 2 ^ 112, 8); (0xfc00 * 2 ^ 112, 7); (0xfe80 * 2 ^ 112, 10)]%Z.

(** The /96 prefixes under which an IPv4 address is embedded. *)
Definition nat64_prefix : list byte :=
  [Byte.x00; Byte.x64; Byte.xff; Byte.x9b] ++ repeat Byte.x00 8.
Definition mapped_prefix : list byte := repeat Byte.x00 10 ++ [Byte.xff; Byte.xff].
Definition compat_prefix : list byte := repeat Byte.x00 12.

(** Evaluate the [width - len] of the blocks. *)
Ltac eval_sub w :=
  repeat match goal with
  | |- context [(w - ?k)%Z] =>
      let r := eval vm_compute in (w - k)%Z in change (w - k)%Z with r
  end.

(** One block test against one comparison of the source. *)
Ltac block_eq :=
  apply eq_iff_eq_true; rewrite ?andb_true_iff, ?Z.eqb_eq, ?Z.leb_le;
  Z.to_euclidean_division_equations; lia.

Lemma byte_land_c0 b : (Z.land (b2z b) 0xC0 =? 64)%Z = (b2z b / 64 =? 1)%Z.
Proof. destruct b; reflexivity. Qed.

Section v4_value.
Context (a b c d : byte).

Let v := be_val [a; b; c; d].

Lemma v4_value : v = (((b2z a * 256 + b2z b) * 256 + b2z c) * 256 + b2z d)%Z.
Proof. reflexivity. Qed.

Lemma v4_quotients :
  (v / 2 ^ 24 = b2z a ∧ v / 2 ^ 28 = b2z a / 16 ∧ v / 2 ^ 20 = b2z a * 16 + b2z b / 16
   ∧ v / 2 ^ 22 = b2z a * 4 + b2z b / 64 ∧ v / 2 ^ 16 = b2z a * 256 + b2z b
   ∧ v / 2 ^ 8 = (b2z a * 256 + b2z b) * 256 + b2z c)%Z.
Proof.
  rewrite v4_value. pose proof (b2z_range a). pose proof (b2z_range b).
  pose proof (b2z_range c). pose proof (b2z_range d).
  split_and!; Z.to_euclidean_division_equations; lia.
Qed.

End v4_value.

Lemma private_v4_cidr (o : list byte) :
  length o = 4 →
  is_private_ipv4 o = existsb (λ blk, cidr_mem 32 blk (be_val o)) private_v4_blocks.
Proof.
  intros Ho. destruct o as [|a [|b [|c [|d [|]]]]]; try discriminate Ho. clear Ho.
  destruct (v4_quotients a b c d) as (Q24 & Q28 & Q20 & Q22 & Q16 & Q8).
  unfold private_v4_blocks, cidr_mem, v4_block, existsb. simpl fst; simpl snd.
  eval_sub 32%Z. change (2 ^ 0)%Z with 1%Z.
  rewrite Q24, Q28, Q20, Q22, Q16, Q8, !Z.div_1_r, v4_value.
  unfold is_private_ipv4, v4_is_loopback, v4_is_private, v4_is_link_local, v4_is_broadcast,
    v4_is_multicast. rewrite byte_land_c0.
  pose proof (b2z_range a). pose proof (b2z_range b).
  pose proof (b2z_range c). pose proof (b2z_range d).
  rewrite !orb_assoc, orb_false_r. repeat (apply (f_equal2 orb)); block_eq.
Qed.

(** ** IPv6 *)

Lemma be_val_acc o acc :
  fold_left (λ acc b, acc * 256 + b2z b)%Z o acc = (acc * 256 ^ Z.of_nat (length o) + be_val o)%Z.
Proof.
  unfold be_val. revert acc. induction o as [|b o IH]; intros acc; cbn [fold_left length].
  - lia.
  - rewrite IH, (IH (0 * 256 + b2z b)%Z).
    rewrite Nat2Z.inj_succ, Z.pow_succ_r by lia. lia.
Qed.

Lemma be_val_app l1 l2 : be_val (l1 ++ l2) = (be_val l1 * 256 ^ Z.of_nat (length l2) + be_val l2)%Z.
Proof. unfold be_val at 1. rewrite fold_left_app, be_val_acc. done. Qed.

Lemma be_val_cons b l : be_val (b :: l) = (b2z b * 256 ^ Z.of_nat (length l) + be_val l)%Z.
Proof. apply (be_val_app [b] l). Qed.

Lemma be_val_range o : (0 ≤ be_val o < 256 ^ Z.of_nat (length o))%Z.
Proof.
  induction o as [|b o IH]; [done|]. rewrite be_val_cons. cbn [length].
  rewrite Nat2Z.inj_succ, Z.pow_succ_r by lia. pose proof (b2z_range b). nia.
Qed.

Lemma be_val_inj o1 o2 : length o1 = length o2 → be_val o1 = be_val o2 → o1 = o2.
Proof.
  revert o2. induction o1 as [|b1 o1 IH]; intros [|b2 o2]; try done.
  intros [= Hl]. rewrite !be_val_cons, Hl.
  pose proof (be_val_range o1) as R1. pose proof (be_val_range o2) as R2. rewrite Hl in R1.
  intros H. assert (b2z b1 = b2z b2) as Hb by nia.
  f_equal; [by apply b2z_inj|]. apply IH; [done|]. rewrite Hb in H. lia.
Qed.

Lemma be_val_eqb o1 o2 :
  length o1 = length o2 → bool_decide (o1 = o2) = (be_val o1 =? be_val o2)%Z.
Proof.
  intros Hl. apply eq_iff_eq_true. rewrite bool_decide_eq_true, Z.eqb_eq.
  split; [by intros ->|by apply be_val_inj].
Qed.

Lemma seg0_high o : length o = 16 → (be_val o / 2 ^ 112)%Z = seg o 0 ∧ (0 ≤ seg o 0 < 2 ^ 16)%Z.
Proof.
  intros Ho. destruct o as [|a [|b o]]; [done..|].
  change (seg (a :: b :: o) 0) with (b2z a * 256 + b2z b)%Z.
  change (a :: b :: o) with ([a; b] ++ o). rewrite be_val_app.
  pose proof (be_val_range o) as R. assert (length o = 14) as Hl by (simpl in Ho; lia).
  rewrite Hl in *. pose proof (b2z_range a). pose proof (b2z_range b).
  change (256 ^ Z.of_nat 14)%Z with (2 ^ 112)%Z in *. split; [|lia].
  rewrite Z.div_add_l by lia. rewrite Z.div_small by lia. unfold be_val. simpl. lia.
Qed.

(** A mask test on the leading segment is membership in a block. *)
Lemma seg0_block o len m c :
  length o = 16 → (0 ≤ len ≤ 16)%Z → m = (2 ^ 16 - 2 ^ (16 - len))%Z →
  (c / 2 ^ (16 - len) * 2 ^ (16 - len) = c)%Z →
  (Z.land (seg o 0) m =? c)%Z = cidr_mem 128 ((c * 2 ^ 112)%Z, len) (be_val o).
Proof.
  intros Ho Hlen -> Hc. destruct (seg0_high o Ho) as [Hs Hr]. unfold cidr_mem. simpl.
  rewrite land_high_mask by lia.
  replace (128 - len)%Z with (112 + (16 - len))%Z by lia. rewrite Z.pow_add_r by lia.
  rewrite <- !Z.div_div by lia. rewrite Hs, Z.div_mul by lia.
  assert (0 < 2 ^ (16 - len))%Z by lia.
  apply eq_iff_eq_true. rewrite !Z.eqb_eq. split; [|congruence].
  intros H1. rewrite <- H1, Z.div_mul by lia. done.
Qed.

Lemma private_v6_cidr o :
  length o = 16 → embedded_ipv4 o = None →
  is_private_ipv6 o = existsb (λ blk, cidr_mem 128 blk (be_val o)) private_v6_blocks.
Proof.
  intros Ho He. unfold is_private_ipv6. rewrite He.
  unfold v6_is_unspecified, v6_is_loopback, v6_is_multicast, is_ipv6_ula, is_ipv6_link_local.
  rewrite (seg0_block o 8), (seg0_block o 7), (seg0_block o 10) by (done || lia).
  rewrite !be_val_eqb by done. cbn [existsb private_v6_blocks].
  rewrite orb_false_r, !orb_assoc.
  unfold cidr_mem at 4 5. cbn [fst snd]. change (2 ^ (128 - 128))%Z with 1%Z.
  by rewrite !Z.div_1_r.
Qed.

Lemma u16_from_be_inj a b a' b' :
  u16_from_be_bytes a b = u16_from_be_bytes a' b' ↔ a = a' ∧ b = b'.
Proof.
  split; [|by intros [-> ->]]. unfold u16_from_be_bytes. intros H.
  pose proof (b2z_range a). pose proof (b2z_range b).
  pose proof (b2z_range a'). pose proof (b2z_range b').
  split; apply b2z_inj; lia.
Qed.

Lemma segments_inj l1 l2 :
  length l1 = length l2 → Nat.Even (length l1) → segments l1 = segments l2 → l1 = l2.
Proof.
  intros Hl [k Hk]. revert l1 l2 Hl Hk. induction k as [|k IH]; intros l1 l2 Hl Hk H.
  - destruct l1, l2; simpl in *; (done || lia).
  - destruct l1 as [|a [|b l1]], l2 as [|a' [|b' l2]]; simpl in Hl, Hk; try lia.
    cbn [segments] in H. injection H as Hab Hrest. apply u16_from_be_inj in Hab as [-> ->].
    do 2 f_equal. apply IH; (done || lia).
Qed.

Lemma take_segments k o : take k (segments o) = segments (take (2 * k) o).
Proof.
  revert o. induction k as [|k IH]; intros o; [done|].
  replace (2 * S k) with (S (S (2 * k))) by lia.
  destruct o as [|a [|b o]]; [done..|]. cbn [segments take]. by rewrite IH.
Qed.

(** Comparing the first six segments is comparing the first twelve bytes. *)
Lemma segments_prefix o pre :
  length o = 16 → length pre = 12 → take 6 (segments o) = segments pre ↔ take 12 o = pre.
Proof.
  intros Ho Hp. rewrite take_segments. change (2 * 6) with 12. split; [|by intros ->].
  apply segments_inj; rewrite ?length_take, ?Hp, Ho; [done|]. by exists 6.
Qed.

Lemma low_segments_bytes o :
  length o = 16 →
  u32_to_be_bytes (Z.lor (Z.shiftl (seg o 6) 16) (seg o 7)) = drop 12 o
  ∧ be_val (drop 12 o) = (seg o 6 * 65536 + seg o 7)%Z
  ∧ (0 ≤ seg o 6)%Z ∧ (0 ≤ seg o 7)%Z.
Proof.
  intros Ho. destruct (list_split_at o 12) as (pre & r & -> & Hp); [lia|].
  destruct r as [|a [|b [|c [|d [|]]]]]; try (rewrite length_app in Ho; simpl in Ho; lia).
  do 12 (destruct pre as [|? pre]; [done|]). destruct pre; [|done]. clear Ho Hp. cbn [app drop].
  unfold seg. cbn [segments lookup list_lookup default]. unfold id.
  pose proof (u16_from_be_range a b) as R1. pose proof (u16_from_be_range c d) as R2.
  unfold is_u16, u16_max in *. rewrite lor_shiftl_add by lia.
  split_and!; try lia; [|unfold be_val, u16_from_be_bytes; simpl; lia].
  clear R1 R2. change (2 ^ 16)%Z with 65536%Z. unfold u16_from_be_bytes, u32_to_be_bytes.
  pose proof (b2z_range a). pose proof (b2z_range b).
  pose proof (b2z_range c). pose proof (b2z_range d).
  f_equal; [|f_equal; [|f_equal; [|f_equal]]]; apply b2z_inj; rewrite b2z_z2b;
    Z.to_euclidean_division_equations; lia.
Qed.

(** The forms that embed an IPv4 address: NAT64, IPv4-mapped, and
    IPv4-compatible other than [::] and [::1]. *)
Definition embeds_ipv4 (o : list byte) : Prop :=
  take 12 o = nat64_prefix ∨ take 12 o = mapped_prefix
  ∨ (take 12 o = compat_prefix ∧ (1 < be_val (drop 12 o))%Z).

#[export] Instance embeds_ipv4_dec o : Decision (embeds_ipv4 o).
Proof. unfold embeds_ipv4. apply _. Defined.

Lemma embedded_ipv4_spec o :
  length o = 16 →
  embedded_ipv4 o = if decide (embeds_ipv4 o) then Some (drop 12 o) else None.
Proof.
  intros Ho. destruct (low_segments_bytes o Ho) as (Hb & Hv & H6 & H7).
  pose proof (segments_prefix o nat64_prefix Ho eq_refl) as HN.
  pose proof (segments_prefix o compat_prefix Ho eq_refl) as HC.
  change (segments nat64_prefix) with [0x64; 0xff9b; 0; 0; 0; 0]%Z in HN.
  change (segments compat_prefix) with [0; 0; 0; 0; 0; 0]%Z in HC.
  unfold embedded_ipv4, to_ipv4_mapped. fold mapped_prefix. rewrite Hb.
  repeat case_decide; try done; exfalso; unfold embeds_ipv4 in *; rewrite Hv in *; intuition lia.
Qed.

(** What the filter means: a list of blocks per family, an embedded IPv4
    address judged as that IPv4 address. *)
Definition in_blocks (width : Z) (blks : list (Z * Z)) (o : list byte) : bool :=
  existsb (λ blk, cidr_mem width blk (be_val o)) blks.

Definition private_spec (ip : IpAddr) : bool :=
  match ip with
  | V4 o => in_blocks 32 private_v4_blocks o
  | V6 o =>
      if decide (embeds_ipv4 o) then in_blocks 32 private_v4_blocks (drop 12 o)
      else in_blocks 128 private_v6_blocks o
  end.

Lemma is_private_ip_spec ip : ip_wf ip → is_private_ip ip = private_spec ip.
Proof.
  destruct ip as [o|o]; simpl; intros Ho; [by apply private_v4_cidr|].
  pose proof (embedded_ipv4_spec o Ho) as He. case_decide.
  - unfold is_private_ipv6. rewrite He. apply private_v4_cidr. rewrite length_drop. lia.
  - by apply private_v6_cidr.
Qed.

(** C25: the SSRF filter is exactly the documented list of blocks.  An IPv4
    address is private iff it lies in 127/8, 10/8, 172.16/12, 192.168/16,
    169.254/16, 0/8, 100.64/10, 192.0.0/24, 255.255.255.255/32 or 224/4; an
    IPv6 address that embeds an IPv4 one (NAT64, IPv4-mapped, IPv4-compatible)
    is judged by that address; every other IPv6 address is private iff it lies
    in ::/128, ::1/128, ff00::/8, fc00::/7 or fe80::/10. *)
Theorem private_filter_is_cidr_list ip :
  ip_wf ip → is_private_ip ip = private_spec ip.
Proof. apply is_private_ip_spec. Qed.

Lemma private_filter_is_cidr_list_witness :
  is_private_ip (V6 (nat64_prefix ++ [Byte.x0a; Byte.x00; Byte.x00; Byte.x01])) = true
  ∧ private_spec (V6 (nat64_prefix ++ [Byte.x0a; Byte.x00; Byte.x00; Byte.x01])) = true.
Proof.
  split; [|reflexivity].
  apply (private_filter_is_cidr_list (V6 (nat64_prefix ++ [Byte.x0a; Byte.x00; Byte.x00; Byte.x01]))).
  reflexivity.
Defined.
