(* ===== verification/Dns.v ===== *)
(** * Name resolution and screening of direct targets ([src/src/core/dns.rs])

    [dns_cache_rs::DnsCache] is a parameter: a state and a lookup that returns
    the next state and an arbitrary answer, so that every theorem holds for a
    resolver that answers differently each time it is asked. *)

From S2P Require Import Prelude RustStd Protocol IpFilter.

(** [Timeout] carries the duration as [{:?}] prints it, [OtherError] the message
    of the boxed error. *)
Inductive DnsError : Type :=
| NotFound (host : string)
| Timeout (after : string)
| InvalidHost (host : string)
| OtherError (msg : string).

Class DnsCache (D : Type) := {
  resolve_with_port_iter : D → string → Z → D * result (list SocketAddr) DnsError;
}.

Definition dns_error_to_io (err : DnsError) : io_error :=
  match err with
  | NotFound host => IoError EkNotFound ("no addresses found for " +:+ host)
  | Timeout after => IoError EkTimedOut ("DNS query timeout after " +:+ after)
  | InvalidHost h => IoError EkInvalidInput ("invalid host: " +:+ h)
  | OtherError e => IoError EkOther e
  end.

(** ** Resolved addresses *)

Record ResolvedAddrs := MkResolved {
  r_v4 : option (list byte);
  r_v6 : option (list byte);
  r_port : Z;
  v6_first : bool;
}.

#[export] Instance resolved_addrs_eq_dec : EqDecision ResolvedAddrs.
Proof. solve_decision. Defined.

Module Resolved.

Definition candidates (r : ResolvedAddrs) : list SocketAddr :=
  let v4 := (λ ip, SocketAddrNew (V4 ip) (r_port r)) <$> r_v4 r in
  let v6 := (λ ip, SocketAddrNew (V6 ip) (r_port r)) <$> r_v6 r in
  let '(first, second) := if v6_first r then (v6, v4) else (v4, v6) in
  option_list first ++ option_list second.

(** One iteration of the loop in [collect]. *)
Definition collect_step (out : ResolvedAddrs) (ip : IpAddr) : ResolvedAddrs :=
  match ip with
  | V4 v4 =>
      MkResolved (Some (default v4 (r_v4 out))) (r_v6 out) (r_port out) (v6_first out)
  | V6 v6 =>
      let first := bool_decide (r_v4 out = None ∧ r_v6 out = None) in
      MkResolved (r_v4 out) (Some (default v6 (r_v6 out))) (r_port out)
                 (if first then true else v6_first out)
  end.

Definition collect (port : Z) (ips : list IpAddr) : option ResolvedAddrs :=
  let out := fold_left collect_step ips (MkResolved None None port false) in
  if decide (is_Some (r_v4 out) ∨ is_Some (r_v6 out)) then Some out else None.

(** [socket_addr]: [None] is the panic of [expect]. *)
Definition socket_addr (r : ResolvedAddrs) : option SocketAddr := head (candidates r).

End Resolved.

(** ** Resolution and screening *)

Inductive DirectTarget : Type :=
| Blocked
| Allow (resolved : option ResolvedAddrs).

Section dns.
Context `{DnsCache D}.

Definition resolve_addrs (cache : D) (addr : Address) : D * result ResolvedAddrs io_error :=
  match addr with
  | IPv4 ip port => (cache, Ok (MkResolved (Some ip) None port false))
  | IPv6 ip port => (cache, Ok (MkResolved None (Some ip) port true))
  | Domain host port =>
      match resolve_with_port_iter cache host port with
      | (cache', Err e) => (cache', Err (dns_error_to_io e))
      | (cache', Ok it) =>
          (cache',
           match Resolved.collect port (map sa_ip it) with
           | Some r => Ok r
           | None => Err (IoError EkNotFound ("no addresses found for " +:+ host))
           end)
      end
  end.

Definition check_private_and_resolve (cache : D) (addr : Address)
    : D * (bool * option ResolvedAddrs) :=
  match addr with
  | IPv4 ip _ => (cache, (is_private_ip (V4 ip), None))
  | IPv6 ip _ => (cache, (is_private_ip (V6 ip), None))
  | Domain host port =>
      match parse_ip host with
      | Some ip => (cache, (is_private_ip ip, None))
      | None =>
          match resolve_with_port_iter cache host port with
          | (cache', Err _) => (cache', (true, None))
          | (cache', Ok it) =>
              let ips := map sa_ip it in
              if existsb is_private_ip ips then (cache', (true, None))
              else (cache', (false, Resolved.collect port ips))
          end
      end
  end.

Definition screen_direct_target (cache : D) (addr : Address) (block_private_ip : bool)
    : D * DirectTarget :=
  if block_private_ip then
    let '(cache', (is_private, resolved)) := check_private_and_resolve cache addr in
    if is_private then (cache', Blocked) else (cache', Allow resolved)
  else
    match addr with
    | Domain _ _ =>
        let '(cache', r) := resolve_addrs cache addr in
        (cache', Allow (match r with Ok a => Some a | Err _ => None end))
    | _ => (cache, Allow None)
    end.

End dns.

(** ** Folding the resolver's answer *)

(** Reference: the first address of each family, in the order in which the
    families first appear. *)
Definition is_v4 (ip : IpAddr) : bool := match ip with V4 _ => true | V6 _ => false end.

Fixpoint first_per_family (seen4 seen6 : bool) (ips : list IpAddr) : list IpAddr :=
  match ips with
  | [] => []
  | ip :: rest =>
      if is_v4 ip then
        if seen4 then first_per_family seen4 seen6 rest
        else ip :: first_per_family true seen6 rest
      else
        if seen6 then first_per_family seen4 seen6 rest
        else ip :: first_per_family seen4 true rest
  end.

Definition seen (o : option (list byte)) : bool := match o with Some _ => true | None => false end.

(** The loop state after some addresses: [v6_first] tells which family came
    first. *)
Definition collect_inv (out : ResolvedAddrs) : Prop :=
  (r_v6 out = None → v6_first out = false)
  ∧ (r_v4 out = None → r_v6 out ≠ None → v6_first out = true).

Lemma collect_fold_candidates ips out :
  collect_inv out →
  Resolved.candidates (fold_left Resolved.collect_step ips out)
  = Resolved.candidates out
    ++ map (λ ip, SocketAddrNew ip (r_port out))
         (first_per_family (seen (r_v4 out)) (seen (r_v6 out)) ips)
  ∧ collect_inv (fold_left Resolved.collect_step ips out)
  ∧ r_port (fold_left Resolved.collect_step ips out) = r_port out.
Proof.
  revert out. induction ips as [|ip ips IH]; intros [v4 v6 port vf] Hinv; simpl.
  { by rewrite app_nil_r. }
  destruct (IH (Resolved.collect_step (MkResolved v4 v6 port vf) ip)) as (Hc & Hi & Hp).
  { destruct Hinv, ip, v4, v6; split; simpl in *; (done || auto). }
  rewrite Hc, Hp. split_and!; [|done|by destruct ip].
  destruct Hinv as [H1 H2]. simpl in *.
  destruct ip as [o|o], v4 as [o4|], v6 as [o6|]; simpl in *;
    try rewrite (H1 eq_refl); try rewrite (H2 eq_refl ltac:(done)); try destruct vf; done.
Qed.

Lemma collect_candidates port ips r :
  Resolved.collect port ips = Some r →
  Resolved.candidates r = map (λ ip, SocketAddrNew ip port) (first_per_family false false ips).
Proof.
  unfold Resolved.collect. case_decide; [|done]. intros [= <-].
  by destruct (collect_fold_candidates ips (MkResolved None None port false)) as (-> & _).
Qed.

Lemma collect_None port ips : Resolved.collect port ips = None ↔ ips = [].
Proof.
  unfold Resolved.collect.
  assert (Hmono : ∀ l out, is_Some (r_v4 out) ∨ is_Some (r_v6 out) →
    is_Some (r_v4 (fold_left Resolved.collect_step l out))
    ∨ is_Some (r_v6 (fold_left Resolved.collect_step l out))).
  { induction l as [|ip l IH]; intros out Ho; [done|]. apply IH. destruct ip; simpl; eauto. }
  case_decide as Hd; split; try done.
  - intros ->. destruct Hd as [[? [=]]|[? [=]]].
  - intros _. destruct ips as [|ip ips]; [done|]. exfalso. apply Hd.
    apply (Hmono ips). destruct ip; simpl; eauto.
Qed.

Lemma first_per_family_sub s4 s6 ips ip : ip ∈ first_per_family s4 s6 ips → ip ∈ ips.
Proof.
  revert s4 s6. induction ips as [|x ips IH]; intros s4 s6; simpl; [done|].
  destruct (is_v4 x), s4, s6; rewrite ?elem_of_cons; naive_solver.
Qed.

Lemma collect_sub port ips r sa :
  Resolved.collect port ips = Some r → sa ∈ Resolved.candidates r →
  sa_ip sa ∈ ips ∧ sa_port sa = port.
Proof.
  intros Hc Hin. rewrite (collect_candidates _ _ _ Hc) in Hin.
  apply list_elem_of_fmap in Hin as (ip & -> & Hip). simpl.
  split; [by eapply first_per_family_sub|done].
Qed.

(** [ResolvedAddrs::collect] keeps the first address of each family and
    the resolver's preference.  It fails exactly on an empty answer; otherwise
    the connect candidates are the first address of each family in the order in
    which the families appear, and [socket_addr] is the resolver's very first
    address (its [expect] never fires). *)
Theorem collect_keeps_preference port ips :
  match Resolved.collect port ips with
  | None => ips = []
  | Some r =>
      Resolved.candidates r
      = map (λ ip, SocketAddrNew ip port) (first_per_family false false ips)
      ∧ ∃ ip rest, ips = ip :: rest ∧ Resolved.socket_addr r = Some (SocketAddrNew ip port)
  end.
Proof.
  destruct (Resolved.collect port ips) as [r|] eqn:Hc; [|by apply (collect_None port)].
  pose proof (collect_candidates _ _ _ Hc) as Hcand. split; [done|].
  destruct ips as [|ip rest]; [by rewrite (proj2 (collect_None port [])) in Hc|].
  exists ip, rest. split; [done|]. unfold Resolved.socket_addr. rewrite Hcand. by destruct ip.
Qed.

(** ** Screening *)

Section screening.
Context `{DnsCache D}.

(** The addresses a target allowed by the screen may be connected to without
    another lookup are all public. *)
Lemma screen_allow_public cache addr cache' r sa :
  screen_direct_target cache addr true = (cache', Allow (Some r)) →
  sa ∈ Resolved.candidates r → is_private_ip (sa_ip sa) = false.
Proof.
  unfold screen_direct_target, check_private_and_resolve.
  destruct addr as [ip p|ip p|host p]; [by case_match..|].
  destruct (parse_ip host); [by case_match|].
  destruct (resolve_with_port_iter cache host p) as [c [it|e]]; [|done].
  destruct (existsb is_private_ip (map sa_ip it)) eqn:Hp; [done|]. intros [= -> Hc] Hin.
  destruct (collect_sub _ _ _ _ Hc Hin) as [Hip _].
  destruct (is_private_ip (sa_ip sa)) eqn:Hs; [|done].
  assert (existsb is_private_ip (map sa_ip it) = true); [|congruence].
  apply existsb_exists. exists (sa_ip sa). split; [by apply list_elem_of_In|done].
Qed.

(** Without addresses, the screen only lets through a public literal (and does
    not look anything up), or a name the resolver answered with no address at
    all. *)
Lemma screen_allow_none cache addr cache' :
  screen_direct_target cache addr true = (cache', Allow None) →
  (∃ ip, Address.literal_ip addr = Some ip ∧ is_private_ip ip = false ∧ cache' = cache)
  ∨ (∃ host p, addr = Domain host p ∧ parse_ip host = None
               ∧ resolve_with_port_iter cache host p = (cache', Ok [])).
Proof.
  unfold screen_direct_target, check_private_and_resolve.
  destruct addr as [ip p|ip p|host p]; simpl.
  - destruct (is_private_ipv4 ip) eqn:E; [done|]. intros [= <-]. left. eauto.
  - destruct (is_private_ipv6 ip) eqn:E; [done|]. intros [= <-]. left. eauto.
  - destruct (parse_ip host) as [ip|] eqn:E.
    + destruct (is_private_ip ip) eqn:Ep; [done|]. intros [= <-]. left. eauto.
    + destruct (resolve_with_port_iter cache host p) as [c [it|e]] eqn:Er; [|done].
      destruct (existsb is_private_ip (map sa_ip it)); [done|]. intros [= -> Hc].
      apply collect_None in Hc. destruct it; [|done]. right. eauto 10.
Qed.

End screening.
