(* ===== verification/Acl.v ===== *)
(** * The ACL engine: outbound handlers and rule set ([src/src/acl.rs])

    The configuration file's data, the construction of outbound handlers from
    it, and the engine.  The crate [acl-engine-rs] (outbound implementations,
    rule parser, compiler, matcher), the sockets used to validate bind options
    and the file system are parameters. *)

From S2P Require Import Prelude RustStd Protocol.

(** ** Configuration *)

Record Socks5Config := MkSocks5Config {
  s5_addr : string;
  s5_username : option string;
  s5_password : option string;
  s5_allow_udp : bool;
}.

Record HttpConfig := MkHttpConfig {
  http_addr : string;
  http_username : option string;
  http_password : option string;
  https : bool;
}.

Record DirectConfig := MkDirectConfig {
  mode : string;
  bind_ipv4 : option string;
  bind_ipv6 : option string;
  bind_device : option string;
  fast_open : bool;
  tcp_nodelay : bool;
  tcp_keepalive_secs : Z;
}.

Definition default_allow_udp : bool := true.
Definition default_ip_mode : string := "auto".
Definition default_tcp_nodelay : bool := true.
Definition default_tcp_keepalive_secs : Z := 60.

(** [impl Default for DirectConfig]. *)
Definition direct_config_default : DirectConfig :=
  MkDirectConfig default_ip_mode None None None false default_tcp_nodelay
    default_tcp_keepalive_secs.

Record OutboundEntry := MkEntry {
  entry_name : string;
  outbound_type : string;
  entry_socks5 : option Socks5Config;
  entry_http : option HttpConfig;
  entry_direct : option DirectConfig;
}.

Record AclRules := MkAclRules { inline : list string }.

Record AclConfig := MkAclConfig { outbounds : list OutboundEntry; acl : AclRules }.

(** ** The crate [acl-engine-rs] *)

Inductive DirectMode : Type := Auto | Only4 | Only6 | Prefer46 | Prefer64.

Record DirectOptions := MkDirectOptions {
  o_mode : DirectMode;
  o_bind_ip4 : option (list byte);
  o_bind_ip6 : option (list byte);
  o_bind_device : option string;
  o_fast_open : bool;
  o_timeout : option Z;
  o_tcp_nodelay : bool;
  o_tcp_keepalive : option Z;
}.

Inductive Protocol : Type := TCP | UDP.

(** [HostInfo::from_ip] and [HostInfo::from_name]. *)
Inductive HostInfo : Type :=
| HostIp (ip : IpAddr)
| HostName (name : string).

(** [AutoGeoLoader] as configured by the builder calls. *)
Record GeoLoader := MkGeoLoader { data_dir : option string; update_interval : option Z }.

Class AclLib := {
  DirectImpl : Type;
  Socks5Impl : Type;
  HttpImpl : Type;
  RejectImpl : Type;
  TextRules : Type;
  CompiledRuleSet : Type → Type;
  direct_new : DirectImpl;
  direct_with_options : DirectOptions → result DirectImpl string;
  socks5_new : string → Socks5Impl;
  socks5_with_auth : string → string → string → result Socks5Impl string;
  http_new : string → HttpImpl;
  http_try_new : string → bool → result HttpImpl string;
  http_with_auth : HttpImpl → string → string → HttpImpl;
  reject_new : RejectImpl;
  parse_rules : string → result TextRules string;
  compile : ∀ {O}, TextRules → gmap string O → Z → GeoLoader → result (CompiledRuleSet O) string;
  compiled_match : ∀ {O}, CompiledRuleSet O → HostInfo → Protocol → Z → option (O * option IpAddr);
  rule_count : ∀ {O}, CompiledRuleSet O → nat;
}.

(** [acl_engine_rs::outbound::{Addr, ResolveInfo}]. *)
Record ResolveInfo := MkResolveInfo {
  ri_ipv4 : option (list byte);
  ri_ipv6 : option (list byte);
  ri_error : option string;
}.

Record AclAddr := MkAclAddr {
  addr_host : string;
  addr_port : Z;
  resolve_info : option ResolveInfo;
}.

(** [AsyncOutbound] of the crate's outbounds: a dial may fill in the address it
    was given. *)
Class Outbounds `{AclLib} := {
  TcpConn : Type;
  UdpConn : Type;
  direct_dial_tcp : DirectImpl → AclAddr → AclAddr * result TcpConn string;
  socks5_dial_tcp : Socks5Impl → AclAddr → AclAddr * result TcpConn string;
  http_dial_tcp : HttpImpl → AclAddr → AclAddr * result TcpConn string;
  reject_dial_tcp : RejectImpl → AclAddr → AclAddr * result TcpConn string;
  direct_dial_udp : DirectImpl → AclAddr → AclAddr * result UdpConn string;
  socks5_dial_udp : Socks5Impl → AclAddr → AclAddr * result UdpConn string;
  http_dial_udp : HttpImpl → AclAddr → AclAddr * result UdpConn string;
  reject_dial_udp : RejectImpl → AclAddr → AclAddr * result UdpConn string;
}.

(** A reject outbound refuses, and HTTP proxies carry no datagrams. *)
Class OutboundLaws `{Outbounds} := {
  reject_tcp_law r a : ∃ e, (reject_dial_tcp r a).2 = Err e;
  reject_udp_law r a : ∃ e, (reject_dial_udp r a).2 = Err e;
  http_udp_law h a : ∃ e, (http_dial_udp h a).2 = Err e;
}.

(** Sockets opened only to validate bind options at startup. *)
Class BindProbe := {
  socket_new_v4 : result unit string;
  socket_new_v6 : result unit string;
  socket_bind : IpAddr → result unit string;
  socket_bind_device : string → result unit string;
}.

(** ** Outbound handlers *)

(** An [Arc]: its contents and the allocation [Arc::ptr_eq] compares. *)
Record arc (A : Type) := MkArc { arc_ptr : nat; arc_val : A }.
Arguments MkArc {A} arc_ptr arc_val.
Arguments arc_ptr {A} a.
Arguments arc_val {A} a.

Definition ptr_eq {A} (x y : arc A) : bool := arc_ptr x =? arc_ptr y.

Section acl.
Context `{AclLib, BindProbe}.

Inductive OutboundHandler : Type :=
| HDirect (inner : DirectImpl)
| HSocks5 (inner : Socks5Impl) (allow_udp : bool)
| HHttp (inner : HttpImpl)
| HReject (inner : RejectImpl).

(** The IP mode strings accepted for a direct outbound. *)
Definition direct_mode_of (name mode : string) : result DirectMode string :=
  if decide (mode = "auto") then Ok Auto
  else if decide (mode = "4" ∨ mode = "only4") then Ok Only4
  else if decide (mode = "6" ∨ mode = "only6") then Ok Only6
  else if decide (mode = "prefer4" ∨ mode = "46") then Ok Prefer46
  else if decide (mode = "prefer6" ∨ mode = "64") then Ok Prefer64
  else Err ("Invalid direct mode '" +:+ mode +:+ "' for outbound '" +:+ name +:+
            "', valid values: auto, 4, only4, 6, only6, prefer4, 46, prefer6, 64").

(** [opt.map(|s| s.parse().map_err(..)).transpose()?]. *)
Definition parse_bind (what : string) (parse : string → option (list byte)) (err : string)
    (s : option string) : result (option (list byte)) string :=
  match s with
  | None => Ok None
  | Some s =>
      match parse s with
      | Some ip => Ok (Some ip)
      | None => Err ("Invalid " +:+ what +:+ " '" +:+ s +:+ "': " +:+ err)
      end
  end.

(** Startup validation of one bind address on a throw-away socket. *)
Definition probe_bind (name what : string) (fresh : result unit string) (ip : option IpAddr)
    : result unit string :=
  match ip with
  | None => Ok tt
  | Some ip =>
      _ <-? map_err (λ e, "Failed to create test socket: " +:+ e) fresh;
      map_err (λ e, "FATAL: outbound '" +:+ name +:+ "' " +:+ what +:+ " " +:+ ip_to_string ip +:+
                    " failed: " +:+ e) (socket_bind ip)
  end.

(** Startup validation of [bindDevice] (Linux). *)
Definition probe_device (name : string) (device : option string) : result unit string :=
  match device with
  | None => Ok tt
  | Some device =>
      _ <-? map_err (λ e, "Failed to create test socket: " +:+ e) socket_new_v4;
      map_err (λ e, "FATAL: outbound '" +:+ name +:+ "' bindDevice '" +:+ device +:+
                    "' failed: " +:+ e) (socket_bind_device device)
  end.

Definition from_entry_direct (entry : OutboundEntry) : result OutboundHandler string :=
  let config := entry_direct entry in
  let md := from_option mode "auto" config in
  direct_mode <-? direct_mode_of (entry_name entry) md;
  bind_ip4 <-? parse_bind "bindIPv4" parse_ipv4 "invalid IPv4 address syntax" (config ≫= bind_ipv4);
  bind_ip6 <-? parse_bind "bindIPv6" parse_ipv6 "invalid IPv6 address syntax" (config ≫= bind_ipv6);
  let device := config ≫= bind_device in
  let fo := from_option fast_open false config in
  let nodelay := from_option tcp_nodelay default_tcp_nodelay config in
  let keepalive_secs := from_option tcp_keepalive_secs default_tcp_keepalive_secs config in
  let keepalive := if (0 <? keepalive_secs)%Z then Some keepalive_secs else None in
  _ <-? probe_bind (entry_name entry) "bindIPv4" socket_new_v4 (V4 <$> bind_ip4);
  _ <-? probe_bind (entry_name entry) "bindIPv6" socket_new_v6 (V6 <$> bind_ip6);
  _ <-? probe_device (entry_name entry) device;
  direct <-? map_err (λ e, "Invalid direct outbound '" +:+ entry_name entry +:+ "': " +:+ e)
    (direct_with_options
       (MkDirectOptions direct_mode bind_ip4 bind_ip6 device fo None nodelay keepalive));
  Ok (HDirect direct).

Definition from_entry_socks5 (entry : OutboundEntry) : result OutboundHandler string :=
  match entry_socks5 entry with
  | None => Err ("socks5 config required for outbound '" +:+ entry_name entry +:+ "'")
  | Some config =>
      match s5_username config, s5_password config with
      | Some username, Some password =>
          socks5 <-? map_err (λ e, "Invalid socks5 outbound '" +:+ entry_name entry +:+ "': " +:+ e)
            (socks5_with_auth (s5_addr config) username password);
          Ok (HSocks5 socks5 (s5_allow_udp config))
      | _, _ => Ok (HSocks5 (socks5_new (s5_addr config)) (s5_allow_udp config))
      end
  end.

Definition from_entry_http (entry : OutboundEntry) : result OutboundHandler string :=
  match entry_http entry with
  | None => Err ("http config required for outbound '" +:+ entry_name entry +:+ "'")
  | Some config =>
      http <-?
        (if https config then
           map_err (λ e, "Invalid http outbound '" +:+ entry_name entry +:+ "': " +:+ e)
             (http_try_new (http_addr config) true)
         else Ok (http_new (http_addr config)));
      Ok (HHttp (match http_username config, http_password config with
                 | Some username, Some password => http_with_auth http username password
                 | _, _ => http
                 end))
  end.

Definition from_entry (entry : OutboundEntry) : result OutboundHandler string :=
  if decide (outbound_type entry = "direct") then from_entry_direct entry
  else if decide (outbound_type entry = "socks5") then from_entry_socks5 entry
  else if decide (outbound_type entry = "http") then from_entry_http entry
  else if decide (outbound_type entry = "reject") then Ok (HReject reject_new)
  else Err ("Unknown outbound type '" +:+ outbound_type entry +:+ "' for outbound '" +:+
            entry_name entry +:+ "'").

Definition is_reject (h : OutboundHandler) : bool :=
  match h with HReject _ => true | _ => false end.

Definition allows_udp (h : OutboundHandler) : bool :=
  match h with
  | HDirect _ => true
  | HSocks5 _ allow_udp => allow_udp
  | HHttp _ => false
  | HReject _ => false
  end.

(** [impl AsyncOutbound for OutboundHandler]. *)
Definition dial_tcp `{!Outbounds} (h : OutboundHandler) (addr : AclAddr)
    : AclAddr * result TcpConn string :=
  match h with
  | HDirect d => direct_dial_tcp d addr
  | HSocks5 inner _ => socks5_dial_tcp inner addr
  | HHttp h => http_dial_tcp h addr
  | HReject r => reject_dial_tcp r addr
  end.

Definition dial_udp `{!Outbounds} (h : OutboundHandler) (addr : AclAddr)
    : AclAddr * result UdpConn string :=
  match h with
  | HDirect d => direct_dial_udp d addr
  | HSocks5 inner _ => socks5_dial_udp inner addr
  | HHttp h => http_dial_udp h addr
  | HReject r => reject_dial_udp r addr
  end.

(** A handler that lets datagrams out either says so or is a SOCKS5 proxy the
    operator has barred from UDP, which only [allows_udp] holds back; nothing
    gets out through a reject. *)
Lemma dial_allowed `{!Outbounds, !OutboundLaws} h a c :
  (dial_udp h a).2 = Ok c → allows_udp h = true ∨ ∃ s, h = HSocks5 s false.
Proof using Type.
  destruct h as [d|s []|hp|r]; simpl; eauto; intros Hc.
  - destruct (http_udp_law hp a) as [e He]. congruence.
  - destruct (reject_udp_law r a) as [e He]. congruence.
Qed.

Lemma reject_never_dials `{!Outbounds, !OutboundLaws} h a :
  is_reject h = true → (∃ e, (dial_tcp h a).2 = Err e) ∧ ∃ e, (dial_udp h a).2 = Err e.
Proof using Type. destruct h; [done..|]. intros _. split; [apply reject_tcp_law|apply reject_udp_law]. Qed.

(** ** The engine *)

Record AclEngine := MkAclEngine {
  compiled : CompiledRuleSet (arc OutboundHandler);
  engine_outbounds : gmap string (arc OutboundHandler);
}.

(** Step 1 of [AclEngine::new]: one handler per entry, a later entry of the
    same name replacing an earlier one.  [next] numbers the allocations. *)
Fixpoint load_outbounds (next : nat) (entries : list OutboundEntry)
    (m : gmap string (arc OutboundHandler))
    : result (nat * gmap string (arc OutboundHandler)) string :=
  match entries with
  | [] => Ok (next, m)
  | entry :: entries' =>
      handler <-? from_entry entry;
      load_outbounds (S next) entries' (<[entry_name entry := MkArc next handler]> m)
  end.

(** [entry(name).or_insert_with(..)]. *)
Definition or_insert_with (name : string) (h : OutboundHandler) (next : nat)
    (m : gmap string (arc OutboundHandler)) : nat * gmap string (arc OutboundHandler) :=
  match m !! name with
  | Some _ => (next, m)
  | None => (S next, <[name := MkArc next h]> m)
  end.

Fixpoint join_lines (ls : list string) : string :=
  match ls with
  | [] => ""
  | [l] => l
  | l :: ls' => l +:+ String (Ascii.ascii_of_nat 10) EmptyString +:+ join_lines ls'
  end.

Definition engine_new (config : AclConfig) (dir : option string) (refresh_geodata : bool)
    : result AclEngine string :=
  loaded <-? load_outbounds 0 (outbounds config) ∅;
  let '(n1, m1) := or_insert_with "reject" (HReject reject_new) loaded.1 loaded.2 in
  let '(_, m2) := or_insert_with "direct" (HDirect direct_new) n1 m1 in
  let rules := match inline (acl config) with [] => ["direct(all)"] | rs => rs end in
  text_rules <-? map_err (λ e, "Failed to parse ACL rules: " +:+ e) (parse_rules (join_lines rules));
  let geo := MkGeoLoader dir (if refresh_geodata then Some 0%Z else None) in
  comp <-? map_err (λ e, "Failed to compile ACL rules: " +:+ e) (compile text_rules m2 4096 geo);
  Ok (MkAclEngine comp m2).

Definition match_host_hijack (e : AclEngine) (host : string) (port : Z) (protocol : Protocol)
    : option (arc OutboundHandler * option IpAddr) :=
  let host_info :=
    match parse_ip host with Some ip => HostIp ip | None => HostName host end in
  match compiled_match (compiled e) host_info protocol port with
  | Some (outbound, hijack_ip) => Some (outbound, hijack_ip)
  | None => (λ h, (h, None)) <$> (engine_outbounds e !! "direct")
  end.

Definition match_host (e : AclEngine) (host : string) (port : Z) (protocol : Protocol)
    : option (arc OutboundHandler) := fst <$> match_host_hijack e host port protocol.

Definition engine_rule_count (e : AclEngine) : nat := rule_count (compiled e).

(** [Debug for OutboundHandler]. *)
Definition handler_fmt (h : OutboundHandler) : string :=
  match h with
  | HDirect _ => "Direct"
  | HSocks5 _ allow_udp => "Socks5(udp=" +:+ (if allow_udp then "true" else "false") +:+ ")"
  | HHttp _ => "Http"
  | HReject _ => "Reject"
  end.

End acl.

(** Reading the file, and [serde_yaml]. *)
Class AclFiles := {
  read_to_string : string → result string string;
  yaml_from_str : string → result AclConfig string;
}.

Definition load_acl_config `{AclFiles} (path : string) : result AclConfig string :=
  content <-? map_err (λ e, "Failed to read ACL config file '" +:+ path +:+ "': " +:+ e)
                (read_to_string path);
  map_err (λ e, "Failed to parse ACL config file '" +:+ path +:+ "': " +:+ e)
    (yaml_from_str content).

(** ** Properties of the engine *)

Section engine_facts.
Context `{AclLib, BindProbe}.

Lemma or_insert_keeps name h n m n' m' k :
  or_insert_with name h n m = (n', m') → is_Some (m !! k) → m' !! k = m !! k.
Proof.
  unfold or_insert_with. destruct (m !! name) eqn:E; intros [= <- <-] [x Hx]; [done|].
  rewrite lookup_insert_ne; [done|]. intros <-. congruence.
Qed.

Lemma or_insert_present name h n m n' m' :
  or_insert_with name h n m = (n', m') →
  m' !! name = Some (default (MkArc n h) (m !! name)).
Proof.
  unfold or_insert_with. destruct (m !! name) eqn:E; intros [= <- <-]; [done|].
  apply lookup_insert_eq.
Qed.

(** Allocations are numbered below [next], and no two names share one. *)
Definition outbounds_wf (next : nat) (m : gmap string (arc OutboundHandler)) : Prop :=
  (∀ k a, m !! k = Some a → arc_ptr a < next)
  ∧ (∀ k1 k2 a1 a2, m !! k1 = Some a1 → m !! k2 = Some a2 → ptr_eq a1 a2 = true → k1 = k2).

Lemma outbounds_wf_insert next m name h :
  outbounds_wf next m → outbounds_wf (S next) (<[name := MkArc next h]> m).
Proof.
  intros [Hlt Hinj]. split.
  - intros k a. rewrite lookup_insert_Some. intros [[<- <-]|[_ Ha]]; [simpl; lia|].
    specialize (Hlt _ _ Ha). lia.
  - intros k1 k2 a1 a2. rewrite !lookup_insert_Some. unfold ptr_eq. rewrite Nat.eqb_eq.
    intros [[<- <-]|[_ H1]] [[<- <-]|[_ H2]] Hp; simpl in *; try done.
    + specialize (Hlt _ _ H2). lia.
    + specialize (Hlt _ _ H1). lia.
    + eapply Hinj; eauto. unfold ptr_eq. by apply Nat.eqb_eq.
Qed.

Lemma or_insert_wf name h n m n' m' :
  or_insert_with name h n m = (n', m') → outbounds_wf n m → outbounds_wf n' m'.
Proof.
  unfold or_insert_with. destruct (m !! name); intros [= <- <-] Hwf; [done|].
  by apply outbounds_wf_insert.
Qed.

(** Each loaded name is served by the last entry that carries it. *)
Definition last_entry (name : string) (entries : list OutboundEntry) : option OutboundEntry :=
  last (filter (λ e, entry_name e = name) entries).

Lemma load_outbounds_spec entries next m next' m' :
  load_outbounds next entries m = Ok (next', m') →
  outbounds_wf next m →
  outbounds_wf next' m'
  ∧ ∀ name,
      match last_entry name entries with
      | Some e => ∃ a, m' !! name = Some a ∧ from_entry e = Ok (arc_val a)
      | None => m' !! name = m !! name
      end.
Proof.
  revert next m. induction entries as [|e es IH]; intros next m; simpl.
  { by intros [= <- <-]. }
  destruct (from_entry e) as [h|err] eqn:He; simpl; [|done]. intros Hl Hwf.
  destruct (IH _ _ Hl) as [Hwf' Hall]; [by apply outbounds_wf_insert|].
  split; [done|]. intros name. specialize (Hall name). unfold last_entry in *.
  destruct (decide (entry_name e = name)) as [Hn|Hn].
  - rewrite filter_cons_True by done. rewrite last_cons.
    destruct (last (filter _ es)) eqn:Hlast; [done|].
    rewrite Hall, Hn, lookup_insert_eq. eauto.
  - rewrite filter_cons_False by done.
    destruct (last (filter _ es)); [done|]. by rewrite Hall, lookup_insert_ne.
Qed.

(** What [AclEngine::new] builds. *)
Lemma engine_new_inv config dir refresh e :
  engine_new config dir refresh = Ok e →
  (∃ next, outbounds_wf next (engine_outbounds e))
  ∧ ∀ name,
      match last_entry name (outbounds config) with
      | Some en => ∃ a, engine_outbounds e !! name = Some a ∧ from_entry en = Ok (arc_val a)
      | None =>
          arc_val <$> engine_outbounds e !! name
          = if decide (name = "direct") then Some (HDirect direct_new)
            else if decide (name = "reject") then Some (HReject reject_new) else None
      end.
Proof.
  unfold engine_new.
  destruct (load_outbounds 0 (outbounds config) ∅) as [[n m]|] eqn:Hl; simpl; [|done].
  destruct (or_insert_with "reject" _ n m) as [n1 m1] eqn:H1.
  destruct (or_insert_with "direct" _ n1 m1) as [n2 m2] eqn:H2.
  destruct (parse_rules _) as [t|]; simpl; [|done].
  destruct (compile _ _ _ _) as [c|]; simpl; [|done]. intros [= <-]; simpl.
  destruct (load_outbounds_spec _ _ _ _ _ Hl) as [Hwf Hall].
  { split; intros *; by rewrite lookup_empty. }
  split; [eauto using or_insert_wf|]. intros name. specialize (Hall name).
  pose proof (or_insert_keeps _ _ _ _ _ _ name H1) as K1.
  pose proof (or_insert_keeps _ _ _ _ _ _ name H2) as K2.
  destruct (last_entry name (outbounds config)) as [en|].
  { destruct Hall as (a & Ha & ?). rewrite Ha in K1. rewrite K1 in K2 by eauto.
    rewrite K2 by eauto. eauto. }
  rewrite lookup_empty in Hall. clear K1 K2.
  unfold or_insert_with in H1, H2. case_decide as Hd.
  { subst name. destruct (m !! "reject"); injection H1 as <- <-;
      rewrite ?lookup_insert_ne, Hall in H2 by done; injection H2 as <- <-;
      by rewrite lookup_insert_eq. }
  assert (m2 !! name = m1 !! name) as ->.
  { destruct (m1 !! "direct"); injection H2 as <- <-; [done|]. by rewrite lookup_insert_ne. }
  case_decide as Hr.
  - subst name. rewrite Hall in H1. injection H1 as <- <-. by rewrite lookup_insert_eq.
  - destruct (m !! "reject"); injection H1 as <- <-; by rewrite ?lookup_insert_ne, Hall.
Qed.

Lemma engine_matches_always config dir refresh e host port protocol :
  engine_new config dir refresh = Ok e → is_Some (match_host_hijack e host port protocol).
Proof.
  intros Hn. destruct (engine_new_inv _ _ _ _ Hn) as [_ Hall].
  unfold match_host_hijack.
  destruct (compiled_match _ _ _ _) as [[o hj]|]; [eauto|]. specialize (Hall "direct").
  destruct (last_entry _ _) as [en|].
  - destruct Hall as (a & -> & _). eauto.
  - destruct (engine_outbounds e !! "direct"); [eauto|done].
Qed.

End engine_facts.

(** A concrete instance of the parameters: every option is accepted, a rule
    set sends the host of an outbound's name to that outbound. *)
Module SampleAcl.

#[local] Instance sample_lib : AclLib := {|
  DirectImpl := DirectOptions;
  Socks5Impl := string * option (string * string);
  HttpImpl := string * bool * option (string * string);
  RejectImpl := unit;
  TextRules := string;
  CompiledRuleSet := λ O, gmap string O;
  direct_new := MkDirectOptions Auto None None None false None true None;
  direct_with_options := Ok;
  socks5_new := λ a, (a, None);
  socks5_with_auth := λ a u p, Ok (a, Some (u, p));
  http_new := λ a, (a, false, None);
  http_try_new := λ a s, Ok (a, s, None);
  http_with_auth := λ h u p, (h.1, Some (u, p));
  reject_new := tt;
  parse_rules := Ok;
  compile := λ O _ m _ _, Ok m;
  compiled_match := λ O m h _ _,
    match h with HostName n => (λ o, (o, None)) <$> (m !! n) | HostIp _ => None end;
  rule_count := λ O m, size m;
|}.

#[local] Instance sample_probe : BindProbe := {|
  socket_new_v4 := Ok tt;
  socket_new_v6 := Ok tt;
  socket_bind := λ _, Ok tt;
  socket_bind_device := λ _, Ok tt;
|}.

Definition warp : OutboundEntry :=
  MkEntry "warp" "socks5" (Some (MkSocks5Config "127.0.0.1:40000" None None false)) None None.

Definition config : AclConfig := MkAclConfig [warp; warp] (MkAclRules []).

Definition engine : AclEngine :=
  match engine_new config None false with
  | Ok e => e
  | Err _ => MkAclEngine ∅ ∅
  end.

End SampleAcl.

(** C26: [AclEngine::new] builds the table the configuration describes.  An
    outbound name is served by the last entry carrying it; [direct] and
    [reject] exist whatever the file says, as the plain handlers unless the
    file defines them; no other name is served; two names never share a
    handler allocation (so [Arc::ptr_eq] tells outbounds apart); and every
    host is matched to some outbound. *)
Theorem engine_serves_config `{AclLib, BindProbe} config dir refresh e :
  engine_new config dir refresh = Ok e →
  (∀ name,
      match last_entry name (outbounds config) with
      | Some en => ∃ a, engine_outbounds e !! name = Some a ∧ from_entry en = Ok (arc_val a)
      | None =>
          arc_val <$> engine_outbounds e !! name
          = if decide (name = "direct") then Some (HDirect direct_new)
            else if decide (name = "reject") then Some (HReject reject_new) else None
      end)
  ∧ (∀ k1 k2 a1 a2, engine_outbounds e !! k1 = Some a1 → engine_outbounds e !! k2 = Some a2 →
       ptr_eq a1 a2 = true → k1 = k2)
  ∧ (∀ host port protocol, is_Some (match_host_hijack e host port protocol)).
Proof.
  intros Hn. destruct (engine_new_inv _ _ _ _ Hn) as [[next [_ Hinj]] Hall].
  split_and!; [done|exact Hinj|]. intros host port protocol.
  by eapply engine_matches_always.
Qed.

Lemma engine_serves_config_witness :
  engine_new (H := SampleAcl.sample_lib) (H0 := SampleAcl.sample_probe)
    SampleAcl.config None false = Ok SampleAcl.engine
  ∧ is_Some (match_host_hijack (H := SampleAcl.sample_lib) SampleAcl.engine "x.org" 443 TCP).
Proof.
  assert (Hn : engine_new (H := SampleAcl.sample_lib) (H0 := SampleAcl.sample_probe)
    SampleAcl.config None false = Ok SampleAcl.engine) by reflexivity.
  split; [exact Hn|].
  apply (engine_serves_config (H := SampleAcl.sample_lib) (H0 := SampleAcl.sample_probe)
           SampleAcl.config None false SampleAcl.engine Hn).
Defined.
