(* ===== verification/Hooks.v ===== *)
(** * Hooks between the proxy core and its environment ([src/src/core/hooks.rs])

    The authenticator, statistics and router traits as classes, and the router
    used when no ACL file is configured. *)

From S2P Require Import Prelude RustStd Protocol IpFilter Dns Acl.

(** [UserId] is an [i64]. *)
Definition UserId : Type := Z.

Class Authenticator (A : Type) := {
  authenticate : A → list byte → option UserId;
}.

(** The collector's methods take [&self]: the counters are its state. *)
Class StatsCollector (T : Type) := {
  record_request : UserId → T → T;
  record_upload : UserId → Z → T → T;
  record_download : UserId → Z → T → T;
}.

(** What a collector promises: per-user counters that add up. *)
Class StatsLaws (T : Type) `{StatsCollector T} := {
  requests : UserId → T → Z;
  uploaded : UserId → T → Z;
  downloaded : UserId → T → Z;
  request_law u v t :
    requests v (record_request u t) = (requests v t + if decide (u = v) then 1 else 0)%Z
    ∧ uploaded v (record_request u t) = uploaded v t
    ∧ downloaded v (record_request u t) = downloaded v t;
  upload_law u n v t :
    uploaded v (record_upload u n t) = (uploaded v t + if decide (u = v) then n else 0)%Z
    ∧ requests v (record_upload u n t) = requests v t
    ∧ downloaded v (record_upload u n t) = downloaded v t;
  download_law u n v t :
    downloaded v (record_download u n t) = (downloaded v t + if decide (u = v) then n else 0)%Z
    ∧ requests v (record_download u n t) = requests v t
    ∧ uploaded v (record_download u n t) = uploaded v t;
}.

(** Counters as a function from users to (requests, upload, download). *)
Definition Counters : Type := UserId → Z * Z * Z.

Definition bump (u : UserId) (d : Z * Z * Z) (t : Counters) : Counters := λ v,
  let k := (if decide (u = v) then 1 else 0)%Z in
  ((t v).1.1 + k * d.1.1, (t v).1.2 + k * d.1.2, (t v).2 + k * d.2)%Z.

#[export] Instance counters_stats : StatsCollector Counters := {|
  record_request u := bump u (1, 0, 0)%Z;
  record_upload u n := bump u (0, n, 0)%Z;
  record_download u n := bump u (0, 0, n)%Z;
|}.

#[export] Program Instance counters_laws : StatsLaws Counters := {|
  requests u t := (t u).1.1;
  uploaded u t := (t u).1.2;
  downloaded u t := (t u).2;
|}.
Next Obligation. intros. simpl. case_decide; lia. Qed.
Next Obligation. intros. simpl. case_decide; lia. Qed.
Next Obligation. intros. simpl. case_decide; lia. Qed.

Inductive OutboundType `{AclLib} : Type :=
| Direct (resolved : option ResolvedAddrs) (handler : option (arc OutboundHandler))
| Reject
| Proxy (handler : arc OutboundHandler) (hijack : option IpAddr).

(** [impl Display for SocketAddr]. *)
Definition socket_addr_fmt (sa : SocketAddr) : string :=
  Address.fmt (Address.from_ip (sa_ip sa) (sa_port sa)).

(** [impl Debug for OutboundType], as the handlers log it: [None] is the panic of
    [socket_addr] without an address. *)
Definition outbound_fmt `{AclLib} (o : OutboundType) : option string :=
  match o with
  | Direct None None => Some "Direct"
  | Direct (Some addr) _ =>
      sa ← Resolved.socket_addr addr; Some ("Direct(" +:+ socket_addr_fmt sa +:+ ")")
  | Direct None (Some h) => Some ("Direct(" +:+ handler_fmt (arc_val h) +:+ ")")
  | Reject => Some "Reject"
  | Proxy handler (Some ip) =>
      Some ("Proxy(" +:+ handler_fmt (arc_val handler) +:+ " → " +:+ ip_to_string ip +:+ ")")
  | Proxy handler None => Some ("Proxy(" +:+ handler_fmt (arc_val handler) +:+ ")")
  end.

(** A router decides with the DNS cache it shares with the server. *)
Class OutboundRouter `{AclLib} (R D : Type) := {
  route : R → D → Address → D * OutboundType;
  route_udp : R → D → Address → D * OutboundType;
}.

Record DirectRouter := MkDirectRouter { dr_block_private_ip : bool }.

Section direct_router.
Context `{AclLib, DnsCache D}.

(** What both routers do with a target that goes out directly. *)
Definition direct_outbound (cache : D) (addr : Address) (block_private_ip : bool)
    (handler : option (arc OutboundHandler)) : D * OutboundType :=
  match screen_direct_target cache addr block_private_ip with
  | (cache', Blocked) => (cache', Reject)
  | (cache', Allow resolved) => (cache', Direct resolved handler)
  end.

Definition direct_route (r : DirectRouter) (cache : D) (addr : Address) : D * OutboundType :=
  direct_outbound cache addr (dr_block_private_ip r) None.

#[export] Instance direct_router : OutboundRouter DirectRouter D :=
  {| route := direct_route; route_udp := direct_route |}.

(** A direct verdict with addresses names only public ones when screening is
    on. *)
Lemma direct_outbound_public cache addr h cache' r h' sa :
  direct_outbound cache addr true h = (cache', Direct (Some r) h') →
  sa ∈ Resolved.candidates r → is_private_ip (sa_ip sa) = false.
Proof.
  unfold direct_outbound.
  destruct (screen_direct_target cache addr true) as [c [|res]] eqn:Hs; [done|].
  intros [= -> -> <-]. by eapply screen_allow_public.
Qed.

Lemma direct_outbound_none cache addr h cache' h' :
  direct_outbound cache addr true h = (cache', Direct None h') →
  (∃ ip, Address.literal_ip addr = Some ip ∧ is_private_ip ip = false ∧ cache' = cache)
  ∨ (∃ host p, addr = Domain host p ∧ parse_ip host = None
               ∧ resolve_with_port_iter cache host p = (cache', Ok [])).
Proof.
  unfold direct_outbound.
  destruct (screen_direct_target cache addr true) as [c [|res]] eqn:Hs; [done|].
  intros [= -> -> <-]. by apply screen_allow_none.
Qed.

(** Resolved addresses come from [collect], so that logging a verdict never
    panics. *)
Lemma outbound_fmt_collected port ips h :
  is_Some (outbound_fmt (Direct (Resolved.collect port ips) h)).
Proof.
  destruct (Resolved.collect port ips) as [r|] eqn:Hc; [|destruct h; simpl; eauto].
  pose proof (collect_candidates _ _ _ Hc) as Hcand. cbn. unfold Resolved.socket_addr. rewrite Hcand.
  destruct ips as [|ip ips]; [by rewrite (proj2 (collect_None port [])) in Hc|].
  destruct ip; simpl; eauto.
Qed.

Lemma direct_outbound_printable cache addr block h :
  is_Some (outbound_fmt (direct_outbound cache addr block h).2).
Proof.
  assert (Hnone : is_Some (outbound_fmt (Direct None h))) by (destruct h; simpl; eauto).
  assert (Hres : ∀ r, (resolve_addrs cache addr).2 = Ok r → is_Some (outbound_fmt (Direct (Some r) h))).
  { intros r. unfold resolve_addrs. destruct addr as [ip p|ip p|host p]; [by intros [= <-]; simpl; eauto..|].
    destruct (resolve_with_port_iter cache host p) as [c [it|e]]; [|done]. simpl.
    pose proof (outbound_fmt_collected p (map sa_ip it) h) as Hf.
    destruct (Resolved.collect p (map sa_ip it)); [|done]. by intros [= <-]. }
  unfold direct_outbound, screen_direct_target, check_private_and_resolve. destruct block.
  - destruct addr as [ip p|ip p|host p]; [destruct (is_private_ip _); [simpl; eauto|done]..|].
    destruct (parse_ip host); [destruct (is_private_ip _); [simpl; eauto|done]|].
    destruct (resolve_with_port_iter cache host p) as [c [it|e]]; [|simpl; eauto].
    destruct (existsb is_private_ip (map sa_ip it)); [simpl; eauto|]. apply outbound_fmt_collected.
  - destruct addr as [ip p|ip p|host p]; [done..|].
    destruct (resolve_addrs cache (Domain host p)) as [c [r|e]]; [by apply Hres|done].
Qed.

End direct_router.
