(* ===== verification/AclRouter.v ===== *)
(** * Routing by ACL ([AclRouter] of [src/src/acl.rs])

    The decision for one target: match first, screen what goes out directly,
    never hand a loopback-resolving name to a proxy. *)

From S2P Require Import Prelude RustStd Text Protocol IpFilter Dns Acl Hooks.

Definition dot : byte := Byte.x2e.

Definition is_numeric_host (host : string) : bool :=
  let last := last_label dot (trim_end_byte dot (as_bytes host)) in
  negb (bool_decide (last = []))
  && (forallb is_ascii_digit last
      || match (match strip_prefix (as_bytes "0x") last with
                | Some h => Some h
                | None => strip_prefix (as_bytes "0X") last
                end) with
         | Some h => negb (bool_decide (h = [])) && forallb is_ascii_hexdigit h
         | None => false
         end).

Definition localhost_aliases : list string :=
  ["localhost"; "localhost4"; "localhost6"; "localhost.localdomain";
   "localhost4.localdomain4"; "localhost6.localdomain6"; "ip6-localhost"; "ip6-loopback"].

Definition is_localhost_name (host : string) : bool :=
  let h := to_ascii_lowercase (of_bytes (trim_end_byte dot (as_bytes host))) in
  bool_decide (h ∈ localhost_aliases) || ends_with (as_bytes ".localhost") (as_bytes h).

Section router.
Context `{AclLib, DnsCache D}.

Record AclRouter := MkAclRouter { engine : AclEngine; ar_block_private_ip : bool }.

(** The guard of the proxy branch: under [block_private_ip], targets the proxy
    host would resolve to its own loopback or private network. *)
Definition proxy_blocked (addr : Address) : bool :=
  match Address.literal_ip addr with
  | Some ip => is_private_ip ip
  | None => is_numeric_host (Address.host addr) || is_localhost_name (Address.host addr)
  end.

Definition route_with_protocol (r : AclRouter) (cache : D) (addr : Address)
    (protocol : Protocol) : D * OutboundType :=
  let host := Address.host addr in
  let port := Address.port addr in
  let direct handler hijack :=
    match hijack with
    | Some ip => (cache, Direct (Resolved.collect port [ip]) handler)
    | None => direct_outbound cache addr (ar_block_private_ip r) handler
    end in
  match match_host_hijack (engine r) host port protocol with
  | Some (h, hijack) =>
      match arc_val h with
      | HReject _ => (cache, Reject)
      | HSocks5 _ _ | HHttp _ =>
          if ar_block_private_ip r && proxy_blocked addr then (cache, Reject)
          else (cache, Proxy h hijack)
      | HDirect _ => direct (Some h) hijack
      end
  | None => direct None None
  end.

#[export] Instance acl_router : OutboundRouter AclRouter D := {|
  route := λ r cache addr, route_with_protocol r cache addr TCP;
  route_udp := λ r cache addr, route_with_protocol r cache addr UDP;
|}.

End router.

(** ** Names that reach loopback *)

Example numeric_examples :
  forallb is_numeric_host
    ["2130706433"; "127.1"; "0x7f000001"; "0X7F.1"; "127.0.0.1."; "1.2.0x3"] = true
  ∧ existsb is_numeric_host ["example.com"; "1.2.3.4.example"; "0x"; ""; "."; "0xg1"] = false.
Proof. split; vm_compute; reflexivity. Qed.

Example localhost_examples :
  forallb is_localhost_name
    ["localhost"; "LOCALHOST."; "foo.localhost"; "a.b.LocalHost"; "ip6-loopback"] = true
  ∧ existsb is_localhost_name ["localhost.com"; "mylocalhost"; "notlocalhost4"] = false.
Proof. split; vm_compute; reflexivity. Qed.

(** Reference: the address notations of POSIX [inet_aton], one to four
    dot-separated numbers in decimal, octal ([0] prefix) or hexadecimal ([0x]),
    the last filling the remaining bytes. *)
Definition digit_value (b : byte) : Z :=
  if in_range 48 57 b then b2z b - 48
  else if in_range 65 70 b then b2z b - 55
  else b2z b - 87.

Definition digits_value (base : Z) (l : list byte) : Z :=
  fold_left (λ acc b, acc * base + digit_value b)%Z l 0%Z.

Definition inet_number (l : list byte) : option Z :=
  let hex := match strip_prefix (as_bytes "0x") l with
             | Some h => Some h
             | None => strip_prefix (as_bytes "0X") l
             end in
  match hex with
  | Some h => if negb (bool_decide (h = [])) && forallb is_ascii_hexdigit h
              then Some (digits_value 16 h) else None
  | None =>
      match l with
      | [] => None
      | Byte.x30 :: _ => if forallb (in_range 48 55) l then Some (digits_value 8 l) else None
      | _ => if forallb is_ascii_digit l then Some (digits_value 10 l) else None
      end
  end.

Definition below (bound : Z) (v : option Z) : option Z :=
  x ← v; if (x <? bound)%Z then Some x else None.

Definition inet_aton (l : list byte) : option Z :=
  match split_on dot l with
  | [a] => below 4294967296 (inet_number a)
  | [a; b] =>
      x ← below 256 (inet_number a); y ← below 16777216 (inet_number b);
      Some (x * 16777216 + y)%Z
  | [a; b; c] =>
      x ← below 256 (inet_number a); y ← below 256 (inet_number b);
      z ← below 65536 (inet_number c); Some (x * 16777216 + y * 65536 + z)%Z
  | [a; b; c; d] =>
      x ← below 256 (inet_number a); y ← below 256 (inet_number b);
      z ← below 256 (inet_number c); w ← below 256 (inet_number d);
      Some (x * 16777216 + y * 65536 + z * 256 + w)%Z
  | _ => None
  end.

Example inet_aton_examples :
  map (λ s, inet_aton (as_bytes s)) ["2130706433"; "127.1"; "0x7f.0.1"; "0177.0.0.1"]
  = replicate 4 (Some 2130706433%Z).
Proof. vm_compute. reflexivity. Qed.

Lemma take_while_app_last {A} (p : A → bool) l x :
  take_while p (l ++ [x])
  = if forallb p l then l ++ (if p x then [x] else []) else take_while p l.
Proof. induction l as [|y l IH]; simpl; [done|]. destruct (p y); simpl; [|done].
  rewrite IH. by destruct (forallb p l). Qed.

Lemma forallb_rev {A} (p : A → bool) l : forallb p (rev l) = forallb p l.
Proof. induction l as [|x l IH]; simpl; [done|]. rewrite forallb_app, IH. simpl.
  by rewrite andb_true_r, andb_comm. Qed.

Lemma take_while_all {A} (p : A → bool) l : forallb p l = true → take_while p l = l.
Proof. induction l as [|x l IH]; simpl; [done|]. destruct (p x); [|done]. intros. by rewrite IH. Qed.

Lemma split_on_last c l : last (split_on c l) = Some (last_label c l).
Proof.
  unfold last_label.
  assert (H : last (split_on c l) = Some (rev (take_while (λ b, negb (is_byte c b)) (rev l)))
    ∧ (forallb (λ b, negb (is_byte c b)) l = true → split_on c l = [l])
    ∧ (forallb (λ b, negb (is_byte c b)) l = false → 2 ≤ length (split_on c l))); [|apply H].
  induction l as [|x l (IH1 & IH2 & IH3)]; [done|]. simpl.
  rewrite take_while_app_last, forallb_rev.
  destruct (is_byte c x) eqn:Hx; simpl.
  - split_and!; [|done|intros _].
    + rewrite last_cons, IH1. destruct (forallb _ l) eqn:Hl; [|done].
      by rewrite app_nil_r, take_while_all by by rewrite forallb_rev.
    + destruct (forallb (λ b, negb (is_byte c b)) l) eqn:Hl;
        [rewrite (IH2 eq_refl)|specialize (IH3 eq_refl)]; simpl; lia.
  - destruct (forallb (λ b, negb (is_byte c b)) l) eqn:Hl.
    + rewrite (IH2 eq_refl). split_and!; [|done|done]. simpl. by rewrite rev_app_distr, rev_involutive.
    + specialize (IH3 eq_refl). destruct (split_on c l) as [|p [|q ps]]; simpl in *; [lia..|].
      split_and!; [done|done|lia].
Qed.

Lemma trim_end_id c l b : last l = Some b → b ≠ c → trim_end_byte c l = l.
Proof.
  intros Hl Hb. unfold trim_end_byte.
  apply last_Some in Hl as [l' ->]. rewrite rev_app_distr. simpl.
  unfold is_byte at 1. rewrite bool_decide_eq_false_2 by done.
  simpl. by rewrite rev_involutive.
Qed.

(** The numeric test of [is_numeric_host] on a label. *)
Lemma inet_number_numeric l v :
  inet_number l = Some v →
  negb (bool_decide (l = []))
  && (forallb is_ascii_digit l
      || match (match strip_prefix (as_bytes "0x") l with
                | Some h => Some h
                | None => strip_prefix (as_bytes "0X") l
                end) with
         | Some h => negb (bool_decide (h = [])) && forallb is_ascii_hexdigit h
         | None => false
         end) = true.
Proof.
  unfold inet_number. destruct l as [|x l]; [done|].
  rewrite bool_decide_eq_false_2 by done. cbn [negb andb].
  destruct (match strip_prefix _ _ with Some h => _ | None => _ end) as [h|].
  { destruct (_ && _); [|done]. by rewrite orb_true_r. }
  intros Hv. apply orb_true_iff. left.
  assert (Hoct : forallb (in_range 48 55) (x :: l) = true → forallb is_ascii_digit (x :: l) = true).
  { rewrite !forallb_forall. intros Hall y Hy. specialize (Hall y Hy).
    unfold is_ascii_digit, in_range in *. rewrite andb_true_iff, !Z.leb_le in *. lia. }
  destruct x; try (destruct (forallb is_ascii_digit _); done).
  destruct (forallb (in_range 48 55) _); [by apply Hoct|done].
Qed.

Lemma last_label_end c l b : last (last_label c l) = Some b → last l = Some b ∧ b ≠ c.
Proof.
  unfold last_label. rewrite <- (rev_involutive l) at 2. destruct (rev l) as [|x r]; [done|].
  simpl. unfold is_byte at 1. case_bool_decide as Hx; simpl; [done|].
  rewrite !last_snoc. intros [= <-]. done.
Qed.

Lemma inet_aton_last l v : inet_aton l = Some v → ∃ n, inet_number (last_label dot l) = Some n.
Proof.
  unfold inet_aton. pose proof (split_on_last dot l) as Hlast.
  assert (Hb : ∀ bd o x, below bd o = Some x → o = Some x).
  { intros bd [y|] x; simpl; [|done]. by case_match. }
  destruct (split_on dot l) as [|a [|b [|c [|d [|e r]]]]]; try done;
    simpl in Hlast; injection Hlast as <-; intros Hv.
  - eauto.
  - apply bind_Some in Hv as (x & _ & Hv). apply bind_Some in Hv as (y & Hy & _). eauto.
  - apply bind_Some in Hv as (x & _ & Hv). apply bind_Some in Hv as (y & _ & Hv).
    apply bind_Some in Hv as (z & Hz & _). eauto.
  - apply bind_Some in Hv as (x & _ & Hv). apply bind_Some in Hv as (y & _ & Hv).
    apply bind_Some in Hv as (z & _ & Hv). apply bind_Some in Hv as (w & Hw & _). eauto.
Qed.

(** C27: [is_numeric_host] recognises every host that an [inet_aton]-style
    resolver reads as an IPv4 address, in any mix of decimal, octal and
    hexadecimal parts, with or without trailing dots. *)
Theorem numeric_host_covers_inet_aton host dots v :
  inet_aton (as_bytes host) = Some v →
  is_numeric_host (host +:+ of_bytes (replicate dots dot)) = true.
Proof.
  intros Hv. unfold is_numeric_host. rewrite as_bytes_app, as_bytes_of_bytes.
  destruct (inet_aton_last _ _ Hv) as [n Hn].
  assert (Htrim : trim_end_byte dot (as_bytes host ++ replicate dots dot) = as_bytes host).
  { destruct (last (last_label dot (as_bytes host))) as [b|] eqn:Hl.
    - destruct (last_label_end _ _ _ Hl) as [Hlast Hne].
      rewrite <- (trim_end_id dot (as_bytes host) b Hlast Hne) at 2. unfold trim_end_byte.
      rewrite rev_app_distr. f_equal. clear.
      assert (Hr : rev (replicate dots dot) = replicate dots dot)
        by (rewrite rev_alt; apply reverse_replicate).
      rewrite Hr. clear Hr.
      induction dots; simpl; [done|]. by rewrite IHdots.
    - apply last_None in Hl. by rewrite Hl in Hn. }
  rewrite Htrim. by eapply inet_number_numeric.
Qed.

Lemma numeric_host_covers_inet_aton_witness :
  inet_aton (as_bytes "0177.1") = Some 2130706433%Z
  ∧ is_numeric_host ("0177.1" +:+ of_bytes (replicate 1 dot)) = true.
Proof.
  split; [vm_compute; reflexivity|].
  apply (numeric_host_covers_inet_aton "0177.1" 1 2130706433). vm_compute. reflexivity.
Defined.

(** ** Routing decisions *)

Section route_facts.
Context `{AclLib, DnsCache D}.

Definition is_direct (h : OutboundHandler) : bool :=
  match h with HDirect _ => true | _ => false end.

(** The lookup for a name, not a literal, gave no address at all: there is
    nothing to screen. *)
Definition empty_answer (cache : D) (addr : Address) (cache' : D) : Prop :=
  ∃ host p, addr = Domain host p ∧ parse_ip host = None
            ∧ resolve_with_port_iter cache host p = (cache', Ok []).

(** What a decision taken under [block_private_ip] may let through.  [matched]
    is the rule that applied, [cache'] the cache after the decision. *)
Definition route_safe (addr : Address) (matched : option (arc OutboundHandler * option IpAddr))
    (cache cache' : D) (out : OutboundType) : Prop :=
  match out with
  | Reject => True
  | Proxy h hijack =>
      matched = Some (h, hijack) ∧ is_direct (arc_val h) = false ∧ is_reject (arc_val h) = false
      ∧ proxy_blocked addr = false ∧ cache' = cache
  | Direct (Some r) h =>
      (∀ sa, sa ∈ Resolved.candidates r → is_private_ip (sa_ip sa) = false)
      ∨ (∃ a ip, matched = Some (a, Some ip) ∧ h = Some a
                 ∧ Resolved.candidates r = [SocketAddrNew ip (Address.port addr)])
  | Direct None h =>
      (∃ ip, Address.literal_ip addr = Some ip ∧ is_private_ip ip = false ∧ cache' = cache)
      ∨ empty_answer cache addr cache'
  end.

Lemma direct_outbound_empty cache addr cache' h :
  empty_answer cache addr cache' → direct_outbound cache addr true h = (cache', Direct None h).
Proof.
  intros (host & p & -> & Hhost & Hr).
  unfold direct_outbound, screen_direct_target, check_private_and_resolve. by rewrite Hhost, Hr.
Qed.

Lemma direct_outbound_safe addr matched cache h :
  route_safe addr matched cache (direct_outbound cache addr true h).1
    (direct_outbound cache addr true h).2.
Proof.
  destruct (direct_outbound cache addr true h) as [c [[r|] h'| |]] eqn:Hd; simpl; try done.
  - left. intros sa. by eapply direct_outbound_public.
  - by eapply direct_outbound_none.
  - unfold direct_outbound in Hd. by repeat case_match.
Qed.

(** Every verdict of the router can be logged. *)
Lemma route_with_protocol_printable (r : AclRouter) (cache : D) addr p :
  is_Some (outbound_fmt (route_with_protocol r cache addr p).2).
Proof.
  unfold route_with_protocol.
  destruct (match_host_hijack _ _ _ _) as [[h hijack]|]; [|apply direct_outbound_printable].
  destruct (arc_val h); [|case_match; [by eauto|destruct hijack; simpl; eauto]..|by eauto].
  destruct hijack as [ip|]; [apply outbound_fmt_collected|apply direct_outbound_printable].
Qed.

Lemma route_with_protocol_safe r cache addr p :
  ar_block_private_ip r = true →
  let matched := match_host_hijack (engine r) (Address.host addr) (Address.port addr) p in
  let result := route_with_protocol r cache addr p in
  route_safe addr matched cache result.1 result.2.
Proof.
  intros Hb. simpl. unfold route_with_protocol. rewrite Hb.
  destruct (match_host_hijack _ _ _ _) as [[h hijack]|] eqn:Hm; [|apply direct_outbound_safe].
  destruct (arc_val h) as [d|s u|t|j] eqn:Hh; simpl.
  - destruct hijack as [ip|]; [|apply direct_outbound_safe]. simpl.
    destruct ip; right; eexists _, _; split_and!; done.
  - destruct (proxy_blocked addr) eqn:Hp; simpl; [done|]. rewrite Hh. done.
  - destruct (proxy_blocked addr) eqn:Hp; simpl; [done|]. rewrite Hh. done.
  - done.
Qed.

(** A name without addresses passes the screen. *)
Lemma route_with_protocol_empty r cache addr p cache' :
  ar_block_private_ip r = true → empty_answer cache addr cache' →
  let matched := match_host_hijack (engine r) (Address.host addr) (Address.port addr) p in
  (matched = None ∨ ∃ h, matched = Some (h, None) ∧ is_direct (arc_val h) = true) →
  route_with_protocol r cache addr p = (cache', Direct None (fst <$> matched)).
Proof.
  intros Hb He matched. unfold route_with_protocol. fold matched. rewrite Hb.
  intros [->|(h & -> & Hd)]; [by apply direct_outbound_empty|].
  destruct (arc_val h); [|done..]. by apply direct_outbound_empty.
Qed.

End route_facts.

(** C18: SSRF safety of ACL routing under [block_private_ip], for any resolver
    and rule set, and its one gap.  A target is handed to a proxy only if a
    proxy rule matched and it is neither a private literal nor a name that reads
    as loopback; a direct verdict names only public addresses, or the address
    the operator's hijack rule dictates; a direct verdict without addresses is
    given only for a public literal, or for a name the resolver answered with an
    empty list.  That last case is the gap, and it is real: a name answered with
    an empty list, which no proxy, reject or hijack rule takes, is always let
    through, unscreened, although a name that could not be checked is meant to
    be rejected. *)
Theorem acl_route_safe `{AclLib, DnsCache D} (r : AclRouter) (cache : D) addr p :
  ar_block_private_ip r = true →
  let matched := match_host_hijack (engine r) (Address.host addr) (Address.port addr) p in
  route_safe addr matched
    cache (route_with_protocol r cache addr p).1 (route_with_protocol r cache addr p).2
  ∧ ∀ cache', empty_answer cache addr cache' →
      matched = None ∨ (∃ h, matched = Some (h, None) ∧ is_direct (arc_val h) = true) →
      route_with_protocol r cache addr p = (cache', Direct None (fst <$> matched)).
Proof.
  intros Hb. split; [by apply route_with_protocol_safe|].
  intros cache' He. by apply route_with_protocol_empty.
Qed.

(** A resolver for witnesses: every name has the same addresses; the state
    counts the lookups. *)
Definition FixedDns (ips : list IpAddr) : DnsCache nat :=
  {| resolve_with_port_iter := λ n _ port, (S n, Ok (map (λ ip, SocketAddrNew ip port) ips)) |}.

Definition ipv4_of (a b c d : Z) : list byte := map z2b [a; b; c; d].

Lemma acl_route_safe_witness :
  (route_with_protocol (H := SampleAcl.sample_lib)
     (H0 := FixedDns [V4 (ipv4_of 10 0 0 5)])
     (MkAclRouter (H := SampleAcl.sample_lib) SampleAcl.engine true)
     0 (Domain "internal.example" 80) TCP) = (1, Reject)
  ∧ route_safe (H := SampleAcl.sample_lib) (H0 := FixedDns [V4 (ipv4_of 8 8 8 8)])
      (Domain "dns.example" 53)
      (match_host_hijack (H := SampleAcl.sample_lib) SampleAcl.engine "dns.example" 53 UDP) 0
      (route_with_protocol (H := SampleAcl.sample_lib) (H0 := FixedDns [V4 (ipv4_of 8 8 8 8)])
        (MkAclRouter (H := SampleAcl.sample_lib) SampleAcl.engine true)
        0 (Domain "dns.example" 53) UDP).1
      (route_with_protocol (H := SampleAcl.sample_lib) (H0 := FixedDns [V4 (ipv4_of 8 8 8 8)])
        (MkAclRouter (H := SampleAcl.sample_lib) SampleAcl.engine true)
        0 (Domain "dns.example" 53) UDP).2
  ∧ (route_with_protocol (H := SampleAcl.sample_lib) (H0 := FixedDns [])
       (MkAclRouter (H := SampleAcl.sample_lib) SampleAcl.engine true)
       0 (Domain "dns.example" 53) UDP).2 = Direct None (fst <$>
      match_host_hijack (H := SampleAcl.sample_lib) SampleAcl.engine "dns.example" 53 UDP).
Proof.
  split; [vm_compute; reflexivity|]. split.
  - apply (acl_route_safe (H := SampleAcl.sample_lib) (H0 := FixedDns [V4 (ipv4_of 8 8 8 8)])
      (MkAclRouter (H := SampleAcl.sample_lib) SampleAcl.engine true) 0 (Domain "dns.example" 53) UDP).
    reflexivity.
  - rewrite (proj2 (acl_route_safe (H := SampleAcl.sample_lib) (H0 := FixedDns [])
      (MkAclRouter (H := SampleAcl.sample_lib) SampleAcl.engine true) 0 (Domain "dns.example" 53) UDP
      eq_refl) 1).
    + reflexivity.
    + exists "dns.example", 53%Z. by split_and!.
    + right. eexists. split; vm_compute; reflexivity.
Defined.

(** ACL routing looks a name up only to connect to it directly: the cache
    is untouched when the matching rule rejects, proxies or hijacks, and for
    targets that are already addresses. *)
Theorem acl_route_no_dns_leak `{AclLib, DnsCache D} (r : AclRouter) (cache : D) addr p :
  (route_with_protocol r cache addr p).1 = cache
  ∨ (∃ host port, addr = Domain host port
      ∧ (route_with_protocol r cache addr p).1 = (resolve_with_port_iter cache host port).1
      ∧ match match_host_hijack (engine r) host port p with
        | Some (h, hijack) => is_direct (arc_val h) = true ∧ hijack = None
        | None => True
        end).
Proof.
  assert (Hdir : ∀ h, (direct_outbound cache addr (ar_block_private_ip r) h).1 = cache
    ∨ ∃ host port, addr = Domain host port
      ∧ (direct_outbound cache addr (ar_block_private_ip r) h).1
        = (resolve_with_port_iter cache host port).1).
  { intros h. unfold direct_outbound, screen_direct_target, check_private_and_resolve, resolve_addrs.
    destruct addr as [ip port|ip port|host port]; [left; repeat case_match; by simplify_eq/=..|].
    destruct (ar_block_private_ip r).
    - destruct (parse_ip host); [left; repeat case_match; by simplify_eq/=|]. right. exists host, port.
      split; [done|]. destruct (resolve_with_port_iter cache host port) as [c [it|e]]; [|done].
      by destruct (existsb _ _).
    - right. exists host, port. split; [done|].
      by destruct (resolve_with_port_iter cache host port) as [c [it|e]]. }
  unfold route_with_protocol.
  destruct (match_host_hijack _ _ _ p) as [[h hijack]|] eqn:Hm.
  - destruct (arc_val h) eqn:Hh; try (left; repeat case_match; by simplify_eq/=).
    destruct hijack; [by left|]. destruct (Hdir (Some h)) as [|(host & port & -> & Heq)]; [by left|].
    right. exists host, port. simpl in Hm. by rewrite Hm, Hh.
  - destruct (Hdir None) as [|(host & port & -> & Heq)]; [by left|].
    right. exists host, port. simpl in Hm. by rewrite Hm.
Qed.
