(* ===== verification/Codec.v ===== *)
(** * gRPC message framing ([src/src/transport/grpc/codec.rs])

    Varints, the frame encoder and the zero-copy parser of [Hunk] and
    [MultiHunk] messages.  Offsets into the buffer are [nat]; declared lengths,
    which the peer chooses, stay in [Z] at their machine width. *)

From S2P Require Import Prelude RustStd.

(** ** Varints *)

Definition u64_shl (x k : Z) : Z := (Z.shiftl x k mod 2 ^ 64)%Z.

(** The loop over [data.iter().enumerate()]. *)
Fixpoint decode_varint_loop (data : list byte) (i : nat) (shift acc : Z)
    : result (Z * nat) io_error :=
  match data with
  | [] => Err (IoError EkUnexpectedEof "incomplete varint")
  | b :: data' =>
      if 10 <=? i then Err (IoError EkInvalidData "varint too long")
      else
        let acc' := Z.lor acc (u64_shl (Z.land (b2z b) 127) shift) in
        if (Z.land (b2z b) 128 =? 0)%Z then Ok (acc', S i)
        else decode_varint_loop data' (S i) (shift + 7) acc'
  end.

Definition decode_varint (data : list byte) : result (Z * nat) io_error :=
  decode_varint_loop data 0 0 0.

(** [64 - leading_zeros] is the bit length. *)
Definition varint_len (value : Z) : nat :=
  if (value =? 0)%Z then 1
  else let bits := Z.to_nat (Z.log2 value + 1) in (bits + 6) / 7.

(** The [loop] of [encode_varint]; a [u64] is exhausted after ten rounds. *)
Fixpoint encode_varint_loop (fuel : nat) (value : Z) : list byte :=
  match fuel with
  | 0 => []
  | S fuel' =>
      let low := Z.land value 127 in
      let value' := Z.shiftr value 7 in
      let b := if (value' =? 0)%Z then low else Z.lor low 128 in
      z2b b :: (if (value' =? 0)%Z then [] else encode_varint_loop fuel' value')
  end.

Definition encode_varint (value : Z) : list byte := encode_varint_loop 10 value.
#[global] Arguments encode_varint : simpl never.
#[global] Arguments varint_len : simpl never.

(** ** Frames *)

Definition declared_frame_len (buf : list byte) : option Z :=
  if length buf <? 5 then None
  else match buf with
       | _ :: b1 :: b2 :: b3 :: b4 :: _ => Some (u32_from_be_bytes b1 b2 b3 b4)
       | _ => None
       end.

Definition upper_hex_digit (d : Z) : byte := if (d <? 10)%Z then z2b (48 + d) else z2b (55 + d).
Definition show_02X (b : byte) : string :=
  of_bytes [upper_hex_digit (b2z b / 16); upper_hex_digit (b2z b mod 16)].
Definition show_u64 (v : Z) : string := of_bytes (show_dec v).

(** [usize::try_from(len).ok().and_then(checked_add).filter(<= consumed)]. *)
Definition field_end (data_start : nat) (len : Z) (consumed : nat) : option nat :=
  let e := (Z.of_nat data_start + len)%Z in
  if (e <=? u64_max)%Z && (e <=? Z.of_nat consumed)%Z then Some (Z.to_nat e) else None.

(** The [while pos < consumed] walk over the protobuf fields: the first field's
    range and the ranges collected once there is a second one.  [None] is a
    panic (an index out of range) or exhausted fuel; neither happens. *)
Fixpoint walk_fields (fuel : nat) (buf : list byte) (consumed : nat) (frame_len : Z) (pos : nat)
    (first : option (nat * nat)) (fields : list (nat * nat))
    : option (result (option (nat * nat) * list (nat * nat)) io_error) :=
  if consumed <=? pos then Some (Ok (first, fields))
  else match fuel with
  | 0 => None
  | S fuel' =>
      tag ← buf !! pos;
      if negb (b2z tag =? 10)%Z then
        Some (Err (IoError EkInvalidData
          ("unexpected protobuf tag: 0x" +:+ show_02X tag +:+ ", expected 0x0A")))
      else
        window ← slice buf (pos + 1) consumed;
        match decode_varint window with
        | Err e => Some (Err e)
        | Ok (len_u64, varint_bytes) =>
            let data_start := pos + 1 + varint_bytes in
            match field_end data_start len_u64 consumed with
            | None =>
                Some (Err (IoError EkInvalidData
                  ("payload length " +:+ show_u64 len_u64 +:+ " exceeds gRPC frame length "
                   +:+ show_u64 frame_len)))
            | Some data_end =>
                match first with
                | None =>
                    walk_fields fuel' buf consumed frame_len data_end
                      (Some (data_start, data_end)) fields
                | Some f =>
                    let fields' := if bool_decide (fields = []) then [f] else fields in
                    walk_fields fuel' buf consumed frame_len data_end first
                      (fields' ++ [(data_start, data_end)])
                end
            end
        end
  end.

(** [out.extend_from_slice(&frame[s..e])] for each range. *)
Fixpoint gather (frame : list byte) (ranges : list (nat * nat)) : option (list byte) :=
  match ranges with
  | [] => Some []
  | (s, e) :: rs => d ← slice frame s e; rest ← gather frame rs; Some (d ++ rest)
  end.

(** Result and remaining buffer; [None] is a panic. *)
Definition parse_grpc_message_zerocopy (buf : list byte)
    : option (result (option (list byte * nat)) io_error * list byte) :=
  match buf with
  | b0 :: b1 :: b2 :: b3 :: b4 :: _ =>
      if negb (b2z b0 =? 0)%Z then
        Some (Err (IoError EkInvalidData "compressed gRPC not supported"), buf)
      else
        let frame_len := u32_from_be_bytes b1 b2 b3 b4 in
        if (Z.of_nat (length buf) <? 5 + frame_len)%Z then Some (Ok None, buf)
        else
          let consumed := Z.to_nat (5 + frame_len) in
          walked ← walk_fields consumed buf consumed frame_len 5 None [];
          match walked with
          | Err e => Some (Err e, buf)
          | Ok (first, fields) =>
              '(frame, rest) ← split_to consumed buf;
              payload ←
                (if negb (bool_decide (fields = [])) then gather frame fields
                 else match first with
                      | Some (s, e) => slice frame s e
                      | None => Some []
                      end);
              Some (Ok (Some (payload, consumed)), rest)
          end
  | _ => Some (Ok None, buf)
  end.

Definition encode_grpc_message (payload : list byte) : list byte :=
  let len := Z.of_nat (length payload) in
  let proto_len := (1 + Z.of_nat (varint_len len) + len)%Z in
  z2b 0 :: u32_to_be_bytes (proto_len mod 2 ^ 32) ++ z2b 10 :: encode_varint len ++ payload.

(** ** Varint round trip *)

Lemma land_127 v : Z.land v 127 = (v mod 128)%Z.
Proof. change 127%Z with (Z.ones 7). rewrite Z.land_ones by lia. done. Qed.

Lemma land_128_small v : (0 ≤ v < 128)%Z → Z.land v 128 = 0%Z.
Proof.
  intros Hv. change 128%Z with (2 ^ 8 - 2 ^ 7)%Z. rewrite land_high_mask by lia.
  rewrite Z.div_small by lia. done.
Qed.

Lemma lor_128 v : (0 ≤ v < 128)%Z → Z.lor v 128 = (v + 128)%Z.
Proof.
  intros Hv. rewrite Z.lor_comm. pose proof (lor_shiftl_add 1 v 7 ltac:(lia) Hv) as H.
  change (Z.shiftl 1 7) with 128%Z in H. rewrite H. change (2 ^ 7)%Z with 128%Z. lia.
Qed.

Lemma land_128_high v : (128 ≤ v < 256)%Z → Z.land v 128 = 128%Z.
Proof.
  intros Hv. change 128%Z with (2 ^ 8 - 2 ^ 7)%Z at 1. rewrite land_high_mask by lia.
  replace (v / 2 ^ 7)%Z with 1%Z; [done|]. apply Z.div_unique with (v - 128)%Z; lia.
Qed.

(** Seven more bits of an accumulator. *)
Lemma lor_shl_acc acc d shift :
  (0 ≤ shift)%Z → (0 ≤ acc < 2 ^ shift)%Z → (0 ≤ d)%Z → (d * 2 ^ shift < 2 ^ 64)%Z →
  Z.lor acc (u64_shl d shift) = (acc + d * 2 ^ shift)%Z.
Proof.
  intros Hs Ha Hd Hlt. unfold u64_shl.
  rewrite Z.mod_small by (rewrite Z.shiftl_mul_pow2 by lia; lia).
  rewrite Z.lor_comm, lor_shiftl_add by lia. lia.
Qed.

Lemma decode_encode_loop fuel v i shift acc rest :
  (0 ≤ v)%Z → (v < 2 ^ (7 * Z.of_nat fuel))%Z → 0 < fuel → i + fuel = 10 →
  shift = (7 * Z.of_nat i)%Z → (0 ≤ acc < 2 ^ shift)%Z → (v * 2 ^ shift < 2 ^ 64)%Z →
  decode_varint_loop (encode_varint_loop fuel v ++ rest) i shift acc
  = Ok ((acc + v * 2 ^ shift)%Z, i + length (encode_varint_loop fuel v)).
Proof.
  revert v i shift acc. induction fuel as [|fuel IH]; intros v i shift acc Hv Hb Hf Hi Hs Ha Hlt;
    [lia|]. cbn [encode_varint_loop app decode_varint_loop length].
  rewrite (proj2 (Nat.leb_gt 10 i)) by lia. rewrite land_127, Z.shiftr_div_pow2 by lia.
  change (2 ^ 7)%Z with 128%Z.
  pose proof (Z.mod_pos_bound v 128 ltac:(lia)) as Hm. pose proof (Z.div_mod v 128 ltac:(lia)) as Hdm.
  pose proof (Z.pow_pos_nonneg 2 shift ltac:(lia) ltac:(lia)) as Hp.
  assert (Hm' : (v mod 128 * 2 ^ shift < 2 ^ 64)%Z).
  { eapply Z.le_lt_trans; [|exact Hlt]. apply Z.mul_le_mono_nonneg_r; [lia|].
    apply Z.mod_le; lia. }
  destruct (Z.eqb_spec (v / 128) 0) as [Hz|Hz]; rewrite b2z_z2b.
  - rewrite (Z.mod_small _ 256) by lia. rewrite land_127, (Z.mod_small (v mod 128)) by lia.
    rewrite land_128_small by lia. simpl. rewrite lor_shl_acc by lia.
    rewrite Nat.add_1_r. do 2 f_equal. nia.
  - rewrite lor_128, (Z.mod_small _ 256) by lia. rewrite land_128_high by lia. simpl Z.eqb. cbv iota.
    rewrite land_127. replace ((v mod 128 + 128) mod 128)%Z with (v mod 128)%Z
      by (Z.to_euclidean_division_equations; lia).
    rewrite lor_shl_acc by lia.
    assert (Hq : (0 < v / 128)%Z) by (pose proof (Z.div_pos v 128); lia).
    assert (H7 : (2 ^ (shift + 7) = 2 ^ shift * 128)%Z) by (rewrite Z.pow_add_r by lia; lia).
    assert (0 < fuel).
    { destruct fuel; [|lia]. change (2 ^ (7 * Z.of_nat 1))%Z with 128%Z in Hb.
      rewrite Z.div_small in Hq; lia. }
    rewrite IH; try lia.
    + do 2 f_equal; [rewrite H7; nia|lia].
    + apply Z.div_lt_upper_bound; [lia|]. rewrite <- (Z.pow_add_r 2 7) by lia.
      replace (7 + 7 * Z.of_nat fuel)%Z with (7 * Z.of_nat (S fuel))%Z by lia. done.
    + rewrite H7. nia.
Qed.

Lemma encode_varint_loop_length fuel v :
  (0 ≤ v < 2 ^ (7 * Z.of_nat fuel))%Z → 0 < fuel →
  length (encode_varint_loop fuel v) = varint_len v.
Proof.
  revert v. induction fuel as [|fuel IH]; intros v Hv Hf; [lia|].
  cbn [encode_varint_loop length]. rewrite Z.shiftr_div_pow2 by lia. change (2 ^ 7)%Z with 128%Z.
  unfold varint_len. destruct (Z.eqb_spec (v / 128) 0) as [Hz|Hz]; cbn [length].
  - destruct (Z.eqb_spec v 0); [done|].
    assert (0 ≤ Z.log2 v < 7)%Z.
    { split; [apply Z.log2_nonneg|]. apply Z.log2_lt_pow2; [lia|].
      apply Z.div_small_iff in Hz; lia. }
    assert (Hbit : Z.to_nat (Z.log2 v + 1) + 6 = 1 * 7 + Z.to_nat (Z.log2 v)) by lia.
    rewrite Hbit, Nat.div_add_l, Nat.div_small by lia. done.
  - assert (Hq : (0 < v / 128)%Z) by (pose proof (Z.div_pos v 128); lia).
    assert (128 ≤ v)%Z by (destruct (Z.lt_ge_cases v 128); [|done]; rewrite Z.div_small in Hq; lia).
    assert (0 < fuel).
    { destruct fuel; [|lia]. change (2 ^ (7 * Z.of_nat 1))%Z with 128%Z in Hv. lia. }
    rewrite IH; [|split; [lia|]|done].
    + unfold varint_len. destruct (Z.eqb_spec (v / 128) 0); [lia|].
      destruct (Z.eqb_spec v 0); [lia|]. change 128%Z with (2 ^ 7)%Z.
      rewrite <- Z.shiftr_div_pow2, Z.log2_shiftr by lia.
      assert (7 ≤ Z.log2 v)%Z by (apply Z.log2_le_pow2; lia).
      rewrite Z.max_r by lia.
      assert (Hbit : Z.to_nat (Z.log2 v + 1) + 6 = 1 * 7 + (Z.to_nat (Z.log2 v - 7 + 1) + 6)) by lia.
      rewrite Hbit, Nat.div_add_l by lia. lia.
    + apply Z.div_lt_upper_bound; [lia|]. rewrite <- (Z.pow_add_r 2 7) by lia.
      replace (7 + 7 * Z.of_nat fuel)%Z with (7 * Z.of_nat (S fuel))%Z by lia. lia.
Qed.

Lemma encode_varint_length v : is_u64 v → length (encode_varint v) = varint_len v.
Proof.
  unfold is_u64, u64_max. intros Hv. apply encode_varint_loop_length; [|lia].
  change (2 ^ (7 * Z.of_nat 10))%Z with 1180591620717411303424%Z. lia.
Qed.

Lemma decode_encode_varint v rest :
  is_u64 v → decode_varint (encode_varint v ++ rest) = Ok (v, varint_len v).
Proof.
  unfold is_u64, u64_max. intros Hv. rewrite <- encode_varint_length by done.
  unfold decode_varint, encode_varint. rewrite decode_encode_loop with (fuel := 10); try lia.
  do 2 f_equal. lia.
Qed.

(** ** The parser *)

Lemma decode_varint_loop_bounds data i shift acc v n :
  (0 ≤ acc)%Z → decode_varint_loop data i shift acc = Ok (v, n) →
  (0 ≤ v)%Z ∧ i < n ≤ i + length data.
Proof.
  revert i shift acc. induction data as [|b data IH]; intros i shift acc Ha; simpl; [done|].
  destruct (match i with 0 => _ | _ => _ end); [done|].
  assert (0 ≤ Z.lor acc (u64_shl (Z.land (b2z b) 127) shift))%Z.
  { apply Z.lor_nonneg. split; [done|]. apply Z.mod_pos_bound. lia. }
  destruct (_ =? 0)%Z.
  - intros [= <- <-]. split; [done|lia].
  - intros Hd. apply IH in Hd; [|done]. lia.
Qed.

Lemma decode_varint_bounds data v n :
  decode_varint data = Ok (v, n) → (0 ≤ v)%Z ∧ 1 ≤ n ≤ length data.
Proof. intros Hd. apply decode_varint_loop_bounds in Hd; lia. Qed.

(** Reference: a [MultiHunk] body is a sequence of [0x0A <varint> <bytes>]
    fields. *)
Inductive multi_hunk : list byte → list (list byte) → Prop :=
| mh_nil : multi_hunk [] []
| mh_field body len n data rest ps :
    decode_varint body = Ok (len, n) → drop n body = data ++ rest →
    Z.of_nat (length data) = len → multi_hunk rest ps →
    multi_hunk (Byte.x0a :: body) (data :: ps).

(** The ranges the walk has collected. *)
Definition ranges (first : option (nat * nat)) (fields : list (nat * nat)) : list (nat * nat) :=
  if bool_decide (fields = []) then option_list first else fields.

Definition walk_wf (first : option (nat * nat)) (fields : list (nat * nat)) : Prop :=
  first = None → fields = [].

Lemma ranges_step first fields s e :
  walk_wf first fields →
  let '(first', fields') :=
    match first with
    | None => (Some (s, e), fields)
    | Some f => (first, (if bool_decide (fields = []) then [f] else fields) ++ [(s, e)])
    end in
  ranges first' fields' = ranges first fields ++ [(s, e)] ∧ walk_wf first' fields'.
Proof.
  unfold walk_wf, ranges. destruct first as [f|]; intros Hwf.
  - split; [|done]. rewrite bool_decide_eq_false_2 by (by case_bool_decide; destruct fields).
    by case_bool_decide.
  - rewrite (Hwf eq_refl). done.
Qed.

Lemma field_end_spec s len consumed :
  (0 ≤ len)%Z → (Z.of_nat consumed ≤ u64_max)%Z →
  match field_end s len consumed with
  | Some e => e = s + Z.to_nat len ∧ e ≤ consumed
  | None => (Z.of_nat consumed < Z.of_nat s + len)%Z
  end.
Proof.
  intros Hl Hc. unfold field_end.
  destruct (Z.leb_spec (Z.of_nat s + len) u64_max), (Z.leb_spec (Z.of_nat s + len) (Z.of_nat consumed));
    simpl; lia.
Qed.

(** A body that starts with a field, and what is left of it. *)
Lemma multi_hunk_inv body len n ps :
  decode_varint body = Ok (len, n) → multi_hunk (Byte.x0a :: body) ps →
  ∃ data tl ps', drop n body = data ++ tl ∧ Z.of_nat (length data) = len ∧ multi_hunk tl ps'.
Proof.
  intros Hd Hp. inversion Hp as [|? len' n' data tl ps' Hd' Hdrop Hl Hrest]; subst.
  rewrite Hd in Hd'. injection Hd' as -> <-. eauto 6.
Qed.

(** The bytes of a field that fits, cut at its end. *)
Lemma field_cut (pre body : list byte) n k :
  n + k ≤ length body →
  ∃ data tl, drop n body = data ++ tl ∧ length data = k
    ∧ (pre ++ (Byte.x0a :: take n body) ++ data) ++ tl = pre ++ Byte.x0a :: body
    ∧ length (pre ++ (Byte.x0a :: take n body) ++ data) = length pre + 1 + n + k
    ∧ length (pre ++ (Byte.x0a :: take n body) ++ data) + length tl = length pre + length (Byte.x0a :: body).
Proof.
  intros Hk. destruct (list_split_at (drop n body) k) as (data & tl & Hsplit & Hdata).
  { rewrite length_drop. lia. }
  assert (Hcat : (pre ++ (Byte.x0a :: take n body) ++ data) ++ tl = pre ++ Byte.x0a :: body).
  { rewrite <- !app_assoc. cbn [app]. by rewrite <- Hsplit, take_drop. }
  exists data, tl. split_and!; [done|done|done| |by rewrite <- !length_app, Hcat].
  rewrite !length_app. cbn [length]. rewrite length_take. lia.
Qed.

Lemma walk_fields_spec fuel body pre rest fl first fields :
  length body ≤ fuel → (Z.of_nat (length pre + length body) ≤ u64_max)%Z →
  walk_wf first fields →
  ∃ r, walk_fields fuel (pre ++ body ++ rest) (length pre + length body) fl (length pre) first fields
       = Some r
  ∧ match r with
    | Err _ => ∀ ps, ¬ multi_hunk body ps
    | Ok (first', fields') =>
        ∃ ps rs, multi_hunk body ps ∧ ranges first' fields' = ranges first fields ++ rs
                 ∧ Forall2 (λ r p, slice (pre ++ body) r.1 r.2 = Some p) rs ps
    end.
Proof.
  revert body pre first fields. induction fuel as [|fuel IH]; intros body pre first fields Hf Hu Hwf.
  all: destruct body as [|tag body]; simpl in Hf; [|try lia].
  1,2: exists (Ok (first, fields)); simpl; rewrite Nat.add_0_r, Nat.leb_refl;
    split; [done|]; exists [], []; rewrite app_nil_r; split_and!; auto using mh_nil.
  cbn [walk_fields]. rewrite (proj2 (Nat.leb_gt _ _)) by (simpl; lia).
  rewrite lookup_app_here. cbn [app lookup list_lookup mbind option_bind].
  destruct (Z.eqb_spec (b2z tag) 10) as [Ht|Ht]; cbn [negb].
  2: { eexists; split; [done|]. intros ps Hp. inversion Hp. by subst. }
  assert (tag = Byte.x0a) as -> by (apply b2z_inj; done).
  assert (Hwin : slice (pre ++ Byte.x0a :: body ++ rest) (length pre + 1)
                   (length pre + length (Byte.x0a :: body)) = Some body).
  { rewrite (app_assoc pre [Byte.x0a] (body ++ rest) : pre ++ Byte.x0a :: body ++ rest = _).
    apply slice_mid; rewrite ?length_app; simpl; lia. }
  rewrite Hwin. cbn [mbind option_bind].
  destruct (decode_varint body) as [[len n]|e] eqn:Hd.
  2: { eexists; split; [done|]. intros ps Hp. inversion Hp; subst. congruence. }
  destruct (decode_varint_bounds _ _ _ Hd) as [Hlen Hn].
  pose proof (field_end_spec (length pre + 1 + n) len (length pre + length (Byte.x0a :: body))
    Hlen Hu) as Hend.
  destruct (field_end _ _ _) as [e|].
  2: { eexists; split; [done|]. intros ps (data & tl & _ & Hdrop & Hl & _)%(multi_hunk_inv _ _ _ _ Hd).
       apply (f_equal length) in Hdrop. rewrite length_app, length_drop in Hdrop. simpl in Hend. lia. }
  destruct Hend as [-> He]. simpl in He.
  destruct (field_cut pre body n (Z.to_nat len)) as (data & tl & Hsplit & Hdata & Hcat & Hpre' & Hlb); [lia|].
  set (pre' := pre ++ _ ++ data) in *.
  pose proof (ranges_step first fields (length pre + 1 + n) (length pre') Hwf) as Hstep.
  destruct (match first with None => _ | Some f => _ end) as [first' fields'] eqn:Hff in Hstep.
  destruct Hstep as [Hranges Hwf'].
  destruct (IH tl pre' first' fields') as (r & Hr & Hspec); [simpl in *; lia|lia|done|].
  exists r. split.
  - rewrite <- Hr, Hlb, <- Hpre'.
    replace (pre' ++ tl ++ rest) with (pre ++ (Byte.x0a :: body) ++ rest)
      by (by rewrite !app_assoc, Hcat).
    destruct first; injection Hff as <- <-; done.
  - destruct r as [[f' fs']|]; last first.
    { intros ps (data' & tl' & ps' & Hdrop & Hl & Hrest)%(multi_hunk_inv _ _ _ _ Hd).
      rewrite Hsplit in Hdrop. apply app_inj_1 in Hdrop as [-> ->]; [|lia]. by eapply Hspec. }
    destruct Hspec as (ps & rs & Hm & Hrs & Hall).
    exists (data :: ps), ((length pre + 1 + n, length pre') :: rs). split_and!.
    + eapply mh_field; eauto. lia.
    + by rewrite Hrs, Hranges, <- app_assoc.
    + rewrite <- Hcat. constructor; [|done]. simpl. unfold pre'. rewrite <- !app_assoc.
      rewrite (app_assoc pre).
      apply slice_mid; rewrite ?length_app; cbn [length]; rewrite ?length_take; lia.
Qed.

Lemma gather_spec frame rs ps :
  Forall2 (λ r p, slice frame r.1 r.2 = Some p) rs ps → gather frame rs = Some (concat ps).
Proof.
  induction 1 as [|[s e] p rs ps Hs _ IH]; simpl in *; [done|]. by rewrite Hs, IH.
Qed.

Lemma multi_hunk_fun body ps ps' : multi_hunk body ps → multi_hunk body ps' → ps = ps'.
Proof.
  intros Hm. revert ps'.
  induction Hm as [|body len n data rest ps Hd Hdrop Hl _ IH]; intros ps' Hm';
    inversion Hm' as [|? len' n' data' rest' qs Hd' Hdrop' Hl' Hrest']; [done|subst].
  rewrite Hd in Hd'. injection Hd' as Hlen <-. rewrite Hdrop in Hdrop'.
  apply app_inj_1 in Hdrop' as [<- <-]; [|lia]. f_equal. by apply IH.
Qed.

(** A frame: flag, declared length, body. *)
Definition frame_header (flag b1 b2 b3 b4 : byte) : list byte := [flag; b1; b2; b3; b4].

Lemma parse_incomplete flag b1 b2 b3 b4 tl :
  b2z flag = 0%Z → (Z.of_nat (length tl) < u32_from_be_bytes b1 b2 b3 b4)%Z →
  parse_grpc_message_zerocopy (frame_header flag b1 b2 b3 b4 ++ tl)
  = Some (Ok None, frame_header flag b1 b2 b3 b4 ++ tl).
Proof.
  intros Hf Hl. cbn [frame_header app parse_grpc_message_zerocopy]. rewrite Hf.
  cbn [negb Z.eqb]. rewrite (proj2 (Z.ltb_lt _ _)); [done|]. simpl length. lia.
Qed.

Lemma parse_complete flag b1 b2 b3 b4 body rest :
  b2z flag = 0%Z → Z.of_nat (length body) = u32_from_be_bytes b1 b2 b3 b4 →
  ∃ r, parse_grpc_message_zerocopy (frame_header flag b1 b2 b3 b4 ++ body ++ rest) = Some r
  ∧ ((∃ e, r = (Err e, frame_header flag b1 b2 b3 b4 ++ body ++ rest) ∧ ∀ ps, ¬ multi_hunk body ps)
     ∨ (∃ ps, multi_hunk body ps ∧ r = (Ok (Some (concat ps, 5 + length body)), rest))).
Proof.
  intros Hf Hl. pose proof (u32_from_be_range b1 b2 b3 b4) as Hu. unfold is_u32, u32_max in Hu.
  set (hdr := frame_header flag b1 b2 b3 b4).
  destruct (walk_fields_spec (5 + length body) body hdr rest (u32_from_be_bytes b1 b2 b3 b4) None [])
    as (w & Hw & Hspec); [lia|unfold u64_max; simpl; lia|done|].
  change (length hdr) with 5 in Hw.
  subst hdr. cbn [frame_header app parse_grpc_message_zerocopy] in *. rewrite Hf.
  cbn [negb Z.eqb]. rewrite (proj2 (Z.ltb_ge _ _)) by (simpl; rewrite length_app; lia).
  rewrite <- Hl. replace (Z.to_nat (5 + Z.of_nat (length body))) with (5 + length body) by lia.
  rewrite Hl, Hw. cbn [mbind option_bind].
  destruct w as [[first fields]|e]; [|eauto 10].
  destruct Hspec as (ps & rs & Hm & Hrs & Hall). eexists; split; [|right; by eauto].
  change (flag :: b1 :: b2 :: b3 :: b4 :: body ++ rest)
    with ((frame_header flag b1 b2 b3 b4 ++ body) ++ rest).
  rewrite split_to_app by done. cbn [mbind option_bind].
  apply gather_spec in Hall. unfold ranges in Hrs. simpl in Hrs.
  change (flag :: b1 :: b2 :: b3 :: b4 :: body) with (frame_header flag b1 b2 b3 b4 ++ body) in Hall.
  case_bool_decide; cbn [negb].
  - destruct first as [[s e]|]; subst rs; simpl in Hall.
    + destruct (slice _ s e) as [d|]; simpl in *; [|done]. rewrite app_nil_r in Hall. by simplify_eq.
    + injection Hall as <-. done.
  - subst rs. rewrite Hall. done.
Qed.

(** The encoder writes a one-field message. *)
Lemma encode_grpc_shape payload :
  let len := Z.of_nat (length payload) in
  let proto_len := (1 + Z.of_nat (varint_len len) + len)%Z in
  is_u32 proto_len →
  ∃ b1 b2 b3 b4, encode_grpc_message payload
    = frame_header (z2b 0) b1 b2 b3 b4 ++ Byte.x0a :: encode_varint len ++ payload
  ∧ u32_from_be_bytes b1 b2 b3 b4 = proto_len
  ∧ length (Byte.x0a :: encode_varint len ++ payload) = Z.to_nat proto_len
  ∧ multi_hunk (Byte.x0a :: encode_varint len ++ payload) [payload].
Proof.
  intros len proto_len Hu. unfold is_u32, u32_max in Hu.
  assert (Hl : is_u64 len) by (unfold is_u64, u64_max; subst proto_len len; lia).
  eexists _, _, _, _. split_and!.
  - unfold encode_grpc_message. cbn [u32_to_be_bytes app frame_header].
    change (z2b 10) with Byte.x0a. fold len. fold proto_len. reflexivity.
  - rewrite u32_from_to_be; [apply Z.mod_small; lia|].
    unfold is_u32, u32_max. pose proof (Z.mod_pos_bound proto_len (2 ^ 32)). lia.
  - cbn [length]. rewrite length_app, encode_varint_length by done. subst proto_len len. lia.
  - apply mh_field with len (varint_len len) [].
    + by apply decode_encode_varint.
    + rewrite app_nil_r. rewrite <- encode_varint_length by done. apply drop_app_length.
    + done.
    + constructor.
Qed.

(** Every verdict of the parser, with the shape of the buffer behind it. *)
Lemma parse_cases buf :
  match parse_grpc_message_zerocopy buf with
  | None => False
  | Some (Ok None, buf') =>
      buf' = buf ∧ (length buf < 5 ∨ ∃ n, declared_frame_len buf = Some n
                                      ∧ (Z.of_nat (length buf) < 5 + n)%Z)
  | Some (Ok (Some (payload, consumed)), buf') =>
      ∃ b1 b2 b3 b4 body ps,
        buf = frame_header (z2b 0) b1 b2 b3 b4 ++ body ++ buf'
        ∧ Z.of_nat (length body) = u32_from_be_bytes b1 b2 b3 b4
        ∧ multi_hunk body ps ∧ payload = concat ps ∧ consumed = 5 + length body
  | Some (Err e, buf') =>
      buf' = buf ∧ ∃ flag b1 b2 b3 b4 tl,
        buf = frame_header flag b1 b2 b3 b4 ++ tl
        ∧ (flag ≠ z2b 0 ∨ ∃ body rest, tl = body ++ rest
            ∧ Z.of_nat (length body) = u32_from_be_bytes b1 b2 b3 b4
            ∧ ∀ ps, ¬ multi_hunk body ps)
  end.
Proof.
  destruct buf as [|flag [|b1 [|b2 [|b3 [|b4 tl]]]]]; [simpl; split; [done|lia]..|].
  change (flag :: b1 :: b2 :: b3 :: b4 :: tl) with (frame_header flag b1 b2 b3 b4 ++ tl).
  destruct (Z.eq_dec (b2z flag) 0%Z) as [Hf|Hf]; last first.
  { cbn [frame_header app parse_grpc_message_zerocopy]. rewrite (proj2 (Z.eqb_neq _ _)) by done.
    simpl. split; [done|]. exists flag, b1, b2, b3, b4, tl. split; [done|]. left.
    intros ->. done. }
  destruct (Z.lt_ge_cases (Z.of_nat (length tl)) (u32_from_be_bytes b1 b2 b3 b4)) as [Hl|Hl].
  { rewrite parse_incomplete by done. split; [done|]. right. eexists. split; [done|].
    rewrite length_app. simpl. lia. }
  pose proof (u32_from_be_range b1 b2 b3 b4) as Hu. unfold is_u32 in Hu.
  destruct (list_split_at tl (Z.to_nat (u32_from_be_bytes b1 b2 b3 b4)))
    as (body & rest & -> & Hlen); [lia|].
  destruct (parse_complete flag b1 b2 b3 b4 body rest Hf ltac:(lia))
    as (r & -> & [(e & -> & Hno)|(ps & Hm & ->)]).
  - split; [done|]. exists flag, b1, b2, b3, b4, (body ++ rest). split; [done|]. right.
    exists body, rest. split_and!; [done|lia|done].
  - exists b1, b2, b3, b4, body, ps. split_and!; try done; [|lia].
    by replace flag with (z2b 0) by (by apply b2z_inj).
Qed.

(** A complete message stays one when bytes follow. *)
Lemma parse_message_app buf more payload consumed rest :
  parse_grpc_message_zerocopy buf = Some (Ok (Some (payload, consumed)), rest) →
  parse_grpc_message_zerocopy (buf ++ more) = Some (Ok (Some (payload, consumed)), rest ++ more)
  ∧ 5 ≤ consumed ∧ length buf = consumed + length rest.
Proof.
  intros E. pose proof (parse_cases buf) as Hc. rewrite E in Hc.
  destruct Hc as (b1 & b2 & b3 & b4 & body & ps & -> & Hl & Hm & -> & ->).
  split; [|split; [lia|len]]. rewrite <- !app_assoc.
  destruct (parse_complete (z2b 0) b1 b2 b3 b4 body (rest ++ more) eq_refl Hl)
    as (r & -> & [(e & _ & Hno)|(ps' & Hm' & ->)]); [by destruct (Hno _ Hm)|].
  by rewrite (multi_hunk_fun _ _ _ Hm Hm').
Qed.

Lemma parse_encoded payload rest :
  is_u32 (1 + Z.of_nat (varint_len (Z.of_nat (length payload))) + Z.of_nat (length payload)) →
  parse_grpc_message_zerocopy (encode_grpc_message payload ++ rest)
  = Some (Ok (Some (payload, length (encode_grpc_message payload))), rest).
Proof.
  intros Hu. destruct (encode_grpc_shape payload Hu) as (b1 & b2 & b3 & b4 & Henc & Hlen & Hbody & Hm).
  rewrite Henc. set (body := Byte.x0a :: _) in *. clearbody body. unfold is_u32 in Hu.
  rewrite <- app_assoc.
  destruct (parse_complete (z2b 0) b1 b2 b3 b4 body rest eq_refl ltac:(lia))
    as (r & -> & [(e & _ & Hno)|(ps & Hm' & ->)]); [by destruct (Hno _ Hm)|].
  rewrite <- (multi_hunk_fun _ _ _ Hm Hm'). rewrite length_app. simpl. by rewrite app_nil_r.
Qed.

(** C19: The gRPC frame parser implements the [MultiHunk] message format and
    never panics, on any input.  It asks for more exactly when the header or
    the declared body is incomplete; it returns the concatenation of the
    message's fields, consuming exactly the frame, when the body is a sequence
    of fields; it reports an error, consuming nothing, exactly when the frame
    is flagged compressed or its body is not such a sequence. *)
Theorem grpc_parse_exact buf :
  match parse_grpc_message_zerocopy buf with
  | None => False
  | Some (Ok None, buf') =>
      buf' = buf ∧ (length buf < 5 ∨ ∃ n, declared_frame_len buf = Some n
                                      ∧ (Z.of_nat (length buf) < 5 + n)%Z)
  | Some (Ok (Some (payload, consumed)), buf') =>
      ∃ b1 b2 b3 b4 body ps,
        buf = frame_header (z2b 0) b1 b2 b3 b4 ++ body ++ buf'
        ∧ Z.of_nat (length body) = u32_from_be_bytes b1 b2 b3 b4
        ∧ multi_hunk body ps ∧ payload = concat ps ∧ consumed = 5 + length body
  | Some (Err e, buf') =>
      buf' = buf ∧ ∃ flag b1 b2 b3 b4 tl,
        buf = frame_header flag b1 b2 b3 b4 ++ tl
        ∧ (flag ≠ z2b 0 ∨ ∃ body rest, tl = body ++ rest
            ∧ Z.of_nat (length body) = u32_from_be_bytes b1 b2 b3 b4
            ∧ ∀ ps, ¬ multi_hunk body ps)
  end.
Proof. apply parse_cases. Qed.

(** Encoding and parsing are inverse on the tunnel's byte stream: for any
    payload whose message fits the 32-bit frame length, the parser applied to
    the encoded frame followed by anything returns the payload, consumes
    exactly the frame, and applied to a strict prefix of it asks for more
    without consuming. *)
Theorem grpc_roundtrip payload rest :
  is_u32 (1 + Z.of_nat (varint_len (Z.of_nat (length payload))) + Z.of_nat (length payload)) →
  parse_grpc_message_zerocopy (encode_grpc_message payload ++ rest)
  = Some (Ok (Some (payload, length (encode_grpc_message payload))), rest)
  ∧ ∀ n, n < length (encode_grpc_message payload) →
      parse_grpc_message_zerocopy (take n (encode_grpc_message payload))
      = Some (Ok None, take n (encode_grpc_message payload)).
Proof.
  intros Hu. destruct (encode_grpc_shape payload Hu) as (b1 & b2 & b3 & b4 & Henc & Hlen & Hbody & Hm).
  split; [by apply parse_encoded|].
  rewrite Henc. set (body := Byte.x0a :: _) in *. clearbody body. unfold is_u32 in Hu.
  - intros n Hn. rewrite length_app in Hn. change (length (frame_header _ _ _ _ _)) with 5 in Hn.
    destruct (le_lt_dec 5 n) as [H5|H5].
    + rewrite take_app_ge by done. apply parse_incomplete; [done|].
      change (length (frame_header _ _ _ _ _)) with 5. rewrite length_take. lia.
    + do 5 (destruct n as [|n]; [done|]). lia.
Qed.

Lemma grpc_roundtrip_witness :
  parse_grpc_message_zerocopy (encode_grpc_message (as_bytes "hello") ++ as_bytes "next")
  = Some (Ok (Some (as_bytes "hello", 12)), as_bytes "next").
Proof.
  apply (grpc_roundtrip (as_bytes "hello") (as_bytes "next")).
  split; vm_compute; discriminate.
Defined.
