(* ===== verification/Connection.v ===== *)
(** * The connection manager ([src/src/core/connection.rs])

    Registration, removal and kicking of connections over two concurrent maps.
    Each map access of the source is one atomic function here; the operations
    compose them, and a step relation interleaves the operations of any number
    of tasks. *)

From S2P Require Import Prelude Hooks.

Definition ConnectionId : Type := Z.

(** [CancellationToken]s are numbered by creation; [cancelled] holds the
    cancelled ones, which outlive the connection's entry. *)
Record ActiveConnection := MkActive { info_user : UserId; cancel_token : nat }.

Record ConnectionManager := MkManager {
  next_conn_id : Z;
  connections : gmap ConnectionId ActiveConnection;
  user_connections : gmap UserId (gset ConnectionId);
  next_token : nat;
  cancelled : gset nat;
}.

Definition manager_new : ConnectionManager := MkManager 1 ∅ ∅ 0 ∅.

(** ** Atomic accesses *)

(** [next_conn_id.fetch_add(1)]. *)
Definition fetch_id (m : ConnectionManager) : ConnectionId * ConnectionManager :=
  (next_conn_id m,
   MkManager (wrapping_add_u64 (next_conn_id m) 1) (connections m) (user_connections m)
     (next_token m) (cancelled m)).

(** [CancellationToken::new()] and [connections.insert(conn_id, conn)]. *)
Definition insert_conn (id : ConnectionId) (u : UserId) (m : ConnectionManager)
    : nat * ConnectionManager :=
  (next_token m,
   MkManager (next_conn_id m) (<[id := MkActive u (next_token m)]> (connections m))
     (user_connections m) (S (next_token m)) (cancelled m)).

Definition index_of (m : ConnectionManager) (u : UserId) : gset ConnectionId :=
  default ∅ (user_connections m !! u).

(** [user_connections.entry(user_id).or_default().insert(conn_id)]. *)
Definition index_conn (u : UserId) (id : ConnectionId) (m : ConnectionManager)
    : ConnectionManager :=
  MkManager (next_conn_id m) (connections m)
    (<[u := {[id]} ∪ index_of m u]> (user_connections m)) (next_token m) (cancelled m).

(** [connections.remove(&conn_id)]. *)
Definition remove_conn (id : ConnectionId) (m : ConnectionManager)
    : option ActiveConnection * ConnectionManager :=
  (connections m !! id,
   MkManager (next_conn_id m) (delete id (connections m)) (user_connections m)
     (next_token m) (cancelled m)).

(** [user_connections.remove_if_mut(..)]: remove the id, and the entry once it
    is empty, under one shard lock. *)
Definition unindex_conn (u : UserId) (id : ConnectionId) (m : ConnectionManager)
    : ConnectionManager :=
  MkManager (next_conn_id m) (connections m)
    (match user_connections m !! u with
     | Some ids =>
         let ids' := ids ∖ {[id]} in
         if decide (ids' = ∅) then delete u (user_connections m)
         else <[u := ids']> (user_connections m)
     | None => user_connections m
     end) (next_token m) (cancelled m).

(** [if let Some(conn) = connections.get(&conn_id) { conn.cancel_token.cancel() }]. *)
Definition cancel_conn (id : ConnectionId) (m : ConnectionManager) : nat * ConnectionManager :=
  match connections m !! id with
  | Some c =>
      (1, MkManager (next_conn_id m) (connections m) (user_connections m) (next_token m)
            ({[cancel_token c]} ∪ cancelled m))
  | None => (0, m)
  end.

(** ** Operations *)

Definition register (u : UserId) (m : ConnectionManager)
    : (ConnectionId * nat) * ConnectionManager :=
  let '(id, m1) := fetch_id m in
  let '(tok, m2) := insert_conn id u m1 in
  ((id, tok), index_conn u id m2).

Definition unregister (id : ConnectionId) (m : ConnectionManager) : ConnectionManager :=
  match remove_conn id m with
  | (Some c, m1) => unindex_conn (info_user c) id m1
  | (None, m1) => m1
  end.

Fixpoint cancel_each (ids : list ConnectionId) (m : ConnectionManager) : nat * ConnectionManager :=
  match ids with
  | [] => (0, m)
  | id :: ids' =>
      let '(k, m1) := cancel_conn id m in
      let '(n, m2) := cancel_each ids' m1 in (k + n, m2)
  end.

Definition kick_user (u : UserId) (m : ConnectionManager) : nat * ConnectionManager :=
  match user_connections m !! u with
  | Some ids => cancel_each (elements ids) m
  | None => (0, m)
  end.

Definition cancel_all (m : ConnectionManager) : nat * ConnectionManager :=
  cancel_each (map_to_list (connections m)).*1 m.

Definition connection_count (m : ConnectionManager) : nat := size (connections m).
Definition user_count (m : ConnectionManager) : nat := size (user_connections m).

(** ** Interleaving

    A task is between two atomic accesses of an operation, or holds a
    registered connection. *)
Inductive task : Type :=
| RegInsert (u : UserId) (id : ConnectionId)
| RegIndex (u : UserId) (id : ConnectionId) (tok : nat)
| Live (u : UserId) (id : ConnectionId) (tok : nat)
| UnregIndex (u : UserId) (id : ConnectionId)
| Cancelling (todo : list ConnectionId).

#[export] Instance task_eq_dec : EqDecision task.
Proof. unfold UserId, ConnectionId in *. solve_decision. Defined.

Record system := MkSystem { mgr : ConnectionManager; tasks : gmap nat task }.

Definition system_init : system := MkSystem manager_new ∅.

(** [s_fetch] is taken fewer than [2^64] times in the life of the process. *)
Inductive step : system → system → Prop :=
| s_fetch m ts t u id m' :
    ts !! t = None → (next_conn_id m < u64_max)%Z → fetch_id m = (id, m') →
    step (MkSystem m ts) (MkSystem m' (<[t := RegInsert u id]> ts))
| s_insert m ts t u id tok m' :
    ts !! t = Some (RegInsert u id) → insert_conn id u m = (tok, m') →
    step (MkSystem m ts) (MkSystem m' (<[t := RegIndex u id tok]> ts))
| s_index m ts t u id tok :
    ts !! t = Some (RegIndex u id tok) →
    step (MkSystem m ts) (MkSystem (index_conn u id m) (<[t := Live u id tok]> ts))
| s_remove m ts t u id tok c m' :
    ts !! t = Some (Live u id tok) → remove_conn id m = (Some c, m') →
    step (MkSystem m ts) (MkSystem m' (<[t := UnregIndex (info_user c) id]> ts))
| s_remove_none m ts t u id tok m' :
    ts !! t = Some (Live u id tok) → remove_conn id m = (None, m') →
    step (MkSystem m ts) (MkSystem m' (delete t ts))
| s_unindex m ts t u id :
    ts !! t = Some (UnregIndex u id) →
    step (MkSystem m ts) (MkSystem (unindex_conn u id m) (delete t ts))
| s_kick m ts t u ids :
    ts !! t = None → user_connections m !! u = Some ids →
    step (MkSystem m ts) (MkSystem m (<[t := Cancelling (elements ids)]> ts))
| s_cancel_all m ts t :
    ts !! t = None →
    step (MkSystem m ts) (MkSystem m (<[t := Cancelling (map_to_list (connections m)).*1]> ts))
| s_cancel m ts t id todo k m' :
    ts !! t = Some (Cancelling (id :: todo)) → cancel_conn id m = (k, m') →
    step (MkSystem m ts) (MkSystem m' (<[t := Cancelling todo]> ts))
| s_cancelled m ts t :
    ts !! t = Some (Cancelling []) →
    step (MkSystem m ts) (MkSystem m (delete t ts)).

Definition reachable (s : system) : Prop := rtc step system_init s.

(** ** The invariant *)

(** The id a task works on, the entry it has put in [connections], and the
    entry it has put in the user index. *)
Definition task_id (k : task) : option ConnectionId :=
  match k with
  | RegInsert _ id | RegIndex _ id _ | Live _ id _ | UnregIndex _ id => Some id
  | Cancelling _ => None
  end.

Definition task_conn (k : task) : option (ConnectionId * ActiveConnection) :=
  match k with
  | RegIndex u id tok | Live u id tok => Some (id, MkActive u tok)
  | _ => None
  end.

Definition task_entry (k : task) : option (UserId * ConnectionId) :=
  match k with
  | Live u id _ | UnregIndex u id => Some (u, id)
  | _ => None
  end.

(** Some task of [ts] has [x] under [f]. *)
Definition holds {A} (ts : gmap nat task) (f : task → option A) (x : A) : Prop :=
  ∃ t k, ts !! t = Some k ∧ f k = Some x.

Definition unique (ts : gmap nat task) : Prop :=
  ∀ t1 t2 k1 k2 id, ts !! t1 = Some k1 → ts !! t2 = Some k2 →
    task_id k1 = Some id → task_id k2 = Some id → t1 = t2.

Record inv (s : system) : Prop := MkInv {
  inv_next : (1 ≤ next_conn_id (mgr s) ≤ u64_max)%Z;
  inv_fresh : ∀ id, holds (tasks s) task_id id → (1 ≤ id < next_conn_id (mgr s))%Z;
  inv_unique : unique (tasks s);
  inv_conns : ∀ id c, connections (mgr s) !! id = Some c ↔ holds (tasks s) task_conn (id, c);
  inv_index : ∀ u id, id ∈ index_of (mgr s) u ↔ holds (tasks s) task_entry (u, id);
  inv_nonempty : ∀ u, user_connections (mgr s) !! u ≠ Some ∅;
  inv_token : ∀ id c, connections (mgr s) !! id = Some c → cancel_token c < next_token (mgr s);
  inv_token_inj : ∀ id1 id2 c1 c2,
    connections (mgr s) !! id1 = Some c1 → connections (mgr s) !! id2 = Some c2 →
    cancel_token c1 = cancel_token c2 → id1 = id2;
  inv_cancelled : ∀ tok, tok ∈ cancelled (mgr s) → tok < next_token (mgr s);
}.

Lemma holds_insert {A} ts t k (f : task → option A) x :
  holds (<[t := k]> ts) f x ↔ f k = Some x ∨ holds (delete t ts) f x.
Proof.
  unfold holds. split.
  - intros (t' & k' & Hk & Hf). apply lookup_insert_Some in Hk as [[-> ->]|[Hne Hk]]; [by left|].
    right. exists t', k'. by rewrite lookup_delete_ne.
  - intros [Hf|(t' & k' & Hk & Hf)].
    + exists t, k. by rewrite lookup_insert_eq.
    + apply lookup_delete_Some in Hk as [Hne Hk]. exists t', k'. by rewrite lookup_insert_ne.
Qed.

Lemma holds_split {A} ts t k (f : task → option A) x :
  ts !! t = Some k → holds ts f x ↔ f k = Some x ∨ holds (delete t ts) f x.
Proof. intros Hk. rewrite <- holds_insert. by rewrite insert_id. Qed.

Lemma holds_fresh {A} ts t (f : task → option A) x :
  ts !! t = None → holds ts f x ↔ holds (delete t ts) f x.
Proof. intros Hk. by rewrite delete_id. Qed.

Lemma task_conn_id k id c : task_conn k = Some (id, c) → task_id k = Some id.
Proof. destruct k; simpl; intros; simplify_eq; done. Qed.

Lemma task_entry_id k u id : task_entry k = Some (u, id) → task_id k = Some id.
Proof. destruct k; simpl; intros; simplify_eq; done. Qed.

Lemma holds_conn_id ts id c : holds ts task_conn (id, c) → holds ts task_id id.
Proof. intros (t & k & Hk & Hc). exists t, k. eauto using task_conn_id. Qed.

Lemma holds_entry_id ts u id : holds ts task_entry (u, id) → holds ts task_id id.
Proof. intros (t & k & Hk & Hc). exists t, k. eauto using task_entry_id. Qed.

Lemma unique_rest ts t k id :
  unique ts → ts !! t = Some k → task_id k = Some id → ¬ holds (delete t ts) task_id id.
Proof.
  intros Hu Hk Hid (t' & k' & Hk' & Hid'). apply lookup_delete_Some in Hk' as [Hne Hk'].
  by apply Hne, (Hu t t' k k' id).
Qed.

Lemma unique_delete ts t : unique ts → unique (delete t ts).
Proof.
  intros Hu t1 t2 k1 k2 id H1 H2. apply lookup_delete_Some in H1 as [_ H1].
  apply lookup_delete_Some in H2 as [_ H2]. eauto.
Qed.

Lemma unique_insert ts t k :
  unique ts → (∀ id, task_id k = Some id → ¬ holds (delete t ts) task_id id) →
  unique (<[t := k]> ts).
Proof.
  intros Hu Hk t1 t2 k1 k2 id H1 H2 I1 I2.
  apply lookup_insert_Some in H1 as [[<- <-]|[N1 H1]], H2 as [[<- <-]|[N2 H2]]; try done.
  - destruct (Hk id I1). exists t2, k2. by rewrite lookup_delete_ne.
  - destruct (Hk id I2). exists t1, k1. by rewrite lookup_delete_ne.
  - eauto.
Qed.

(** A task moves on without changing the id it works on. *)
Lemma unique_move ts t k k' :
  unique ts → ts !! t = Some k → task_id k' = task_id k → unique (<[t := k']> ts).
Proof.
  intros Hu Hk Hid. apply unique_insert; [done|]. intros id. rewrite Hid. by apply unique_rest.
Qed.

Lemma holds_id_move ts t k k' id :
  ts !! t = Some k → task_id k' = task_id k →
  holds (<[t := k']> ts) task_id id ↔ holds ts task_id id.
Proof. intros Hk Hid. by rewrite holds_insert, (holds_split _ _ _ _ _ Hk), Hid. Qed.

Lemma holds_delete {A} ts t (f : task → option A) x : holds (delete t ts) f x → holds ts f x.
Proof. intros (t' & k & Hk & Hf). apply lookup_delete_Some in Hk as [_ Hk]. by exists t', k. Qed.

Lemma index_of_insert m u id u' :
  index_of (index_conn u id m) u'
  = if decide (u = u') then {[id]} ∪ index_of m u else index_of m u'.
Proof.
  unfold index_of at 1. simpl. rewrite lookup_insert. by case_decide.
Qed.

Lemma index_of_unindex m u id u' :
  index_of (unindex_conn u id m) u'
  = if decide (u = u') then index_of m u ∖ {[id]} else index_of m u'.
Proof.
  unfold index_of, unindex_conn. simpl.
  destruct (user_connections m !! u) as [ids|] eqn:Hu.
  - case_decide as He; [rewrite lookup_delete|rewrite lookup_insert]; case_decide; simpl; try done.
  - case_decide as He; [|done]. subst. rewrite Hu. simpl. set_solver.
Qed.

Lemma inv_init : inv system_init.
Proof.
  constructor; simpl; try done.
  all: try (intros; rewrite lookup_empty in *; done).
  - intros id (t & k & Hk & _). by rewrite lookup_empty in Hk.
  - intros id c. rewrite lookup_empty. split; [done|]. intros (t & k & Hk & _).
    by rewrite lookup_empty in Hk.
  - intros u id. unfold index_of. simpl. rewrite lookup_empty. split; [set_solver|].
    intros (t & k & Hk & _). by rewrite lookup_empty in Hk.
Qed.

(** A step that only touches a [Cancelling] task and the cancelled set. *)
Lemma inv_cancelling m ts ts' toks :
  inv (MkSystem m ts) → unique ts' →
  (∀ A (f : task → option A) x, (∀ l, f (Cancelling l) = None) → holds ts' f x ↔ holds ts f x) →
  (∀ tok, tok ∈ toks → tok < next_token m) →
  inv (MkSystem (MkManager (next_conn_id m) (connections m) (user_connections m)
                   (next_token m) toks) ts').
Proof.
  intros [Hn Hf _ Hc Hi He Ht Hj _] Hu Hh Htok. constructor; simpl in *; try done.
  - intros id. rewrite Hh by done. apply Hf.
  - intros id c. rewrite Hh by done. apply Hc.
  - intros u id. rewrite Hh by done. apply Hi.
Qed.

Lemma holds_cancelling_insert {A} ts t l (f : task → option A) x :
  (∀ l, f (Cancelling l) = None) →
  (ts !! t = None ∨ ∃ l', ts !! t = Some (Cancelling l')) →
  holds (<[t := Cancelling l]> ts) f x ↔ holds ts f x.
Proof.
  intros Hf [Ht|[l' Ht]]; rewrite holds_insert, Hf.
  - rewrite (holds_fresh _ _ _ _ Ht). naive_solver.
  - rewrite (holds_split _ _ _ _ _ Ht), Hf. done.
Qed.

Lemma holds_cancelling_delete {A} ts t l (f : task → option A) x :
  (∀ l, f (Cancelling l) = None) → ts !! t = Some (Cancelling l) →
  holds (delete t ts) f x ↔ holds ts f x.
Proof. intros Hf Ht. rewrite (holds_split _ _ _ _ _ Ht), Hf. naive_solver. Qed.

Lemma manager_eta m :
  MkManager (next_conn_id m) (connections m) (user_connections m) (next_token m) (cancelled m) = m.
Proof. by destruct m. Qed.

Lemma inv_cancelling_insert m ts t l :
  inv (MkSystem m ts) → (ts !! t = None ∨ ∃ l', ts !! t = Some (Cancelling l')) →
  inv (MkSystem m (<[t := Cancelling l]> ts)).
Proof.
  intros Hinv Ht. rewrite <- (manager_eta m). apply inv_cancelling with ts; [done| | |].
  - apply unique_insert; [apply Hinv|done].
  - intros. by apply holds_cancelling_insert.
  - apply Hinv.
Qed.

Lemma inv_fetch m ts t u id m' :
  inv (MkSystem m ts) → ts !! t = None → (next_conn_id m < u64_max)%Z → fetch_id m = (id, m') →
  inv (MkSystem m' (<[t := RegInsert u id]> ts)).
Proof.
  intros [Hn Hf Hu Hc Hi He Ht Hj Hk] Hnone Hlt [= <- <-]. simpl in *.
  assert (Hw : wrapping_add_u64 (next_conn_id m) 1 = (next_conn_id m + 1)%Z)
    by (unfold wrapping_add_u64; apply Z.mod_small; lia).
  constructor; simpl; rewrite ?Hw; try done; try lia.
  - intros id. rewrite holds_insert, <- (holds_fresh _ _ _ _ Hnone). simpl.
    intros [[= <-]|Hid]; [lia|]. apply Hf in Hid. lia.
  - apply unique_insert; [done|]. simpl. intros id [= <-].
    rewrite <- (holds_fresh _ _ _ _ Hnone). intros Hid. apply Hf in Hid. lia.
  - intros id c. rewrite holds_insert, <- (holds_fresh _ _ _ _ Hnone), Hc. naive_solver.
  - intros v id. rewrite holds_insert, <- (holds_fresh _ _ _ _ Hnone), <- Hi. naive_solver.
Qed.

Lemma inv_insert m ts t u id tok m' :
  inv (MkSystem m ts) → ts !! t = Some (RegInsert u id) → insert_conn id u m = (tok, m') →
  inv (MkSystem m' (<[t := RegIndex u id tok]> ts)).
Proof.
  intros [Hn Hf Hu Hc Hi He Ht Hj Hk] Htk [= <- <-]. simpl in *.
  pose proof (unique_rest _ _ _ id Hu Htk eq_refl) as Hrest.
  assert (Hno : connections m !! id = None).
  { destruct (connections m !! id) as [c|] eqn:E; [|done]. apply Hc in E.
    rewrite (holds_split _ _ _ _ _ Htk) in E. destruct E as [[=]|E].
    by destruct Hrest; eapply holds_conn_id. }
  constructor; simpl; try done.
  - intros id'. rewrite (holds_id_move _ _ _ _ _ Htk) by done. apply Hf.
  - by eapply unique_move.
  - intros id' c. rewrite holds_insert, lookup_insert_Some, Hc, (holds_split _ _ _ _ _ Htk).
    simpl. split; [naive_solver|]. intros [[= <- <-]|Hd]; [by left|].
    destruct (decide (id = id')) as [<-|Hne]; [|naive_solver].
    by destruct Hrest; eapply holds_conn_id.
  - intros v id'. change (index_of _ v) with (index_of m v).
    rewrite holds_insert, Hi, (holds_split _ _ _ _ _ Htk). simpl. naive_solver.
  - intros id' c [[_ <-]|[_ Hl]]%lookup_insert_Some; simpl; [lia|]. specialize (Ht _ _ Hl). lia.
  - intros id1 id2 c1 c2 [[<- <-]|[N1 L1]]%lookup_insert_Some [[<- <-]|[N2 L2]]%lookup_insert_Some;
      simpl; intros Heq; try done; [specialize (Ht _ _ L2); lia|specialize (Ht _ _ L1); lia|eauto].
  - intros tok Htok. specialize (Hk _ Htok). lia.
Qed.

Lemma inv_index_step m ts t u id tok :
  inv (MkSystem m ts) → ts !! t = Some (RegIndex u id tok) →
  inv (MkSystem (index_conn u id m) (<[t := Live u id tok]> ts)).
Proof.
  intros [Hn Hf Hu Hc Hi He Ht Hj Hk] Htk. simpl in *.
  constructor; simpl; try done.
  - intros id'. rewrite (holds_id_move _ _ _ _ _ Htk) by done. apply Hf.
  - by eapply unique_move.
  - intros id' c. by rewrite holds_insert, Hc, (holds_split _ _ _ _ _ Htk).
  - intros v id'. rewrite index_of_insert, holds_insert. specialize (Hi v id').
    rewrite (holds_split _ _ _ _ _ Htk) in Hi. simpl in *. case_decide; set_solver.
  - intros v. rewrite lookup_insert. case_decide; [|apply He]. intros [= E]. set_solver.
Qed.

Lemma inv_remove m ts t u id tok :
  inv (MkSystem m ts) → ts !! t = Some (Live u id tok) →
  remove_conn id m = (Some (MkActive u tok), (remove_conn id m).2)
  ∧ inv (MkSystem (remove_conn id m).2 (<[t := UnregIndex u id]> ts)).
Proof.
  intros [Hn Hf Hu Hc Hi He Ht Hj Hk] Htk. simpl in *.
  pose proof (unique_rest _ _ _ id Hu Htk eq_refl) as Hrest.
  assert (Hl : connections m !! id = Some (MkActive u tok)).
  { apply Hc. exists t, (Live u id tok). done. }
  split; [unfold remove_conn; by rewrite Hl|].
  constructor; simpl; try done.
  - intros id'. rewrite (holds_id_move _ _ _ _ _ Htk) by done. apply Hf.
  - by eapply unique_move.
  - intros id' c. rewrite holds_insert, lookup_delete_Some, Hc, (holds_split _ _ _ _ _ Htk).
    simpl. split; [naive_solver|]. intros [[=]|Hd]. split; [|by right]. intros <-.
    by destruct Hrest; eapply holds_conn_id.
  - intros v id'. rewrite holds_insert. specialize (Hi v id').
    rewrite (holds_split _ _ _ _ _ Htk) in Hi. done.
  - intros id' c [_ L]%lookup_delete_Some. eauto.
  - intros id1 id2 c1 c2 [_ L1]%lookup_delete_Some [_ L2]%lookup_delete_Some. eauto.
Qed.

Lemma inv_unindex m ts t u id :
  inv (MkSystem m ts) → ts !! t = Some (UnregIndex u id) →
  inv (MkSystem (unindex_conn u id m) (delete t ts)).
Proof.
  intros [Hn Hf Hu Hc Hi He Ht Hj Hk] Htk. simpl in *.
  pose proof (unique_rest _ _ _ id Hu Htk eq_refl) as Hrest.
  constructor; simpl; try done.
  - intros id' Hid. apply Hf. by eapply holds_delete.
  - by apply unique_delete.
  - intros id' c. rewrite Hc, (holds_split _ _ _ _ _ Htk). simpl. naive_solver.
  - intros v id'. rewrite index_of_unindex. specialize (Hi v id').
    rewrite (holds_split _ _ _ _ _ Htk) in Hi. simpl in Hi.
    assert (Hid : holds (delete t ts) task_entry (v, id') → id' ≠ id).
    { intros Hh ->. by destruct Hrest; eapply holds_entry_id. }
    case_decide; set_solver.
  - intros v. destruct (user_connections m !! u) as [ids|] eqn:E; [|apply He].
    case_decide as Hd; [rewrite lookup_delete|rewrite lookup_insert]; case_decide; try done;
      try apply He. congruence.
Qed.

Lemma inv_step s s' : inv s → step s s' → inv s'.
Proof.
  intros Hinv Hs. destruct Hs.
  - by eapply inv_fetch.
  - by eapply inv_insert.
  - by apply inv_index_step.
  - destruct (inv_remove _ _ _ _ _ _ Hinv H) as [Hr Hi]. rewrite H0 in Hr, Hi. injection Hr as ->. done.
  - destruct (inv_remove _ _ _ _ _ _ Hinv H) as [Hr _]. congruence.
  - by apply inv_unindex.
  - apply inv_cancelling_insert; auto.
  - apply inv_cancelling_insert; auto.
  - unfold cancel_conn in H0. destruct (connections m !! id) as [c|] eqn:Hc; injection H0 as <- <-.
    + apply inv_cancelling with ts; [done| | |].
      * apply unique_insert; [apply Hinv|done].
      * intros. apply holds_cancelling_insert; eauto.
      * intros tok [->%elem_of_singleton|Htok]%elem_of_union; [by eapply Hinv|by apply Hinv].
    + apply inv_cancelling_insert; eauto.
  - rewrite <- (manager_eta m). apply inv_cancelling with ts; [done| | |].
    + apply unique_delete, Hinv.
    + intros. by eapply holds_cancelling_delete.
    + apply Hinv.
Qed.

Lemma inv_steps s s' : inv s → rtc step s s' → inv s'.
Proof. intros Hi Hs. induction Hs; eauto using inv_step. Qed.

Lemma inv_reachable s : reachable s → inv s.
Proof. apply inv_steps, inv_init. Qed.

(** ** Kicking under interleaving *)

(** The registration of [id] has passed its insertion into [connections]. *)
Definition past (s : system) (id : ConnectionId) : Prop :=
  (id < next_conn_id (mgr s))%Z ∧ ∀ t u, tasks s !! t ≠ Some (RegInsert u id).

(** Nothing is left to cancel for [id]. *)
Definition settled (s : system) (id : ConnectionId) : Prop :=
  ∀ c, connections (mgr s) !! id = Some c → cancel_token c ∈ cancelled (mgr s).

Lemma past_step s s' id : inv s → step s s' → past s id → past s' id.
Proof.
  intros Hinv Hs [Hlt Hno]. pose proof (inv_next _ Hinv) as Hn.
  destruct Hs as [m ts t u id' m' Hnone Hmax Hf| | | | | | | | |]; simpl in *.
  { injection Hf as <- <-. split; simpl.
    - unfold wrapping_add_u64. rewrite Z.mod_small; lia.
    - intros t' u' [[_ [= _ He]]|[_ Ht]]%lookup_insert_Some; [lia|by eapply Hno]. }
  all: unfold insert_conn, remove_conn, cancel_conn in *; split; simpl;
    [repeat case_match; simplify_eq/=; done|].
  all: intros t' u' Ht; first
    [apply lookup_insert_Some in Ht as [[_ [=]]|[_ Ht]] | apply lookup_delete_Some in Ht as [_ Ht] | idtac];
    by eapply Hno.
Qed.

Lemma settled_step s s' id : step s s' → past s id → settled s id → settled s' id.
Proof.
  unfold settled. intros Hs [_ Hno] Hset c.
  destruct Hs as [| m ts t u id' tok m' Ht Hi| | m ts t u id' tok c' m' Ht Hr
                 | m ts t u id' tok m' Ht Hr| | | | m ts t id' todo k m' Ht Hc|]; simpl in *; auto.
  - injection H1 as <- <-. simpl. auto.
  - injection Hi as <- <-. simpl. intros [[-> _]|[_ Hl]]%lookup_insert_Some; [by destruct (Hno t u)|].
    auto.
  - injection Hr as Hr <-. simpl. intros [_ Hl]%lookup_delete_Some. auto.
  - injection Hr as Hr <-. simpl. intros [_ Hl]%lookup_delete_Some. auto.
  - unfold cancel_conn in Hc. destruct (connections m !! id'); injection Hc as <- <-; simpl; [|auto].
    intros Hl. apply elem_of_union. right. auto.
Qed.

(** A cancelling task [t] is responsible for [id] until it is settled. *)
Definition covered (t : nat) (s : system) (id : ConnectionId) : Prop :=
  settled s id ∨ ∃ todo, tasks s !! t = Some (Cancelling todo) ∧ id ∈ todo.

Lemma covered_step t s s' id :
  step s s' → past s id → covered t s id → covered t s' id.
Proof.
  intros Hs Hp [Hset|(todo & Ht & Hin)]; [left; by eapply settled_step|].
  destruct (decide (tasks s' !! t = tasks s !! t)) as [He|Hne].
  { right. exists todo. by rewrite He. }
  destruct Hs as [| | | | | | | | m ts t' id' todo' k m' Ht' Hc| m ts t' Ht']; simpl in *;
    try (destruct Hne; destruct (decide (t0 = t)) as [->|Hd]; [congruence|];
         first [by rewrite lookup_insert_ne|by rewrite lookup_delete_ne]).
  - destruct (decide (t' = t)) as [->|Hd]; [|by destruct Hne; rewrite lookup_insert_ne].
    rewrite Ht in Ht'. injection Ht' as ->.
    destruct (decide (id' = id)) as [->|Hd'].
    + left. intros c. unfold cancel_conn in Hc. simpl.
      destruct (connections m !! id) as [c'|] eqn:El; injection Hc as <- <-; simpl; rewrite El; [|done].
      intros [= ->]. set_solver.
    + right. exists todo'. simpl. rewrite lookup_insert_eq. split; [done|]. set_solver.
  - destruct (decide (t' = t)) as [->|Hd]; [|by destruct Hne; rewrite lookup_delete_ne].
    rewrite Ht in Ht'. injection Ht' as ->. set_solver.
Qed.

Lemma covered_steps t s s' id :
  inv s → rtc step s s' → past s id → covered t s id → covered t s' id.
Proof.
  intros Hinv Hs. revert Hinv. induction Hs; eauto 6 using inv_step, past_step, covered_step.
Qed.

Lemma indexed_past s u id : inv s → id ∈ index_of (mgr s) u → past s id.
Proof.
  intros Hinv Hin. apply (inv_index _ Hinv) in Hin as (t & k & Hk & He). split.
  - eapply (inv_fresh _ Hinv). exists t, k. eauto using task_entry_id.
  - intros t' u' Ht'. assert (t = t') as <-.
    { eapply (inv_unique _ Hinv); eauto using task_entry_id. }
    rewrite Hk in Ht'. injection Ht' as ->. done.
Qed.

(** ** Sequential kicking *)

(** The index is exact, as it is whenever no task is inside an operation. *)
Definition manager_wf (m : ConnectionManager) : Prop :=
  (∀ u id, id ∈ index_of m u ↔ ∃ c, connections m !! id = Some c ∧ info_user c = u)
  ∧ ∀ u, user_connections m !! u ≠ Some ∅.

Lemma filter_all {A} (P : A → Prop) `{∀ x, Decision (P x)} (l : list A) :
  (∀ x, x ∈ l → P x) → filter P l = l.
Proof.
  induction l as [|x l IH]; intros Hall; [done|].
  rewrite filter_cons_True by (apply Hall; set_solver). f_equal. apply IH. set_solver.
Qed.

Lemma cancel_each_spec ids m n m' :
  cancel_each ids m = (n, m') →
  connections m' = connections m ∧ user_connections m' = user_connections m
  ∧ next_conn_id m' = next_conn_id m ∧ next_token m' = next_token m
  ∧ n = length (filter (λ id, is_Some (connections m !! id)) ids)
  ∧ ∀ tok, tok ∈ cancelled m' ↔
      tok ∈ cancelled m ∨ ∃ id c, id ∈ ids ∧ connections m !! id = Some c ∧ cancel_token c = tok.
Proof.
  revert m n. induction ids as [|id ids IH]; intros m n; simpl.
  { intros [= <- <-]. split_and!; try done. set_solver. }
  destruct (cancel_conn id m) as [k m1] eqn:Hc.
  destruct (cancel_each ids m1) as [n' m2] eqn:He. intros [= <- <-].
  destruct (IH _ _ He) as (Hcn & Hun & Hnx & Htk & Hn & Hin). unfold cancel_conn in Hc.
  destruct (connections m !! id) as [c|] eqn:Hl; injection Hc as <- <-; simpl in *;
    rewrite filter_cons; rewrite Hl; split_and!; try done.
  - rewrite decide_True by eauto. simpl. lia.
  - intros tok. rewrite Hin, elem_of_union, elem_of_singleton. split.
    + intros [[->|Hx]|(i & d & Hi & Hd & <-)]; [right|by left|right].
      * exists id, c. set_solver.
      * exists i, d. set_solver.
    + intros [Hx|(i & d & [->|Hi]%elem_of_cons & Hd & <-)]; [by left; right| |].
      * left. left. congruence.
      * right. eauto.
  - intros tok. rewrite Hin. split; (intros [|(i & d & Hi & Hd & <-)]; [by left|right]).
    + exists i, d. set_solver.
    + apply elem_of_cons in Hi as [->|Hi]; [congruence|eauto].
Qed.

(** Between operations the manager is consistent. *)
Lemma quiescent_wf s :
  inv s →
  (∀ t k, tasks s !! t = Some k → match k with Live _ _ _ | Cancelling _ => True | _ => False end) →
  manager_wf (mgr s).
Proof.
  intros Hinv Hq. split; [|apply Hinv]. intros u id. rewrite (inv_index _ Hinv). split.
  - intros (t & k & Hk & Hf). pose proof (Hq _ _ Hk).
    destruct k; simpl in Hf; try done; injection Hf as <- <-.
    eexists. split; [apply (inv_conns _ Hinv); by eexists t, _|done].
  - intros (c & Hc & <-). apply (inv_conns _ Hinv) in Hc as (t & k & Hk & Hf).
    pose proof (Hq _ _ Hk). destruct k; simpl in Hf; try done; injection Hf as <- <-.
    by eexists t, _.
Qed.

(** ** Properties *)

(** C15: The connection table and the per-user index stay consistent under every
    interleaving of registrations, removals and kicks.  A registered connection
    is in its user's index unless its registration is between the two inserts;
    an indexed id is a registered connection of that user unless its removal is
    between the two removals; no user is left with an empty entry; connection
    ids and cancellation tokens are never shared. *)
Theorem connection_index_consistent s :
  reachable s →
  (∀ id c, connections (mgr s) !! id = Some c →
     id ∈ index_of (mgr s) (info_user c)
     ∨ ∃ t, tasks s !! t = Some (RegIndex (info_user c) id (cancel_token c)))
  ∧ (∀ u id, id ∈ index_of (mgr s) u →
     (∃ c, connections (mgr s) !! id = Some c ∧ info_user c = u)
     ∨ ∃ t, tasks s !! t = Some (UnregIndex u id))
  ∧ (∀ u, user_connections (mgr s) !! u ≠ Some ∅)
  ∧ (∀ id1 id2 c1 c2, connections (mgr s) !! id1 = Some c1 → connections (mgr s) !! id2 = Some c2 →
       cancel_token c1 = cancel_token c2 → id1 = id2)
  ∧ (∀ t u id tok, tasks s !! t = Some (Live u id tok) →
       connections (mgr s) !! id = Some (MkActive u tok)).
Proof.
  intros Hr. pose proof (inv_reachable _ Hr) as Hinv. split_and!.
  - intros id c Hc. apply (inv_conns _ Hinv) in Hc as (t & k & Hk & Hf).
    destruct k; simpl in Hf; try done; injection Hf as <- <-; simpl.
    + eauto.
    + left. apply (inv_index _ Hinv). by eexists t, _.
  - intros u id Hid. apply (inv_index _ Hinv) in Hid as (t & k & Hk & Hf).
    destruct k; simpl in Hf; try done; injection Hf as <- <-; [left|eauto].
    eexists. split; [apply (inv_conns _ Hinv); by eexists t, _|done].
  - apply Hinv.
  - apply Hinv.
  - intros t u id tok Hk. apply (inv_conns _ Hinv). by eexists t, _.
Qed.

(** One client of user 7, registered. *)
Definition one_client : system :=
  MkSystem (register 7%Z manager_new).2 {[0 := Live 7%Z 1%Z 0]}.

Lemma one_client_reachable : reachable one_client.
Proof.
  eapply rtc_l; [apply (s_fetch manager_new ∅ 0 7%Z); done|].
  eapply rtc_l; [eapply (s_insert _ _ 0); reflexivity|].
  eapply rtc_l; [eapply (s_index _ _ 0); reflexivity|].
  apply rtc_refl.
Qed.

Lemma connection_index_consistent_witness :
  reachable one_client ∧ connections (mgr one_client) !! 1%Z = Some (MkActive 7%Z 0).
Proof.
  split; [apply one_client_reachable|].
  apply (connection_index_consistent one_client one_client_reachable) with 0. reflexivity.
Defined.

(** C28: A kick reaches every connection that is registered when it starts,
    whatever other tasks do while it runs: once the kicking task has worked off
    its list, each of the user's connections indexed at the start has either
    been removed or has its token cancelled. *)
Theorem kick_reaches_registered s t u ids s' id c :
  reachable s → tasks s !! t = None → user_connections (mgr s) !! u = Some ids →
  rtc step (MkSystem (mgr s) (<[t := Cancelling (elements ids)]> (tasks s))) s' →
  tasks s' !! t = Some (Cancelling []) →
  id ∈ ids → connections (mgr s') !! id = Some c → cancel_token c ∈ cancelled (mgr s').
Proof.
  intros Hr Ht Hu Hs Hend Hid Hc. pose proof (inv_reachable _ Hr) as Hinv.
  set (s1 := MkSystem _ _) in Hs.
  assert (Hinv1 : inv s1).
  { apply inv_cancelling_insert; [by destruct s|by left]. }
  assert (Hpast : past s1 id).
  { apply indexed_past with u; [done|]. simpl. unfold index_of. by rewrite Hu. }
  destruct (covered_steps t s1 s' id Hinv1 Hs Hpast) as [Hset|(todo & Htodo & Hin)].
  - right. exists (elements ids). simpl. rewrite lookup_insert_eq. split; [done|].
    by apply elem_of_elements.
  - by apply Hset.
  - rewrite Hend in Htodo. injection Htodo as <-. by apply not_elem_of_nil in Hin.
Qed.

Lemma kick_reaches_registered_witness :
  0 ∈ cancelled (cancel_conn 1%Z (mgr one_client)).2.
Proof.
  apply (kick_reaches_registered one_client 1 7%Z {[1%Z]}
    (MkSystem (cancel_conn 1%Z (mgr one_client)).2
       (<[1 := Cancelling []]> (<[1 := Cancelling (elements ({[1%Z]} : gset ConnectionId))]> (tasks one_client))))
    1%Z (MkActive 7%Z 0)); [apply one_client_reachable|reflexivity|reflexivity| |reflexivity| |reflexivity].
  - apply rtc_once. eapply (s_cancel _ _ 1 1%Z [] 1); reflexivity.
  - apply elem_of_singleton. reflexivity.
Defined.

(** [kick_user] on a consistent manager cancels exactly the connections of
    that user, reports how many, and changes nothing else. *)
Lemma kick_user_spec m u :
  manager_wf m →
  let '(n, m') := kick_user u m in
  n = size (index_of m u)
  ∧ connections m' = connections m ∧ user_connections m' = user_connections m
  ∧ ∀ tok, tok ∈ cancelled m' ↔
      tok ∈ cancelled m
      ∨ ∃ id c, connections m !! id = Some c ∧ info_user c = u ∧ cancel_token c = tok.
Proof.
  intros [Hidx _]. unfold kick_user. specialize (Hidx u). unfold index_of in *.
  destruct (user_connections m !! u) as [ids|]; simpl in *.
  - destruct (cancel_each (elements ids) m) as [n m'] eqn:He.
    destruct (cancel_each_spec _ _ _ _ He) as (Hc & Hu & _ & _ & Hn & Hin).
    split_and!; try done.
    + rewrite Hn, filter_all; [done|]. intros id Hid.
      apply elem_of_elements, Hidx in Hid as (c & Hl & _). eauto.
    + intros tok. rewrite Hin. f_equiv. split.
      * intros (id & c & Hid & Hl & Ht). exists id, c. split_and!; [done| |done].
        apply elem_of_elements, Hidx in Hid as (c' & Hl' & Hu'). congruence.
      * intros (id & c & Hl & Hu' & Ht). exists id, c. split_and!; [|done..].
        apply elem_of_elements, Hidx. eauto.
  - split_and!; try done. intros tok. split; [by left|].
    intros [|(id & c & Hl & Hu & _)]; [done|]. exfalso.
    apply (not_elem_of_empty (C := gset ConnectionId) id), Hidx. eauto.
Qed.

Lemma kick_user_wf m u : manager_wf m → manager_wf (kick_user u m).2.
Proof.
  intros Hwf. pose proof (kick_user_spec m u Hwf) as Hs. destruct (kick_user u m) as [n m'].
  destruct Hs as (_ & Hc & Hu & _). unfold manager_wf, index_of in *. simpl. by rewrite Hc, Hu.
Qed.

Lemma one_client_wf : manager_wf (mgr one_client).
Proof.
  apply quiescent_wf; [apply inv_reachable, one_client_reachable|].
  intros t k Hk. cbn in Hk. apply lookup_singleton_Some in Hk as [<- <-]. exact I.
Qed.
