(* ===== verification/AsyncIo.v ===== *)
(** * Asynchronous streams and the transport abstraction
    ([src/src/transport/mod.rs])

    [AsyncRead] and [AsyncWrite] as classes of state-passing poll functions,
    the laws of tokio's traits the server relies on, and the wrapper that turns
    a half-close into a flush. *)

From S2P Require Import Prelude RustStd.

(** ** Poll functions

    [poll_read n s] reads into a buffer with [n] bytes of room and returns the
    bytes it filled; an empty read is the end of the stream. *)
Class AsyncRead (S : Type) := {
  poll_read : nat → S → S * poll (result (list byte) io_error);
}.

Class AsyncWrite (S : Type) := {
  poll_write : list byte → S → S * poll (result nat io_error);
  poll_flush : S → S * poll (result unit io_error);
  poll_shutdown : S → S * poll (result unit io_error);
}.

(** The bytes one poll delivered, and the chunk one poll accepted. *)
Definition delivered (r : poll (result (list byte) io_error)) : list byte :=
  match r with Ready (Ok bs) => bs | _ => [] end.

Definition accepted (buf : list byte) (r : poll (result nat io_error)) : list (list byte) :=
  match r with Ready (Ok n) => [take n buf] | _ => [] end.

(** What a stream has delivered and accepted so far, and the contract of the
    two traits: a read fills at most the room it is given, a write accepts a
    prefix of its argument, and nothing else moves data. *)
Class TracedStream (S : Type) `{AsyncRead S, AsyncWrite S} := {
  received : S → list byte;
  sent : S → list byte;
  read_law n s :
    match poll_read n s with
    | (s', Ready (Ok bs)) =>
        length bs ≤ n ∧ received s' = received s ++ bs ∧ sent s' = sent s
    | (s', _) => received s' = received s ∧ sent s' = sent s
    end;
  write_law bs s :
    match poll_write bs s with
    | (s', Ready (Ok n)) =>
        n ≤ length bs ∧ received s' = received s ∧ sent s' = sent s ++ take n bs
    | (s', _) => received s' = received s ∧ sent s' = sent s
    end;
  flush_law s : received (poll_flush s).1 = received s ∧ sent (poll_flush s).1 = sent s;
  shutdown_law s : received (poll_shutdown s).1 = received s ∧ sent (poll_shutdown s).1 = sent s;
}.

(** Tokio's cooperative scheduling: within one poll of a task a resource
    delivers data a bounded number of times, then reports [Pending]. *)
Class CoopStream (S : Type) `{AsyncRead S, AsyncWrite S} := {
  budget : S → nat;
  coop_read n s :
    match poll_read n s with
    | (s', Ready (Ok (_ :: _))) => budget s' < budget s
    | (s', _) => budget s' ≤ budget s
    end;
  coop_write bs s : budget (poll_write bs s).1 ≤ budget s;
  coop_flush s : budget (poll_flush s).1 ≤ budget s;
  coop_shutdown s : budget (poll_shutdown s).1 ≤ budget s;
}.

(** ** Every stream can be traced *)

Record Logged (S : Type) := MkLogged { inner : S; log_in : list byte; log_out : list byte }.
Arguments MkLogged {S} inner log_in log_out.
Arguments inner {S} l.
Arguments log_in {S} l.
Arguments log_out {S} l.

Section logged.
Context {S : Type} `{AsyncRead S, AsyncWrite S}.

(** The calls go to the stream; only bytes within the contract are recorded. *)
#[export] Instance logged_read : AsyncRead (Logged S) := {|
  poll_read n l :=
    match poll_read n (inner l) with
    | (s', Ready (Ok bs)) =>
        let bs' := take n bs in
        (MkLogged s' (log_in l ++ bs') (log_out l), Ready (Ok bs'))
    | (s', r) => (MkLogged s' (log_in l) (log_out l), r)
    end;
|}.

#[export] Instance logged_write : AsyncWrite (Logged S) := {|
  poll_write bs l :=
    match poll_write bs (inner l) with
    | (s', Ready (Ok n)) =>
        let n' := n `min` length bs in
        (MkLogged s' (log_in l) (log_out l ++ take n' bs), Ready (Ok n'))
    | (s', r) => (MkLogged s' (log_in l) (log_out l), r)
    end;
  poll_flush l :=
    let '(s', r) := poll_flush (inner l) in (MkLogged s' (log_in l) (log_out l), r);
  poll_shutdown l :=
    let '(s', r) := poll_shutdown (inner l) in (MkLogged s' (log_in l) (log_out l), r);
|}.

#[export] Program Instance logged_traced : TracedStream (Logged S) := {|
  received := log_in;
  sent := log_out;
|}.
Next Obligation.
  intros n l. simpl. destruct (poll_read n (inner l)) as [s' [[bs|e]|]]; simpl; try done.
  split_and!; [rewrite length_take; lia|done..].
Qed.
Next Obligation.
  intros bs l. simpl. destruct (poll_write bs (inner l)) as [s' [[n|e]|]]; simpl; try done.
  split_and!; [lia|done..].
Qed.
Next Obligation. intros l. simpl. by destruct (poll_flush (inner l)). Qed.
Next Obligation. intros l. simpl. by destruct (poll_shutdown (inner l)). Qed.

End logged.

(** ** Transport types *)

Inductive TransportType : Type := Tcp | WebSocket | Grpc.

Definition half_close (t : TransportType) : bool :=
  match t with
  | Tcp => true
  | WebSocket | Grpc => false
  end.

Definition transport_fmt (t : TransportType) : string :=
  match t with
  | Tcp => "tcp"
  | WebSocket => "ws"
  | Grpc => "grpc"
  end.

Record ConnectionMeta := MkMeta { peer_addr : SocketAddr; transport_type : TransportType }.

(** ** [NoHalfClose] *)

Record NoHalfClose (S : Type) := MkNoHalfClose { nhc_inner : S; nhc_half_close : bool }.
Arguments MkNoHalfClose {S} nhc_inner nhc_half_close.
Arguments nhc_inner {S} n.
Arguments nhc_half_close {S} n.

Section no_half_close.
Context {S : Type} `{AsyncRead S, AsyncWrite S}.

(** Run a poll of the inner stream. *)
Definition on_inner {A} (f : S → S * A) (x : NoHalfClose S) : NoHalfClose S * A :=
  let '(s', r) := f (nhc_inner x) in (MkNoHalfClose s' (nhc_half_close x), r).

#[export] Instance nhc_read : AsyncRead (NoHalfClose S) := {|
  poll_read n := on_inner (poll_read n);
|}.

#[export] Instance nhc_write : AsyncWrite (NoHalfClose S) := {|
  poll_write bs := on_inner (poll_write bs);
  poll_flush := on_inner poll_flush;
  poll_shutdown x :=
    if nhc_half_close x then on_inner poll_shutdown x else on_inner poll_flush x;
|}.

Context `{!TracedStream S}.

(** The wrapper keeps the contract of the stream it wraps. *)
#[export] Program Instance nhc_traced : TracedStream (NoHalfClose S) := {|
  received x := received (nhc_inner x);
  sent x := sent (nhc_inner x);
|}.
Next Obligation.
  intros n [s h]. simpl. unfold on_inner. simpl. pose proof (read_law n s) as Hl.
  by destruct (poll_read n s) as [s' [[bs|e]|]].
Qed.
Next Obligation.
  intros bs [s h]. simpl. unfold on_inner. simpl. pose proof (write_law bs s) as Hl.
  by destruct (poll_write bs s) as [s' [[n|e]|]].
Qed.
Next Obligation.
  intros [s h]. simpl. unfold on_inner. simpl. pose proof (flush_law s). by destruct (poll_flush s).
Qed.
Next Obligation.
  intros [s h]. simpl. unfold on_inner. simpl. pose proof (flush_law s). pose proof (shutdown_law s).
  destruct h; simpl; [by destruct (poll_shutdown s)|by destruct (poll_flush s)].
Qed.

End no_half_close.

#[export] Program Instance nhc_coop {S : Type} `{CoopStream S} : CoopStream (NoHalfClose S) :=
  {| budget x := budget (nhc_inner x) |}.
Next Obligation.
  intros St HR HW HC n [s h]. simpl. unfold on_inner. simpl. pose proof (coop_read n s) as Hl.
  by destruct (poll_read n s) as [s' [[[|b bs]|e]|]].
Qed.
Next Obligation.
  intros St HR HW HC bs [s h]. simpl. unfold on_inner. simpl. pose proof (coop_write bs s).
  by destruct (poll_write bs s).
Qed.
Next Obligation.
  intros St HR HW HC [s h]. simpl. unfold on_inner. simpl. pose proof (coop_flush s). by destruct (poll_flush s).
Qed.
Next Obligation.
  intros St HR HW HC [s h]. simpl. unfold on_inner. simpl.
  pose proof (coop_flush s). pose proof (coop_shutdown s).
  destruct h; simpl; [by destruct (poll_shutdown s)|by destruct (poll_flush s)].
Qed.

(** ** Scripted streams

    A concrete stream: what the next reads and writes return; flush and
    shutdown succeed at once. *)
Record Scripted := MkScripted {
  reads : list (poll (result (list byte) io_error));
  writes : list (poll (result nat io_error));
  shut : bool;
}.

#[export] Instance scripted_read : AsyncRead Scripted := {|
  poll_read n s :=
    match reads s with
    | [] => (s, Pending)
    | Ready (Ok bs) :: rs => (MkScripted rs (writes s) (shut s), Ready (Ok (take n bs)))
    | r :: rs => (MkScripted rs (writes s) (shut s), r)
    end;
|}.

#[export] Instance scripted_write : AsyncWrite Scripted := {|
  poll_write bs s :=
    match writes s with
    | [] => (s, Ready (Ok (length bs)))
    | Ready (Ok n) :: ws => (MkScripted (reads s) ws (shut s), Ready (Ok (n `min` length bs)))
    | w :: ws => (MkScripted (reads s) ws (shut s), w)
    end;
  poll_flush s := (s, Ready (Ok tt));
  poll_shutdown s := (MkScripted (reads s) (writes s) true, Ready (Ok tt));
|}.

#[export] Program Instance scripted_coop : CoopStream Scripted := {| budget s := length (reads s) |}.
Next Obligation.
  intros n [rs ws sh]. simpl. destruct rs as [|[[bs|e]|] rs]; simpl; try lia. destruct (take n bs); lia.
Qed.
Next Obligation. intros bs [rs ws sh]. simpl. by destruct ws as [|[[n|e]|] ws]. Qed.
Next Obligation. done. Qed.
Next Obligation. done. Qed.

#[export] Program Instance logged_coop {S : Type} `{CoopStream S} : CoopStream (Logged S) :=
  {| budget l := budget (inner l) |}.
Next Obligation.
  intros St HR HW HC n l. simpl. pose proof (coop_read n (inner l)) as Hl.
  destruct (poll_read n (inner l)) as [s' [[bs|e]|]]; simpl; try done.
  destruct bs as [|b bs]; [by rewrite take_nil|]. destruct (take n (b :: bs)); [lia|done].
Qed.
Next Obligation.
  intros St HR HW HC bs l. simpl. pose proof (coop_write bs (inner l)) as Hl.
  by destruct (poll_write bs (inner l)) as [s' [[n|e]|]].
Qed.
Next Obligation.
  intros St HR HW HC l. simpl. pose proof (coop_flush (inner l)). by destruct (poll_flush (inner l)).
Qed.
Next Obligation.
  intros St HR HW HC l. simpl. pose proof (coop_shutdown (inner l)).
  by destruct (poll_shutdown (inner l)).
Qed.
