(* ===== verification/Relay.v ===== *)
(** * Bidirectional relay ([src/src/core/relay.rs])

    One direction's buffer and its [poll_copy] loop, the relay future with its
    idle and half-close timers and traffic accounting, and the future's life
    under an arbitrary schedule of polls, including being dropped.  Byte
    counters are [Z]: [2^64] bytes are not transferred in a session. *)

From S2P Require Import Prelude RustStd Hooks AsyncIo.

Inductive RelayTermination : Type := Completed | HalfCloseTimeout | IdleTimeout | RelayError.

Definition termination_fmt (t : RelayTermination) : string :=
  match t with
  | Completed => "completed"
  | HalfCloseTimeout => "half_close_timeout"
  | IdleTimeout => "idle_timeout"
  | RelayError => "error"
  end.

Record CopyResult := MkCopyResult {
  res_a_to_b : Z;
  res_b_to_a : Z;
  termination : RelayTermination;
  client_eof : bool;
  remote_eof : bool;
}.

(** ** One direction *)

Record DirectionalBuffer := MkDir {
  buf : list byte;
  pos : nat;
  cap : nat;
  amt : Z;
  read_done : bool;
  shutdown_done : bool;
  flush_ok : bool;
}.

Module Directional.

Definition new (buf_size : nat) : DirectionalBuffer :=
  MkDir (replicate buf_size (z2b 0)) 0 0 0 false false false.

Definition is_done (d : DirectionalBuffer) : bool := shutdown_done d.
Definition has_read_eof (d : DirectionalBuffer) : bool := read_done d.
Definition is_drained (d : DirectionalBuffer) : bool := read_done d && (cap d <=? pos d).
Definition bytes_transferred (d : DirectionalBuffer) : Z := amt d.
Definition has_flushed (d : DirectionalBuffer) : bool := flush_ok d.

(** Field updates. *)
Definition set_flush_ok (b : bool) (d : DirectionalBuffer) : DirectionalBuffer :=
  MkDir (buf d) (pos d) (cap d) (amt d) (read_done d) (shutdown_done d) b.
Definition set_read_done (d : DirectionalBuffer) : DirectionalBuffer :=
  MkDir (buf d) (pos d) (cap d) (amt d) true (shutdown_done d) (flush_ok d).
Definition set_shutdown_done (d : DirectionalBuffer) : DirectionalBuffer :=
  MkDir (buf d) (pos d) (cap d) (amt d) (read_done d) true (flush_ok d).
Definition wrote (n : nat) (d : DirectionalBuffer) : DirectionalBuffer :=
  MkDir (buf d) (pos d + n) (cap d) (amt d + Z.of_nat n) (read_done d) (shutdown_done d) (flush_ok d).
(** [bs] read behind the buffered data, and into the empty buffer. *)
Definition probed (bs : list byte) (d : DirectionalBuffer) : DirectionalBuffer :=
  MkDir (take (cap d) (buf d) ++ bs ++ drop (cap d + length bs) (buf d))
    (pos d) (cap d + length bs) (amt d) (read_done d) (shutdown_done d) (flush_ok d).
Definition filled (bs : list byte) (d : DirectionalBuffer) : DirectionalBuffer :=
  MkDir (bs ++ drop (length bs) (buf d)) 0 (length bs) (amt d)
    (read_done d) (shutdown_done d) (flush_ok d).

Section poll_copy.
Context {R W : Type} `{AsyncRead R, AsyncWrite W}.

Definition outcome : Type := DirectionalBuffer * R * W * poll (result unit io_error).

(** The write is blocked: probe the reader for EOF in the unused buffer space. *)
Definition probe_read (d : DirectionalBuffer) (r : R) (w : W) : outcome :=
  if negb (read_done d) && (cap d <? length (buf d)) then
    match poll_read (length (buf d) - cap d) r with
    | (r', Ready (Ok [])) => (set_read_done d, r', w, Pending)
    | (r', Ready (Ok bs)) => (probed bs d, r', w, Pending)
    | (r', Ready (Err e)) => (d, r', w, Ready (Err e))
    | (r', Pending) => (d, r', w, Pending)
    end
  else (d, r, w, Pending).

(** Steps 3 and 4: shut the writer down after EOF, otherwise read more and go
    round the loop with [again]. *)
Definition shutdown_or_read (again : DirectionalBuffer → R → W → option outcome)
    (d : DirectionalBuffer) (r : R) (w : W) : option outcome :=
  if read_done d then
    match poll_shutdown w with
    | (w', Ready _) => Some (set_shutdown_done d, r, w', Ready (Ok tt))
    | (w', Pending) => Some (d, r, w', Pending)
    end
  else
    match poll_read (length (buf d)) r with
    | (r', Pending) => Some (d, r', w, Pending)
    | (r', Ready (Err e)) => Some (d, r', w, Ready (Err e))
    | (r', Ready (Ok [])) => again (set_read_done d) r' w
    | (r', Ready (Ok bs)) => again (filled bs d) r' w
    end.

(** The [loop] of [poll_copy]: one unit of fuel per write attempt and per
    flush-and-read round.  [None] is a slice out of range or exhausted fuel. *)
Fixpoint copy_loop (fuel : nat) (d : DirectionalBuffer) (r : R) (w : W) : option outcome :=
  match fuel with
  | 0 => None
  | S fuel' =>
      if pos d <? cap d then
        chunk ← slice (buf d) (pos d) (cap d);
        match poll_write chunk w with
        | (w', Ready (Ok 0)) =>
            Some (d, r, w', Ready (Err (IoError EkWriteZero "write zero bytes")))
        | (w', Ready (Ok i)) => copy_loop fuel' (wrote i d) r w'
        | (w', Ready (Err e)) => Some (d, r, w', Ready (Err e))
        | (w', Pending) => Some (probe_read d r w')
        end
      else
        match poll_flush w with
        | (w', Ready (Err e)) => Some (d, r, w', Ready (Err e))
        | (w', Ready (Ok _)) => shutdown_or_read (copy_loop fuel') (set_flush_ok true d) r w'
        | (w', Pending) => shutdown_or_read (copy_loop fuel') d r w'
        end
  end.

Definition poll_copy (fuel : nat) (d : DirectionalBuffer) (r : R) (w : W) : option outcome :=
  if shutdown_done d then Some (d, r, w, Ready (Ok tt))
  else copy_loop fuel (set_flush_ok false d) r w.

End poll_copy.

End Directional.

(** ** The relay future *)

(** Deadlines and the clock are in milliseconds; one reading of the clock is
    used throughout a poll. *)
Record relay_state := MkRelay {
  a_to_b : DirectionalBuffer;
  b_to_a : DirectionalBuffer;
  half_close_active : bool;
  half_close_timeout : Z;
  half_close_deadline : Z;
  idle_deadline : Z;
  reported_up : Z;
  reported_down : Z;
}.

Record relay_config := MkRelayConfig {
  idle_timeout_secs : Z;
  uplink_only_secs : Z;
  downlink_only_secs : Z;
  buffer_size : nat;
}.

Definition millis (secs : Z) : Z := (secs * 1000)%Z.

Definition relay_start (cfg : relay_config) (now : Z) : relay_state :=
  MkRelay (Directional.new (buffer_size cfg)) (Directional.new (buffer_size cfg))
    false 0 now (now + millis (idle_timeout_secs cfg)) 0 0.

(** The half-close window opens on the first drained direction. *)
Definition open_half_close (cfg : relay_config) (now : Z) (s : relay_state) : relay_state :=
  let activate timeout s :=
    MkRelay (a_to_b s) (b_to_a s) true timeout (now + timeout) (idle_deadline s)
      (reported_up s) (reported_down s) in
  let s1 :=
    if Directional.is_drained (a_to_b s) && negb (Directional.is_done (b_to_a s))
       && negb (half_close_active s)
    then activate (millis (downlink_only_secs cfg)) s else s in
  if Directional.is_drained (b_to_a s1) && negb (Directional.is_done (a_to_b s1))
     && negb (half_close_active s1)
  then activate (millis (uplink_only_secs cfg)) s1 else s1.

(** Progress that reached the wire restarts both windows. *)
Definition restart_timers (cfg : relay_config) (now : Z) (progress : bool) (s : relay_state)
    : relay_state :=
  if progress then
    MkRelay (a_to_b s) (b_to_a s) (half_close_active s) (half_close_timeout s)
      (if half_close_active s then now + half_close_timeout s else half_close_deadline s)
      (now + millis (idle_timeout_secs cfg)) (reported_up s) (reported_down s)
  else s.

Section relay.
Context {A B T : Type} `{AsyncRead A, AsyncWrite A, AsyncRead B, AsyncWrite B}.
Context `{StatsCollector T}.

(** Report the bytes not reported yet. *)
Definition report (stats : option UserId) (s : relay_state) (t : T) : relay_state * T :=
  match stats with
  | None => (s, t)
  | Some u =>
      let up := Directional.bytes_transferred (a_to_b s) in
      let down := Directional.bytes_transferred (b_to_a s) in
      let t1 := if (reported_up s <? up)%Z then record_upload u (up - reported_up s) t else t in
      let t2 := if (reported_down s <? down)%Z then record_download u (down - reported_down s) t1
                else t1 in
      (MkRelay (a_to_b s) (b_to_a s) (half_close_active s) (half_close_timeout s)
         (half_close_deadline s) (idle_deadline s)
         (Z.max (reported_up s) up) (Z.max (reported_down s) down), t2)
  end.

Definition set_dirs (x y : DirectionalBuffer) (s : relay_state) : relay_state :=
  MkRelay x y (half_close_active s) (half_close_timeout s) (half_close_deadline s)
    (idle_deadline s) (reported_up s) (reported_down s).

(** The closure after both directions were polled: timers, accounting and the
    verdict. *)
Definition after_turns (cfg : relay_config) (stats : option UserId) (now a_before b_before : Z)
    (s : relay_state) (t : T) : relay_state * T * poll (result RelayTermination io_error) :=
  let '(s2, t') := report stats (open_half_close cfg now s) t in
  let progress before d :=
    (before <? Directional.bytes_transferred d)%Z && Directional.has_flushed d in
  let s3 := restart_timers cfg now (progress a_before (a_to_b s) || progress b_before (b_to_a s)) s2 in
  (s3, t',
   if Directional.is_done (a_to_b s3) && Directional.is_done (b_to_a s3) then Ready (Ok Completed)
   else if half_close_active s3 && (half_close_deadline s3 <=? now)%Z
   then Ready (Ok HalfCloseTimeout)
   else if (idle_deadline s3 <=? now)%Z then Ready (Ok IdleTimeout)
   else Pending).

(** The closure given to [poll_fn]; a finished poll carries the termination. *)
Definition poll_relay (cfg : relay_config) (stats : option UserId) (fuel : nat) (now : Z)
    (s : relay_state) (a : A) (b : B) (t : T)
    : option (relay_state * A * B * T * poll (result RelayTermination io_error)) :=
  let a_before := Directional.bytes_transferred (a_to_b s) in
  let b_before := Directional.bytes_transferred (b_to_a s) in
  '(up, a1, b1, r1) ←
    (if Directional.is_done (a_to_b s) then Some (a_to_b s, a, b, Pending)
     else Directional.poll_copy fuel (a_to_b s) a b);
  match r1 with
  | Ready (Err e) => Some (set_dirs up (b_to_a s) s, a1, b1, t, Ready (Err e))
  | _ =>
      '(down, b2, a2, r2) ←
        (if Directional.is_done (b_to_a s) then Some (b_to_a s, b1, a1, Pending)
         else Directional.poll_copy fuel (b_to_a s) b1 a1);
      match r2 with
      | Ready (Err e) => Some (set_dirs up down s, a2, b2, t, Ready (Err e))
      | _ =>
          let '(s', t', r) := after_turns cfg stats now a_before b_before (set_dirs up down s) t in
          Some (s', a2, b2, t', r)
      end
  end.

(** The code after [poll_fn(..).await]. *)
Definition relay_finish (stats : option UserId) (s : relay_state) (t : T)
    (r : result RelayTermination io_error) : T * result CopyResult io_error :=
  let '(_, t') := report stats s t in
  (t',
   match r with
   | Ok term =>
       Ok (MkCopyResult (Directional.bytes_transferred (a_to_b s))
             (Directional.bytes_transferred (b_to_a s)) term
             (Directional.has_read_eof (a_to_b s)) (Directional.has_read_eof (b_to_a s)))
   | Err e => Err e
   end).

(** The future polled at the given times, with fuel for each poll.  A schedule
    that ends before the future does is a dropped future: [None] in the last
    component. *)
Fixpoint relay_run (cfg : relay_config) (stats : option UserId) (schedule : list (nat * Z))
    (s : relay_state) (a : A) (b : B) (t : T)
    : option (relay_state * A * B * T * option (result CopyResult io_error)) :=
  match schedule with
  | [] => Some (s, a, b, t, None)
  | (fuel, now) :: rest =>
      '(s', a', b', t', r) ← poll_relay cfg stats fuel now s a b t;
      match r with
      | Pending => relay_run cfg stats rest s' a' b' t'
      | Ready r =>
          let '(t'', res) := relay_finish stats s' t' r in Some (s', a', b', t'', Some res)
      end
  end.

Definition copy_bidirectional_with_stats (cfg : relay_config) (stats : option UserId)
    (start : Z) (schedule : list (nat * Z)) (a : A) (b : B) (t : T)
    : option (relay_state * A * B * T * option (result CopyResult io_error)) :=
  relay_run cfg stats schedule (relay_start cfg start) a b t.

End relay.

(** ** Invariants of one direction *)

(** Bytes read and not yet written. *)
Definition unwritten (d : DirectionalBuffer) : list byte :=
  take (cap d - pos d) (drop (pos d) (buf d)).

Definition dir_inv (size : nat) (d : DirectionalBuffer) : Prop :=
  length (buf d) = size ∧ pos d ≤ cap d ∧ cap d ≤ size
  ∧ (shutdown_done d = true → read_done d = true ∧ pos d = cap d).

Lemma dir_inv_new size : dir_inv size (Directional.new size).
Proof. unfold dir_inv. simpl. rewrite length_replicate. split_and!; (lia || done). Qed.

Lemma unwritten_slice d size :
  dir_inv size d → slice (buf d) (pos d) (cap d) = Some (unwritten d).
Proof. intros (Hl & Hp & Hc & _). apply slice_Some; lia. Qed.

Lemma length_unwritten d size : dir_inv size d → length (unwritten d) = cap d - pos d.
Proof. intros (Hl & Hp & Hc & _). unfold unwritten. rewrite length_take, length_drop. lia. Qed.

Lemma unwritten_empty d : cap d ≤ pos d → unwritten d = [].
Proof. intros H. unfold unwritten. by replace (cap d - pos d) with 0 by lia. Qed.

Lemma unwritten_wrote d size n :
  dir_inv size d → n ≤ length (unwritten d) →
  dir_inv size (Directional.wrote n d)
  ∧ unwritten d = take n (unwritten d) ++ unwritten (Directional.wrote n d).
Proof.
  intros Hinv Hn. pose proof (length_unwritten _ _ Hinv) as Hlen.
  destruct Hinv as (Hl & Hp & Hc & Hs). split.
  - unfold dir_inv. simpl. split_and!; try lia. intros Hd. destruct (Hs Hd). split; [done|lia].
  - unfold unwritten. simpl. rewrite <- (take_drop n (take (cap d - pos d) _)) at 1. f_equal.
    rewrite skipn_firstn_comm, drop_drop. f_equal; lia.
Qed.

Lemma unwritten_probed d size bs :
  dir_inv size d → shutdown_done d = false → length bs ≤ length (buf d) - cap d →
  dir_inv size (Directional.probed bs d)
  ∧ unwritten (Directional.probed bs d) = unwritten d ++ bs.
Proof.
  intros (Hl & Hp & Hc & _) Hs Hb. split.
  - unfold dir_inv. simpl. rewrite !length_app, length_take, length_drop.
    split_and!; try lia. congruence.
  - unfold unwritten. simpl.
    rewrite drop_app_le by (rewrite length_take; lia).
    rewrite app_assoc, take_app_le by (rewrite length_app, length_drop, length_take; lia).
    rewrite skipn_firstn_comm. rewrite take_ge; [done|].
    rewrite length_app, length_take, length_drop. lia.
Qed.

Lemma unwritten_filled d size bs :
  dir_inv size d → shutdown_done d = false → length bs ≤ length (buf d) →
  dir_inv size (Directional.filled bs d) ∧ unwritten (Directional.filled bs d) = bs.
Proof.
  intros (Hl & Hp & Hc & _) Hs Hb. split.
  - unfold dir_inv. simpl. rewrite length_app, length_drop. split_and!; try lia. congruence.
  - unfold unwritten. simpl. rewrite drop_0, Nat.sub_0_r. apply take_app_length.
Qed.

(** ** What one poll does *)

Section direction.
Context {R W : Type} `{AsyncRead R, AsyncWrite R, !TracedStream R}.
Context `{AsyncRead W, AsyncWrite W, !TracedStream W}.

(** Since the streams were at [r0] and [w0]: the writer got a prefix [x] of
    what the reader delivered, the rest is in the buffer, and [amt] counts
    [x]. *)
Definition moved (r0 : R) (w0 : W) (d : DirectionalBuffer) (r : R) (w : W) : Prop :=
  ∃ x, sent w = sent w0 ++ x ∧ received r = received r0 ++ x ++ unwritten d
       ∧ amt d = Z.of_nat (length x).

(** The effect of a poll on a direction. *)
Record copied (size : nat) (d d' : DirectionalBuffer) (r r' : R) (w w' : W)
    (res : poll (result unit io_error)) : Prop := MkCopied {
  cp_inv : dir_inv size d';
  cp_moved : ∀ r0 w0, moved r0 w0 d r w → moved r0 w0 d' r' w';
  cp_reader : sent r' = sent r;
  cp_writer : received w' = received w;
  cp_amt : (amt d ≤ amt d')%Z;
  cp_done : res = Ready (Ok tt) ↔ shutdown_done d' = true;
}.

Lemma moved_ext r0 w0 d d' r r' w w' :
  unwritten d' = unwritten d → amt d' = amt d → received r' = received r → sent w' = sent w →
  moved r0 w0 d r w → moved r0 w0 d' r' w'.
Proof. intros Hu Ha Hr Hw (x & ? & ? & ?). exists x. rewrite Hu, Ha, Hr, Hw. done. Qed.

(** A stop that leaves buffer and data where they are. *)
Lemma copied_stop size d d' r r' w w' res :
  dir_inv size d' → shutdown_done d' = false → res ≠ Ready (Ok tt) →
  unwritten d' = unwritten d → amt d' = amt d →
  received r' = received r → sent r' = sent r → received w' = received w → sent w' = sent w →
  copied size d d' r r' w w' res.
Proof.
  intros Hi Hs Hres Hu Ha Hr1 Hr2 Hw1 Hw2. constructor; try done; [|lia|split; congruence].
  intros r0 w0. by apply moved_ext.
Qed.

Lemma copied_trans size d d1 d' r r1 r' w w1 w' res :
  (∀ r0 w0, moved r0 w0 d r w → moved r0 w0 d1 r1 w1) →
  sent r1 = sent r → received w1 = received w → (amt d ≤ amt d1)%Z →
  copied size d1 d' r1 r' w1 w' res → copied size d d' r r' w w' res.
Proof.
  intros Hm Hr Hw Ha [? Hm' ? ? ? ?]. constructor; try done; [eauto|congruence|congruence|lia].
Qed.

Lemma probe_read_copied size d r w d' r' w' res :
  dir_inv size d → shutdown_done d = false →
  Directional.probe_read d r w = (d', r', w', res) → copied size d d' r r' w w' res.
Proof.
  intros Hinv Hs. unfold Directional.probe_read.
  destruct (negb (read_done d) && (cap d <? length (buf d))) eqn:Hroom.
  2: { intros [= <- <- <- <-]. by apply copied_stop. }
  apply andb_true_iff in Hroom as [Hrd Hroom]. apply Nat.ltb_lt in Hroom.
  pose proof (read_law (length (buf d) - cap d) r) as Hr.
  destruct (poll_read (length (buf d) - cap d) r) as [r1 [[bs|e]|]].
  - destruct bs as [|b bs]; intros [= <- <- <- <-]; destruct Hr as (Hb & Hr1 & Hr2).
    { rewrite app_nil_r in Hr1. apply copied_stop; try done.
      destruct Hinv as (? & ? & ? & ?). split_and!; try done. simpl. congruence. }
    destruct (unwritten_probed d size (b :: bs) Hinv Hs Hb) as [Hinv' Hun].
    constructor; try done; [|split; [done|simpl; congruence]].
    intros r0 w0 (x & Hx1 & Hx2 & Hx3). exists x.
    rewrite Hun, Hr1, Hx2. by rewrite <- !app_assoc.
  - intros [= <- <- <- <-]. destruct Hr. by apply copied_stop.
  - intros [= <- <- <- <-]. destruct Hr. by apply copied_stop.
Qed.

Lemma shutdown_or_read_copied size again d r w d' r' w' res :
  (∀ d r w, dir_inv size d → shutdown_done d = false →
     again d r w = Some (d', r', w', res) → copied size d d' r r' w w' res) →
  dir_inv size d → shutdown_done d = false → cap d ≤ pos d →
  Directional.shutdown_or_read again d r w = Some (d', r', w', res) →
  copied size d d' r r' w w' res.
Proof.
  intros IH Hinv Hs Hge. unfold Directional.shutdown_or_read.
  pose proof Hinv as (Hl & Hp & Hc & Hd). destruct (read_done d) eqn:Hrd.
  - pose proof (shutdown_law w) as [Hw1 Hw2].
    destruct (poll_shutdown w) as [w1 [sr|]]; simpl in *; intros [= <- <- <- <-].
    + constructor; try done; [|intros r0 w0; by apply moved_ext].
      split_and!; simpl; try done. intros _. split; [done|lia].
    + by apply copied_stop.
  - pose proof (read_law (length (buf d)) r) as Hr.
    destruct (poll_read (length (buf d)) r) as [r1 [[bs|e]|]].
    2, 3: intros [= <- <- <- <-]; destruct Hr; by apply copied_stop.
    destruct Hr as (Hb & Hr1 & Hr2). destruct bs as [|b bs]; intros Ha.
    + rewrite app_nil_r in Hr1.
      eapply copied_trans; [| | | |eapply IH; [| |exact Ha]]; try done.
      * intros r0 w0. by apply moved_ext.
      * split_and!; simpl; try done. congruence.
    + destruct (unwritten_filled d size (b :: bs)) as [Hinv' Hun]; [done..|].
      eapply copied_trans; [| | | |eapply IH; [| |exact Ha]]; try done.
      intros r0 w0 (x & Hx1 & Hx2 & Hx3). exists x.
      rewrite Hun, Hr1, Hx2, (unwritten_empty d), app_nil_r, app_assoc by done. done.
Qed.

Lemma copy_loop_copied size fuel d r w d' r' w' res :
  dir_inv size d → shutdown_done d = false →
  Directional.copy_loop fuel d r w = Some (d', r', w', res) →
  copied size d d' r r' w w' res.
Proof.
  revert d r w. induction fuel as [|fuel IH]; intros d r w Hinv Hs; cbn [Directional.copy_loop]; [done|].
  destruct (Nat.ltb_spec (pos d) (cap d)) as [Hlt|Hge].
  - rewrite (unwritten_slice _ _ Hinv). cbn [mbind option_bind].
    pose proof (write_law (unwritten d) w) as Hw.
    destruct (poll_write (unwritten d) w) as [w1 [[n|e]|]].
    + destruct Hw as (Hn & Hw1 & Hw2). destruct n as [|n].
      { intros [= <- <- <- <-]. rewrite take_0, app_nil_r in Hw2. by apply copied_stop. }
      intros Hc. destruct (unwritten_wrote d size (S n) Hinv Hn) as [Hinv' Hun].
      eapply copied_trans; [| | | |eapply IH; eauto]; try done; [|simpl; lia].
      intros r0 w0 (x & Hx1 & Hx2 & Hx3). exists (x ++ take (S n) (unwritten d)).
      rewrite Hw2, Hx1, Hx2. split_and!.
      * by rewrite app_assoc.
      * rewrite Hun at 1. by rewrite !app_assoc.
      * rewrite length_app, length_take. cbn [Directional.wrote amt]. lia.
    + intros [= <- <- <- <-]. destruct Hw. by apply copied_stop.
    + intros [= Hp]. destruct Hw as [Hw1 Hw2].
      eapply copied_trans; [| | | |by eapply probe_read_copied]; try done.
      intros r0 w0. by apply moved_ext.
  - pose proof (flush_law w) as Hf. destruct (poll_flush w) as [w1 [[[]|e]|]]; simpl in Hf;
      destruct Hf as [Hf1 Hf2].
    + intros Hc. eapply copied_trans; [| | | |eapply (shutdown_or_read_copied size _ _ _ _ _ _ _ _ IH); [| | |exact Hc]]; try done.
      intros r0 w0. by apply moved_ext.
    + intros [= <- <- <- <-]. by apply copied_stop.
    + intros Hc. eapply copied_trans; [| | | |eapply (shutdown_or_read_copied size _ _ _ _ _ _ _ _ IH); [| | |exact Hc]]; try done.
      intros r0 w0. by apply moved_ext.
Qed.

Lemma poll_copy_copied size fuel d r w d' r' w' res :
  dir_inv size d → shutdown_done d = false →
  Directional.poll_copy fuel d r w = Some (d', r', w', res) →
  copied size d d' r r' w w' res.
Proof.
  intros Hinv Hs. unfold Directional.poll_copy. rewrite Hs. intros Hc.
  eapply copied_trans; [| | | |eapply copy_loop_copied; [| |exact Hc]]; try done.
Qed.

End direction.

(** ** Invariants of the relay *)

Section relay_facts.
Context {A B T : Type} `{AsyncRead A, AsyncWrite A, !TracedStream A}.
Context `{AsyncRead B, AsyncWrite B, !TracedStream B}.
Context `{StatsCollector T, !StatsLaws T}.

(** Both directions relative to the streams at the start of the relay. *)
Definition relay_inv (size : nat) (a0 : A) (b0 : B) (s : relay_state) (a : A) (b : B) : Prop :=
  dir_inv size (a_to_b s) ∧ dir_inv size (b_to_a s)
  ∧ moved a0 b0 (a_to_b s) a b ∧ moved b0 a0 (b_to_a s) b a.

(** The collector has seen exactly the reported bytes, and no more than were
    transferred; [settled_stats] when it has seen all of them. *)
Definition accounted (u : UserId) (t0 : T) (s : relay_state) (t : T) : Prop :=
  (∀ v, uploaded v t = (uploaded v t0 + if decide (u = v) then reported_up s else 0)%Z
        ∧ downloaded v t = (downloaded v t0 + if decide (u = v) then reported_down s else 0)%Z
        ∧ requests v t = requests v t0)
  ∧ (reported_up s ≤ amt (a_to_b s))%Z ∧ (reported_down s ≤ amt (b_to_a s))%Z.

Definition settled_stats (s : relay_state) : Prop :=
  reported_up s = amt (a_to_b s) ∧ reported_down s = amt (b_to_a s).

Lemma relay_start_inv cfg now a b :
  relay_inv (buffer_size cfg) a b (relay_start cfg now) a b.
Proof.
  split_and!; try apply dir_inv_new; exists []; by rewrite !app_nil_r.
Qed.

Lemma relay_start_accounted cfg now u t :
  accounted u t (relay_start cfg now) t ∧ settled_stats (relay_start cfg now).
Proof. split; [|done]. split; [|done]. intros v. case_decide; simpl; lia. Qed.

Lemma report_spec u t0 s t s' t' :
  accounted u t0 s t → report (Some u) s t = (s', t') →
  accounted u t0 s' t' ∧ settled_stats s' ∧ a_to_b s' = a_to_b s ∧ b_to_a s' = b_to_a s.
Proof.
  intros (Ht & Hu & Hd). unfold report, Directional.bytes_transferred. intros [= <- <-].
  unfold accounted, settled_stats. simpl. rewrite !Z.max_r by done. split_and!; try done.
  intros v. destruct (Ht v) as (U1 & U2 & U3).
  destruct (Z.ltb_spec (reported_up s) (amt (a_to_b s))), (Z.ltb_spec (reported_down s) (amt (b_to_a s)));
    rewrite ?(proj1 (download_law _ _ _ _)), ?(proj1 (proj2 (download_law _ _ _ _))),
      ?(proj2 (proj2 (download_law _ _ _ _))), ?(proj1 (upload_law _ _ _ _)),
      ?(proj1 (proj2 (upload_law _ _ _ _))), ?(proj2 (proj2 (upload_law _ _ _ _))), U1, U2, U3;
    case_decide; lia.
Qed.

Lemma open_half_close_dirs cfg now s :
  a_to_b (open_half_close cfg now s) = a_to_b s ∧ b_to_a (open_half_close cfg now s) = b_to_a s
  ∧ reported_up (open_half_close cfg now s) = reported_up s
  ∧ reported_down (open_half_close cfg now s) = reported_down s
  ∧ idle_deadline (open_half_close cfg now s) = idle_deadline s.
Proof. unfold open_half_close. by repeat case_match. Qed.

Lemma restart_timers_dirs cfg now p s :
  a_to_b (restart_timers cfg now p s) = a_to_b s ∧ b_to_a (restart_timers cfg now p s) = b_to_a s
  ∧ reported_up (restart_timers cfg now p s) = reported_up s
  ∧ reported_down (restart_timers cfg now p s) = reported_down s.
Proof. by destruct p. Qed.

(** One direction's turn within a poll of the relay. *)
Lemma turn_copied {R W} `{AsyncRead R, AsyncWrite R, !TracedStream R}
    `{AsyncRead W, AsyncWrite W, !TracedStream W} size fuel d (r : R) (w : W) d' r' w' res :
  dir_inv size d →
  (if Directional.is_done d then Some (d, r, w, Pending) else Directional.poll_copy fuel d r w)
  = Some (d', r', w', res) →
  dir_inv size d' ∧ (∀ r0 w0, moved r0 w0 d r w → moved r0 w0 d' r' w')
  ∧ sent r' = sent r ∧ received w' = received w ∧ (amt d ≤ amt d')%Z.
Proof.
  intros Hinv. unfold Directional.is_done. destruct (shutdown_done d) eqn:Hs.
  - by intros [= <- <- <- <-].
  - intros Hc. by destruct (poll_copy_copied _ _ _ _ _ _ _ _ _ Hinv Hs Hc).
Qed.

Lemma moved_frame {R W} `{AsyncRead R, AsyncWrite R, !TracedStream R}
    `{AsyncRead W, AsyncWrite W, !TracedStream W} (r0 r r' : R) (w0 w w' : W) d :
  received r' = received r → sent w' = sent w → moved r0 w0 d r w → moved r0 w0 d r' w'.
Proof. intros Hr Hw (x & ? & ? & ?). exists x. by rewrite Hr, Hw. Qed.

Lemma after_turns_spec cfg u now x y t0 s t s' t' r :
  accounted u t0 s t → after_turns cfg (Some u) now x y s t = (s', t', r) →
  accounted u t0 s' t' ∧ settled_stats s' ∧ a_to_b s' = a_to_b s ∧ b_to_a s' = b_to_a s
  ∧ (∀ e, r ≠ Ready (Err e))
  ∧ (r = Ready (Ok Completed) →
     shutdown_done (a_to_b s') = true ∧ shutdown_done (b_to_a s') = true).
Proof.
  intros Hac. unfold after_turns.
  destruct (report _ _ _) as [s2 t2] eqn:Hrep.
  destruct (open_half_close_dirs cfg now s) as (E1 & E2 & E3 & E4 & _).
  assert (Hac1 : accounted u t0 (open_half_close cfg now s) t)
    by (unfold accounted; rewrite E1, E2, E3, E4; exact Hac).
  destruct (report_spec _ _ _ _ _ _ Hac1 Hrep) as (Hac2 & Hset & F1 & F2).
  match goal with |- context [restart_timers cfg now ?p s2] =>
    destruct (restart_timers_dirs cfg now p s2) as (G1 & G2 & G3 & G4); set (s3 := restart_timers _ _ p _) in * end.
  intros [= <- <- <-]. split_and!.
  - unfold accounted. rewrite G1, G2, G3, G4. exact Hac2.
  - unfold settled_stats. rewrite G1, G2, G3, G4. exact Hset.
  - congruence.
  - congruence.
  - intros e. by repeat case_match.
  - unfold Directional.is_done.
    destruct (shutdown_done (a_to_b s3)), (shutdown_done (b_to_a s3)); simpl; try done;
      by repeat case_match.
Qed.

(** The two turns of a poll, or the error that cut it short. *)
Lemma poll_relay_inv cfg stats fuel now size a0 b0 s a b t s' a' b' t' r :
  relay_inv size a0 b0 s a b →
  poll_relay cfg stats fuel now s a b t = Some (s', a', b', t', r) →
  ∃ up down,
    relay_inv size a0 b0 (set_dirs up down s) a' b'
    ∧ (amt (a_to_b s) ≤ amt up)%Z ∧ (amt (b_to_a s) ≤ amt down)%Z
    ∧ ((∃ e, r = Ready (Err e) ∧ s' = set_dirs up down s ∧ t' = t)
       ∨ after_turns cfg stats now (amt (a_to_b s)) (amt (b_to_a s)) (set_dirs up down s) t
         = (s', t', r)).
Proof.
  intros (Hi1 & Hi2 & Hm1 & Hm2). unfold poll_relay, Directional.bytes_transferred.
  match goal with |- (?c ≫= _) = _ → _ => destruct c as [[[[up a1] b1] r1]|] eqn:Q1 end; [|done].
  cbn [mbind option_bind].
  destruct (turn_copied _ _ _ _ _ _ _ _ _ Hi1 Q1) as (Ii1 & Im1 & Hs1 & Hr1 & Ha1).
  assert (Hm2' : moved b0 a0 (b_to_a s) b1 a1) by (by eapply moved_frame).
  assert (Hup : (∃ e, r1 = Ready (Err e)) ∨ (∀ e, r1 ≠ Ready (Err e))).
  { destruct r1 as [[|e]|]; [right|left|right]; naive_solver. }
  destruct Hup as [[e ->]|Hup].
  { intros [= <- <- <- <- <-]. exists up, (b_to_a s). split_and!; [split_and!; auto|done..|eauto]. }
  intros Hrest.
  assert (Hrest' : ('(down, b2, a2, r2) ←
      (if Directional.is_done (b_to_a s) then Some (b_to_a s, b1, a1, Pending)
       else Directional.poll_copy fuel (b_to_a s) b1 a1);
    match r2 with
    | Ready (Err e) => Some (set_dirs up down s, a2, b2, t, Ready (Err e))
    | _ => let '(s', t', r) := after_turns cfg stats now (amt (a_to_b s)) (amt (b_to_a s))
                                 (set_dirs up down s) t in Some (s', a2, b2, t', r)
    end) = Some (s', a', b', t', r)).
  { destruct r1 as [[|e]|]; [exact Hrest|by destruct (Hup e)|exact Hrest]. }
  clear Hrest. revert Hrest'.
  match goal with |- (?c ≫= _) = _ → _ => destruct c as [[[[down b2] a2] r2]|] eqn:Q2 end; [|done].
  cbn [mbind option_bind].
  destruct (turn_copied _ _ _ _ _ _ _ _ _ Hi2 Q2) as (Ii2 & Im2 & Hs2 & Hr2 & Ha2).
  assert (Hri : relay_inv size a0 b0 (set_dirs up down s) a2 b2).
  { split_and!; auto. eapply moved_frame; [| |by apply Im1]; done. }
  destruct (after_turns _ _ _ _ _ _ _) as [[s3 t3] r3] eqn:Hat.
  destruct r2 as [[[]|e]|]; intros [= <- <- <- <- <-]; exists up, down; split_and!; eauto.
Qed.

Lemma poll_relay_spec cfg u fuel now size a0 b0 t0 s a b t s' a' b' t' r :
  relay_inv size a0 b0 s a b → accounted u t0 s t →
  poll_relay cfg (Some u) fuel now s a b t = Some (s', a', b', t', r) →
  relay_inv size a0 b0 s' a' b' ∧ accounted u t0 s' t'
  ∧ match r with Ready (Err _) => True | _ => settled_stats s' end
  ∧ (r = Ready (Ok Completed) →
     shutdown_done (a_to_b s') = true ∧ shutdown_done (b_to_a s') = true).
Proof.
  intros Hri Hac Hp.
  destruct (poll_relay_inv _ _ _ _ _ _ _ _ _ _ _ _ _ _ _ _ Hri Hp)
    as (up & down & Hri' & Hu & Hd & [(e & -> & -> & ->)|Hat]).
  - split_and!; try done. destruct Hac as (? & ? & ?). split; [done|]. simpl. lia.
  - assert (Hac' : accounted u t0 (set_dirs up down s) t).
    { destruct Hac as (? & ? & ?). split; [done|]. simpl. lia. }
    destruct (after_turns_spec _ _ _ _ _ _ _ _ _ _ _ Hac' Hat) as (? & ? & E1 & E2 & Hne & ?).
    split_and!; try done; [unfold relay_inv; rewrite E1, E2; exact Hri'|].
    destruct r as [[|e]|]; [done|by destruct (Hne e)|done].
Qed.

Lemma relay_run_spec cfg u schedule size a0 b0 t0 s a b t s' a' b' t' r :
  relay_inv size a0 b0 s a b → accounted u t0 s t → settled_stats s →
  relay_run cfg (Some u) schedule s a b t = Some (s', a', b', t', r) →
  relay_inv size a0 b0 s' a' b'
  ∧ (∀ v, uploaded v t' = (uploaded v t0 + if decide (u = v) then amt (a_to_b s') else 0)%Z
          ∧ downloaded v t' = (downloaded v t0 + if decide (u = v) then amt (b_to_a s') else 0)%Z
          ∧ requests v t' = requests v t0)
  ∧ match r with
    | Some (Ok res) =>
        res_a_to_b res = amt (a_to_b s') ∧ res_b_to_a res = amt (b_to_a s')
        ∧ (termination res = Completed →
           client_eof res = true ∧ remote_eof res = true
           ∧ unwritten (a_to_b s') = [] ∧ unwritten (b_to_a s') = [])
    | _ => True
    end.
Proof.
  revert s a b t. induction schedule as [|[fuel now] rest IH]; intros s a b t Hri Hac Hset;
    cbn [relay_run].
  { intros [= <- <- <- <- <-]. split_and!; [done| |done]. destruct Hset as [<- <-]. apply Hac. }
  destruct (poll_relay _ _ _ _ _ _ _ _) as [[[[[s1 a1] b1] t1] r1]|] eqn:Hp; [|done].
  cbn [mbind option_bind].
  destruct (poll_relay_spec _ _ _ _ _ _ _ _ _ _ _ _ _ _ _ _ _ Hri Hac Hp)
    as (Hri1 & Hac1 & Hset1 & Hcomp).
  destruct r1 as [r1|]; [|eauto].
  unfold relay_finish. destruct (report (Some u) s1 t1) as [s2 t2] eqn:Hrep.
  destruct (report_spec _ _ _ _ _ _ Hac1 Hrep) as ((Ht2 & _) & [E1 E2] & F1 & F2).
  intros [= <- <- <- <- <-]. rewrite E1, E2, F1, F2 in Ht2.
  split; [done|]. split; [exact Ht2|].
  destruct r1 as [term|e]; [|done]. simpl. split_and!; [done..|]. intros ->.
  destruct (Hcomp eq_refl) as [D1 D2].
  destruct Hri1 as ((_ & _ & _ & I1) & (_ & _ & _ & I2) & _).
  destruct (I1 D1), (I2 D2). split_and!; try done; apply unwritten_empty; lia.
Qed.

End relay_facts.

(** ** Termination of a poll *)

Section relay_total.
Context {A B T : Type} `{AsyncRead A, AsyncWrite A, !TracedStream A, !CoopStream A}.
Context `{AsyncRead B, AsyncWrite B, !TracedStream B, !CoopStream B}.
Context `{StatsCollector T}.

(** Enough fuel for one direction: its buffered bytes, for every read the reader
    may still answer with data a full buffer and the read itself, and the end of
    the stream. *)
Definition copy_fuel (d : DirectionalBuffer) (k : nat) : nat :=
  S ((if read_done d then 0 else 1) + (cap d - pos d) + k * (length (buf d) + 1)).

(** Steps 3 and 4 of a turn return if the next round of the loop does. *)
Lemma shutdown_or_read_total {R W} `{AsyncRead R, AsyncWrite R, !TracedStream R, !CoopStream R}
    `{AsyncRead W, AsyncWrite W, !TracedStream W, !CoopStream W} size fuel
    (again : DirectionalBuffer → R → W → option (DirectionalBuffer * R * W * poll (result unit io_error)))
    d (r : R) (w : W) :
  (∀ d r w, dir_inv size d → shutdown_done d = false → copy_fuel d (budget r) ≤ fuel →
     ∃ d' r' w' res, again d r w = Some (d', r', w', res) ∧ budget w' ≤ budget w ∧ budget r' ≤ budget r) →
  dir_inv size d → shutdown_done d = false → cap d ≤ pos d → copy_fuel d (budget r) ≤ S fuel →
  ∃ d' r' w' res, Directional.shutdown_or_read again d r w = Some (d', r', w', res)
                  ∧ budget w' ≤ budget w ∧ budget r' ≤ budget r.
Proof.
  intros IH Hinv Hs Hge Hf. unfold Directional.shutdown_or_read, copy_fuel in *.
  destruct (read_done d) eqn:Hrd.
  { pose proof (coop_shutdown w) as Hsh. destruct (poll_shutdown w) as [w2 [sr|]]; simpl in Hsh;
      eexists _, _, _, _; (split; [done|]; lia). }
  pose proof (coop_read (length (buf d)) r) as Hr. pose proof (read_law (length (buf d)) r) as Hrl.
  pose proof Hinv as (Hl & Hp & Hc & Hd).
  destruct (poll_read _ r) as [r1 [[[|b bs]|e]|]].
  3, 4: eexists _, _, _, _; (split; [done|]; lia).
  - destruct (IH (Directional.set_read_done d) r1 w) as (d' & r' & w' & res & -> & ? & ?).
    + split_and!; simpl; try done. congruence.
    + done.
    + cbn. nia.
    + eexists _, _, _, _. split; [done|]. lia.
  - destruct Hrl as (Hbs & _).
    destruct (unwritten_filled d size (b :: bs)) as [Hinv' _]; [done|done|lia|].
    destruct (IH (Directional.filled (b :: bs) d) r1 w) as (d' & r' & w' & res & -> & ? & ?).
    + done.
    + done.
    + assert (E : length (buf (Directional.filled (b :: bs) d)) = size) by apply Hinv'.
      rewrite E. cbn [cap pos read_done Directional.filled]. rewrite ?Hrd. nia.
    + eexists _, _, _, _. split; [done|]. lia.
Qed.

Lemma copy_loop_total {R W} `{AsyncRead R, AsyncWrite R, !TracedStream R, !CoopStream R}
    `{AsyncRead W, AsyncWrite W, !TracedStream W, !CoopStream W} size fuel d (r : R) (w : W) :
  dir_inv size d → shutdown_done d = false → copy_fuel d (budget r) ≤ fuel →
  ∃ d' r' w' res, Directional.copy_loop fuel d r w = Some (d', r', w', res)
                  ∧ budget w' ≤ budget w ∧ budget r' ≤ budget r.
Proof.
  unfold copy_fuel. revert d r w.
  induction fuel as [|fuel IH]; intros d r w Hinv Hs Hf; cbn [Directional.copy_loop]; [lia|].
  destruct (Nat.ltb_spec (pos d) (cap d)) as [Hlt|Hge].
  - rewrite (unwritten_slice _ _ Hinv). cbn [mbind option_bind].
    pose proof (write_law (unwritten d) w) as Hw. pose proof (coop_write (unwritten d) w) as Hb.
    destruct (poll_write (unwritten d) w) as [w1 [[[|n]|e]|]]; simpl in Hb; [by eauto 9| |by eauto 9|].
    + destruct (unwritten_wrote d size (S n) Hinv ltac:(apply Hw)) as [Hinv' _].
      destruct (IH (Directional.wrote (S n) d) r w1) as (d' & r' & w' & res & -> & ? & ?);
        [done|done|simpl; simpl in Hf; lia|].
      eexists _, _, _, _. split; [done|]. lia.
    + unfold Directional.probe_read. pose proof (coop_read (length (buf d) - cap d) r) as Hr.
      destruct (_ && _); [|by eauto 9].
      destruct (poll_read _ r) as [r1 [[[|b bs]|e]|]];
        (eexists _, _, _, _; split; [done|]; lia).
  - pose proof (coop_flush w) as Hb. destruct (poll_flush w) as [w1 fl]. simpl in Hb.
    assert (Hnext : ∀ d1, dir_inv size d1 → shutdown_done d1 = false → pos d1 = pos d → cap d1 = cap d →
      read_done d1 = read_done d →
      ∃ d' r' w' res, Directional.shutdown_or_read (Directional.copy_loop fuel) d1 r w1
        = Some (d', r', w', res) ∧ budget w' ≤ budget w ∧ budget r' ≤ budget r).
    { intros d1 Hi1 Hs1 Hp1 Hc1 Hd1.
      destruct (shutdown_or_read_total size fuel (Directional.copy_loop fuel) d1 r w1 IH)
        as (d' & r' & w' & res & -> & ? & ?); try done.
      - lia.
      - destruct Hinv as [Hl _], Hi1 as [Hl1 _]. unfold copy_fuel. rewrite Hl1, <- Hl, Hp1, Hc1, Hd1. lia.
      - eexists _, _, _, _. split; [done|]. lia. }
    destruct fl as [[[]|e]|]; [by apply Hnext| |by apply Hnext].
    eexists _, _, _, _. split; [done|]. lia.
Qed.

Lemma poll_copy_total {R W} `{AsyncRead R, AsyncWrite R, !TracedStream R, !CoopStream R}
    `{AsyncRead W, AsyncWrite W, !TracedStream W, !CoopStream W} size fuel d (r : R) (w : W) :
  dir_inv size d → copy_fuel d (budget r) ≤ fuel →
  ∃ d' r' w' res,
    (if Directional.is_done d then Some (d, r, w, Pending) else Directional.poll_copy fuel d r w)
    = Some (d', r', w', res) ∧ budget w' ≤ budget w ∧ budget r' ≤ budget r.
Proof.
  intros Hinv Hf. unfold Directional.is_done, Directional.poll_copy.
  destruct (shutdown_done d) eqn:Hs; [eauto 9|]. by eapply copy_loop_total.
Qed.

Lemma poll_relay_total cfg stats size fuel now s (a : A) (b : B) (t : T) :
  dir_inv size (a_to_b s) → dir_inv size (b_to_a s) →
  copy_fuel (a_to_b s) (budget a) ≤ fuel → copy_fuel (b_to_a s) (budget b) ≤ fuel →
  ∃ out, poll_relay cfg stats fuel now s a b t = Some out.
Proof.
  intros H1' H2' Hf1 Hf2. unfold poll_relay.
  destruct (poll_copy_total size fuel (a_to_b s) a b H1' Hf1)
    as (up & a1 & b1 & r1 & -> & Hb1 & Ha1). cbn [mbind option_bind].
  destruct (poll_copy_total size fuel (b_to_a s) b1 a1 H2')
    as (down & b2 & a2 & r2 & -> & Hb2 & Ha2).
  { unfold copy_fuel in *. nia. }
  cbn [mbind option_bind]. destruct (after_turns _ _ _ _ _ _ _) as [[s3 t3] r3].
  destruct r1 as [[|e]|]; eauto; destruct r2 as [[|e']|]; eauto.
Qed.

End relay_total.

(** ** Timers *)

Section relay_timers.
Context {A B T : Type} `{AsyncRead A, AsyncWrite A, !TracedStream A}.
Context `{AsyncRead B, AsyncWrite B, !TracedStream B}.
Context `{StatsCollector T}.

(** The time at which the relay gives up unless bytes flow. *)
Definition relay_deadline (s : relay_state) : Z :=
  if half_close_active s then Z.min (idle_deadline s) (half_close_deadline s) else idle_deadline s.

Lemma report_timers stats s (t : T) s' t' :
  report stats s t = (s', t') →
  a_to_b s' = a_to_b s ∧ b_to_a s' = b_to_a s ∧ relay_deadline s' = relay_deadline s
  ∧ half_close_active s' = half_close_active s.
Proof. unfold report. by destruct stats; intros [= <- <-]. Qed.

(** Opening the half-close window never postpones the idle deadline. *)
Lemma open_half_close_deadline cfg now s :
  (relay_deadline (open_half_close cfg now s) ≤ idle_deadline s)%Z
  ∧ (half_close_active s = true → open_half_close cfg now s = s)
  ∧ (half_close_active (open_half_close cfg now s) = false → open_half_close cfg now s = s).
Proof.
  unfold open_half_close, relay_deadline. destruct (half_close_active s) eqn:Ha.
  - rewrite !andb_false_r. rewrite Ha, andb_false_r, Ha. split_and!; try done. lia.
  - rewrite !andb_true_r.
    destruct (Directional.is_drained (a_to_b s) && negb (Directional.is_done (b_to_a s))); simpl.
    + rewrite andb_false_r. simpl. split_and!; try done. lia.
    + rewrite Ha, andb_true_r.
      destruct (Directional.is_drained (b_to_a s) && negb (Directional.is_done (a_to_b s)));
        simpl; rewrite ?Ha; split_and!; try done; lia.
Qed.

(** Without new bytes a poll that stays pending happened before the deadline,
    and did not postpone it. *)
Lemma after_turns_pending cfg stats now x y s (t : T) s' t' :
  amt (a_to_b s) = x → amt (b_to_a s) = y →
  after_turns cfg stats now x y s t = (s', t', Pending) →
  (now < relay_deadline s')%Z ∧ (relay_deadline s' ≤ relay_deadline s)%Z.
Proof.
  intros <- <-. unfold after_turns, Directional.bytes_transferred. rewrite !Z.ltb_irrefl. simpl.
  destruct (report _ _ _) as [s2 t2] eqn:Hrep.
  destruct (report_timers _ _ _ _ _ Hrep) as (E1 & E2 & E3 & E4).
  destruct (open_half_close_deadline cfg now s) as (Hd & Hact & Hina).
  intros [= <- <- Hr]. destruct (_ && _) in Hr; [done|].
  split.
  - unfold relay_deadline. destruct (half_close_active s2); simpl in Hr;
      [destruct (Z.leb_spec (half_close_deadline s2) now); [done|]|];
      destruct (Z.leb_spec (idle_deadline s2) now); (done || lia).
  - rewrite E3. destruct (half_close_active s) eqn:Ha; [by rewrite Hact|].
    unfold relay_deadline at 2. by rewrite Ha.
Qed.

Lemma after_turns_dirs cfg stats now x y s (t : T) s' t' r :
  after_turns cfg stats now x y s t = (s', t', r) → a_to_b s' = a_to_b s ∧ b_to_a s' = b_to_a s.
Proof.
  unfold after_turns. destruct (report _ _ _) as [s2 t2] eqn:Hrep.
  destruct (report_timers _ _ _ _ _ Hrep) as (E1 & E2 & _).
  destruct (open_half_close_dirs cfg now s) as (F1 & F2 & _).
  match goal with |- context [restart_timers cfg now ?p s2] =>
    destruct (restart_timers_dirs cfg now p s2) as (G1 & G2 & _);
    set (s3 := restart_timers _ _ p _) in * end.
  intros [= <- _ _]. split; congruence.
Qed.

Lemma poll_relay_keeps cfg stats fuel now size a0 b0 s (a : A) (b : B) (t : T) s' a' b' t' r :
  relay_inv size a0 b0 s a b →
  poll_relay cfg stats fuel now s a b t = Some (s', a', b', t', r) →
  relay_inv size a0 b0 s' a' b'
  ∧ (amt (a_to_b s) ≤ amt (a_to_b s'))%Z ∧ (amt (b_to_a s) ≤ amt (b_to_a s'))%Z.
Proof.
  intros Hri Hp.
  destruct (poll_relay_inv _ _ _ _ _ _ _ _ _ _ _ _ _ _ _ _ Hri Hp)
    as (up & down & Hri1 & Hu & Hd & [(e & -> & -> & ->)|Hat]); [done|].
  destruct (after_turns_dirs _ _ _ _ _ _ _ _ _ _ Hat) as [E1 E2].
  unfold relay_inv. by rewrite E1, E2.
Qed.

Lemma relay_run_amt cfg stats schedule size a0 b0 s (a : A) (b : B) (t : T) s' a' b' t' r :
  relay_inv size a0 b0 s a b →
  relay_run cfg stats schedule s a b t = Some (s', a', b', t', r) →
  relay_inv size a0 b0 s' a' b'
  ∧ (amt (a_to_b s) ≤ amt (a_to_b s'))%Z ∧ (amt (b_to_a s) ≤ amt (b_to_a s'))%Z.
Proof.
  revert s a b t. induction schedule as [|[fuel now] rest IH]; intros s a b t Hri; cbn [relay_run].
  { intros [= <- <- <- <- <-]. done. }
  destruct (poll_relay _ _ _ _ _ _ _ _) as [[[[[s1 a1] b1] t1] r1]|] eqn:Hp; [|done].
  cbn [mbind option_bind].
  destruct (poll_relay_keeps _ _ _ _ _ _ _ _ _ _ _ _ _ _ _ _ Hri Hp) as (Hri2 & Hu & Hd).
  destruct r1 as [r1|].
  - destruct (relay_finish _ _ _ _). intros [= <- <- <- <- <-]. done.
  - intros Hrun. destruct (IH _ _ _ _ Hri2 Hrun) as (? & ? & ?). split; [done|lia].
Qed.

(** A poll without new bytes ends the relay once the deadline has passed. *)
Lemma poll_relay_idle cfg stats fuel now size a0 b0 s (a : A) (b : B) (t : T) s' a' b' t' :
  relay_inv size a0 b0 s a b →
  poll_relay cfg stats fuel now s a b t = Some (s', a', b', t', Pending) →
  amt (a_to_b s') = amt (a_to_b s) → amt (b_to_a s') = amt (b_to_a s) →
  (now < relay_deadline s)%Z ∧ (relay_deadline s' ≤ relay_deadline s)%Z.
Proof.
  intros Hri Hp Ha Hb.
  destruct (poll_relay_inv _ _ _ _ _ _ _ _ _ _ _ _ _ _ _ _ Hri Hp)
    as (up & down & _ & _ & _ & [(e & [=] & _)|Hat]).
  destruct (after_turns_dirs _ _ _ _ _ _ _ _ _ _ Hat) as [E1 E2]. rewrite E1 in Ha. rewrite E2 in Hb.
  destruct (after_turns_pending _ _ _ _ _ _ _ _ _ Ha Hb Hat) as [Hlt Hle].
  change (relay_deadline (set_dirs up down s)) with (relay_deadline s) in Hle. lia.
Qed.

Lemma relay_run_idle cfg stats schedule size a0 b0 s (a : A) (b : B) (t : T) s' a' b' t' r fuel now :
  relay_inv size a0 b0 s a b →
  relay_run cfg stats schedule s a b t = Some (s', a', b', t', r) →
  amt (a_to_b s') = amt (a_to_b s) → amt (b_to_a s') = amt (b_to_a s) →
  (fuel, now) ∈ schedule → (relay_deadline s ≤ now)%Z → r ≠ None.
Proof.
  revert s a b t. induction schedule as [|[f n] rest IH]; intros s a b t Hri; cbn [relay_run].
  { intros _ _ _ Hin. by apply not_elem_of_nil in Hin. }
  destruct (poll_relay _ _ _ _ _ _ _ _) as [[[[[s1 a1] b1] t1] r1]|] eqn:Hp; [|done].
  cbn [mbind option_bind].
  destruct (poll_relay_keeps _ _ _ _ _ _ _ _ _ _ _ _ _ _ _ _ Hri Hp) as (Hri1 & Hu & Hd).
  destruct r1 as [r1|]; [by destruct (relay_finish _ _ _ _); intros [= <- <- <- <- <-]|].
  intros Hrun Ha Hb Hin Hdl. destruct (relay_run_amt _ _ _ _ _ _ _ _ _ _ _ _ _ _ _ Hri1 Hrun) as (_ & ? & ?).
  destruct (poll_relay_idle _ _ _ _ _ _ _ _ _ _ _ _ _ _ _ Hri Hp) as [Hlt Hle]; [lia..|].
  apply elem_of_cons in Hin as [[= <- <-]|Hin]; [lia|].
  eapply IH; [exact Hri1|exact Hrun|lia|lia|exact Hin|lia].
Qed.

End relay_timers.

(** ** Properties *)

(** C5: The relay neither loses, reorders, duplicates nor invents data, in
    either direction, for any pair of streams and any schedule of polls, ended
    or dropped at any point.  What the remote was sent is a prefix of what the
    client delivered, the rest is exactly the unwritten part of the buffer; and
    when the relay reports [Completed], both ends have reached EOF and
    everything delivered has been written. *)
Theorem relay_data_integrity {A B T : Type}
    `{AsyncRead A, AsyncWrite A, !TracedStream A, AsyncRead B, AsyncWrite B, !TracedStream B}
    `{StatsCollector T, !StatsLaws T} cfg u start schedule (a : A) (b : B) (t : T) s' a' b' t' r :
  copy_bidirectional_with_stats cfg (Some u) start schedule a b t = Some (s', a', b', t', r) →
  ∃ up down,
    sent b' = sent b ++ up ∧ received a' = received a ++ up ++ unwritten (a_to_b s')
    ∧ sent a' = sent a ++ down ∧ received b' = received b ++ down ++ unwritten (b_to_a s')
    ∧ match r with
      | Some (Ok res) =>
          res_a_to_b res = Z.of_nat (length up) ∧ res_b_to_a res = Z.of_nat (length down)
          ∧ (termination res = Completed →
             client_eof res = true ∧ remote_eof res = true
             ∧ received a' = received a ++ up ∧ received b' = received b ++ down)
      | _ => True
      end.
Proof.
  intros Hrun. destruct (relay_start_accounted cfg start u t) as [Hac Hset].
  destruct (relay_run_spec _ _ _ _ _ _ _ _ _ _ _ _ _ _ _ _ (relay_start_inv cfg start a b) Hac Hset Hrun)
    as ((_ & _ & (up & Hb & Ha & Hn) & (down & Ha' & Hb' & Hn')) & _ & Hr).
  exists up, down. split_and!; try done. destruct r as [[res|e]|]; try done.
  destruct Hr as (-> & -> & Hcomp). split_and!; try done.
  intros Hc. destruct (Hcomp Hc) as (? & ? & Hu & Hd). rewrite Ha, Hb', Hu, Hd, !app_nil_r. done.
Qed.

(** C6: Traffic accounting is exact however the relay ends, including when its
    future is dropped by a kick or a shutdown: the collector has been given, for
    this user, exactly the bytes written to the remote and to the client, and
    nothing for any other user. *)
Theorem relay_accounting_exact {A B T : Type}
    `{AsyncRead A, AsyncWrite A, !TracedStream A, AsyncRead B, AsyncWrite B, !TracedStream B}
    `{StatsCollector T, !StatsLaws T} cfg u start schedule (a : A) (b : B) (t : T) s' a' b' t' r :
  copy_bidirectional_with_stats cfg (Some u) start schedule a b t = Some (s', a', b', t', r) →
  ∀ v,
    uploaded v t' = (uploaded v t + if decide (u = v)
                                    then Z.of_nat (length (sent b')) - Z.of_nat (length (sent b)) else 0)%Z
    ∧ downloaded v t' = (downloaded v t + if decide (u = v)
                                          then Z.of_nat (length (sent a')) - Z.of_nat (length (sent a)) else 0)%Z
    ∧ requests v t' = requests v t.
Proof.
  intros Hrun v. destruct (relay_start_accounted cfg start u t) as [Hac Hset].
  destruct (relay_run_spec _ _ _ _ _ _ _ _ _ _ _ _ _ _ _ _ (relay_start_inv cfg start a b) Hac Hset Hrun)
    as ((_ & _ & (up & Hb & _ & Hn) & (down & Ha & _ & Hn')) & Ht & _).
  destruct (Ht v) as (-> & -> & ->). rewrite Hb, Ha, !length_app. case_decide; lia.
Qed.

(** C29: Every poll of the relay returns: from the state after any schedule, for
    streams that obey tokio's cooperative budget, there is an amount of work
    after which the poll has an outcome, and no buffer access is out of range. *)
Theorem relay_poll_terminates {A B T : Type}
    `{AsyncRead A, AsyncWrite A, !TracedStream A, !CoopStream A}
    `{AsyncRead B, AsyncWrite B, !TracedStream B, !CoopStream B}
    `{StatsCollector T} cfg stats start schedule (a : A) (b : B) (t : T) s' a' b' t' :
  copy_bidirectional_with_stats cfg stats start schedule a b t = Some (s', a', b', t', None) →
  ∀ fuel now,
    copy_fuel (a_to_b s') (budget a') `max` copy_fuel (b_to_a s') (budget b') ≤ fuel →
    ∃ out, poll_relay cfg stats fuel now s' a' b' t' = Some out.
Proof.
  intros Hrun fuel now Hf.
  destruct (relay_run_amt _ _ _ _ _ _ _ _ _ _ _ _ _ _ _ (relay_start_inv cfg start a b) Hrun)
    as ((Hi1 & Hi2 & _) & _).
  eapply poll_relay_total; [exact Hi1|exact Hi2|lia|lia].
Qed.

(** C30: No zombie sessions: if no byte is transferred in either direction, the
    first poll at or after [idle_timeout_secs] from the start ends the relay,
    whatever the streams do and whether or not a half-close window was opened
    in between. *)
Theorem relay_idle_terminates {A B T : Type}
    `{AsyncRead A, AsyncWrite A, !TracedStream A, AsyncRead B, AsyncWrite B, !TracedStream B}
    `{StatsCollector T} cfg stats start schedule (a : A) (b : B) (t : T) s' a' b' t' r fuel now :
  copy_bidirectional_with_stats cfg stats start schedule a b t = Some (s', a', b', t', r) →
  amt (a_to_b s') = 0%Z → amt (b_to_a s') = 0%Z →
  (fuel, now) ∈ schedule → (start + millis (idle_timeout_secs cfg) ≤ now)%Z →
  r ≠ None.
Proof.
  intros Hrun Ha Hb Hin Hnow.
  by eapply (relay_run_idle _ _ _ _ _ _ _ _ _ _ _ _ _ _ _ _ _ (relay_start_inv cfg start a b) Hrun).
Qed.

(** C31: After the client has closed and its upload has been drained, the
    remaining download gets [downlink_only_secs]; after the remote has closed,
    the remaining upload gets [uplink_only_secs] (the reverse of what the
    configuration's documentation says). *)
Theorem relay_half_close_window {A B T : Type}
    `{AsyncRead A, AsyncWrite A, !TracedStream A, AsyncRead B, AsyncWrite B, !TracedStream B}
    `{StatsCollector T} cfg stats start schedule fuel now (a : A) (b : B) (t : T)
    s1 a1 b1 t1 s' a' b' t' :
  copy_bidirectional_with_stats cfg stats start schedule a b t = Some (s1, a1, b1, t1, None) →
  poll_relay cfg stats fuel now s1 a1 b1 t1 = Some (s', a', b', t', Pending) →
  half_close_active s1 = false →
  (Directional.is_drained (a_to_b s') = true → Directional.is_done (b_to_a s') = false →
   half_close_active s' = true ∧ half_close_deadline s' = (now + millis (downlink_only_secs cfg))%Z)
  ∧ (Directional.is_drained (a_to_b s') = false → Directional.is_drained (b_to_a s') = true →
     half_close_active s' = true ∧ half_close_deadline s' = (now + millis (uplink_only_secs cfg))%Z).
Proof.
  intros Hrun Hp Hact.
  destruct (relay_run_amt _ _ _ _ _ _ _ _ _ _ _ _ _ _ _ (relay_start_inv cfg start a b) Hrun)
    as (Hri & _).
  destruct (poll_relay_inv _ _ _ _ _ _ _ _ _ _ _ _ _ _ _ _ Hri Hp)
    as (up & down & (Hi1 & _) & _ & _ & [(e & [=] & _)|Hat]).
  destruct (after_turns_dirs _ _ _ _ _ _ _ _ _ _ Hat) as [-> ->].
  revert Hat. unfold after_turns. destruct (report _ _ _) as [s2 t2] eqn:Hrep.
  assert (Hs2 : half_close_active s2 = half_close_active (open_half_close cfg now (set_dirs up down s1))
    ∧ half_close_timeout s2 = half_close_timeout (open_half_close cfg now (set_dirs up down s1))
    ∧ half_close_deadline s2 = half_close_deadline (open_half_close cfg now (set_dirs up down s1))).
  { revert Hrep. unfold report. by destruct stats; intros [= <- <-]. }
  destruct Hs2 as (Ea & Et & Ed). intros [= <- _ _]. simpl in *.
  assert (Hdone : Directional.is_drained up = false → Directional.is_done up = false).
  { unfold Directional.is_drained, Directional.is_done. destruct Hi1 as (_ & _ & _ & Hd). simpl in Hd.
    destruct (shutdown_done up); [|done]. destruct (Hd eq_refl) as [-> ->].
    by rewrite Nat.leb_refl. }
  unfold open_half_close in Ea, Et, Ed. simpl in Ea, Et, Ed. rewrite Hact in Ea, Et, Ed.
  split.
  - intros Hdr Hnd. rewrite Hdr, Hnd in Ea, Et, Ed. simpl in Ea, Et, Ed.
    rewrite andb_false_r in Ea, Et, Ed. simpl in Ea, Et, Ed.
    unfold restart_timers. case_match; simpl; rewrite Ea; [|done]. by rewrite Et.
  - intros Hdr Hdr2. rewrite Hdr in Ea, Et, Ed. simpl in Ea, Et, Ed.
    rewrite Hdr2, (Hdone Hdr), Hact in Ea, Et, Ed. simpl in Ea, Et, Ed.
    unfold restart_timers. case_match; simpl; rewrite Ea; [|done]. by rewrite Et.
Qed.

(** ** A concrete session *)

Module SampleRelay.

Definition cfg : relay_config := MkRelayConfig 5 2 3 8.
Definition eof : poll (result (list byte) io_error) := Ready (Ok []).
Definition data (s : string) : poll (result (list byte) io_error) := Ready (Ok (as_bytes s)).
Definition stream (rs : list (poll (result (list byte) io_error)))
    (ws : list (poll (result nat io_error))) : Logged Scripted :=
  MkLogged (MkScripted rs ws false) [] [].
Definition counters : Counters := λ _, (0, 0, 0)%Z.

(** A request and its answer, with a short and a blocked write in between. *)
Abbreviation session :=
  (copy_bidirectional_with_stats cfg (Some 7%Z) 0 [(60, 0%Z); (60, 10%Z)]
    (stream [data "GET /"; eof] []) (stream [data "200"; data " OK"; eof] [Ready (Ok 2); Pending])
    counters).

(** Two silent peers, polled at the given times. *)
Abbreviation silence schedule :=
  (copy_bidirectional_with_stats cfg (Some 7%Z) 0 schedule (stream [] []) (stream [] []) counters).

(** The client closes after the first poll, the remote stays open. *)
Abbreviation half_closed :=
  (copy_bidirectional_with_stats cfg (Some 7%Z) 0 [(60, 0%Z)]
    (stream [Pending; eof] []) (stream [] []) counters).

End SampleRelay.

Lemma relay_data_integrity_witness :
  match SampleRelay.session with
  | Some (s', a', b', t', Some (Ok res)) =>
      sent b' = as_bytes "GET /" ∧ sent a' = as_bytes "200 OK"
      ∧ ∃ up down, sent b' = [] ++ up ∧ received a' = [] ++ up ++ unwritten (a_to_b s')
                   ∧ sent a' = [] ++ down ∧ received b' = [] ++ down ++ unwritten (b_to_a s')
  | _ => False
  end.
Proof.
  assert (Hok : match SampleRelay.session with
                | Some (_, a', b', _, Some (Ok _)) => Some (sent b', sent a')
                | _ => None
                end = Some (as_bytes "GET /", as_bytes "200 OK")) by (vm_compute; reflexivity).
  destruct SampleRelay.session as [[[[[s' a'] b'] t'] [[res|e]|]]|] eqn:E; try discriminate Hok.
  destruct (relay_data_integrity _ _ _ _ _ _ _ _ _ _ _ _ E) as (up & down & H1 & H2 & H3 & H4 & _).
  injection Hok as Hb Ha. split; [exact Hb|]. split; [exact Ha|].
  exists up, down. split; [exact H1|]. split; [exact H2|]. split; [exact H3|exact H4].
Defined.

Lemma relay_accounting_exact_witness :
  match SampleRelay.session with
  | Some (s', a', b', t', _) => uploaded 7%Z t' = 5%Z ∧ downloaded 7%Z t' = 6%Z
  | None => False
  end.
Proof.
  assert (Hok : match SampleRelay.session with
                | Some (_, a', b', _, _) => Some (length (sent b'), length (sent a'))
                | _ => None
                end = Some (5, 6)) by (vm_compute; reflexivity).
  destruct SampleRelay.session as [[[[[s' a'] b'] t'] r]|] eqn:E; try discriminate Hok.
  destruct (relay_accounting_exact _ _ _ _ _ _ _ _ _ _ _ _ E 7%Z) as (Hu & Hd & _).
  injection Hok as Hb Ha. cbn [sent logged_traced] in Hu, Hd. rewrite Hu, Hd, Hb, Ha.
  split; reflexivity.
Defined.

Lemma relay_poll_terminates_witness :
  match SampleRelay.silence [(60, 0%Z)] with
  | Some (s', a', b', t', None) =>
      ∃ out, poll_relay SampleRelay.cfg (Some 7%Z) 2 20%Z s' a' b' t' = Some out
  | _ => False
  end.
Proof.
  assert (Hok : match SampleRelay.silence [(60, 0%Z)] with
                | Some (s', a', b', _, None) =>
                    copy_fuel (a_to_b s') (budget a') `max` copy_fuel (b_to_a s') (budget b') <=? 2
                | _ => false
                end = true) by (vm_compute; reflexivity).
  destruct (copy_bidirectional_with_stats _ _ _ _ _ _ _) as [[[[[s' a'] b'] t'] [r|]]|] eqn:E; try discriminate Hok.
  apply (relay_poll_terminates _ _ _ _ _ _ _ _ _ _ _ E 2 20%Z). apply Nat.leb_le. exact Hok.
Defined.

Lemma relay_idle_terminates_witness :
  match SampleRelay.silence [(60, 0%Z); (60, 5000%Z)] with
  | Some (s', a', b', t', r) => r ≠ None
  | None => False
  end.
Proof.
  assert (Hok : match SampleRelay.silence [(60, 0%Z); (60, 5000%Z)] with
                | Some (s', _, _, _, _) => Some (amt (a_to_b s'), amt (b_to_a s'))
                | _ => None
                end = Some (0%Z, 0%Z)) by (vm_compute; reflexivity).
  destruct (copy_bidirectional_with_stats _ _ _ _ _ _ _) as [[[[[s' a'] b'] t'] r]|] eqn:E; try discriminate Hok.
  injection Hok as Ha Hb.
  apply (relay_idle_terminates _ _ _ _ _ _ _ _ _ _ _ _ 60 5000%Z E Ha Hb).
  - apply elem_of_cons. right. apply elem_of_cons. left. reflexivity.
  - vm_compute. discriminate.
Defined.

Lemma relay_half_close_window_witness :
  match SampleRelay.half_closed with
  | Some (s1, a1, b1, t1, None) =>
      match poll_relay SampleRelay.cfg (Some 7%Z) 60 100%Z s1 a1 b1 t1 with
      | Some (s', a', b', t', Pending) => half_close_deadline s' = 3100%Z
      | _ => False
      end
  | _ => False
  end.
Proof.
  assert (Hok : match SampleRelay.half_closed with
                | Some (s1, a1, b1, t1, None) =>
                    match poll_relay SampleRelay.cfg (Some 7%Z) 60 100%Z s1 a1 b1 t1 with
                    | Some (s', _, _, _, Pending) =>
                        Some (half_close_active s1, Directional.is_drained (a_to_b s'),
                              Directional.is_done (b_to_a s'))
                    | _ => None
                    end
                | _ => None
                end = Some (false, true, false)) by (vm_compute; reflexivity).
  destruct SampleRelay.half_closed as [[[[[s1 a1] b1] t1] [r|]]|] eqn:E; try discriminate Hok.
  destruct (poll_relay _ _ _ _ _ _ _ _) as [[[[[s' a'] b'] t'] [r'|]]|] eqn:Ep; try discriminate Hok.
  injection Hok as H1 H2 H3.
  apply (relay_half_close_window _ _ _ _ _ _ _ _ _ _ _ _ _ _ _ _ _ E Ep H1); assumption.
Defined.
