(* ===== verification/RelayLive.v ===== *)
(** * A relay that waits is blocked

    [src/src/core/relay.rs]: a poll of the relay that returns [Pending] has left
    nothing undone.  Each direction that is not finished ends its turn with a
    poll that was refused, which is where its waker is registered. *)

From S2P Require Import Prelude RustStd Hooks AsyncIo Relay.

(** What a direction may be waiting for after its turn. *)
Inductive waiting {R W} `{AsyncRead R, AsyncWrite W} (d : DirectionalBuffer) (r : R) (w : W) : Prop :=
| waits_write chunk w0 :
    pos d < cap d → chunk ≠ [] → poll_write chunk w0 = (w, Pending) → waiting d r w
| waits_read r0 :
    cap d ≤ pos d → read_done d = false → poll_read (length (buf d)) r0 = (r, Pending) → waiting d r w
| waits_shutdown w0 :
    cap d ≤ pos d → read_done d = true → poll_shutdown w0 = (w, Pending) → waiting d r w
| waits_nothing : shutdown_done d = true → waiting d r w.

Section waiting.
Context {R W : Type} `{AsyncRead R, AsyncWrite W}.

Lemma probe_read_waits d (r : R) (w : W) d' r' w' chunk w0 :
  pos d < cap d → chunk ≠ [] → poll_write chunk w0 = (w, Pending) →
  Directional.probe_read d r w = (d', r', w', Pending) → waiting d' r' w'.
Proof.
  intros Hlt Hc Hw. unfold Directional.probe_read.
  destruct (negb (read_done d) && _).
  - destruct (poll_read _ r) as [r1 [[[|x bs]|e]|]]; intros [= <- <- <-];
      (apply (waits_write _ _ _ chunk w0); [cbn; lia|done..]).
  - intros [= <- <- <-]. by apply (waits_write _ _ _ chunk w0).
Qed.

Lemma copy_loop_waits fuel d (r : R) (w : W) d' r' w' :
  Directional.copy_loop fuel d r w = Some (d', r', w', Pending) → waiting d' r' w'.
Proof.
  revert d r w. induction fuel as [|fuel IH]; intros d r w; cbn [Directional.copy_loop]; [done|].
  destruct (Nat.ltb_spec (pos d) (cap d)) as [Hlt|Hge].
  - destruct (slice (buf d) (pos d) (cap d)) as [chunk|] eqn:Hs; [|done]. cbn [mbind option_bind].
    destruct (poll_write chunk w) as [w1 [[[|n]|e]|]] eqn:Hw; [done|by apply IH|done|].
    intros [= Hp]. eapply probe_read_waits; [exact Hlt| |exact Hw|exact Hp].
    intros ->. unfold slice in Hs. case_decide as Hb; [|done]. injection Hs as Hnil%(f_equal length).
    rewrite length_take, length_drop in Hnil. cbn in Hnil. lia.
  - assert (Hgo : ∀ d1 w1, pos d1 = pos d → cap d1 = cap d →
      Directional.shutdown_or_read (Directional.copy_loop fuel) d1 r w1 = Some (d', r', w', Pending) →
      waiting d' r' w').
    { intros d1 w1 Hp Hcap. unfold Directional.shutdown_or_read. destruct (read_done d1) eqn:Hd.
      - destruct (poll_shutdown w1) as [w2 [x|]] eqn:Hw; [done|]. intros [= <- <- <-].
        apply (waits_shutdown _ _ _ w1); [lia|done..].
      - destruct (poll_read (length (buf d1)) r) as [r1 [[[|x bs]|e]|]] eqn:Hr; [by apply IH..|done|].
        intros [= <- <- <-]. apply (waits_read _ _ _ r); [lia|done..]. }
    destruct (poll_flush w) as [w1 [[x|e]|]]; [by apply Hgo|done|by apply Hgo].
Qed.

Lemma poll_copy_waits fuel d (r : R) (w : W) d' r' w' :
  Directional.poll_copy fuel d r w = Some (d', r', w', Pending) → waiting d' r' w'.
Proof.
  unfold Directional.poll_copy. destruct (shutdown_done d); [done|]. apply copy_loop_waits.
Qed.

(** A copy that succeeds has shut its writer down. *)
Lemma copy_loop_done fuel d (r : R) (w : W) d' r' w' x :
  Directional.copy_loop fuel d r w = Some (d', r', w', Ready (Ok x)) → shutdown_done d' = true.
Proof.
  revert d r w. induction fuel as [|fuel IH]; intros d r w; cbn [Directional.copy_loop]; [done|].
  destruct (pos d <? cap d).
  - destruct (slice (buf d) (pos d) (cap d)) as [chunk|]; [|done]. cbn [mbind option_bind].
    destruct (poll_write chunk w) as [w1 [[[|n]|e]|]]; [done|by apply IH|done|].
    unfold Directional.probe_read. intros Hp. destruct (negb (read_done d) && _); [|done].
    by destruct (poll_read _ r) as [r1 [[[|y bs]|e]|]].
  - assert (Hgo : ∀ d1 w1,
      Directional.shutdown_or_read (Directional.copy_loop fuel) d1 r w1 = Some (d', r', w', Ready (Ok x)) →
      shutdown_done d' = true).
    { intros d1 w1. unfold Directional.shutdown_or_read. destruct (read_done d1).
      - destruct (poll_shutdown w1) as [w2 [y|]]; [by intros [= <- _ _]|done].
      - destruct (poll_read (length (buf d1)) r) as [r1 [[[|y bs]|e]|]]; [by apply IH..|done|done]. }
    destruct (poll_flush w) as [w1 [[y|e]|]]; [by apply Hgo|done|by apply Hgo].
Qed.

(** The turn of one direction within a poll of the relay. *)
Lemma turn_waits fuel d (r : R) (w : W) d' r' w' res :
  (if Directional.is_done d then Some (d, r, w, Pending) else Directional.poll_copy fuel d r w)
    = Some (d', r', w', res) →
  (∀ e, res ≠ Ready (Err e)) → waiting d' r' w'.
Proof.
  unfold Directional.is_done. destruct (shutdown_done d) eqn:Hd.
  { intros [= <- <- <- _] _. by apply waits_nothing. }
  destruct res as [[x|e]|]; intros Hp Hne; [|by destruct (Hne e)|by eapply poll_copy_waits].
  apply waits_nothing. revert Hp. unfold Directional.poll_copy. rewrite Hd. apply copy_loop_done.
Qed.

End waiting.

Lemma ready_err {X} (r : poll (result X io_error)) :
  (∃ e, r = Ready (Err e)) ∨ ∀ e, r ≠ Ready (Err e).
Proof. destruct r as [[x|e]|]; eauto. Qed.

(** A verdict of [Pending] leaves every deadline ahead. *)
Lemma after_turns_ahead {T} `{StatsCollector T} cfg stats now x y s (t : T) s' t' :
  after_turns cfg stats now x y s t = (s', t', Pending) →
  (now < idle_deadline s')%Z ∧ (half_close_active s' = true → (now < half_close_deadline s')%Z).
Proof.
  unfold after_turns. destruct (report stats (open_half_close cfg now s) t) as [s2 t2].
  match goal with |- context [restart_timers ?c ?n ?p ?s] => set (s3 := restart_timers c n p s) end.
  intros [= <- _ Hr]. destruct (Directional.is_done (a_to_b s3) && _) in Hr; [done|].
  destruct (half_close_active s3 && (half_close_deadline s3 <=? now)%Z) eqn:Hh; [done|].
  destruct (Z.leb_spec (idle_deadline s3) now); [done|]. split; [done|].
  intros Ha. rewrite Ha in Hh. by apply Z.leb_gt in Hh.
Qed.

(** C40: a relay that waits is blocked, never stalled.  If a poll of the relay
    returns [Pending], each direction has either finished, or ended its turn with
    a poll that the streams refused: a write of buffered data, a read with
    everything written, or the shutdown after the end of the input; and the idle
    deadline, and that of an open half-close window, lie ahead, so that the timer
    wakes the relay if the streams never do. *)
Theorem relay_waits_blocked {A B T : Type} `{AsyncRead A, AsyncWrite A, AsyncRead B, AsyncWrite B}
    `{StatsCollector T} cfg stats fuel now s (a : A) (b : B) (t : T) s' a' b' t' :
  poll_relay cfg stats fuel now s a b t = Some (s', a', b', t', Pending) →
  (∃ (a1 : A) (b1 : B), waiting (a_to_b s') a1 b1) ∧ waiting (b_to_a s') b' a'
  ∧ (now < idle_deadline s')%Z ∧ (half_close_active s' = true → (now < half_close_deadline s')%Z).
Proof.
  unfold poll_relay.
  destruct (if Directional.is_done (a_to_b s) then _ else _) as [[[[up a1] b1] r1]|] eqn:Hup; [|done].
  cbn [mbind option_bind]. destruct (ready_err r1) as [[e ->]|Hr1]; [done|].
  apply turn_waits in Hup; [|done].
  destruct (if Directional.is_done (b_to_a s) then _ else _) as [[[[down b2] a2] r2]|] eqn:Hdown.
  2:{ by destruct r1 as [[]|]. }
  cbn [mbind option_bind]. destruct (ready_err r2) as [[e ->]|Hr2]; [by destruct r1 as [[]|]|].
  apply turn_waits in Hdown; [|done].
  destruct (after_turns _ _ _ _ _ _ _) as [[s2 t2] r] eqn:Hat. intros Hres.
  assert (Some (s2, a2, b2, t2, r) = Some (s', a', b', t', Pending)) as Hres'
    by (destruct r1 as [[?|e]|]; [|by destruct (Hr1 e)|]; destruct r2 as [[?|e2]|];
        first [done|by destruct (Hr2 e2)]).
  injection Hres' as -> -> -> -> ->.
  destruct (after_turns_dirs _ _ _ _ _ _ _ _ _ _ Hat) as [E1 E2]. cbn in E1, E2. rewrite E1, E2.
  split; [eauto|]. split; [done|]. by apply after_turns_ahead in Hat.
Qed.

(** Two silent peers: both directions wait for a read, the timer for the idle
    deadline. *)
Lemma relay_waits_blocked_witness :
  match poll_relay SampleRelay.cfg (Some 7%Z) 60 0 (relay_start SampleRelay.cfg 0)
          (SampleRelay.stream [] []) (SampleRelay.stream [] []) SampleRelay.counters with
  | Some (s', a', b', t', Pending) =>
      idle_deadline s' = 5000%Z ∧ waiting (b_to_a s') b' a' ∧ (0 < idle_deadline s')%Z
  | _ => False
  end.
Proof.
  destruct (poll_relay SampleRelay.cfg (Some 7%Z) 60 0 (relay_start SampleRelay.cfg 0)
          (SampleRelay.stream [] []) (SampleRelay.stream [] []) SampleRelay.counters)
    as [[[[[s' a'] b'] t'] [r|]]|] eqn:E; [discriminate E| |discriminate E].
  destruct (relay_waits_blocked _ _ _ _ _ _ _ _ _ _ _ _ E) as (_ & Hw & Hi & _).
  split; [|split; [exact Hw|exact Hi]]. injection E as <- _ _ _. reflexivity.
Defined.
