(* ===== verification/Logger.v ===== *)
(** * Log levels ([src/src/logger.rs])

    Parsing of the level, the filter given to the server's own modules and to its
    dependencies, the global subscriber, and the two log helpers. *)

From S2P Require Import Prelude RustStd Text.

Inductive LogLevel : Type := Trace | Debug | Info | Warn | Error.

#[export] Instance log_level_eq_dec : EqDecision LogLevel.
Proof. solve_decision. Defined.

(** [None] is [Err(())]. *)
Definition log_level_from_str (s : string) : option LogLevel :=
  let l := to_lowercase s in
  if decide (l = "trace") then Some Trace
  else if decide (l = "debug") then Some Debug
  else if decide (l = "info") then Some Info
  else if decide (l = "warn") then Some Warn
  else if decide (l = "error") then Some Error
  else None.

(** [tracing]'s [LevelFilter], ordered by verbosity. *)
Definition level_filter (l : LogLevel) : nat :=
  match l with
  | Trace => 5
  | Debug => 4
  | Info => 3
  | Warn => 2
  | Error => 1
  end.

(** The filters [init_logger] installs: for the server and for dependencies. *)
Definition init_filters (log_level_str : string) : nat * nat :=
  let level := default Info (log_level_from_str log_level_str) in
  let own := level_filter level in
  let deps := if own <? level_filter Info then own else level_filter Info in
  (own, deps).

(** Dependencies are never chattier than the server nor than [info]. *)
Lemma init_filters_deps s : (init_filters s).2 = (init_filters s).1 `min` level_filter Info.
Proof.
  unfold init_filters. simpl. destruct (level_filter _ <? 3) eqn:E; simpl;
    [apply Nat.ltb_lt in E|apply Nat.ltb_ge in E]; lia.
Qed.

(** ** The subscriber and the log helpers *)

Module Log.

Definition CARGO_CRATE_NAME : string := "server_trojan".
Definition LOG_TIME_FORMAT : string := "[year repr:last_two]-[month]-[day] [hour]:[minute]:[second]".

(** [tracing_subscriber]'s [Targets]: the directives and the default. *)
Record Targets := MkTargets { directives : list (string * nat); default_level : nat }.

Definition targets_new : Targets := MkTargets [] 0.
Definition with_target (name : string) (l : nat) (f : Targets) : Targets :=
  MkTargets (directives f ++ [(name, l)]) (default_level f).
Definition with_default (l : nat) (f : Targets) : Targets := MkTargets (directives f) l.

(** The layers of the subscriber. *)
Record Subscriber := MkSubscriber { filter_layer : Targets; fmt_target : bool; fmt_timer : string }.

(** The process has one global subscriber, which is set once; [None] is the
    panic of [init] when it is set already. *)
Definition init (s : Subscriber) (global : option Subscriber) : option Subscriber :=
  match global with Some _ => None | None => Some s end.

Definition init_logger (log_level_str : string) (global : option Subscriber) : option Subscriber :=
  let '(own, deps) := init_filters log_level_str in
  let filter := with_default deps (with_target CARGO_CRATE_NAME own targets_new) in
  init (MkSubscriber filter true LOG_TIME_FORMAT) global.

Lemma init_logger_fresh s : is_Some (init_logger s None).
Proof. unfold init_logger. destruct (init_filters s). by eexists. Qed.

(** An event as a [tracing] macro builds it. *)
Record Event := MkEvent {
  ev_level : nat;
  ev_target : string;
  ev_peer : SocketAddr;
  ev_event : option string;
  ev_message : string;
}.

Definition module_path : string := CARGO_CRATE_NAME +:+ "::logger::log".

Definition connection (addr : SocketAddr) (event : string) : Event :=
  MkEvent (level_filter Debug) module_path addr (Some event) "Connection".

Definition authentication (addr : SocketAddr) (success : bool) : Event :=
  if success then MkEvent (level_filter Debug) module_path addr None "Authentication successful"
  else MkEvent (level_filter Debug) module_path addr None "Authentication failed".

(** How [Targets] decides: the directive whose target is a prefix of the event's,
    or else the default; with one directive there is nothing to rank. *)
Class TargetFilter := {
  would_enable : Targets → string → nat → bool;
  would_enable_one name own deps target level :
    would_enable (MkTargets [(name, own)] deps) target level
    = (level <=? if String.prefix name target then own else deps);
}.

(** What a process prints. *)
Definition shown `{TargetFilter} (global : option Subscriber) (e : Event) : bool :=
  match global with
  | Some s => would_enable (filter_layer s) (ev_target e) (ev_level e)
  | None => false
  end.

(** The log of connections and logins appears exactly when the operator asks for
    [debug] or [trace], and never because a name was mistyped. *)
Theorem log_helpers_shown `{TargetFilter} (s : string) addr event success :
  let global := init_logger s None in
  shown global (connection addr event)
    = bool_decide (log_level_from_str s = Some Debug ∨ log_level_from_str s = Some Trace)
  ∧ shown global (authentication addr success) = shown global (connection addr event)
  ∧ is_Some global ∧ ∀ s', init_logger s' global = None.
Proof.
  unfold init_logger. destruct (init_filters s) as [own deps] eqn:E. cbn [init shown filter_layer].
  unfold with_default, with_target. cbn [directives targets_new app].
  assert (Hown : own = level_filter (default Info (log_level_from_str s))) by (by injection E as <- _).
  split_and!.
  - rewrite would_enable_one. change (String.prefix CARGO_CRATE_NAME _) with true. cbn [ev_level connection].
    rewrite Hown. by destruct (log_level_from_str s) as [[]|].
  - destruct success; by rewrite !would_enable_one.
  - by eexists.
  - intros s'. by destruct (init_filters s').
Qed.

End Log.
