(* ===== verification/ConfigAuto.v ===== *)
(** * Automatic connection limit ([src/src/config_auto.rs])

    The [max_connections] setting and its derivation from the host's cores,
    memory and file-descriptor limit, in saturating 64-bit arithmetic.  The
    host queries are parameters. *)

From S2P Require Import Prelude RustStd Text.

Inductive MaxConnections : Type := AutoConnections | Fixed (n : Z).

Definition max_connections_from_str (s : string) : result MaxConnections string :=
  if eq_ignore_ascii_case s "auto" then Ok AutoConnections
  else match parse_u64 s with
  | None => Err ("Invalid max_connections '" +:+ s +:+ "'. Use 'auto' or a positive integer")
  | Some n =>
      if (n =? 0)%Z then
        Err ("Invalid max_connections '" +:+ s +:+ "'. Must be 'auto' or a positive integer (>= 1)")
      else Ok (Fixed n)
  end.

Definition PER_CORE_MBPS : Z := 1500.
Definition PER_USER_KBPS : Z := 200.
Definition PER_SESSION_KB : Z := 200.
Definition MEM_BUDGET_PCT : Z := 50.
Definition FD_RESERVE_DEFAULT : Z := 1024.
Definition FD_PER_SESSION : Z := 2.

Inductive Limit : Type := Cpu | Memory | FileDescriptors.

Definition limit_as_str (l : Limit) : string :=
  match l with
  | Cpu => "cpu"
  | Memory => "memory"
  | FileDescriptors => "fd"
  end.

Record AutoBreakdown := MkBreakdown {
  auto_value : Z;
  cpu_cap : Z;
  mem_cap : Z;
  fd_cap : Z;
  limiting : Limit;
}.

Definition compute_auto (cpus total_mem_kb nofile_soft : Z) : AutoBreakdown :=
  let cpus := Z.max cpus 1 in
  let cpu_cap := (saturating_mul_u64 (saturating_mul_u64 cpus PER_CORE_MBPS) 1000 / PER_USER_KBPS)%Z in
  let mem_cap := (saturating_mul_u64 total_mem_kb MEM_BUDGET_PCT / 100 / PER_SESSION_KB)%Z in
  let fd_reserve := Z.min FD_RESERVE_DEFAULT (nofile_soft / 4) in
  let fd_cap := (saturating_sub nofile_soft fd_reserve / FD_PER_SESSION)%Z in
  let raw := Z.min (Z.min cpu_cap mem_cap) fd_cap in
  let value := Z.max raw 1 in
  let limiting :=
    if (cpu_cap <=? mem_cap)%Z && (cpu_cap <=? fd_cap)%Z then Cpu
    else if (mem_cap <=? fd_cap)%Z then Memory
    else FileDescriptors in
  MkBreakdown value cpu_cap mem_cap fd_cap limiting.

Definition fixed_exceeds_auto_cap (value : Z) (bd : AutoBreakdown) : bool :=
  (cpu_cap bd <? value)%Z || (mem_cap bd <? value)%Z || (fd_cap bd <? value)%Z.

Inductive ResolveMode : Type := ModeAuto | ModeFixed.

Record ResolvedMaxConnections := MkResolvedMax {
  rm_value : Z;
  rm_mode : ResolveMode;
  rm_breakdown : AutoBreakdown;
  rm_cpus : Z;
  rm_total_mem_kb : Z;
  rm_nofile_soft : Z;
}.

(** The host: [available_parallelism], [sysconf] and [getrlimit]. *)
Class Host := {
  available_parallelism : option Z;
  sysconf_phys_pages : Z;
  sysconf_pagesize : Z;
  getrlimit_nofile : option Z;
}.

Section host.
Context `{Host}.

Definition total_memory_kb : option Z :=
  if (0 <? sysconf_phys_pages)%Z && (0 <? sysconf_pagesize)%Z
  then Some (saturating_mul_u64 sysconf_phys_pages sysconf_pagesize / 1024)%Z
  else None.

Definition nofile_soft_limit : option Z := getrlimit_nofile.

Definition resolve (spec : MaxConnections) : ResolvedMaxConnections :=
  let cpus := default 1%Z available_parallelism in
  let total_mem_kb := default (4 * 1024 * 1024)%Z total_memory_kb in
  let nofile_soft := default 65536%Z nofile_soft_limit in
  let breakdown := compute_auto cpus total_mem_kb nofile_soft in
  let '(value, mode) :=
    match spec with
    | Fixed n => (n, ModeFixed)
    | AutoConnections => (auto_value breakdown, ModeAuto)
    end in
  MkResolvedMax value mode breakdown cpus total_mem_kb nofile_soft.

End host.

(** ** Properties *)

(** [tokio::sync::Semaphore::MAX_PERMITS] on a 64-bit target. *)
Definition MAX_PERMITS : Z := 2305843009213693951.

Lemma saturating_mul_bounds a b :
  (0 ≤ a)%Z → (0 ≤ b)%Z → (0 ≤ saturating_mul_u64 a b ≤ u64_max)%Z.
Proof. unfold saturating_mul_u64, u64_max. nia. Qed.

Lemma compute_auto_caps cpus mem fds :
  is_u64 mem → is_u64 fds →
  let bd := compute_auto cpus mem fds in
  is_u64 (cpu_cap bd) ∧ is_u64 (mem_cap bd) ∧ is_u64 (fd_cap bd)
  ∧ (cpu_cap bd ≤ u64_max / 200)%Z.
Proof.
  unfold is_u64. intros Hm Hf. unfold compute_auto. cbn [cpu_cap mem_cap fd_cap].
  pose proof (saturating_mul_bounds (Z.max cpus 1) PER_CORE_MBPS ltac:(lia) ltac:(done)) as H1.
  pose proof (saturating_mul_bounds (saturating_mul_u64 (Z.max cpus 1) PER_CORE_MBPS) 1000
    ltac:(lia) ltac:(lia)) as H2.
  pose proof (saturating_mul_bounds mem MEM_BUDGET_PCT ltac:(lia) ltac:(done)) as H3.
  unfold saturating_sub, FD_RESERVE_DEFAULT, FD_PER_SESSION, PER_USER_KBPS, PER_SESSION_KB in *.
  set (x := saturating_mul_u64 _ 1000) in *. set (y := saturating_mul_u64 mem _) in *.
  clearbody x y. clear H1. unfold u64_max in *.
  Z.to_euclidean_division_equations. lia.
Qed.

Lemma compute_auto_range cpus mem fds :
  is_u64 mem → is_u64 fds → (1 ≤ auto_value (compute_auto cpus mem fds) ≤ MAX_PERMITS)%Z.
Proof.
  intros Hm Hf. destruct (compute_auto_caps cpus mem fds Hm Hf) as (H1 & H2 & H3 & H4).
  assert (Hv : auto_value (compute_auto cpus mem fds)
    = Z.max (Z.min (Z.min (cpu_cap (compute_auto cpus mem fds)) (mem_cap (compute_auto cpus mem fds)))
        (fd_cap (compute_auto cpus mem fds))) 1) by done.
  revert Hv H1 H2 H3 H4. generalize (compute_auto cpus mem fds). intros bd Hv H1 H2 H3 H4.
  unfold is_u64, u64_max, MAX_PERMITS in *.
  change (18446744073709551615 / 200)%Z with 92233720368547758%Z in H4. lia.
Qed.

(** Whatever the host answers, a limit parsed from the command line and
    accepted by validation resolves to a usable number. *)
Lemma resolve_range `{Host} s spec :
  max_connections_from_str s = Ok spec →
  (∀ n, spec = Fixed n → (n ≤ MAX_PERMITS)%Z) → (∀ n, getrlimit_nofile = Some n → is_u64 n) →
  (1 ≤ rm_value (resolve spec) ≤ MAX_PERMITS)%Z.
Proof.
  intros Hs Hfix Hlim. unfold resolve. destruct spec as [|n]; simpl.
  - apply compute_auto_range.
    + unfold total_memory_kb. destruct (_ && _) eqn:E; simpl; [|done].
      apply andb_true_iff in E as [E1 E2]. apply Z.ltb_lt in E1, E2.
      pose proof (saturating_mul_bounds _ _ (Z.lt_le_incl _ _ E1) (Z.lt_le_incl _ _ E2)) as Hb.
      split; [apply Z.div_pos; lia|]. apply Z.div_le_upper_bound; lia.
    + unfold nofile_soft_limit. destruct getrlimit_nofile as [n|] eqn:E; simpl; [by apply Hlim|done].
  - split; [|by apply Hfix]. revert Hs. unfold max_connections_from_str.
    destruct (eq_ignore_ascii_case s "auto"); [done|].
    destruct (parse_u64 s) as [m|] eqn:Ep; [|done].
    destruct (Z.eqb_spec m 0); [done|]. intros [= <-]. apply parse_u64_range in Ep.
    unfold is_u64 in Ep. lia.
Qed.

(** The automatic limit is safe on every host.  It is at least one and at
    most what a tokio semaphore accepts, so that creating the semaphore never
    panics; unless a cap is zero it equals the smallest of the CPU, memory and
    file-descriptor caps, the one [limiting] names; and a fixed value is
    flagged exactly when it exceeds the smallest cap.  No intermediate
    computation leaves the 64-bit range. *)
Theorem compute_auto_safe cpus mem fds v :
  is_u64 mem → is_u64 fds →
  let bd := compute_auto cpus mem fds in
  let smallest := Z.min (Z.min (cpu_cap bd) (mem_cap bd)) (fd_cap bd) in
  (1 ≤ auto_value bd ≤ MAX_PERMITS)%Z
  ∧ is_u64 (cpu_cap bd) ∧ is_u64 (mem_cap bd) ∧ is_u64 (fd_cap bd)
  ∧ auto_value bd = Z.max smallest 1
  ∧ smallest = match limiting bd with
               | Cpu => cpu_cap bd | Memory => mem_cap bd | FileDescriptors => fd_cap bd end
  ∧ (fixed_exceeds_auto_cap v bd = true ↔ (smallest < v)%Z).
Proof.
  intros Hm Hf bd smallest.
  destruct (compute_auto_caps cpus mem fds Hm Hf) as (H1 & H2 & H3 & _). fold bd in H1, H2, H3.
  pose proof (compute_auto_range cpus mem fds Hm Hf) as H4. fold bd in H4.
  assert (Hv : auto_value bd = Z.max smallest 1) by done.
  assert (Hl : limiting bd = if (cpu_cap bd <=? mem_cap bd)%Z && (cpu_cap bd <=? fd_cap bd)%Z then Cpu
    else if (mem_cap bd <=? fd_cap bd)%Z then Memory else FileDescriptors) by done.
  subst smallest. clearbody bd.
  split_and!; try done; try apply H1; try apply H2; try apply H3; try lia.
  - rewrite Hl.
    destruct (Z.leb_spec (cpu_cap bd) (mem_cap bd)), (Z.leb_spec (cpu_cap bd) (fd_cap bd)),
      (Z.leb_spec (mem_cap bd) (fd_cap bd)); simpl; lia.
  - unfold fixed_exceeds_auto_cap. rewrite !orb_true_iff, !Z.ltb_lt. lia.
Qed.

Lemma compute_auto_safe_witness :
  let bd := compute_auto 4 (8 * 1024 * 1024) 65536 in
  auto_value bd = 20971%Z ∧ limiting bd = Memory
  ∧ (fixed_exceeds_auto_cap 30000 bd = true
     ↔ (Z.min (Z.min (cpu_cap bd) (mem_cap bd)) (fd_cap bd) < 30000)%Z).
Proof.
  split; [reflexivity|]. split; [reflexivity|].
  apply (compute_auto_safe 4 (8 * 1024 * 1024) 65536 30000).
  - split; vm_compute; discriminate.
  - split; vm_compute; discriminate.
Defined.
