(* ===== verification/Config.v ===== *)
(** * Configuration ([src/src/config.rs])

    Command-line arguments and their validation, the panel's node
    configuration, and the run-time configurations derived from them.
    Durations are nanoseconds.  [humantime], [serde_json], argument parsing
    ([clap]) and the file system are parameters. *)

From S2P Require Import Prelude RustStd Text Logger ConfigAuto.

Inductive IpVersion : Type := IpV4 | IpV6 | IpAuto.

Definition parse_ip_version (s : string) : result IpVersion string :=
  let l := to_lowercase s in
  if decide (l = "v4" ∨ l = "ipv4" ∨ l = "4") then Ok IpV4
  else if decide (l = "v6" ∨ l = "ipv6" ∨ l = "6") then Ok IpV6
  else if decide (l = "auto" ∨ l = "dual") then Ok IpAuto
  else Err ("Invalid IP version '" +:+ l +:+ "'. Use 'v4', 'v6', or 'auto'").

Definition from_secs (n : Z) : Z := (n * 1000000000)%Z.
Definition as_secs (d : Z) : Z := (d / 1000000000)%Z.

Class HumanTime := {
  humantime_parse : string → option Z;
  humantime_format : Z → string;
}.

Definition parse_duration `{HumanTime} (s : string) : result Z string :=
  match humantime_parse s with
  | Some d => Ok d
  | None =>
      match parse_u64 s with
      | Some n => Ok (from_secs n)
      | None =>
          Err ("Invalid duration '" +:+ s +:+
               "'. Use formats like '60s', '2m', '1h' or plain seconds")
      end
  end.

Record CliArgs := MkCliArgs {
  api : string;
  token : string;
  node : Z;
  cert_file : string;
  key_file : string;
  fetch_users_interval : Z;
  report_traffics_interval : Z;
  heartbeat_interval : Z;
  api_timeout : Z;
  log_mode : string;
  cli_data_dir : string;
  cli_acl_conf_file : option string;
  cli_block_private_ip : bool;
  conn_idle_timeout : Z;
  tcp_connect_timeout : Z;
  cli_request_timeout : Z;
  cli_tls_handshake_timeout : Z;
  cli_buffer_size : Z;
  cli_tcp_backlog : Z;
  cli_tcp_nodelay : bool;
  cli_uplink_only_timeout : Z;
  cli_downlink_only_timeout : Z;
  cli_max_connections : MaxConnections;
  refresh_geodata : bool;
  panel_ip_version : IpVersion;
}.

Definition MAX_BUFFER_SIZE : Z := 4 * 1024 * 1024.
Definition MAX_DURATION : Z := from_secs (30 * 24 * 3600).

(** ** Validation *)

Class FileSystem := { path_exists : string → bool }.

(** [if cond { return Err(msg) }], in order. *)
Fixpoint first_error (checks : list (bool * string)) : result unit string :=
  match checks with
  | [] => Ok tt
  | (bad, msg) :: rest => if bad then Err msg else first_error rest
  end.

Section validate.
Context `{HumanTime, FileSystem}.

(** The checks up to the log mode. *)
Definition required_checks (c : CliArgs) : list (bool * string) :=
  [ (bool_decide (api c = ""), "API endpoint URL is required");
    (bool_decide (token c = ""), "API token is required");
    ((node c <=? 0)%Z, "Node ID must be a positive integer");
    (bool_decide (cert_file c = ""), "TLS certificate file path is required (--cert-file)");
    (bool_decide (key_file c = ""), "TLS private key file path is required (--key-file)");
    (negb (path_exists (cert_file c)), "TLS certificate file not found: " +:+ cert_file c);
    (negb (path_exists (key_file c)), "TLS private key file not found: " +:+ key_file c);
    ((fetch_users_interval c =? 0)%Z, "fetch_users_interval must be greater than 0");
    ((report_traffics_interval c =? 0)%Z, "report_traffics_interval must be greater than 0");
    ((heartbeat_interval c =? 0)%Z, "heartbeat_interval must be greater than 0");
    ((cli_buffer_size c =? 0)%Z, "buffer_size must be greater than 0");
    ((MAX_BUFFER_SIZE <? cli_buffer_size c)%Z,
       "buffer_size must be at most " +:+ of_bytes (show_dec MAX_BUFFER_SIZE));
    (bool_decide (log_level_from_str (log_mode c) = None),
       "Invalid log_mode '" +:+ log_mode c +:+ "'. Use trace, debug, info, warn or error") ].

Definition nonzero_checks (c : CliArgs) : list (bool * string) :=
  map (λ '(name, d), ((d =? 0)%Z, name +:+ " must be greater than 0"))
    [ ("tcp_connect_timeout", tcp_connect_timeout c);
      ("request_timeout", cli_request_timeout c);
      ("tls_handshake_timeout", cli_tls_handshake_timeout c) ].

Definition connection_checks (c : CliArgs) : list (bool * string) :=
  [ ((cli_tcp_backlog c <=? 0)%Z, "tcp_backlog must be greater than 0");
    (match cli_max_connections c with
     | Fixed n => (MAX_PERMITS <? n)%Z
     | AutoConnections => false
     end, "max_connections must be at most " +:+ of_bytes (show_dec MAX_PERMITS)) ].

Definition whole_second_checks (c : CliArgs) : list (bool * string) :=
  map (λ '(name, d), ((d <? from_secs 1)%Z, name +:+ " must be at least 1s"))
    [ ("conn_idle_timeout", conn_idle_timeout c);
      ("uplink_only_timeout", cli_uplink_only_timeout c);
      ("downlink_only_timeout", cli_downlink_only_timeout c);
      ("api_timeout", api_timeout c) ].

Definition max_duration_checks (c : CliArgs) : list (bool * string) :=
  map (λ '(name, d), ((MAX_DURATION <? d)%Z,
                      name +:+ " must be at most " +:+ humantime_format MAX_DURATION))
    [ ("conn_idle_timeout", conn_idle_timeout c);
      ("uplink_only_timeout", cli_uplink_only_timeout c);
      ("downlink_only_timeout", cli_downlink_only_timeout c);
      ("api_timeout", api_timeout c);
      ("tcp_connect_timeout", tcp_connect_timeout c);
      ("request_timeout", cli_request_timeout c);
      ("tls_handshake_timeout", cli_tls_handshake_timeout c);
      ("fetch_users_interval", fetch_users_interval c);
      ("report_traffics_interval", report_traffics_interval c);
      ("heartbeat_interval", heartbeat_interval c) ].

Definition acl_file_checks (c : CliArgs) : list (bool * string) :=
  match cli_acl_conf_file c with
  | None => []
  | Some path =>
      let ext := default "" (path_extension path) in
      [ (negb (path_exists path), "ACL config file not found: " +:+ path);
        (negb (eq_ignore_ascii_case ext "yaml") && negb (eq_ignore_ascii_case ext "yml"),
         "Invalid ACL config file format: expected .yaml or .yml extension") ]
  end.

Definition validate (c : CliArgs) : result unit string :=
  first_error (required_checks c ++ nonzero_checks c ++ connection_checks c
               ++ whole_second_checks c ++ max_duration_checks c ++ acl_file_checks c).

End validate.

(** ** The panel's configuration *)

Record WebSocketConfig := MkWebSocketConfig {
  ws_config_path : option string;
  ws_headers : option (gmap string string);
}.

Record GrpcConfig := MkGrpcConfig { service_name : option string }.

Record TrojanConfig := MkTrojanConfig {
  server_port : Z;
  network : option string;
  websocket_config : option WebSocketConfig;
  grpc_config : option GrpcConfig;
}.

Definition question_mark : byte := Byte.x3f.
Definition slash : byte := Byte.x2f.

Definition normalize_ws_path_bytes (raw : list byte) : list byte :=
  let path := trim (before question_mark (trim raw)) in
  match path with
  | [] => []
  | b :: _ => if decide (b = slash) then path else slash :: path
  end.

Definition normalize_ws_path (raw : string) : string :=
  of_bytes (normalize_ws_path_bytes (as_bytes raw)).

Example normalize_examples :
  map normalize_ws_path ["trojan"; "/trojan?ed=2048"; " /a "; ""; "?ed=1"]
  = ["/trojan"; "/trojan"; "/a"; ""; ""].
Proof. vm_compute. reflexivity. Qed.

(** [panel_core::NodeConfigEnum]: the Trojan node's JSON, or another kind of
    node, given by its printed discriminant. *)
Inductive NodeConfigEnum : Type :=
| TrojanNode (json : string)
| OtherNode (discriminant : string).

Definition parse_trojan_config (serde_json : string → result TrojanConfig string)
    (node_config : NodeConfigEnum) : result TrojanConfig string :=
  match node_config with
  | TrojanNode json =>
      match serde_json json with
      | Ok c => Ok c
      | Err e => Err ("Failed to parse TrojanConfig: " +:+ e)
      end
  | OtherNode d => Err ("Expected Trojan config, got " +:+ d)
  end.

Definition DEFAULT_GRPC_SERVICE_NAME : string := "GunService".
Definition DEFAULT_WS_PATH : string := "/".

(** ** Run-time configuration *)

Record ConnConfig := MkConnConfig {
  idle_timeout : Z;
  uplink_only_timeout : Z;
  downlink_only_timeout : Z;
  connect_timeout : Z;
  request_timeout : Z;
  tls_handshake_timeout : Z;
  conn_buffer_size : Z;
  tcp_backlog : Z;
  conn_tcp_nodelay : bool;
  max_connections : Z;
}.

Definition from_cli (cli : CliArgs) (max : Z) : ConnConfig :=
  MkConnConfig (conn_idle_timeout cli) (cli_uplink_only_timeout cli) (cli_downlink_only_timeout cli)
    (tcp_connect_timeout cli) (cli_request_timeout cli) (cli_tls_handshake_timeout cli)
    (cli_buffer_size cli) (cli_tcp_backlog cli) (cli_tcp_nodelay cli) max.

Definition idle_timeout_secs (c : ConnConfig) : Z := as_secs (idle_timeout c).
Definition uplink_only_timeout_secs (c : ConnConfig) : Z := as_secs (uplink_only_timeout c).
Definition downlink_only_timeout_secs (c : ConnConfig) : Z := as_secs (downlink_only_timeout c).

Record ServerConfig := MkServerConfig {
  port : Z;
  enable_ws : bool;
  enable_grpc : bool;
  ws_path : string;
  grpc_service_name : string;
  cert : option string;
  key : option string;
  acl_conf_file : option string;
  data_dir : string;
  block_private_ip : bool;
}.

Definition from_remote (remote : TrojanConfig) (cli : CliArgs) : ServerConfig :=
  let net := to_lowercase (default "tcp" (network remote)) in
  let '(ws, grpc) :=
    if decide (net = "ws" ∨ net = "websocket") then (true, false)
    else if decide (net = "grpc") then (false, true)
    else (false, false) in
  let path := normalize_ws_path <$> (websocket_config remote ≫= ws_config_path) in
  let path := match path with
              | Some p => if decide (p = "") then DEFAULT_WS_PATH else p
              | None => DEFAULT_WS_PATH
              end in
  let service := default DEFAULT_GRPC_SERVICE_NAME (grpc_config remote ≫= service_name) in
  MkServerConfig (server_port remote) ws grpc path service (Some (cert_file cli))
    (Some (key_file cli)) (cli_acl_conf_file cli) (cli_data_dir cli) (cli_block_private_ip cli).

(** The values of arguments that are not given ([default_value] attributes). *)
Definition cli_defaults (api token : string) (node : Z) : CliArgs := {|
  api := api; token := token; node := node;
  cert_file := "/root/.cert/server.crt"; key_file := "/root/.cert/server.key";
  fetch_users_interval := from_secs 60; report_traffics_interval := from_secs 80;
  heartbeat_interval := from_secs 180; api_timeout := from_secs 30; log_mode := "info";
  cli_data_dir := "/var/lib/trojan-node"; cli_acl_conf_file := None; cli_block_private_ip := true;
  conn_idle_timeout := from_secs 300; tcp_connect_timeout := from_secs 5;
  cli_request_timeout := from_secs 5; cli_tls_handshake_timeout := from_secs 10;
  cli_buffer_size := 32 * 1024; cli_tcp_backlog := 1024; cli_tcp_nodelay := true;
  cli_uplink_only_timeout := from_secs 2; cli_downlink_only_timeout := from_secs 5;
  cli_max_connections := AutoConnections; refresh_geodata := false; panel_ip_version := IpV4;
|}.

(** ** Validation is enough *)

Lemma first_error_Ok checks :
  first_error checks = Ok tt ↔ Forall (λ c, c.1 = false) checks.
Proof.
  induction checks as [|[bad msg] rest IH]; simpl; [by split|].
  destruct bad; rewrite Forall_cons; simpl; [naive_solver|]. rewrite IH. naive_solver.
Qed.

Lemma as_secs_bounds d : (from_secs 1 ≤ d ≤ MAX_DURATION)%Z → (1 ≤ as_secs d ≤ 2592000)%Z.
Proof.
  unfold as_secs, MAX_DURATION, from_secs. intros [H1 H2].
  split; [apply Z.div_le_lower_bound; lia|]. apply Z.lt_succ_r, Z.div_lt_upper_bound; lia.
Qed.

(** The connection limit that passed validation resolves to a number of permits
    the semaphore accepts. *)
Lemma validated_permits `{HumanTime, FileSystem, Host} (cli : CliArgs) (spec : string) :
  validate cli = Ok tt → max_connections_from_str spec = Ok (cli_max_connections cli) →
  (∀ n, getrlimit_nofile = Some n → is_u64 n) →
  (1 ≤ rm_value (resolve (cli_max_connections cli)) ≤ MAX_PERMITS)%Z.
Proof.
  unfold validate. rewrite first_error_Ok, !Forall_app. intros (_ & _ & Hconn & _) Hmax Hlim.
  unfold connection_checks in Hconn. rewrite !Forall_cons in Hconn. destruct Hconn as (_ & K & _).
  eapply resolve_range; [exact Hmax| |exact Hlim]. intros n Hn. simpl in K. rewrite Hn in K.
  by apply Z.ltb_ge in K.
Qed.

(** What the panel and the background tasks are given. *)
Lemma validated_panel `{HumanTime, FileSystem} (cli : CliArgs) :
  validate cli = Ok tt →
  fetch_users_interval cli ≠ 0%Z ∧ report_traffics_interval cli ≠ 0%Z ∧ heartbeat_interval cli ≠ 0%Z
  ∧ (1 ≤ as_secs (api_timeout cli))%Z ∧ is_Some (log_level_from_str (log_mode cli)).
Proof.
  unfold validate. rewrite first_error_Ok, !Forall_app. intros (Hreq & _ & _ & Hws & Hmd & _).
  unfold required_checks, whole_second_checks, max_duration_checks in *. simpl in Hreq, Hws, Hmd.
  repeat rewrite Forall_cons in *. simpl in Hreq, Hws, Hmd.
  destruct Hreq as (_ & _ & _ & _ & _ & _ & _ & F1%Z.eqb_neq & F2%Z.eqb_neq & F3%Z.eqb_neq & _ & _ & L & _).
  destruct Hws as (_ & _ & _ & W%Z.ltb_ge & _). destruct Hmd as (_ & _ & _ & M%Z.ltb_ge & _).
  split_and!; [done..| |].
  - by apply as_secs_bounds.
  - apply bool_decide_eq_false in L. by apply not_eq_None_Some.
Qed.

(** C32: Arguments that pass [validate] give a connection configuration the
    server can run with, on every host.  The relay buffer is non-empty and at
    most 4 MiB; the idle and half-close timeouts, consumed in whole seconds, are
    at least one second and at most thirty days, so that deadlines neither fire
    at once nor overflow; the connect, request and handshake timeouts are
    positive; the listen backlog is positive; and the connection limit, fixed
    or automatic, is at least one and accepted by the semaphore. *)
Theorem validated_config_safe `{HumanTime, FileSystem, Host} (cli : CliArgs) (spec : string) :
  validate cli = Ok tt → is_u64 (cli_buffer_size cli) →
  max_connections_from_str spec = Ok (cli_max_connections cli) →
  (∀ n, getrlimit_nofile = Some n → is_u64 n) →
  let cc := from_cli cli (rm_value (resolve (cli_max_connections cli))) in
  (1 ≤ conn_buffer_size cc ≤ MAX_BUFFER_SIZE)%Z
  ∧ (1 ≤ idle_timeout_secs cc ≤ 2592000)%Z
  ∧ (1 ≤ uplink_only_timeout_secs cc ≤ 2592000)%Z
  ∧ (1 ≤ downlink_only_timeout_secs cc ≤ 2592000)%Z
  ∧ connect_timeout cc ≠ 0%Z ∧ request_timeout cc ≠ 0%Z ∧ tls_handshake_timeout cc ≠ 0%Z
  ∧ (0 < tcp_backlog cc)%Z
  ∧ (1 ≤ max_connections cc ≤ MAX_PERMITS)%Z.
Proof.
  intros Hv Hsize Hmax Hlim cc. pose proof (validated_permits cli spec Hv Hmax Hlim) as Hp.
  revert Hv. unfold validate. rewrite first_error_Ok, !Forall_app.
  intros (Hreq & Hnz & Hconn & Hws & Hmd & _).
  unfold required_checks, nonzero_checks, connection_checks, whole_second_checks, max_duration_checks
    in *. simpl in Hreq, Hnz, Hconn, Hws, Hmd. repeat rewrite Forall_cons in *.
  simpl in Hreq, Hnz, Hconn, Hws, Hmd. unfold is_u64 in Hsize.
  destruct Hreq as (_ & _ & _ & _ & _ & _ & _ & _ & _ & _ & B1%Z.eqb_neq & B2%Z.ltb_ge & _).
  destruct Hnz as (N1%Z.eqb_neq & N2%Z.eqb_neq & N3%Z.eqb_neq & _).
  destruct Hconn as (K1%Z.leb_gt & _).
  destruct Hws as (W1%Z.ltb_ge & W2%Z.ltb_ge & W3%Z.ltb_ge & _).
  destruct Hmd as (M1%Z.ltb_ge & M2%Z.ltb_ge & M3%Z.ltb_ge & _).
  split_and!; try done; try (apply as_secs_bounds; split; assumption); simpl; lia.
Qed.

Module SampleConfig.

#[local] Instance time : HumanTime := {| humantime_parse := λ _, None; humantime_format := λ _, "30days" |}.
#[local] Instance fs : FileSystem := {| path_exists := λ _, true |}.
#[local] Instance host : Host := {|
  available_parallelism := Some 4%Z; sysconf_phys_pages := 2097152; sysconf_pagesize := 4096;
  getrlimit_nofile := Some 65536%Z |}.

Definition cli : CliArgs := cli_defaults "https://panel.example" "secret" 1.

End SampleConfig.

Lemma validated_config_safe_witness :
  validate (H := SampleConfig.time) (H0 := SampleConfig.fs) SampleConfig.cli = Ok tt
  ∧ (1 ≤ max_connections (from_cli SampleConfig.cli
           (rm_value (resolve (H := SampleConfig.host) (cli_max_connections SampleConfig.cli))))
       ≤ MAX_PERMITS)%Z.
Proof.
  assert (Hv : validate (H := SampleConfig.time) (H0 := SampleConfig.fs) SampleConfig.cli = Ok tt)
    by (vm_compute; reflexivity).
  split; [exact Hv|].
  apply (validated_config_safe (H := SampleConfig.time) (H0 := SampleConfig.fs)
           (H1 := SampleConfig.host) SampleConfig.cli "auto" Hv).
  - split; vm_compute; discriminate.
  - vm_compute. reflexivity.
  - intros n [= <-]. split; vm_compute; discriminate.
Defined.

(** ** WebSocket paths *)

(** No whitespace at either end. *)
Definition trimmed (l : list byte) : Prop :=
  strip_any white_space l = None ∧ strip_any (map (@rev byte) white_space) (rev l) = None.

Lemma strip_any_prefix ps l r : strip_any ps (l ++ r) = None → strip_any ps l = None.
Proof.
  induction ps as [|p ps IH]; simpl; [done|].
  destruct (strip_prefix p (l ++ r)) eqn:E; [done|]. intros Hn.
  destruct (strip_prefix p l) eqn:E'; [|auto].
  apply strip_prefix_app in E'. subst l. rewrite <- app_assoc in E.
  by rewrite (proj2 (strip_prefix_app p _ _) eq_refl) in E.
Qed.

Lemma trim_trimmed l : trimmed (trim l).
Proof.
  unfold trimmed, trim, trim_end. rewrite rev_involutive. split.
  - destruct (strip_all_suffix (length (trim_start l)) (map (@rev byte) white_space) (rev (trim_start l)))
      as [p Hp].
    apply (f_equal (@rev byte)) in Hp. rewrite rev_involutive, rev_app_distr in Hp.
    apply (strip_any_prefix _ _ (rev p)). rewrite <- Hp.
    apply strip_all_done; [apply white_space_nonempty|done].
  - apply strip_all_done; [apply rev_white_space_nonempty|]. by rewrite length_rev.
Qed.

Lemma trim_id l : trimmed l → trim l = l.
Proof.
  intros [H1 H2]. unfold trim, trim_start, trim_end.
  assert (Hid : ∀ fuel ps l, strip_any ps l = None → strip_all fuel ps l = l).
  { intros [|fuel] ps l' Hn; simpl; [done|]. by rewrite Hn. }
  rewrite (Hid _ _ _ H1), (Hid _ _ _ H2). apply rev_involutive.
Qed.

Lemma trim_incl l b : b ∈ trim l → b ∈ l.
Proof.
  unfold trim, trim_end, trim_start. rewrite !list_elem_of_In, <- in_rev. intros Hin.
  destruct (strip_all_suffix (length l) white_space l) as [p Hp].
  set (l1 := strip_all (length l) white_space l) in *.
  destruct (strip_all_suffix (length l1) (map (@rev byte) white_space) (rev l1)) as [q Hq].
  rewrite Hp. apply in_or_app. right. apply in_rev. rewrite Hq. apply in_or_app. by right.
Qed.

Lemma before_no c l : c ∉ before c l.
Proof.
  unfold before. induction l as [|x l IH]; simpl; [set_solver|].
  unfold is_byte at 1. case_bool_decide; simpl; set_solver.
Qed.

Lemma before_id c l : c ∉ l → before c l = l.
Proof.
  unfold before. induction l as [|x l IH]; intros Hn; [done|]. simpl. unfold is_byte at 1.
  rewrite bool_decide_eq_false_2 by set_solver. simpl. f_equal. apply IH. set_solver.
Qed.

(** Whitespace patterns contain no slash, so a slash in front changes nothing
    at the end. *)
Lemma strip_any_snoc ps l x :
  Forall (λ p, x ∉ p) ps → strip_any ps l = None → strip_any ps (l ++ [x]) = None.
Proof.
  induction 1 as [|p ps Hx _ IH]; simpl; [done|].
  destruct (strip_prefix p l) eqn:E; [done|]. intros Hn.
  destruct (strip_prefix p (l ++ [x])) as [r|] eqn:E'; [|auto].
  exfalso. apply strip_prefix_app in E'. destruct r as [|y r' _] using rev_ind; swap 1 2.
  - rewrite app_assoc in E'. apply app_inj_2 in E' as [-> _]; [|done].
    by rewrite (proj2 (strip_prefix_app p _ _) eq_refl) in E.
  - rewrite app_nil_r in E'. apply Hx. rewrite <- E'. set_solver.
Qed.

Lemma normalize_shape raw :
  let p := normalize_ws_path_bytes raw in
  question_mark ∉ p ∧ trimmed p ∧ (p = [] ∨ ∃ r, p = slash :: r).
Proof.
  unfold normalize_ws_path_bytes. simpl. set (q := trim (before question_mark (trim raw))).
  assert (Hq : question_mark ∉ q) by (intros Hin%trim_incl; by apply before_no in Hin).
  assert (Ht : trimmed q) by apply trim_trimmed. clearbody q.
  destruct q as [|b q]; [split_and!; auto|]. case_decide as Hb; [subst; eauto 6|].
  split_and!; [|split|eauto].
  - apply not_elem_of_cons. split; [done|exact Hq].
  - reflexivity.
  - change (rev (slash :: b :: q)) with (rev (b :: q) ++ [slash]).
    apply strip_any_snoc; [|apply Ht].
    apply (bool_decide_unpack _). vm_compute. exact I.
Qed.

Lemma normalize_idempotent raw :
  normalize_ws_path_bytes (normalize_ws_path_bytes raw) = normalize_ws_path_bytes raw.
Proof.
  destruct (normalize_shape raw) as (Hq & Ht & Hs). set (p := normalize_ws_path_bytes raw) in *.
  clearbody p. unfold normalize_ws_path_bytes.
  rewrite (trim_id p Ht), (before_id _ _ Hq), (trim_id p Ht).
  destruct Hs as [->|[r ->]]; [done|]. by rewrite decide_True.
Qed.

(** The WebSocket path the server matches is canonical: normalising a
    panel-supplied path is idempotent, and the configured path always starts
    with a slash, has no query and no surrounding whitespace, whatever the
    panel sends. *)
Theorem ws_path_canonical remote cli raw :
  normalize_ws_path (normalize_ws_path raw) = normalize_ws_path raw
  ∧ let p := as_bytes (ws_path (from_remote remote cli)) in
    (∃ r, p = slash :: r) ∧ question_mark ∉ p ∧ trimmed p
    ∧ normalize_ws_path (ws_path (from_remote remote cli)) = ws_path (from_remote remote cli).
Proof.
  unfold normalize_ws_path at 1 2 3. rewrite as_bytes_of_bytes, normalize_idempotent. split; [done|].
  assert (Hdef : (∃ r, as_bytes DEFAULT_WS_PATH = slash :: r)
    ∧ question_mark ∉ as_bytes DEFAULT_WS_PATH ∧ trimmed (as_bytes DEFAULT_WS_PATH)
    ∧ normalize_ws_path DEFAULT_WS_PATH = DEFAULT_WS_PATH).
  { split_and!; [by exists []|by apply (bool_decide_unpack _)|split; reflexivity|reflexivity]. }
  unfold from_remote. case_match eqn:Hnet. simpl. clear Hnet.
  destruct (websocket_config remote ≫= ws_config_path) as [q|]; simpl; [|exact Hdef].
  case_decide as He; [exact Hdef|]. unfold normalize_ws_path in *.
  destruct (normalize_shape (as_bytes q)) as (Hq & Ht & Hs).
  rewrite as_bytes_of_bytes, normalize_idempotent. split_and!; try done; try apply Ht.
  destruct Hs as [Hs|]; [|done]. by rewrite Hs in He.
Qed.
