(* ===== verification/Server.v ===== *)
(** * The server object and its builder ([src/src/core/server.rs]) *)

From S2P Require Import Prelude RustStd Protocol Dns Acl Hooks Connection Config.

(** [Arc<dyn OutboundRouter>]: the router given to the builder, or the direct
    router it falls back to. *)
Inductive AnyRouter (R : Type) : Type :=
| GivenRouter (r : R)
| FallbackRouter (r : DirectRouter).
Arguments GivenRouter {R} r.
Arguments FallbackRouter {R} r.

#[export] Instance any_router `{AclLib, DnsCache D, !OutboundRouter R D}
    : OutboundRouter (AnyRouter R) D := {|
  route r cache addr :=
    match r with
    | GivenRouter r => route r cache addr
    | FallbackRouter r => route r cache addr
    end;
  route_udp r cache addr :=
    match r with
    | GivenRouter r => route_udp r cache addr
    | FallbackRouter r => route_udp r cache addr
    end;
|}.

Record Server (A T R D : Type) := MkServer {
  authenticator : A;
  stats : T;
  router : AnyRouter R;
  conn_manager : ConnectionManager;
  conn_config : ConnConfig;
  dns_cache : D;
}.
Arguments MkServer {A T R D} authenticator stats router conn_manager conn_config dns_cache.
Arguments authenticator {A T R D} s.
Arguments stats {A T R D} s.
Arguments router {A T R D} s.
Arguments conn_manager {A T R D} s.
Arguments conn_config {A T R D} s.
Arguments dns_cache {A T R D} s.

Record ServerBuilder (A T R D : Type) := MkBuilder {
  b_authenticator : option A;
  b_stats : option T;
  b_router : option R;
  b_conn_manager : option ConnectionManager;
  b_conn_config : option ConnConfig;
  b_dns_cache : option D;
}.
Arguments MkBuilder {A T R D}.
Arguments b_authenticator {A T R D} s.
Arguments b_stats {A T R D} s.
Arguments b_router {A T R D} s.
Arguments b_conn_manager {A T R D} s.
Arguments b_conn_config {A T R D} s.
Arguments b_dns_cache {A T R D} s.

Definition builder_new {A T R D} : ServerBuilder A T R D := MkBuilder None None None None None None.

(** The setters. *)
Module Builder.

Definition authenticator {A T R D} (auth : A) (b : ServerBuilder A T R D) : ServerBuilder A T R D :=
  MkBuilder (Some auth) (b_stats b) (b_router b) (b_conn_manager b) (b_conn_config b) (b_dns_cache b).
Definition stats {A T R D} (st : T) (b : ServerBuilder A T R D) : ServerBuilder A T R D :=
  MkBuilder (b_authenticator b) (Some st) (b_router b) (b_conn_manager b) (b_conn_config b) (b_dns_cache b).
Definition router {A T R D} (rt : R) (b : ServerBuilder A T R D) : ServerBuilder A T R D :=
  MkBuilder (b_authenticator b) (b_stats b) (Some rt) (b_conn_manager b) (b_conn_config b) (b_dns_cache b).
Definition conn_manager {A T R D} (manager : ConnectionManager) (b : ServerBuilder A T R D)
    : ServerBuilder A T R D :=
  MkBuilder (b_authenticator b) (b_stats b) (b_router b) (Some manager) (b_conn_config b) (b_dns_cache b).
Definition conn_config {A T R D} (config : ConnConfig) (b : ServerBuilder A T R D)
    : ServerBuilder A T R D :=
  MkBuilder (b_authenticator b) (b_stats b) (b_router b) (b_conn_manager b) (Some config) (b_dns_cache b).
Definition dns_cache {A T R D} (cache : D) (b : ServerBuilder A T R D) : ServerBuilder A T R D :=
  MkBuilder (b_authenticator b) (b_stats b) (b_router b) (b_conn_manager b) (b_conn_config b) (Some cache).

End Builder.

(** [build]: [None] is the panic of a missing part. *)
Definition build {A T R D} (b : ServerBuilder A T R D) : option (Server A T R D) :=
  dns ← b_dns_cache b;
  auth ← b_authenticator b;
  st ← b_stats b;
  let rt := match b_router b with
            | Some r => GivenRouter r
            | None => FallbackRouter (MkDirectRouter true)
            end in
  let mgr := default manager_new (b_conn_manager b) in
  cfg ← b_conn_config b;
  Some (MkServer auth st rt mgr cfg dns).

(** [build] panics exactly when a required part is missing; without a router it
    screens private addresses. *)
Lemma build_panics {A T R D} (b : ServerBuilder A T R D) :
  build b = None
  ↔ b_dns_cache b = None ∨ b_authenticator b = None ∨ b_stats b = None ∨ b_conn_config b = None.
Proof.
  unfold build. destruct (b_dns_cache b), (b_authenticator b), (b_stats b), (b_conn_config b); naive_solver.
Qed.

Lemma build_screens {A T R D} (b : ServerBuilder A T R D) srv :
  build b = Some srv → b_router b = None → router srv = FallbackRouter (MkDirectRouter true).
Proof.
  unfold build. intros Hb Hr. rewrite Hr in Hb.
  destruct (b_dns_cache b), (b_authenticator b), (b_stats b), (b_conn_config b); by simplify_option_eq.
Qed.
