(* ===== verification/Effects.v ===== *)
(** * Effects of a connection task

    The handlers of [src/src/handler.rs] as programs over their interactions
    with the outside: the client transport, the router and resolver, outbound
    dials, the relay, the connection manager and the statistics.  A program is
    run against an environment that answers each effect from the history so
    far; a panic in the source is a crash of the program.  A session may last
    for ever, so a run is observed for a bounded number of rounds and may stop
    while the session is still running. *)

From S2P Require Import Prelude RustStd Protocol Dns Acl Hooks Relay.

(** [tokio::time::timeout]: the future's output, or the deadline passed. *)
Inductive timed (A : Type) : Type :=
| Done (a : A)
| Elapsed.
Arguments Done {A} a.
Arguments Elapsed {A}.

(** How a relay under [select!] with the kick token ends. *)
Inductive relay_end : Type :=
| RelayDone (r : result CopyResult io_error)
| Kicked.

(** The arms of the UDP session's [select!] other than the UDP socket.  In a
    round in which the client arm does not read from the client, the bytes of
    [ClientArm] are of no consequence. *)
Inductive arm : Type :=
| ClientArm (r : result (list byte) io_error)
| TickArm
| CancelArm.

Section effects.
Context `{AclLib}.

(** [EGuard id] creates the scope guard that unregisters [id] when it is dropped. *)
Inductive eff : Type :=
| EReadRequest
| ECloseClient
| ERegister (u : UserId)
| EUnregister (id : Z)
| ERecordRequest (u : UserId)
| ERecordUpload (u : UserId) (n : Z)
| ERecordDownload (u : UserId) (n : Z)
| ERoute (a : Address)
| ERouteUdp (a : Address)
| EResolve (a : Address)
| EConnect (sa : SocketAddr)
| ETune (nodelay : bool)
| EDialTcp (h : arc OutboundHandler) (addr : AclAddr)
| EDialUdp (h : arc OutboundHandler) (addr : AclAddr)
| EWriteRemote (bs : list byte)
| ERelay (cfg : relay_config) (half_close : bool) (u : UserId)
| EShutdownRemote
| ESelect (udp : option nat) (reads : bool)
| EUdpSend (conn : nat) (bs : list byte) (addr : AclAddr)
| EWriteClient (bs : list byte)
| EElapsedSecs
| ESleep10ms
| EGuard (id : Z).

(** What the environment answers. *)
Definition ans (e : eff) : Type :=
  match e with
  | EReadRequest => timed (result (list byte) io_error)
  | ERegister _ => Z * nat
  | ERoute _ | ERouteUdp _ => OutboundType
  | EResolve _ => result ResolvedAddrs io_error
  | EConnect _ => timed (result unit io_error)
  | EDialTcp _ _ => timed (result unit string)
  | EDialUdp _ _ => result nat string
  | EWriteRemote _ => result unit io_error
  | ERelay _ _ _ => relay_end
  | ESelect (Some _) _ => arm + result (list byte * AclAddr) string
  | ESelect None _ => arm
  | EUdpSend _ _ _ => result Z string
  | EWriteClient _ => timed (result unit io_error)
  | EElapsedSecs => Z
  | _ => unit
  end.

Inductive prog (A : Type) : Type :=
| Ret (a : A)
| Crash
| Stop
| Vis (e : eff) (k : ans e → prog A).

Record event := Ev { ev_eff : eff; ev_ans : ans ev_eff }.

End effects.

Arguments Ret {_ A} a.
Arguments Crash {_ A}.
Arguments Stop {_ A}.
Arguments Vis {_ A} e k.
Arguments Ev {_} ev_eff ev_ans.

Section programs.
Context `{AclLib}.

Fixpoint pbind {A B} (p : prog A) (f : A → prog B) : prog B :=
  match p with
  | Ret a => f a
  | Crash => Crash
  | Stop => Stop
  | Vis e k => Vis e (λ x, pbind (k x) f)
  end.

Definition trigger (e : eff) : prog (ans e) := Vis e Ret.

(** [x?] of a computation that panics on [None]. *)
Definition no_panic {A} (o : option A) : prog A :=
  match o with Some a => Ret a | None => Crash end.

(** ** Running a program *)

(** An environment answers the next effect knowing what has happened. *)
Definition environment : Type := list event → ∀ e : eff, ans e.

(** The events of a run and its result, which is [None] if the observation
    stopped; the whole is [None] when the program crashes. *)
Fixpoint exec {A} (env : environment) (history : list event) (p : prog A)
    : option (list event * option A) :=
  match p with
  | Ret a => Some ([], Some a)
  | Crash => None
  | Stop => Some ([], None)
  | Vis e k =>
      let x := env history e in
      '(t, o) ← exec env (history ++ [Ev e x]) (k x); Some (Ev e x :: t, o)
  end.

(** ** Reasoning about all environments

    [post legal p Q]: whatever answers [legal] allows, [p] does not crash, and
    its events and result are in [Q]. *)
Fixpoint post {A} (legal : ∀ e : eff, ans e → Prop) (p : prog A)
    (Q : list event → option A → Prop) : Prop :=
  match p with
  | Ret a => Q [] (Some a)
  | Crash => False
  | Stop => Q [] None
  | Vis e k => ∀ x, legal e x → post legal (k x) (λ t, Q (Ev e x :: t))
  end.

Lemma post_exec {A} legal env history (p : prog A) Q :
  (∀ h e, legal e (env h e)) → post legal p Q →
  ∃ t o, exec env history p = Some (t, o) ∧ Q t o.
Proof.
  intros Henv. revert history Q.
  induction p as [a| | |e k IH]; intros h Q Hp; simpl in *; [eauto|done|eauto|].
  destruct (IH (env h e) (h ++ [Ev e (env h e)]) (λ t, Q (Ev e (env h e) :: t)) (Hp _ (Henv h e)))
    as (t & o & -> & HQ). eauto.
Qed.

Lemma post_mono {A} legal (p : prog A) (Q Q' : list event → option A → Prop) :
  post legal p Q → (∀ t o, Q t o → Q' t o) → post legal p Q'.
Proof.
  revert Q Q'. induction p as [a| | |e k IH]; intros Q Q' Hp HQ; simpl in *; eauto.
Qed.

Lemma post_legal {A} (legal legal' : ∀ e : eff, ans e → Prop) (p : prog A) Q :
  (∀ e x, legal' e x → legal e x) → post legal p Q → post legal' p Q.
Proof.
  intros Hl. revert Q. induction p as [a| | |e k IH]; intros Q Hp; simpl in *; eauto.
Qed.

Lemma post_bind {A B} legal (p : prog A) (f : A → prog B) Q :
  post legal p (λ t o, match o with
                       | Some a => post legal (f a) (λ t', Q (t ++ t'))
                       | None => Q t None
                       end) →
  post legal (pbind p f) Q.
Proof.
  revert Q. induction p as [a| | |e k IH]; intros Q Hp; simpl in *; [done..|].
  intros x Hx. apply IH. apply (Hp x Hx).
Qed.

(** Sequencing two specifications. *)
Lemma post_seq {A B} legal (p : prog A) (f : A → prog B) Q1 Q :
  post legal p Q1 →
  (∀ t, Q1 t None → Q t None) →
  (∀ t a, Q1 t (Some a) → post legal (f a) (λ t', Q (t ++ t'))) →
  post legal (pbind p f) Q.
Proof.
  intros Hp Hn Hs. apply post_bind. eapply post_mono; [exact Hp|]. intros t [a|]; auto.
Qed.

Lemma post_and {A} legal (p : prog A) Q Q' :
  post legal p Q → post legal p Q' → post legal p (λ t o, Q t o ∧ Q' t o).
Proof. revert Q Q'. induction p as [a| | |e k IH]; intros Q Q' Hp Hq; simpl in *; eauto. Qed.

(** A claim about a run that refers to the run itself: [Q seen] may be proved for
    the answers that occur in [seen], for any [seen]. *)
Lemma post_self {A} legal (p : prog A) (Q : list event → list event → option A → Prop) pre :
  (∀ seen, (∀ ev, ev ∈ pre → ev ∈ seen) → post (λ e x, legal e x ∧ Ev e x ∈ seen) p (Q seen)) →
  post legal p (λ t, Q (pre ++ t) t).
Proof.
  revert pre Q. induction p as [a| | |e k IH]; intros pre Q Hp; simpl.
  - rewrite app_nil_r. by apply Hp.
  - by apply (Hp pre).
  - rewrite app_nil_r. by apply Hp.
  - intros x Hx. eapply post_mono.
    + apply (IH x (pre ++ [Ev e x]) (λ seen t, Q seen (Ev e x :: t))). intros seen Hsub.
      assert (Ev e x ∈ seen) by (apply Hsub; set_solver).
      apply (Hp seen); [|done]. intros ev Hev. apply Hsub. set_solver.
    + intros t o. cbv beta. by rewrite <- app_assoc.
Qed.

Lemma post_trigger {A} legal e (f : ans e → prog A) Q :
  (∀ x, legal e x → post legal (f x) (λ t, Q (Ev e x :: t))) →
  post legal (pbind (trigger e) f) Q.
Proof. done. Qed.

Lemma ans_inhabited (e : eff) : ∃ x : ans e, True.
Proof.
  destruct e as [| | | | | | | | | | | | | | | | |[c|]| | | | |]; simpl;
    first [by exists tt | by exists Elapsed | by exists (0%Z, 0) | by exists Reject
          | by exists (Err (IoError EkOther "")) | by exists (Err "") | by exists Kicked
          | by exists (inl TickArm) | by exists TickArm | by exists 0%Z].
Qed.

(** Whatever is left to run has some outcome. *)
Lemma post_some {B} (p : prog B) Q : post (λ _ _, True) p Q → ∃ t o, Q t o.
Proof.
  revert Q. induction p as [b| | |e k IH]; intros Q Hp; simpl in *; [eauto|done|eauto|].
  destruct (ans_inhabited e) as [x _]. destruct (IH x _ (Hp x I)) as (t & o & Ht). eauto.
Qed.

(** ** Histories *)

Definition count (f : eff → bool) (t : list event) : nat :=
  length (filter (λ ev, f (ev_eff ev) = true) t).

Lemma count_app f t1 t2 : count f (t1 ++ t2) = count f t1 + count f t2.
Proof. unfold count. by rewrite filter_app, length_app. Qed.

Lemma count_cons f ev t : count f (ev :: t) = (if f (ev_eff ev) then 1 else 0) + count f t.
Proof. unfold count. rewrite filter_cons. destruct (f (ev_eff ev)); by simpl. Qed.

Definition is_close (e : eff) : bool := match e with ECloseClient => true | _ => false end.
Definition is_register (e : eff) : bool :=
  match e with ERegister _ | EGuard _ | EUnregister _ | ERecordRequest _ => true | _ => false end.

(** Everything an event bills or relays is for user [u]. *)
Definition billed_to (u : UserId) (ev : event) : Prop :=
  match ev_eff ev with
  | ERecordUpload v _ | ERecordDownload v _ | ERelay _ _ v => v = u
  | _ => True
  end.

(** The bytes the request reader got from the client. *)
Definition read_bytes (t : list event) : list byte :=
  concat (map (λ ev, match ev with
                     | Ev EReadRequest (Done (Ok bs)) => bs
                     | _ => []
                     end) t).

Definition is_read (ev : event) : Prop :=
  match ev_eff ev with EReadRequest => True | _ => False end.

End programs.

Declare Scope prog_scope.
Delimit Scope prog_scope with prog.
Notation "'let!' x := p 'in' k" := (pbind p%prog (λ x, k%prog))
  (at level 10, x pattern, p at level 100, k at level 200) : prog_scope.
Notation "p ;; k" := (pbind p%prog (λ _, k%prog))
  (at level 100, k at level 200, right associativity) : prog_scope.
