(* ===== verification/Handler.v ===== *)
(** * Connection handling: requests and TCP ([src/src/handler.rs])

    Reading and authenticating a request, dispatching it, and the CONNECT
    command, as programs over the effects of a connection task.  Errors are the
    texts of [anyhow] errors. *)

From S2P Require Import Prelude RustStd Protocol Dns Acl Hooks AsyncIo Relay Config Server Effects.
#[local] Open Scope prog_scope.

Section handler.
Context {A T R D : Type} `{AclLib, DnsCache D, !OutboundRouter R D, Authenticator A}.

(** [timeout(CLOSE_TIMEOUT, stream.shutdown())], its outcome ignored. *)
Definition close_client : prog unit := trigger ECloseClient.

(** ** Reading the request *)

(** The [loop] of [read_trojan_request]: every round that goes on has read at
    least one byte, and more than [2 * buffer_size] bytes end it. *)
Fixpoint read_loop (fuel : nat) (buffer_size : Z) (buf : list byte)
    : prog (timed (result TrojanRequest string)) :=
  match fuel with
  | 0 => Crash
  | S fuel' =>
      let read_more :=
        let! r := trigger EReadRequest in
        match r with
        | Elapsed => Ret Elapsed
        | Done (Err e) => Ret (Done (Err (err_msg e)))
        | Done (Ok []) =>
            if decide (buf = [])
            then Ret (Done (Err "Connection closed before receiving request"))
            else Ret (Done (Err "Connection closed with incomplete request"))
        | Done (Ok bs) =>
            let buf' := buf ++ bs in
            if (buffer_size * 2 <? Z.of_nat (length buf'))%Z
            then Ret (Done (Err "Request too large"))
            else read_loop fuel' buffer_size buf'
        end in
      if TrojanRequest.MIN_SIZE <=? length buf then
        let! checked := no_panic (TrojanRequest.check_complete buf) in
        match checked with
        | Ok _ =>
            let! decoded := no_panic (TrojanRequest.decode_zerocopy buf) in
            match decoded.1 with
            | Decoded req _ => Ret (Done (Ok req))
            | Invalid e => Ret (Done (Err ("Invalid request: " +:+ e)))
            | NeedMoreData => Crash
            end
        | Err None => read_more
        | Err (Some e) => Ret (Done (Err ("Invalid request: " +:+ e)))
        end
      else read_more
  end.

Definition read_fuel (buffer_size : Z) : nat := S (S (Z.to_nat (buffer_size * 2))).

Definition read_trojan_request (buffer_size : Z) : prog (timed (result TrojanRequest string)) :=
  read_loop (read_fuel buffer_size) buffer_size [].

(** ** CONNECT *)

Record ConnectContext := MkContext {
  server : Server A T R D;
  target : Address;
  initial_payload : list byte;
  user_id : UserId;
  ctx_transport : TransportType;
}.

Definition set_target (a : Address) (ctx : ConnectContext) : ConnectContext :=
  MkContext (server ctx) a (initial_payload ctx) (user_id ctx) (ctx_transport ctx).

Definition relay_config_of (cfg : ConnConfig) : relay_config :=
  MkRelayConfig (Config.idle_timeout_secs cfg) (uplink_only_timeout_secs cfg)
    (downlink_only_timeout_secs cfg) (Z.to_nat (conn_buffer_size cfg)).

(** [ConnectContext::relay] once the remote stream is there. *)
Definition relay (ctx : ConnectContext) : prog (result unit string) :=
  let run :=
    let! ended := trigger (ERelay (relay_config_of (conn_config (server ctx)))
                             (half_close (ctx_transport ctx)) (user_id ctx)) in
    close_client ;;
    (match ended with
     | Kicked => trigger EShutdownRemote
     | RelayDone _ => Ret tt
     end) ;;
    Ret (Ok tt) in
  if decide (initial_payload ctx = []) then run
  else
    trigger (ERecordUpload (user_id ctx) (Z.of_nat (length (initial_payload ctx)))) ;;
    let! w := trigger (EWriteRemote (initial_payload ctx)) in
    match w with
    | Err e => close_client ;; Ret (Err (err_msg e))
    | Ok _ => run
    end.

Definition acl_addr_for (target : Address) (resolved : option ResolvedAddrs) : AclAddr :=
  MkAclAddr (Address.host target) (Address.port target)
    ((λ r, MkResolveInfo (r_v4 r) (r_v6 r) None) <$> resolved).

Definition dial_via_handler (ctx : ConnectContext) (handler : arc OutboundHandler)
    (resolved : option ResolvedAddrs) (kind : string) : prog (result unit string) :=
  let! r := trigger (EDialTcp handler (acl_addr_for (target ctx) resolved)) in
  match r with
  | Done (Ok _) => relay ctx
  | Done (Err e) => close_client ;; Ret (Err (kind +:+ " connect failed: " +:+ e))
  | Elapsed => close_client ;; Ret (Err (kind +:+ " connect timeout"))
  end.

(** The loop over the connect candidates: connected, or the last error. *)
Fixpoint connect_first (nodelay : bool) (candidates : list SocketAddr) (last_err : option string)
    : prog (result unit (option string)) :=
  match candidates with
  | [] => Ret (Err last_err)
  | remote_addr :: rest =>
      let! r := trigger (EConnect remote_addr) in
      match r with
      | Done (Ok _) => trigger (ETune nodelay) ;; Ret (Ok tt)
      | Done (Err e) => connect_first nodelay rest (Some (err_msg e))
      | Elapsed => connect_first nodelay rest (Some "TCP connect timeout")
      end
  end.

Definition connect_resolved (ctx : ConnectContext) (resolved : ResolvedAddrs)
    : prog (result unit string) :=
  let! c := connect_first (conn_tcp_nodelay (conn_config (server ctx)))
              (Resolved.candidates resolved) None in
  match c with
  | Ok _ => relay ctx
  | Err last_err => close_client ;; Ret (Err (default "no address to connect to" last_err))
  end.

Definition handle_direct_connect (ctx : ConnectContext) (resolved : option ResolvedAddrs)
    (handler : option (arc OutboundHandler)) : prog (result unit string) :=
  match handler with
  | Some h => dial_via_handler ctx h resolved "direct"
  | None =>
      match resolved with
      | Some r => connect_resolved ctx r
      | None =>
          let! r := trigger (EResolve (target ctx)) in
          match r with
          | Ok r => connect_resolved ctx r
          | Err e => close_client ;; Ret (Err (err_msg e))
          end
      end
  end.

Definition handle_proxy_connect (ctx : ConnectContext) (handler : arc OutboundHandler)
    (hijack : option IpAddr) : prog (result unit string) :=
  let ctx' :=
    match hijack with
    | Some ip => set_target (Address.from_ip ip (Address.port (target ctx))) ctx
    | None => ctx
    end in
  dial_via_handler ctx' handler None "proxy".

Definition handle_connect (ctx : ConnectContext) : prog (result unit string) :=
  let! outbound := trigger (ERoute (target ctx)) in
  match outbound with
  | Direct resolved handler => handle_direct_connect ctx resolved handler
  | Proxy handler hijack => handle_proxy_connect ctx handler hijack
  | Reject => close_client ;; Ret (Ok tt)
  end.

(** ** One connection *)

(** [udp] is [handle_udp_associate], the other command.  The scope guard is dropped
    on return; when the whole future is dropped instead, the guard runs there
    ([drop_glue] of the running service). *)
Definition process_connection (srv : Server A T R D) (transport : TransportType)
    (udp : list byte → UserId → prog (result unit string)) : prog (result unit string) :=
  let! request := read_trojan_request (conn_buffer_size (conn_config srv)) in
  match request with
  | Elapsed => close_client ;; Ret (Err "Request read timeout")
  | Done (Err e) => close_client ;; Ret (Err e)
  | Done (Ok request) =>
      match authenticate (authenticator srv) (password request) with
      | None => close_client ;; Ret (Err "Invalid user credentials")
      | Some u =>
          let! registered := trigger (ERegister u) in
          trigger (EGuard registered.1) ;;
          trigger (ERecordRequest u) ;;
          let! result :=
            match cmd request with
            | Connect => handle_connect (MkContext srv (addr request) (payload request) u transport)
            | UdpAssociate => udp (payload request) u
            end in
          trigger (EUnregister registered.1) ;;
          Ret result
      end
  end.

End handler.

(** ** The request reader *)

Section reader.
Context `{AclLib}.

Definition anything (e : eff) (x : ans e) : Prop := True.

(** What reading ends with: a verdict, after nothing but reads; a request is
    exactly what the client sent, header and payload. *)
Definition read_result (buf : list byte) (t : list event)
    (o : option (timed (result TrojanRequest string))) : Prop :=
  Forall is_read t
  ∧ ∃ r, o = Some r
    ∧ match r with
      | Done (Ok req) => request_typed req ∧ header_wire req ++ payload req = buf ++ read_bytes t
      | _ => True
      end.

Lemma read_result_nil buf r :
  match r with Done (Ok _) => False | _ => True end → read_result buf [] (Some r).
Proof. intros Hr. split; [constructor|]. eexists; split; [done|]. by destruct r as [[|]|]. Qed.

Lemma read_loop_result fuel size buf :
  (0 ≤ size)%Z → (Z.of_nat (length buf) ≤ size * 2)%Z →
  S (S (Z.to_nat (size * 2))) ≤ fuel + length buf →
  post anything (read_loop fuel size buf) (read_result buf).
Proof.
  intros Hsize. revert buf. induction fuel as [|fuel IH]; intros buf Hle Hfuel; [lia|].
  assert (Hmore : ∀ x, post anything
    match x with
    | Elapsed => Ret Elapsed
    | Done (Err e) => Ret (Done (Err (err_msg e)))
    | Done (Ok []) =>
        if decide (buf = []) then Ret (Done (Err "Connection closed before receiving request"))
        else Ret (Done (Err "Connection closed with incomplete request"))
    | Done (Ok (b :: bs)) =>
        if (size * 2 <? Z.of_nat (length (buf ++ b :: bs)))%Z
        then Ret (Done (Err "Request too large"))
        else read_loop fuel size (buf ++ b :: bs)
    end (λ t, read_result buf (Ev EReadRequest x :: t))).
  { assert (Hend : ∀ x r, match r with Done (Ok _) => False | _ => True end →
      read_result buf [Ev EReadRequest x] (Some r)).
    { intros x r Hr. split; [repeat constructor|]. eexists; split; [done|]. by destruct r as [[|]|]. }
    intros [[[|b bs]|e]|]; [case_decide; by apply Hend| |by apply Hend|by apply Hend].
    destruct (Z.ltb_spec (size * 2) (Z.of_nat (length (buf ++ b :: bs)))); [by apply Hend|].
    eapply post_mono; [apply IH; [done|rewrite length_app; simpl; lia]|].
    intros t o [Hr (r & -> & Hreq)]. split; [by constructor|]. eexists; split; [done|].
    destruct r as [[req|]|]; try done. destruct Hreq as [? ->]. split; [done|].
    by rewrite <- app_assoc. }
  cbn [read_loop]. destruct (TrojanRequest.MIN_SIZE <=? length buf);
    [|intros x _; specialize (Hmore x); by destruct x as [[[|]|]|]].
  pose proof (check_complete_agrees buf) as Hagree.
  destruct (TrojanRequest.check_complete buf) as [[n|[msg|]]|]; [| | |done]; cbn [no_panic pbind].
  - destruct Hagree as [req Hreq]. rewrite Hreq. cbn [no_panic pbind fst post].
    destruct (request_decode_inv _ _ _ _ Hreq) as (Hty & Hbuf & _).
    split; [constructor|]. eexists; split; [done|]. split; [done|]. simpl. by rewrite app_nil_r.
  - by apply read_result_nil.
  - intros x _; specialize (Hmore x); by destruct x as [[[|]|]|].
Qed.

Lemma read_trojan_request_result size :
  (0 ≤ size)%Z → post anything (read_trojan_request size) (read_result []).
Proof. intros Hs. apply read_loop_result; [done|simpl; lia|]. unfold read_fuel. simpl. lia. Qed.

End reader.

(** ** Every event of a task

    [legal] are the answers considered, [good] is what is claimed of every event
    of a task of the context's user. *)

Section good_events.
Context {A T R D : Type} `{AclLib, DnsCache D, !OutboundRouter R D, Authenticator A}.
Variable legal : ∀ e : eff, ans e → Prop.
Variable good : event → Prop.

(** What the target becomes under a hijack rule. *)
Definition hijacked (tgt : Address) (hijack : option IpAddr) : Address :=
  match hijack with
  | Some ip => Address.from_ip ip (Address.port tgt)
  | None => tgt
  end.

Lemma set_target_same (ctx : ConnectContext (A := A) (T := T) (R := R) (D := D)) :
  set_target (target ctx) ctx = ctx.
Proof using Type. by destruct ctx. Qed.

Abbreviation all_good p := (post legal p (λ t _, Forall good t)).

(** The events of the CONNECT command whose argument is not the network's. *)
Definition connect_rest (u : UserId) (pl : list byte) (e : eff) : Prop :=
  match e with
  | ECloseClient | EShutdownRemote | ETune _ => True
  | ERelay _ _ v => v = u
  | ERecordUpload v n => v = u ∧ n = Z.of_nat (length pl)
  | EWriteRemote bs => bs = pl
  | _ => False
  end.

Section connect_good.
Variable ctx : ConnectContext (A := A) (T := T) (R := R) (D := D).
Hypothesis good_rest : ∀ e x, connect_rest (user_id ctx) (initial_payload ctx) e → good (Ev e x).

Lemma close_good (r : result unit string) : all_good (close_client ;; Ret r).
Proof using Type*. intros x _. constructor; [by apply good_rest|constructor]. Qed.

Lemma relay_good tgt : all_good (relay (set_target tgt ctx)).
Proof using Type*.
  assert (Hrun : ∀ pre, Forall good pre → post legal
    (let! ended := trigger (ERelay (relay_config_of (conn_config (server ctx)))
                              (half_close (ctx_transport ctx)) (user_id ctx)) in
     close_client ;;
     (match ended with Kicked => trigger EShutdownRemote | RelayDone _ => Ret tt end) ;;
     Ret (Ok (E := string) tt))%prog (λ t _, Forall good (pre ++ t))).
  { intros pre Hp ended _ x _. destruct ended; simpl; [|intros y _];
      (apply Forall_app_2; [done|]); repeat constructor; by apply good_rest. }
  unfold relay. cbn [initial_payload set_target user_id]. case_decide; [by apply (Hrun [])|].
  intros x _ w _.
  assert (Hpre : Forall good [Ev (ERecordUpload (user_id ctx) (Z.of_nat (length (initial_payload ctx)))) x;
                              Ev (EWriteRemote (initial_payload ctx)) w])
    by (repeat constructor; by apply good_rest).
  destruct w as [[]|e]; [exact (Hrun _ Hpre)|]. intros y _. apply (Forall_app_2 _ _ [_] Hpre).
  constructor; [by apply good_rest|constructor].
Qed.

Lemma dial_good tgt h resolved kind :
  (∀ x, good (Ev (EDialTcp h (acl_addr_for tgt resolved)) x)) →
  all_good (dial_via_handler (set_target tgt ctx) h resolved kind).
Proof using Type*.
  intros Hd x _. specialize (Hd x). destruct x as [[[]|e]|];
    (eapply post_mono; [by apply relay_good || by apply close_good|]; intros t o Ht; by constructor).
Qed.

Lemma connect_first_good nodelay cands last :
  (∀ sa x, sa ∈ cands → good (Ev (EConnect sa) x)) → all_good (connect_first nodelay cands last).
Proof using Type*.
  revert last. induction cands as [|sa cands IH]; intros last Hc; simpl; [constructor|].
  intros x _. assert (Hx : good (Ev (EConnect sa) x)) by apply Hc, list_elem_of_here.
  destruct x as [[[]|e]|]; [intros y _; repeat constructor; [done|by apply good_rest]| |];
    (eapply post_mono; [apply IH; intros sa' x' Hin; by apply Hc, list_elem_of_further|];
     intros t o Ht; by constructor).
Qed.

Lemma connect_resolved_good res :
  (∀ sa x, sa ∈ Resolved.candidates res → good (Ev (EConnect sa) x)) →
  all_good (connect_resolved ctx res).
Proof using Type*.
  intros Hc. eapply post_seq; [by apply connect_first_good|done|]. intros t c Ht.
  pose proof (relay_good (target ctx)) as Hrelay. rewrite set_target_same in Hrelay. destruct c;
    (eapply post_mono; [exact Hrelay || by apply close_good|];
     intros t' o Ht'; by apply Forall_app_2).
Qed.

(** What is good of routing, of every dial and of every connect that the
    verdict allows is good of every event of the command. *)
Lemma handle_connect_good :
  (∀ out, legal (ERoute (target ctx)) out →
     good (Ev (ERoute (target ctx)) out)
     ∧ match out with
       | Direct res (Some h) => ∀ x, good (Ev (EDialTcp h (acl_addr_for (target ctx) res)) x)
       | Direct res None =>
           match res with
           | Some res => ∀ sa x, sa ∈ Resolved.candidates res → good (Ev (EConnect sa) x)
           | None =>
               ∀ r, legal (EResolve (target ctx)) r →
                 good (Ev (EResolve (target ctx)) r)
                 ∧ ∀ res sa x, r = Ok res → sa ∈ Resolved.candidates res → good (Ev (EConnect sa) x)
           end
       | Proxy h hijack =>
           ∀ x, good (Ev (EDialTcp h (acl_addr_for (hijacked (target ctx) hijack) None)) x)
       | Reject => True
       end) →
  all_good (handle_connect ctx).
Proof using Type*.
  intros Hroute out Hout. destruct (Hroute out Hout) as [Hg Hv].
  pose proof (dial_good (target ctx)) as Hdial. rewrite set_target_same in Hdial.
  assert (Hskip : ∀ p : prog (result unit string), all_good p →
    post legal p (λ t _, Forall good (Ev (ERoute (target ctx)) out :: t))).
  { intros p Hp. eapply post_mono; [exact Hp|]. intros t o Ht. by constructor. }
  destruct out as [res [h|]| |h hijack]; apply Hskip; [| |apply close_good|].
  - by apply Hdial.
  - destruct res as [res|]; [by apply connect_resolved_good|]. intros r Hr.
    destruct (Hv r Hr) as [Hgr Hc]. destruct r as [res|e];
      (eapply post_mono; [apply connect_resolved_good || apply close_good|intros t o Ht; by constructor]).
    intros sa x. by apply Hc.
  - unfold handle_proxy_connect. destruct hijack as [ip|]; [by apply dial_good|].
    by apply Hdial.
Qed.

End connect_good.

(** The whole task, given both commands for every request the reads can give. *)
Lemma process_connection_good (srv : Server A T R D) transport udp :
  (0 ≤ conn_buffer_size (conn_config srv))%Z →
  (∀ e x, match e with
          | EReadRequest | ECloseClient | ERegister _ | EGuard _ | EUnregister _ | ERecordRequest _ => True
          | _ => False
          end → good (Ev e x)) →
  (∀ req u, request_typed req → authenticate (authenticator srv) (password req) = Some u →
     all_good (handle_connect (MkContext srv (addr req) (payload req) u transport))
     ∧ all_good (udp (payload req) u)) →
  all_good (process_connection srv transport udp).
Proof using Type.
  intros Hsize Hg Hcmd. unfold process_connection.
  eapply post_seq; [eapply post_legal; [|by apply read_trojan_request_result]; done
                   |by intros t (_ & x & [=] & _)|].
  intros reads r (Hreads & r' & [= <-] & Hr).
  assert (Hr' : Forall good reads).
  { eapply Forall_impl; [exact Hreads|]. intros [e y] He. apply Hg. by destruct e. }
  assert (Hpre : ∀ (p : prog (result unit string)) pre, Forall good pre → all_good p →
    post legal p (λ t _, Forall good (pre ++ t))).
  { intros p pre Hp Hq. eapply post_mono; [exact Hq|]. intros t o Ht. by apply Forall_app_2. }
  assert (Hclose : ∀ e, all_good (close_client ;; Ret (Err (A := unit) (E := string) e))).
  { intros e x _. constructor; [by apply Hg|constructor]. }
  apply Hpre; [done|]. destruct r as [[req|e]|]; [|apply Hclose|apply Hclose].
  destruct Hr as [Hty _].
  destruct (authenticate (authenticator srv) (password req)) as [u|] eqn:Hauth; [|apply Hclose].
  destruct (Hcmd req u Hty Hauth) as [Hconnect Hudp].
  apply post_trigger. intros [id tok] _. apply post_trigger. intros y0 _. apply post_trigger. intros y _.
  apply (Hpre _ [Ev (ERegister u) (id, tok); Ev (EGuard id) y0; Ev (ERecordRequest u) y]);
    [repeat constructor; by apply Hg|].
  eapply (post_seq _ _ _ (λ t _, Forall good t)); [by destruct (cmd req)|done|].
  intros t res Ht z _. apply Forall_app_2; [done|]. repeat constructor. by apply Hg.
Qed.

End good_events.

(** ** CONNECT: one close, nothing registered, everything billed to the user *)

Section connect.
Context {A T R D : Type} `{AclLib, DnsCache D, !OutboundRouter R D, Authenticator A}.

(** The events of a command handler: the client is closed exactly once if the
    handler ends, and registration is left to the caller. *)
Definition command_events (u : UserId) (t : list event) (o : option (result unit string)) : Prop :=
  count is_close t = (match o with Some _ => 1 | None => 0 end)
  ∧ count is_register t = 0 ∧ Forall (billed_to u) t.

Lemma command_events_cons u ev t o :
  is_close (ev_eff ev) = false → is_register (ev_eff ev) = false → billed_to u ev →
  command_events u t o → command_events u (ev :: t) o.
Proof.
  intros Hc Hr Hb (E1 & E2 & E3). unfold command_events. rewrite !count_cons, Hc, Hr.
  split_and!; [done..|by constructor].
Qed.

Lemma close_then u (r : result unit string) :
  post anything (close_client ;; Ret r) (command_events u).
Proof. intros x _. split_and!; [done..|]. by repeat constructor. Qed.

Lemma relay_events (ctx : ConnectContext (A := A) (T := T) (R := R) (D := D)) :
  post anything (relay ctx) (command_events (user_id ctx)).
Proof.
  assert (Hrun : ∀ pre, Forall (billed_to (user_id ctx)) pre → count is_close pre = 0 →
    count is_register pre = 0 →
    post anything
     (let! ended := trigger (ERelay (relay_config_of (conn_config (server ctx)))
                               (half_close (ctx_transport ctx)) (user_id ctx)) in
      close_client ;;
      (match ended with Kicked => trigger EShutdownRemote | RelayDone _ => Ret tt end) ;;
      Ret (Ok tt))%prog (λ t o, command_events (user_id ctx) (pre ++ t) o)).
  { intros pre Hp Hc Hr ended _ x _. destruct ended; simpl; [|intros y _];
      unfold command_events; rewrite !count_app, Hc, Hr; split_and!; try done;
      apply Forall_app; split; try done; by repeat constructor. }
  unfold relay. case_decide; [by apply (Hrun [])|].
  intros x _ w _. destruct w as [[]|e].
  - apply (Hrun [Ev (ERecordUpload _ _) x; Ev (EWriteRemote _) (Ok tt)]); try done.
    by repeat constructor.
  - intros y _. split_and!; try done. by repeat constructor.
Qed.

Lemma dial_via_handler_events (ctx : ConnectContext (A := A) (T := T) (R := R) (D := D)) h res kind :
  post anything (dial_via_handler ctx h res kind) (command_events (user_id ctx)).
Proof.
  intros x _. destruct x as [[[]|e]|].
  - eapply post_mono; [apply relay_events|]. intros t o. by apply command_events_cons.
  - eapply post_mono; [apply close_then|]. intros t o. by apply command_events_cons.
  - eapply post_mono; [apply close_then|]. intros t o. by apply command_events_cons.
Qed.

Lemma connect_first_events u nodelay cands last :
  post anything (connect_first nodelay cands last)
    (λ t o, o ≠ None ∧ count is_close t = 0 ∧ count is_register t = 0 ∧ Forall (billed_to u) t).
Proof.
  revert last. induction cands as [|sa cands IH]; intros last; simpl; [done|].
  intros x _. destruct x as [[[]|e]|]; [intros y _; split_and!; try done; by repeat constructor| |];
    (eapply post_mono; [apply IH|]; intros t o (? & ? & ? & ?); rewrite !count_cons;
     split_and!; try done; by constructor).
Qed.

Lemma connect_resolved_events (ctx : ConnectContext (A := A) (T := T) (R := R) (D := D)) r :
  post anything (connect_resolved ctx r) (command_events (user_id ctx)).
Proof.
  eapply post_seq; [apply (connect_first_events (user_id ctx))|naive_solver|].
  intros t c (_ & Hc & Hr & Hb).
  assert (Happ : ∀ t' o, command_events (user_id ctx) t' o → command_events (user_id ctx) (t ++ t') o).
  { intros t' o (? & ? & ?). unfold command_events. rewrite !count_app, Hc, Hr. split_and!; try done.
    by apply Forall_app. }
  destruct c.
  - eapply post_mono; [apply relay_events|exact Happ].
  - eapply post_mono; [apply (close_then (user_id ctx))|exact Happ].
Qed.

Lemma handle_connect_events (ctx : ConnectContext (A := A) (T := T) (R := R) (D := D)) :
  post anything (handle_connect ctx) (command_events (user_id ctx)).
Proof.
  intros out _. destruct out as [res h| |h hijack].
  - destruct h as [h|]; [|destruct res as [r|]].
    + eapply post_mono; [apply dial_via_handler_events|]. intros t o. by apply command_events_cons.
    + eapply post_mono; [apply connect_resolved_events|]. intros t o. by apply command_events_cons.
    + intros [r|e] _; [eapply post_mono; [apply connect_resolved_events|]
                      |eapply post_mono; [apply (close_then (user_id ctx))|]];
        intros t o ?; by do 2 (apply command_events_cons; [done..|]).
  - eapply post_mono; [apply close_then|]. intros t o. by apply command_events_cons.
  - eapply post_mono; [by destruct hijack; apply dial_via_handler_events|].
    intros t o He. apply command_events_cons; try done. by destruct hijack.
Qed.

(** ** The life of a connection *)

(** First nothing but reads.  Then either the client is closed and the task
    fails, or the reads were exactly one request of a user the authenticator
    knows: the connection is registered, guarded and counted, the command runs,
    and when it ends the same connection is unregistered. *)
Definition lifecycle (srv : Server A T R D) (t : list event) (o : option (result unit string)) : Prop :=
  ∃ reads rest, t = reads ++ rest ∧ Forall is_read reads
  ∧ ((∃ x e, rest = [Ev ECloseClient x] ∧ o = Some (Err e))
     ∨ ∃ req u id tok x body,
         request_typed req ∧ header_wire req ++ payload req = read_bytes reads
         ∧ authenticate (authenticator srv) (password req) = Some u
         ∧ command_events u body o
         ∧ rest = Ev (ERegister u) (id, tok) :: Ev (EGuard id) tt :: Ev (ERecordRequest u) x :: body
                  ++ match o with Some _ => [Ev (EUnregister id) tt] | None => [] end).

Lemma process_connection_lifecycle (srv : Server A T R D) transport udp :
  (0 ≤ conn_buffer_size (conn_config srv))%Z →
  (∀ pl u, post anything (udp pl u) (command_events u)) →
  post anything (process_connection srv transport udp) (lifecycle srv).
Proof.
  intros Hsize Hudp. unfold process_connection.
  eapply post_seq; [by apply read_trojan_request_result|by intros t (_ & r & [=] & _)|].
  intros reads r (Hreads & r' & [= <-] & Hr).
  assert (Hfail : ∀ e, post anything (close_client ;; Ret (Err e))
    (λ t, lifecycle srv (reads ++ t))).
  { intros e x _. exists reads, [Ev ECloseClient x]. split_and!; eauto. }
  destruct r as [[req|e]|]; [|by apply Hfail|by apply Hfail]. destruct Hr as [Hty Hreq]. simpl in Hreq.
  destruct (authenticate (authenticator srv) (password req)) as [u|] eqn:Hauth; [|by apply Hfail].
  apply post_trigger. intros [id tok] _. apply post_trigger. intros [] _. apply post_trigger. intros x _.
  assert (Hcmd : post anything
    match cmd req with
    | Connect => handle_connect (MkContext srv (addr req) (payload req) u transport)
    | UdpAssociate => udp (payload req) u
    end (command_events u)).
  { destruct (cmd req); [|apply Hudp].
    apply (handle_connect_events (MkContext srv (addr req) (payload req) u transport)). }
  eapply post_seq; [exact Hcmd| |].
  - intros body Hbody. exists reads. eexists. split; [done|]. split; [done|]. right.
    exists req, u, id, tok, x, body. by rewrite app_nil_r.
  - intros body res Hbody [] _. exists reads. eexists. split; [done|]. split; [done|]. right.
    exists req, u, id, tok, x, body. done.
Qed.

End connect.
