(* ===== verification/Udp.v ===== *)
(** * UDP sessions ([handle_udp_associate] of [src/src/handler.rs])

    One UDP session: packets framed inside the client's stream, a route cache,
    one outbound association at a time, error limits and the idle timer.  One
    round of the [select!] loop is a program; the session is observed for a
    bounded number of rounds. *)

From S2P Require Import Prelude RustStd Protocol Dns Acl Hooks AsyncIo Relay Config Server Effects Handler.
#[local] Open Scope prog_scope.

Definition UDP_MAX_ROUTE_CACHE_ENTRIES : nat := 256.
Definition UDP_MAX_CONSECUTIVE_ERRORS : nat := 8.
Definition UDP_MAX_READ_BUFFER_SIZE : Z := 64 * 1024.

Definition acl_addr_to_address (a : AclAddr) : Address :=
  match parse_ip (addr_host a) with
  | Some ip => Address.from_ip ip (addr_port a)
  | None => Domain (addr_host a) (addr_port a)
  end.

Section udp.
Context `{AclLib}.

Record UdpRoute := MkUdpRoute { outbound : OutboundType; send_addr : AclAddr }.

(** The shared [OnceLock] handler; it is never compared by pointer. *)
Definition default_direct_handler : arc OutboundHandler := MkArc 0 (HDirect direct_new).

Definition route_udp_target (target : Address) : prog UdpRoute :=
  let! out := trigger (ERouteUdp target) in
  Ret (MkUdpRoute out
    match out with
    | Direct resolved _ => acl_addr_for target resolved
    | Proxy _ (Some ip) => acl_addr_for (Address.from_ip ip (Address.port target)) None
    | _ => acl_addr_for target None
    end).

(** The local variables of the session. *)
Record udp_session := MkSession {
  read_buf : list byte;
  route_cache : gmap Address UdpRoute;
  udp_conn : option nat;
  current_handler : option (arc OutboundHandler);
  last_activity_secs : Z;
  recv_errors : nat;
  send_errors : nat;
  pending_buffered : bool;
}.

Definition session_start (initial_payload : list byte) : udp_session :=
  MkSession initial_payload ∅ None None 0 0 0 (negb (bool_decide (initial_payload = []))).

Definition set_buf (b : list byte) (s : udp_session) : udp_session :=
  MkSession b (route_cache s) (udp_conn s) (current_handler s) (last_activity_secs s)
    (recv_errors s) (send_errors s) (pending_buffered s).
Definition set_cache (c : gmap Address UdpRoute) (s : udp_session) : udp_session :=
  MkSession (read_buf s) c (udp_conn s) (current_handler s) (last_activity_secs s)
    (recv_errors s) (send_errors s) (pending_buffered s).
Definition set_conn (c : option nat) (h : option (arc OutboundHandler)) (s : udp_session)
    : udp_session :=
  MkSession (read_buf s) (route_cache s) c h (last_activity_secs s)
    (recv_errors s) (send_errors s) (pending_buffered s).
Definition set_sent (now : Z) (s : udp_session) : udp_session :=
  MkSession (read_buf s) (route_cache s) (udp_conn s) (current_handler s) now
    (recv_errors s) 0 (pending_buffered s).
Definition set_received (now : Z) (s : udp_session) : udp_session :=
  MkSession (read_buf s) (route_cache s) (udp_conn s) (current_handler s) now
    0 (send_errors s) (pending_buffered s).
Definition set_send_errors (n : nat) (s : udp_session) : udp_session :=
  MkSession (read_buf s) (route_cache s) (udp_conn s) (current_handler s) (last_activity_secs s)
    (recv_errors s) n (pending_buffered s).
Definition set_recv_errors (n : nat) (s : udp_session) : udp_session :=
  MkSession (read_buf s) (route_cache s) (udp_conn s) (current_handler s) (last_activity_secs s)
    n (send_errors s) (pending_buffered s).
Definition clear_pending (s : udp_session) : udp_session :=
  MkSession (read_buf s) (route_cache s) (udp_conn s) (current_handler s) (last_activity_secs s)
    (recv_errors s) (send_errors s) false.

(** The route of a target, from the cache or freshly computed; a full cache is
    emptied first. *)
Definition lookup_route (target : Address) (s : udp_session) : prog (UdpRoute * udp_session) :=
  match route_cache s !! target with
  | Some cached => Ret (cached, s)
  | None =>
      let! r := route_udp_target target in
      let cache := if UDP_MAX_ROUTE_CACHE_ENTRIES <=? size (route_cache s)
                   then ∅ else route_cache s in
      Ret (r, set_cache (<[target := r]> cache) s)
  end.

(** Make the association fit the route: [false] when the packet is skipped. *)
Definition ensure_conn (r : UdpRoute) (s : udp_session) : prog (bool * udp_session) :=
  match outbound r with
  | Reject => Ret (false, s)
  | Direct _ handler =>
      if bool_decide (udp_conn s = None) || match current_handler s with Some _ => true | None => false end
      then
        let! d := trigger (EDialUdp (default default_direct_handler handler) (send_addr r)) in
        match d with
        | Ok conn => Ret (true, set_conn (Some conn) None s)
        | Err _ => Ret (false, set_conn None None s)
        end
      else Ret (true, s)
  | Proxy handler _ =>
      if negb (allows_udp (arc_val handler)) then Ret (false, s)
      else
        let need_new_conn :=
          match current_handler s with
          | None => true
          | Some h => negb (ptr_eq h handler)
          end in
        if need_new_conn then
          let! d := trigger (EDialUdp handler (send_addr r)) in
          match d with
          | Ok conn => Ret (true, set_conn (Some conn) (Some handler) s)
          | Err _ => Ret (false, set_conn None (current_handler s) s)
          end
        else Ret (true, s)
  end.

(** Send over the association, if there is one: [true] is [giving_up]. *)
Definition send_payload (u : UserId) (r : UdpRoute) (payload : list byte) (s : udp_session)
    : prog (bool * udp_session) :=
  match udp_conn s with
  | None => Ret (false, s)
  | Some conn =>
      let! w := trigger (EUdpSend conn payload (send_addr r)) in
      match w with
      | Ok n =>
          let! now := trigger EElapsedSecs in
          trigger (ERecordUpload u n) ;;
          Ret (false, set_sent now s)
      | Err _ =>
          let errors := S (send_errors s) in
          Ret (UDP_MAX_CONSECUTIVE_ERRORS <=? errors, set_send_errors errors s)
      end
  end.

Definition handle_packet (u : UserId) (p : TrojanUdpPacket) (s : udp_session)
    : prog (bool * udp_session) :=
  let! (r, s1) := lookup_route (udp_addr p) s in
  let! (ready, s2) := ensure_conn r s1 in
  if ready : bool then send_payload u r (udp_payload p) s2 else Ret (false, s2).

(** [while !read_buf.is_empty()]: every packet consumes bytes. *)
Fixpoint process_packets (fuel : nat) (u : UserId) (s : udp_session) : prog (bool * udp_session) :=
  if decide (read_buf s = []) then Ret (false, s)
  else match fuel with
  | 0 => Crash
  | S fuel' =>
      let! decoded := no_panic (TrojanUdpPacket.decode_zerocopy (read_buf s)) in
      let s1 := set_buf decoded.2 s in
      match decoded.1 with
      | NeedMoreData => Ret (false, s1)
      | Invalid _ => Ret (true, s1)
      | Decoded p _ =>
          let! (giving_up, s2) := handle_packet u p s1 in
          if giving_up : bool then Ret (true, s2) else process_packets fuel' u s2
      end
  end.

(** ** The arms of the loop: [None] leaves it *)

Definition client_arm (u : UserId) (r : result (list byte) io_error) (s : udp_session)
    : prog (option udp_session) :=
  let buffered := pending_buffered s in
  let s0 := clear_pending s in
  let result : result (option (list byte)) io_error :=
    if buffered then Ok None
    else if (UDP_MAX_READ_BUFFER_SIZE <=? Z.of_nat (length (read_buf s)))%Z
    then Err (IoError EkOutOfMemory "UDP read buffer exceeded limit")
    else match r with Ok bs => Ok (Some bs) | Err e => Err e end in
  match result with
  | Err _ => Ret None
  | Ok (Some []) => Ret None
  | Ok got =>
      let s1 := set_buf (read_buf s0 ++ default [] got) s0 in
      let! (giving_up, s2) := process_packets (length (read_buf s1)) u s1 in
      Ret (if giving_up : bool then None else Some s2)
  end.

Definition udp_arm (u : UserId) (r : result (list byte * AclAddr) string) (s : udp_session)
    : prog (option udp_session) :=
  match r with
  | Ok (data, from_addr) =>
      let response := TrojanUdpPacket.encode (acl_addr_to_address from_addr) data in
      let! written := trigger (EWriteClient response) in
      match written with
      | Done (Ok _) =>
          let! now := trigger EElapsedSecs in
          trigger (ERecordDownload u (Z.of_nat (length data))) ;;
          Ret (Some (set_received now s))
      | _ => Ret None
      end
  | Err _ =>
      let errors := S (recv_errors s) in
      if UDP_MAX_CONSECUTIVE_ERRORS <=? errors then Ret None
      else trigger ESleep10ms ;; Ret (Some (set_recv_errors errors s))
  end.

Definition idle_arm (idle_timeout : Z) (s : udp_session) : prog (option udp_session) :=
  let! now := trigger EElapsedSecs in
  let idle_secs := saturating_sub now (last_activity_secs s) in
  Ret (if (idle_timeout <=? idle_secs)%Z then None else Some s).

Definition on_arm (idle_timeout : Z) (u : UserId) (a : arm) (s : udp_session)
    : prog (option udp_session) :=
  match a with
  | ClientArm r => client_arm u r s
  | TickArm => idle_arm idle_timeout s
  | CancelArm => Ret None
  end.

(** The client arm reads from the client unless there is buffered data to take
    up first, or the buffer is full. *)
Definition client_reads (s : udp_session) : bool :=
  negb (pending_buffered s) && negb (UDP_MAX_READ_BUFFER_SIZE <=? Z.of_nat (length (read_buf s)))%Z.

(** One round of [select!]; the UDP arm exists only with an association. *)
Definition udp_round (idle_timeout : Z) (u : UserId) (s : udp_session) : prog (option udp_session) :=
  match udp_conn s with
  | None =>
      let! a := trigger (ESelect None (client_reads s)) in
      on_arm idle_timeout u a s
  | Some c =>
      let! a := trigger (ESelect (Some c) (client_reads s)) in
      match a with
      | inl a => on_arm idle_timeout u a s
      | inr r => udp_arm u r s
      end
  end.

Fixpoint udp_loop (rounds : nat) (idle_timeout : Z) (u : UserId) (s : udp_session) : prog unit :=
  match rounds with
  | 0 => Stop
  | S rounds' =>
      let! next := udp_round idle_timeout u s in
      match next with
      | Some s' => udp_loop rounds' idle_timeout u s'
      | None => Ret tt
      end
  end.

Definition handle_udp_associate (rounds : nat) (cfg : ConnConfig) (initial_payload : list byte)
    (u : UserId) : prog (result unit string) :=
  udp_loop rounds (Config.idle_timeout_secs cfg) u (session_start initial_payload) ;;
  close_client ;;
  Ret (Ok tt).

End udp.

(** ** Invariants of a session *)

Definition direct_handler `{AclLib} (h : arc OutboundHandler) : bool :=
  match arc_val h with HDirect _ => true | _ => false end.

Definition proxy_handler `{AclLib} (h : arc OutboundHandler) : bool :=
  match arc_val h with HSocks5 _ _ | HHttp _ => true | _ => false end.

Section session_facts.
Context `{AclLib} (u : UserId).

(** [legal] are the answers considered, [good] is what is claimed of every
    event, [route_ok] of every cached route; if [tracked], [owner] names the
    handler an association was dialled with. *)
Variable legal : ∀ e : eff, ans e → Prop.
Variable good : event → Prop.
Variable route_ok : UdpRoute → Prop.
Variable tracked : Prop.
Variable owner : nat → arc OutboundHandler.

(** An association carries packets of routes like the one it was dialled for:
    any direct route over a direct socket, a proxy's over that proxy. *)
Definition fits (c : nat) (r : UdpRoute) : Prop :=
  match outbound r with
  | Direct _ _ => direct_handler (owner c) = true
  | Proxy h _ => ptr_eq (owner c) h = true ∧ proxy_handler (owner c) = true
  | Reject => False
  end.

(** The handler a route's association is dialled with. *)
Definition dials (h : arc OutboundHandler) (r : UdpRoute) : Prop :=
  match outbound r with
  | Direct _ handler => h = default default_direct_handler handler
  | Proxy h' _ => h = h' ∧ allows_udp (arc_val h') = true
  | Reject => False
  end.

Hypothesis legal_owner : tracked → ∀ h a c, legal (EDialUdp h a) (Ok c) → owner c = h.
Hypothesis route_direct : tracked → ∀ r res h,
  route_ok r → outbound r = Direct res (Some h) → direct_handler h = true.
Hypothesis route_proxy : tracked → ∀ r h hijack,
  route_ok r → outbound r = Proxy h hijack → proxy_handler h = true.
Hypothesis good_route : ∀ target out,
  addr_wf target → legal (ERouteUdp target) out →
  good (Ev (ERouteUdp target) out)
  ∧ route_ok (MkUdpRoute out
       match out with
       | Direct resolved _ => acl_addr_for target resolved
       | Proxy _ (Some ip) => acl_addr_for (Address.from_ip ip (Address.port target)) None
       | _ => acl_addr_for target None
       end).
Hypothesis good_dial : ∀ h r x, route_ok r → dials h r → good (Ev (EDialUdp h (send_addr r)) x).
Hypothesis good_send : ∀ c r bs x,
  route_ok r → (tracked → fits c r) → (Z.of_nat (length bs) ≤ u16_max)%Z →
  legal (EUdpSend c bs (send_addr r)) x →
  good (Ev (EUdpSend c bs (send_addr r)) x).
Hypothesis good_upload : ∀ c bs a n x,
  legal (EUdpSend c bs a) (Ok n) → good (Ev (ERecordUpload u n) x).
Hypothesis good_reply : ∀ c reads data from,
  legal (ESelect (Some c) reads) (inr (Ok (data, from))) →
  (∀ x, good (Ev (EWriteClient (TrojanUdpPacket.encode (acl_addr_to_address from) data)) x))
  ∧ ∀ x, good (Ev (ERecordDownload u (Z.of_nat (length data))) x).
Hypothesis good_rest : ∀ ev,
  match ev_eff ev with EElapsedSecs | ESleep10ms | ESelect _ _ => True | _ => False end → good ev.

Definition conn_inv (s : udp_session) : Prop :=
  match udp_conn s, current_handler s with
  | Some c, Some h => owner c = h ∧ proxy_handler h = true
  | Some c, None => direct_handler (owner c) = true
  | None, _ => True
  end.

Record session_inv (s : udp_session) : Prop := MkSessionInv {
  si_routes : map_Forall (λ _ r, route_ok r) (route_cache s);
  si_cache : size (route_cache s) ≤ UDP_MAX_ROUTE_CACHE_ENTRIES;
  si_send : send_errors s < UDP_MAX_CONSECUTIVE_ERRORS;
  si_recv : recv_errors s < UDP_MAX_CONSECUTIVE_ERRORS;
  si_conn : tracked → conn_inv s;
}.

(** A program that emits only good events, leaves the read buffer alone and
    keeps the invariant, unless it says that the session gives up. *)
Definition keeps (s : udp_session) (p : prog (bool * udp_session)) : Prop :=
  post legal p (λ t o, Forall good t
    ∧ match o with
      | Some (giving_up, s') => read_buf s' = read_buf s ∧ (giving_up = false → session_inv s')
      | None => False
      end).

Lemma lookup_route_keeps target s :
  session_inv s → addr_wf target →
  post legal (lookup_route target s) (λ t o, Forall good t
    ∧ match o with
      | Some (r, s') => route_ok r ∧ session_inv s' ∧ udp_conn s' = udp_conn s
                        ∧ current_handler s' = current_handler s ∧ read_buf s' = read_buf s
      | None => False
      end).
Proof.
  intros Hs Hwf. pose proof Hs as [Hr Hc Hse Hre Hco]. unfold lookup_route.
  destruct (route_cache s !! target) as [r|] eqn:Hl.
  { split; [constructor|]. split_and!; try done. by apply (Hr target). }
  intros out Hout. destruct (good_route target out Hwf Hout) as [Hg Hok].
  split; [by repeat constructor|]. split_and!; try done. constructor; try done; cbn [route_cache set_cache].
  - apply map_Forall_insert_2; [done|]. 
    destruct (UDP_MAX_ROUTE_CACHE_ENTRIES <=? size (route_cache s)); [apply map_Forall_empty|done].
  - destruct (Nat.leb_spec UDP_MAX_ROUTE_CACHE_ENTRIES (size (route_cache s))).
    + rewrite map_size_insert_None; [|apply lookup_empty]. rewrite map_size_empty.
      unfold UDP_MAX_ROUTE_CACHE_ENTRIES. lia.
    + rewrite map_size_insert_None by done. unfold UDP_MAX_ROUTE_CACHE_ENTRIES in *. lia.
Qed.

Lemma session_inv_conn s c h :
  session_inv s → (tracked → match c, h with
                  | Some c, Some h => owner c = h ∧ proxy_handler h = true
                  | Some c, None => direct_handler (owner c) = true
                  | None, _ => True
                  end) → session_inv (set_conn c h s).
Proof. intros [Hr Hc Hse Hre Hco] Hok. constructor; try done. Qed.

Lemma ensure_conn_keeps r s :
  session_inv s → route_ok r →
  post legal (ensure_conn r s) (λ t o, Forall good t
    ∧ match o with
      | Some (ready, s') =>
          session_inv s' ∧ read_buf s' = read_buf s
          ∧ (ready = true → tracked → ∀ c, udp_conn s' = Some c → fits c r)
      | None => False
      end).
Proof.
  intros Hs Hr. pose proof (si_conn _ Hs) as Hco. unfold ensure_conn, conn_inv, fits in *.
  destruct (outbound r) as [res handler| |handler hijack] eqn:Hout.
  - assert (Hdir : tracked → direct_handler (default default_direct_handler handler) = true).
    { intros K. destruct handler as [h|]; [|done]. by eapply route_direct. }
    destruct (bool_decide (udp_conn s = None) || _) eqn:Hnew.
    + intros d Hd. assert (Hg : good (Ev (EDialUdp (default default_direct_handler handler) (send_addr r)) d)).
      { apply good_dial; [done|]. unfold dials. by rewrite Hout. }
      destruct d as [c|e]; (split; [by repeat constructor|]); split_and!; try done.
      * apply session_inv_conn; [done|]. intros K. rewrite (legal_owner K _ _ _ Hd). auto.
      * intros _ K c' [= <-]. rewrite (legal_owner K _ _ _ Hd). auto.
      * by apply session_inv_conn.
    + split; [constructor|]. split_and!; try done. intros _ K c Hc. specialize (Hco K). rewrite Hc in Hco, Hnew.
      by destruct (current_handler s); [rewrite orb_true_r in Hnew|].
  - split; [constructor|]. by split_and!.
  - destruct (allows_udp (arc_val handler)) eqn:Hudp; cbn [negb]; [|split; [constructor|]; by split_and!].
    destruct (match current_handler s with None => true | Some h => negb (ptr_eq h handler) end) eqn:Hneed.
    + intros d Hd. assert (Hg : good (Ev (EDialUdp handler (send_addr r)) d)).
      { apply good_dial; [done|]. unfold dials. by rewrite Hout. }
      destruct d as [c|e]; (split; [by repeat constructor|]); split_and!; try done.
      * apply session_inv_conn; [done|]. intros K.
        split; [by apply (legal_owner K _ _ _ Hd)|by eapply route_proxy].
      * intros _ K c' [= <-]. rewrite (legal_owner K _ _ _ Hd).
        split; [unfold ptr_eq; apply Nat.eqb_refl|by eapply route_proxy].
      * by apply session_inv_conn.
    + split; [constructor|]. split_and!; try done. intros _ K c Hc. specialize (Hco K). rewrite Hc in Hco.
      destruct (current_handler s) as [h|]; [|done]. destruct Hco as [-> Hdir].
      split; [by apply negb_false_iff in Hneed|done].
Qed.

Lemma send_payload_keeps r pl s :
  session_inv s → route_ok r → (tracked → ∀ c, udp_conn s = Some c → fits c r) →
  (Z.of_nat (length pl) ≤ u16_max)%Z →
  keeps s (send_payload u r pl s).
Proof.
  intros Hs Hr Hfit Hpl. unfold keeps, send_payload. destruct (udp_conn s) as [c|] eqn:Hc; [|by split].
  intros w Hw. assert (Hg : good (Ev (EUdpSend c pl (send_addr r)) w)) by (by apply good_send; auto).
  destruct Hs as [Hro Hca Hse Hre Hco]. destruct w as [n|e].
  - intros now _ x _. split.
    + repeat constructor; [done|by apply good_rest|by eapply good_upload].
    + split; [done|]. intros _. constructor; try done. simpl. unfold UDP_MAX_CONSECUTIVE_ERRORS. lia.
  - split; [by repeat constructor|]. split; [done|]. intros Hlt. apply Nat.leb_gt in Hlt.
    by constructor.
Qed.

Lemma handle_packet_keeps p s : session_inv s → udp_wf p → keeps s (handle_packet u p s).
Proof.
  intros Hs [Hwf Hpl]. unfold keeps, handle_packet. eapply post_seq; [by apply lookup_route_keeps|by intros t [_ []]|].
  intros t1 [r s1] (Ht1 & Hr & Hs1 & _ & _ & Hb1).
  eapply post_seq; [by apply ensure_conn_keeps|by intros t [_ []]|].
  intros t2 [ready s2] (Ht2 & Hs2 & Hb2 & Hfit). destruct ready.
  - eapply post_mono; [apply send_payload_keeps; auto|].
    intros t [[g s']|] [Ht Ho]; [|done]. split; [by repeat apply Forall_app_2|].
    destruct Ho as [Hb3 Hi]. split; [congruence|done].
  - split; [by repeat apply Forall_app_2|]. split; [congruence|done].
Qed.

Lemma process_packets_keeps fuel s :
  session_inv s → length (read_buf s) ≤ fuel →
  post legal (process_packets fuel u s) (λ t o, Forall good t
    ∧ match o with
      | Some (giving_up, s') => (giving_up = false → session_inv s')
      | None => False
      end).
Proof.
  revert s. induction fuel as [|fuel IH]; intros s Hs Hf; cbn [process_packets];
    (destruct (decide (read_buf s = [])) as [He|He]; [by split|]).
  { destruct (read_buf s); simpl in *; [done|lia]. }
  assert (Hset : ∀ b, session_inv (set_buf b s)) by (intros b; by destruct Hs).
  destruct (udp_zerocopy_agrees (read_buf s)) as (r & Hd & Hz).
  rewrite Hz. cbn [no_panic pbind fst snd].
  destruct r as [p n| |msg]; [|by split|by split].
  pose proof (udp_decode_inv _ _ _ Hd) as (_ & Hwf & _).
  eapply post_seq; [by apply handle_packet_keeps|by intros t [_ []]|].
  intros t1 [g s2] (Ht1 & Hb2 & Hi). destruct g; [by split; [rewrite app_nil_r|]|].
  eapply post_mono; [apply IH; [by apply Hi|]|].
  - apply udp_decode_inv in Hd as (Hlen & _ & -> & _). rewrite Hb2. cbn [read_buf set_buf].
    rewrite length_drop, udp_encode_eq, !length_app. simpl. lia.
  - intros t o [Ht Ho]. split; [by apply Forall_app_2|done].
Qed.

(** Leaving the loop, or going on with the invariant. *)
Definition round_keeps (p : prog (option udp_session)) : Prop :=
  post legal p (λ t o, Forall good t
    ∧ match o with
      | Some (Some s') => session_inv s'
      | Some None => True
      | None => False
      end).

Lemma client_arm_keeps r s : session_inv s → round_keeps (client_arm u r s).
Proof.
  intros Hs. unfold round_keeps, client_arm.
  assert (Hgo : ∀ bs, post legal
    (let! (giving_up, s2) := process_packets (length (read_buf (set_buf (read_buf (clear_pending s) ++ bs) (clear_pending s)))) u
       (set_buf (read_buf (clear_pending s) ++ bs) (clear_pending s)) in
     Ret (if giving_up : bool then None else Some s2))
    (λ t o, Forall good t ∧ match o with Some (Some s') => session_inv s' | Some None => True | None => False end)).
  { intros bs. eapply post_seq; [apply process_packets_keeps; [by destruct Hs|done]|by intros t [_ []]|].
    intros t [g s2] [Ht Hi]. simpl. rewrite app_nil_r. split; [done|]. destruct g; auto. }
  destruct (pending_buffered s); [apply (Hgo [])|].
  destruct (_ <=? _)%Z; [by split|]. destruct r as [[|b bs]|e]; [by split|apply (Hgo (b :: bs))|by split].
Qed.

Lemma udp_arm_keeps c reads r s :
  session_inv s → legal (ESelect (Some c) reads) (inr r) → round_keeps (udp_arm u r s).
Proof.
  intros Hs Hl. pose proof Hs as [Hro Hca Hse Hre Hco]. unfold round_keeps, udp_arm.
  destruct r as [[data from]|e].
  - destruct (good_reply c reads data from Hl) as [Hw Hd].
    intros w _. destruct w as [[[]|e]|]; [|split; [by repeat constructor|done]..].
    intros now _ x _. split; [repeat constructor; try done; by apply good_rest|].
    constructor; try done. simpl. unfold UDP_MAX_CONSECUTIVE_ERRORS. lia.
  - destruct (Nat.leb_spec UDP_MAX_CONSECUTIVE_ERRORS (S (recv_errors s))); [by split|].
    intros x _. split; [repeat constructor; by apply good_rest|]. by constructor.
Qed.

Lemma on_arm_keeps idle a s : session_inv s → round_keeps (on_arm idle u a s).
Proof.
  intros Hs. destruct a as [r| |]; [by apply client_arm_keeps| |by split].
  intros now _. split; [repeat constructor; by apply good_rest|].
  by destruct (idle <=? saturating_sub now (last_activity_secs s))%Z.
Qed.

Lemma udp_round_keeps idle s : session_inv s → round_keeps (udp_round idle u s).
Proof.
  intros Hs. unfold round_keeps, udp_round.
  destruct (udp_conn s) as [c|]; intros a Hl.
  - destruct a as [a|r]; (eapply post_mono; [by apply on_arm_keeps || by apply (udp_arm_keeps c (client_reads s))|]);
      intros t o [Ht Ho]; (split; [constructor; [by apply good_rest|done]|done]).
  - eapply post_mono; [by apply on_arm_keeps|]. intros t o [Ht Ho].
    split; [constructor; [by apply good_rest|done]|done].
Qed.

Lemma udp_loop_good rounds idle s :
  session_inv s → post legal (udp_loop rounds idle u s) (λ t _, Forall good t).
Proof.
  revert s. induction rounds as [|rounds IH]; intros s Hs; cbn [udp_loop]; [constructor|].
  eapply post_seq; [by apply udp_round_keeps|by intros t [_ []]|].
  intros t [s'|] [Ht Hs']; [|cbn [post]; by rewrite app_nil_r].
  eapply post_mono; [by apply IH|]. intros t' o Ht'. by apply Forall_app_2.
Qed.

Lemma session_start_inv pl : session_inv (session_start pl).
Proof.
  constructor; simpl; [apply map_Forall_empty|by rewrite map_size_empty; lia|
    unfold UDP_MAX_CONSECUTIVE_ERRORS; lia..|done].
Qed.

(** Whatever is good of routing, dialling, sending and bookkeeping is good of
    every event of a session but its final close. *)
Lemma handle_udp_associate_good rounds cfg pl :
  post legal (handle_udp_associate rounds cfg pl u) (λ t o,
    match o with
    | None => Forall good t
    | Some r => r = Ok tt ∧ ∃ t' x, t = t' ++ [Ev ECloseClient x] ∧ Forall good t'
    end).
Proof.
  eapply post_seq; [apply udp_loop_good, session_start_inv|done|].
  intros t [] Ht x _. split; [done|]. by exists t, x.
Qed.

End session_facts.
