(* ===== verification/UdpSession.v ===== *)
(** * What a session guarantees

    Theorems about whole connections and UDP sessions, over the programs of
    [Handler] and [Udp]: the life of a connection, the datagrams a session
    forwards, the memory it holds, and what a failed dial does to it. *)

From S2P Require Import Prelude RustStd Protocol Dns Acl Hooks AsyncIo Relay Connection Config Server.
From S2P Require Import Effects Handler Udp.
#[local] Open Scope prog_scope.

(** ** The life of a connection *)

Section lifecycle.
Context {A T R D : Type} `{AclLib, DnsCache D, !OutboundRouter R D, Authenticator A}.

(** Every event of a session before its close: it neither closes the client
    nor registers anything, and it bills the session's user. *)
Definition session_event (u : UserId) (ev : event) : Prop :=
  is_close (ev_eff ev) = false ∧ is_register (ev_eff ev) = false ∧ billed_to u ev.

Lemma session_events_count u t :
  Forall (session_event u) t →
  count is_close t = 0 ∧ count is_register t = 0 ∧ Forall (billed_to u) t.
Proof.
  induction 1 as [|ev t (Hc & Hr & Hb) Ht (IHc & IHr & IHb)]; [done|].
  rewrite !count_cons, Hc, Hr. split_and!; [done..|by constructor].
Qed.

Lemma udp_session_events rounds cfg pl u :
  post anything (handle_udp_associate rounds cfg pl u) (command_events u).
Proof.
  eapply post_mono;
    [apply (handle_udp_associate_good u anything (session_event u) (λ _, True) False
              (λ _, default_direct_handler)); try done|].
  - intros [e x] Hev. destruct e; by try destruct Hev.
  - intros t [r|]; unfold command_events.
    + intros (-> & t' & x & -> & (Hc & Hr & Hb)%session_events_count).
      rewrite !count_app, Hc, Hr. split_and!; try done. apply Forall_app. split; [done|]. by repeat constructor.
    + by intros ?%session_events_count.
Qed.

(** C4: the life of a connection.  Whatever the network, the router, the relay
    and the client do, a connection task does not panic; it first only reads,
    and then either closes the client and fails, having registered nothing, or
    what it read is exactly one well-formed request whose password the
    authenticator accepts: the connection is registered and counted once, the
    command runs with everything billed to that user, the client is closed
    exactly once, and the same connection is unregistered last, on every path
    on which the command ends. *)
Theorem connection_lifecycle (srv : Server A T R D) transport rounds env :
  (0 ≤ conn_buffer_size (conn_config srv))%Z →
  ∃ t o, exec env [] (process_connection srv transport
                        (handle_udp_associate rounds (conn_config srv))) = Some (t, o)
         ∧ lifecycle srv t o.
Proof.
  intros Hsize. apply (post_exec anything); [done|].
  apply process_connection_lifecycle; [done|]. intros pl u. apply udp_session_events.
Qed.

End lifecycle.

(** ** The packets of a byte stream *)

Fixpoint packets (fuel : nat) (bs : list byte) : list TrojanUdpPacket :=
  match fuel with
  | 0 => []
  | S fuel' =>
      match TrojanUdpPacket.decode bs with
      | Some (Decoded p n) => p :: packets fuel' (drop n bs)
      | _ => []
      end
  end.

(** Framing a client's whole byte stream at once, ahead of any session. *)
Definition stream_packets (bs : list byte) : list TrojanUdpPacket := packets (length bs) bs.

Lemma decode_consumes bs p n :
  TrojanUdpPacket.decode bs = Some (Decoded p n) → 4 ≤ n ≤ length bs.
Proof.
  intros (_ & _ & -> & rest & E)%udp_decode_inv. rewrite E, udp_encode_eq, !length_app. simpl. lia.
Qed.

Lemma packets_fuel f1 f2 bs : length bs ≤ f1 → length bs ≤ f2 → packets f1 bs = packets f2 bs.
Proof.
  revert f2 bs. induction f1 as [|f1 IH]; intros f2 bs L1 L2.
  { destruct bs as [|b bs]; [|simpl in *; lia]. by destruct f2. }
  destruct f2 as [|f2]; [by destruct bs; [|simpl in *; lia]|]. simpl.
  destruct (TrojanUdpPacket.decode bs) as [[p n| |]|] eqn:E; try done.
  apply decode_consumes in E. f_equal. apply IH; rewrite length_drop; lia.
Qed.

(** A packet that is complete is the first packet of every longer stream. *)
Lemma stream_packets_cons bs more p n :
  TrojanUdpPacket.decode bs = Some (Decoded p n) →
  stream_packets (bs ++ more) = p :: stream_packets (drop n bs ++ more).
Proof.
  intros E. pose proof (decode_consumes _ _ _ E) as Hn.
  assert (E' : TrojanUdpPacket.decode (bs ++ more) = Some (Decoded p n)).
  { apply udp_decode_inv in E as (Hl & [Ha Hp] & -> & rest & ->).
    rewrite <- app_assoc in *. rewrite udp_decode_encode; [|done|len].
    rewrite as_u16_small, take_ge by (done || lia). rewrite udp_encode_eq. destruct p; simpl.
    do 3 f_equal. len. }
  unfold stream_packets. destruct (length (bs ++ more)) as [|f] eqn:Hf; [rewrite length_app in Hf; lia|].
  simpl. rewrite E'. f_equal. rewrite drop_app_le by lia.
  rewrite length_app in Hf. apply packets_fuel; rewrite !length_app, !length_drop; lia.
Qed.

(** The largest frame: a 255-byte domain and 65535 bytes of payload. *)
Lemma stream_packets_need_more bs :
  TrojanUdpPacket.decode bs = Some NeedMoreData → stream_packets bs = [].
Proof. intros E. unfold stream_packets. destruct (length bs); simpl; [done|]. by rewrite E. Qed.

Definition max_frame : Z := (4 + 255) + 4 + u16_max.

Lemma need_more_bound bs :
  TrojanUdpPacket.decode bs = Some NeedMoreData → (Z.of_nat (length bs) < max_frame)%Z.
Proof.
  intros E. unfold max_frame, u16_max. destruct (decide (length bs < 11)) as [|Hl]; [lia|].
  destruct (decode_viewP bs) as (r & Ea & V). inversion V as [a rest Ha|buf Hw| |]; subst.
  - rewrite udp_decode_after_addr in E by (done || lia). rewrite length_app.
    assert (length (wire a) ≤ 259).
    { destruct a as [ip p|ip p|d p]; destruct Ha as [Ht Hd]; destruct Ht as [Ht _];
        [rewrite length_wire_ip4 by done|rewrite length_wire_ip6 by done|rewrite length_wire_domain by done];
        try lia. }
    destruct rest as [|l0 [|l1 [|c0 [|c1 body]]]]; [simpl; lia..|].
    unfold udp_after_addr in E. case_decide; [done|].
    pose proof (u16_from_be_range l0 l1) as Hu. unfold is_u16, u16_max in Hu.
    destruct (Nat.ltb_spec (length body) (Z.to_nat (u16_from_be_bytes l0 l1))); [|done].
    simpl. lia.
  - unfold wanted in Hw. destruct bs as [|t r]; [simpl in *; lia|].
    repeat case_decide; try (simpl in *; lia). destruct r as [|n r]; [simpl in *; lia|].
    pose proof (b2n_range n). simpl in *. lia.
  - unfold TrojanUdpPacket.decode, TrojanUdpPacket.MIN_SIZE in E.
    by rewrite (proj2 (Nat.ltb_ge _ _)), Ea in E by lia.
  - unfold TrojanUdpPacket.decode, TrojanUdpPacket.MIN_SIZE in E.
    by rewrite (proj2 (Nat.ltb_ge _ _)), Ea in E by lia.
Qed.

(** ** Forwarding *)

Section forwarding.
Context `{AclLib} (u : UserId).

(** The payloads handed to outbound associations, in order. *)
Definition sent_payloads (t : list event) : list (list byte) :=
  concat (map (λ ev, match ev_eff ev with EUdpSend _ bs _ => [bs] | _ => [] end) t).

(** The bytes read from the client. *)
Definition client_stream (t : list event) : list byte :=
  concat (map (λ ev, match ev with
                     | Ev (ESelect None true) (ClientArm (Ok bs))
                     | Ev (ESelect (Some _) true) (inl (ClientArm (Ok bs))) => bs
                     | _ => []
                     end) t).

Definition is_select (e : eff) : bool := match e with ESelect _ _ => true | _ => false end.
Definition quiet (t : list event) : Prop := Forall (λ ev, is_select (ev_eff ev) = false) t.

Lemma sent_payloads_app t1 t2 : sent_payloads (t1 ++ t2) = sent_payloads t1 ++ sent_payloads t2.
Proof. unfold sent_payloads. by rewrite map_app, concat_app. Qed.

Lemma client_stream_app t1 t2 : client_stream (t1 ++ t2) = client_stream t1 ++ client_stream t2.
Proof. unfold client_stream. by rewrite map_app, concat_app. Qed.

Lemma client_stream_quiet t : quiet t → client_stream t = [].
Proof. induction 1 as [|[e x] t Hev Ht IH]; [done|]. by destruct e. Qed.

(** A client arm has fired. *)
Definition heard (t : list event) : bool :=
  existsb (λ ev, match ev with
                 | Ev (ESelect None _) (ClientArm _) | Ev (ESelect (Some _) _) (inl (ClientArm _)) => true
                 | _ => false
                 end) t.

Lemma heard_quiet t : quiet t → heard t = false.
Proof. induction 1 as [|[e x] t Hev _ IH]; [done|]. by destruct e. Qed.

Lemma heard_app t1 t2 : heard (t1 ++ t2) = heard t1 || heard t2.
Proof. unfold heard. by rewrite existsb_app. Qed.

(** A route a packet can take. *)
Definition open_route (out : OutboundType) : Prop :=
  match out with
  | Direct _ _ => True
  | Reject => False
  | Proxy h _ => allows_udp (arc_val h) = true
  end.

(** ** Rounds

    [legal] are the answers considered; if [willing], routes are open and dials
    succeed. *)
Section rounds.
Variable legal : ∀ e : eff, ans e → Prop.
Variable willing : Prop.
Hypothesis willing_route : willing → ∀ a out, legal (ERouteUdp a) out → open_route out.
Hypothesis willing_dial : willing → ∀ h a x, legal (EDialUdp h a) x → ∃ c, x = Ok c.

(** What leaves is, in order, among the packets; if the outside is willing it is
    all of them. *)
Definition carried (sent ps : list (list byte)) : Prop :=
  sent `sublist_of` ps ∧ (willing → sent = ps).

Lemma carried_app a b ps qs : carried a ps → carried b qs → carried (a ++ b) (ps ++ qs).
Proof. intros [S1 E1] [S2 E2]. split; [by apply sublist_app|]. intros Hw. by rewrite E1, E2. Qed.

Lemma carried_nil : carried [] [].
Proof. done. Qed.

(** With a willing outside the cached routes are open, and a session that
    remembers a proxy has an association. *)
Definition connected (s : udp_session) : Prop :=
  willing → map_Forall (λ _ r, open_route (outbound r)) (route_cache s)
            ∧ (current_handler s ≠ None → udp_conn s ≠ None).

Definition same_input (s s' : udp_session) : Prop :=
  read_buf s' = read_buf s ∧ pending_buffered s' = pending_buffered s.

Lemma lookup_route_silent target s :
  connected s →
  post legal (lookup_route target s) (λ t o, quiet t ∧ sent_payloads t = []
    ∧ match o with
      | Some (r, s') => same_input s s' ∧ connected s' ∧ (willing → open_route (outbound r))
      | None => False
      end).
Proof.
  intros Hc. unfold lookup_route. destruct (route_cache s !! target) as [r|] eqn:Hl.
  { split_and!; try done; [constructor|]. intros Hw. destruct (Hc Hw) as [Hr _]. by apply (Hr target). }
  intros out Hout. split_and!; try done; [by repeat constructor| |].
  - intros Hw. destruct (Hc Hw) as [Hr Hh]. split; [|done]. cbn [route_cache set_cache].
    apply map_Forall_insert_2; [by apply (willing_route Hw target)|].
    by destruct (UDP_MAX_ROUTE_CACHE_ENTRIES <=? size (route_cache s)).
  - intros Hw. by apply (willing_route Hw target).
Qed.

Lemma ensure_conn_silent r s :
  connected s → (willing → open_route (outbound r)) →
  post legal (ensure_conn r s) (λ t o, quiet t ∧ sent_payloads t = []
    ∧ match o with
      | Some (ready, s') =>
          same_input s s' ∧ connected s' ∧ (willing → ready = true ∧ udp_conn s' ≠ None)
      | None => False
      end).
Proof.
  intros Hc Ho. unfold ensure_conn.
  assert (Hdialled : ∀ h a x c h', legal (EDialUdp h a) x → x = Ok c →
    same_input s (set_conn (Some c) h' s) ∧ connected (set_conn (Some c) h' s)
    ∧ (willing → true = true ∧ udp_conn (set_conn (Some c) h' s) ≠ None)).
  { intros h a x c h' _ _. split_and!; try done. intros Hw. destruct (Hc Hw) as [Hr _]. by split. }
  assert (Hfailed : ∀ h a e h', legal (EDialUdp h a) (Err e) →
    same_input s (set_conn None h' s) ∧ connected (set_conn None h' s)
    ∧ (willing → false = true ∧ udp_conn (set_conn None h' s) ≠ None)).
  { intros h a e h' Hl. split; [done|]. by split; intros Hw; destruct (willing_dial Hw _ _ _ Hl). }
  destruct (outbound r) as [res h| |h hj].
  - destruct (bool_decide (udp_conn s = None) || _) eqn:Hneed.
    + intros [c|e] Hx; (split; [by repeat constructor|]; split; [done|]); [by eapply Hdialled|by eapply Hfailed].
    + split_and!; try done; [constructor|]. intros _. split; [done|].
      apply orb_false_iff in Hneed as [Hn _]. by apply bool_decide_eq_false in Hn.
  - split_and!; try done; [constructor|]. intros Hw. by destruct (Ho Hw).
  - destruct (allows_udp (arc_val h)) eqn:Hu; cbn [negb].
    2:{ split_and!; try done; [constructor|]. intros Hw. specialize (Ho Hw). cbn in Ho. congruence. }
    destruct (match current_handler s with None => true | Some h' => negb (ptr_eq h' h) end) eqn:Hneed.
    + intros [c|e] Hx; (split; [by repeat constructor|]; split; [done|]); [by eapply Hdialled|by eapply Hfailed].
    + split_and!; try done; [constructor|]. intros Hw. split; [done|]. apply (Hc Hw).
      by destruct (current_handler s).
Qed.

(** One packet: at most one datagram leaves, and it is the packet's payload. *)
Lemma handle_packet_forwards p s :
  connected s →
  post legal (handle_packet u p s) (λ t o, quiet t ∧ carried (sent_payloads t) [udp_payload p]
    ∧ match o with Some (_, s') => same_input s s' ∧ connected s' | None => False end).
Proof.
  intros Hc. unfold handle_packet.
  eapply post_seq; [by apply lookup_route_silent|by intros t (_ & _ & [])|].
  intros t1 [r s1] (Q1 & E1 & [B1 P1] & C1 & O1).
  eapply post_seq; [by apply ensure_conn_silent|by intros t (_ & _ & [])|].
  intros t2 [ready s2] (Q2 & E2 & [B2 P2] & C2 & O2).
  assert (Hend : ∀ t3 g s3, quiet t3 → carried (sent_payloads t3) [udp_payload p] →
    same_input s2 s3 → connected s3 →
    quiet (t1 ++ t2 ++ t3) ∧ carried (sent_payloads (t1 ++ t2 ++ t3)) [udp_payload p]
    ∧ match Some (g : bool, s3) with
      | Some (_, s') => same_input s s' ∧ connected s'
      | None => False
      end).
  { intros t3 g s3 Q3 E3 [B3 P3] C3. rewrite !sent_payloads_app, E1, E2. split_and!; try done.
    - by repeat apply Forall_app_2.
    - split; congruence. }
  assert (Hskip : (willing → False) → carried (sent_payloads []) [udp_payload p])
    by (intros Hno; split; [apply sublist_nil_l|done]).
  assert (Qnil : quiet []) by constructor.
  destruct ready; [|apply (Hend [] false s2); try done; apply Hskip; intros Hw; by destruct (O2 Hw)].
  unfold send_payload. destruct (udp_conn s2) as [c|] eqn:Hconn;
    [|apply (Hend [] false s2); try done; apply Hskip; intros Hw; by destruct (O2 Hw)].
  assert (Hkeep : ∀ s3, route_cache s3 = route_cache s2 → udp_conn s3 = udp_conn s2 →
    current_handler s3 = current_handler s2 → connected s3).
  { intros s3 F1 F2 F3 Hw. unfold connected in C2. rewrite F1, F2, F3. by apply C2. }
  intros [n|e] _; [intros now _ x _|];
    (eapply (Hend _ false); [by repeat constructor|by split|done|by apply Hkeep]).
Qed.

(** All packets of the buffer: what stays buffered is the rest of the stream, and
    holds no complete packet. *)
Lemma process_packets_forwards fuel s :
  length (read_buf s) ≤ fuel → connected s →
  post legal (process_packets fuel u s) (λ t o, quiet t ∧ ∃ ps,
    carried (sent_payloads t) (map udp_payload ps)
    ∧ match o with
      | Some (true, _) => ∀ more, ∃ tail, stream_packets (read_buf s ++ more) = ps ++ tail
      | Some (false, s') =>
          pending_buffered s' = pending_buffered s ∧ connected s'
          ∧ (Z.of_nat (length (read_buf s')) < max_frame)%Z
          ∧ stream_packets (read_buf s') = []
          ∧ ∀ more, stream_packets (read_buf s ++ more) = ps ++ stream_packets (read_buf s' ++ more)
      | None => False
      end).
Proof.
  revert s. induction fuel as [|fuel IH]; intros s Hf Hconn; cbn [process_packets];
    (destruct (decide (read_buf s = [])) as [He|He];
     [split; [constructor|]; exists []; split_and!; try done; by rewrite He|]).
  { destruct (read_buf s); simpl in *; [done|lia]. }
  destruct (udp_zerocopy_agrees (read_buf s)) as (r & Hd & Hz). rewrite Hz. cbn [no_panic pbind fst snd].
  destruct r as [p n| |msg].
  - eapply post_seq; [by apply handle_packet_forwards|by intros t (_ & _ & [])|].
    intros t1 [g s2] (Q1 & E1 & [B2 P2] & C2). cbn [read_buf set_buf] in B2.
    destruct g.
    { split; [by rewrite app_nil_r|]. exists [p]. rewrite app_nil_r. split; [done|]. intros more.
      rewrite (stream_packets_cons _ _ _ _ Hd). by eexists. }
    eapply post_mono; [apply IH; [|done]|].
    { apply decode_consumes in Hd. rewrite B2, length_drop. lia. }
    intros t o (Q2 & ps & E2 & Ho). split; [by apply Forall_app_2|].
    exists (p :: ps). rewrite sent_payloads_app. split; [by apply (carried_app _ _ [_])|].
    rewrite B2 in Ho. destruct o as [[[] s']|]; [| |done].
    + intros more. rewrite (stream_packets_cons _ _ _ _ Hd). destruct (Ho more) as [tail ->]. by exists tail.
    + destruct Ho as (P3 & C3 & L3 & N3 & Hs). split_and!; [by rewrite P3|done..|]. intros more.
      by rewrite (stream_packets_cons _ _ _ _ Hd), Hs.
  - split; [constructor|]. exists []. split_and!; try done; [by apply need_more_bound|].
    by apply stream_packets_need_more.
  - split; [constructor|]. exists []. split; [done|]. intros more. by eexists.
Qed.

(** Nothing complete is left in the buffer once the first client arm has fired. *)
Definition settled (s : udp_session) : Prop :=
  pending_buffered s = false → stream_packets (read_buf s) = [].

(** One round of the session that began with [pre] and had the events [t]: the
    stream is split into what the round forwards and what is left for the
    following rounds. *)
Definition round_result (s : udp_session) (pre t : list event) (next : option udp_session) : Prop :=
  ∃ ps, carried (sent_payloads t) (map udp_payload ps)
  ∧ match next with
    | Some s' =>
        (same_input s s'
         ∨ ((Z.of_nat (length (read_buf s')) < max_frame)%Z ∧ pending_buffered s' = false))
        ∧ connected s' ∧ settled s'
        ∧ pending_buffered s' = pending_buffered s && negb (heard (pre ++ t))
        ∧ ∀ more, stream_packets (read_buf s ++ client_stream (pre ++ t) ++ more)
                  = ps ++ stream_packets (read_buf s' ++ more)
    | None =>
        ∀ more, ∃ tail, stream_packets (read_buf s ++ client_stream (pre ++ t) ++ more) = ps ++ tail
    end.

Definition forwards (s : udp_session) (pre : list event) (pr : prog (option udp_session)) : Prop :=
  connected s → settled s →
  post legal pr (λ t o, match o with Some next => round_result s pre t next | None => False end).

(** A round that forwards nothing and keeps or leaves the session. *)
Lemma forwards_nothing s pre t next :
  connected s → settled s →
  client_stream pre = [] → heard pre = false → sent_payloads t = [] → quiet t →
  (∀ s1, next = Some s1 → same_input s s1 ∧ connected s1) →
  round_result s pre t next.
Proof.
  intros Hc Hset Hpre Hh E Q Hs. exists []. rewrite E, client_stream_app, Hpre, client_stream_quiet by done.
  split; [apply carried_nil|]. destruct next as [s1|]; [|intros more; by eexists].
  destruct (Hs s1 eq_refl) as [[B P] C1]. unfold same_input, settled. rewrite B, P, heard_app, Hh, heard_quiet by done.
  split_and!; try done; [by left|by rewrite andb_true_r].
Qed.

(** What a client arm takes from the client in this round. *)
Definition arm_bytes (reads : bool) (a : arm) : list byte :=
  match a with ClientArm (Ok bs) => if reads then bs else [] | _ => [] end.

Lemma client_arm_forwards r s pre :
  heard pre = true → client_stream pre = arm_bytes (client_reads s) (ClientArm r) →
  forwards s pre (client_arm u r s).
Proof.
  intros Hh Hpre Hconn Hset. unfold client_arm.
  assert (Hgo : ∀ bs, client_stream pre = bs →
    post legal
      (let! (giving_up, s2) := process_packets (length (read_buf (set_buf (read_buf (clear_pending s) ++ bs) (clear_pending s)))) u
         (set_buf (read_buf (clear_pending s) ++ bs) (clear_pending s)) in
       Ret (if giving_up : bool then None else Some s2))
      (λ t o, match o with Some next => round_result s pre t next | None => False end)).
  { intros bs Hbs. eapply post_seq; [by apply process_packets_forwards|by intros t (_ & ps & _ & [])|].
    intros t [g s2] (Q & ps & Hsub & Ho). cbn [post]. exists ps. rewrite app_nil_r. split; [done|].
    cbn [read_buf set_buf clear_pending] in Ho. rewrite client_stream_app, Hbs, client_stream_quiet, app_nil_r by done.
    destruct g.
    - intros more. rewrite (assoc_L (++)). apply Ho.
    - destruct Ho as (P2 & C2 & L2 & N2 & Hs). cbn in P2. unfold settled.
      rewrite P2, heard_app, Hh. split_and!; try done; [by right|by rewrite andb_false_r|].
      intros more. by rewrite (assoc_L (++)), Hs. }
  assert (Hleave : post legal (Ret None)
      (λ t o, match o with Some next => round_result s pre t next | None => False end)).
  { exists []. split; [apply carried_nil|]. intros more. by eexists. }
  unfold arm_bytes, client_reads in Hpre.
  destruct (pending_buffered s); [apply (Hgo []); by destruct r|].
  destruct (_ <=? _)%Z; [done|]. destruct r as [[|b bs]|e]; [done|by apply (Hgo (b :: bs))|done].
Qed.

Definition is_client (a : arm) : bool := match a with ClientArm _ => true | _ => false end.

Lemma on_arm_forwards idle a s pre :
  heard pre = is_client a → client_stream pre = arm_bytes (client_reads s) a →
  forwards s pre (on_arm idle u a s).
Proof.
  intros Hh Hpre. destruct a as [r| |]; [by apply client_arm_forwards| |]; intros Hconn Hset.
  - intros now _. apply (forwards_nothing s pre); try done; [by repeat constructor|].
    intros s1. by destruct (idle <=? saturating_sub now (last_activity_secs s))%Z; intros [= <-].
  - apply (forwards_nothing s pre [] None); try done. constructor.
Qed.

Lemma udp_arm_forwards r s pre :
  heard pre = false → client_stream pre = [] → forwards s pre (udp_arm u r s).
Proof.
  intros Hh Hpre Hconn Hset. unfold udp_arm. destruct r as [[data from]|e].
  - intros [[[]|e]|] _; [intros now _ x _|..]; apply (forwards_nothing s pre);
      try done; try (by intros s1 [= <-]); by repeat constructor.
  - destruct (Nat.leb_spec UDP_MAX_CONSECUTIVE_ERRORS (S (recv_errors s))).
    + apply (forwards_nothing s pre [] None); try done. constructor.
    + intros x _. apply (forwards_nothing s pre); try done; [by repeat constructor|]. by intros s1 [= <-].
Qed.

Lemma select_bytes a reads :
  client_stream [Ev (ESelect None reads) a] = arm_bytes reads a
  ∧ ∀ c, client_stream [Ev (ESelect (Some c) reads) (inl a)] = arm_bytes reads a.
Proof.
  unfold client_stream, arm_bytes. destruct a as [[bs|e]| |], reads; cbn; by rewrite ?app_nil_r.
Qed.

Lemma udp_round_forwards idle s : forwards s [] (udp_round idle u s).
Proof.
  intros Hconn Hset. unfold udp_round. destruct (udp_conn s) as [c|] eqn:Hc; intros a _.
  - destruct a as [a|r].
    + apply (on_arm_forwards idle a s [Ev (ESelect (Some c) (client_reads s)) (inl a)]);
        [by destruct a|apply select_bytes|done..].
    + apply (udp_arm_forwards r s [Ev (ESelect (Some c) (client_reads s)) (inr r)]); try done.
      by destruct (client_reads s).
  - apply (on_arm_forwards idle a s [Ev (ESelect None (client_reads s)) a]);
      [by destruct a|apply select_bytes|done..].
Qed.

(** The packets sent so far, against the whole stream; all of it while the
    session lives, once a client arm has taken up what was buffered. *)
Lemma udp_loop_forwards rounds idle s :
  connected s → settled s →
  post legal (udp_loop rounds idle u s) (λ t o,
    (∀ more, sent_payloads t `sublist_of`
       map udp_payload (stream_packets (read_buf s ++ client_stream t ++ more)))
    ∧ (willing → o = None → pending_buffered s && negb (heard t) = false →
       sent_payloads t = map udp_payload (stream_packets (read_buf s ++ client_stream t)))).
Proof.
  revert s. induction rounds as [|rounds IH]; intros s Hconn Hset; cbn [udp_loop].
  { split; [intros more; apply sublist_nil_l|]. intros _ _ Hp. rewrite andb_true_r in Hp.
    cbn. rewrite app_nil_r. by rewrite (Hset Hp). }
  eapply post_seq; [by apply udp_round_forwards|done|].
  intros t [s'|] (ps & Hsub & Ho); cbn [app] in Ho.
  - destruct Ho as (_ & C' & S' & P' & Ho). eapply post_mono; [by apply IH|].
    intros t2 o [Hsl Hall]. rewrite sent_payloads_app, client_stream_app. split.
    + intros more. rewrite <- app_assoc, Ho, map_app. by apply sublist_app; [apply Hsub|].
    + intros Hw Hn Hp. rewrite heard_app, negb_orb, andb_assoc in Hp.
      rewrite Ho, map_app, (proj2 Hsub Hw). f_equal. apply Hall; [done..|]. by rewrite P'.
  - cbn [post]. split; [|done]. intros more. rewrite app_nil_r. destruct (Ho more) as [tail Hst].
    rewrite Hst, map_app. by apply sublist_inserts_r, Hsub.
Qed.

End rounds.

Lemma session_start_settled pl : settled (session_start pl).
Proof. unfold settled. cbn. by destruct pl. Qed.

Lemma handle_udp_forwards (legal : ∀ e : eff, ans e → Prop) (willing : Prop) rounds cfg pl :
  (willing → ∀ a out, legal (ERouteUdp a) out → open_route out) →
  (willing → ∀ h a x, legal (EDialUdp h a) x → ∃ c, x = Ok c) →
  post legal (handle_udp_associate rounds cfg pl u) (λ t o,
    sent_payloads t `sublist_of` map udp_payload (stream_packets (pl ++ client_stream t))
    ∧ (willing → o = None → pl = [] ∨ heard t = true →
       sent_payloads t = map udp_payload (stream_packets (pl ++ client_stream t)))).
Proof.
  intros Hr Hd.
  eapply post_seq; [apply (udp_loop_forwards legal willing Hr Hd); [|apply session_start_settled]|..].
  - intros _. split; [apply map_Forall_empty|done].
  - intros t [Hs Hall]. cbn [read_buf pending_buffered session_start] in Hs, Hall.
    split; [specialize (Hs []); by rewrite app_nil_r in Hs|]. intros Hw _ Hp.
    apply Hall; [done..|]. destruct Hp as [-> | ->]; [done|]. apply andb_false_r.
  - intros t [] [Hs _]. apply post_trigger. intros x _. cbn [post].
    rewrite sent_payloads_app, client_stream_app. cbn [client_stream sent_payloads concat map app ev_eff].
    specialize (Hs []). rewrite app_nil_r in *. split; [by rewrite app_nil_r|done].
Qed.

(** C17: datagrams are forwarded as the client framed them.  However the
    client's bytes are cut into reads and whatever the outside answers, the
    payloads a UDP session sends out are, in order, among the payloads of the
    packets that the request's trailing bytes and everything read afterwards
    hold when framed at once: nothing is invented, altered, merged, split,
    repeated or reordered.  If routes are open and dials succeed, nothing is
    dropped either: as long as the session lives, every complete packet the
    client has sent has been sent on, once the session has taken up the bytes
    that came with the request. *)
Theorem udp_forwards_client_packets rounds cfg pl env :
  ∃ t o, exec env [] (handle_udp_associate rounds cfg pl u) = Some (t, o)
    ∧ let stream := stream_packets (pl ++ client_stream t) in
      sent_payloads t `sublist_of` map udp_payload stream
      ∧ ((∀ h a, open_route (env h (ERouteUdp a))) →
         (∀ h handler a, ∃ c, env h (EDialUdp handler a) = Ok c) →
         o = None → pl = [] ∨ heard t = true → sent_payloads t = map udp_payload stream).
Proof.
  pose (legal := λ (e : eff) (x : ans e), ∃ h, env h e = x).
  pose (willing := (∀ h a, open_route (env h (ERouteUdp a)))
    ∧ ∀ h handler a, ∃ c, env h (EDialUdp handler a) = Ok c).
  apply (post_exec legal); [by intros h e; exists h|].
  eapply post_mono; [apply (handle_udp_forwards legal willing)|].
  - by intros [Hr _] a out [h <-].
  - by intros [_ Hd] hd a x [h <-].
  - intros t o [Hs Hall]. split; [done|]. intros Hr Hd. by apply Hall.
Qed.

(** ** Bounds *)

(** The states a session is in between rounds, whatever the outside does. *)
Inductive session_reach (idle : Z) (pl : list byte) : udp_session → Prop :=
| reach_start : session_reach idle pl (session_start pl)
| reach_round s env h t s' :
    session_reach idle pl s →
    exec env h (udp_round idle u s) = Some (t, Some (Some s')) →
    session_reach idle pl s'.

Lemma post_exec_inv {A} legal env h (p : prog A) Q t o :
  (∀ h e, legal e (env h e)) → post legal p Q → exec env h p = Some (t, o) → Q t o.
Proof.
  intros Henv Hp E. destruct (post_exec legal env h p Q Henv Hp) as (t' & o' & E' & HQ). congruence.
Qed.

(** C33: the memory and the patience of a UDP session are bounded.  Between any
    two rounds the route cache holds at most 256 routes, fewer than 8 sends and
    fewer than 8 receives in a row have failed, and the read buffer is either
    still the request's trailing bytes or shorter than one maximal frame. *)
Theorem udp_session_bounded idle pl s :
  session_reach idle pl s →
  size (route_cache s) ≤ UDP_MAX_ROUTE_CACHE_ENTRIES
  ∧ send_errors s < UDP_MAX_CONSECUTIVE_ERRORS
  ∧ recv_errors s < UDP_MAX_CONSECUTIVE_ERRORS
  ∧ (read_buf s = pl ∧ pending_buffered s = true
     ∨ (Z.of_nat (length (read_buf s)) < max_frame)%Z).
Proof.
  intros Hreach.
  assert (session_inv (λ _, True) False (λ _, default_direct_handler) s ∧ settled s
          ∧ (read_buf s = pl ∧ pending_buffered s = negb (bool_decide (pl = []))
             ∨ (Z.of_nat (length (read_buf s)) < max_frame)%Z)) as ([_ Hc Hse Hre _] & _ & Hb).
  { induction Hreach as [|s env h t s' Hr (IHi & IHs & IHb) E].
    { split_and!; [apply session_start_inv|apply session_start_settled|by left]. }
    split.
    - apply (post_exec_inv anything _ _ _ _ _ _ ltac:(done)
               (udp_round_keeps u anything (λ _, True) (λ _, True) False
                  (λ _, default_direct_handler) ltac:(done) ltac:(done) ltac:(done) ltac:(done)
                  ltac:(done) ltac:(done) ltac:(done) ltac:(done) ltac:(done) idle s IHi) E).
    - destruct (post_exec_inv anything _ _ _ _ _ _ ltac:(done)
                  (udp_round_forwards anything False ltac:(done) ltac:(done) idle s ltac:(done) IHs) E)
        as (ps & _ & [[-> ->]|[Hl _]] & _ & Hs & _); (split; [exact Hs|]); [done|by right]. }
  split_and!; try done. destruct Hb as [[Hpl ->]|]; [|by right].
  destruct pl; [right; rewrite Hpl; done|by left].
Qed.

End forwarding.

(** ** A failed dial *)

(** C34: a failed proxy dial silences the previous proxy.  In a session that is
    associated through one proxy, a packet for a second proxy whose dial fails
    drops the association but leaves the first proxy recorded as current: from
    then on a packet for the first proxy is discarded without a dial, a send or
    an error count, and leaves the session as it was, so the next one is
    discarded too. *)
Theorem udp_failed_dial_silences_proxy `{AclLib} (u : UserId) (env : environment) history s
    a1 r1 h1 hijack1 pl1 a2 r2 h2 hijack2 pl2 e :
  route_cache s !! a1 = Some r1 → outbound r1 = Proxy h1 hijack1 → allows_udp (arc_val h1) = true →
  route_cache s !! a2 = Some r2 → outbound r2 = Proxy h2 hijack2 → allows_udp (arc_val h2) = true →
  current_handler s = Some h1 → ptr_eq h1 h2 = false →
  env history (EDialUdp h2 (send_addr r2)) = Err e →
  ∃ s', exec env history (handle_packet u (MkUdpPacket a2 pl2) s)
        = Some ([Ev (EDialUdp h2 (send_addr r2)) (Err e)], Some (false, s'))
    ∧ handle_packet u (MkUdpPacket a1 pl1) s' = Ret (false, s').
Proof.
  intros L1 O1 U1 L2 O2 U2 Hcur Hne Henv. eexists.
  unfold handle_packet, lookup_route, ensure_conn. cbn [udp_addr]. rewrite L2. cbn [pbind].
  rewrite O2, U2, Hcur, Hne. cbn [negb pbind trigger exec]. rewrite Henv. split; [done|].
  cbn [route_cache set_conn current_handler]. rewrite L1. cbn [pbind]. rewrite O1, U1. simpl.
  unfold ptr_eq. by rewrite Nat.eqb_refl.
Qed.

(** ** Sample runs *)

Module SampleSession.

#[local] Existing Instance SampleAcl.sample_lib.

(** One user, known by the hash of the password. *)
#[local] Instance one_user : Authenticator (list byte) :=
  {| authenticate hash given := if decide (given = hash) then Some 7%Z else None |}.

#[local] Instance no_dns : DnsCache unit := {| resolve_with_port_iter := λ c _ _, (c, Ok []) |}.

Definition config : ConnConfig := MkConnConfig 0 0 0 0 0 0 1024 128 true 16.

Definition server : Server (list byte) unit DirectRouter unit :=
  MkServer (repeat Byte.x61 56) tt (GivenRouter (MkDirectRouter false)) manager_new config tt.

Definition request : TrojanRequest :=
  MkRequest (repeat Byte.x61 56) Connect (Domain "host.example" 443) [Byte.x68; Byte.x69].

(** A client that sends [request], an outside that accepts everything. *)
Definition env : environment := λ history e,
  match e return ans e with
  | EReadRequest =>
      match history with [] => Done (Ok (header_wire request ++ payload request)) | _ => Elapsed end
  | ERegister _ => (1%Z, 0)
  | ERoute _ | ERouteUdp _ => Direct None None
  | EResolve _ => Ok (MkResolved (Some [Byte.x08; Byte.x08; Byte.x08; Byte.x08]) None 443 true)
  | EConnect _ => Done (Ok tt)
  | EDialTcp _ _ => Elapsed
  | EDialUdp _ _ => Err "refused"
  | EWriteRemote _ => Ok tt
  | ERelay _ _ _ => Kicked
  | ESelect (Some _) _ => inl CancelArm
  | ESelect None _ => ClientArm (Ok [Byte.x01])
  | EUdpSend _ _ _ => Ok 0%Z
  | EWriteClient _ => Elapsed
  | EElapsedSecs => 0%Z
  | ECloseClient | EGuard _ | EUnregister _ | ERecordRequest _ | ERecordUpload _ _ | ERecordDownload _ _
  | ETune _ | EShutdownRemote | ESleep10ms => tt
  end.

Definition proxy (n : nat) : arc OutboundHandler := MkArc n (HSocks5 ("127.0.0.1:1080", None) true).

Definition target (n : Z) : Address := Domain "game.example" n.

Definition proxied (n : nat) (a : Address) : UdpRoute :=
  MkUdpRoute (Proxy (proxy n) None) (acl_addr_for a None).

(** A session associated through proxy 1 that has also routed a target to
    proxy 2. *)
Definition session : udp_session :=
  MkSession [] (<[target 1 := proxied 1 (target 1)]> (<[target 2 := proxied 2 (target 2)]> ∅))
    (Some 0) (Some (proxy 1)) 0 0 0 false.

End SampleSession.

#[local] Existing Instance SampleAcl.sample_lib.
#[local] Existing Instance SampleSession.one_user.
#[local] Existing Instance SampleSession.no_dns.

Lemma connection_lifecycle_witness :
  ∃ t o, exec SampleSession.env []
           (process_connection SampleSession.server Tcp
              (handle_udp_associate 3 SampleSession.config)) = Some (t, o)
         ∧ lifecycle SampleSession.server t o.
Proof.
  apply (connection_lifecycle SampleSession.server Tcp 3
           SampleSession.env).
  vm_compute. discriminate.
Defined.

Lemma udp_session_bounded_witness :
  let s := set_buf [Byte.x01] (session_start []) in
  session_reach 7%Z 30 [] s
  ∧ (read_buf s = [] ∧ pending_buffered s = true ∨ (Z.of_nat (length (read_buf s)) < max_frame)%Z).
Proof.
  intros s. assert (Hs : session_reach 7%Z 30 [] s).
  { eapply (reach_round 7%Z 30 [] (session_start []) SampleSession.env [] _ s); [apply reach_start|].
    vm_compute. reflexivity. }
  split; [exact Hs|]. apply (udp_session_bounded 7%Z 30 [] s Hs).
Defined.

Lemma udp_failed_dial_silences_proxy_witness :
  ∃ s', exec SampleSession.env []
          (handle_packet 7%Z (MkUdpPacket (SampleSession.target 2) []) SampleSession.session)
        = Some ([Ev (EDialUdp (SampleSession.proxy 2) (acl_addr_for (SampleSession.target 2) None)) (Err "refused")],
                Some (false, s'))
    ∧ handle_packet 7%Z (MkUdpPacket (SampleSession.target 1) [Byte.x01]) s' = Ret (false, s').
Proof.
  apply (udp_failed_dial_silences_proxy 7%Z SampleSession.env [] SampleSession.session
    (SampleSession.target 1) (SampleSession.proxied 1 (SampleSession.target 1)) (SampleSession.proxy 1) None [Byte.x01]
    (SampleSession.target 2) (SampleSession.proxied 2 (SampleSession.target 2)) (SampleSession.proxy 2) None []
    "refused"); vm_compute; reflexivity.
Defined.
