(* ===== verification/UdpReplies.v ===== *)
(** * The way back of a UDP session, and its bill

    Over the programs of [Udp] ([handle_udp_associate] of
    [src/src/handler.rs]): what the client receives for the datagrams that come
    in from outside, and what a session records for the user. *)

From S2P Require Import Prelude RustStd Protocol Dns Acl Hooks Relay Config Server.
From S2P Require Import Effects Handler Udp UdpSession.
#[local] Open Scope prog_scope.

Section replies.
Context `{AclLib} (u : UserId).

(** ** Reading a history *)

(** The datagrams that came in over associations, with their senders. *)
Definition arrivals (t : list event) : list (list byte * AclAddr) :=
  concat (map (λ ev, match ev with Ev (ESelect (Some _) _) (inr (Ok d)) => [d] | _ => [] end) t).

(** What was written to the client, write by write. *)
Definition client_writes (t : list event) : list (list byte) :=
  concat (map (λ ev, match ev_eff ev with EWriteClient bs => [bs] | _ => [] end) t).

(** The sizes the outside reported for the datagrams it took. *)
Definition taken (t : list event) : list Z :=
  concat (map (λ ev, match ev with Ev (EUdpSend _ _ _) (Ok n) => [n] | _ => [] end) t).

(** The bill of user [u]. *)
Definition uploads (t : list event) : list Z :=
  concat (map (λ ev, match ev_eff ev with
                     | ERecordUpload v n => if decide (v = u) then [n] else []
                     | _ => []
                     end) t).

Definition downloads (t : list event) : list Z :=
  concat (map (λ ev, match ev_eff ev with
                     | ERecordDownload v n => if decide (v = u) then [n] else []
                     | _ => []
                     end) t).

(** The packet that carries a datagram back. *)
Definition reply (d : list byte * AclAddr) : TrojanUdpPacket :=
  MkUdpPacket (acl_addr_to_address d.2) d.1.

Definition frame (p : TrojanUdpPacket) : list byte :=
  TrojanUdpPacket.encode (udp_addr p) (udp_payload p).

Definition size_of (d : list byte * AclAddr) : Z := Z.of_nat (length d.1).

(** A write to the client that went through. *)
Definition written_ok (ev : event) : bool :=
  match ev with
  | Ev (EWriteClient _) (Done (Ok _)) => true
  | Ev (EWriteClient _) _ => false
  | _ => true
  end.

(** A history in which every arrival is answered and every success billed. *)
Record settled_history (t : list event) : Prop := MkSettled {
  sh_writes : client_writes t = map (frame ∘ reply) (arrivals t);
  sh_uploads : uploads t = taken t;
  sh_downloads : downloads t = map size_of (arrivals t);
  sh_written : forallb written_ok t = true;
}.

Lemma settled_nil : settled_history [].
Proof. done. Qed.

Lemma settled_app t1 t2 : settled_history t1 → settled_history t2 → settled_history (t1 ++ t2).
Proof.
  intros [W1 U1 D1 K1] [W2 U2 D2 K2]. constructor; [..|by rewrite forallb_app, K1, K2];
    unfold client_writes, arrivals, uploads, taken, downloads in *;
    rewrite !map_app, !concat_app, ?map_app; congruence.
Qed.

(** An event that neither carries a datagram nor bills one. *)
Lemma settled_cons ev t :
  settled_history [ev] → settled_history t → settled_history (ev :: t).
Proof. apply (settled_app [ev]). Qed.

(** ** One packet of the client *)

Definition settles {B} (p : prog B) (Q : B → Prop) : Prop :=
  post anything p (λ t o, settled_history t ∧ match o with Some b => Q b | None => False end).

Lemma settles_seq {B C} (p : prog B) (f : B → prog C) Q R :
  settles p Q → (∀ b, Q b → settles (f b) R) → settles (pbind p f) R.
Proof.
  intros Hp Hf. eapply post_seq; [exact Hp|by intros t [_ []]|].
  intros t b [Ht Hb]. eapply post_mono; [by apply Hf|]. intros t' o [Ht' Ho].
  split; [by apply settled_app|done].
Qed.

Lemma lookup_route_settles a s :
  settles (lookup_route a s) (λ '(_, s'), read_buf s' = read_buf s).
Proof. unfold lookup_route, settles. by destruct (route_cache s !! a); [|intros out _]. Qed.

Lemma ensure_conn_settles r s :
  settles (ensure_conn r s) (λ '(_, s'), read_buf s' = read_buf s).
Proof.
  unfold ensure_conn, settles. destruct (outbound r) as [res h| |h hj]; [|done|].
  - case_match; [|done]. by intros [c|e] _.
  - destruct (allows_udp (arc_val h)); [|done]. cbn [negb]. case_match; [|done]. by intros [c|e] _.
Qed.

Lemma send_payload_settles r pl s :
  settles (send_payload u r pl s) (λ '(_, s'), read_buf s' = read_buf s).
Proof.
  unfold send_payload, settles. destruct (udp_conn s) as [c|]; [|done].
  intros [n|e] _; [intros now _ x _|done]. split; [|done].
  constructor; try done. cbn. by rewrite decide_True.
Qed.

Lemma handle_packet_settles p s :
  settles (handle_packet u p s) (λ '(_, s'), read_buf s' = read_buf s).
Proof.
  unfold handle_packet. eapply settles_seq; [apply lookup_route_settles|]. intros [r s1] H1.
  eapply settles_seq; [apply ensure_conn_settles|]. intros [ready s2] H2.
  assert (Hsend : settles (send_payload u r (udp_payload p) s2) (λ '(_, s'), read_buf s' = read_buf s)).
  { eapply post_mono; [apply send_payload_settles|]. intros t [[g s3]|] [Ht Ho]; [|done].
    split; [done|congruence]. }
  destruct ready; [done|]. split; [done|congruence].
Qed.

Lemma process_packets_settles fuel s :
  length (read_buf s) ≤ fuel → settles (process_packets fuel u s) (λ _, True).
Proof.
  revert s. induction fuel as [|fuel IH]; intros s Hf; cbn [process_packets];
    (destruct (decide (read_buf s = [])) as [He|He]; [done|]).
  { destruct (read_buf s); simpl in *; [done|lia]. }
  destruct (udp_zerocopy_agrees (read_buf s)) as (r & Hd & Hz). rewrite Hz. cbn [no_panic pbind fst snd].
  destruct r as [p n| |msg]; [|done|done].
  eapply settles_seq; [apply handle_packet_settles|]. intros [[] s2] Hb; [done|].
  apply IH. cbn [read_buf set_buf] in Hb. rewrite Hb, length_drop.
  apply decode_consumes in Hd. lia.
Qed.

(** ** Rounds and the session *)

(** A session that goes on is settled; one that ends may owe the client and the
    bill the datagram whose write failed. *)
Definition round_settled (t : list event) (goes_on : bool) : Prop :=
  ∃ t0 t1, t = t0 ++ t1 ∧ settled_history t0
    ∧ match t1 with
      | [] => True
      | Ev (ESelect (Some _) _) (inr (Ok d)) :: Ev (EWriteClient bs) w :: rest =>
          goes_on = false ∧ bs = frame (reply d) ∧ rest = [] ∧ w ≠ Done (Ok tt)
      | _ => False
      end.

Lemma round_settled_done t g : settled_history t → round_settled t g.
Proof. intros Ht. exists t, []. by rewrite app_nil_r. Qed.

Lemma round_settled_on t : round_settled t true → settled_history t.
Proof.
  intros (t0 & [|[e x] t1] & -> & Ht & H1); [by rewrite app_nil_r|].
  destruct e as [| | | | | | | | | | | | | | | | |[c|]| | | | |]; try done.
  destruct x as [|[d|]]; try done. destruct t1 as [|[e' w] t1]; [done|]. by destruct e', H1.
Qed.

Lemma round_settled_cons t1 t2 g :
  settled_history t1 → round_settled t2 g → round_settled (t1 ++ t2) g.
Proof.
  intros H1 (t0 & tl & -> & H0 & Ht). exists (t1 ++ t0), tl. rewrite <- app_assoc.
  split; [done|]. split; [by apply settled_app|done].
Qed.

Abbreviation round_ok p := (post anything p (λ t (o : option (option udp_session)),
  match o with Some next => round_settled t (bool_decide (is_Some next)) | None => False end)).

Lemma client_arm_settles r s : settles (client_arm u r s) (λ _, True).
Proof.
  unfold client_arm.
  assert (Hgo : ∀ s1, settles
    (let! (giving_up, s2) := process_packets (length (read_buf s1)) u s1 in
     Ret (if giving_up : bool then None else Some s2)) (λ _, True)).
  { intros s1. eapply settles_seq; [by apply process_packets_settles|]. by intros [[] s2] _. }
  destruct (pending_buffered s); [apply Hgo|].
  destruct (_ <=? _)%Z; [done|]. destruct r as [[|b bs]|e]; [done|apply Hgo|done].
Qed.

Lemma on_arm_settles idle a s : settles (on_arm idle u a s) (λ _, True).
Proof. destruct a as [r| |]; [apply client_arm_settles| |done]. by intros now _. Qed.

Lemma udp_round_settles idle s : round_ok (udp_round idle u s).
Proof.
  assert (Harm : ∀ ev a, settled_history [ev] → post anything (on_arm idle u a s) (λ t o,
    match o with Some next => round_settled (ev :: t) (bool_decide (is_Some next)) | None => False end)).
  { intros ev a Hev. eapply post_mono; [apply on_arm_settles|]. intros t [next|] [Ht Ho]; [|done].
    apply (round_settled_cons [ev]); [done|]. by apply round_settled_done. }
  unfold udp_round. destruct (udp_conn s) as [c|]; intros a _; [destruct a as [a|r]|]; [by apply Harm| |by apply Harm].
  unfold udp_arm. destruct r as [[data from]|e].
  - intros w _.
    assert (Hlast : w ≠ Done (Ok tt) → round_settled
      [Ev (ESelect (Some c) (client_reads s)) (inr (Ok (data, from)));
       Ev (EWriteClient (TrojanUdpPacket.encode (acl_addr_to_address from) data)) w] false)
      by (intros Hw; by eexists [], _).
    destruct w as [[[]|e]|]; [|by apply Hlast|by apply Hlast].
    intros now _ x _. apply round_settled_done. constructor; try done. cbn. by rewrite decide_True.
  - case_match; [by apply round_settled_done|]. intros x _. by apply round_settled_done.
Qed.

Lemma udp_loop_settles rounds idle s :
  post anything (udp_loop rounds idle u s) (λ t o, round_settled t (bool_decide (o = None))).
Proof.
  revert s. induction rounds as [|rounds IH]; intros s; cbn [udp_loop]; [by apply round_settled_done|].
  eapply post_seq; [apply udp_round_settles|done|]. intros t [s'|] Ht.
  - eapply post_mono; [apply IH|]. intros t' o Ht'. apply round_settled_cons; [|done].
    by apply round_settled_on.
  - cbn [post]. by rewrite app_nil_r.
Qed.

(** A history that ends with a failed write, read as a whole. *)
Lemma round_settled_read t g :
  round_settled t g →
  client_writes t = map (frame ∘ reply) (arrivals t) ∧ uploads t = taken t
  ∧ ∃ billed lost, arrivals t = billed ++ lost ∧ downloads t = map size_of billed
      ∧ length lost ≤ if g then 0 else 1.
Proof.
  intros (t0 & [|[e x] t1] & -> & [W U D _] & H1).
  { rewrite app_nil_r. split_and!; try done. exists (arrivals t0), []. rewrite app_nil_r.
    split_and!; try done. simpl. lia. }
  destruct e as [| | | | | | | | | | | | | | | | |[c|]| | | | |]; try done.
  destruct x as [|[d|]]; try done. destruct t1 as [|[e' w] t1]; [done|].
  destruct e'; try done. destruct H1 as (-> & -> & -> & _).
  unfold client_writes, arrivals, uploads, taken, downloads in *.
  rewrite !map_app, !concat_app, ?map_app, W, U, D. cbn. rewrite !app_nil_r.
  split_and!; try done. by eexists _, [d].
Qed.

(** The whole session: its rounds, and the close if it ended. *)
Lemma handle_udp_settles rounds cfg pl :
  post anything (handle_udp_associate rounds cfg pl u) (λ t o, ∃ t1 t2,
    t = t1 ++ t2 ∧ round_settled t1 (bool_decide (o = None))
    ∧ match o with None => t2 = [] | Some _ => ∃ x, t2 = [Ev ECloseClient x] end).
Proof.
  eapply post_seq; [apply udp_loop_settles|..].
  - intros t Ht. exists t, []. by rewrite app_nil_r.
  - intros t [] Ht x _. exists t, [Ev ECloseClient x]. eauto.
Qed.

(** ** What the client can read *)

(** Frames that can be decoded on their own are decoded one by one. *)
Lemma stream_packets_frames ps :
  Forall (λ p, udp_wf p ∧ TrojanUdpPacket.MIN_SIZE ≤ length (frame p)) ps →
  stream_packets (concat (map frame ps)) = ps.
Proof.
  induction 1 as [|p ps [[Ha Hl] Hmin] _ IH]; [done|]. cbn [map concat].
  rewrite (stream_packets_cons (frame p) _ p (length (frame p))).
  - rewrite drop_all. cbn [app]. by rewrite IH.
  - unfold frame in *. pose proof (udp_decode_encode (udp_addr p) (udp_payload p) [] Ha) as E.
    rewrite app_nil_r in E. rewrite E by done. rewrite as_u16_small, take_ge by (done || lia).
    destruct p; simpl. do 3 f_equal. rewrite udp_encode_eq. len.
Qed.

(** C9: replies come back as they arrived, and the bill is exact.  Whatever the
    client and the outside do, what a UDP session writes to the client is one
    frame for each datagram that came in, in order, with its sender and its
    bytes; a client that decodes that stream gets exactly those datagrams, when
    they fit the format.  The user is billed for exactly the bytes the outside
    took, send by send, and for exactly the datagrams delivered; only the
    datagram whose write ended the session is not billed. *)
Theorem udp_replies_exact rounds cfg pl env :
  ∃ t o, exec env [] (handle_udp_associate rounds cfg pl u) = Some (t, o)
    ∧ client_writes t = map (frame ∘ reply) (arrivals t)
    ∧ uploads t = taken t
    ∧ (∃ billed lost, arrivals t = billed ++ lost ∧ downloads t = map size_of billed
         ∧ length lost ≤ match o with None => 0 | Some _ => 1 end)
    ∧ (Forall (λ d, udp_wf (reply d) ∧ TrojanUdpPacket.MIN_SIZE ≤ length (frame (reply d))) (arrivals t) →
       stream_packets (concat (client_writes t)) = map reply (arrivals t)).
Proof.
  apply (post_exec anything); [done|].
  assert (Hdec : ∀ t, client_writes t = map (frame ∘ reply) (arrivals t) →
    Forall (λ d, udp_wf (reply d) ∧ TrojanUdpPacket.MIN_SIZE ≤ length (frame (reply d))) (arrivals t) →
    stream_packets (concat (client_writes t)) = map reply (arrivals t)).
  { intros t -> Ht. change (map (frame ∘ reply) (arrivals t)) with (map (λ d, frame (reply d)) (arrivals t)).
    rewrite <- (map_map reply frame). apply stream_packets_frames. by apply Forall_map. }
  eapply post_mono; [apply handle_udp_settles|].
  intros t o (t1 & t2 & -> & (W & U & billed & lost & Ha & Hd & Hl)%round_settled_read & Ht2).
  assert (Hend : client_writes t2 = [] ∧ uploads t2 = [] ∧ taken t2 = [] ∧ arrivals t2 = [] ∧ downloads t2 = []).
  { destruct o; [destruct Ht2 as [x ->]|rewrite Ht2]; done. }
  destruct Hend as (E1 & E2 & E3 & E4 & E5). specialize (Hdec (t1 ++ t2)).
  unfold client_writes, uploads, taken, arrivals, downloads in *.
  rewrite !map_app, !concat_app, E1, E2, E3, E4, E5, !app_nil_r in *. split_and!; auto.
  exists billed, lost. split_and!; auto. by destruct o.
Qed.

End replies.

(** ** A sample session: one packet out, one datagram back, then a kick *)

Module SampleReplies.

#[local] Existing Instance SampleAcl.sample_lib.

Definition question : TrojanUdpPacket := MkUdpPacket (Domain "dns.example" 53) (as_bytes "q").
Definition answer : list byte * AclAddr := (as_bytes "answer", MkAclAddr "9.9.9.9" 53 None).

Definition env : environment := λ history e,
  match e return ans e with
  | ERouteUdp _ => Direct None None
  | EDialUdp _ _ => Ok 0
  | EUdpSend _ bs _ => Ok (Z.of_nat (length bs))
  | ESelect None _ => ClientArm (Ok [])
  | ESelect (Some _) _ => if length history <? 7 then inr (Ok answer) else inl CancelArm
  | EWriteClient _ => Done (Ok tt)
  | e => SampleSession.env history e
  end.

Example sample_replies :
  (λ '(t, o), (client_writes t, uploads 7%Z t, downloads 7%Z t,
               stream_packets (concat (client_writes t)), o))
    <$> exec env [] (handle_udp_associate 5 SampleSession.config (frame question) 7%Z)
  = Some ([frame (reply answer)], [1%Z], [6%Z], [reply answer], Some (Ok tt)).
Proof. vm_compute. reflexivity. Qed.

End SampleReplies.
