(* ===== verification/Ssrf.v ===== *)
(** * Where a connection may reach under [block_private_ip]

    The routers of [src/src/acl.rs] and [src/src/core/hooks.rs], the screening
    of [src/src/core/dns.rs] and the handlers of [src/src/handler.rs] together:
    every outbound contact of a connection task, TCP or UDP, goes to a public
    address, to an address the operator's rules dictate, or to a proxy with a
    name that does not read as loopback; the one exception is a name the resolver
    answers without an address, which passes the screen and is looked up again. *)

From S2P Require Import Prelude RustStd Protocol IpFilter Dns Acl Hooks AclRouter AsyncIo Relay.
From S2P Require Import Connection Config Server Effects Handler Udp.
#[local] Open Scope prog_scope.

(** What the resolver behind the cache promises: a literal is answered with
    itself. *)
Class DnsLaws (D : Type) `{DnsCache D} := {
  dns_literal cache host port cache' it ip sa :
    parse_ip host = Some ip → resolve_with_port_iter cache host port = (cache', Ok it) →
    sa ∈ it → sa_ip sa = ip;
}.

Section contacts.
Context {D : Type} `{AclLib, !DnsCache D, !DnsLaws D}.

(** [block_private_ip] is on in the server's router. *)
Definition screened (r : AnyRouter AclRouter) : bool :=
  match r with
  | GivenRouter r => ar_block_private_ip r
  | FallbackRouter r => dr_block_private_ip r
  end.

(** A rule of the operator sends its targets to [ip]. *)
Definition operator_hijack (r : AnyRouter AclRouter) (ip : IpAddr) : Prop :=
  match r with
  | GivenRouter r =>
      ∃ host port p h, match_host_hijack (engine r) host port p = Some (h, Some ip)
  | FallbackRouter _ => False
  end.

(** The answers of an environment whose routing decisions and lookups are the
    program's own, made with any state of the shared cache, and that never
    gives one association number to two handlers. *)
Definition routed (r : AnyRouter AclRouter) (owner : nat → arc OutboundHandler) (e : eff)
    : ans e → Prop :=
  match e return ans e → Prop with
  | ERoute a => λ out, ∃ cache : D, (route r cache a).2 = out
  | ERouteUdp a => λ out, ∃ cache : D, (route_udp r cache a).2 = out
  | EResolve a => λ res, ∃ cache : D, (resolve_addrs cache a).2 = res
  | EDialUdp h _ => λ res, ∀ c, res = Ok c → owner c = h
  | _ => λ _, True
  end.

(** ** What a task may contact

    [seen] are the events of the task. *)

Section trace.
Variable seen : list event.

(** A name, not a literal, that the task was allowed to reach without knowing an
    address of it: the lookup of a routing decision of this very task came back
    with no address, so that the screen had nothing to check. *)
Definition unanswered (host : string) (port : Z) : Prop :=
  parse_ip host = None
  ∧ (∃ cache cache' : D, resolve_with_port_iter cache host port = (cache', Ok []))
  ∧ ∃ h, Ev (ERoute (Domain host port)) (Direct None h) ∈ seen
         ∨ Ev (ERouteUdp (Domain host port)) (Direct None h) ∈ seen.

(** What may go out directly without addresses of its own. *)
Definition unresolved_safe (target : Address) : Prop :=
  (∃ ip, Address.literal_ip target = Some ip ∧ is_private_ip ip = false)
  ∨ ∃ host port, target = Domain host port ∧ unanswered host port.

(** What may be connected to: a public address, or what a later lookup gives for
    an unanswered name. *)
Definition connect_safe (sa : SocketAddr) : Prop :=
  is_private_ip (sa_ip sa) = false
  ∨ ∃ host port (cache : D) res, unanswered host port
      ∧ (resolve_addrs cache (Domain host port)).2 = Ok res ∧ sa ∈ Resolved.candidates res.

(** What may be handed to an outbound handler. *)
Definition addr_safe (r : AnyRouter AclRouter) (h : arc OutboundHandler) (a : AclAddr) : Prop :=
  ∃ target resolved, a = acl_addr_for target resolved
  ∧ if direct_handler h then
      match resolved with
      | Some res => ∀ sa, sa ∈ Resolved.candidates res →
                    is_private_ip (sa_ip sa) = false ∨ operator_hijack r (sa_ip sa)
      | None => unresolved_safe target
      end
    else
      proxy_handler h = true ∧ resolved = None
      ∧ (proxy_blocked target = false
         ∨ ∃ ip port, target = Address.from_ip ip port ∧ operator_hijack r ip).

Definition contact_safe (r : AnyRouter AclRouter) (owner : nat → arc OutboundHandler)
    (ev : event) : Prop :=
  match ev_eff ev with
  | EConnect sa => connect_safe sa
  | EDialTcp h a | EDialUdp h a => addr_safe r h a
  | EUdpSend c _ a => addr_safe r (owner c) a
  | _ => True
  end.

Lemma proxy_not_direct (h : arc OutboundHandler) : proxy_handler h = true → direct_handler h = false.
Proof. unfold proxy_handler, direct_handler. by destruct (arc_val h). Qed.

(** ** The routers' verdicts *)

(** The verdict is one of the task's. *)
Definition given (target : Address) (out : OutboundType) : Prop :=
  Ev (ERoute target) out ∈ seen ∨ Ev (ERouteUdp target) out ∈ seen.

Definition verdict_safe (r : AnyRouter AclRouter) (target : Address) (out : OutboundType) : Prop :=
  match out with
  | Reject => True
  | Direct resolved h =>
      (∀ a, h = Some a → direct_handler a = true)
      ∧ match resolved with
        | Some res => ∀ sa, sa ∈ Resolved.candidates res →
            is_private_ip (sa_ip sa) = false ∨ (operator_hijack r (sa_ip sa) ∧ h ≠ None)
        | None => unresolved_safe target
        end
  | Proxy h hijack =>
      proxy_handler h = true ∧ proxy_blocked target = false
      ∧ ∀ ip, hijack = Some ip → operator_hijack r ip
  end.

Lemma route_with_protocol_handlers (r : AclRouter) (cache : D) addr p resolved a :
  (route_with_protocol r cache addr p).2 = Direct resolved (Some a) → is_direct (arc_val a) = true.
Proof.
  unfold route_with_protocol, direct_outbound.
  destruct (match_host_hijack _ _ _ _) as [[h hijack]|]; [|by repeat case_match].
  destruct (arc_val h) eqn:E; try (by repeat case_match).
  destruct hijack; simpl; [intros [= _ <-]; by rewrite E|].
  destruct (screen_direct_target cache addr (ar_block_private_ip r)) as [c [|res]]; [done|].
  intros [= _ <-]. by rewrite E.
Qed.

Lemma unresolved_verdict (cache cache' : D) addr matched h :
  route_safe addr matched cache cache' (Direct None h) → given addr (Direct None h) → unresolved_safe addr.
Proof.
  intros [(ip & Hip & Hpub & _)|(host & p & -> & Hhost & Hr)] Hg; [by left; exists ip|].
  right. exists host, p. split; [done|]. split; [done|]. split; [by exists cache, cache'|by exists h].
Qed.

Lemma acl_verdict_safe (r : AclRouter) (cache : D) addr p :
  ar_block_private_ip r = true → given addr (route_with_protocol r cache addr p).2 →
  verdict_safe (GivenRouter r) addr (route_with_protocol r cache addr p).2.
Proof.
  intros Hb Hg. pose proof (route_with_protocol_safe r cache addr p Hb) as Hs. simpl in Hs.
  pose proof (route_with_protocol_handlers r cache addr p) as Hh.
  destruct (route_with_protocol r cache addr p) as [cache' [resolved h| |h hijack]]; simpl in *; [|done|].
  - split; [intros a ->; by apply (Hh resolved)|]. destruct resolved as [res|].
    + intros sa Hsa. destruct Hs as [Hs|(a & ip & Hm & -> & Hc)]; [left; auto|].
      rewrite Hc, list_elem_of_singleton in Hsa. subst sa. right. split; [|done].
      by exists (Address.host addr), (Address.port addr), p, a.
    + by apply (unresolved_verdict cache cache' addr None h).
  - destruct Hs as (Hm & Hd & Hr & Hp & _).
    split_and!; try done; [unfold proxy_handler; by destruct (arc_val h)|]. intros ip ->.
    by exists (Address.host addr), (Address.port addr), p, h.
Qed.

Lemma direct_verdict_safe (r : DirectRouter) (cache : D) addr :
  dr_block_private_ip r = true → given addr (direct_route r cache addr).2 →
  verdict_safe (FallbackRouter r) addr (direct_route r cache addr).2.
Proof.
  intros Hb. unfold direct_route. rewrite Hb. intros Hg.
  pose proof (direct_outbound_safe addr None cache None) as Hs.
  destruct (direct_outbound cache addr true None) as [c [[res|] h| |h hj]] eqn:E; simpl in *; [..|done|].
  - assert (h = None) as -> by (unfold direct_outbound in E; by repeat case_match; simplify_eq).
    split; [done|]. intros sa Hsa. left. by destruct Hs as [Hs|(? & ? & [=] & _)]; auto.
  - assert (h = None) as -> by (unfold direct_outbound in E; by repeat case_match; simplify_eq).
    split; [done|]. by apply (unresolved_verdict cache c addr None None).
  - by destruct Hs.
Qed.

Lemma routed_verdict r owner target (out : OutboundType) :
  screened r = true → given target out →
  routed r owner (ERoute target) out ∨ routed r owner (ERouteUdp target) out →
  verdict_safe r target out.
Proof.
  intros Hs Hg [[cache <-]|[cache <-]]; destruct r as [r|r];
    [by apply acl_verdict_safe|by apply direct_verdict_safe|by apply acl_verdict_safe|by apply direct_verdict_safe].
Qed.

(** A lookup for a public literal gives only that literal. *)
Lemma resolve_literal (cache : D) target ip res sa :
  Address.literal_ip target = Some ip → (resolve_addrs cache target).2 = Ok res →
  sa ∈ Resolved.candidates res → sa_ip sa = ip.
Proof.
  destruct target as [o p|o p|host p]; simpl.
  - intros [= <-] [= <-]. cbn. by rewrite list_elem_of_singleton; intros ->.
  - intros [= <-] [= <-]. cbn. by rewrite list_elem_of_singleton; intros ->.
  - intros Hip Hres Hsa. destruct (resolve_with_port_iter cache host p) as [c [it|e]] eqn:E; [|done].
    simpl in Hres. destruct (Resolved.collect p (map sa_ip it)) as [res'|] eqn:Hc; [|done].
    injection Hres as ->. destruct (collect_sub _ _ _ _ Hc Hsa) as [Hin _].
    apply list_elem_of_fmap in Hin as (sa' & -> & Hin). by eapply dns_literal.
Qed.

(** ** CONNECT *)

Section connect.
Context {A T : Type} `{Authenticator A} (r : AnyRouter AclRouter) (owner : nat → arc OutboundHandler).

Abbreviation safe := (Forall (contact_safe r owner)).
Abbreviation legal := (λ e x, routed r owner e x ∧ Ev e x ∈ seen).
Abbreviation Context' := (ConnectContext (A := A) (T := T) (R := AclRouter) (D := D)).

Lemma handle_connect_safe (ctx : Context') :
  screened r = true → post legal (handle_connect ctx) (λ t _, safe t).
Proof.
  intros Hs. apply handle_connect_good; [intros e x He; by destruct e|].
  intros out [Hout Hin]. split; [done|].
  pose proof (routed_verdict r owner _ _ Hs (or_introl Hin) (or_introl Hout)) as Hv.
  destruct out as [resolved [h|]| |h hijack]; [| |done|].
  - intros x. destruct Hv as [Hdir Hres]. eexists _, _. split; [done|]. rewrite (Hdir h eq_refl).
    destruct resolved; [|done]. intros sa Hsa. destruct (Hres sa Hsa) as [|[? _]]; auto.
  - destruct Hv as [_ Hres]. destruct resolved as [res|].
    + intros sa x Hsa. left. by destruct (Hres sa Hsa) as [|[_ ?]].
    + intros x [[cache Hx] _]. split; [done|]. intros res sa y -> Hsa. unfold contact_safe. cbn.
      destruct Hres as [(ip & Hip & Hpub)|(host & port & Ht & Hun)].
      * left. by rewrite (resolve_literal cache _ ip res sa Hip Hx Hsa).
      * right. exists host, port, cache, res. by rewrite <- Ht.
  - intros x. destruct Hv as (Hd & Hp & Hh). eexists _, None. split; [done|].
    rewrite (proxy_not_direct _ Hd). split_and!; try done.
    destruct hijack as [ip|]; [right|by left]. eexists ip, _. split; [done|]. auto.
Qed.

(** ** UDP *)

(** A route that came from a safe verdict, with the address that goes with it. *)
Definition route_ok (q : UdpRoute) : Prop :=
  ∃ target,
    verdict_safe r target (outbound q)
    ∧ send_addr q = match outbound q with
                    | Direct resolved _ => acl_addr_for target resolved
                    | Proxy _ (Some ip) => acl_addr_for (Address.from_ip ip (Address.port target)) None
                    | _ => acl_addr_for target None
                    end.

Lemma route_addr_safe h q :
  route_ok q →
  match outbound q with
  | Direct _ _ => direct_handler h = true
  | Proxy _ _ => proxy_handler h = true
  | Reject => False
  end → addr_safe r h (send_addr q).
Proof.
  intros (tgt & Hv & ->) Hh. destruct (outbound q) as [resolved h'| |h' hijack]; [|done|].
  - eexists _, _. split; [done|]. rewrite Hh. destruct Hv as [_ Hv]. destruct resolved; [|done].
    intros sa Hsa. destruct (Hv sa Hsa) as [|[? _]]; auto.
  - destruct Hv as (_ & Hp & Hj).
    destruct hijack as [ip|]; (eexists _, None; split; [done|]; rewrite (proxy_not_direct _ Hh);
      split_and!; try done).
    + right. eexists ip, _. auto.
    + by left.
Qed.

Lemma udp_safe rounds cfg pl u :
  screened r = true → post legal (handle_udp_associate rounds cfg pl u) (λ t _, safe t).
Proof.
  intros Hs.
  assert (Hsafe : post legal (handle_udp_associate rounds cfg pl u) (λ t o,
    match o with
    | None => safe t
    | Some x => x = Ok tt ∧ ∃ t' y, t = t' ++ [Ev ECloseClient y] ∧ safe t'
    end)).
  { apply (handle_udp_associate_good u legal (contact_safe r owner) route_ok True owner).
    - intros _ h a c [Hl _]. by apply Hl.
    - intros _ q res h (tgt & Hv & _) Hq. rewrite Hq in Hv. by apply Hv.
    - intros _ q h hijack (tgt & Hv & _) Hq. rewrite Hq in Hv. by apply Hv.
    - intros tgt out _ [Hout Hin]. split; [done|]. exists tgt. split; [|done].
      apply (routed_verdict r owner _ _ Hs (or_intror Hin) (or_intror Hout)).
    - intros h q x Hq Hd. apply route_addr_safe; [done|]. destruct Hq as (tgt & Hv & _). unfold dials in Hd.
      destruct (outbound q) as [res [h'|]| |h' hj]; simpl in Hd; subst; try done.
      + by apply Hv.
      + destruct Hd as [-> _]. by destruct Hv as [? _].
    - intros c q bs x Hq Hf _ _. apply route_addr_safe; [done|]. specialize (Hf I). unfold fits in Hf.
      destruct (outbound q) as [res h'| |h' hj] eqn:E; try done. by destruct Hf.
    - done.
    - done.
    - intros [e x] Hev. by destruct e. }
  eapply post_mono; [exact Hsafe|]. intros t [x|]; [|done].
  intros (_ & t' & y & -> & Ht). apply Forall_app_2; [done|by repeat constructor].
Qed.

(** ** The whole task *)

Lemma process_connection_safe (srv : Server A T AclRouter D) transport rounds :
  (0 ≤ conn_buffer_size (conn_config srv))%Z → screened r = true →
  post legal (process_connection srv transport (handle_udp_associate rounds (conn_config srv)))
    (λ t _, safe t).
Proof.
  intros Hsize Hs. apply process_connection_good; [done|intros e x He; by destruct e|].
  intros req u _ _. split; [by apply handle_connect_safe|by apply udp_safe].
Qed.

End connect.
End trace.

(** C1: no connection reaches the private network.  With [block_private_ip] on,
    whatever a client requests over TCP or UDP, and whatever the remotes and the
    clock do, a connection task only ever (1) connects to a public address, (2)
    hands a direct outbound a public literal, or addresses that are each public
    or dictated by a hijack rule, (3) hands a proxy a target that is neither a
    private literal nor a name that reads as loopback, or the address of a
    hijack rule; and (4) every datagram is sent over an association whose
    handler may carry that target.  The exception to (1) and (2) is an
    unanswered name: if the lookup of a routing decision of this task comes back
    without any address, the screen lets that name through, and the task connects
    to what a second, unscreened lookup of it gives, or hands the bare name to
    the direct outbound.  The resolver is arbitrary, apart from answering a literal with
    itself; routing and lookups are the program's own, with any state of the DNS
    cache at each decision. *)
Theorem no_private_contact {A T} `{Authenticator A} (srv : Server A T AclRouter D) transport rounds
    owner env :
  (0 ≤ conn_buffer_size (conn_config srv))%Z →
  screened (router srv) = true →
  (∀ history e, routed (router srv) owner e (env history e)) →
  ∃ t o, exec env [] (process_connection srv transport
                        (handle_udp_associate rounds (conn_config srv))) = Some (t, o)
         ∧ Forall (contact_safe t (router srv) owner) t.
Proof.
  intros Hsize Hs Henv. eapply post_exec; [exact Henv|].
  apply (post_self _ _ (λ seen t _, Forall (contact_safe seen (router srv) owner) t) []).
  intros seen _. by apply process_connection_safe.
Qed.

End contacts.

(** ** A sample network *)

Module SampleNetwork.

#[local] Existing Instance SampleAcl.sample_lib.

(** A resolver that knows literals and one public address for every name. *)
#[local] Instance literal_dns : DnsCache nat := {|
  resolve_with_port_iter n host port :=
    (S n, Ok [SocketAddrNew (default (V4 (ipv4_of 8 8 8 8)) (parse_ip host)) port]);
|}.

#[local] Program Instance literal_dns_laws : DnsLaws nat.
Next Obligation.
  intros cache host port cache' it ip sa Hip [= <- <-] Hsa.
  rewrite list_elem_of_singleton in Hsa. subst sa. by rewrite Hip.
Qed.

#[local] Instance any_user : Authenticator unit := {| authenticate _ _ := Some 7%Z |}.

Definition srv : Server unit unit AclRouter nat :=
  MkServer tt tt (GivenRouter (MkAclRouter SampleAcl.engine true)) manager_new
    (MkConnConfig 0 0 0 0 0 0 1024 128 true 16) 0.

Definition request : TrojanRequest :=
  MkRequest (repeat Byte.x61 56) Connect (Domain "www.example" 443) [].

Definition owner (c : nat) : arc OutboundHandler := default_direct_handler.

Definition env (srv : Server unit unit AclRouter nat) (dns : DnsCache nat) : environment := λ history e,
  match e return ans e with
  | EReadRequest => Done (Ok (header_wire request))
  | ERegister _ => (1%Z, 0)
  | ERoute a => (route (router srv) 0 a).2
  | ERouteUdp a => (route_udp (router srv) 0 a).2
  | EResolve a => (resolve_addrs 1 a).2
  | EConnect _ => Done (Ok tt)
  | EDialTcp _ _ => Done (Ok tt)
  | EDialUdp _ _ => Err "unreachable"
  | EWriteRemote _ => Ok tt
  | ERelay _ _ _ => Kicked
  | ESelect (Some _) _ => inl CancelArm
  | ESelect None _ => CancelArm
  | EUdpSend _ _ _ => Ok 0%Z
  | EWriteClient _ => Elapsed
  | EElapsedSecs => 0%Z
  | ECloseClient | EGuard _ | EUnregister _ | ERecordRequest _ | ERecordUpload _ _ | ERecordDownload _ _
  | ETune _ | EShutdownRemote | ESleep10ms => tt
  end.

(** A resolver whose first answer for a name has no address, and whose later ones
    have a private one, under a server without rules. *)
Definition late_dns : DnsCache nat := {|
  resolve_with_port_iter n host port :=
    (S n, Ok (match parse_ip host, n with
              | Some ip, _ => [SocketAddrNew ip port]
              | None, 0 => []
              | None, S _ => [SocketAddrNew (V4 (ipv4_of 10 0 0 5)) port]
              end));
|}.

Definition late_dns_laws : DnsLaws nat (H := late_dns).
Proof.
  constructor. cbn. intros cache host port cache' it ip sa -> [= <- <-] Hsa.
  rewrite list_elem_of_singleton in Hsa. by subst sa.
Qed.

Definition bare : Server unit unit AclRouter nat :=
  MkServer tt tt (FallbackRouter (MkDirectRouter true)) manager_new
    (MkConnConfig 0 0 0 0 0 0 1024 128 true 16) 0.

Lemma env_routed srv dns history e : routed (DnsCache0 := dns) (router srv) owner e (env srv dns history e).
Proof.
  destruct e as [| | | | | | |a|a|a| | | | | | | | | | | | |]; simpl; try exact I; [by exists 0..|by exists 1|].
  intros c [=].
Qed.

Definition private_connect (ev : event) : bool :=
  match ev_eff ev with EConnect sa => is_private_ip (sa_ip sa) | _ => false end.

End SampleNetwork.

#[local] Existing Instance SampleAcl.sample_lib.
#[local] Existing Instance SampleNetwork.literal_dns.
#[local] Existing Instance SampleNetwork.literal_dns_laws.
#[local] Existing Instance SampleNetwork.any_user.

(** A connection with rules, and one where the exception is real: an unanswered
    name takes the task to a private address. *)
Lemma no_private_contact_witness :
  (∃ t o, exec (SampleNetwork.env SampleNetwork.srv SampleNetwork.literal_dns) []
             (process_connection SampleNetwork.srv Tcp
                (handle_udp_associate 2 (conn_config SampleNetwork.srv))) = Some (t, o)
         ∧ Forall (contact_safe t (router SampleNetwork.srv) SampleNetwork.owner) t)
  ∧ ∃ t o, exec (SampleNetwork.env SampleNetwork.bare SampleNetwork.late_dns) []
             (process_connection SampleNetwork.bare Tcp
                (handle_udp_associate 2 (conn_config SampleNetwork.bare))) = Some (t, o)
         ∧ Forall (contact_safe (DnsCache0 := SampleNetwork.late_dns) t (router SampleNetwork.bare)
                     SampleNetwork.owner) t
         ∧ existsb SampleNetwork.private_connect t = true.
Proof.
  split.
  - apply (no_private_contact SampleNetwork.srv Tcp 2 SampleNetwork.owner
             (SampleNetwork.env SampleNetwork.srv SampleNetwork.literal_dns));
      [vm_compute; discriminate|reflexivity|apply SampleNetwork.env_routed].
  - destruct (no_private_contact (DnsCache0 := SampleNetwork.late_dns) (DnsLaws0 := SampleNetwork.late_dns_laws)
                SampleNetwork.bare Tcp 2 SampleNetwork.owner
                (SampleNetwork.env SampleNetwork.bare SampleNetwork.late_dns)) as (t & o & E & Hsafe);
      [vm_compute; discriminate|reflexivity|apply SampleNetwork.env_routed|].
    exists t, o. split; [exact E|]. split; [exact Hsafe|]. clear Hsafe.
    apply (f_equal (option_map (existsb SampleNetwork.private_connect ∘ fst))) in E.
    cbn [option_map compose fst] in E. apply Some_inj. rewrite <- E. vm_compute. reflexivity.
Defined.
