(* ===== verification/Typing.v ===== *)
(** * The types of what a connection task hands over

    The Rust types of addresses, socket addresses, packets and byte counts are
    widths and lengths here ([Address], [ResolvedAddrs], [SocketAddr],
    [TrojanUdpPacket]).  This file shows that every handler of
    [src/src/handler.rs] keeps them, from the bytes of the client through the
    routers of [src/src/acl.rs] and [src/src/core/hooks.rs] and the resolution of
    [src/src/core/dns.rs] to every effect of the task. *)

From S2P Require Import Prelude RustStd Protocol IpFilter Dns Acl Hooks AclRouter AsyncIo Relay.
From S2P Require Import Connection Config Server Effects Handler Udp Ssrf.
#[local] Open Scope prog_scope.

(** [Ipv4Addr] has 4 octets, [Ipv6Addr] 16. *)
Definition ip_typed (ip : IpAddr) : Prop :=
  match ip with V4 o => length o = 4 | V6 o => length o = 16 end.

Definition socket_typed (sa : SocketAddr) : Prop := ip_typed (sa_ip sa) ∧ is_u16 (sa_port sa).

Definition octets_typed (v4 v6 : option (list byte)) : Prop :=
  (∀ o, v4 = Some o → length o = 4) ∧ ∀ o, v6 = Some o → length o = 16.

Definition resolved_typed (r : ResolvedAddrs) : Prop :=
  octets_typed (r_v4 r) (r_v6 r) ∧ is_u16 (r_port r).

(** What an outbound handler is given: the text of a well-formed address, its
    port, and addresses of the right length. *)
Definition acl_addr_typed (a : AclAddr) : Prop :=
  (∃ target, addr_wf target ∧ addr_host a = Address.host target ∧ addr_port a = Address.port target)
  ∧ ∀ i, resolve_info a = Some i → octets_typed (ri_ipv4 i) (ri_ipv6 i).

(** ** Parsed addresses *)

Lemma read_octets_length i n l o rest : read_octets i n l = Some (o, rest) → length o = n.
Proof.
  revert i l o rest. induction n as [|n IH]; intros i l o rest; simpl; [by intros [= <- _]|].
  intros ([v l1] & _ & [[vs l2] [Hvs [= <- _]]]%bind_Some)%bind_Some. simpl. f_equal. by eapply IH.
Qed.

Lemma read_groups_length i n l :
  length (read_groups i n l).1.1 ≤ n.
Proof.
  revert i l. induction n as [|n IH]; intros i l; [done|]. cbn [read_groups].
  assert (Hplain : length (match read_separator Byte.x3a i (read_number 16 4 true u16_max) l with
      | Some (g, l1) => let '(gs, v4, l2) := read_groups (S i) n l1 in (g :: gs, v4, l2)
      | None => ([], false, l)
      end).1.1 ≤ S n).
  { destruct (read_separator _ _ _ _) as [[g l1]|]; [|simpl; lia]. specialize (IH (S i) l1).
    destruct (read_groups (S i) n l1) as [[gs v4] l2]. simpl in *. lia. }
  destruct n as [|n]; [done|].
  destruct (read_separator _ _ read_ipv4_addr l) as [[o l1]|] eqn:E; [|done]. simpl.
  assert (length o = 4) as Ho.
  { unfold read_separator, read_ipv4_addr in E. destruct i; [by eapply read_octets_length|].
    apply bind_Some in E as (l' & _ & E). by eapply read_octets_length. }
  by destruct o as [|? [|? [|? [|? [|]]]]]; simpl in *; try lia.
Qed.

Lemma from_segments_length gs : length (from_segments gs) = 2 * length gs.
Proof.
  unfold from_segments. induction gs as [|g gs IH]; [done|].
  rewrite bind_cons, length_app, IH. simpl. lia.
Qed.

(** [str::parse::<IpAddr>()] gives octets of the right length. *)
Lemma parse_ip_typed s ip : parse_ip s = Some ip → ip_typed ip.
Proof.
  unfold parse_ip. destruct (read_ipv4_addr (as_bytes s)) as [[o rest]|] eqn:E4.
  { destruct rest; [|done]. intros [= <-]. by eapply read_octets_length. }
  unfold read_ipv6_addr. pose proof (read_groups_length 0 8 (as_bytes s)) as Hh.
  destruct (read_groups 0 8 (as_bytes s)) as [[head v4] l1]. cbn [fst] in Hh.
  destruct (Nat.eqb_spec (length head) 8) as [H8|H8].
  { simpl. destruct l1; [|done]. intros [= <-]. simpl. rewrite from_segments_length. lia. }
  destruct v4; [done|]. destruct (read_given_char Byte.x3a l1) as [l2|]; [|done]. simpl.
  destruct (read_given_char Byte.x3a l2) as [l3|]; [|done]. simpl.
  pose proof (read_groups_length 0 (8 - (length head + 1)) l3) as Ht.
  destruct (read_groups 0 (8 - (length head + 1)) l3) as [[tl v4'] l4]. simpl in *.
  destruct l4; [|done]. intros [= <-]. simpl.
  rewrite from_segments_length, !length_app, repeat_length. lia.
Qed.

(** ** Resolution *)

Lemma port_typed a : addr_wf a → is_u16 (Address.port a).
Proof. intros [Ht _]. by destruct a, Ht. Qed.

Lemma from_ip_typed ip p : ip_typed ip → is_u16 p → addr_wf (Address.from_ip ip p).
Proof. by destruct ip. Qed.

Lemma candidates_typed r sa : resolved_typed r → sa ∈ Resolved.candidates r → socket_typed sa.
Proof.
  intros [[H4 H6] Hp]. unfold Resolved.candidates.
  destruct r as [[o4|] [o6|] p vf]; simpl in *; destruct vf; simpl;
    rewrite ?elem_of_cons, ?elem_of_nil; intros Hsa; destruct_or?; subst; try done; split; simpl; auto.
Qed.

Lemma collect_typed port ips r :
  is_u16 port → (∀ ip, ip ∈ ips → ip_typed ip) → Resolved.collect port ips = Some r → resolved_typed r.
Proof.
  intros Hp Hips. unfold Resolved.collect. case_decide; [|done]. intros [= <-].
  assert (Hout : resolved_typed (MkResolved None None port false)) by done.
  revert Hout. generalize (MkResolved None None port false). clear H.
  induction ips as [|ip ips IH]; intros out [[H4 H6] Hpo]; [done|]. cbn [fold_left].
  apply IH; [intros ip' Hin; by apply Hips, list_elem_of_further|].
  assert (Hip : ip_typed ip) by (by apply Hips, list_elem_of_here).
  destruct ip as [o|o]; (split; [split|done]); cbn; try done; intros o' [= <-].
  - destruct (r_v4 out); [by apply H4|done].
  - destruct (r_v6 out); [by apply H6|done].
Qed.

(** What the Rust types of the resolver's and the rule engine's answers say. *)
Class TypedAnswers (D : Type) `{AclLib, DnsCache D} := {
  dns_typed cache host port cache' it sa :
    resolve_with_port_iter cache host port = (cache', Ok it) → sa ∈ it → ip_typed (sa_ip sa);
  hijack_typed {O} (rules : CompiledRuleSet O) host protocol port h ip :
    compiled_match rules host protocol port = Some (h, Some ip) → ip_typed ip;
}.

Section typing.
Context {D : Type} `{AclLib, !DnsCache D, !TypedAnswers D}.

Lemma lookup_typed (cache : D) host p cache' it r :
  is_u16 p → resolve_with_port_iter cache host p = (cache', Ok it) →
  Resolved.collect p (map sa_ip it) = Some r → resolved_typed r.
Proof.
  intros Hp Hr Hc. eapply collect_typed; [done| |done].
  intros ip (sa & -> & Hsa)%list_elem_of_fmap. by eapply dns_typed.
Qed.

Lemma resolve_addrs_typed (cache : D) a r :
  addr_wf a → (resolve_addrs cache a).2 = Ok r → resolved_typed r.
Proof.
  intros [Ht Hd]. destruct a as [o p|o p|host p]; simpl; [intros [= <-]..|];
    [destruct Ht; (split; [split|done]); simpl; intros o' Ho; by simplify_eq..|].
  destruct (resolve_with_port_iter cache host p) as [c [it|e]] eqn:E; simpl; [|done].
  destruct (Resolved.collect p (map sa_ip it)) eqn:Hc; intros [= <-].
  destruct Ht. by eapply lookup_typed.
Qed.

Lemma screen_typed (cache : D) a block r :
  addr_wf a → (screen_direct_target cache a block).2 = Allow (Some r) → resolved_typed r.
Proof.
  intros Ha. unfold screen_direct_target. destruct block.
  - destruct a as [o p|o p|host p]; simpl; [by case_match..|].
    destruct (parse_ip host); [by case_match|].
    destruct (resolve_with_port_iter cache host p) as [c [it|e]] eqn:E; [|done].
    destruct (existsb is_private_ip (map sa_ip it)); [done|]. simpl. intros [= Hc].
    destruct Ha as [[_ Hp] _]. by eapply lookup_typed.
  - destruct a as [o p|o p|host p]; [done..|].
    pose proof (resolve_addrs_typed cache _ r Ha) as Hr.
    destruct (resolve_addrs cache (Domain host p)) as [c [r'|e]]; simpl in *; intros [= ->]. by apply Hr.
Qed.

(** ** Routing *)

Definition verdict_typed (out : OutboundType) : Prop :=
  match out with
  | Direct resolved _ => ∀ r, resolved = Some r → resolved_typed r
  | Proxy _ hijack => ∀ ip, hijack = Some ip → ip_typed ip
  | Reject => True
  end.

Lemma direct_outbound_typed (cache : D) a block h :
  addr_wf a → verdict_typed (direct_outbound cache a block h).2.
Proof.
  intros Ha. unfold direct_outbound. pose proof (screen_typed cache a block) as Hs.
  destruct (screen_direct_target cache a block) as [c [|res]]; simpl; [done|].
  intros r ->. by apply Hs.
Qed.

Lemma acl_route_typed (r : AclRouter) (cache : D) a p :
  addr_wf a → verdict_typed (route_with_protocol r cache a p).2.
Proof.
  intros Ha. unfold route_with_protocol.
  destruct (match_host_hijack _ _ _ _) as [[h hijack]|] eqn:Hm; [|by apply direct_outbound_typed].
  assert (Hip : ∀ ip, hijack = Some ip → ip_typed ip).
  { intros ip ->. revert Hm. unfold match_host_hijack.
    destruct (compiled_match _ _ _ _) as [[h' [ip'|]]|] eqn:E; try done; [intros [= -> ->]|].
    - by eapply hijack_typed.
    - destruct (engine_outbounds _ !! _); simpl; congruence. }
  destruct (arc_val h); [|by case_match..|done].
  destruct hijack as [ip|]; [|by apply direct_outbound_typed].
  intros r'. apply collect_typed; [by apply port_typed|].
  intros ip' ->%list_elem_of_singleton. auto.
Qed.

(** ** Effects *)

(** A datagram from outside has the types of its library: a [String] and a [u16]
    for its sender, and any number of bytes. *)
Definition sender_typed (from : AclAddr) : Prop := is_str (addr_host from) ∧ is_u16 (addr_port from).

Lemma sender_address_typed from : sender_typed from → addr_typed (acl_addr_to_address from).
Proof.
  intros [Hs Hp]. unfold acl_addr_to_address. destruct (parse_ip (addr_host from)) as [ip|] eqn:E; [|done].
  by destruct (from_ip_typed ip (addr_port from) (parse_ip_typed _ _ E) Hp).
Qed.

(** A frame of a typed packet, which the client's decoder takes apart again if
    the packet fits the format. *)
Definition frame_typed (bs : list byte) : Prop :=
  ∃ p, addr_typed (udp_addr p) ∧ bs = TrojanUdpPacket.encode (udp_addr p) (udp_payload p)
    ∧ (udp_wf p → TrojanUdpPacket.MIN_SIZE ≤ length bs →
       TrojanUdpPacket.decode bs = Some (Decoded p (length bs))).

Lemma reply_frame_typed data from :
  sender_typed from → frame_typed (TrojanUdpPacket.encode (acl_addr_to_address from) data).
Proof.
  intros Hf. exists (MkUdpPacket (acl_addr_to_address from) data).
  split; [by apply sender_address_typed|]. split; [done|]. cbn [udp_addr udp_payload].
  intros [Ha Hl] Hmin. cbn [udp_addr udp_payload] in *.
  pose proof (udp_decode_encode (acl_addr_to_address from) data [] Ha) as E.
  rewrite app_nil_r in E. rewrite E by done. rewrite as_u16_small, take_ge by (done || lia).
  do 2 f_equal. rewrite udp_encode_eq. len.
Qed.

(** The well-formedness of what an effect hands over. *)
Definition eff_typed (e : eff) : Prop :=
  match e with
  | ERoute a | ERouteUdp a | EResolve a => addr_wf a
  | EConnect sa => socket_typed sa
  | EDialTcp _ a | EDialUdp _ a => acl_addr_typed a
  | EUdpSend _ bs a => (Z.of_nat (length bs) ≤ u16_max)%Z ∧ acl_addr_typed a
  | EWriteClient bs => frame_typed bs
  | ERecordUpload _ n | ERecordDownload _ n => (0 ≤ n)%Z
  | _ => True
  end.

(** Routing and lookups are the program's own; a send reports a [usize], and the
    sender of a datagram has its types. *)
Definition typed_answer (r : AnyRouter AclRouter) (e : eff) : ans e → Prop :=
  match e return ans e → Prop with
  | ERoute a => λ out, ∃ cache : D, (route r cache a).2 = out
  | ERouteUdp a => λ out, ∃ cache : D, (route_udp r cache a).2 = out
  | EResolve a => λ res, ∃ cache : D, (resolve_addrs cache a).2 = res
  | EUdpSend _ bs _ => λ res, ∀ n, res = Ok n → (0 ≤ n)%Z
  | ESelect (Some _) _ => λ res, ∀ data from, res = inr (Ok (data, from)) → sender_typed from
  | _ => λ _, True
  end.

Lemma typed_verdict (r : AnyRouter AclRouter) a out :
  addr_wf a → typed_answer r (ERoute a) out ∨ typed_answer r (ERouteUdp a) out → verdict_typed out.
Proof.
  intros Ha [[cache <-]|[cache <-]]; destruct r as [r|r];
    by first [apply acl_route_typed | apply direct_outbound_typed].
Qed.

Lemma acl_addr_for_typed target resolved :
  addr_wf target → (∀ r, resolved = Some r → resolved_typed r) →
  acl_addr_typed (acl_addr_for target resolved).
Proof.
  intros Ht Hr. split; [by exists target|]. intros i. destruct resolved as [r|]; [|done].
  intros [= <-]. by apply (Hr r).
Qed.

Lemma hijacked_typed a hijack :
  addr_wf a → (∀ ip, hijack = Some ip → ip_typed ip) → addr_wf (hijacked a hijack).
Proof.
  intros Ha Hip. destruct hijack as [ip|]; [|done]. apply from_ip_typed; [auto|by apply port_typed].
Qed.

(** ** The commands *)

Section commands.
Context {A T : Type} `{Authenticator A} (r : AnyRouter AclRouter).

Abbreviation legal := (typed_answer r).
Abbreviation typed := (λ ev, eff_typed (ev_eff ev)).

Lemma handle_connect_typed (ctx : ConnectContext (A := A) (T := T) (R := AclRouter) (D := D)) :
  addr_wf (target ctx) → post legal (handle_connect ctx) (λ t _, Forall typed t).
Proof.
  intros Ha. apply handle_connect_good.
  { intros e x He. destruct e; try done. destruct He as [_ ->]. simpl. lia. }
  intros out Hout. split; [done|]. pose proof (typed_verdict r _ out Ha (or_introl Hout)) as Hv.
  destruct out as [res [h|]| |h hijack]; [| |done|].
  - intros x. by apply acl_addr_for_typed.
  - destruct res as [res|]; [intros sa x Hsa; eapply candidates_typed; [by apply Hv|done]|].
    intros x [cache Hx]. split; [done|]. intros res sa y -> Hsa.
    eapply candidates_typed; [by eapply resolve_addrs_typed|done].
  - intros x. apply acl_addr_for_typed; [by apply hijacked_typed|done].
Qed.

Lemma udp_typed rounds cfg pl u :
  post legal (handle_udp_associate rounds cfg pl u) (λ t _, Forall typed t).
Proof.
  eapply post_mono; [apply (handle_udp_associate_good u legal typed
    (λ q, acl_addr_typed (send_addr q)) False (λ _, default_direct_handler)); try done|].
  - intros a out Ha Hout. split; [done|]. pose proof (typed_verdict r _ out Ha (or_intror Hout)) as Hv.
    destruct out as [res h| |h [ip|]]; apply acl_addr_for_typed; try done.
    by apply (hijacked_typed a (Some ip)).
  - intros c bs a n x Hn. apply (Hn n eq_refl).
  - intros c reads data from Hl. specialize (Hl data from eq_refl). split; intros x.
    + by apply reply_frame_typed.
    + simpl. lia.
  - intros [e x] He. by destruct e.
  - intros t [x|]; [|done]. intros (_ & t' & y & -> & Ht). apply Forall_app_2; [done|by repeat constructor].
Qed.

End commands.

(** C10: a connection task is well-typed end to end.  For any client and any
    network whose answers have the types of their libraries (a datagram from
    outside with any sender and of any length included), every address a
    task routes or resolves is well-formed (exact octets, a UTF-8 name of at most
    255 bytes, a 16-bit port); every socket address it connects to and every
    address it hands to an outbound has octets of its family and a 16-bit port;
    every datagram it sends fits the length field, everything it writes to a UDP
    client is the frame of a packet with a typed address, which decodes to that
    packet whenever the sender's name fits 255 bytes, the data fits 65,535 and
    the frame has the minimal size of the decoder; and no byte count it bills is
    negative. *)
Theorem connection_well_typed {A T} `{Authenticator A} (srv : Server A T AclRouter D) transport rounds
    env :
  (0 ≤ conn_buffer_size (conn_config srv))%Z →
  (∀ history e, typed_answer (router srv) e (env history e)) →
  ∃ t o, exec env [] (process_connection srv transport
                        (handle_udp_associate rounds (conn_config srv))) = Some (t, o)
         ∧ Forall (λ ev, eff_typed (ev_eff ev)) t.
Proof.
  intros Hsize Henv. eapply post_exec; [exact Henv|].
  apply process_connection_good; [done|intros e x He; by destruct e|].
  intros req u [_ Ha] _. split; [by apply handle_connect_typed|apply udp_typed].
Qed.

End typing.

(** ** A sample network *)

#[local] Existing Instance SampleAcl.sample_lib.
#[local] Existing Instance SampleNetwork.literal_dns.
#[local] Existing Instance SampleNetwork.any_user.

Module SampleTypes.

#[local] Program Instance typed : TypedAnswers nat.
Next Obligation.
  intros cache host port cache' it sa [= _ <-] ->%list_elem_of_singleton. cbn.
  destruct (parse_ip host) as [ip|] eqn:E; [by eapply parse_ip_typed|done].
Qed.
Next Obligation.
  intros O rules host protocol port h ip. cbn. destruct host as [|n]; [done|].
  intros (o & _ & [=])%fmap_Some.
Qed.

(** A client that asks for a UDP association with its first packet in the
    request; one datagram comes back, then the client is disconnected. *)
Definition question : list byte := TrojanUdpPacket.encode (Domain "dns.example" 53) (as_bytes "q").
Definition answer : list byte * AclAddr := (as_bytes "answer", MkAclAddr "9.9.9.9" 53 None).

Definition request : TrojanRequest :=
  MkRequest (repeat Byte.x61 56) UdpAssociate (Domain "dns.example" 53) question.

Definition written (ev : event) : bool :=
  match ev_eff ev with EWriteClient _ => true | _ => false end.

Definition env : environment := λ history e,
  match e return ans e with
  | EReadRequest => Done (Ok (header_wire request ++ payload request))
  | EDialUdp _ _ => Ok 0
  | EUdpSend _ bs _ => Ok (Z.of_nat (length bs))
  | ESelect None _ => ClientArm (Ok [])
  | ESelect (Some _) _ => if existsb written history then inl CancelArm else inr (Ok answer)
  | EWriteClient _ => Done (Ok tt)
  | e => SampleNetwork.env SampleNetwork.srv SampleNetwork.literal_dns history e
  end.

End SampleTypes.

#[local] Existing Instance SampleTypes.typed.

(** The datagram reaches the client. *)
Lemma connection_well_typed_witness :
  ∃ t o, exec SampleTypes.env [] (process_connection SampleNetwork.srv Tcp
                        (handle_udp_associate 4 (conn_config SampleNetwork.srv))) = Some (t, o)
         ∧ Forall (λ ev, eff_typed (ev_eff ev)) t
         ∧ existsb SampleTypes.written t = true.
Proof.
  destruct (connection_well_typed SampleNetwork.srv Tcp 4 SampleTypes.env) as (t & o & E & Ht);
    [vm_compute; discriminate| |].
  - intros history [| | | | | | |a|a|a| | | | | | | |udp|c bs addr| | | |]; simpl; try exact I.
    + by exists 0.
    + by exists 0.
    + by exists 1.
    + destruct udp as [c|]; [|exact I]. intros data from. destruct (existsb _ _); [done|].
      intros [= <- <-]. split; [vm_compute; reflexivity|split; vm_compute; discriminate].
    + intros n [= <-]. lia.
  - exists t, o. split; [exact E|]. split; [exact Ht|]. clear Ht.
    apply (f_equal (option_map (existsb SampleTypes.written ∘ fst))) in E.
    cbn [option_map compose fst] in E. apply Some_inj. rewrite <- E. vm_compute. reflexivity.
Defined.
