(* ===== verification/Percent.v ===== *)
(** * Percent-encoding

    The interface of the [percent_encoding] crate that the gRPC and WebSocket
    transports use, with the round trip its documentation states, and a sample
    implementation that satisfies it. *)

From S2P Require Import Prelude RustStd.

(** [percent_encoding::NON_ALPHANUMERIC]; bytes beyond ASCII are escaped under
    any set. *)
Definition NON_ALPHANUMERIC (b : byte) : bool :=
  negb (in_range 48 57 b || in_range 65 90 b || in_range 97 122 b).

Definition percent : byte := Byte.x25.

(** [utf8_percent_encode(s, set).to_string()] and
    [percent_decode_str(s).decode_utf8_lossy()]. *)
Class PercentEncoding := {
  utf8_percent_encode : (byte → bool) → string → string;
  percent_decode_str : string → string;
}.

(** Decoding gives back what was encoded if the set escapes the escape. *)
Class PercentLaws `{PercentEncoding} :=
  percent_decode_encode set s :
    set percent = true → is_str s → percent_decode_str (utf8_percent_encode set s) = s.

(** ** A sample implementation *)

Module SamplePercent.

Definition hex_upper (d : Z) : byte := if (d <? 10)%Z then z2b (48 + d) else z2b (55 + d).

Definition escape_byte (set : byte → bool) (b : byte) : list byte :=
  if set b || (128 <=? b2z b)%Z
  then [percent; hex_upper (b2z b / 16); hex_upper (b2z b mod 16)]
  else [b].

Definition escape (set : byte → bool) (s : list byte) : list byte := concat (map (escape_byte set) s).

Definition hex_digit (b : byte) : Z := if (b2z b <? 58)%Z then (b2z b - 48)%Z else (b2z b - 55)%Z.

Fixpoint unescape (s : list byte) : list byte :=
  match s with
  | b :: s1 =>
      if is_byte percent b then
        match s1 with
        | h :: l :: s' => z2b (hex_digit h * 16 + hex_digit l) :: unescape s'
        | _ => [b]
        end
      else b :: unescape s1
  | [] => []
  end.

Lemma hex_digit_upper d : (0 ≤ d < 16)%Z → hex_digit (hex_upper d) = d.
Proof.
  intros Hd. unfold hex_digit, hex_upper.
  destruct (Z.ltb_spec d 10); rewrite b2z_z2b, Z.mod_small by lia;
    [rewrite (proj2 (Z.ltb_lt _ _)) by lia|rewrite (proj2 (Z.ltb_ge _ _)) by lia]; lia.
Qed.

Lemma unescape_escape set s : set percent = true → unescape (escape set s) = s.
Proof.
  intros Hset. induction s as [|b s IH]; [done|]. unfold escape in *. cbn [map concat].
  unfold escape_byte at 1. destruct (set b || (128 <=? b2z b)%Z) eqn:Hb; cbn [app unescape].
  - change (is_byte percent percent) with true. cbn [unescape]. rewrite IH. f_equal.
    pose proof (b2z_range b). rewrite !hex_digit_upper by (Z.div_mod_to_equations; lia).
    replace (b2z b / 16 * 16 + b2z b mod 16)%Z with (b2z b)
      by (Z.div_mod_to_equations; lia). apply z2b_b2z.
  - assert (is_byte percent b = false) as ->; [|by rewrite IH].
    unfold is_byte. apply bool_decide_eq_false. intros ->. by rewrite Hset in Hb.
Qed.

#[local] Instance sample_percent : PercentEncoding := {|
  utf8_percent_encode set s := of_bytes (escape set (as_bytes s));
  percent_decode_str s := of_bytes (unescape (as_bytes s));
|}.

#[local] Instance sample_percent_laws : PercentLaws.
Proof.
  intros set s Hset _. unfold percent_decode_str, utf8_percent_encode, sample_percent.
  by rewrite as_bytes_of_bytes, unescape_escape, of_bytes_as_bytes.
Qed.

End SamplePercent.
