(* ===== verification/Grpc.v ===== *)
(** * gRPC transport ([src/src/transport/grpc/transport.rs])

    The tunnel over one HTTP/2 stream: reassembly of messages on the read side,
    a bounded queue of encoded messages on the write side, trailers at the end.
    The [h2] library is a parameter: the operations the transport calls, and
    the laws about the bytes they move. *)

From S2P Require Import Prelude RustStd Codec AsyncIo.

(** ** [h2] *)

Definition header_list : Type := list (string * string).

Class H2 := {
  RecvStream : Type;
  SendStream : Type;
  SendResponse : Type;
  H2Error : Type;
  poll_data : RecvStream → RecvStream * poll (option (result (list byte) H2Error));
  release_capacity : nat → RecvStream → RecvStream * result unit H2Error;
  capacity : SendStream → nat;
  reserve_capacity : nat → SendStream → SendStream;
  poll_capacity : SendStream → SendStream * poll (option (result nat H2Error));
  send_data : list byte → bool → SendStream → SendStream * result unit H2Error;
  send_trailers : header_list → SendStream → SendStream * result unit H2Error;
  send_response : header_list → bool → SendResponse → SendResponse * result SendStream H2Error;
  reason : H2Error → option Z;
  is_remote : H2Error → bool;
  is_io : H2Error → bool;
  h2_display : H2Error → string;
}.

(** Reason codes of RFC 9113. *)
Definition NO_ERROR : Z := 0.
Definition CANCEL : Z := 8.

(** The bytes of the DATA frames delivered and accepted so far; only
    [poll_data] and [send_data] move them. *)
Class H2Laws `{H2} := {
  data_in : RecvStream → list byte;
  data_out : SendStream → list byte;
  poll_data_law r :
    match poll_data r with
    | (r', Ready (Some (Ok chunk))) => data_in r' = data_in r ++ chunk
    | (r', _) => data_in r' = data_in r
    end;
  release_law n r : data_in (release_capacity n r).1 = data_in r;
  reserve_law n s : data_out (reserve_capacity n s) = data_out s;
  poll_capacity_law s : data_out (poll_capacity s).1 = data_out s;
  send_data_law bs fin s :
    match send_data bs fin s with
    | (s', Ok _) => data_out s' = data_out s ++ bs
    | (s', Err _) => data_out s' = data_out s
    end;
  trailers_law hs s : data_out (send_trailers hs s).1 = data_out s;
  response_law hs fin q q' s : send_response hs fin q = (q', Ok s) → data_out s = [];
}.

Definition MAX_READ_BUFFER_SIZE : Z := 128 * 1024.
Definition MAX_INBOUND_FRAME_LEN : Z := 256 * 1024.
Definition MAX_FRAME_SIZE : nat := Z.to_nat (64 * 1024).
Definition DEFAULT_GRPC_MAX_MESSAGE_SIZE : nat := Z.to_nat (32 * 1024).
Definition MAX_SEND_QUEUE_BYTES : Z := 128 * 1024.

(** Bytes to [reserve]; capacities only steer allocation, so the buffers below
    are plain byte lists. *)
Definition read_buffer_reserve (len capacity additional : Z) : Z :=
  let needed := (len + additional)%Z in
  if (needed <=? capacity)%Z then 0
  else (Z.max needed (Z.min (capacity * 2) MAX_READ_BUFFER_SIZE) - len)%Z.

(** ** The transport *)

Section transport.
Context `{H2}.

Inductive Responder : Type :=
| RPending (respond : SendResponse)
| ROpen (stream : SendStream).

Record GrpcTransport := MkGrpc {
  recv_stream : RecvStream;
  responder : Responder;
  read_pending : list byte;
  read_buf : list byte;
  read_pos : nat;
  pending_release_capacity : nat;
  send_queue : list (list byte);
  send_queue_bytes : Z;
  current_frame : option (list byte);
  current_frame_offset : nat;
  max_message_size : nat;
  activity : option bool;
  read_closed : bool;
  write_closed : bool;
}.

Definition with_activity (recv : RecvStream) (resp : Responder) (max : nat) (act : option bool)
    : GrpcTransport :=
  let max := if max =? 0 then DEFAULT_GRPC_MAX_MESSAGE_SIZE else max in
  MkGrpc recv resp [] [] 0 0 [] 0 None 0 max act false false.

(** Assignments to the fields of the read half and of the write half. *)
Definition set_read (recv : RecvStream) (pending buf : list byte) (pos release : nat)
    (act : option bool) (closed : bool) (t : GrpcTransport) : GrpcTransport :=
  MkGrpc recv (responder t) pending buf pos release (send_queue t) (send_queue_bytes t)
    (current_frame t) (current_frame_offset t) (max_message_size t) act closed (write_closed t).

Definition set_write (resp : Responder) (queue : list (list byte)) (bytes : Z)
    (frame : option (list byte)) (offset : nat) (closed : bool) (t : GrpcTransport) : GrpcTransport :=
  MkGrpc (recv_stream t) resp (read_pending t) (read_buf t) (read_pos t)
    (pending_release_capacity t) queue bytes frame offset (max_message_size t) (activity t)
    (read_closed t) closed.

Definition set_recv (recv : RecvStream) (t : GrpcTransport) : GrpcTransport :=
  set_read recv (read_pending t) (read_buf t) (read_pos t) (pending_release_capacity t)
    (activity t) (read_closed t) t.
Definition set_pending (pending : list byte) (t : GrpcTransport) : GrpcTransport :=
  set_read (recv_stream t) pending (read_buf t) (read_pos t) (pending_release_capacity t)
    (activity t) (read_closed t) t.
Definition set_buffer (buf : list byte) (pos : nat) (t : GrpcTransport) : GrpcTransport :=
  set_read (recv_stream t) (read_pending t) buf pos (pending_release_capacity t)
    (activity t) (read_closed t) t.
Definition close_read (t : GrpcTransport) : GrpcTransport :=
  set_read (recv_stream t) (read_pending t) (read_buf t) (read_pos t) (pending_release_capacity t)
    (activity t) true t.

Definition set_responder (resp : Responder) (t : GrpcTransport) : GrpcTransport :=
  set_write resp (send_queue t) (send_queue_bytes t) (current_frame t) (current_frame_offset t)
    (write_closed t) t.
Definition set_offset (offset : nat) (t : GrpcTransport) : GrpcTransport :=
  set_write (responder t) (send_queue t) (send_queue_bytes t) (current_frame t) offset
    (write_closed t) t.
Definition close_write (t : GrpcTransport) : GrpcTransport :=
  set_write (responder t) (send_queue t) (send_queue_bytes t) (current_frame t)
    (current_frame_offset t) true t.

(** ** Reading *)

Definition is_normal_stream_close (e : H2Error) : bool :=
  match reason e with
  | Some r => (r =? NO_ERROR)%Z || (r =? CANCEL)%Z
  | None => false
  end.

(** Give back the flow-control window of a parsed frame; a failure is only
    logged. *)
Definition release_frame (consumed : nat) (t : GrpcTransport) : GrpcTransport :=
  let to_release := pending_release_capacity t `min` consumed in
  if 0 <? to_release then
    set_read (release_capacity to_release (recv_stream t)).1 (read_pending t) (read_buf t)
      (read_pos t) (pending_release_capacity t - to_release) (activity t) (read_closed t) t
  else t.

(** A chunk of DATA arrives. *)
Definition take_chunk (recv : RecvStream) (chunk : list byte) (t : GrpcTransport) : GrpcTransport :=
  set_read recv (read_pending t ++ chunk) (read_buf t) (read_pos t)
    (pending_release_capacity t + length chunk)
    (match activity t with Some _ => Some true | None => None end) (read_closed t) t.

Definition read_result : Type := GrpcTransport * poll (result (list byte) io_error).

(** The [loop] of [poll_read]: a round parses a message or receives a chunk.
    [None] is a panic or exhausted fuel. *)
Fixpoint read_loop (fuel : nat) (room : nat) (t : GrpcTransport) : option read_result :=
  match fuel with
  | 0 => None
  | S fuel' =>
      let oversized :=
        match declared_frame_len (read_pending t) with
        | Some declared => if (MAX_INBOUND_FRAME_LEN <? declared)%Z then Some declared else None
        | None => None
        end in
      match oversized with
      | Some declared =>
          Some (close_read t, Ready (Err (IoError EkInvalidData
            ("gRPC frame length " +:+ show_u64 declared +:+ " exceeds limit "
             +:+ show_u64 MAX_INBOUND_FRAME_LEN))))
      | None =>
          '(parsed, rest) ← parse_grpc_message_zerocopy (read_pending t);
          let t1 := set_pending rest t in
          match parsed with
          | Ok (Some (payload, consumed)) =>
              let t2 := release_frame consumed t1 in
              if decide (payload = []) then read_loop fuel' room t2
              else
                let to_copy := length payload `min` room in
                Some (if to_copy <? length payload then set_buffer (drop to_copy payload) 0 t2 else t2,
                      Ready (Ok (take to_copy payload)))
          | Err e => Some (t1, Ready (Err e))
          | Ok None =>
              match poll_data (recv_stream t1) with
              | (recv, Ready (Some (Ok chunk))) => read_loop fuel' room (take_chunk recv chunk t1)
              | (recv, Ready (Some (Err e))) =>
                  Some (close_read (set_recv recv t1),
                    Ready (if is_normal_stream_close e then
                             if decide (read_pending t1 = []) then Ok []
                             else Err (IoError EkUnexpectedEof "gRPC stream closed mid-frame")
                           else Err (IoError EkOther ("gRPC recv error: " +:+ h2_display e))))
              | (recv, Ready None) =>
                  Some (close_read (set_recv recv t1),
                    Ready (if decide (read_pending t1 = []) then Ok []
                           else Err (IoError EkUnexpectedEof "gRPC stream ended mid-frame")))
              | (recv, Pending) => Some (set_recv recv t1, Pending)
              end
          end
      end
  end.

Definition grpc_poll_read (fuel room : nat) (t : GrpcTransport) : option read_result :=
  if read_closed t then Some (t, Ready (Ok []))
  else if read_pos t <? length (read_buf t) then
    let remaining := drop (read_pos t) (read_buf t) in
    let to_copy := length remaining `min` room in
    let pos := read_pos t + to_copy in
    Some (if length (read_buf t) <=? pos then set_buffer [] 0 t else set_buffer (read_buf t) pos t,
          Ready (Ok (take to_copy remaining)))
  else read_loop fuel room t.

(** ** Writing *)

Definition response_headers : header_list :=
  [(":status", "200"); ("content-type", "application/grpc");
   ("grpc-accept-encoding", "identity,deflate,gzip")].

Definition broken_pipe (msg : string) : io_error := IoError EkBrokenPipe msg.

(** The data stream, sending the response headers first if needed. *)
Definition open_stream (t : GrpcTransport) : GrpcTransport * result SendStream io_error :=
  match responder t with
  | ROpen s => (t, Ok s)
  | RPending q =>
      match send_response response_headers false q with
      | (_, Ok s) => (set_responder (ROpen s) t, Ok s)
      | (q', Err e) =>
          (set_responder (RPending q') t,
           Err (broken_pipe ("gRPC send response error: " +:+ h2_display e)))
      end
  end.

(** The [loop] of [poll_send_current_frame], with the offset to store: an error
    return leaves the stored offset alone. *)
Fixpoint send_loop (fuel : nat) (frame : list byte) (offset : nat) (s : SendStream)
    : option (SendStream * option nat * poll (result unit io_error)) :=
  match fuel with
  | 0 => None
  | S fuel' =>
      if length frame <? offset then None
      else
        let remaining := length frame - offset in
        if remaining =? 0 then Some (s, Some offset, Ready (Ok tt))
        else if capacity s =? 0 then
          let s1 := reserve_capacity (remaining `min` MAX_FRAME_SIZE) s in
          match poll_capacity s1 with
          | (s2, Ready (Some (Ok _))) => send_loop fuel' frame offset s2
          | (s2, Ready (Some (Err e))) =>
              Some (s2, None, Ready (Err (IoError EkOther ("gRPC capacity error: " +:+ h2_display e))))
          | (s2, Ready None) => Some (s2, None, Ready (Err (broken_pipe "gRPC stream closed")))
          | (s2, Pending) => Some (s2, Some offset, Pending)
          end
        else
          let send_size := remaining `min` capacity s in
          chunk ← slice frame offset (offset + send_size);
          match send_data chunk false s with
          | (s1, Ok _) =>
              let offset' := offset + send_size in
              if length frame <=? offset' then Some (s1, Some offset', Ready (Ok tt))
              else send_loop fuel' frame offset' s1
          | (s1, Err e) =>
              Some (s1, None, Ready (Err (broken_pipe ("gRPC send error: " +:+ h2_display e))))
          end
  end.

Definition write_result : Type := GrpcTransport * poll (result unit io_error).

Definition poll_send_current_frame (fuel : nat) (t : GrpcTransport) : option write_result :=
  match current_frame t with
  | None => Some (t, Ready (Ok tt))
  | Some frame =>
      match open_stream t with
      | (t1, Err e) => Some (t1, Ready (Err e))
      | (t1, Ok s) =>
          '(s', offset, r) ← send_loop fuel frame (current_frame_offset t) s;
          let t2 := set_responder (ROpen s') t1 in
          Some (match offset with Some o => set_offset o t2 | None => t2 end, r)
      end
  end.

(** The frame being sent is finished: [bytes] is the new queue size. *)
Definition drop_frame (bytes : Z) (t : GrpcTransport) : GrpcTransport :=
  set_write (responder t) (send_queue t) bytes None 0 (write_closed t) t.

(** The [loop] of [poll_send_queued]: [n] rounds, [fuel] for each frame. *)
Fixpoint send_queued_loop (n fuel : nat) (t : GrpcTransport) : option write_result :=
  match n with
  | 0 => None
  | S n' =>
      let next (t : GrpcTransport) :=
        match send_queue t with
        | [] => Some (t, Ready (Ok tt))
        | frame :: queue =>
            send_queued_loop n' fuel
              (set_write (responder t) queue (send_queue_bytes t) (Some frame) 0 (write_closed t) t)
        end in
      match current_frame t with
      | None => next t
      | Some frame =>
          if length frame <? current_frame_offset t then None
          else if 0 <? length frame - current_frame_offset t then
            '(t1, r) ← poll_send_current_frame fuel t;
            match r with
            | Ready (Err e) => Some (t1, Ready (Err e))
            | Pending => Some (t1, Pending)
            | Ready (Ok _) =>
                next (drop_frame (saturating_sub (send_queue_bytes t1) (Z.of_nat (length frame))) t1)
            end
          else next (drop_frame (send_queue_bytes t) t)
      end
  end.

Definition poll_send_queued (fuel : nat) (t : GrpcTransport) : option write_result :=
  send_queued_loop (S (length (send_queue t))) fuel t.

Definition push_frame (frame : list byte) (t : GrpcTransport) : GrpcTransport :=
  set_write (responder t) (send_queue t ++ [frame]) (send_queue_bytes t + Z.of_nat (length frame))
    (current_frame t) (current_frame_offset t) (write_closed t) t.

Definition grpc_poll_write (fuel : nat) (buf : list byte) (t : GrpcTransport)
    : option (GrpcTransport * poll (result nat io_error)) :=
  if write_closed t then Some (t, Ready (Err (broken_pipe "transport closed")))
  else
    '(t1, r1) ← poll_send_queued fuel t;
    match r1 with
    | Ready (Err e) => Some (t1, Ready (Err e))
    | _ =>
        if (MAX_SEND_QUEUE_BYTES <=? send_queue_bytes t1)%Z then Some (t1, Pending)
        else
          let to_write := length buf `min` max_message_size t1 in
          '(t2, r2) ← poll_send_queued fuel (push_frame (encode_grpc_message (take to_write buf)) t1);
          match r2 with
          | Ready (Err e) => Some (t2, Ready (Err e))
          | _ => Some (t2, Ready (Ok to_write))
          end
    end.

Definition grpc_poll_flush (fuel : nat) (t : GrpcTransport) : option write_result :=
  poll_send_queued fuel t.

(** Trailers on an open stream, a trailers-only response otherwise. *)
Definition finish_stream (t : GrpcTransport) : GrpcTransport * result unit H2Error :=
  match responder t with
  | ROpen s =>
      let '(s', r) := send_trailers [("grpc-status", "0")] s in (set_responder (ROpen s') t, r)
  | RPending q =>
      let '(q', r) := send_response (response_headers ++ [("grpc-status", "0")]) true q in
      (set_responder (RPending q') t, match r with Ok _ => Ok tt | Err e => Err e end)
  end.

Definition grpc_poll_shutdown (fuel : nat) (t : GrpcTransport) : option write_result :=
  if write_closed t && bool_decide (send_queue t = []) && bool_decide (current_frame t = None)
  then Some (t, Ready (Ok tt))
  else
    '(t1, r) ← grpc_poll_flush fuel (close_write t);
    match r with
    | Ready (Ok _) =>
        let '(t2, sent) := finish_stream t1 in
        Some (t2, Ready match sent with
                        | Ok _ => Ok tt
                        | Err e =>
                            if is_remote e || is_io e then Ok tt
                            else Err (IoError EkOther ("gRPC send trailers error: " +:+ h2_display e))
                        end)
    | _ => Some (t1, r)
    end.

End transport.

#[global] Arguments encode_grpc_message : simpl never.

(** ** The tunnel's byte stream *)

(** Reference: the payloads of the complete messages at the front of a stream
    of DATA bytes. *)
Fixpoint hunks_upto (fuel : nat) (bs : list byte) : list byte :=
  match fuel with
  | 0 => []
  | S fuel' =>
      match parse_grpc_message_zerocopy bs with
      | Some (Ok (Some (payload, _)), rest) => payload ++ hunks_upto fuel' rest
      | _ => []
      end
  end.

Definition hunks (bs : list byte) : list byte := hunks_upto (length bs) bs.

Lemma hunks_upto_enough f1 f2 bs :
  length bs ≤ f1 → length bs ≤ f2 → hunks_upto f1 bs = hunks_upto f2 bs.
Proof.
  revert f2 bs. induction f1 as [|f1 IH]; intros f2 bs L1 L2.
  { destruct bs as [|b bs]; [|simpl in *; lia]. by destruct f2. }
  destruct f2 as [|f2]; [by destruct bs; [|simpl in *; lia]|]. simpl.
  destruct (parse_grpc_message_zerocopy bs) as [[[[[payload consumed]|]|e] rest]|] eqn:E; try done.
  apply (parse_message_app bs []) in E as (_ & Hc & Hl). f_equal. apply IH; lia.
Qed.

(** A complete message is the first one of every longer stream. *)
Lemma hunks_message bs more payload consumed rest :
  parse_grpc_message_zerocopy bs = Some (Ok (Some (payload, consumed)), rest) →
  hunks (bs ++ more) = payload ++ hunks (rest ++ more).
Proof.
  intros E. destruct (parse_message_app bs more _ _ _ E) as (E' & Hc & Hl). unfold hunks.
  destruct (length (bs ++ more)) as [|f] eqn:Hf; [rewrite length_app in Hf; lia|]. cbn [hunks_upto].
  rewrite E'. f_equal. rewrite length_app in Hf. apply hunks_upto_enough; rewrite ?length_app; lia.
Qed.

(** What has been decoded stays decoded. *)
Lemma hunks_prefix bs more : hunks bs `prefix_of` hunks (bs ++ more).
Proof.
  remember (length bs) as n eqn:Hn. revert bs Hn. induction n as [n IH] using lt_wf_ind. intros bs ->.
  destruct (parse_grpc_message_zerocopy bs) as [[[[[payload consumed]|]|e] rest]|] eqn:E.
  - rewrite (hunks_message _ more _ _ _ E). pose proof (hunks_message _ [] _ _ _ E) as E0.
    rewrite !app_nil_r in E0. rewrite E0. apply prefix_app.
    apply (parse_message_app _ []) in E as (_ & Hc & Hl). eapply IH; [|done]. lia.
  - assert (hunks bs = []) as -> by (unfold hunks; destruct (length bs); cbn; by rewrite ?E). apply prefix_nil.
  - assert (hunks bs = []) as -> by (unfold hunks; destruct (length bs); cbn; by rewrite ?E). apply prefix_nil.
  - assert (hunks bs = []) as -> by (unfold hunks; destruct (length bs); cbn; by rewrite ?E). apply prefix_nil.
Qed.

(** Payloads a message can carry within the 32-bit frame length. *)
Definition message_fits (payload : list byte) : Prop :=
  (Z.of_nat (length payload) ≤ u32_max - 16)%Z.

Lemma encode_varint_loop_short fuel v : length (encode_varint_loop fuel v) ≤ fuel.
Proof.
  revert v. induction fuel as [|fuel IH]; intros v; cbn [encode_varint_loop length]; [lia|].
  destruct (Z.shiftr v 7 =? 0)%Z; simpl; [lia|]. specialize (IH (Z.shiftr v 7)). lia.
Qed.

Lemma message_fits_u32 payload :
  message_fits payload →
  is_u32 (1 + Z.of_nat (varint_len (Z.of_nat (length payload))) + Z.of_nat (length payload))
  ∧ 5 < length (encode_grpc_message payload) ≤ length payload + 16.
Proof.
  unfold message_fits, is_u32, u32_max. intros Hf.
  assert (Hl : length (encode_varint (Z.of_nat (length payload)))
               = varint_len (Z.of_nat (length payload))).
  { apply encode_varint_length. unfold is_u64, u64_max. lia. }
  pose proof (encode_varint_loop_short 10 (Z.of_nat (length payload))) as Hs.
  fold (encode_varint (Z.of_nat (length payload))) in Hs. split; [lia|].
  unfold encode_grpc_message. cbn [length u32_to_be_bytes app]. rewrite length_app. lia.
Qed.

(** A stream of encoded messages carries exactly their payloads. *)
Lemma hunks_encoded chunks :
  Forall message_fits chunks → hunks (concat (map encode_grpc_message chunks)) = concat chunks.
Proof.
  induction 1 as [|c chunks Hc _ IH]; [done|]. cbn [map concat].
  rewrite <- (app_nil_r (encode_grpc_message c ++ _)), <- app_assoc.
  rewrite (hunks_message _ _ c (length (encode_grpc_message c)) []).
  - cbn [app]. by rewrite app_nil_r, IH.
  - rewrite <- (app_nil_r (encode_grpc_message c)) at 1. apply parse_encoded. by apply message_fits_u32.
Qed.

Section faithful.
Context `{H2Laws}.

(** ** The read half *)

Definition unread (t : GrpcTransport) : list byte := drop (read_pos t) (read_buf t).

(** [got] has been delivered: it is followed by the rest of the current
    message and by the messages of the bytes not parsed yet. *)
Definition read_inv (got : list byte) (t : GrpcTransport) : Prop :=
  ∀ more, hunks (data_in (recv_stream t) ++ more) = got ++ unread t ++ hunks (read_pending t ++ more).

(** The fields of the write half, which reading leaves alone. *)
Definition same_write (t t' : GrpcTransport) : Prop :=
  (responder t', send_queue t', send_queue_bytes t', current_frame t', current_frame_offset t',
   max_message_size t', write_closed t')
  = (responder t, send_queue t, send_queue_bytes t, current_frame t, current_frame_offset t,
     max_message_size t, write_closed t).

Lemma release_fields consumed t :
  data_in (recv_stream (release_frame consumed t)) = data_in (recv_stream t)
  ∧ read_pending (release_frame consumed t) = read_pending t
  ∧ unread (release_frame consumed t) = unread t ∧ same_write t (release_frame consumed t).
Proof.
  unfold release_frame. destruct (0 <? pending_release_capacity t `min` consumed); [|done].
  cbn. by rewrite release_law.
Qed.

(** What a read ends with: the stream is still decoded exactly, at most [room]
    bytes were delivered, a blocked read holds less than one maximal frame, and
    an end of stream is reported only between messages. *)
Record read_ok (got : list byte) (room : nat) (t t' : GrpcTransport)
    (r : poll (result (list byte) io_error)) : Prop := MkReadOk {
  ro_inv : read_inv (got ++ delivered r) t';
  ro_write : same_write t t';
  ro_room : length (delivered r) ≤ room;
  ro_pending : r = Pending →
    unread t' = [] ∧ (Z.of_nat (length (read_pending t')) < 5 + MAX_INBOUND_FRAME_LEN)%Z;
  ro_eof : r = Ready (Ok []) → 0 < room → unread t' = [] ∧ read_pending t' = [];
}.

(** A read that delivers nothing and stays out of the buffers. *)
Lemma read_ok_nothing got room t t' r :
  delivered r = [] → read_inv got t' → same_write t t' →
  (r = Pending → unread t' = [] ∧ (Z.of_nat (length (read_pending t')) < 5 + MAX_INBOUND_FRAME_LEN)%Z) →
  (r = Ready (Ok []) → 0 < room → unread t' = [] ∧ read_pending t' = []) →
  read_ok got room t t' r.
Proof. intros Hd Hi Hw Hp He. constructor; try done; rewrite Hd; [by rewrite app_nil_r|simpl; lia]. Qed.

Lemma same_write_trans t1 t2 t3 : same_write t1 t2 → same_write t2 t3 → same_write t1 t3.
Proof. unfold same_write. congruence. Qed.

Lemma incomplete_bound bs :
  parse_grpc_message_zerocopy bs = Some (Ok None, bs) →
  match declared_frame_len bs with
  | Some declared => if (MAX_INBOUND_FRAME_LEN <? declared)%Z then Some declared else None
  | None => None
  end = None → (Z.of_nat (length bs) < 5 + MAX_INBOUND_FRAME_LEN)%Z.
Proof.
  intros Hp Hd. pose proof (parse_cases bs) as Hc. rewrite Hp in Hc. unfold MAX_INBOUND_FRAME_LEN in *.
  destruct Hc as [_ [Hl|(n & Hn & Hl)]]; [lia|]. rewrite Hn in Hd.
  destruct (Z.ltb_spec (256 * 1024) n); [done|lia].
Qed.

(** Handing over a new message: what does not fit is kept. *)
Lemma read_ok_message got room payload t t2 :
  payload ≠ [] → unread t2 = [] → same_write t t2 →
  (∀ more, hunks (data_in (recv_stream t2) ++ more) = got ++ payload ++ hunks (read_pending t2 ++ more)) →
  let k := length payload `min` room in
  read_ok got room t (if k <? length payload then set_buffer (drop k payload) 0 t2 else t2)
    (Ready (Ok (take k payload))).
Proof.
  intros Hne Hun Hsw Hmsg k. assert (Hk : 0 < length payload) by (destruct payload; [done|simpl; lia]).
  constructor; cbn [delivered].
  - intros more. destruct (Nat.ltb_spec k (length payload)).
    + cbn. rewrite Hmsg. rewrite <- (take_drop k payload) at 1. by rewrite <- !app_assoc.
    + rewrite Hmsg, Hun, take_ge by lia. by rewrite <- app_assoc.
  - by destruct (k <? length payload).
  - rewrite length_take. lia.
  - done.
  - intros [= Hnil] Hroom. apply (f_equal length) in Hnil. rewrite length_take in Hnil. simpl in Hnil. lia.
Qed.

Lemma read_loop_spec fuel room t t' r got :
  read_loop fuel room t = Some (t', r) → unread t = [] → read_inv got t → read_ok got room t t' r.
Proof.
  revert t. induction fuel as [|fuel IH]; intros t Hr Hu Hi; [done|]. cbn [read_loop] in Hr.
  destruct (match declared_frame_len (read_pending t) with Some _ => _ | None => _ end) as [d|] eqn:Hd.
  { injection Hr as <- <-. by apply read_ok_nothing. }
  pose proof (parse_cases (read_pending t)) as Hp.
  destruct (parse_grpc_message_zerocopy (read_pending t)) as [[parsed rest]|] eqn:Hparse; [|done].
  cbn [mbind option_bind] in Hr. destruct parsed as [[[payload consumed]|]|e].
  - destruct (release_fields consumed (set_pending rest t)) as (Hin & Hpe & Hun & Hsw).
    set (t2 := release_frame consumed (set_pending rest t)) in *. clearbody t2. cbn in Hin, Hpe.
    assert (Hmsg : ∀ more, hunks (data_in (recv_stream t2) ++ more) = got ++ payload ++ hunks (rest ++ more)).
    { intros more. rewrite Hin, Hi, Hu. cbn [app]. f_equal. by apply (hunks_message _ _ _ consumed). }
    change (unread (set_pending rest t)) with (unread t) in Hun. rewrite Hu in Hun.
    destruct (decide (payload = [])) as [->|Hne].
    { destruct (IH t2 Hr Hun) as [I1 I2 I3 I4 I5]; [intros more; by rewrite Hmsg, Hun, Hpe|].
      constructor; try done. by apply (same_write_trans _ t2). }
    injection Hr as <- <-. apply read_ok_message; try done. intros more. by rewrite Hpe.
  - destruct Hp as [-> _]. pose proof (poll_data_law (recv_stream t)) as Hlaw.
    pose proof (incomplete_bound _ Hparse Hd) as Hbound.
    change (recv_stream (set_pending (read_pending t) t)) with (recv_stream t) in Hr.
    change (read_pending (set_pending (read_pending t) t)) with (read_pending t) in Hr.
    assert (Hkeep : ∀ recv, data_in recv = data_in (recv_stream t) →
      read_inv got (set_recv recv (set_pending (read_pending t) t))).
    { intros recv E more. cbn. rewrite E. apply Hi. }
    destruct (poll_data (recv_stream t)) as [recv [[[chunk|e]|]|]].
    + destruct (IH (take_chunk recv chunk (set_pending (read_pending t) t)) Hr Hu) as [I1 I2 I3 I4 I5]; [|by constructor].
      intros more. cbn. rewrite Hlaw, <- app_assoc, Hi. cbn. by rewrite <- app_assoc.
    + injection Hr as <- <-. apply read_ok_nothing; try done; [|by apply Hkeep|].
      * by destruct (is_normal_stream_close e), (decide (read_pending t = [])).
      * destruct (is_normal_stream_close e), (decide (read_pending t = [])); try done.
    + injection Hr as <- <-. apply read_ok_nothing; try done; [|by apply Hkeep|].
      * by destruct (decide (read_pending t = [])).
      * destruct (decide (read_pending t = [])); try done.
    + injection Hr as <- <-. apply read_ok_nothing; try done. by apply Hkeep.
  - destruct Hp as [-> _]. injection Hr as <- <-. by apply read_ok_nothing.
Qed.

Lemma grpc_read_spec fuel room t t' r got :
  grpc_poll_read fuel room t = Some (t', r) → read_closed t = false → read_inv got t →
  read_ok got room t t' r.
Proof.
  unfold grpc_poll_read. intros Hr Hc Hi. rewrite Hc in Hr.
  destruct (Nat.ltb_spec (read_pos t) (length (read_buf t))) as [Hlt|Hge]; last first.
  { eapply read_loop_spec; [exact Hr| |done]. unfold unread. by apply drop_ge. }
  injection Hr as <- <-. fold (unread t).
  assert (Hlen : length (unread t) = length (read_buf t) - read_pos t) by apply length_drop.
  set (k := length (unread t) `min` room).
  constructor; cbn [delivered].
  - intros more. rewrite <- app_assoc. destruct (Nat.leb_spec (length (read_buf t)) (read_pos t + k)); cbn.
    + rewrite take_ge by lia. apply Hi.
    + rewrite Hi. rewrite <- (take_drop k (unread t)) at 1. unfold unread at 2. rewrite drop_drop.
      by rewrite <- !app_assoc.
  - by destruct (length (read_buf t) <=? read_pos t + k).
  - rewrite length_take. lia.
  - done.
  - intros [= Hnil] Hroom. apply (f_equal length) in Hnil. rewrite length_take in Hnil.
    simpl in Hnil. lia.
Qed.

(** ** The write half *)

Definition stream_out (t : GrpcTransport) : list byte :=
  match responder t with ROpen s => data_out s | RPending _ => [] end.

Definition unsent (t : GrpcTransport) : list byte :=
  match current_frame t with Some f => drop (current_frame_offset t) f | None => [] end
  ++ concat (send_queue t).

Definition queued (t : GrpcTransport) : nat :=
  match current_frame t with Some f => length f | None => 0 end + length (concat (send_queue t)).

Record write_inv (t : GrpcTransport) : Prop := MkWriteInv {
  wi_offset : ∀ f, current_frame t = Some f → current_frame_offset t < length f;
  wi_frames : Forall (λ f, f ≠ []) (send_queue t);
  wi_bytes : send_queue_bytes t = Z.of_nat (queued t);
}.

(** The fields sending leaves alone. *)
Definition same_read (t t' : GrpcTransport) : Prop :=
  (recv_stream t', read_pending t', read_buf t', read_pos t', pending_release_capacity t',
   activity t', read_closed t', max_message_size t')
  = (recv_stream t, read_pending t, read_buf t, read_pos t, pending_release_capacity t,
     activity t, read_closed t, max_message_size t).

Lemma same_read_trans t1 t2 t3 : same_read t1 t2 → same_read t2 t3 → same_read t1 t3.
Proof. unfold same_read. congruence. Qed.

Lemma send_loop_spec fuel frame offset s s' o r :
  send_loop fuel frame offset s = Some (s', o, r) → offset < length frame →
  match r with
  | Ready (Err _) =>
      o = None ∧ ∃ part, part `prefix_of` drop offset frame ∧ data_out s' = data_out s ++ part
  | Ready (Ok _) => o = Some (length frame) ∧ data_out s' = data_out s ++ drop offset frame
  | Pending => ∃ o', o = Some o' ∧ o' < length frame
                     ∧ data_out s' ++ drop o' frame = data_out s ++ drop offset frame
  end.
Proof.
  assert (Hnone : ∀ x s0, data_out x = data_out s0 →
    ∃ part, part `prefix_of` drop offset frame ∧ data_out x = data_out s0 ++ part).
  { intros x s0 E. exists []. split; [apply prefix_nil|by rewrite app_nil_r]. }
  revert offset s Hnone. induction fuel as [|fuel IH]; intros offset s Hnone Hr Hlt; [done|].
  cbn [send_loop] in Hr. rewrite (proj2 (Nat.ltb_ge _ _)) in Hr by lia.
  destruct (Nat.eqb_spec (length frame - offset) 0); [lia|].
  destruct (Nat.eqb_spec (capacity s) 0) as [_|Hcap].
  - set (s1 := reserve_capacity _ s) in Hr.
    assert (Hs1 : data_out s1 = data_out s) by apply reserve_law.
    pose proof (poll_capacity_law s1) as Hlaw. rewrite Hs1 in Hlaw.
    destruct (poll_capacity s1) as [s2 [[[n'|e]|]|]]; cbn [fst] in Hlaw.
    + apply IH in Hr; [|done..]. by rewrite Hlaw in Hr.
    + injection Hr as <- <- <-. auto.
    + injection Hr as <- <- <-. auto.
    + injection Hr as <- <- <-. exists offset. by rewrite Hlaw.
  - set (k := (length frame - offset) `min` capacity s) in *.
    rewrite slice_Some in Hr by lia. cbn [mbind option_bind] in Hr.
    replace (offset + k - offset) with k in Hr by lia.
    pose proof (send_data_law (take k (drop offset frame)) false s) as Hlaw.
    destruct (send_data (take k (drop offset frame)) false s) as [s1 [[]|e]];
      [|injection Hr as <- <- <-; auto].
    destruct (Nat.leb_spec (length frame) (offset + k)) as [Hge|Hlt'].
    + injection Hr as <- <- <-. split; [f_equal; lia|].
      rewrite Hlaw, take_ge by (rewrite length_drop; lia). done.
    + apply IH in Hr; [|intros x s0 E; exists []; split; [apply prefix_nil|by rewrite app_nil_r]|done].
      rewrite Hlaw in Hr.
      replace (drop (offset + k) frame) with (drop k (drop offset frame)) in Hr by (by rewrite drop_drop).
      destruct r as [[[]|e]|].
      * by rewrite <- app_assoc, take_drop in Hr.
      * destruct Hr as (-> & part & Hp & Hd). split; [done|].
        exists (take k (drop offset frame) ++ part). split; [|by rewrite app_assoc].
        rewrite <- (take_drop k (drop offset frame)) at 2. by apply prefix_app.
      * by rewrite <- app_assoc, take_drop in Hr.
Qed.

(** [whole], unless a failure cut the stream [out] short. *)
Definition stream_is {A} (r : poll (result A io_error)) (out rest whole : list byte) : Prop :=
  match r with Ready (Err _) => out `prefix_of` whole | _ => out ++ rest = whole end.

(** Sending: what is on the wire and what is queued stay one byte stream, up to
    the first failure; and the queue stays in order even then. *)
Record sends (t t' : GrpcTransport) (r : poll (result unit io_error)) : Prop := MkSends {
  se_inv : write_inv t';
  se_stream : stream_is r (stream_out t') (unsent t') (stream_out t ++ unsent t);
  se_read : same_read t t';
  se_closed : write_closed t' = write_closed t;
  se_bytes : (send_queue_bytes t' ≤ send_queue_bytes t)%Z;
  se_done : r = Ready (Ok tt) → send_queue t' = [] ∧ current_frame t' = None;
}.

(** A failure leaves the queue and the stored offset alone. *)
Lemma failed_sends t resp e :
  write_inv t → stream_out (set_responder resp t) `prefix_of` stream_out t ++ unsent t →
  sends t (set_responder resp t) (Ready (Err e)).
Proof. intros [Ho Hf Hb] Hp. by constructor. Qed.

Lemma current_frame_sends fuel t t' r frame :
  poll_send_current_frame fuel t = Some (t', r) → write_inv t → current_frame t = Some frame →
  match r with
  | Ready (Ok _) => sends t (drop_frame (saturating_sub (send_queue_bytes t') (Z.of_nat (length frame))) t') Pending
  | _ => sends t t' r
  end.
Proof.
  intros Hr Hi Hcur. pose proof Hi as [Ho Hf Hb]. unfold poll_send_current_frame in Hr.
  rewrite Hcur in Hr. specialize (Ho frame Hcur).
  assert (Hopen : match open_stream t with
    | (t1, Err _) => ∃ resp, t1 = set_responder resp t ∧ stream_out t1 = []
    | (t1, Ok s) => data_out s = stream_out t ∧ ∃ resp, t1 = set_responder resp t
    end).
  { unfold open_stream, stream_out. destruct (responder t) as [q|s] eqn:Hresp.
    - destruct (send_response response_headers false q) as [q' [s|e]] eqn:E; [|by eexists].
      split; [by eapply response_law|]. by eexists.
    - split; [done|]. exists (ROpen s). rewrite <- Hresp. by destruct t. }
  destruct (open_stream t) as [t1 [s|e]]; last first.
  { injection Hr as <- <-. destruct Hopen as (resp & -> & Hnil). apply failed_sends; [done|].
    rewrite Hnil. apply prefix_nil. }
  destruct Hopen as [Hs [resp ->]].
  destruct (send_loop fuel frame (current_frame_offset t) s) as [[[s' o] r']|] eqn:E; [|done].
  cbn [mbind option_bind] in Hr. apply send_loop_spec in E; [|done].
  unfold queued in Hb. rewrite Hcur in Hb.
  destruct r' as [[[]|e]|].
  - destruct E as [-> Hd]. injection Hr as <- <-. constructor; try done; cbn.
    + constructor; cbn; [done|done|]. unfold queued. cbn. rewrite Hb. unfold saturating_sub. lia.
    + unfold unsent. rewrite Hcur. cbn. by rewrite Hd, Hs, <- app_assoc.
    + rewrite Hb. unfold saturating_sub. lia.
  - destruct E as (-> & part & Hp & Hd). injection Hr as <- <-.
    change (set_responder (ROpen s') (set_responder resp t)) with (set_responder (ROpen s') t).
    apply failed_sends; [done|]. unfold unsent. rewrite Hcur.
    change (stream_out (set_responder (ROpen s') t)) with (data_out s'). rewrite Hd, Hs.
    apply prefix_app. by apply prefix_app_r.
  - destruct E as (o' & -> & Hlt & Hd). injection Hr as <- <-. constructor; try done; cbn.
    + constructor; cbn; [|done|].
      * intros f Hf'. rewrite Hcur in Hf'. by injection Hf' as <-.
      * unfold queued. cbn. by rewrite Hcur, Hb.
    + unfold unsent. cbn. rewrite Hcur, !app_assoc, Hd, Hs. done.
Qed.

Lemma sends_trans t1 t2 t3 r' : sends t1 t2 Pending → sends t2 t3 r' → sends t1 t3 r'.
Proof.
  intros [A1 A2 A3 A4 A5 _] [B1 B2 B3 B4 B5 B6]. cbn in A2. rewrite A2 in B2.
  constructor; try done; try congruence; lia.
Qed.

Lemma next_frame_sends t frame queue :
  write_inv t → current_frame t = None → send_queue t = frame :: queue →
  sends t (set_write (responder t) queue (send_queue_bytes t) (Some frame) 0 (write_closed t) t) Pending.
Proof.
  intros [Ho Hf Hb] Hcur Hq. rewrite Hq in Hf. apply Forall_cons in Hf as [Hne Hf].
  unfold queued in Hb. rewrite Hcur, Hq in Hb. cbn in Hb. rewrite length_app in Hb.
  constructor; try done; cbn.
  - constructor; cbn; [|done|unfold queued; cbn; lia].
    intros f [= <-]. destruct frame; [done|simpl; lia].
  - unfold unsent. cbn. by rewrite Hcur, Hq.
Qed.

Lemma send_queued_sends n fuel t t' r :
  send_queued_loop n fuel t = Some (t', r) → write_inv t → sends t t' r.
Proof.
  revert t. induction n as [|n IH]; intros t Hr Hi; [done|]. cbn [send_queued_loop] in Hr.
  assert (Hnext : ∀ t0, write_inv t0 → current_frame t0 = None →
    match send_queue t0 with
    | [] => Some (t0, Ready (Ok tt))
    | frame :: queue =>
        send_queued_loop n fuel
          (set_write (responder t0) queue (send_queue_bytes t0) (Some frame) 0 (write_closed t0) t0)
    end = Some (t', r) → sends t0 t' r).
  { intros t0 Hi0 Hcur Hn. destruct (send_queue t0) as [|frame queue] eqn:Hq.
    - injection Hn as <- <-. by constructor.
    - pose proof (next_frame_sends _ _ _ Hi0 Hcur Hq) as Hs. apply IH in Hn; [|apply Hs].
      by eapply sends_trans. }
  destruct (current_frame t) as [frame|] eqn:Hcur; [|by apply Hnext].
  pose proof (wi_offset _ Hi frame Hcur) as Hlt.
  rewrite (proj2 (Nat.ltb_ge _ _)), (proj2 (Nat.ltb_lt 0 _)) in Hr by lia.
  destruct (poll_send_current_frame fuel t) as [[t1 r1]|] eqn:E; [|done]. cbn [mbind option_bind] in Hr.
  pose proof (current_frame_sends _ _ _ _ _ E Hi Hcur) as Hs.
  destruct r1 as [[[]|e]|]; [|by injection Hr as <- <-..].
  apply Hnext in Hr; [|apply Hs|done]. by eapply sends_trans.
Qed.

(** A message accepted for sending. *)
Lemma push_frame_inv payload t :
  write_inv t → message_fits payload →
  write_inv (push_frame (encode_grpc_message payload) t)
  ∧ stream_out (push_frame (encode_grpc_message payload) t)
    ++ unsent (push_frame (encode_grpc_message payload) t)
    = (stream_out t ++ unsent t) ++ encode_grpc_message payload
  ∧ same_read t (push_frame (encode_grpc_message payload) t).
Proof.
  intros [Ho Hf Hb] Hfit. destruct (message_fits_u32 _ Hfit) as [_ Hl].
  split_and!; [|unfold unsent; cbn; rewrite concat_app; cbn; by rewrite app_nil_r, !app_assoc|done].
  constructor; [done| |]; cbn.
  - apply Forall_app_2; [done|]. constructor; [|done]. intros E. rewrite E in Hl. simpl in Hl. lia.
  - unfold queued in *. cbn. rewrite concat_app, length_app. cbn. rewrite app_nil_r. lia.
Qed.

(** The messages a write adds to the stream: what it accepts, or, if it fails, at
    most the message it would have accepted. *)
Definition offered (buf : list byte) (t : GrpcTransport) (r : poll (result nat io_error)) : list (list byte) :=
  match r with Ready (Err _) => [take (max_message_size t) buf] | _ => accepted buf r end.

Record writes_ok (buf : list byte) (t t' : GrpcTransport) (r : poll (result nat io_error)) : Prop :=
  MkWritesOk {
    wo_inv : write_inv t';
    wo_stream : stream_is r (stream_out t') (unsent t')
      ((stream_out t ++ unsent t) ++ concat (map encode_grpc_message (offered buf t r)));
    wo_read : same_read t t';
    wo_size : ∀ n, r = Ready (Ok n) → n ≤ length buf ∧ n ≤ max_message_size t;
    wo_bytes : (send_queue_bytes t' < MAX_SEND_QUEUE_BYTES + Z.of_nat (max_message_size t) + 16)%Z
               ∨ (send_queue_bytes t' ≤ send_queue_bytes t)%Z;
  }.

(** The second half of a write, once what was queued has been tried. *)
Definition push_and_send (fuel : nat) (buf : list byte) (t : GrpcTransport)
    : option (GrpcTransport * poll (result nat io_error)) :=
  if (MAX_SEND_QUEUE_BYTES <=? send_queue_bytes t)%Z then Some (t, Pending)
  else
    let to_write := length buf `min` max_message_size t in
    '(t2, r2) ← poll_send_queued fuel (push_frame (encode_grpc_message (take to_write buf)) t);
    match r2 with
    | Ready (Err e) => Some (t2, Ready (Err e))
    | _ => Some (t2, Ready (Ok to_write))
    end.

Lemma push_and_send_spec fuel buf t t1 t' r :
  sends t t1 Pending → (Z.of_nat (max_message_size t) ≤ u32_max - 16)%Z →
  push_and_send fuel buf t1 = Some (t', r) → writes_ok buf t t' r.
Proof.
  intros [W1 S1 R1 _ B1 _] Hmax. unfold push_and_send, poll_send_queued. cbn in S1.
  assert (Hm : max_message_size t1 = max_message_size t) by congruence.
  rewrite Hm. set (k := length buf `min` max_message_size t).
  destruct (Z.leb_spec MAX_SEND_QUEUE_BYTES (send_queue_bytes t1)) as [Hfull|Hroom].
  { intros [= <- <-]. constructor; cbn; try done; [by rewrite app_nil_r|by right]. }
  assert (Hfit : message_fits (take k buf)) by (unfold message_fits; rewrite length_take; lia).
  assert (Hk : take k buf = take (max_message_size t) buf)
    by (unfold k; rewrite <- take_take; apply take_ge; rewrite length_take; lia).
  destruct (push_frame_inv (take k buf) t1 W1 Hfit) as (W2 & S2 & R2).
  destruct (message_fits_u32 _ Hfit) as [_ Hlen]. rewrite length_take in Hlen.
  set (t1' := push_frame (encode_grpc_message (take k buf)) t1) in *.
  assert (Hb : send_queue_bytes t1'
               = (send_queue_bytes t1 + Z.of_nat (length (encode_grpc_message (take k buf))))%Z) by reflexivity.
  destruct (send_queued_loop _ fuel t1') as [[t2 r2]|] eqn:E2; [|done].
  cbn [mbind option_bind]. apply send_queued_sends in E2; [|done]. destruct E2 as [W3 S3 R3 _ B3 _].
  rewrite S2, S1 in S3.
  assert (same_read t t2) by (by apply (same_read_trans _ t1), (same_read_trans _ t1')).
  destruct r2 as [[[]|e]|]; intros [= <- <-]; cbn in S3;
    (constructor; cbn; [done|rewrite app_nil_r; by rewrite <- ?Hk|done|intros n [=]; lia|left; lia]).
Qed.

Lemma grpc_write_spec fuel buf t t' r :
  grpc_poll_write fuel buf t = Some (t', r) → write_inv t →
  (Z.of_nat (max_message_size t) ≤ u32_max - 16)%Z → writes_ok buf t t' r.
Proof.
  unfold grpc_poll_write. intros Hr Hi Hmax.
  assert (Hfail : ∀ t1 e, sends t t1 (Ready (Err e)) → writes_ok buf t t1 (Ready (Err e))).
  { intros t1 e [W S R _ B _]. constructor; try done; cbn; [|by right]. cbn in S. by apply prefix_app_r. }
  destruct (write_closed t).
  { injection Hr as <- <-. apply Hfail. constructor; try done. by apply prefix_app_r. }
  destruct (poll_send_queued fuel t) as [[t1 r1]|] eqn:E1; [|done].
  cbn [mbind option_bind] in Hr. apply send_queued_sends in E1; [|done].
  destruct r1 as [[[]|e]|]; [|injection Hr as <- <-; by apply Hfail|];
    (eapply push_and_send_spec; [|done|exact Hr]); destruct E1; by constructor.
Qed.

Lemma grpc_flush_spec fuel t t' r :
  grpc_poll_flush fuel t = Some (t', r) → write_inv t → sends t t' r.
Proof. apply send_queued_sends. Qed.

(** Shutting down sends what is queued and nothing after it. *)
Lemma grpc_shutdown_spec fuel t t' r :
  grpc_poll_shutdown fuel t = Some (t', r) → write_inv t →
  write_inv t' ∧ stream_is r (stream_out t') (unsent t') (stream_out t ++ unsent t) ∧ same_read t t'
  ∧ (send_queue_bytes t' ≤ send_queue_bytes t)%Z ∧ write_closed t' = true
  ∧ (r = Ready (Ok tt) → unsent t' = []).
Proof.
  unfold grpc_poll_shutdown. intros Hr Hi.
  destruct (write_closed t && _ && _) eqn:Hdone.
  { injection Hr as <- <-. apply andb_prop in Hdone as [[Hc Hq]%andb_prop Hf].
    apply bool_decide_eq_true in Hq, Hf. split_and!; try done. intros _. unfold unsent. by rewrite Hq, Hf. }
  destruct (grpc_poll_flush fuel (close_write t)) as [[t1 r1]|] eqn:E; [|done].
  cbn [mbind option_bind] in Hr. apply grpc_flush_spec in E; [|destruct Hi; by constructor].
  destruct r1 as [[[]|e]|];
    [|injection Hr as <- <-; destruct E as [W S R C B D]; by split_and!..].
  - destruct E as [W S R C B D]. destruct (D eq_refl) as [Dq Df]. cbn in S.
    assert (Hfin : write_inv (finish_stream t1).1 ∧ stream_out (finish_stream t1).1 = stream_out t1
      ∧ unsent (finish_stream t1).1 = unsent t1 ∧ same_read t1 (finish_stream t1).1
      ∧ send_queue_bytes (finish_stream t1).1 = send_queue_bytes t1
      ∧ write_closed (finish_stream t1).1 = write_closed t1).
    { unfold finish_stream, stream_out. destruct (responder t1) as [q|s] eqn:Hresp.
      - destruct (send_response _ true q) as [q' r']. destruct W. split_and!; by try constructor.
      - pose proof (trailers_law [("grpc-status", "0")] s) as Hl.
        destruct (send_trailers _ s) as [s' r']. cbn in Hl. destruct W. split_and!; by try constructor. }
    destruct (finish_stream t1) as [t2 sent]. cbn [fst] in Hfin.
    destruct Hfin as (W2 & S2 & U2 & R2 & B2 & C2).
    assert (Hu : unsent t2 = []) by (rewrite U2; unfold unsent; by rewrite Dq, Df).
    assert (Hs : stream_out t2 ++ unsent t2 = stream_out t ++ unsent t) by (by rewrite S2, U2, S).
    injection Hr as <- <-. split_and!; try done;
      [|by apply (same_read_trans _ t1)|by rewrite B2|by rewrite C2, C].
    destruct sent as [|e]; [done|]. destruct (is_remote e || is_io e); [done|]. cbn. rewrite <- Hs.
    by apply prefix_app_r.
Qed.

(** ** Runs of a transport *)

Definition is_err {A} (r : poll (result A io_error)) : bool :=
  match r with Ready (Err _) => true | _ => false end.

(** A transport made for a fresh stream, and every state it gets into by polls
    in any order, whatever they return.  [got] is what its reads have delivered,
    [chunks] what its writes have accepted; [failed] says that a write, a flush or
    a shutdown has returned an error. *)
Inductive grpc_reach : GrpcTransport → list byte → list (list byte) → bool → Prop :=
| gr_new recv resp max act :
    data_in recv = [] → (∀ s, resp = ROpen s → data_out s = []) →
    (Z.of_nat max ≤ u32_max - 16)%Z →
    grpc_reach (with_activity recv resp max act) [] [] false
| gr_read t got chunks failed fuel room t' r :
    grpc_reach t got chunks failed → grpc_poll_read fuel room t = Some (t', r) →
    grpc_reach t' (got ++ delivered r) chunks failed
| gr_write t got chunks failed fuel buf t' r :
    grpc_reach t got chunks failed → grpc_poll_write fuel buf t = Some (t', r) →
    grpc_reach t' got (chunks ++ accepted buf r) (failed || is_err r)
| gr_flush t got chunks failed fuel t' r :
    grpc_reach t got chunks failed → grpc_poll_flush fuel t = Some (t', r) →
    grpc_reach t' got chunks (failed || is_err r)
| gr_shutdown t got chunks failed fuel t' r :
    grpc_reach t got chunks failed → grpc_poll_shutdown fuel t = Some (t', r) →
    grpc_reach t' got chunks (failed || is_err r).

Record grpc_inv (t : GrpcTransport) (got : list byte) (chunks : list (list byte)) (failed : bool)
    : Prop := MkGrpcInv {
  gi_read : read_inv got t;
  gi_write : write_inv t;
  gi_stream : failed = false → stream_out t ++ unsent t = concat (map encode_grpc_message chunks);
  gi_fits : Forall message_fits chunks;
  gi_max : (Z.of_nat (max_message_size t) ≤ u32_max - 16)%Z;
  gi_bytes : (send_queue_bytes t < MAX_SEND_QUEUE_BYTES + Z.of_nat (max_message_size t) + 16)%Z;
}.

Lemma read_inv_same got t t' : same_read t t' → read_inv got t → read_inv got t'.
Proof. unfold same_read, read_inv, unread. intros [= -> -> -> -> _ _ _ _]. done. Qed.

Lemma write_inv_same t t' :
  same_write t t' → write_inv t →
  write_inv t' ∧ stream_out t' = stream_out t ∧ unsent t' = unsent t
  ∧ max_message_size t' = max_message_size t ∧ send_queue_bytes t' = send_queue_bytes t.
Proof.
  unfold same_write, stream_out, unsent. intros [= -> Hq Hb Hc Ho Hm _] [W1 W2 W3].
  rewrite Hq, Hb, Hc, Ho, Hm. split_and!; try done.
  constructor; unfold queued in *; rewrite ?Hq, ?Hb, ?Hc, ?Ho; done.
Qed.

Lemma grpc_inv_read t t' got chunks failed fuel room r :
  grpc_inv t got chunks failed → grpc_poll_read fuel room t = Some (t', r) →
  grpc_inv t' (got ++ delivered r) chunks failed.
Proof.
  intros [I1 I2 I3 I4 I5 I6] Hr. destruct (read_closed t) eqn:Hc.
  { unfold grpc_poll_read in Hr. rewrite Hc in Hr. injection Hr as <- <-. cbn. by rewrite app_nil_r. }
  destruct (grpc_read_spec _ _ _ _ _ _ Hr Hc I1) as [R1 R2 _ _ _].
  destruct (write_inv_same _ _ R2 I2) as (W & S & U & M & B).
  constructor; rewrite ?S, ?U, ?M, ?B; done.
Qed.

Lemma stream_is_ok {A} (r : poll (result A io_error)) out rest whole failed :
  stream_is r out rest whole → failed || is_err r = false → out ++ rest = whole.
Proof. intros Hs [_ He]%orb_false_iff. by destruct r as [[|]|]. Qed.

Lemma grpc_inv_sends {A} t t' got chunks failed (r : poll (result A io_error)) :
  grpc_inv t got chunks failed → write_inv t' →
  stream_is r (stream_out t') (unsent t') (stream_out t ++ unsent t) →
  same_read t t' → (send_queue_bytes t' ≤ send_queue_bytes t)%Z →
  grpc_inv t' got chunks (failed || is_err r).
Proof.
  intros [I1 I2 I3 I4 I5 I6] W S R B. pose proof (read_inv_same _ _ _ R I1).
  unfold same_read in R. injection R as _ _ _ _ _ _ _ Hm. constructor; rewrite ?Hm; try done; [|lia].
  intros Hf. rewrite (stream_is_ok _ _ _ _ _ S Hf). apply I3. by apply orb_false_iff in Hf as [-> _].
Qed.

Lemma grpc_inv_write t t' got chunks failed fuel buf r :
  grpc_inv t got chunks failed → grpc_poll_write fuel buf t = Some (t', r) →
  grpc_inv t' got (chunks ++ accepted buf r) (failed || is_err r).
Proof.
  intros [I1 I2 I3 I4 I5 I6] Hr. apply grpc_write_spec in Hr as [W S R N B]; [|done..].
  pose proof (read_inv_same _ _ _ R I1). unfold same_read in R. injection R as _ _ _ _ _ _ _ Hm.
  constructor; try done; rewrite ?Hm; try done.
  - intros Hf. rewrite (stream_is_ok _ _ _ _ _ S Hf). apply orb_false_iff in Hf as [-> He].
    rewrite I3, map_app, concat_app by done. by destruct r as [[|]|].
  - apply Forall_app_2; [done|]. destruct r as [[n|]|]; try done. destruct (N n eq_refl).
    constructor; [|done]. unfold message_fits. rewrite length_take. lia.
  - destruct B as [B|B]; lia.
Qed.

Lemma grpc_reach_inv t got chunks failed :
  grpc_reach t got chunks failed → grpc_inv t got chunks failed.
Proof.
  induction 1 as [recv resp max act Hin Hout Hmax|t got chunks failed fuel room t' r _ IH Hr
    |t got chunks failed fuel buf t' r _ IH Hr|t got chunks failed fuel t' r _ IH Hr
    |t got chunks failed fuel t' r _ IH Hr].
  - constructor; cbn [with_activity max_message_size send_queue_bytes]; try done.
    + intros more. cbn. by rewrite Hin.
    + unfold stream_out. cbn. destruct resp; [done|]. by rewrite Hout.
    + destruct (max =? 0); [|done]. unfold DEFAULT_GRPC_MAX_MESSAGE_SIZE, u32_max.
      rewrite Z2Nat.id by lia. lia.
    + destruct (max =? 0); unfold MAX_SEND_QUEUE_BYTES; lia.
  - by eapply grpc_inv_read.
  - by eapply grpc_inv_write.
  - destruct (grpc_flush_spec _ _ _ _ Hr (gi_write _ _ _ _ IH)). by eapply grpc_inv_sends.
  - destruct (grpc_shutdown_spec _ _ _ _ Hr (gi_write _ _ _ _ IH)) as (? & ? & ? & ? & _).
    by eapply grpc_inv_sends.
Qed.

End faithful.

(** ** Polls terminate *)

Section total.
Context `{H2Laws}.

(** Within one poll the receiving half can hand over chunks in a row, with
    capacity released in between: [w] counts their bytes and one for each. *)
Inductive fed : RecvStream → nat → Prop :=
| fed_nil r : fed r 0
| fed_release n r w : fed (release_capacity n r).1 w → fed r w
| fed_chunk r r' chunk w :
    poll_data r = (r', Ready (Some (Ok chunk))) → fed r' w → fed r (S (length chunk) + w).

(** Within one poll the sending half can report capacity [m] times, with data
    sent in between. *)
Inductive granted : SendStream → nat → Prop :=
| gt_nil s : granted s 0
| gt_send bs fin s m : granted (send_data bs fin s).1 m → granted s m
| gt_ready n s s' x m :
    poll_capacity (reserve_capacity n s) = (s', Ready (Some (Ok x))) → granted s' m → granted s (S m)
| gt_wait n s s' m :
    poll_capacity (reserve_capacity n s) = (s', Pending) → granted s' m → granted s m.

Definition feeds_upto (n : nat) (t : GrpcTransport) : Prop := ∀ w, fed (recv_stream t) w → w ≤ n.

Definition grants_upto (m : nat) (t : GrpcTransport) : Prop :=
  match responder t with
  | ROpen s => ∀ k, granted s k → k ≤ m
  | RPending q => ∀ hs q' s k, send_response hs false q = (q', Ok s) → granted s k → k ≤ m
  end.

(** Every round of a read uses up a byte that was buffered or handed over. *)
Lemma read_loop_total fuel room t n :
  feeds_upto n t → n + length (read_pending t) < fuel → is_Some (read_loop fuel room t).
Proof.
  revert t n. induction fuel as [|fuel IH]; intros t n Hn Hf; [lia|]. cbn [read_loop].
  destruct (match declared_frame_len (read_pending t) with Some _ => _ | None => _ end); [by eauto|].
  pose proof (parse_cases (read_pending t)) as Hp.
  destruct (parse_grpc_message_zerocopy (read_pending t)) as [[[[[payload consumed]|]|e] rest]|] eqn:E;
    [| | |done]; cbn [mbind option_bind]; [| |by eauto].
  - apply (parse_message_app _ []) in E as (_ & Hc & Hl). destruct (decide (payload = [])); [|by eauto].
    apply (IH _ n); unfold release_frame; destruct (0 <? _); cbn; try done; try lia.
    intros w Hw. apply Hn, (fed_release (pending_release_capacity t `min` consumed)), Hw.
  - destruct Hp as [-> _]. change (recv_stream (set_pending _ t)) with (recv_stream t).
    destruct (poll_data (recv_stream t)) as [recv [[[chunk|e]|]|]] eqn:Hd; [|by eauto..].
    assert (Hw : ∀ w, fed recv w → S (length chunk) + w ≤ n) by (intros w Hw; by eapply Hn, fed_chunk).
    pose proof (Hw 0 (fed_nil _)). apply (IH _ (n - S (length chunk))).
    + intros w Hfed. specialize (Hw w Hfed). lia.
    + cbn. rewrite length_app. lia.
Qed.

Lemma grpc_read_total fuel room t n :
  feeds_upto n t → n + length (read_pending t) < fuel → is_Some (grpc_poll_read fuel room t).
Proof.
  intros Hn Hf. unfold grpc_poll_read. destruct (read_closed t); [by eauto|].
  destruct (_ <? _); [by eauto|]. by eapply read_loop_total.
Qed.

Lemma send_loop_total fuel frame offset s m :
  (∀ k, granted s k → k ≤ m) → offset ≤ length frame → m + (length frame - offset) < fuel →
  ∃ s' o r, send_loop fuel frame offset s = Some (s', o, r)
    ∧ (is_err r = false → ∀ k, granted s' k → k ≤ m).
Proof.
  revert offset s m. induction fuel as [|fuel IH]; intros offset s m Hm Ho Hf; [lia|]. cbn [send_loop].
  rewrite (proj2 (Nat.ltb_ge _ _)) by lia.
  destruct (Nat.eqb_spec (length frame - offset) 0) as [|Hrem]; [eexists _, _, _; by split|].
  destruct (Nat.eqb_spec (capacity s) 0) as [_|Hcap].
  - set (n := _ `min` MAX_FRAME_SIZE).
    destruct (poll_capacity (reserve_capacity n s)) as [s2 [[[x|e]|]|]] eqn:E; [|eexists _, _, _; by split..|].
    + assert (Hs2 : ∀ k, granted s2 k → S k ≤ m) by (intros k Hk; by eapply Hm, gt_ready).
      pose proof (Hs2 0 (gt_nil _)).
      destruct (IH offset s2 (m - 1)) as (s' & o & r & -> & Hb); [|done|lia|].
      { intros k Hk. specialize (Hs2 k Hk). lia. }
      eexists _, _, _. split; [done|]. intros He k Hk. specialize (Hb He k Hk). lia.
    + eexists _, _, _. split; [done|]. intros _ k Hk. by eapply Hm, gt_wait.
  - set (k := (length frame - offset) `min` capacity s).
    rewrite slice_Some by lia. cbn [mbind option_bind]. set (bs := take _ (drop offset frame)).
    assert (Hs1 : ∀ j, granted (send_data bs false s).1 j → j ≤ m) by (intros j Hj; by eapply Hm, gt_send).
    destruct (send_data bs false s) as [s1 [[]|e]]; cbn [fst] in Hs1; [|eexists _, _, _; by split].
    destruct (Nat.leb_spec (length frame) (offset + k)); [eexists _, _, _; by split|].
    apply IH; [done|lia..].
Qed.

Lemma current_frame_total fuel t frame m :
  write_inv t → current_frame t = Some frame → grants_upto m t → m + length frame < fuel →
  ∃ t' r, poll_send_current_frame fuel t = Some (t', r)
    ∧ (is_err r = false → grants_upto m t' ∧ send_queue t' = send_queue t).
Proof.
  intros Hi Hcur Hm Hf. pose proof (wi_offset _ Hi frame Hcur) as Ho.
  assert (Hsend : ∀ s t1, (∀ k, granted s k → k ≤ m) → send_queue t1 = send_queue t →
    ∃ t' r, ('(s', offset, r) ← send_loop fuel frame (current_frame_offset t) s;
             Some (match offset with
                   | Some o => set_offset o (set_responder (ROpen s') t1)
                   | None => set_responder (ROpen s') t1
                   end, r)) = Some (t', r)
      ∧ (is_err r = false → grants_upto m t' ∧ send_queue t' = send_queue t)).
  { intros s t1 Hs Hq.
    destruct (send_loop_total fuel frame (current_frame_offset t) s m) as (s' & o & r & -> & Hb); [done|lia..|].
    eexists _, _. split; [done|]. intros He. specialize (Hb He). by destruct o. }
  unfold poll_send_current_frame, open_stream. rewrite Hcur. unfold grants_upto in Hm.
  destruct (responder t) as [q|s]; [|by apply Hsend].
  destruct (send_response response_headers false q) as [q' [s|e]] eqn:E; [|by eexists _, _].
  apply Hsend; [|done]. intros k. by eapply Hm.
Qed.

Lemma send_queued_total n fuel t m :
  write_inv t → length (send_queue t) < n → grants_upto m t → m + queued t < fuel →
  ∃ t' r, send_queued_loop n fuel t = Some (t', r) ∧ (is_err r = false → grants_upto m t').
Proof.
  revert t. induction n as [|n IH]; intros t Hi Hn Hm Hf; [lia|]. cbn [send_queued_loop].
  assert (Hnext : ∀ t0, write_inv t0 → current_frame t0 = None → length (send_queue t0) < S n →
    grants_upto m t0 → queued t0 ≤ queued t →
    ∃ t' r, match send_queue t0 with
      | [] => Some (t0, Ready (Ok tt))
      | frame :: queue =>
          send_queued_loop n fuel
            (set_write (responder t0) queue (send_queue_bytes t0) (Some frame) 0 (write_closed t0) t0)
      end = Some (t', r) ∧ (is_err r = false → grants_upto m t')).
  { intros t0 Hi0 Hc0 Hn0 Hb0 Hq0. destruct (send_queue t0) as [|frame queue] eqn:Hq; [by eexists _, _|].
    pose proof (next_frame_sends _ _ _ Hi0 Hc0 Hq) as Hs. unfold queued in Hq0. rewrite Hc0, Hq in Hq0.
    cbn in Hq0. rewrite length_app in Hq0. apply IH; [apply Hs|cbn; simpl in Hn0; lia|done|].
    unfold queued in *. cbn. lia. }
  destruct (current_frame t) as [frame|] eqn:Hcur; [|by apply Hnext].
  pose proof (wi_offset _ Hi frame Hcur) as Hlt.
  rewrite (proj2 (Nat.ltb_ge _ _)), (proj2 (Nat.ltb_lt 0 _)) by lia.
  assert (Hframe : length frame + length (concat (send_queue t)) = queued t)
    by (unfold queued; by rewrite Hcur).
  destruct (current_frame_total fuel t frame m Hi Hcur Hm ltac:(lia)) as (t1 & r1 & E1 & Hkeep).
  rewrite E1. cbn [mbind option_bind]. pose proof (current_frame_sends _ _ _ _ _ E1 Hi Hcur) as Hs.
  destruct r1 as [[[]|e]|]; [|by eexists _, _|eexists _, _; split; [done|]; by intros; apply Hkeep].
  destruct (Hkeep eq_refl) as [Hb Hq]. apply Hnext; [apply Hs|done|cbn; by rewrite Hq|done|].
  unfold queued at 1. cbn. rewrite Hq. lia.
Qed.

Lemma push_and_send_total fuel buf t m :
  write_inv t → (Z.of_nat (max_message_size t) ≤ u32_max - 16)%Z → grants_upto m t →
  m + queued t + length buf + 16 < fuel → is_Some (push_and_send fuel buf t).
Proof.
  intros Hi Hmax Hm Hf. unfold push_and_send, poll_send_queued. destruct (_ <=? _)%Z; [done|].
  set (k := length buf `min` max_message_size t).
  assert (Hfit : message_fits (take k buf)) by (unfold message_fits; rewrite length_take; lia).
  destruct (message_fits_u32 _ Hfit) as [_ Hl]. rewrite length_take in Hl.
  set (t1 := push_frame _ t).
  destruct (send_queued_total (S (length (send_queue t1))) fuel t1 m) as (t2 & r2 & -> & _).
  - by apply push_frame_inv.
  - lia.
  - done.
  - unfold queued in *. cbn. rewrite concat_app, length_app. cbn. rewrite app_nil_r. lia.
  - by destruct r2 as [[|]|].
Qed.

Lemma grpc_write_total fuel buf t m :
  write_inv t → (Z.of_nat (max_message_size t) ≤ u32_max - 16)%Z → grants_upto m t →
  m + queued t + length buf + 16 < fuel → is_Some (grpc_poll_write fuel buf t).
Proof.
  intros Hi Hmax Hm Hf. unfold grpc_poll_write. destruct (write_closed t); [done|].
  destruct (send_queued_total (S (length (send_queue t))) fuel t m Hi) as (t1 & r1 & E1 & Hb); [lia|done|lia|].
  change (poll_send_queued fuel t = Some (t1, r1)) in E1. rewrite E1. cbn [mbind option_bind].
  apply send_queued_sends in E1 as [W _ R _ B _]; [|done].
  unfold same_read in R. injection R as _ _ _ _ _ _ _ Hmx. rewrite (wi_bytes _ W), (wi_bytes _ Hi) in B.
  destruct r1 as [[[]|e]|]; [|done|]; (apply (push_and_send_total _ _ _ m); [done|by rewrite Hmx|by apply Hb|lia]).
Qed.

Lemma grpc_shutdown_total fuel t m :
  write_inv t → grants_upto m t → m + queued t < fuel →
  is_Some (grpc_poll_flush fuel t) ∧ is_Some (grpc_poll_shutdown fuel t).
Proof.
  intros Hi Hm Hf.
  assert (Hflush : ∀ t0, write_inv t0 → grants_upto m t0 → m + queued t0 < fuel →
    ∃ t' r, grpc_poll_flush fuel t0 = Some (t', r)).
  { intros t0 Hi0 Hm0 Hf0.
    destruct (send_queued_total (S (length (send_queue t0))) fuel t0 m Hi0) as (t' & r & E & _); [lia|done|lia|].
    by eauto. }
  split; [destruct (Hflush t Hi Hm Hf) as (t' & r & ->); done|]. unfold grpc_poll_shutdown.
  destruct (write_closed t && _ && _); [done|].
  destruct (Hflush (close_write t)) as (t' & r & ->); [by destruct Hi|done|done|]. cbn [mbind option_bind].
  destruct r as [[[]|]|]; [by destruct (finish_stream t')|done..].
Qed.

End total.

(** A finite run: the peer sends finitely much on the stream and grants capacity
    finitely often, all told.  The numbers count what is still to come in the
    run, what the peer sends only after its window is opened again included, so
    that nothing but taking it lowers them. *)
Class H2Finite `{H2} := {
  recv_left : RecvStream → nat;
  send_left : SendStream → nat;
  response_left : SendResponse → nat;
  poll_data_left r :
    match poll_data r with
    | (r', Ready (Some (Ok chunk))) => S (length chunk) + recv_left r' ≤ recv_left r
    | (r', _) => recv_left r' ≤ recv_left r
    end;
  release_left n r : recv_left (release_capacity n r).1 ≤ recv_left r;
  poll_capacity_left n s :
    match poll_capacity (reserve_capacity n s) with
    | (s', Ready (Some (Ok _))) => send_left s' < send_left s
    | (s', _) => send_left s' ≤ send_left s
    end;
  send_data_left bs fin s : send_left (send_data bs fin s).1 ≤ send_left s;
  response_left_law hs fin q q' s :
    send_response hs fin q = (q', Ok s) → send_left s ≤ response_left q;
}.

Section finite.
Context `{H2Finite}.

Lemma fed_left r w : fed r w → w ≤ recv_left r.
Proof.
  induction 1 as [r|n r w _ IH|r r' chunk w E _ IH]; [lia|pose proof (release_left n r); lia|].
  pose proof (poll_data_left r) as Hl. rewrite E in Hl. lia.
Qed.

Lemma granted_left s m : granted s m → m ≤ send_left s.
Proof.
  induction 1 as [s|bs fin s m _ IH|n s s' x m E _ IH|n s s' m E _ IH]; [lia|pose proof (send_data_left bs fin s); lia|..];
    pose proof (poll_capacity_left n s) as Hl; rewrite E in Hl; lia.
Qed.

Definition write_left (t : GrpcTransport) : nat :=
  match responder t with ROpen s => send_left s | RPending q => response_left q end.

Lemma feeds_left t : feeds_upto (recv_left (recv_stream t)) t.
Proof. intros w. apply fed_left. Qed.

Lemma grants_left t : grants_upto (write_left t) t.
Proof.
  unfold grants_upto, write_left. destruct (responder t) as [q|s]; [|apply granted_left].
  intros hs q' s k E Hk%granted_left. apply response_left_law in E. lia.
Qed.

End finite.

(** ** Properties *)

(** C11: the gRPC tunnel is a faithful byte stream in both directions, for any
    order of reads, writes, flushes and shutdowns, whatever they return, and any
    behaviour of the HTTP/2 stream.  At every point, also after the write side has
    failed, the payloads of the messages received so far are exactly what the
    reads delivered, the unread rest of the current message, and the messages not
    parsed yet.  As long as no write, flush or shutdown has failed, what is on the
    wire followed by what is queued is exactly the encoding of the accepted
    writes, and a peer that decodes it reads exactly the accepted bytes.  When one
    fails for the first time, what has gone out is a beginning of the encoding of
    the accepted writes and, if it was a write, of the one that failed, so that
    the peer has read a beginning of those bytes. *)
Theorem grpc_tunnel_faithful `{H2Laws} t got chunks failed :
  grpc_reach t got chunks failed →
  hunks (data_in (recv_stream t)) = got ++ unread t ++ hunks (read_pending t)
  ∧ (failed = false →
     stream_out t ++ unsent t = concat (map encode_grpc_message chunks)
     ∧ hunks (stream_out t ++ unsent t) = concat chunks
     ∧ (∀ fuel buf t' e, grpc_poll_write fuel buf t = Some (t', Ready (Err e)) →
          let all := chunks ++ [take (max_message_size t) buf] in
          stream_out t' `prefix_of` concat (map encode_grpc_message all)
          ∧ hunks (stream_out t') `prefix_of` concat all)
     ∧ (∀ fuel t' e, grpc_poll_flush fuel t = Some (t', Ready (Err e))
                     ∨ grpc_poll_shutdown fuel t = Some (t', Ready (Err e)) →
          stream_out t' `prefix_of` concat (map encode_grpc_message chunks)
          ∧ hunks (stream_out t') `prefix_of` concat chunks)).
Proof.
  intros [R W S F M B]%grpc_reach_inv. split; [specialize (R []); by rewrite !app_nil_r in R|].
  intros Hf. specialize (S Hf). split; [done|]. split; [by rewrite S, hunks_encoded|].
  assert (Hcut : ∀ out all, Forall message_fits all → out `prefix_of` concat (map encode_grpc_message all) →
    out `prefix_of` concat (map encode_grpc_message all) ∧ hunks out `prefix_of` concat all).
  { intros out all Hall Hp. split; [done|]. rewrite <- (hunks_encoded all Hall). destruct Hp as [more ->].
    apply hunks_prefix. }
  split.
  - intros fuel buf t' e Hr. apply grpc_write_spec in Hr as [_ S' _ _ _]; [|done..]. cbn in S'.
    apply Hcut; [|by rewrite map_app, concat_app, <- S].
    apply Forall_app_2; [done|]. constructor; [|done]. unfold message_fits. rewrite length_take. lia.
  - intros fuel t' e [Hr|Hr]; (apply Hcut; [done|]; rewrite <- S).
    + by apply (se_stream _ _ _ (grpc_flush_spec _ _ _ _ Hr W)).
    + by destruct (grpc_shutdown_spec _ _ _ _ Hr W) as (_ & S' & _).
Qed.

(** C35: the memory of a tunnel is bounded, also after a failed write.  The byte
    counter of the send queue is the size of the queued messages and stays below
    the queue limit plus one message, and a read that has to wait holds less than
    one maximal inbound frame. *)
Theorem grpc_memory_bounded `{H2Laws} t got chunks failed :
  grpc_reach t got chunks failed →
  send_queue_bytes t = Z.of_nat (queued t)
  ∧ (Z.of_nat (queued t) < MAX_SEND_QUEUE_BYTES + Z.of_nat (max_message_size t) + 16)%Z
  ∧ ∀ fuel room t', grpc_poll_read fuel room t = Some (t', Pending) →
      (Z.of_nat (length (read_pending t')) < 5 + MAX_INBOUND_FRAME_LEN)%Z.
Proof.
  intros [R W S F M B]%grpc_reach_inv. pose proof (wi_bytes _ W) as Hb. split_and!; [done|lia|].
  intros fuel room t' Hr. destruct (read_closed t) eqn:Hc.
  { unfold grpc_poll_read in Hr. by rewrite Hc in Hr. }
  by apply (grpc_read_spec _ _ _ _ _ _ Hr Hc R).
Qed.

(** C36: every poll of a tunnel returns without a panic, in every state it can get
    into, those after a failed write, flush or shutdown included.  Only a stream
    that is ready without end within that very poll could keep it: if h2 hands
    over [n] bytes and chunks in a row, a read ends within as many rounds as
    these and the bytes buffered; if it reports capacity [m] times in a row, a
    write, a flush and a shutdown end within rounds linear in [m] and the bytes
    queued. *)
Theorem grpc_polls_terminate `{H2Laws} t got chunks failed n m :
  grpc_reach t got chunks failed → feeds_upto n t → grants_upto m t →
  (∀ fuel room, n + length (read_pending t) < fuel → is_Some (grpc_poll_read fuel room t))
  ∧ (∀ fuel buf, m + queued t + length buf + 16 < fuel →
       is_Some (grpc_poll_write fuel buf t)
       ∧ is_Some (grpc_poll_flush fuel t) ∧ is_Some (grpc_poll_shutdown fuel t)).
Proof.
  intros [R W S F M B]%grpc_reach_inv Hn Hm. split.
  - intros fuel room Hf. by eapply grpc_read_total.
  - intros fuel buf Hf. split; [by eapply grpc_write_total|]. apply (grpc_shutdown_total _ _ m); [done..|lia].
Qed.

(** A flush between two polls of a shutdown loses the trailers.  Once a
    shutdown has closed the write side and is waiting for the queue, a flush
    that drains the queue makes the next poll of the shutdown succeed without
    touching the stream: no trailers are ever sent. *)
Theorem grpc_flush_hides_trailers `{H2Laws} t got chunks failed fuel t1 fuel' :
  grpc_reach t got chunks failed → write_closed t = true →
  grpc_poll_flush fuel t = Some (t1, Ready (Ok tt)) →
  grpc_poll_shutdown fuel' t1 = Some (t1, Ready (Ok tt)).
Proof.
  intros [R W S F M B]%grpc_reach_inv Hc Hf.
  destruct (grpc_flush_spec _ _ _ _ Hf W) as [_ _ _ Hc' _ Hd]. destruct (Hd eq_refl) as [Hq Hn].
  unfold grpc_poll_shutdown. by rewrite Hc', Hc, Hq, Hn.
Qed.

(** ** A sample stream *)

Module SampleH2.

(** What is still to come, and what has come; answers to come to
    requests for capacity, the capacity granted, and what was sent. *)
Inductive grant := Give (n : nat) | Wait | Broken.

Record incoming := MkIncoming { chunks_ahead : list (list byte); seen : list byte }.
Record outgoing := MkOutgoing { grants : list grant; room : nat; wire_out : list byte; ended : bool }.

#[local] Instance sample_h2 : H2 := {|
  RecvStream := incoming;
  SendStream := outgoing;
  SendResponse := list grant;
  H2Error := Z;
  poll_data r :=
    match chunks_ahead r with
    | [] => (r, Pending)
    | c :: cs => (MkIncoming cs (seen r ++ c), Ready (Some (Ok c)))
    end;
  release_capacity _ r := (r, Ok tt);
  capacity := room;
  reserve_capacity _ s := s;
  poll_capacity s :=
    match grants s with
    | [] => (s, Pending)
    | Wait :: gs => (MkOutgoing gs (room s) (wire_out s) (ended s), Pending)
    | Give g :: gs => (MkOutgoing gs (room s + g) (wire_out s) (ended s), Ready (Some (Ok g)))
    | Broken :: gs => (MkOutgoing gs (room s) (wire_out s) (ended s), Ready (Some (Err 2%Z)))
    end;
  send_data bs fin s :=
    (MkOutgoing (grants s) (room s - length bs) (wire_out s ++ bs) (ended s || fin), Ok tt);
  send_trailers _ s := (MkOutgoing (grants s) (room s) (wire_out s) true, Ok tt);
  send_response _ fin q := (q, Ok (MkOutgoing q 0 [] fin));
  reason e := Some e;
  is_remote _ := false;
  is_io _ := false;
  h2_display _ := "h2";
|}.

#[local] Program Instance sample_laws : H2Laws := {| data_in := seen; data_out := wire_out |}.
Next Obligation. intros [[|c cs] l]; done. Qed.
Next Obligation. done. Qed.
Next Obligation. done. Qed.
Next Obligation. intros [[|[] gs] g0 w e]; done. Qed.
Next Obligation. done. Qed.
Next Obligation. done. Qed.
Next Obligation. by intros hs fin q q' s [= <- <-]. Qed.

#[local] Program Instance sample_finite : H2Finite := {|
  recv_left r := length (chunks_ahead r) + length (concat (chunks_ahead r));
  send_left s := length (grants s);
  response_left q := length q;
|}.
Next Obligation. intros [[|c cs] l]; simpl; [done|]. rewrite length_app. lia. Qed.
Next Obligation. done. Qed.
Next Obligation. intros n [[|[] gs] g0 w e]; simpl; lia. Qed.
Next Obligation. done. Qed.
Next Obligation. by intros hs fin q q' s [= <- <-]. Qed.

(** A tunnel with one message to come, split in two chunks, and a peer that
    grants capacity slowly. *)
Definition start : GrpcTransport :=
  with_activity (MkIncoming [take 3 (encode_grpc_message (as_bytes "ping"));
                             drop 3 (encode_grpc_message (as_bytes "ping"))] [])
    (RPending [Give 4; Wait; Wait; Give 100]) 1024 (Some false).

(** It has read the message, accepted an answer that only partly fits the
    capacity, and begun to shut down. *)
Definition after {A} (o : option (GrpcTransport * A)) : GrpcTransport :=
  match o with Some (t, _) => t | None => start end.
Definition was_read : GrpcTransport := after (grpc_poll_read 20 2 start).
Definition was_written : GrpcTransport := after (grpc_poll_write 40 (as_bytes "pong") was_read).
(** The peer breaks the stream off while the answer is being sent. *)
Definition cut_short : GrpcTransport :=
  with_activity (MkIncoming [encode_grpc_message (as_bytes "ping")] [])
    (RPending [Give 4; Broken; Give 100]) 1024 None.
Definition broken_off : GrpcTransport := after (grpc_poll_write 40 (as_bytes "pong") cut_short).
Definition shutting : GrpcTransport := after (grpc_poll_shutdown 40 was_written).

End SampleH2.

#[local] Existing Instance SampleH2.sample_h2.
#[local] Existing Instance SampleH2.sample_laws.
#[local] Existing Instance SampleH2.sample_finite.

Lemma sample_reach : grpc_reach SampleH2.shutting (as_bytes "pi") [as_bytes "pong"] false.
Proof.
  assert (H0 : grpc_reach SampleH2.start [] [] false).
  { apply gr_new; [done|by intros s [=]|vm_compute; discriminate]. }
  assert (H1 : grpc_reach SampleH2.was_read (as_bytes "pi") [] false).
  { apply (gr_read _ [] _ _ 20 2 _ (Ready (Ok (as_bytes "pi"))) H0). vm_compute. reflexivity. }
  assert (H2 : grpc_reach SampleH2.was_written (as_bytes "pi") [as_bytes "pong"] false).
  { apply (gr_write _ _ [] _ 40 (as_bytes "pong") _ (Ready (Ok 4)) H1). vm_compute. reflexivity. }
  apply (gr_shutdown _ _ _ _ 40 _ Pending H2). vm_compute. reflexivity.
Qed.

Lemma cut_short_reach : grpc_reach SampleH2.cut_short [] [] false.
Proof. apply gr_new; [done|by intros s [=]|vm_compute; discriminate]. Qed.

Lemma cut_short_fails :
  grpc_poll_write 40 (as_bytes "pong") SampleH2.cut_short
  = Some (SampleH2.broken_off, Ready (Err (IoError EkOther "gRPC capacity error: h2"))).
Proof. vm_compute. reflexivity. Qed.

Lemma broken_off_reach : grpc_reach SampleH2.broken_off [] [] true.
Proof. exact (gr_write _ _ [] _ _ _ _ _ cut_short_reach cut_short_fails). Qed.

(** A run in order, and one that fails after four bytes. *)
Lemma grpc_tunnel_faithful_witness :
  hunks (data_in (recv_stream SampleH2.shutting)) = as_bytes "ping"
  ∧ unread SampleH2.shutting = as_bytes "ng"
  ∧ hunks (stream_out SampleH2.shutting ++ unsent SampleH2.shutting) = concat [as_bytes "pong"]
  ∧ length (stream_out SampleH2.broken_off) = 4
  ∧ stream_out SampleH2.broken_off `prefix_of` concat (map encode_grpc_message [as_bytes "pong"]).
Proof.
  split; [vm_compute; reflexivity|]. split; [vm_compute; reflexivity|].
  split; [apply (grpc_tunnel_faithful _ _ _ _ sample_reach); reflexivity|].
  split; [vm_compute; reflexivity|].
  destruct (proj2 (grpc_tunnel_faithful _ _ _ _ cut_short_reach) eq_refl) as (_ & _ & Hw & _).
  exact (proj1 (Hw 40 (as_bytes "pong") _ _ cut_short_fails)).
Defined.

Lemma grpc_memory_bounded_witness :
  send_queue_bytes SampleH2.shutting = 11%Z
  ∧ send_queue_bytes SampleH2.shutting = Z.of_nat (queued SampleH2.shutting).
Proof.
  split; [vm_compute; reflexivity|]. apply (grpc_memory_bounded _ _ _ _ sample_reach).
Defined.

(** The polls after a failed write. *)
Lemma grpc_polls_terminate_witness :
  is_Some (grpc_poll_read 100 10 SampleH2.broken_off)
  ∧ is_Some (grpc_poll_shutdown 100 SampleH2.broken_off).
Proof.
  destruct (grpc_polls_terminate _ _ _ _ 20 3 broken_off_reach) as [Hr Hw].
  - intros w Hw%fed_left. etrans; [exact Hw|]. apply Nat.leb_le. vm_compute. reflexivity.
  - intros k Hk%granted_left. etrans; [exact Hk|]. apply Nat.leb_le. vm_compute. reflexivity.
  - split; [apply Hr; apply Nat.ltb_lt; vm_compute; reflexivity|].
    apply (Hw 100 []). apply Nat.ltb_lt. vm_compute. reflexivity.
Defined.

Lemma grpc_flush_hides_trailers_witness :
  let flushed := SampleH2.after (grpc_poll_flush 40 SampleH2.shutting) in
  grpc_poll_shutdown 40 flushed = Some (flushed, Ready (Ok tt))
  ∧ match responder flushed with ROpen s => SampleH2.ended s = false | RPending _ => False end.
Proof.
  split; [|vm_compute; reflexivity].
  apply (grpc_flush_hides_trailers _ _ _ _ 40 _ 40 sample_reach); vm_compute; reflexivity.
Defined.
