(* ===== verification/GrpcConn.v ===== *)
(** * gRPC connections ([src/src/transport/grpc/connection.rs] and
    [src/src/transport/grpc/heartbeat.rs])

    The paths a service listens on, the PING heartbeat, and the loop that
    accepts the streams of one HTTP/2 connection.  The loop is a step function
    on the events its [select!] waits for. *)

From S2P Require Import Prelude RustStd Text Percent AsyncIo Grpc.

(** ** Request paths *)

Definition path_slash : byte := Byte.x2f.
Definition path_bar : byte := Byte.x7c.

(** The bytes to escape: [NON_ALPHANUMERIC] without the characters Go's
    [url.PathEscape] keeps. *)
Definition KEEP (b : byte) : bool :=
  NON_ALPHANUMERIC b && negb (existsb (is_byte b) (as_bytes "-_.~$&+:=@")).

(** The part before the last [c], if there is one, and the part after it. *)
Definition rsplit_once (c : byte) (s : list byte) : option (list byte) * list byte :=
  let tail := last_label c s in
  if length tail =? length s then (None, s)
  else (Some (take (length s - length tail - 1) s), tail).

Section paths.
Context `{PercentEncoding}.

Definition path_escape (s : string) : string := utf8_percent_encode KEEP s.

Definition stream_path (svc name : string) : string := "/" +:+ svc +:+ "/" +:+ name.

Definition grpc_paths (service_name : string) : string * string :=
  match as_bytes service_name with
  | b :: rest =>
      if is_byte path_slash b then
        let '(raw_service, ending) := rsplit_once path_slash rest in
        let svc := of_bytes (join [path_slash]
                     (map (λ seg, as_bytes (path_escape (of_bytes seg)))
                        (split_on path_slash (default [] raw_service)))) in
        let names := split_on path_bar ending in
        let tun := default [] (names !! 0) in
        let multi := default tun (names !! 1) in
        (stream_path svc (path_escape (of_bytes tun)), stream_path svc (path_escape (of_bytes multi)))
      else
        let svc := path_escape service_name in (stream_path svc "Tun", stream_path svc "TunMulti")
  | [] =>
      let svc := path_escape service_name in (stream_path svc "Tun", stream_path svc "TunMulti")
  end.

(** Distinct names never share an escaped form. *)
Lemma path_escape_inj `{!PercentLaws} s s' :
  is_str s → is_str s' → path_escape s = path_escape s' → s = s'.
Proof.
  unfold path_escape. intros Hs Hs' E%(f_equal percent_decode_str).
  by rewrite !percent_decode_encode in E.
Qed.

(** A plain service name has its own pair of paths. *)
Lemma grpc_paths_inj `{!PercentLaws} s s' :
  is_str s → is_str s' → head (as_bytes s) ≠ Some path_slash → head (as_bytes s') ≠ Some path_slash →
  (grpc_paths s).1 = (grpc_paths s').1 → s = s'.
Proof.
  assert (Hp : ∀ s, head (as_bytes s) ≠ Some path_slash →
    (grpc_paths s).1 = stream_path (path_escape s) "Tun").
  { intros x Hx. unfold grpc_paths. destruct (as_bytes x) as [|b rest]; [done|]. simpl in Hx.
    unfold is_byte. by rewrite bool_decide_eq_false_2 by congruence. }
  intros Hs Hs' Hh Hh'. rewrite !Hp by done. unfold stream_path.
  intros E%(inj (String.append "/"))%(f_equal as_bytes). apply path_escape_inj; [done..|].
  rewrite !as_bytes_app in E. apply app_inv_tail in E. by apply as_bytes_inj.
Qed.

End paths.

(** ** Heartbeat *)

Definition MAX_MISSED_PINGS : Z := 3.

(** [hb_activity] is the flag shared with the streams of the connection. *)
Record H2Heartbeat := MkHeartbeat {
  ping_pong : bool;
  hb_activity : bool;
  waiting_pong : bool;
  missed_pings : Z;
}.

Definition heartbeat_new (pp : bool) : H2Heartbeat := MkHeartbeat pp false false 0.

Definition on_activity (h : H2Heartbeat) : H2Heartbeat :=
  MkHeartbeat (ping_pong h) (hb_activity h) (waiting_pong h) 0.

Definition raise_activity (h : H2Heartbeat) : H2Heartbeat :=
  MkHeartbeat (ping_pong h) true (waiting_pong h) (missed_pings h).

(** What [H2Heartbeat::poll] waits for: the PONG, or its timer; a PING that the
    tick sends may fail. *)
Inductive hb_event : Type :=
| HbPong (ok : bool)
| HbTick (ping_ok : bool).

(** One resolution of [poll]; an event the heartbeat does not wait for leaves it
    pending. *)
Definition heartbeat_poll (ev : hb_event) (h : H2Heartbeat) : H2Heartbeat * result unit string :=
  if negb (ping_pong h) then (h, Ok tt)
  else if waiting_pong h then
    match ev with
    | HbPong true => (MkHeartbeat true (hb_activity h) false 0, Ok tt)
    | HbPong false => (MkHeartbeat true (hb_activity h) false (missed_pings h), Err "PONG error")
    | HbTick _ =>
        if hb_activity h then (MkHeartbeat true false true 0, Ok tt)
        else
          let missed := (missed_pings h + 1)%Z in
          (MkHeartbeat true false true missed,
           if (MAX_MISSED_PINGS <=? missed)%Z then Err "heartbeat timeout" else Ok tt)
    end
  else
    match ev with
    | HbPong _ => (h, Ok tt)
    | HbTick ping_ok => (MkHeartbeat true false ping_ok (missed_pings h), Ok tt)
    end.

(** ** The connection loop *)

Section connection.
Context `{H2, PercentEncoding}.

Record http_request := MkHttpRequest { method : string; uri_path : string; body : RecvStream }.

Record GrpcConnection := MkGrpcConnection {
  expected_path : string;
  expected_multi_path : string;
  grpc_buffer_size : nat;
}.

(** [with_config] after the HTTP/2 handshake. *)
Definition with_config (service_name : string) (buffer_size : nat) : GrpcConnection :=
  let '(p, m) := grpc_paths service_name in MkGrpcConnection p m buffer_size.

(** The variables of [run]. *)
Record run_state := MkRun {
  heartbeat : H2Heartbeat;
  active_streams : nat;
  idle_ticks : Z;
}.

Definition run_start (pp : bool) : run_state := MkRun (heartbeat_new pp) 0 0.

(** What the loop does besides changing its variables. *)
Inductive run_action : Type :=
| Respond (headers : header_list) (respond : SendResponse)
| Spawn (transport : GrpcTransport)
| GracefulShutdown
| CancelHandlers.

(** What [select!] waits for, the end of a handler task, and data on a stream. *)
Inductive run_event : Type :=
| Accepted (request : http_request) (respond : SendResponse)
| AcceptError (e : string)
| AcceptClosed
| Heartbeat (ev : hb_event)
| IdleTick
| StreamEnded
| StreamData.

Definition is_stream_request (c : GrpcConnection) (request : http_request) : bool :=
  bool_decide (method request = "POST")
  && (bool_decide (uri_path request = expected_path c)
      || bool_decide (uri_path request = expected_multi_path c)).

Definition run_step (c : GrpcConnection) (ev : run_event) (s : run_state)
    : run_state * list run_action * option (result unit string) :=
  match ev with
  | Accepted request respond =>
      let hb := on_activity (heartbeat s) in
      if negb (bool_decide (method request = "POST")) then
        (MkRun hb (active_streams s) (idle_ticks s), [Respond [(":status", "405")] respond], None)
      else if negb (bool_decide (uri_path request = expected_path c)
                    || bool_decide (uri_path request = expected_multi_path c)) then
        (MkRun hb (active_streams s) (idle_ticks s),
         [Respond (response_headers ++ [("grpc-status", "12"); ("grpc-message", "unknown service")])
            respond], None)
      else
        (MkRun hb (S (active_streams s)) 0,
         [Spawn (with_activity (body request) (RPending respond) (grpc_buffer_size c)
                   (Some (hb_activity hb)))], None)
  | AcceptError e => (s, [], Some (Err ("gRPC connection error: " +:+ e)))
  | AcceptClosed => (s, [], Some (Ok tt))
  | Heartbeat hev =>
      let '(hb, r) := heartbeat_poll hev (heartbeat s) in
      (MkRun hb (active_streams s) (idle_ticks s), [],
       match r with Ok _ => None | Err e => Some (Err ("gRPC " +:+ e)) end)
  | IdleTick =>
      if active_streams s =? 0 then
        let ticks := (idle_ticks s + 1)%Z in
        let s' := MkRun (heartbeat s) (active_streams s) ticks in
        if (ticks =? 3)%Z then (s', [GracefulShutdown], None)
        else if (3 <? ticks)%Z then (s', [], Some (Ok tt))
        else (s', [], None)
      else (MkRun (heartbeat s) (active_streams s) 0, [], None)
  | StreamEnded => (MkRun (heartbeat s) (active_streams s - 1) (idle_ticks s), [], None)
  | StreamData => (MkRun (raise_activity (heartbeat s)) (active_streams s) (idle_ticks s), [], None)
  end.

(** The loop over a sequence of events: the state, what was done, and the
    result once it has ended; the last thing done is to cancel [conn_cancel], on
    which the [select!] of every spawned task drops its handler. *)
Fixpoint run_conn (c : GrpcConnection) (evs : list run_event) (s : run_state)
    : run_state * list run_action * option (result unit string) :=
  match evs with
  | [] => (s, [], None)
  | ev :: evs' =>
      match run_step c ev s with
      | (s', acts, Some r) => (s', acts ++ [CancelHandlers], Some r)
      | (s', acts, None) =>
          let '(s'', acts', r) := run_conn c evs' s' in (s'', acts ++ acts', r)
      end
  end.

End connection.

(** ** Facts about the loop *)

Section run_facts.
Context `{H2} (c : GrpcConnection).

Definition count_events (f : run_event → bool) (evs : list run_event) : Z :=
  Z.of_nat (length (filter (λ ev, f ev = true) evs)).

Lemma count_events_app f l1 l2 : count_events f (l1 ++ l2) = (count_events f l1 + count_events f l2)%Z.
Proof. unfold count_events. rewrite filter_app, length_app. lia. Qed.

Lemma count_events_cons f ev l :
  count_events f (ev :: l) = ((if f ev then 1 else 0) + count_events f l)%Z.
Proof. unfold count_events. rewrite filter_cons. destruct (f ev); simpl; lia. Qed.

Lemma count_events_snoc f l ev :
  count_events f (l ++ [ev]) = (count_events f l + if f ev then 1 else 0)%Z.
Proof. rewrite count_events_app, count_events_cons. unfold count_events at 2. simpl. lia. Qed.

Definition is_hb_tick (ev : run_event) : bool :=
  match ev with Heartbeat (HbTick _) => true | _ => false end.
Definition is_idle_tick (ev : run_event) : bool := match ev with IdleTick => true | _ => false end.
Definition is_data (ev : run_event) : bool := match ev with StreamData => true | _ => false end.

(** Proof that the peer is there: a request, a PONG. *)
Definition is_answer (ev : run_event) : bool :=
  match ev with Accepted _ _ | Heartbeat (HbPong true) => true | _ => false end.

Definition opens_stream (ev : run_event) : bool :=
  match ev with Accepted request _ => is_stream_request c request | _ => false end.

(** The events of a run form a history; a fact about the history that every
    step keeps or turns into the conclusion gives the conclusion at the end. *)
Lemma run_conn_ind (I : list run_event → run_state → Prop)
    (Q : list run_event → run_state → result unit string → Prop) :
  (∀ hist s ev, I hist s →
     match run_step c ev s with
     | (s', _, None) => I (hist ++ [ev]) s'
     | (s', _, Some r) => Q (hist ++ [ev]) s' r
     end) →
  ∀ evs hist s, I hist s →
    match run_conn c evs s with
    | (s', _, None) => I (hist ++ evs) s'
    | (s', _, Some r) => ∃ used rest, evs = used ++ rest ∧ Q (hist ++ used) s' r
    end.
Proof.
  intros Hstep. induction evs as [|ev evs IH]; intros hist s HI; cbn [run_conn]; [by rewrite app_nil_r|].
  specialize (Hstep hist s ev HI). destruct (run_step c ev s) as [[s1 acts] [r|]]; [by exists [ev], evs|].
  specialize (IH (hist ++ [ev]) s1 Hstep). rewrite <- app_assoc in IH.
  destruct (run_conn c evs s1) as [[s2 acts2] [r|]]; [|done].
  destruct IH as (used & rest & -> & HQ). exists (ev :: used), rest. split; [done|].
  by rewrite <- app_assoc in HQ.
Qed.

(** The counter of missed PINGs counts the ticks since the last sign of life. *)
Record hb_inv (hist : list run_event) (s : run_state) : Prop := MkHbInv {
  hbi_idle : ping_pong (heartbeat s) && waiting_pong (heartbeat s) = false →
    missed_pings (heartbeat s) = 0%Z;
  hbi_suffix : ∃ pre suf, hist = pre ++ suf
    ∧ count_events is_hb_tick suf = missed_pings (heartbeat s)
    ∧ Forall (λ ev, is_answer ev = false) suf
    ∧ (hb_activity (heartbeat s) = false → Forall (λ ev, is_data ev = false) suf);
}.

(** Events that are no sign of life and no tick keep the suffix. *)
Lemma hb_inv_extend hist s s' ev :
  hb_inv hist s → is_hb_tick ev = false → is_answer ev = false →
  missed_pings (heartbeat s') = missed_pings (heartbeat s) →
  ping_pong (heartbeat s') && waiting_pong (heartbeat s')
    = ping_pong (heartbeat s) && waiting_pong (heartbeat s) →
  (hb_activity (heartbeat s') = false → is_data ev = false ∧ hb_activity (heartbeat s) = false) →
  hb_inv (hist ++ [ev]) s'.
Proof.
  intros [I1 (pre & suf & -> & Hc & Ha & Hd)] Ht Hans Hm Hw Hact. constructor; [by rewrite Hw, Hm|].
  exists pre, (suf ++ [ev]). rewrite Hm, count_events_snoc, Ht.
  split_and!; [by rewrite app_assoc|lia| |].
  - apply Forall_app_2; [done|by constructor].
  - intros Hf. destruct (Hact Hf) as [Hnd Hf']. apply Forall_app_2; [auto|by constructor].
Qed.

Lemma hb_inv_reset hist s :
  missed_pings (heartbeat s) = 0%Z → hb_inv hist s.
Proof. intros Hm. constructor; [done|]. exists hist, []. by rewrite app_nil_r, Hm. Qed.

(** A PING timeout was preceded by three ticks without any sign of life. *)
Definition silent_suffix (hist : list run_event) : Prop :=
  ∃ pre suf, hist = pre ++ suf ∧ count_events is_hb_tick suf = MAX_MISSED_PINGS
    ∧ Forall (λ ev, is_answer ev = false ∧ is_data ev = false) suf.

Lemma hb_inv_step hist s ev :
  hb_inv hist s → (missed_pings (heartbeat s) < MAX_MISSED_PINGS)%Z →
  match run_step c ev s with
  | (s', _, None) =>
      hb_inv (hist ++ [ev]) s' ∧ (missed_pings (heartbeat s') < MAX_MISSED_PINGS)%Z
  | (s', _, Some r) => r = Err "gRPC heartbeat timeout" → silent_suffix (hist ++ [ev])
  end.
Proof.
  intros Hi Hlt. unfold MAX_MISSED_PINGS in Hlt.
  destruct ev as [request respond|e| |hev| | |]; cbn [run_step]; [| | | | | |].
  - destruct (negb (bool_decide (method request = "POST"))); [by split; [apply hb_inv_reset|]|].
    destruct (negb _); by split; [apply hb_inv_reset|].
  - intros [=].
  - done.
  - destruct (ping_pong (heartbeat s) && waiting_pong (heartbeat s)) eqn:Hw.
    + apply andb_true_iff in Hw as [Hpp Hw]. unfold heartbeat_poll. rewrite Hpp, Hw. cbn [negb].
      destruct hev as [[]|ping_ok]; [by split; [apply hb_inv_reset|]|done|].
      destruct (hb_activity (heartbeat s)) eqn:Ha; [by split; [apply hb_inv_reset|]|].
      destruct Hi as [_ (pre & suf & -> & Hc & Hans & Hd)]. specialize (Hd Ha).
      assert (Hsuf : count_events is_hb_tick (suf ++ [Heartbeat (HbTick ping_ok)])
        = (missed_pings (heartbeat s) + 1)%Z) by (rewrite count_events_snoc; cbn [is_hb_tick]; lia).
      destruct (Z.leb_spec MAX_MISSED_PINGS (missed_pings (heartbeat s) + 1)); cbn.
      * intros _. exists pre, (suf ++ [Heartbeat (HbTick ping_ok)]). rewrite Hsuf.
        split_and!; [by rewrite app_assoc|unfold MAX_MISSED_PINGS in *; lia|].
        apply Forall_app_2; [by apply Forall_and|by constructor].
      * split; [|done]. constructor; [done|]. exists pre, (suf ++ [Heartbeat (HbTick ping_ok)]).
        split_and!; [by rewrite app_assoc|done|apply Forall_app_2; [done|by constructor]|].
        intros _. apply Forall_app_2; [done|by constructor].
    + pose proof (hbi_idle _ _ Hi Hw) as Hm. unfold heartbeat_poll.
      destruct (ping_pong (heartbeat s)); cbn [negb andb] in *; [rewrite Hw; destruct hev|];
        cbn; (split; [by apply hb_inv_reset|cbn; rewrite Hm; done]).
  - destruct (active_streams s =? 0).
    + destruct (_ =? 3)%Z; [|destruct (3 <? _)%Z; [done|]]; cbn;
        (split; [apply (hb_inv_extend _ s); auto|unfold MAX_MISSED_PINGS; lia]).
    + cbn. split; [apply (hb_inv_extend _ s); auto|unfold MAX_MISSED_PINGS; lia].
  - cbn. split; [apply (hb_inv_extend _ s); auto|unfold MAX_MISSED_PINGS; lia].
  - cbn. split; [apply (hb_inv_extend _ s); auto; done|unfold MAX_MISSED_PINGS; lia].
Qed.

Definition quiet (ev : run_event) : Prop := is_answer ev = false ∧ is_data ev = false.

(** With a PING outstanding and the peer silent, the ticks end the loop. *)
Lemma silent_peer_ends evs s :
  ping_pong (heartbeat s) = true → waiting_pong (heartbeat s) = true →
  hb_activity (heartbeat s) = false → (missed_pings (heartbeat s) < MAX_MISSED_PINGS)%Z →
  Forall quiet evs →
  (MAX_MISSED_PINGS <= missed_pings (heartbeat s) + count_events is_hb_tick evs)%Z →
  ∃ s' acts r, run_conn c evs s = (s', acts, Some r).
Proof.
  revert s. induction evs as [|ev evs IH]; intros s Hpp Hw Ha Hlt Hq Hc.
  { change (count_events is_hb_tick []) with 0%Z in Hc. lia. }
  apply Forall_cons in Hq as [[Hans Hd] Hq]. rewrite count_events_cons in Hc. cbn [run_conn].
  assert (Hkeep : match run_step c ev s with
    | (_, _, Some _) => True
    | (s', _, None) => ping_pong (heartbeat s') = true ∧ waiting_pong (heartbeat s') = true
        ∧ hb_activity (heartbeat s') = false ∧ (missed_pings (heartbeat s') < MAX_MISSED_PINGS)%Z
        ∧ missed_pings (heartbeat s') = (missed_pings (heartbeat s) + if is_hb_tick ev then 1 else 0)%Z
    end).
  { destruct ev as [request respond|e| |hev| | |]; try done; cbn [run_step is_hb_tick].
    - unfold heartbeat_poll. rewrite Hpp, Hw, Ha. cbn [negb]. destruct hev as [[]|]; try done.
      destruct (Z.leb_spec MAX_MISSED_PINGS (missed_pings (heartbeat s) + 1)); [done|].
      cbn. split_and!; done.
    - destruct (active_streams s =? 0); [destruct (_ =? 3)%Z; [|destruct (3 <? _)%Z; [done|]]|];
        cbn; split_and!; auto; lia.
    - cbn. split_and!; auto; lia. }
  destruct (run_step c ev s) as [[s1 acts] [r|]]; [by eauto|].
  destruct Hkeep as (Hpp' & Hw' & Ha' & Hlt' & Hm).
  destruct (IH s1) as (s' & acts' & r & E); [done..|lia|]. rewrite E. eauto.
Qed.

(** The loop counts the idle ticks since the last stream, none of which found a
    stream running. *)
Record idle_inv (hist : list run_event) (s : run_state) : Prop := MkIdleInv {
  ii_bound : (0 <= idle_ticks s <= 3)%Z;
  ii_active : (0 < idle_ticks s)%Z → active_streams s = 0;
  ii_suffix : ∃ pre suf, hist = pre ++ suf ∧ count_events is_idle_tick suf = idle_ticks s
    ∧ Forall (λ ev, opens_stream ev = false) suf;
}.

Definition idle_suffix (hist : list run_event) : Prop :=
  ∃ pre suf, hist = pre ++ suf ∧ count_events is_idle_tick suf = 4%Z
    ∧ Forall (λ ev, opens_stream ev = false) suf.

Lemma idle_inv_extend hist s s' ev :
  idle_inv hist s → is_idle_tick ev = false → opens_stream ev = false →
  idle_ticks s' = idle_ticks s → active_streams s' <= active_streams s →
  idle_inv (hist ++ [ev]) s'.
Proof.
  intros [Hb Ha (pre & suf & -> & Hc & Hf)] Ht Ho Hi Hle. constructor; rewrite ?Hi; [done| |].
  { intros Hpos. specialize (Ha Hpos). lia. }
  exists pre, (suf ++ [ev]). rewrite count_events_snoc, Ht.
  split_and!; [by rewrite app_assoc|lia|apply Forall_app_2; [done|by constructor]].
Qed.

Lemma idle_inv_reset hist s : idle_ticks s = 0%Z → idle_inv hist s.
Proof.
  intros Hi. constructor; rewrite ?Hi; [lia|lia|]. exists hist, []. by rewrite app_nil_r.
Qed.

Lemma idle_inv_step hist s ev :
  idle_inv hist s →
  match run_step c ev s with
  | (s', _, None) => idle_inv (hist ++ [ev]) s'
  | (s', _, Some r) =>
      r = Ok tt → ev ≠ AcceptClosed → idle_suffix (hist ++ [ev]) ∧ active_streams s' = 0
  end.
Proof.
  intros Hi. destruct ev as [request respond|e| |hev| | |]; cbn [run_step].
  - destruct (negb (bool_decide (method request = "POST"))) eqn:Hm.
    { apply (idle_inv_extend _ s); auto. cbn. unfold is_stream_request.
      apply negb_true_iff in Hm. by rewrite Hm. }
    destruct (negb _) eqn:Hp in |- *; [|by apply idle_inv_reset].
    apply (idle_inv_extend _ s); auto. cbn. unfold is_stream_request.
    apply negb_true_iff in Hp. rewrite Hp. apply andb_false_r.
  - done.
  - done.
  - destruct (heartbeat_poll hev (heartbeat s)) as [hb [|e]]; [|done].
    by apply (idle_inv_extend _ s).
  - destruct (Nat.eqb_spec (active_streams s) 0) as [Hz|]; [|by apply idle_inv_reset].
    destruct Hi as [Hb Ha (pre & suf & -> & Hc & Hf)].
    assert (Hsuf : count_events is_idle_tick (suf ++ [IdleTick]) = (idle_ticks s + 1)%Z)
      by (rewrite count_events_snoc; cbn [is_idle_tick]; lia).
    assert (Hf' : Forall (λ ev, opens_stream ev = false) (suf ++ [IdleTick]))
      by (apply Forall_app_2; [done|by constructor]).
    destruct (Z.eqb_spec (idle_ticks s + 1) 3); [|destruct (Z.ltb_spec 3 (idle_ticks s + 1))]; cbn.
    2:{ intros _ _. split; [|done]. exists pre, (suf ++ [IdleTick]).
        split_and!; [by rewrite app_assoc|lia|done]. }
    all: constructor; cbn; [lia|done|];
      exists pre, (suf ++ [IdleTick]); split_and!; [by rewrite app_assoc|lia|done].
  - by apply (idle_inv_extend _ s); auto; cbn; lia.
  - by apply (idle_inv_extend _ s).
Qed.

(** Without a stream, four ticks end the loop, whatever else the peer sends. *)
Lemma idle_peer_ends evs s :
  active_streams s = 0 → (idle_ticks s <= 3)%Z →
  Forall (λ ev, opens_stream ev = false) evs →
  (4 <= idle_ticks s + count_events is_idle_tick evs)%Z →
  ∃ s' acts r, run_conn c evs s = (s', acts, Some r).
Proof.
  revert s. induction evs as [|ev evs IH]; intros s Hz Hle Hf Hc.
  { change (count_events is_idle_tick []) with 0%Z in Hc. lia. }
  apply Forall_cons in Hf as [Ho Hf]. rewrite count_events_cons in Hc. cbn [run_conn].
  assert (Hkeep : match run_step c ev s with
    | (_, _, Some _) => True
    | (s', _, None) => active_streams s' = 0 ∧ (idle_ticks s' <= 3)%Z
        ∧ idle_ticks s' = (idle_ticks s + if is_idle_tick ev then 1 else 0)%Z
    end).
  { destruct ev as [request respond|e| |hev| | |]; try done; cbn [run_step is_idle_tick].
    - cbn in Ho. unfold is_stream_request in Ho.
      destruct (bool_decide (method request = "POST")); cbn [negb andb] in *;
        [rewrite Ho; cbn [negb]|]; cbn; split_and!; auto; lia.
    - destruct (heartbeat_poll hev (heartbeat s)) as [hb [|e]]; cbn; [|done]. split_and!; auto; lia.
    - rewrite Hz. cbn [Nat.eqb]. destruct (Z.eqb_spec (idle_ticks s + 1) 3);
        [|destruct (Z.ltb_spec 3 (idle_ticks s + 1)); [done|]]; cbn; split_and!; auto; lia.
    - cbn. split_and!; auto; lia.
    - cbn. split_and!; auto; lia. }
  destruct (run_step c ev s) as [[s1 acts] [r|]]; [by eauto|].
  destruct Hkeep as (Hz' & Hle' & Hm).
  destruct (IH s1) as (s' & acts' & r & E); [done..|lia|]. rewrite E. eauto.
Qed.

End run_facts.

(** ** The properties *)

Section grpc_connection.
Context `{H2}.

(** C37: the heartbeat gives a gRPC connection up exactly when the peer is
    silent.  If the loop ends with the heartbeat timeout, the events before it
    end with a stretch that has three PING timer ticks and in which no request,
    no PONG and no stream data arrived; and from any state with a PING
    outstanding and the activity flag clear, a stretch without such a sign of
    life that has the missing ticks ends the loop. *)
Theorem grpc_heartbeat_exact (c : GrpcConnection) (pp : bool) (evs : list run_event) :
  (∀ s acts, run_conn c evs (run_start pp) = (s, acts, Some (Err "gRPC heartbeat timeout")) →
     ∃ pre suf rest, evs = pre ++ suf ++ rest
       ∧ count_events is_hb_tick suf = MAX_MISSED_PINGS ∧ Forall quiet suf)
  ∧ (∀ s acts evs', run_conn c evs (run_start pp) = (s, acts, None) →
       ping_pong (heartbeat s) = true → waiting_pong (heartbeat s) = true →
       hb_activity (heartbeat s) = false → Forall quiet evs' →
       (MAX_MISSED_PINGS <= missed_pings (heartbeat s) + count_events is_hb_tick evs')%Z →
       ∃ s' acts' r, run_conn c evs' s = (s', acts', Some r)).
Proof.
  pose proof (run_conn_ind c
    (λ hist s, hb_inv hist s ∧ (missed_pings (heartbeat s) < MAX_MISSED_PINGS)%Z)
    (λ hist _ r, r = Err "gRPC heartbeat timeout" → silent_suffix hist)) as Hind.
  specialize (Hind (λ hist s ev Hi, hb_inv_step c hist s ev (proj1 Hi) (proj2 Hi))
    evs [] (run_start pp) (conj (hb_inv_reset [] (run_start pp) eq_refl) eq_refl)).
  split.
  - intros s acts E. rewrite E in Hind. destruct Hind as (used & rest & -> & HQ).
    destruct (HQ eq_refl) as (pre & suf & Hsplit & Hc & Hf). simpl in Hsplit. subst used.
    exists pre, suf, rest. by rewrite <- app_assoc.
  - intros s acts evs' E Hpp Hw Ha Hq Hc. rewrite E in Hind. destruct Hind as [_ Hlt].
    by apply silent_peer_ends.
Qed.

(** C38: an idle gRPC connection is closed, and only an idle one.  If the loop
    returns although the client has not closed the connection, no stream is
    active and the events before it end with a stretch that has four idle ticks
    and no accepted stream; and from any state without an active stream, a
    stretch without an accepted stream that has the missing ticks ends the loop,
    whatever rejected requests, PONGs or errors it holds, so that probing
    requests cannot keep a connection open. *)
Theorem grpc_idle_close_exact (c : GrpcConnection) (pp : bool) (evs : list run_event) :
  (∀ s acts, run_conn c evs (run_start pp) = (s, acts, Some (Ok tt)) →
     Forall (λ ev, ev ≠ AcceptClosed) evs →
     active_streams s = 0
     ∧ ∃ pre suf rest, evs = pre ++ suf ++ rest
       ∧ count_events is_idle_tick suf = 4%Z ∧ Forall (λ ev, opens_stream c ev = false) suf)
  ∧ (∀ s acts evs', run_conn c evs (run_start pp) = (s, acts, None) →
       active_streams s = 0 → Forall (λ ev, opens_stream c ev = false) evs' →
       (4 <= idle_ticks s + count_events is_idle_tick evs')%Z →
       ∃ s' acts' r, run_conn c evs' s = (s', acts', Some r)).
Proof.
  pose proof (run_conn_ind c (idle_inv c)
    (λ hist s r, r = Ok tt → last hist ≠ Some AcceptClosed →
       idle_suffix c hist ∧ active_streams s = 0)) as Hind.
  assert (Hstep : ∀ hist s ev, idle_inv c hist s →
    match run_step c ev s with
    | (s', _, None) => idle_inv c (hist ++ [ev]) s'
    | (s', _, Some r) => r = Ok tt → last (hist ++ [ev]) ≠ Some AcceptClosed →
        idle_suffix c (hist ++ [ev]) ∧ active_streams s' = 0
    end).
  { intros hist s ev Hi. pose proof (idle_inv_step c hist s ev Hi) as Hs.
    destruct (run_step c ev s) as [[s' ?] [r|]]; [|done]. rewrite last_snoc.
    intros Hr Hne. apply Hs; congruence. }
  specialize (Hind Hstep evs [] (run_start pp) (idle_inv_reset c [] (run_start pp) eq_refl)).
  split.
  - intros s acts E Hopen. rewrite E in Hind. destruct Hind as (used & rest & -> & HQ).
    apply Forall_app in Hopen as [Hopen _].
    destruct (HQ eq_refl) as [(pre & suf & Hsplit & Hc & Hf) Hz].
    { simpl. intros Hl%last_Some_elem_of. by eapply Forall_forall in Hopen. }
    simpl in Hsplit. subst used. split; [done|]. exists pre, suf, rest. by rewrite <- app_assoc.
  - intros s acts evs' E Hz Hf Hc. rewrite E in Hind. destruct Hind as [[_ Hb] _ _].
    by apply (idle_peer_ends c).
Qed.

End grpc_connection.

(** Both ends of the loop are reached: a silent peer that had a PING outstanding,
    and a prober whose requests are all rejected. *)
Module SampleLoop.

Import SampleH2 SamplePercent.
#[local] Existing Instance sample_h2.
#[local] Existing Instance sample_percent.

Example grpc_paths_examples :
  grpc_paths "GunService" = ("/GunService/Tun", "/GunService/TunMulti")
  ∧ grpc_paths "a b/c" = ("/a%20b%2Fc/Tun", "/a%20b%2Fc/TunMulti")
  ∧ grpc_paths "/my/sample path/tun name|multi" = ("/my/sample%20path/tun%20name", "/my/sample%20path/multi")
  ∧ grpc_paths "/svc/one" = ("/svc/one", "/svc/one")
  ∧ grpc_paths "/" = ("//", "//")
  ∧ grpc_paths "/lone" = ("//lone", "//lone").
Proof. split_and!; vm_compute; reflexivity. Qed.

Definition sample_conn : GrpcConnection := with_config "GunService" 1024.

Example silent_peer :
  let '(_, _, r) := run_conn sample_conn
    [Heartbeat (HbTick true); Heartbeat (HbTick true); IdleTick; StreamData;
     Heartbeat (HbTick true); Heartbeat (HbTick true); Heartbeat (HbTick true);
     Heartbeat (HbTick true)] (run_start true) in
  r = Some (Err "gRPC heartbeat timeout").
Proof. vm_compute. reflexivity. Qed.

Example rejected_prober :
  let probe := Accepted (MkHttpRequest "GET" "/" (MkIncoming [] [])) [] in
  let '(s, acts, r) := run_conn sample_conn
    [probe; IdleTick; probe; IdleTick; probe; IdleTick; probe; IdleTick; probe] (run_start true) in
  r = Some (Ok tt) ∧ length acts = 6.
Proof. vm_compute. split; reflexivity. Qed.

End SampleLoop.
