(* ===== verification/Ws.v ===== *)
(** * The WebSocket transport ([src/src/transport/ws.rs])

    The byte stream over the messages of one WebSocket, and the acceptance of
    the upgrade request with its early data.  The [tokio_tungstenite] stream,
    the HTTP types and the base64 decoder are parameters, with the documented
    behaviour the transport relies on. *)

From S2P Require Import Prelude RustStd Percent AsyncIo.

(** [tungstenite::Message]. *)
Inductive Message : Type :=
| Text (s : string)
| Binary (bs : list byte)
| Ping (bs : list byte)
| Pong (bs : list byte)
| Close
| Frame.

(** [WebSocketStream] as a [Stream] and a [Sink]; [orderly] recognises
    [ConnectionClosed] and [AlreadyClosed]. *)
Class Tungstenite := {
  WsStream : Type;
  WsError : Type;
  poll_next : WsStream → WsStream * poll (option (result Message WsError));
  sink_ready : WsStream → WsStream * poll (result unit WsError);
  start_send : Message → WsStream → WsStream * result unit WsError;
  sink_flush : WsStream → WsStream * poll (result unit WsError);
  orderly : WsError → bool;
  ws_display : WsError → string;
}.

(** How the peer's side of a socket ended: closed in order, or cut off by a
    protocol or I/O failure. *)
Inductive ending `{Tungstenite} : Type :=
| PeerClosed
| PeerFailed (e : WsError).

(** What one answer of the socket says about it. *)
Definition end_of `{Tungstenite} (r : poll (option (result Message WsError))) : option ending :=
  match r with
  | Ready (Some (Err e)) => Some (if orderly e then PeerClosed else PeerFailed e)
  | Ready (Some (Ok Close)) | Ready None => Some PeerClosed
  | _ => None
  end.

(** The messages delivered so far, those the sink accepted, and the first end
    the socket has reported: its history, which only its answers extend. *)
Class TungsteniteLaws `{Tungstenite} := {
  msgs_in : WsStream → list Message;
  msgs_out : WsStream → list Message;
  ended : WsStream → option ending;
  poll_next_law w :
    match poll_next w with
    | (w', Ready (Some (Ok m))) => msgs_in w' = msgs_in w ++ [m] ∧ msgs_out w' = msgs_out w
    | (w', _) => msgs_in w' = msgs_in w ∧ msgs_out w' = msgs_out w
    end;
  poll_next_ended w : ended (poll_next w).1 = ended w ∪ end_of (poll_next w).2;
  sink_ready_law w : msgs_in (sink_ready w).1 = msgs_in w ∧ msgs_out (sink_ready w).1 = msgs_out w;
  start_send_law m w :
    match start_send m w with
    | (w', Ok _) => msgs_in w' = msgs_in w ∧ msgs_out w' = msgs_out w ++ [m]
    | (w', Err _) => msgs_in w' = msgs_in w ∧ msgs_out w' = msgs_out w
    end;
  sink_flush_law w : msgs_in (sink_flush w).1 = msgs_in w ∧ msgs_out (sink_flush w).1 = msgs_out w;
  sink_ready_ended w : ended (sink_ready w).1 = ended w;
  start_send_ended m w : ended (start_send m w).1 = ended w;
  sink_flush_ended w : ended (sink_flush w).1 = ended w;
}.

(** Within one poll of the task the socket has a bounded number of messages. *)
Class TungsteniteCoop `{Tungstenite} := {
  next_budget : WsStream → nat;
  poll_next_coop w :
    match poll_next w with
    | (w', Ready _) => next_budget w' < next_budget w
    | (w', Pending) => next_budget w' ≤ next_budget w
    end;
}.

(** ** The transport *)

Section transport.
Context `{Tungstenite}.

Record WebSocketTransport := MkWs {
  ws_stream : WsStream;
  read_buffer : list byte;
  read_pos : nat;
  read_closed : bool;
  write_closed : bool;
}.

Definition with_early_data (w : WsStream) (early : list byte) : WebSocketTransport :=
  MkWs w early 0 false false.

Definition set_stream (w : WsStream) (t : WebSocketTransport) : WebSocketTransport :=
  MkWs w (read_buffer t) (read_pos t) (read_closed t) (write_closed t).
Definition set_buffer (bs : list byte) (pos : nat) (t : WebSocketTransport) : WebSocketTransport :=
  MkWs (ws_stream t) bs pos (read_closed t) (write_closed t).
Definition set_read_closed (t : WebSocketTransport) : WebSocketTransport :=
  MkWs (ws_stream t) (read_buffer t) (read_pos t) true (write_closed t).
Definition set_write_closed (t : WebSocketTransport) : WebSocketTransport :=
  MkWs (ws_stream t) (read_buffer t) (read_pos t) (read_closed t) true.

Definition ws_read_result : Type := WebSocketTransport * poll (result (list byte) io_error).

(** The loop over messages; [None] is a poll that has not returned yet. *)
Fixpoint next_loop (fuel room : nat) (t : WebSocketTransport) : option ws_read_result :=
  match fuel with
  | 0 => None
  | S fuel' =>
      let '(w, r) := poll_next (ws_stream t) in
      let t := set_stream w t in
      match r with
      | Ready (Some (Ok (Binary []))) => next_loop fuel' room t
      | Ready (Some (Ok (Binary data))) =>
          let to_copy := length data `min` room in
          Some (if to_copy <? length data then set_buffer (drop to_copy data) 0 t else t,
                Ready (Ok (take to_copy data)))
      | Ready (Some (Ok Close)) => Some (set_read_closed t, Ready (Ok []))
      | Ready (Some (Err e)) =>
          Some (set_read_closed t,
                Ready (if orderly e then Ok []
                       else Err (IoError EkConnectionReset ("WebSocket read error: " +:+ ws_display e))))
      | Ready (Some (Ok _)) => next_loop fuel' room t
      | Ready None => Some (set_read_closed t, Ready (Ok []))
      | Pending => Some (t, Pending)
      end
  end.

Definition ws_poll_read (fuel room : nat) (t : WebSocketTransport) : option ws_read_result :=
  if read_closed t then Some (t, Ready (Ok []))
  else if read_pos t <? length (read_buffer t) then
    let remaining := drop (read_pos t) (read_buffer t) in
    let to_copy := length remaining `min` room in
    let pos := read_pos t + to_copy in
    Some (if length (read_buffer t) <=? pos then set_buffer [] 0 t
          else set_buffer (read_buffer t) pos t,
          Ready (Ok (take to_copy remaining)))
  else next_loop fuel room t.

Definition ws_poll_write (buf : list byte) (t : WebSocketTransport)
    : WebSocketTransport * poll (result nat io_error) :=
  if write_closed t || read_closed t then (t, Ready (Err (IoError EkBrokenPipe "WebSocket closed")))
  else
    match sink_ready (ws_stream t) with
    | (w, Ready (Ok _)) =>
        match start_send (Binary buf) w with
        | (w', Ok _) => (set_stream w' t, Ready (Ok (length buf)))
        | (w', Err _) => (set_stream w' t, Ready (Err (IoError EkBrokenPipe "WebSocket send error")))
        end
    | (w, Ready (Err _)) => (set_stream w t, Ready (Err (IoError EkBrokenPipe "WebSocket error")))
    | (w, Pending) => (set_stream w t, Pending)
    end.

Definition ws_poll_flush (t : WebSocketTransport) : WebSocketTransport * poll (result unit io_error) :=
  let '(w, r) := sink_flush (ws_stream t) in
  (set_stream w t,
   match r with
   | Ready (Err e) =>
       if orderly e then Ready (Ok tt)
       else Ready (Err (IoError EkBrokenPipe ("WebSocket flush error: " +:+ ws_display e)))
   | Ready (Ok _) => Ready (Ok tt)
   | Pending => Pending
   end).

Definition ws_poll_shutdown (t : WebSocketTransport) : WebSocketTransport * poll (result unit io_error) :=
  if write_closed t then ws_poll_flush t
  else
    match sink_ready (ws_stream t) with
    | (w, Ready (Ok _)) => ws_poll_flush (set_write_closed (set_stream (start_send Close w).1 t))
    | (w, Ready (Err _)) => ws_poll_flush (set_write_closed (set_stream w t))
    | (w, Pending) => (set_stream w t, Pending)
    end.

End transport.

(** ** Accepting the upgrade *)

Definition MAX_EARLY_DATA : nat := Z.to_nat (16 * 1024).

(** The HTTP types, the base64url decoder, and the handshake, which hands the
    request to a callback that may reject it with a status. *)
Class WsHandshake `{Tungstenite} := {
  HeaderValue : Type;
  to_str : HeaderValue → option string;
  base64url_decode : string → option (list byte);
  WsConfig : Type;
  RawStream : Type;
  accept_hdr {E : Type} : RawStream → WsConfig →
    (string * option HeaderValue → list (string * HeaderValue) → E →
       E * result (list (string * HeaderValue)) Z) →
    E → E * result WsStream WsError;
}.

(** A handshake that succeeds ran the callback on the request, and the callback
    accepted it. *)
Class WsHandshakeLaws `{WsHandshake, !TungsteniteLaws} := {
  accept_hdr_law {E : Type} raw cfg (cb : _ → _ → E → E * result _ Z) e e' w :
    accept_hdr raw cfg cb e = (e', Ok w) →
    (∃ req response response', cb req response e = (e', Ok response'))
    ∧ msgs_in w = [] ∧ msgs_out w = [] ∧ ended w = None;
}.

Section accept.
Context `{WsHandshake, PercentEncoding}.

Definition decode_early (proto : HeaderValue) : option (list byte) :=
  s ← to_str proto;
  if bool_decide (s = "") then None
  else
    bytes ← base64url_decode s;
    if bool_decide (bytes = []) then None else Some bytes.

(** The callback of the handshake: the early-data slot and the answer. *)
Definition on_request (expected : string) (req : string * option HeaderValue)
    (response : list (string * HeaderValue)) (early : list byte)
    : list byte * result (list (string * HeaderValue)) Z :=
  if bool_decide (percent_decode_str req.1 = expected) then
    match req.2 with
    | Some proto =>
        match decode_early proto with
        | Some bytes =>
            if MAX_EARLY_DATA <? length bytes then (early, Err 413%Z)
            else
              (bytes, Ok (("sec-websocket-protocol", proto)
                 :: filter (λ h, h.1 ≠ "sec-websocket-protocol") response))
        | None => (early, Ok response)
        end
    | None => (early, Ok response)
    end
  else (early, Err 404%Z).

Definition ws_accept (raw : RawStream) (expected_path : string) (cfg : WsConfig)
    : result WebSocketTransport WsError :=
  match accept_hdr raw cfg (on_request expected_path) [] with
  | (early, Ok w) => Ok (with_early_data w early)
  | (_, Err e) => Err e
  end.

End accept.

(** ** Facts *)

Section facts.
Context `{TungsteniteLaws}.

(** What a peer's messages carry, and what has been taken off the socket but
    not been read yet. *)
Definition payload (m : Message) : list byte := match m with Binary bs => bs | _ => [] end.
Definition payloads (ms : list Message) : list byte := concat (map payload ms).
Definition unread (t : WebSocketTransport) : list byte := drop (read_pos t) (read_buffer t).

Lemma payloads_snoc ms m : payloads (ms ++ [m]) = payloads ms ++ payload m.
Proof. unfold payloads. rewrite map_app, concat_app. cbn. by rewrite app_nil_r. Qed.

(** The error a read makes of a failure of the socket. *)
Definition read_failure (e : WsError) : io_error :=
  IoError EkConnectionReset ("WebSocket read error: " +:+ ws_display e).

(** How a read relates to the end of the peer's side.  While the socket has
    reported none, a read with room delivers data, is pending, or meets the end:
    an orderly one is the end of the stream, a failure is this read's error.
    After the end a read changes nothing and delivers nothing. *)
Definition read_end (room : nat) (t t' : WebSocketTransport) (r : poll (result (list byte) io_error))
    : Prop :=
  match ended (ws_stream t), ended (ws_stream t') with
  | Some _, _ => t' = t ∧ r = Ready (Ok [])
  | None, None => (0 < room → r ≠ Ready (Ok [])) ∧ ∀ e, r ≠ Ready (Err e)
  | None, Some PeerClosed => r = Ready (Ok [])
  | None, Some (PeerFailed e) => r = Ready (Err (read_failure e))
  end.

(** The transport has noted the end of the peer's side iff there is one. *)
Definition end_noted (t : WebSocketTransport) : Prop :=
  read_closed t = bool_decide (is_Some (ended (ws_stream t))).

(** A read takes what it delivers from the front of what is unread, then from
    the messages; with room it delivers nothing only at the end of the stream. *)
Record ws_read_ok (early got : list byte) (room : nat) (t t' : WebSocketTransport)
    (r : poll (result (list byte) io_error)) : Prop := MkWsReadOk {
  wr_data : early ++ payloads (msgs_in (ws_stream t')) = (got ++ delivered r) ++ unread t';
  wr_out : msgs_out (ws_stream t') = msgs_out (ws_stream t);
  wr_write_closed : write_closed t' = write_closed t;
  wr_room : length (delivered r) ≤ room;
  wr_closed : read_closed t' = true → unread t' = [];
  wr_eof : 0 < room → r = Ready (Ok []) → read_closed t' = true;
  wr_err : ∀ e, r = Ready (Err e) → read_closed t' = true ∧ err_kind e = EkConnectionReset;
  wr_end : read_end room t t' r;
  wr_noted : end_noted t';
}.

(** A message with data: what does not fit is kept for the next read. *)
Lemma ws_binary_ok early got room t w b data :
  unread t = [] → read_closed t = false → early ++ payloads (msgs_in (ws_stream t)) = got →
  msgs_in w = msgs_in (ws_stream t) ++ [Binary (b :: data)] → msgs_out w = msgs_out (ws_stream t) →
  ended (ws_stream t) = None → ended w = None →
  let n := length (b :: data) `min` room in
  ws_read_ok early got room t
    (if n <? length (b :: data) then set_buffer (drop n (b :: data)) 0 (set_stream w t)
     else set_stream w t) (Ready (Ok (take n (b :: data)))).
Proof.
  intros Hu Hc Hg Hin Hout He Hew n.
  set (t' := if n <? length (b :: data) then _ else _).
  assert (Hrest : unread t' = drop n (b :: data)).
  { subst t'. destruct (Nat.ltb_spec n (length (b :: data))); [done|].
    rewrite drop_ge by lia. exact Hu. }
  assert (ws_stream t' = w ∧ write_closed t' = write_closed t ∧ read_closed t' = false) as (Hs & Hw & Hc')
    by (subst t'; by destruct (n <? _)).
  assert (Hsome : 0 < room → Ready (Ok (E := io_error) (take n (b :: data))) ≠ Ready (Ok [])).
  { intros Hpos Ht%(f_equal (length ∘ delivered)). cbn [compose delivered] in Ht.
    rewrite length_take in Ht. unfold n in Ht. cbn [length] in Ht. lia. }
  constructor; rewrite ?Hrest, ?Hs; cbn [delivered]; try done.
  - rewrite <- app_assoc, take_drop, <- Hg, <- app_assoc. f_equal. by rewrite Hin, payloads_snoc.
  - rewrite length_take. lia.
  - by rewrite Hc'.
  - intros Hpos Ht. by destruct (Hsome Hpos).
  - unfold read_end. by rewrite Hs, He, Hew.
  - unfold end_noted. by rewrite Hs, Hc', Hew.
Qed.

(** The end of the peer's side: nothing is delivered any more. *)
Lemma ws_end_ok early got room t w m r en :
  unread t = [] → early ++ payloads (msgs_in (ws_stream t)) = got →
  msgs_in w = msgs_in (ws_stream t) ++ m → payloads m = [] → msgs_out w = msgs_out (ws_stream t) →
  ended (ws_stream t) = None → ended w = Some en →
  r = Ready (match en with PeerClosed => Ok [] | PeerFailed e => Err (read_failure e) end) →
  ws_read_ok early got room t (set_read_closed (set_stream w t)) r.
Proof.
  intros Hu Hg Hin Hm Hout He Hew ->.
  assert (Hd : delivered (Ready (match en with PeerClosed => Ok [] | PeerFailed e => Err (read_failure e) end))
    = []) by (by destruct en).
  change (unread t) with (unread (set_read_closed (set_stream w t))) in Hu.
  constructor; rewrite ?Hd, ?Hu; cbn [ws_stream set_read_closed set_stream write_closed read_closed length];
    try done; [|lia| | |].
  - rewrite Hin, !app_nil_r, <- Hg.
    unfold payloads in *. by rewrite map_app, concat_app, Hm, app_nil_r.
  - by destruct en as [|e]; intros ? [= <-].
  - unfold read_end. cbn [ws_stream set_read_closed set_stream]. rewrite He, Hew. by destruct en.
  - unfold end_noted. cbn [ws_stream set_read_closed set_stream read_closed]. by rewrite Hew.
Qed.

Lemma next_loop_spec fuel early got room t t' r :
  next_loop fuel room t = Some (t', r) → unread t = [] → read_closed t = false → end_noted t →
  early ++ payloads (msgs_in (ws_stream t)) = got →
  ws_read_ok early got room t t' r.
Proof.
  revert t. induction fuel as [|fuel IH]; intros t Hr Hu Hc Hn Hg; [done|]. cbn [next_loop] in Hr.
  assert (He : ended (ws_stream t) = None).
  { unfold end_noted in Hn. rewrite Hc in Hn. by destruct (ended (ws_stream t)). }
  pose proof (poll_next_law (ws_stream t)) as Hlaw. pose proof (poll_next_ended (ws_stream t)) as Hend.
  destruct (poll_next (ws_stream t)) as [w res]. cbn [fst snd] in Hend.
  rewrite He, (left_id_L None (∪)) in Hend.
  assert (Hskip : ∀ m, res = Ready (Some (Ok m)) → payload m = [] → end_of res = None →
    next_loop fuel room (set_stream w t) = Some (t', r) → ws_read_ok early got room t t' r).
  { intros m -> Hm Ho Hl. destruct Hlaw as [Hin Hout]. rewrite Ho in Hend.
    destruct (IH (set_stream w t) Hl Hu Hc) as [D O W R C E X F N].
    { unfold end_noted. cbn. by rewrite Hend, Hc. }
    { cbn. by rewrite Hin, payloads_snoc, Hm, app_nil_r. }
    constructor; try done; [by rewrite O|].
    unfold read_end in *. cbn [ws_stream set_stream] in F. by rewrite Hend in F; rewrite He. }
  destruct res as [[[m|e]|]|]; cbn [end_of] in Hend.
  - destruct m as [s|data|bs|bs| |]; try (by eapply Hskip; eauto).
    + destruct data as [|b data]; [by eapply Hskip; eauto|]. destruct Hlaw as [Hin Hout].
      injection Hr as <- <-. by apply ws_binary_ok.
    + injection Hr as <- <-. destruct Hlaw as [Hin Hout]. by eapply (ws_end_ok _ _ _ _ _ [Close]).
  - injection Hr as <- <-. destruct Hlaw as [Hin Hout].
    eapply (ws_end_ok _ _ _ _ _ []); rewrite ?app_nil_r; try done. by destruct (orderly e).
  - injection Hr as <- <-. destruct Hlaw as [Hin Hout]. by eapply (ws_end_ok _ _ _ _ _ []); rewrite ?app_nil_r.
  - injection Hr as <- <-. destruct Hlaw as [Hin Hout].
    change (unread t) with (unread (set_stream w t)) in Hu.
    constructor; rewrite ?Hu; cbn [delivered]; try done; [|cbn; lia| |].
    + cbn [ws_stream set_stream]. by rewrite Hin, !app_nil_r.
    + unfold read_end. cbn [ws_stream set_stream]. by rewrite He, Hend.
    + unfold end_noted. cbn [ws_stream set_stream read_closed]. by rewrite Hend, Hc.
Qed.

(** A read served from the buffer. *)
Lemma ws_buffered_ok early got room t :
  read_pos t < length (read_buffer t) → read_closed t = false → end_noted t →
  early ++ payloads (msgs_in (ws_stream t)) = got ++ unread t →
  let n := length (unread t) `min` room in
  ws_read_ok early got room t
    (if length (read_buffer t) <=? read_pos t + n then set_buffer [] 0 t
     else set_buffer (read_buffer t) (read_pos t + n) t) (Ready (Ok (take n (unread t)))).
Proof.
  intros Hlt Hc Hn Hg n. set (t' := if _ <=? _ then _ else _).
  assert (Hlen : length (unread t) = length (read_buffer t) - read_pos t)
    by (unfold unread; by rewrite length_drop).
  assert (Hrest : unread t' = drop n (unread t)).
  { subst t'. unfold unread at 2. rewrite drop_drop.
    destruct (Nat.leb_spec (length (read_buffer t)) (read_pos t + n)); [|done].
    by rewrite (drop_ge (read_buffer t)). }
  assert (ws_stream t' = ws_stream t ∧ write_closed t' = write_closed t ∧ read_closed t' = false)
    as (Hs & Hw & Hc') by (subst t'; by destruct (_ <=? _)).
  assert (Hsome : 0 < room → Ready (Ok (E := io_error) (take n (unread t))) ≠ Ready (Ok [])).
  { intros Hpos Ht%(f_equal (length ∘ delivered)). cbn [compose delivered] in Ht.
    rewrite length_take in Ht. unfold n in Ht. cbn [length] in Ht. lia. }
  constructor; rewrite ?Hrest, ?Hs; cbn [delivered]; try done.
  - by rewrite <- app_assoc, take_drop, <- Hg.
  - rewrite length_take. lia.
  - by rewrite Hc'.
  - intros Hpos Ht. by destruct (Hsome Hpos).
  - unfold read_end. rewrite Hs. unfold end_noted in Hn. rewrite Hc in Hn.
    by destruct (ended (ws_stream t)).
  - unfold end_noted in *. by rewrite Hs, Hc', <- Hn, Hc.
Qed.

Lemma ws_read_spec fuel early got room t t' r :
  ws_poll_read fuel room t = Some (t', r) → (read_closed t = true → unread t = []) → end_noted t →
  early ++ payloads (msgs_in (ws_stream t)) = got ++ unread t →
  ws_read_ok early got room t t' r.
Proof.
  unfold ws_poll_read. intros Hr Hcl Hn Hg. destruct (read_closed t) eqn:Hc.
  { injection Hr as <- <-. specialize (Hcl eq_refl).
    constructor; rewrite ?Hcl in *; try done; [by cbn; rewrite !app_nil_r in *|cbn; lia|].
    unfold read_end. unfold end_noted in Hn. rewrite Hc in Hn.
    by destruct (ended (ws_stream t)). }
  destruct (Nat.ltb_spec (read_pos t) (length (read_buffer t))) as [Hlt|Hge].
  - injection Hr as <- <-. by apply ws_buffered_ok.
  - assert (Hu : unread t = []) by (unfold unread; by apply drop_ge).
    rewrite Hu, app_nil_r in Hg. by apply (next_loop_spec fuel).
Qed.

(** The write side never touches what was received. *)
Definition frozen (t t' : WebSocketTransport) : Prop :=
  msgs_in (ws_stream t') = msgs_in (ws_stream t) ∧ unread t' = unread t
  ∧ read_closed t' = read_closed t ∧ ended (ws_stream t') = ended (ws_stream t).

Lemma frozen_noted t t' : frozen t t' → end_noted t → end_noted t'.
Proof. unfold end_noted. by intros (_ & _ & -> & ->). Qed.

Lemma ws_flush_spec t t' r :
  ws_poll_flush t = (t', r) →
  frozen t t' ∧ msgs_out (ws_stream t') = msgs_out (ws_stream t) ∧ write_closed t' = write_closed t.
Proof.
  unfold ws_poll_flush, frozen. pose proof (sink_flush_law (ws_stream t)) as [Hin Hout].
  pose proof (sink_flush_ended (ws_stream t)) as He.
  destruct (sink_flush (ws_stream t)) as [w res]. intros [= <- _]. by split_and!.
Qed.

Lemma ws_write_spec buf t t' r :
  ws_poll_write buf t = (t', r) →
  frozen t t' ∧ write_closed t' = write_closed t
  ∧ msgs_out (ws_stream t') = msgs_out (ws_stream t) ++ map Binary (accepted buf r)
  ∧ (write_closed t = true → accepted buf r = []).
Proof.
  unfold ws_poll_write, frozen. destruct (write_closed t || read_closed t) eqn:Hc.
  { intros [= <- <-]. cbn. by rewrite app_nil_r. }
  apply orb_false_iff in Hc as [Hwc _]. rewrite Hwc.
  pose proof (sink_ready_law (ws_stream t)) as [Hin Hout].
  pose proof (sink_ready_ended (ws_stream t)) as He.
  destruct (sink_ready (ws_stream t)) as [w [[[]|e]|]]; cbn [fst] in *.
  2-3: intros [= <- <-]; cbn; rewrite app_nil_r; by split_and!.
  pose proof (start_send_law (Binary buf) w) as Hs. pose proof (start_send_ended (Binary buf) w) as He'.
  destruct (start_send (Binary buf) w) as [w' [[]|e]]; destruct Hs as [Hin' Hout'];
    intros [= <- <-]; cbn [ws_stream set_stream accepted map fst] in *.
  - rewrite firstn_all. split_and!; first [done|congruence].
  - rewrite app_nil_r. split_and!; first [done|congruence].
Qed.

Lemma ws_shutdown_spec t t' r :
  ws_poll_shutdown t = (t', r) →
  frozen t t' ∧ (r ≠ Pending → write_closed t' = true)
  ∧ (if write_closed t then msgs_out (ws_stream t') = msgs_out (ws_stream t) ∧ write_closed t' = true
     else ∃ closing, msgs_out (ws_stream t') = msgs_out (ws_stream t) ++ closing
          ∧ (closing = [] ∨ closing = [Close] ∧ write_closed t' = true)).
Proof.
  unfold ws_poll_shutdown, frozen. destruct (write_closed t) eqn:Hc.
  { intros (Hf & Hout & Hw)%ws_flush_spec. by rewrite Hw, Hc. }
  pose proof (sink_ready_law (ws_stream t)) as [Hin Hout].
  pose proof (sink_ready_ended (ws_stream t)) as He.
  destruct (sink_ready (ws_stream t)) as [w [[[]|e]|]]; cbn [fst] in *.
  - pose proof (start_send_law Close w) as Hs. pose proof (start_send_ended Close w) as He'.
    destruct (start_send Close w) as [w' [[]|e]];
      destruct Hs as [Hin' Hout']; intros ((Hi & Hu & Hr & Hen) & Ho & Hw)%ws_flush_spec; cbn in *;
      (split; [split_and!; first [done|congruence]|]); (split; [done|]).
    + exists [Close]. split; [congruence|auto].
    + exists []. rewrite app_nil_r. split; [congruence|auto].
  - intros ((Hi & Hu & Hr & Hen) & Ho & Hw)%ws_flush_spec. cbn in *. split; [split_and!; first [done|congruence]|].
    split; [done|]. exists []. rewrite app_nil_r. split; [congruence|auto].
  - intros [= <- <-]. cbn. split; [done|]. split; [done|]. exists []. rewrite app_nil_r. auto.
Qed.

Lemma next_loop_total `{!TungsteniteCoop} fuel room t :
  next_budget (ws_stream t) < fuel → is_Some (next_loop fuel room t).
Proof.
  revert t. induction fuel as [|fuel IH]; intros t Hf; [lia|]. cbn [next_loop].
  pose proof (poll_next_coop (ws_stream t)) as Hb.
  destruct (poll_next (ws_stream t)) as [w res].
  destruct res as [[[[| [|] | | | |]|]|]|]; eauto; apply IH; cbn; lia.
Qed.

(** Every state of a transport accepted with the early data [early].  [got] is
    what its reads have delivered, [chunks] what its writes have accepted. *)
Inductive ws_reach (early : list byte) : WebSocketTransport → list byte → list (list byte) → Prop :=
| wsr_new w :
    msgs_in w = [] → msgs_out w = [] → ended w = None → ws_reach early (with_early_data w early) [] []
| wsr_read t got chunks fuel room t' r :
    ws_reach early t got chunks → ws_poll_read fuel room t = Some (t', r) →
    ws_reach early t' (got ++ delivered r) chunks
| wsr_write t got chunks buf t' r :
    ws_reach early t got chunks → ws_poll_write buf t = (t', r) →
    ws_reach early t' got (chunks ++ accepted buf r)
| wsr_flush t got chunks t' r :
    ws_reach early t got chunks → ws_poll_flush t = (t', r) → ws_reach early t' got chunks
| wsr_shutdown t got chunks t' r :
    ws_reach early t got chunks → ws_poll_shutdown t = (t', r) → ws_reach early t' got chunks.

Record ws_inv (early : list byte) (t : WebSocketTransport) (got : list byte)
    (chunks : list (list byte)) : Prop := MkWsInv {
  wi_data : early ++ payloads (msgs_in (ws_stream t)) = got ++ unread t;
  wi_closed : read_closed t = true → unread t = [];
  wi_noted : end_noted t;
  wi_out : ∃ closing, msgs_out (ws_stream t) = map Binary chunks ++ closing
    ∧ (closing = [] ∨ closing = [Close] ∧ write_closed t = true);
}.

Lemma ws_reach_inv early t got chunks : ws_reach early t got chunks → ws_inv early t got chunks.
Proof.
  induction 1 as [w Hin Hout He|t got chunks fuel room t' r _ [D C N O] Hr
    |t got chunks buf t' r _ [D C N O] Hw|t got chunks t' r _ [D C N O] Hf|t got chunks t' r _ [D C N O] Hs].
  - constructor; cbn; [by rewrite Hin, app_nil_r|done| |].
    + unfold end_noted. cbn. by rewrite He.
    + exists []. by rewrite Hout; auto.
  - apply (ws_read_spec _ early got) in Hr as [D' O' W' R' C' E' X' F' N']; [|done..].
    constructor; [done..|]. by rewrite O', W'.
  - apply ws_write_spec in Hw as (Hf & Hw & Hout & Hno). pose proof (frozen_noted _ _ Hf N).
    destruct Hf as (Hin & Hu & Hc & _). constructor; [by rewrite Hin, Hu|by rewrite Hc, Hu|done|].
    destruct O as (closing & Ho & Hcl). exists closing. rewrite Hout, Ho, Hw, map_app. split; [|done].
    destruct Hcl as [->|[-> Hwc]]; [by rewrite !app_nil_r|]. by rewrite Hno, !app_nil_r.
  - apply ws_flush_spec in Hf as (Hf & Hout & Hw). pose proof (frozen_noted _ _ Hf N).
    destruct Hf as (Hin & Hu & Hc & _).
    constructor; [by rewrite Hin, Hu|by rewrite Hc, Hu|done|]. by rewrite Hout, Hw.
  - apply ws_shutdown_spec in Hs as (Hf & _ & Hout). pose proof (frozen_noted _ _ Hf N).
    destruct Hf as (Hin & Hu & Hc & _). constructor; [by rewrite Hin, Hu|by rewrite Hc, Hu|done|].
    destruct O as (closing & Ho & Hcl). destruct (write_closed t) eqn:Hwc.
    + destruct Hout as [-> ->]. exists closing. split; [done|]. tauto.
    + destruct Hcl as [->|[_ ?]]; [|done]. rewrite app_nil_r in Ho. by rewrite <- Ho.
Qed.

End facts.

(** ** The properties *)

(** C12: the WebSocket tunnel is a faithful byte stream in both directions, for
    any order of reads, writes, flushes and shutdowns and any behaviour of the
    socket.  What the reads delivered followed by what is buffered is exactly
    the early data followed by the payloads of the binary messages received;
    the messages handed to the socket are exactly the accepted writes, one
    binary message each, followed at most by one Close after the shutdown.  A
    read terminates with more fuel than the messages the socket has ready, and
    ends the stream exactly when the peer did: while the socket has reported no
    end, a read that is given room never comes back empty, an empty message
    being skipped; the read that meets a Close, an orderly close or the end of
    the messages reports the end of the stream; the read that meets any other
    failure returns it as a connection-reset error, never as an end of the
    stream.  Every read after that end, orderly or not, delivers nothing and
    leaves the transport as it is. *)
Theorem ws_tunnel_faithful `{TungsteniteLaws, !TungsteniteCoop} early t got chunks :
  ws_reach early t got chunks →
  early ++ payloads (msgs_in (ws_stream t)) = got ++ unread t
  ∧ (∃ closing, msgs_out (ws_stream t) = map Binary chunks ++ closing
       ∧ (closing = [] ∨ closing = [Close] ∧ write_closed t = true))
  ∧ ∀ fuel room, next_budget (ws_stream t) < fuel →
      ∃ t' r, ws_poll_read fuel room t = Some (t', r)
        ∧ (0 < room → r = Ready (Ok []) → read_closed t' = true ∧ unread t' = [])
        ∧ (∀ e, r = Ready (Err e) → read_closed t' = true ∧ err_kind e = EkConnectionReset)
        ∧ match ended (ws_stream t), ended (ws_stream t') with
          | Some _, _ => t' = t ∧ r = Ready (Ok [])
          | None, None => (0 < room → r ≠ Ready (Ok [])) ∧ ∀ e, r ≠ Ready (Err e)
          | None, Some PeerClosed => r = Ready (Ok [])
          | None, Some (PeerFailed e) => r = Ready (Err (read_failure e))
          end.
Proof.
  intros [D C N O]%ws_reach_inv. split_and!; [done..|]. intros fuel room Hf.
  assert (is_Some (ws_poll_read fuel room t)) as [[t' r] Hr].
  { unfold ws_poll_read. destruct (read_closed t); [by eauto|].
    destruct (read_pos t <? length (read_buffer t)); [by eauto|]. by apply next_loop_total. }
  exists t', r. split; [done|].
  apply (ws_read_spec _ early got) in Hr as [D' O' W' R' C' E' X' F' N']; [|done..].
  split; [|done]. intros Hroom Hr. specialize (E' Hroom Hr). auto.
Qed.

(** An accepted transport is a fresh one. *)
Lemma ws_accept_fresh `{WsHandshakeLaws, PercentEncoding} raw path cfg t :
  ws_accept raw path cfg = Ok t → ws_reach (unread t) t [] [].
Proof.
  unfold ws_accept.
  destruct (accept_hdr raw cfg (on_request path) []) as [early [w|e]] eqn:Ha; [|done].
  intros [= <-]. apply accept_hdr_law in Ha as (_ & Hin & Hout & He). by apply wsr_new.
Qed.

(** C39: a WebSocket is accepted only on the configured path.  If [accept]
    succeeds, the percent-decoded path of the upgrade request is the expected
    one; the first bytes of the stream are the base64url-decoded early data of
    the request, at most 16 KiB of it, and nothing if the request carries none;
    and the transport is a fresh one, on which nothing was read or written. *)
Theorem ws_accept_exact `{WsHandshakeLaws, PercentEncoding} raw path cfg t :
  ws_accept raw path cfg = Ok t →
  ∃ req, percent_decode_str req.1 = path
    ∧ unread t = default [] (proto ← req.2; decode_early proto)
    ∧ length (unread t) ≤ MAX_EARLY_DATA
    ∧ ws_reach (unread t) t [] [].
Proof.
  unfold ws_accept.
  destruct (accept_hdr raw cfg (on_request path) []) as [early [w|e]] eqn:Ha; [|done].
  intros [= <-]. apply accept_hdr_law in Ha as ((req & resp & resp' & Hcb) & Hin & Hout & He).
  assert (Hu : unread (with_early_data w early) = early) by done. rewrite Hu.
  exists req. unfold on_request in Hcb.
  destruct (bool_decide_reflect (percent_decode_str req.1 = path)) as [Hp|]; [|done].
  split; [done|]. apply and_assoc. split; [|by apply wsr_new].
  destruct req.2 as [proto|]; simpl; [|by injection Hcb as <- _; split; [|simpl; lia]].
  destruct (decode_early proto) as [bytes|]; simpl; [|by injection Hcb as <- _; split; [|simpl; lia]].
  destruct (Nat.ltb_spec MAX_EARLY_DATA (length bytes)); [done|]. by injection Hcb as <- _.
Qed.

(** ** A sample socket *)

Module SampleWs.

Import SamplePercent.
#[local] Existing Instance sample_percent.

(** The messages ahead, a reset of the connection being an [Err]; [over] is the
    first end reported, [true] for an orderly one. *)
Record socket := MkSocket {
  ahead : list (poll (result Message unit));
  seen : list Message;
  out : list Message;
  over : option bool;
}.

Definition reported (m : result Message unit) (o : option bool) : option bool :=
  o ∪ match m with Ok Close => Some true | Ok _ => None | Err _ => Some false end.

#[local] Instance sample_ws : Tungstenite := {|
  WsStream := socket;
  WsError := unit;
  poll_next w :=
    match ahead w with
    | [] => (w, Pending)
    | Pending :: ms => (MkSocket ms (seen w) (out w) (over w), Pending)
    | Ready (Ok m) :: ms =>
        (MkSocket ms (seen w ++ [m]) (out w) (reported (Ok m) (over w)), Ready (Some (Ok m)))
    | Ready (Err e) :: ms =>
        (MkSocket ms (seen w) (out w) (reported (Err e) (over w)), Ready (Some (Err e)))
    end;
  sink_ready w := (w, Ready (Ok tt));
  start_send m w := (MkSocket (ahead w) (seen w) (out w ++ [m]) (over w), Ok tt);
  sink_flush w := (w, Ready (Ok tt));
  orderly _ := false;
  ws_display _ := "reset";
|}.

#[local] Program Instance sample_ws_laws : TungsteniteLaws := {|
  msgs_in := seen;
  msgs_out := out;
  ended w := (λ in_order : bool, if in_order then PeerClosed else PeerFailed (tt : WsError)) <$> over w;
|}.
Next Obligation. by intros [[|[[m|e]|] ms] s o v]. Qed.
Next Obligation. by intros [[|[[[]|[]]|] ms] before after [[]|]]. Qed.
Next Obligation. done. Qed.
Next Obligation. done. Qed.
Next Obligation. done. Qed.
Next Obligation. done. Qed.
Next Obligation. done. Qed.
Next Obligation. done. Qed.

#[local] Program Instance sample_ws_coop : TungsteniteCoop := {| next_budget w := length (ahead w) |}.
Next Obligation. intros [[|[[m|e]|] ms] s o v]; simpl; lia. Qed.

Definition fresh_socket : socket :=
  MkSocket [Ready (Ok (Binary [])); Ready (Ok (Binary (as_bytes "data"))); Ready (Ok Close)] [] [] None.

(** A socket whose connection is reset after one message. *)
Definition reset_socket : socket := MkSocket [Ready (Ok (Binary (as_bytes "data"))); Ready (Err tt)] [] [] None.

(** A client that asks for a path and sends early data. *)
Definition shake {E V : Type} (raw : string * option V)
    (cb : string * option V → list (string * V) → E → E * result (list (string * V)) Z) (e : E)
    : E * result socket unit :=
  match cb raw [] e with
  | (e', Ok _) => (e', Ok fresh_socket)
  | (e', Err _) => (e', Err tt)
  end.

Lemma shake_ok {E V} raw cb (e e' : E) w :
  @shake E V raw cb e = (e', Ok w) → (∃ r, cb raw [] e = (e', Ok r)) ∧ w = fresh_socket.
Proof. unfold shake. destruct (cb raw [] e) as [e1 [r|]]; [|done]. intros [= <- <-]. eauto. Qed.

#[local] Instance sample_handshake : WsHandshake := {|
  HeaderValue := string;
  to_str := Some;
  base64url_decode s := Some (as_bytes s);
  WsConfig := unit;
  RawStream := string * option string;
  accept_hdr E raw _ cb e := shake raw cb e;
|}.

#[local] Instance sample_handshake_laws : WsHandshakeLaws.
Proof.
  constructor. intros E raw cfg cb e e' w [[r Hcb] ->]%shake_ok. split; [|done]. by exists raw, [], r.
Qed.

Definition early_request : RawStream := ("/a%20b", Some "early").
Definition no_config : WsConfig := tt.

Definition accepted_socket : WebSocketTransport :=
  with_early_data fresh_socket (as_bytes "early").

End SampleWs.

#[local] Existing Instance SampleWs.sample_ws.
#[local] Existing Instance SampleWs.sample_ws_laws.
#[local] Existing Instance SampleWs.sample_ws_coop.
#[local] Existing Instance SampleWs.sample_handshake.
#[local] Existing Instance SampleWs.sample_handshake_laws.
#[local] Existing Instance SamplePercent.sample_percent.

Lemma ws_accept_exact_witness :
  ∃ req, percent_decode_str req.1 = "/a b"
    ∧ unread SampleWs.accepted_socket = default [] (proto ← req.2; decode_early proto)
    ∧ length (unread SampleWs.accepted_socket) ≤ MAX_EARLY_DATA
    ∧ ws_reach (unread SampleWs.accepted_socket) SampleWs.accepted_socket [] [].
Proof.
  apply (ws_accept_exact SampleWs.early_request "/a b" SampleWs.no_config SampleWs.accepted_socket).
  vm_compute. reflexivity.
Defined.

(** A session on the accepted socket: the early data in two reads, a write, the
    first message, a shutdown, and the end of the stream; and one on a socket
    whose connection is reset after its message, where the next read returns the
    error. *)
Lemma ws_tunnel_faithful_witness :
  (∃ t, ws_reach (as_bytes "early") t (as_bytes "earlydata") [as_bytes "reply"]
    ∧ read_closed t = true ∧ write_closed t = true
    ∧ ∃ closing, msgs_out (ws_stream t) = map Binary [as_bytes "reply"] ++ closing
        ∧ (closing = [] ∨ closing = [Close] ∧ write_closed t = true))
  ∧ ∃ t t', ws_reach [] t (as_bytes "data") []
    ∧ ws_poll_read 9 9 t = Some (t', Ready (Err (read_failure (tt : WsError)))).
Proof.
  split.
  - pose (t0 := SampleWs.accepted_socket).
    pose (t1 := default t0 (fst <$> ws_poll_read 9 3 t0)).
    pose (t2 := default t0 (fst <$> ws_poll_read 9 9 t1)).
    pose (t3 := (ws_poll_write (as_bytes "reply") t2).1).
    pose (t4 := default t0 (fst <$> ws_poll_read 9 9 t3)).
    pose (t5 := (ws_poll_shutdown t4).1).
    pose (t6 := default t0 (fst <$> ws_poll_read 9 9 t5)).
    assert (Hr : ws_reach (as_bytes "early") t6 (as_bytes "earlydata") [as_bytes "reply"]).
    { apply (wsr_read _ t5 (as_bytes "earlydata") [as_bytes "reply"] 9 9 t6 (Ready (Ok []))); [|reflexivity].
      apply (wsr_shutdown _ t4 _ _ t5 (Ready (Ok tt))); [|reflexivity].
      apply (wsr_read _ t3 (as_bytes "early") [as_bytes "reply"] 9 9 t4 (Ready (Ok (as_bytes "data"))));
        [|reflexivity].
      apply (wsr_write _ t2 _ [] (as_bytes "reply") t3 (Ready (Ok 5))); [|reflexivity].
      apply (wsr_read _ t1 (as_bytes "ear") [] 9 9 t2 (Ready (Ok (as_bytes "ly")))); [|reflexivity].
      apply (wsr_read _ t0 [] [] 9 3 t1 (Ready (Ok (as_bytes "ear")))); [|reflexivity].
      by apply wsr_new. }
    exists t6. split; [exact Hr|]. split; [reflexivity|]. split; [reflexivity|].
    exact (proj1 (proj2 (ws_tunnel_faithful _ _ _ _ Hr))).
  - pose (t0 := with_early_data SampleWs.reset_socket []).
    pose (t1 := default t0 (fst <$> ws_poll_read 9 9 t0)).
    assert (Hr : ws_reach [] t1 (as_bytes "data") []).
    { apply (wsr_read _ t0 [] [] 9 9 t1 (Ready (Ok (as_bytes "data")))); [|reflexivity]. by apply wsr_new. }
    destruct (proj2 (proj2 (ws_tunnel_faithful _ _ _ _ Hr)) 9 9) as (t' & r & E & _ & _ & H); [vm_compute; lia|].
    exists t1, t'. split; [exact Hr|]. rewrite E. injection E as <- <-. reflexivity.
Defined.
