(* ===== verification/WsRelay.v ===== *)
(** * The relay over a WebSocket client

    [src/src/transport/ws.rs] under [src/src/core/relay.rs], the way
    [src/src/handler.rs] puts them together: the WebSocket transport, in any
    state it can get into, is a stream that keeps the contract of the relay, and
    so the bytes of a session can be followed from the messages of the client to
    the remote and back. *)

From S2P Require Import Prelude RustStd Hooks AsyncIo Relay Ws.

(** A transport with what its reads delivered and its writes accepted. *)
Record ws_tunnel `{TungsteniteLaws} (early : list byte) := MkTunnel {
  tunnel : WebSocketTransport;
  t_got : list byte;
  t_chunks : list (list byte);
  tunnel_ok : ws_reach early tunnel t_got t_chunks;
}.
#[global] Arguments MkTunnel {_ _ early} tunnel t_got t_chunks tunnel_ok.
#[global] Arguments tunnel {_ _ early} w.
#[global] Arguments t_got {_ _ early} w.
#[global] Arguments t_chunks {_ _ early} w.
#[global] Arguments tunnel_ok {_ _ early} w.

Section tunnel.
Context `{TungsteniteLaws, !TungsteniteCoop} {early : list byte}.

(** The poll functions of the transport; a read gets the fuel it needs. *)
Definition read_with (x : ws_tunnel early) fuel n o
    : ws_poll_read fuel n (tunnel x) = o → ws_tunnel early * poll (result (list byte) io_error) :=
  match o with
  | Some (t', r) => λ E,
      (MkTunnel t' (t_got x ++ delivered r) (t_chunks x) (wsr_read _ _ _ _ _ _ _ _ (tunnel_ok x) E), r)
  | None => λ _, (x, Pending)
  end.

Definition write_with (x : ws_tunnel early) bs o
    : ws_poll_write bs (tunnel x) = o → ws_tunnel early * poll (result nat io_error) :=
  match o with
  | (t', r) => λ E,
      (MkTunnel t' (t_got x) (t_chunks x ++ accepted bs r)
         (wsr_write _ _ _ _ _ _ _ (tunnel_ok x) E), r)
  end.

Definition flush_with (x : ws_tunnel early) o
    : ws_poll_flush (tunnel x) = o → ws_tunnel early * poll (result unit io_error) :=
  match o with
  | (t', r) => λ E, (MkTunnel t' (t_got x) (t_chunks x) (wsr_flush _ _ _ _ _ _ (tunnel_ok x) E), r)
  end.

Definition shutdown_with (x : ws_tunnel early) o
    : ws_poll_shutdown (tunnel x) = o → ws_tunnel early * poll (result unit io_error) :=
  match o with
  | (t', r) => λ E, (MkTunnel t' (t_got x) (t_chunks x) (wsr_shutdown _ _ _ _ _ _ (tunnel_ok x) E), r)
  end.

#[export] Instance tunnel_read : AsyncRead (ws_tunnel early) := {|
  poll_read n x := read_with x (S (next_budget (ws_stream (tunnel x)))) n _ eq_refl;
|}.

#[export] Instance tunnel_write : AsyncWrite (ws_tunnel early) := {|
  poll_write bs x := write_with x bs _ eq_refl;
  poll_flush x := flush_with x _ eq_refl;
  poll_shutdown x := shutdown_with x _ eq_refl;
|}.

Lemma read_with_some x fuel n o E t' r :
  o = Some (t', r) →
  let y := read_with x fuel n o E in
  tunnel y.1 = t' ∧ y.2 = r ∧ t_got y.1 = t_got x ++ delivered r ∧ t_chunks y.1 = t_chunks x.
Proof. intros ->. by cbn. Qed.

Lemma write_with_eq x bs o E :
  let y := write_with x bs o E in
  y.2 = o.2 ∧ t_got y.1 = t_got x ∧ t_chunks y.1 = t_chunks x ++ accepted bs o.2.
Proof. by destruct o. Qed.

Lemma flush_with_eq x o E :
  t_got (flush_with x o E).1 = t_got x ∧ t_chunks (flush_with x o E).1 = t_chunks x.
Proof. by destruct o. Qed.

Lemma shutdown_with_eq x o E :
  t_got (shutdown_with x o E).1 = t_got x ∧ t_chunks (shutdown_with x o E).1 = t_chunks x.
Proof. by destruct o. Qed.

(** A read of the tunnel is a read of the transport, and it always returns. *)
Lemma tunnel_poll_read n x :
  ∃ t' r, ws_poll_read (S (next_budget (ws_stream (tunnel x)))) n (tunnel x) = Some (t', r)
    ∧ tunnel (poll_read n x).1 = t' ∧ (poll_read n x).2 = r
    ∧ t_got (poll_read n x).1 = t_got x ++ delivered r ∧ t_chunks (poll_read n x).1 = t_chunks x.
Proof.
  assert (is_Some (ws_poll_read (S (next_budget (ws_stream (tunnel x)))) n (tunnel x)))
    as [[t' r] E].
  { unfold ws_poll_read. destruct (read_closed (tunnel x)); [by eauto|].
    destruct (read_pos (tunnel x) <? length (read_buffer (tunnel x))); [by eauto|].
    apply next_loop_total. lia. }
  exists t', r. split; [done|]. exact (read_with_some x _ n _ eq_refl t' r E).
Qed.

#[export] Program Instance tunnel_traced : TracedStream (ws_tunnel early) := {|
  received := t_got;
  sent x := concat (t_chunks x);
|}.
Next Obligation.
  intros n x. destruct (tunnel_poll_read n x) as (t' & r & E & Ht & Hr & Hg & Hc).
  destruct (poll_read n x) as [x' r']. cbn in Ht, Hr, Hg, Hc. subst r' t'.
  destruct (ws_reach_inv _ _ _ _ (tunnel_ok x)) as [D C N _].
  apply (ws_read_spec _ early (t_got x)) in E as [_ _ _ Hroom _ _ _ _ _]; [|done..].
  rewrite Hg, Hc. destruct r as [[bs|e]|]; cbn [delivered] in *; by rewrite ?app_nil_r.
Qed.
Next Obligation.
  intros bs x. cbn [poll_write tunnel_write].
  destruct (write_with_eq x bs _ eq_refl) as (Hr & Hg & Hc).
  destruct (write_with x bs _ eq_refl) as [x' r]. cbn [fst snd] in Hr, Hg, Hc. rewrite Hg, Hc, <- Hr.
  destruct r as [[n|e]|]; cbn [accepted]; rewrite ?app_nil_r; [|done..].
  assert (n = length bs) as ->.
  { revert Hr. unfold ws_poll_write. repeat case_match; cbn; congruence. }
  rewrite concat_app. cbn. by rewrite app_nil_r.
Qed.
Next Obligation.
  intros x. cbn [poll_flush tunnel_write]. by destruct (flush_with_eq x _ eq_refl) as [-> ->].
Qed.
Next Obligation.
  intros x. cbn [poll_shutdown tunnel_write]. by destruct (shutdown_with_eq x _ eq_refl) as [-> ->].
Qed.

End tunnel.

Lemma payloads_binary chunks : payloads (map Binary chunks) = concat chunks.
Proof. unfold payloads. rewrite map_map. by rewrite map_id. Qed.

Lemma payloads_app l1 l2 : payloads (l1 ++ l2) = payloads l1 ++ payloads l2.
Proof. unfold payloads. by rewrite map_app, concat_app. Qed.

(** What a tunnel holds, in terms of the messages of its socket. *)
Lemma tunnel_messages `{TungsteniteLaws} {early} (x : ws_tunnel early) :
  early ++ payloads (msgs_in (ws_stream (tunnel x))) = t_got x ++ unread (tunnel x)
  ∧ payloads (msgs_out (ws_stream (tunnel x))) = concat (t_chunks x).
Proof.
  destruct (ws_reach_inv _ _ _ _ (tunnel_ok x)) as [D _ _ (closing & Ho & Hc)]. split; [done|].
  rewrite Ho, payloads_app, payloads_binary. destruct Hc as [->|[-> _]]; cbn; by rewrite app_nil_r.
Qed.

(** The relay over a WebSocket, end to end.  For any state in which the
    handler hands the transport to the relay, any remote and any schedule of
    polls, ended or dropped at any point: the early data and the binary messages
    the client has sent are exactly what was read before the relay, what the
    relay sent to the remote, what it still holds, and what the transport still
    holds; and the binary messages sent to the client carry exactly what the
    relay has passed on from the remote.  A relay that reports completion holds
    nothing back. *)
Theorem ws_relay_end_to_end `{TungsteniteLaws, !TungsteniteCoop} {early} {B T : Type}
    `{AsyncRead B, AsyncWrite B, !TracedStream B, StatsCollector T, !StatsLaws T}
    cfg u start schedule (a : ws_tunnel early) half_close (b : B) (t : T) s' a' b' t' r :
  copy_bidirectional_with_stats cfg (Some u) start schedule (MkNoHalfClose a half_close) b t
    = Some (s', a', b', t', r) →
  ∃ up down,
    sent b' = sent b ++ up
    ∧ early ++ payloads (msgs_in (ws_stream (tunnel (nhc_inner a'))))
      = t_got a ++ up ++ unwritten (a_to_b s') ++ unread (tunnel (nhc_inner a'))
    ∧ received b' = received b ++ down ++ unwritten (b_to_a s')
    ∧ payloads (msgs_out (ws_stream (tunnel (nhc_inner a'))))
      = payloads (msgs_out (ws_stream (tunnel a))) ++ down
    ∧ match r with
      | Some (Ok res) =>
          termination res = Completed → unwritten (a_to_b s') = [] ∧ unwritten (b_to_a s') = []
      | _ => True
      end.
Proof.
  intros Hrun. destruct (relay_start_accounted cfg start u t) as [Hac Hset].
  destruct (relay_run_spec _ _ _ _ _ _ _ _ _ _ _ _ _ _ _ _
              (relay_start_inv cfg start (MkNoHalfClose a half_close) b) Hac Hset Hrun)
    as ((_ & _ & (up & Hb & Ha & _) & (down & Ha' & Hb' & _)) & _ & Hr).
  cbn [received sent nhc_traced tunnel_traced nhc_inner] in Ha, Ha'.
  destruct (tunnel_messages (nhc_inner a')) as [Hin Hout]. destruct (tunnel_messages a) as [_ Hout0].
  exists up, down. split; [done|]. rewrite Hin, Hout, Hout0, Ha, Ha'. split; [by rewrite !app_assoc|].
  split; [done|]. split; [done|]. destruct r as [[res|e]|]; [|done..].
  intros Hc. by apply Hr.
Qed.

(** A client whose close comes after the answer of the remote. *)
#[local] Existing Instance SampleWs.sample_ws.
#[local] Existing Instance SampleWs.sample_ws_laws.
#[local] Existing Instance SampleWs.sample_ws_coop.

Definition late_close : WsStream :=
  SampleWs.MkSocket [Ready (Ok (Binary (as_bytes "data"))); Pending; Ready (Ok Close)] [] [] None.

Definition sample_tunnel : ws_tunnel (as_bytes "early") :=
  MkTunnel (with_early_data late_close (as_bytes "early")) [] []
    (wsr_new (as_bytes "early") late_close eq_refl eq_refl eq_refl).

Abbreviation ws_session :=
  (copy_bidirectional_with_stats SampleRelay.cfg (Some 7%Z) 0 [(60, 0%Z); (60, 1%Z); (60, 2%Z)]
    (MkNoHalfClose sample_tunnel false)
    (SampleRelay.stream [SampleRelay.data "hello"; SampleRelay.eof] []) SampleRelay.counters).

Lemma ws_relay_end_to_end_witness :
  match ws_session with
  | Some (s', a', b', t', Some (Ok res)) =>
      sent b' = as_bytes "earlydata"
      ∧ msgs_out (ws_stream (tunnel (nhc_inner a'))) = [Binary (as_bytes "hello")]
      ∧ ∃ up down, sent b' = [] ++ up ∧ received b' = [] ++ down ++ unwritten (b_to_a s')
  | _ => False
  end.
Proof.
  assert (Hok : match ws_session with
                | Some (_, a', b', _, Some (Ok _)) =>
                    Some (sent b', msgs_out (ws_stream (tunnel (nhc_inner a'))))
                | _ => None
                end = Some (as_bytes "earlydata", [Binary (as_bytes "hello")]))
    by (vm_compute; reflexivity).
  destruct ws_session as [[[[[s' a'] b'] t'] [[res|e]|]]|] eqn:E; try discriminate Hok.
  destruct (ws_relay_end_to_end _ _ _ _ _ _ _ _ _ _ _ _ _ E) as (up & down & H1 & _ & H3 & _).
  injection Hok as Hb Ha. split; [exact Hb|]. split; [exact Ha|].
  exists up, down. split; [exact H1|exact H3].
Defined.
