(* ===== verification/GrpcRelay.v ===== *)
(** * The relay over a gRPC client

    [src/src/transport/grpc/transport.rs] under [src/src/core/relay.rs], the way
    [src/src/handler.rs] puts them together: the gRPC transport, in any state it
    can get into, is a stream that keeps the contract of the relay, and so the
    bytes of a session can be followed from the messages of the client to the
    remote and back. *)

From S2P Require Import Prelude RustStd Codec Hooks AsyncIo Relay Grpc.

(** ** The tunnel as a stream *)

(** A transport with what its reads delivered and its writes accepted; it is
    broken once a write, a flush or a shutdown has failed. *)
Record grpc_tunnel `{H2Laws} := MkGrpcTunnel {
  tunnel : GrpcTransport;
  g_got : list byte;
  g_chunks : list (list byte);
  broken : bool;
  tunnel_ok : grpc_reach tunnel g_got g_chunks broken;
}.
#[global] Arguments MkGrpcTunnel {_ _} tunnel g_got g_chunks broken tunnel_ok.

Section tunnel.
Context `{H2Laws, !H2Finite}.

(** The fuel of each poll: what is buffered or queued, and what is still to come
    in the run. *)
Definition read_fuel (t : GrpcTransport) : nat :=
  S (recv_left (recv_stream t) + length (read_pending t)).
Definition write_fuel (t : GrpcTransport) (n : nat) : nat := S (write_left t + queued t + n + 16).

(** A poll of a tunnel, broken or not, is a poll of its transport: none panics. *)
Lemma tunnel_polls (x : grpc_tunnel) :
  (∀ n, is_Some (grpc_poll_read (read_fuel (tunnel x)) n (tunnel x)))
  ∧ (∀ bs, is_Some (grpc_poll_write (write_fuel (tunnel x) (length bs)) bs (tunnel x)))
  ∧ is_Some (grpc_poll_flush (write_fuel (tunnel x) 0) (tunnel x))
  ∧ is_Some (grpc_poll_shutdown (write_fuel (tunnel x) 0) (tunnel x)).
Proof.
  destruct (grpc_reach_inv _ _ _ _ (tunnel_ok x)) as [_ W _ _ M _].
  pose proof (feeds_left (tunnel x)) as Hf. pose proof (grants_left (tunnel x)) as Hg.
  unfold read_fuel, write_fuel. split_and!.
  - intros n. eapply grpc_read_total; [exact Hf|lia].
  - intros bs. eapply grpc_write_total; [done|done|exact Hg|lia].
  - eapply grpc_shutdown_total; [done|exact Hg|lia].
  - eapply grpc_shutdown_total; [done|exact Hg|lia].
Qed.

Definition read_with (x : grpc_tunnel) fuel n o
    : grpc_poll_read fuel n (tunnel x) = o → is_Some o →
      grpc_tunnel * poll (result (list byte) io_error) :=
  match o with
  | Some (t', r) => λ E _,
      (MkGrpcTunnel t' (g_got x ++ delivered r) (g_chunks x) (broken x)
         (gr_read _ _ _ _ _ _ _ _ (tunnel_ok x) E), r)
  | None => λ _ Hs, False_rect _ (is_Some_None Hs)
  end.

Definition write_with (x : grpc_tunnel) fuel bs o
    : grpc_poll_write fuel bs (tunnel x) = o → is_Some o → grpc_tunnel * poll (result nat io_error) :=
  match o with
  | Some (t', r) => λ E _,
      (MkGrpcTunnel t' (g_got x) (g_chunks x ++ accepted bs r) (broken x || is_err r)
         (gr_write _ _ _ _ _ _ _ _ (tunnel_ok x) E), r)
  | None => λ _ Hs, False_rect _ (is_Some_None Hs)
  end.

Definition flush_with (x : grpc_tunnel) fuel o
    : grpc_poll_flush fuel (tunnel x) = o → is_Some o → grpc_tunnel * poll (result unit io_error) :=
  match o with
  | Some (t', r) => λ E _,
      (MkGrpcTunnel t' (g_got x) (g_chunks x) (broken x || is_err r)
         (gr_flush _ _ _ _ _ _ _ (tunnel_ok x) E), r)
  | None => λ _ Hs, False_rect _ (is_Some_None Hs)
  end.

Definition shutdown_with (x : grpc_tunnel) fuel o
    : grpc_poll_shutdown fuel (tunnel x) = o → is_Some o → grpc_tunnel * poll (result unit io_error) :=
  match o with
  | Some (t', r) => λ E _,
      (MkGrpcTunnel t' (g_got x) (g_chunks x) (broken x || is_err r)
         (gr_shutdown _ _ _ _ _ _ _ (tunnel_ok x) E), r)
  | None => λ _ Hs, False_rect _ (is_Some_None Hs)
  end.

#[export] Instance grpc_tunnel_read : AsyncRead grpc_tunnel := {|
  poll_read n x := read_with x _ n _ eq_refl (proj1 (tunnel_polls x) n);
|}.

#[export] Instance grpc_tunnel_write : AsyncWrite grpc_tunnel := {|
  poll_write bs x := write_with x _ bs _ eq_refl (proj1 (proj2 (tunnel_polls x)) bs);
  poll_flush x := flush_with x _ _ eq_refl (proj1 (proj2 (proj2 (tunnel_polls x))));
  poll_shutdown x := shutdown_with x _ _ eq_refl (proj2 (proj2 (proj2 (tunnel_polls x))));
|}.

Lemma grpc_read_with_eq x fuel n o E Hs :
  let y := read_with x fuel n o E Hs in
  g_got y.1 = g_got x ++ delivered y.2 ∧ g_chunks y.1 = g_chunks x ∧ length (delivered y.2) ≤ n.
Proof.
  destruct o as [[t' r]|]; [|by destruct (is_Some_None Hs)]. cbn. split_and!; [done..|].
  destruct (read_closed (tunnel x)) eqn:Hc.
  - unfold grpc_poll_read in E. rewrite Hc in E. injection E as <- <-. cbn. lia.
  - apply (grpc_read_spec _ _ _ _ _ _ E Hc (gi_read _ _ _ _ (grpc_reach_inv _ _ _ _ (tunnel_ok x)))).
Qed.

Lemma grpc_write_with_eq x fuel bs o E Hs :
  let y := write_with x fuel bs o E Hs in
  g_got y.1 = g_got x ∧ g_chunks y.1 = g_chunks x ++ accepted bs y.2
  ∧ ∀ n, y.2 = Ready (Ok n) → n ≤ length bs.
Proof.
  destruct o as [[t' r]|]; [|by destruct (is_Some_None Hs)]. cbn. split_and!; [done..|]. intros n ->.
  destruct (grpc_reach_inv _ _ _ _ (tunnel_ok x)) as [_ W _ _ M _].
  by apply (wo_size _ _ _ _ (grpc_write_spec _ _ _ _ _ E W M)).
Qed.

Lemma grpc_flush_with_eq x fuel o E Hs :
  g_got (flush_with x fuel o E Hs).1 = g_got x ∧ g_chunks (flush_with x fuel o E Hs).1 = g_chunks x.
Proof. destruct o as [[t' r]|]; [done|by destruct (is_Some_None Hs)]. Qed.

Lemma grpc_shutdown_with_eq x fuel o E Hs :
  g_got (shutdown_with x fuel o E Hs).1 = g_got x ∧ g_chunks (shutdown_with x fuel o E Hs).1 = g_chunks x.
Proof. destruct o as [[t' r]|]; [done|by destruct (is_Some_None Hs)]. Qed.

#[export] Program Instance grpc_tunnel_traced : TracedStream grpc_tunnel := {|
  received := g_got;
  sent x := concat (g_chunks x);
|}.
Next Obligation.
  intros n x. cbn [poll_read grpc_tunnel_read].
  destruct (grpc_read_with_eq x _ n _ eq_refl (proj1 (tunnel_polls x) n)) as (Hg & Hc & Hl).
  destruct (read_with _ _ _ _ _ _) as [x' r]. cbn [fst snd] in *. rewrite Hg, Hc.
  destruct r as [[bs|e]|]; cbn [delivered] in *; by rewrite ?app_nil_r.
Qed.
Next Obligation.
  intros bs x. cbn [poll_write grpc_tunnel_write].
  destruct (grpc_write_with_eq x _ bs _ eq_refl (proj1 (proj2 (tunnel_polls x)) bs)) as (Hg & Hc & Hn).
  destruct (write_with _ _ _ _ _ _) as [x' r]. cbn [fst snd] in *. rewrite Hg, Hc, concat_app.
  destruct r as [[n|e]|]; cbn [accepted concat]; rewrite ?app_nil_r; [|done..].
  split; [by apply Hn|done].
Qed.
Next Obligation.
  intros x. cbn [poll_flush grpc_tunnel_write].
  by destruct (grpc_flush_with_eq x _ _ eq_refl (proj1 (proj2 (proj2 (tunnel_polls x))))) as [-> ->].
Qed.
Next Obligation.
  intros x. cbn [poll_shutdown grpc_tunnel_write].
  by destruct (grpc_shutdown_with_eq x _ _ eq_refl (proj2 (proj2 (proj2 (tunnel_polls x))))) as [-> ->].
Qed.

End tunnel.

(** What a tunnel holds, in terms of the DATA of its stream. *)
Lemma tunnel_data `{H2Laws} (x : grpc_tunnel) :
  hunks (data_in (recv_stream (tunnel x)))
    = g_got x ++ unread (tunnel x) ++ hunks (read_pending (tunnel x))
  ∧ (broken x = false → hunks (stream_out (tunnel x) ++ unsent (tunnel x)) = concat (g_chunks x)).
Proof.
  destruct (grpc_reach_inv _ _ _ _ (tunnel_ok x)) as [R _ S F _ _]. split.
  - specialize (R []). by rewrite !app_nil_r in R.
  - intros Hb. by rewrite S, hunks_encoded.
Qed.

(** The relay over gRPC, end to end.  For any state in which the handler
    hands the transport to the relay, any remote and any schedule of polls, ended
    or dropped at any point: the messages the client has sent carry exactly what
    was read before the relay, what the relay sent to the remote, what it still
    holds, and what the transport still holds, even if writing to the client has
    failed; and as long as no write to the client failed, the messages on the wire
    and in the queue carry exactly what the relay has passed on from the remote.
    A relay that reports completion holds nothing back. *)
Theorem grpc_relay_end_to_end `{H2Laws, !H2Finite} {B T : Type}
    `{AsyncRead B, AsyncWrite B, !TracedStream B, StatsCollector T, !StatsLaws T}
    cfg u start schedule (a : grpc_tunnel) half_close (b : B) (t : T) s' a' b' t' r :
  copy_bidirectional_with_stats cfg (Some u) start schedule (MkNoHalfClose a half_close) b t
    = Some (s', a', b', t', r) →
  ∃ up down,
    sent b' = sent b ++ up
    ∧ hunks (data_in (recv_stream (tunnel (nhc_inner a'))))
      = g_got a ++ up ++ unwritten (a_to_b s') ++ unread (tunnel (nhc_inner a'))
        ++ hunks (read_pending (tunnel (nhc_inner a')))
    ∧ received b' = received b ++ down ++ unwritten (b_to_a s')
    ∧ (broken a = false → broken (nhc_inner a') = false →
       hunks (stream_out (tunnel (nhc_inner a')) ++ unsent (tunnel (nhc_inner a')))
       = hunks (stream_out (tunnel a) ++ unsent (tunnel a)) ++ down)
    ∧ match r with
      | Some (Ok res) =>
          termination res = Completed → unwritten (a_to_b s') = [] ∧ unwritten (b_to_a s') = []
      | _ => True
      end.
Proof.
  intros Hrun. destruct (relay_start_accounted cfg start u t) as [Hac Hset].
  destruct (relay_run_spec _ _ _ _ _ _ _ _ _ _ _ _ _ _ _ _
              (relay_start_inv cfg start (MkNoHalfClose a half_close) b) Hac Hset Hrun)
    as ((_ & _ & (up & Hb & Ha & _) & (down & Ha' & Hb' & _)) & _ & Hr).
  cbn [received sent nhc_traced grpc_tunnel_traced nhc_inner] in Ha, Ha'.
  destruct (tunnel_data (nhc_inner a')) as [Hin Hout]. destruct (tunnel_data a) as [_ Hout0].
  exists up, down. split; [done|]. split; [rewrite Hin, Ha; by rewrite <- !app_assoc|].
  split; [done|]. split; [intros B0 B1; by rewrite (Hout B1), (Hout0 B0), Ha'|].
  destruct r as [[res|e]|]; [|done..]. intros Hc. by apply Hr.
Qed.

(** ** A sample session *)

#[local] Existing Instance SampleH2.sample_h2.
#[local] Existing Instance SampleH2.sample_laws.
#[local] Existing Instance SampleH2.sample_finite.

Module SampleTunnel.

(** A client that sends "ping" in two chunks and grants all capacity. *)
Definition stream : GrpcTransport :=
  with_activity (SampleH2.MkIncoming [take 3 (encode_grpc_message (as_bytes "ping"));
                                      drop 3 (encode_grpc_message (as_bytes "ping"))] [])
    (RPending [SampleH2.Give 100]) 1024 (Some false).

Lemma stream_reach : grpc_reach stream [] [] false.
Proof. apply gr_new; [done|by intros s [=]|vm_compute; discriminate]. Qed.

Definition client : grpc_tunnel :=
  MkGrpcTunnel stream [] [] false stream_reach.

End SampleTunnel.

Abbreviation grpc_session :=
  (copy_bidirectional_with_stats SampleRelay.cfg (Some 7%Z) 0 [(60, 0%Z); (60, 1%Z)]
    (MkNoHalfClose SampleTunnel.client false)
    (SampleRelay.stream [SampleRelay.data "hello"; SampleRelay.eof] []) SampleRelay.counters).

Lemma grpc_relay_end_to_end_witness :
  match grpc_session with
  | Some (s', a', b', t', r) =>
      sent b' = as_bytes "ping"
      ∧ hunks (stream_out (tunnel (nhc_inner a'))) = as_bytes "hello"
      ∧ ∃ up down, sent b' = [] ++ up ∧ received b' = [] ++ down ++ unwritten (b_to_a s')
  | None => False
  end.
Proof.
  assert (Hok : match grpc_session with
                | Some (_, a', b', _, _) => Some (sent b', hunks (stream_out (tunnel (nhc_inner a'))))
                | _ => None
                end = Some (as_bytes "ping", as_bytes "hello"))
    by (vm_compute; reflexivity).
  destruct grpc_session as [[[[[s' a'] b'] t'] r]|] eqn:E; [|discriminate Hok].
  destruct (grpc_relay_end_to_end _ _ _ _ _ _ _ _ _ _ _ _ _ E) as (up & down & H1 & _ & H3 & _).
  injection Hok as Hb Ha. split; [exact Hb|]. split; [exact Ha|].
  exists up, down. split; [exact H1|exact H3].
Defined.
