(* ===== verification/Net.v ===== *)
(** * Sockets and certificates ([src/src/net.rs] and [src/src/transport/tls.rs])

    Binding the listener with a fallback for hosts without IPv6, the tuning of
    accepted sockets, and loading the TLS configuration.  The operating system,
    [rustls] and [rustls_pemfile] are parameters. *)

From S2P Require Import Prelude RustStd.

(** ** Listening *)

Inductive Domain_ : Type := DomIPv4 | DomIPv6.

(** [socket2::Socket] and tokio's listener. *)
Class Sockets := {
  Socket : Type;
  TcpListener : Type;
  socket_new : Domain_ → result Socket io_error;
  set_reuse_address : bool → Socket → result Socket io_error;
  set_nonblocking : bool → Socket → result Socket io_error;
  set_only_v6 : bool → Socket → result Socket io_error;
  sock_bind : SocketAddr → Socket → result Socket io_error;
  sock_listen : Z → Socket → result Socket io_error;
  from_std : Socket → result TcpListener io_error;
  local_addr : TcpListener → result SocketAddr io_error;
}.

Definition raw_os_error (e : io_error) : option Z :=
  match err_kind e with OsError errno => Some errno | _ => None end.

Definition EAFNOSUPPORT : Z := 97.
Definition EPROTONOSUPPORT : Z := 93.
Definition EADDRNOTAVAIL : Z := 99.

Definition is_ipv6_unsupported (e : io_error) : bool :=
  match raw_os_error e with
  | Some errno => existsb (Z.eqb errno) [EAFNOSUPPORT; EPROTONOSUPPORT; EADDRNOTAVAIL]
  | None => false
  end.

Definition any_v4 (port : Z) : SocketAddr := SocketAddrNew (V4 (repeat Byte.x00 4)) port.
Definition any_v6 (port : Z) : SocketAddr := SocketAddrNew (V6 (repeat Byte.x00 16)) port.

Section bind.
Context `{Sockets}.

Definition new_tcp_socket (domain : Domain_) : result Socket io_error :=
  s <-? socket_new domain;
  s <-? set_reuse_address true s;
  set_nonblocking true s.

Definition listen_socket (s : Socket) (addr : SocketAddr) (tcp_backlog : Z)
    : result TcpListener io_error :=
  s <-? sock_bind addr s;
  s <-? sock_listen tcp_backlog s;
  from_std s.

Definition try_bind_dual_stack (port tcp_backlog : Z) : result TcpListener io_error :=
  s <-? new_tcp_socket DomIPv6;
  s <-? set_only_v6 false s;
  listen_socket s (any_v6 port) tcp_backlog.

Definition bind_dual_stack (port tcp_backlog : Z) : result TcpListener io_error :=
  match try_bind_dual_stack port tcp_backlog with
  | Ok l => Ok l
  | Err e =>
      if is_ipv6_unsupported e then
        s <-? new_tcp_socket DomIPv4;
        listen_socket s (any_v4 port) tcp_backlog
      else Err e
  end.

(** A listener listens on the port, on every address: dual-stack, or IPv4 only
    if the host has no IPv6.  A port that is taken or not permitted is reported,
    not hidden by the fallback. *)
Lemma bind_dual_stack_ok port tcp_backlog l :
  bind_dual_stack port tcp_backlog = Ok l →
  ∃ s s1 s2 addr, sock_bind addr s = Ok s1 ∧ sock_listen tcp_backlog s1 = Ok s2 ∧ from_std s2 = Ok l
    ∧ (addr = any_v6 port ∧ (∃ s0, set_only_v6 false s0 = Ok s)
       ∨ addr = any_v4 port ∧ ∃ e, try_bind_dual_stack port tcp_backlog = Err e
           ∧ is_ipv6_unsupported e = true).
Proof.
  assert (Hl : ∀ s addr, listen_socket s addr tcp_backlog = Ok l →
    ∃ s1 s2, sock_bind addr s = Ok s1 ∧ sock_listen tcp_backlog s1 = Ok s2 ∧ from_std s2 = Ok l).
  { intros s addr. unfold listen_socket. destruct (sock_bind addr s) as [s1|]; [simpl|done].
    destruct (sock_listen tcp_backlog s1) as [s2|] eqn:E; [simpl; eauto|done]. }
  unfold bind_dual_stack. destruct (try_bind_dual_stack port tcp_backlog) as [l'|e] eqn:Ht.
  - intros [= ->]. unfold try_bind_dual_stack in Ht.
    destruct (new_tcp_socket DomIPv6) as [s0|]; [simpl in Ht|done].
    destruct (set_only_v6 false s0) as [s|] eqn:Hv; [simpl in Ht|done].
    apply Hl in Ht as (s1 & s2 & ? & ? & ?). exists s, s1, s2, (any_v6 port). eauto 10.
  - destruct (is_ipv6_unsupported e) eqn:He; [|done].
    destruct (new_tcp_socket DomIPv4) as [s|]; [simpl|done].
    intros (s1 & s2 & ? & ? & ?)%Hl. exists s, s1, s2, (any_v4 port). eauto 10.
Qed.

End bind.

(** ** Tuning accepted sockets *)

Definition TCP_KEEPALIVE_SECS : Z := 15.

(** [socket2::TcpKeepalive]. *)
Record TcpKeepalive := MkKeepalive { ka_time : option Z; ka_interval : option Z }.

(** The options of a stream; a socket may refuse each of them, which is ignored. *)
Class TcpStream (S : Type) := {
  set_nodelay : bool → S → result S io_error;
  set_tcp_keepalive : TcpKeepalive → S → result S io_error;
}.

Definition or_same {S E} (s : S) (r : result S E) : S := match r with Ok s' => s' | Err _ => s end.

Definition tune_tcp_stream {S} `{TcpStream S} (s : S) (nodelay : bool) : S :=
  let s := if nodelay then or_same s (set_nodelay true s) else s in
  let keepalive := MkKeepalive (Some TCP_KEEPALIVE_SECS) (Some TCP_KEEPALIVE_SECS) in
  or_same s (set_tcp_keepalive keepalive s).

(** ** Certificates *)

Class Pem := {
  Certificate : Type;
  PrivateKey : Type;
  Ticketer : Type;
  RustlsConfig : Type;
  file_open : string → result (list byte) io_error;
  pem_certs : list byte → list (result Certificate io_error);
  pem_private_key : list byte → result (option PrivateKey) io_error;
  with_single_cert : list Certificate → PrivateKey → result RustlsConfig string;
  ticketer_new : result Ticketer string;
  set_ticketer : Ticketer → RustlsConfig → RustlsConfig;
  set_alpn : list (list byte) → RustlsConfig → RustlsConfig;
}.

Section tls.
Context `{Pem}.

Definition ok_only {A E} (rs : list (result A E)) : list A :=
  omap (λ r, match r with Ok a => Some a | Err _ => None end) rs.

Definition load_tls_config (cert_path key_path : string) (alpn : list (list byte))
    : result RustlsConfig io_error :=
  cert_file <-? file_open cert_path;
  let certs := ok_only (pem_certs cert_file) in
  match certs with
  | [] => Err (IoError EkInvalidData "No certificates found in cert file")
  | _ =>
      key_file <-? file_open key_path;
      found <-? pem_private_key key_file;
      match found with
      | None => Err (IoError EkInvalidData "No private key found")
      | Some key =>
          config <-? map_err (IoError EkInvalidData) (with_single_cert certs key);
          let config := match ticketer_new with
                        | Ok t => set_ticketer t config
                        | Err _ => config
                        end in
          Ok (set_alpn alpn config)
      end
  end.

(** A configuration is made only from both files, with a certificate and a key. *)
Lemma load_tls_config_ok cert_path key_path alpn config :
  load_tls_config cert_path key_path alpn = Ok config →
  ∃ cf kf c cs k base, file_open cert_path = Ok cf ∧ file_open key_path = Ok kf
    ∧ ok_only (pem_certs cf) = c :: cs ∧ pem_private_key kf = Ok (Some k)
    ∧ with_single_cert (c :: cs) k = Ok base
    ∧ (config = set_alpn alpn base ∨ ∃ t, config = set_alpn alpn (set_ticketer t base)).
Proof.
  unfold load_tls_config. destruct (file_open cert_path) as [cf|]; [simpl|done].
  destruct (ok_only (pem_certs cf)) as [|c cs] eqn:Hc; [done|].
  destruct (file_open key_path) as [kf|]; [simpl|done].
  destruct (pem_private_key kf) as [[k|]|] eqn:Hk; [simpl|done..].
  destruct (with_single_cert (c :: cs) k) as [base|] eqn:Hb; [simpl|done].
  intros [= <-]. exists cf, kf, c, cs, k, base. split_and!; [done..|].
  destruct ticketer_new; eauto.
Qed.

End tls.
