(* ===== verification/Runner.v ===== *)
(** * Starting the server and accepting connections
    ([src/src/server_runner.rs])

    The choice of transport, TLS and router from the configuration, the limits
    of WebSocket connections, and the accept loop with the tasks it spawns: a
    step function on what the loop and the tasks wait for, with the connection
    permits they hold. *)

From S2P Require Import Prelude RustStd Protocol Dns Acl Hooks AclRouter AsyncIo ConfigAuto Config.
From S2P Require Import Effects Net.

(** ** Transport and TLS *)

Definition alpn_for_transport (t : TransportType) : list (list byte) :=
  match t with
  | Grpc => [as_bytes "h2"]
  | WebSocket => [as_bytes "http/1.1"]
  | Tcp => []
  end.

Definition build_transport_config (config : ServerConfig) : TransportType * bool :=
  (if enable_grpc config then Grpc else if enable_ws config then WebSocket else Tcp,
   bool_decide (is_Some (cert config)) && bool_decide (is_Some (key config))).

(** [load_tls]: the outer [None] is a panic of [unwrap]. *)
Definition load_tls `{Pem} (config : ServerConfig) : option (result (option RustlsConfig) io_error) :=
  let '(transport_type, has_tls) := build_transport_config config in
  if negb has_tls then Some (Ok None)
  else
    cert_path ← cert config;
    key_path ← key config;
    Some (c <-? load_tls_config cert_path key_path (alpn_for_transport transport_type); Ok (Some c)).

Lemma load_tls_no_panic `{Pem} config : is_Some (load_tls config).
Proof.
  unfold load_tls, build_transport_config. destruct (cert config), (key config); simpl; eauto.
Qed.

(** ** WebSocket limits *)

Definition WS_MIN_MAX_FRAME : Z := 64 * 1024.
Definition WS_MIN_MAX_MESSAGE : Z := 256 * 1024.

Record WsLimits := MkWsLimits {
  write_buffer_size : Z;
  max_write_buffer_size : Z;
  max_message_size : option Z;
  max_frame_size : option Z;
}.

Definition ws_config_for (buf_size : Z) : WsLimits :=
  let max_frame := Z.max (buf_size * 2) WS_MIN_MAX_FRAME in
  MkWsLimits buf_size (buf_size + max_frame + 16)
    (Some (Z.max (buf_size * 4) WS_MIN_MAX_MESSAGE)) (Some max_frame).

(** For every buffer size that passes validation the limits are consistent and
    within [usize]: the write buffer can always take one more message of the
    relay with its frame header, and a frame fits into a message. *)
Lemma ws_config_sound buf_size :
  (1 ≤ buf_size ≤ MAX_BUFFER_SIZE)%Z →
  let c := ws_config_for buf_size in
  (write_buffer_size c + (buf_size + 14) < max_write_buffer_size c ≤ u64_max)%Z
  ∧ ∃ f m, max_frame_size c = Some f ∧ max_message_size c = Some m
      ∧ (WS_MIN_MAX_FRAME ≤ f ≤ m)%Z ∧ (2 * buf_size ≤ f)%Z ∧ (WS_MIN_MAX_MESSAGE ≤ m ≤ u64_max)%Z.
Proof.
  unfold MAX_BUFFER_SIZE, ws_config_for, WS_MIN_MAX_FRAME, WS_MIN_MAX_MESSAGE, u64_max. cbn.
  intros Hb. split; [lia|]. eexists _, _. split; [done|]. split; [done|]. lia.
Qed.

(** ** Router *)

(** [Arc<dyn OutboundRouter>]. *)
Inductive built_router `{AclLib} : Type :=
| BuiltAcl (r : AclRouter)
| BuiltDirect (r : DirectRouter).

#[export] Instance built_router_router `{AclLib, DnsCache D} : OutboundRouter built_router D := {|
  route r cache addr :=
    match r with BuiltAcl r => route r cache addr | BuiltDirect r => route r cache addr end;
  route_udp r cache addr :=
    match r with BuiltAcl r => route_udp r cache addr | BuiltDirect r => route_udp r cache addr end;
|}.

Definition build_router `{AclLib, BindProbe, AclFiles} (config : ServerConfig) (refresh_geodata : bool)
    : result built_router string :=
  match acl_conf_file config with
  | Some acl_path =>
      acl_config <-? load_acl_config acl_path;
      engine <-? engine_new acl_config (Some (data_dir config)) refresh_geodata;
      Ok (BuiltAcl (MkAclRouter engine (block_private_ip config)))
  | None => Ok (BuiltDirect (MkDirectRouter (block_private_ip config)))
  end.

Record NetworkSettings := MkNetworkSettings { ns_grpc_service_name : string; ns_ws_path : string }.

(** ** The accept loop and its tasks *)

(** Where the task of an accepted socket is: in the TLS handshake, in the HTTP/2
    or WebSocket handshake, in [process_connection], or in the loop of a gRPC
    connection. *)
Inductive phase : Type :=
| PTls
| PHandshake (t : TransportType)
| PSession (t : TransportType)
| PGrpcLoop.

#[export] Instance transport_type_eq_dec : EqDecision TransportType.
Proof. solve_decision. Defined.
#[export] Instance phase_eq_dec : EqDecision phase.
Proof. solve_decision. Defined.

(** The start of [accept_connection]. *)
Definition accept_connection (t : TransportType) : phase :=
  match t with
  | Tcp => PSession Tcp
  | WebSocket => PHandshake WebSocket
  | Grpc => PHandshake Grpc
  end.

(** What follows the HTTP/2 or WebSocket handshake under [request_timeout]. *)
Definition after_handshake (t : TransportType) (r : timed (result unit string)) : result phase string :=
  match r with
  | Done (Ok _) => Ok (match t with Grpc => PGrpcLoop | _ => PSession t end)
  | Done (Err e) => Err e
  | Elapsed =>
      Err (match t with
           | Grpc => "HTTP/2 handshake timeout"
           | _ => "WebSocket handshake timeout"
           end)
  end.

(** What follows the TLS handshake under [tls_handshake_timeout]. *)
Definition after_tls (t : TransportType) (r : timed (result unit string)) : result phase string :=
  match r with
  | Done (Ok _) => Ok (accept_connection t)
  | Done (Err e) => Err ("TLS handshake failed: " +:+ e)
  | Elapsed => Err "TLS handshake timeout"
  end.

(** [permits] counts the available permits of the limiter, if there is one;
    [waiting] says that the loop holds an accepted
    socket and waits for its permit; [streams] maps each running gRPC stream to its connection. *)
Record runner := MkRunner {
  permits : option nat;
  waiting : bool;
  tasks : gmap nat phase;
  streams : gmap nat nat;
  next_task : nat;
}.

Inductive runner_event : Type :=
| Accept (r : result unit string)
| PermitGranted
| TlsDone (id : nat) (r : timed (result unit string))
| HandshakeDone (id : nat) (r : timed (result unit string))
| StreamOpened (id : nat)
| StreamDone (sid : nat)
| TaskDone (id : nat) (r : result unit string).

(** Dropping a permit, and taking one. *)
Definition release (p : option nat) : option nat := S <$> p.
Definition acquire (p : option nat) : option (option nat) :=
  match p with
  | None => Some None
  | Some (S n) => Some (Some n)
  | Some 0 => None
  end.

Definition set_tasks (ts : gmap nat phase) (s : runner) : runner :=
  MkRunner (permits s) (waiting s) ts (streams s) (next_task s).

(** The end of a task drops its permit. *)
Definition end_task (id : nat) (s : runner) : runner :=
  MkRunner (release (permits s)) (waiting s) (delete id (tasks s)) (streams s) (next_task s).

(** A handshake that succeeds moves its task on, one that fails ends it. *)
Definition move_task (id : nat) (r : result phase string) (s : runner)
    : runner * option (result unit string) :=
  match r with
  | Ok ph => (set_tasks (<[id := ph]> (tasks s)) s, None)
  | Err e => (end_task id s, Some (Err e))
  end.

(** The handler of a gRPC stream: refused when no permit is free. *)
Definition open_grpc_stream (id : nat) (s : runner) : runner * option (result unit string) :=
  match acquire (permits s) with
  | Some p =>
      (MkRunner p (waiting s) (tasks s) (<[next_task s := id]> (streams s)) (S (next_task s)), None)
  | None => (s, Some (Err "max_connections reached"))
  end.

(** The accept loop has its permit and spawns the task of the connection. *)
Definition spawn_connection (tls : bool) (t : TransportType) (s : runner) : runner :=
  match acquire (permits s) with
  | Some p =>
      MkRunner p false (<[next_task s := if tls then PTls else accept_connection t]> (tasks s))
        (streams s) (S (next_task s))
  | None => s
  end.

(** One step, and how a task or stream ended, if one did.  An event that nothing
    waits for changes nothing. *)
Definition runner_step (tls : bool) (t : TransportType) (ev : runner_event) (s : runner)
    : runner * option (result unit string) :=
  match ev with
  | Accept r =>
      if waiting s then (s, None)
      else match r with
           | Ok _ => (MkRunner (permits s) true (tasks s) (streams s) (next_task s), None)
           | Err _ => (s, None)
           end
  | PermitGranted => if waiting s then (spawn_connection tls t s, None) else (s, None)
  | TlsDone id r =>
      if bool_decide (tasks s !! id = Some PTls) then move_task id (after_tls t r) s else (s, None)
  | HandshakeDone id r =>
      if bool_decide (tasks s !! id = Some (PHandshake t)) then move_task id (after_handshake t r) s
      else (s, None)
  | StreamOpened id =>
      if bool_decide (tasks s !! id = Some PGrpcLoop) then open_grpc_stream id s else (s, None)
  | StreamDone sid =>
      match streams s !! sid with
      | Some _ =>
          (MkRunner (release (permits s)) (waiting s) (tasks s) (delete sid (streams s)) (next_task s), None)
      | None => (s, None)
      end
  | TaskDone id r =>
      match tasks s !! id with
      | Some (PSession _) | Some PGrpcLoop => (end_task id s, Some r)
      | _ => (s, None)
      end
  end.

(** [run_server] up to the loop: [None] is the panic of [Semaphore::new]. *)
Definition run_server_start (max_connections : Z) : option runner :=
  limiter ← (if (0 <? max_connections)%Z
             then if (max_connections <=? MAX_PERMITS)%Z then Some (Some (Z.to_nat max_connections)) else None
             else Some None);
  Some (MkRunner limiter false ∅ ∅ 0).

(** The rest of [run_server]: the listener, and the result of the loop. *)
Definition run_server `{Sockets} (port tcp_backlog : Z) (accept_loop : result unit string)
    : result unit string :=
  listener <-? map_err err_msg (bind_dual_stack port tcp_backlog);
  _ <-? map_err err_msg (local_addr listener);
  accept_loop.

Definition run_events (tls : bool) (t : TransportType) (evs : list runner_event) (s : runner) : runner :=
  foldl (λ s ev, (runner_step tls t ev s).1) s evs.

(** ** The permits *)

(** Every task and every stream holds one permit of the [max] there are, and
    identifiers are fresh. *)
Record runner_inv (limit : option nat) (s : runner) : Prop := MkRunnerInv {
  ri_permits : match limit with
               | Some max => ∃ a, permits s = Some a ∧ a + size (tasks s) + size (streams s) = max
               | None => permits s = None
               end;
  ri_tasks : ∀ id, is_Some (tasks s !! id) → id < next_task s;
  ri_streams : ∀ id, is_Some (streams s !! id) → id < next_task s;
}.

Lemma fresh_none {A} (m : gmap nat A) n : (∀ id, is_Some (m !! id) → id < n) → m !! n = None.
Proof. intros Hm. apply eq_None_not_Some. intros Hn. apply Hm in Hn. lia. Qed.

Lemma size_delete_some {A} (m : gmap nat A) k x : m !! k = Some x → size m = S (size (delete k m)).
Proof.
  intros Hk. rewrite <- (insert_delete_id m k x Hk) at 1.
  by rewrite map_size_insert_None by apply lookup_delete_eq.
Qed.

Lemma below_insert {A} (m : gmap nat A) n k x :
  (∀ id, is_Some (m !! id) → id < n) → k < S n → ∀ id, is_Some (<[k := x]> m !! id) → id < S n.
Proof.
  intros Hm Hk id. destruct (decide (id = k)) as [->|Hne]; [done|].
  rewrite lookup_insert_ne by done. intros Hi%Hm. lia.
Qed.

Lemma below_delete {A} (m : gmap nat A) n k :
  (∀ id, is_Some (m !! id) → id < n) → ∀ id, is_Some (delete k m !! id) → id < n.
Proof. intros Hm id [x Hx]. apply lookup_delete_Some in Hx as [_ Hx]. eauto. Qed.

(** Ending a task gives its permit back; changing its phase keeps it. *)
Lemma end_task_inv limit id ph s :
  runner_inv limit s → tasks s !! id = Some ph → runner_inv limit (end_task id s).
Proof.
  intros [P T S] Hid. constructor; cbn; [|by apply below_delete|done].
  destruct limit as [max|]; [|by rewrite P]. destruct P as (a & Ha & Hmax). exists (1 + a).
  rewrite Ha. split; [done|]. rewrite (size_delete_some _ _ _ Hid) in Hmax. lia.
Qed.

Lemma set_phase_inv limit id ph ph' s :
  runner_inv limit s → tasks s !! id = Some ph →
  runner_inv limit (set_tasks (<[id := ph']> (tasks s)) s).
Proof.
  intros [P T S] Hid. constructor; cbn; [|intros id'|done].
  - by rewrite map_size_insert_Some by eauto.
  - destruct (decide (id' = id)) as [->|Hne]; [intros _; eauto|]. rewrite lookup_insert_ne by done. auto.
Qed.

Lemma move_task_inv limit id ph r s :
  runner_inv limit s → tasks s !! id = Some ph → runner_inv limit (move_task id r s).1.
Proof. intros Hi Hid. destruct r; [by eapply set_phase_inv|by eapply end_task_inv]. Qed.

Lemma runner_step_inv limit tls t ev s :
  runner_inv limit s → runner_inv limit (runner_step tls t ev s).1.
Proof.
  intros Hi. pose proof Hi as [P T S].
  assert (Hget : ∀ p, acquire (permits s) = Some p →
    match limit with
    | Some max => ∃ a, p = Some a ∧ 1 + a + size (tasks s) + size (streams s) = max
    | None => p = None
    end).
  { intros p. unfold acquire. destruct limit as [max|]; [|by rewrite P; intros [= <-]].
    destruct P as (a & -> & Hmax). destruct a as [|a]; [done|]. intros [= <-]. exists a. split; [done|lia]. }
  destruct ev as [r| |id r|id r|id|sid|id r]; cbn [runner_step].
  - destruct (waiting s), r; done.
  - destruct (waiting s); [|done]. unfold spawn_connection. cbn [fst].
    destruct (acquire (permits s)) as [p|]; [|done]. specialize (Hget p eq_refl). constructor; cbn.
    + rewrite map_size_insert_None by (by apply fresh_none).
      destruct limit; [|done]. destruct Hget as (a & -> & Hmax). exists a. split; [done|lia].
    + apply below_insert; [done|lia].
    + intros id Hid%S. lia.
  - case_bool_decide as Hid; [|done]. by apply (move_task_inv _ _ PTls).
  - case_bool_decide as Hid; [|done]. by apply (move_task_inv _ _ (PHandshake t)).
  - case_bool_decide as Hid; [|done]. unfold open_grpc_stream.
    destruct (acquire (permits s)) as [p|]; [|done]. specialize (Hget p eq_refl). constructor; cbn.
    + rewrite map_size_insert_None by (by apply fresh_none).
      destruct limit; [|done]. destruct Hget as (a & -> & Hmax). exists a. split; [done|lia].
    + intros id' Hid'%T. lia.
    + apply below_insert; [done|lia].
  - destruct (streams s !! sid) eqn:Hs; [|done]. constructor; cbn; [|done|by apply below_delete].
    destruct limit as [max|]; [|by rewrite P]. destruct P as (a & Ha & Hmax). exists (1 + a).
    rewrite Ha. split; [done|]. rewrite (size_delete_some _ _ _ Hs) in Hmax. lia.
  - destruct (tasks s !! id) as [[| | |]|] eqn:Hid; eauto using end_task_inv.
Qed.

Lemma run_events_inv limit tls t evs s :
  runner_inv limit s → runner_inv limit (run_events tls t evs s).
Proof.
  revert s. induction evs as [|ev evs IH]; intros s Hi; [done|]. by apply IH, runner_step_inv.
Qed.

Definition limit_of (max_connections : Z) : option nat :=
  if (0 <? max_connections)%Z then Some (Z.to_nat max_connections) else None.

Lemma run_server_start_inv max_connections s :
  run_server_start max_connections = Some s → runner_inv (limit_of max_connections) s.
Proof.
  unfold run_server_start, limit_of. intros Hs.
  destruct (0 <? max_connections)%Z; [destruct (max_connections <=? MAX_PERMITS)%Z; [|done]|];
    injection Hs as <-; (constructor; cbn; [|by intros ? []..]); [|done].
  eexists. split; [done|]. rewrite !map_size_empty. lia.
Qed.

(** Relays that may be running: [process_connection] of a socket or of a gRPC
    stream. *)
Definition is_session (ph : phase) : bool := match ph with PSession _ => true | _ => false end.

Definition sessions (s : runner) : nat :=
  size (filter (λ kv, is_session kv.2 = true) (tasks s)) + size (streams s).

Lemma sessions_bounded max s : runner_inv (Some max) s → sessions s ≤ max.
Proof.
  intros [(free & _ & Hmax) _ _]. unfold sessions.
  pose proof (map_size_filter (λ kv, is_session kv.2 = true) (tasks s)). lia.
Qed.

(** A gRPC connection holds a permit of its own, so with a single one no stream
    ever gets any. *)
Lemma single_permit_no_stream tls t evs s :
  runner_inv (Some 1) s → streams s = ∅ → streams (run_events tls t evs s) = ∅.
Proof.
  revert s. induction evs as [|ev evs IH]; intros s Hi Hs; [done|].
  cbn [run_events foldl]. apply IH; [by apply runner_step_inv|].
  destruct Hi as [(a & Ha & Hmax) _ _].
  destruct ev as [r| |id r|id r|id|sid|id r]; cbn [runner_step].
  - by destruct (waiting s), r.
  - destruct (waiting s); [|done]. unfold spawn_connection. by destruct (acquire (permits s)).
  - case_bool_decide; [|done]. by destruct (after_tls t r).
  - case_bool_decide; [|done]. by destruct (after_handshake t r).
  - case_bool_decide as Hid; [|done]. rewrite (size_delete_some _ _ _ Hid) in Hmax.
    assert (a = 0) as -> by lia. unfold open_grpc_stream. by rewrite Ha.
  - by rewrite Hs, lookup_empty.
  - by destruct (tasks s !! id) as [[| | |]|].
Qed.

(** C14: [max_connections] bounds what runs at once, and no permit is lost.
    Whatever sockets, handshakes, streams and ends arrive in whatever order, the
    free permits, the connection tasks and the gRPC streams together are exactly
    [max_connections], so that at most that many sessions run; a waiting socket
    is served as soon as fewer hold one; a handshake that times out gives its
    permit back; and a value of 0 means no limit.  With a single permit a gRPC
    server accepts connections and refuses every stream on them. *)
Theorem server_permits_exact max_connections tls t evs s0 :
  run_server_start max_connections = Some s0 →
  let s := run_events tls t evs s0 in
  match limit_of max_connections with
  | Some max =>
      (∃ free, permits s = Some free ∧ free + size (tasks s) + size (streams s) = max)
      ∧ sessions s ≤ max
      ∧ (waiting s = true → size (tasks s) + size (streams s) < max →
           waiting (runner_step tls t PermitGranted s).1 = false)
      ∧ (∀ id ph ev, tasks s !! id = Some ph →
           (ph = PTls ∧ ev = TlsDone id Elapsed ∨ ph = PHandshake t ∧ ev = HandshakeDone id Elapsed) →
           permits (runner_step tls t ev s).1 = release (permits s)
           ∧ tasks (runner_step tls t ev s).1 = delete id (tasks s))
      ∧ (max = 1 → streams s = ∅)
  | None => permits s = None
  end.
Proof.
  intros Hs0. assert (streams s0 = ∅) as Hempty.
  { revert Hs0. unfold run_server_start. destruct (_ <? _)%Z; [destruct (_ <=? _)%Z|]; by intros [= <-]. }
  apply run_server_start_inv in Hs0 as Hi0. intros s.
  pose proof (run_events_inv _ tls t evs _ Hi0) as Hi. fold s in Hi. pose proof Hi as [P _ _].
  destruct (limit_of max_connections) as [max|] eqn:Hl; [|done].
  destruct P as (free & Hfree & Hmax).
  split_and!; [by eauto|..].
  - by apply sessions_bounded.
  - intros Hw Hlt. cbn [runner_step]. rewrite Hw. unfold spawn_connection. rewrite Hfree. destruct free; [lia|done].
  - intros id ph ev Hid [[-> ->]|[-> ->]]; cbn; by rewrite bool_decide_eq_true_2.
  - intros ->. by apply single_permit_no_stream.
Qed.

(** Two permits, a gRPC server behind TLS: one connection with one stream holds
    both, a second socket waits. *)
Definition busy_events : list runner_event :=
  [Accept (Ok tt); PermitGranted; TlsDone 0 (Done (Ok tt)); HandshakeDone 0 (Done (Ok tt));
   StreamOpened 0; StreamOpened 0; Accept (Ok tt); PermitGranted].

Lemma server_permits_exact_witness :
  ∃ s0, run_server_start 2 = Some s0
    ∧ let s := run_events true Grpc busy_events s0 in
      sessions s = 1 ∧ waiting s = true
      ∧ ∃ free, permits s = Some free ∧ free + size (tasks s) + size (streams s) = 2.
Proof.
  exists (MkRunner (Some 2) false ∅ ∅ 0). split; [vm_compute; reflexivity|].
  split; [vm_compute; reflexivity|]. split; [vm_compute; reflexivity|].
  exact (proj1 (server_permits_exact 2 true Grpc busy_events (MkRunner (Some 2) false ∅ ∅ 0) eq_refl)).
Defined.
