(* ===== verification/Panel.v ===== *)
(** * The panel ([src/src/business/mod.rs])

    The bridges from the panel crate to the hooks of the proxy core, and the
    report of the last traffic at shutdown.  The panel's statistics collector is
    a parameter; other tasks may record traffic while a report is under way. *)

From S2P Require Import Prelude RustStd Protocol Acl Hooks.

(** [panel_core::{StatsSnapshot, UserTraffic}]. *)
Record Snapshot := MkSnapshot {
  user_id : UserId;
  upload_bytes : Z;
  download_bytes : Z;
  request_count : Z;
}.

Record UserTraffic := MkUserTraffic {
  ut_user_id : UserId;
  ut_upload : Z;
  ut_download : Z;
  ut_request_count : Z;
}.

(** The sum of a figure over the entries of a user. *)
Definition tally {A} (who : A → UserId) (f : A → Z) (u : UserId) (l : list A) : Z :=
  foldr Z.add 0%Z (map (λ a, if decide (who a = u) then f a else 0%Z) l).

Lemma tally_app {A} (who : A → UserId) f u l1 l2 :
  tally who f u (l1 ++ l2) = (tally who f u l1 + tally who f u l2)%Z.
Proof. unfold tally. induction l1 as [|a l1 IH]; simpl; [done|]. rewrite IH. lia. Qed.

Lemma tally_map {A B} (g : A → B) who f u l :
  tally who f u (map g l) = tally (who ∘ g) (f ∘ g) u l.
Proof. unfold tally. by rewrite map_map. Qed.

(** The three figures of a user. *)
Definition usage {T} `{StatsLaws T} (u : UserId) (t : T) : Z * Z * Z :=
  (requests u t, uploaded u t, downloaded u t).

Definition plus3 (a b : Z * Z * Z) : Z * Z * Z := (a.1.1 + b.1.1, a.1.2 + b.1.2, a.2 + b.2)%Z.

Lemma triple_eq {A B C} (a a' : A) (b b' : B) (c c' : C) :
  a = a' → b = b' → c = c' → (a, b, c) = (a', b', c').
Proof. by intros -> -> ->. Qed.

Definition in_snapshots (u : UserId) (l : list Snapshot) : Z * Z * Z :=
  (tally user_id request_count u l, tally user_id upload_bytes u l, tally user_id download_bytes u l).

Definition in_report (u : UserId) (l : list UserTraffic) : Z * Z * Z :=
  (tally ut_user_id ut_request_count u l, tally ut_user_id ut_upload u l,
   tally ut_user_id ut_download u l).

(** [panel_core::StatsCollector]: [reset_all] takes everything out, [restore]
    puts snapshots back. *)
Class PanelStats (T : Type) `{StatsLaws T} := {
  reset_all : T → T * list Snapshot;
  restore : list Snapshot → T → T;
  reset_law t u : usage u (reset_all t).1 = (0, 0, 0)%Z ∧ in_snapshots u (reset_all t).2 = usage u t;
  restore_law snaps t u : usage u (restore snaps t) = plus3 (usage u t) (in_snapshots u snaps);
}.

(** What other tasks record meanwhile. *)
Inductive stat_op : Type :=
| OpRequest (u : UserId)
| OpUpload (u : UserId) (n : Z)
| OpDownload (u : UserId) (n : Z).

Definition op_user (o : stat_op) : UserId :=
  match o with OpRequest u | OpUpload u _ | OpDownload u _ => u end.
Definition op_requests (o : stat_op) : Z := match o with OpRequest _ => 1 | _ => 0 end.
Definition op_upload (o : stat_op) : Z := match o with OpUpload _ n => n | _ => 0 end.
Definition op_download (o : stat_op) : Z := match o with OpDownload _ n => n | _ => 0 end.

Definition in_ops (u : UserId) (l : list stat_op) : Z * Z * Z :=
  (tally op_user op_requests u l, tally op_user op_upload u l, tally op_user op_download u l).

Section panel.
Context `{PanelStats T}.

Definition apply_op (o : stat_op) (t : T) : T :=
  match o with
  | OpRequest u => record_request u t
  | OpUpload u n => record_upload u n t
  | OpDownload u n => record_download u n t
  end.

Definition apply_ops (l : list stat_op) (t : T) : T := foldl (λ t o, apply_op o t) t l.

Definition to_traffic (s : Snapshot) : UserTraffic :=
  MkUserTraffic (user_id s) (upload_bytes s) (download_bytes s) (request_count s).

(** [flush_traffic]: the collector afterwards, and what was submitted with the
    panel's answer.  [others] is recorded while the answer is awaited. *)
Definition flush_traffic (submit_traffic : list UserTraffic → result unit string)
    (others : list stat_op) (stats : T) : T * option (list UserTraffic * result unit string) :=
  let '(stats, snapshots) := reset_all stats in
  match snapshots with
  | [] => (stats, None)
  | _ =>
      let data := map to_traffic snapshots in
      let stats := apply_ops others stats in
      match submit_traffic data with
      | Ok _ => (stats, Some (data, Ok tt))
      | Err e => (restore snapshots stats, Some (data, Err e))
      end
  end.

Lemma apply_ops_usage l t u : usage u (apply_ops l t) = plus3 (usage u t) (in_ops u l).
Proof.
  revert t. induction l as [|o l IH]; intros t; simpl.
  { unfold plus3, in_ops, tally. simpl. by rewrite !Z.add_0_r. }
  rewrite IH. unfold usage, plus3, in_ops, tally. simpl.
  destruct o as [v|v n|v n]; simpl.
  - destruct (request_law v u t) as (-> & -> & ->). case_decide; apply triple_eq; lia.
  - destruct (upload_law v n u t) as (-> & -> & ->). case_decide; apply triple_eq; lia.
  - destruct (download_law v n u t) as (-> & -> & ->). case_decide; apply triple_eq; lia.
Qed.

Lemma in_report_to_traffic u snaps : in_report u (map to_traffic snaps) = in_snapshots u snaps.
Proof. unfold in_report, in_snapshots. by rewrite !tally_map. Qed.

Lemma plus3_0_l a : plus3 (0, 0, 0)%Z a = a.
Proof. by destruct a as [[]]. Qed.

Lemma plus3_comm a b : plus3 a b = plus3 b a.
Proof. apply triple_eq; lia. Qed.

(** Whatever the panel answers, nothing is lost and nothing counted twice. *)
Lemma flush_traffic_spec submit_traffic others stats :
  match flush_traffic submit_traffic others stats with
  | (stats', None) => ∀ u, usage u stats = (0, 0, 0)%Z ∧ usage u stats' = (0, 0, 0)%Z
  | (stats', Some (data, Ok _)) =>
      ∀ u, in_report u data = usage u stats ∧ usage u stats' = in_ops u others
  | (stats', Some (data, Err _)) =>
      ∀ u, in_report u data = usage u stats
        ∧ usage u stats' = plus3 (usage u stats) (in_ops u others)
  end.
Proof.
  unfold flush_traffic. pose proof (reset_law stats) as Hr.
  destruct (reset_all stats) as [t1 snaps]. simpl in Hr.
  destruct snaps as [|s0 snaps0] eqn:Hs.
  { intros u. destruct (Hr u) as [-> <-]. done. }
  rewrite <- Hs in *. destruct (submit_traffic (map to_traffic snaps)); intros u;
    destruct (Hr u) as [Hz Hu].
  - by rewrite in_report_to_traffic, apply_ops_usage, Hz, plus3_0_l.
  - rewrite in_report_to_traffic. split; [done|].
    by rewrite restore_law, apply_ops_usage, Hz, plus3_0_l, Hu, plus3_comm.
Qed.

End panel.

(** ** The bridges *)

(** [TrojanStatsCollector] and [TrojanAuthenticator] hand every call on. *)
Record TrojanStatsCollector (T : Type) := MkTrojanStats { panel_stats : T }.
Arguments MkTrojanStats {T} panel_stats.
Arguments panel_stats {T} t.

#[export] Instance trojan_stats {T} `{StatsCollector T} : StatsCollector (TrojanStatsCollector T) := {|
  record_request u t := MkTrojanStats (record_request u (panel_stats t));
  record_upload u n t := MkTrojanStats (record_upload u n (panel_stats t));
  record_download u n t := MkTrojanStats (record_download u n (panel_stats t));
|}.

(** The bridge keeps the promise of the collector behind it. *)
#[export] Program Instance trojan_stats_laws {T} `{StatsLaws T} : StatsLaws (TrojanStatsCollector T) := {|
  requests u t := requests u (panel_stats t);
  uploaded u t := uploaded u (panel_stats t);
  downloaded u t := downloaded u (panel_stats t);
|}.
Next Obligation. intros. apply request_law. Qed.
Next Obligation. intros. apply upload_law. Qed.
Next Obligation. intros. apply download_law. Qed.

Record TrojanAuthenticator (A : Type) := MkTrojanAuth { user_manager : A }.
Arguments MkTrojanAuth {A} user_manager.
Arguments user_manager {A} t.

#[export] Instance trojan_authenticator {A} `{Authenticator A} : Authenticator (TrojanAuthenticator A) := {|
  authenticate a password := authenticate (user_manager a) password;
|}.

(** ** A sample collector: the log of what was recorded *)

Module SampleStats.

#[local] Instance log_stats : StatsCollector (list Snapshot) := {|
  record_request u t := t ++ [MkSnapshot u 0 0 1];
  record_upload u n t := t ++ [MkSnapshot u n 0 0];
  record_download u n t := t ++ [MkSnapshot u 0 n 0];
|}.

Lemma tally_snoc f u t (s : Snapshot) :
  tally user_id f u (t ++ [s]) = (tally user_id f u t + if decide (user_id s = u) then f s else 0)%Z.
Proof. rewrite tally_app. unfold tally at 2. simpl. lia. Qed.

#[local] Program Instance log_laws : StatsLaws (list Snapshot) := {|
  requests u t := tally user_id request_count u t;
  uploaded u t := tally user_id upload_bytes u t;
  downloaded u t := tally user_id download_bytes u t;
|}.
Next Obligation. intros. simpl. rewrite !tally_snoc. simpl. case_decide; lia. Qed.
Next Obligation. intros. simpl. rewrite !tally_snoc. simpl. case_decide; lia. Qed.
Next Obligation. intros. simpl. rewrite !tally_snoc. simpl. case_decide; lia. Qed.

#[local] Program Instance log_panel : PanelStats (list Snapshot) := {|
  reset_all t := ([], t);
  restore snaps t := t ++ snaps;
|}.
Next Obligation. done. Qed.
Next Obligation. intros. unfold usage, in_snapshots, plus3. simpl. by rewrite !tally_app. Qed.

End SampleStats.
