(* ===== verification/Main.v ===== *)
(** * The life of the process ([src/src/main.rs])

    From the command line to the exit code: what is checked before the node
    registers with the panel, what runs while it is registered, and what the
    shutdown does in which order.  The panel, the signals and the clock are the
    environment; the configuration, router, certificates and limits are those
    of the other files. *)

From S2P Require Import Prelude RustStd Protocol Dns Acl Hooks AclRouter Connection.
From S2P Require Import Logger ConfigAuto Config Server Effects Net Runner Panel.

(** ** What the panel crates are given *)

Definition CARGO_PKG_VERSION : string := "0.2.36".

(** The node type is always [Trojan]. *)
Record PanelConfig := MkPanelConfig {
  pc_api : string;
  pc_token : string;
  pc_node_id : Z;
  pc_api_timeout : Z;
  pc_debug : bool;
  pc_data_dir : string;
  pc_ip_version : IpVersion;
  pc_version : option string;
}.

Definition panel_config (cli : CliArgs) : PanelConfig := {|
  pc_api := api cli;
  pc_token := token cli;
  pc_node_id := node cli;
  pc_api_timeout := as_secs (api_timeout cli);
  pc_debug := match log_level_from_str (log_mode cli) with
              | Some Trace | Some Debug => true
              | _ => false
              end;
  pc_data_dir := cli_data_dir cli;
  pc_ip_version := panel_ip_version cli;
  pc_version := Some CARGO_PKG_VERSION;
|}.

(** The panel client is verbose exactly when the log of connections is shown. *)
Lemma panel_debug_shown `{Log.TargetFilter} cli addr event :
  pc_debug (panel_config cli)
  = Log.shown (Log.init_logger (log_mode cli) None) (Log.connection addr event).
Proof.
  destruct (Log.log_helpers_shown (log_mode cli) addr event true) as [-> _].
  cbn. by destruct (log_level_from_str (log_mode cli)) as [[]|].
Qed.

(** The intervals of [TaskConfig]: users, traffic, heartbeat. *)
Definition task_config (cli : CliArgs) : Z * Z * Z :=
  (fetch_users_interval cli, report_traffics_interval cli, heartbeat_interval cli).


(** What the process does to the panel and to itself. *)
Inductive main_action {Tls : Type} : Type :=
| MLogger (subscriber : Log.Subscriber)
| MPanel (config : PanelConfig)
| MFetchConfig
| MInitialize (port : Z) (ok : bool)
| MFetchUsers
| MBackgroundStart (intervals : Z * Z * Z)
| MRunServer (sc : ServerConfig) (cc : ConnConfig) (tls : option Tls)
| MCancelAll (n : nat)
| MDrained (remaining : nat)
| MSubmit (data : list UserTraffic) (r : result unit string)
| MUnregister
| MBackgroundShutdown.
#[global] Arguments main_action Tls : clear implicits.

(** ** Draining *)

(** The loop that waits for cancelled connections to end: turn [i] reads the
    number of connections and the milliseconds since it began. *)
Definition DRAIN_DEADLINE : Z := 5000.

Fixpoint drain (fuel : nat) (reading : nat → nat * Z) (i : nat) : option nat :=
  match fuel with
  | 0 => None
  | S fuel' =>
      let '(remaining, now) := reading i in
      if remaining =? 0 then Some 0
      else if (DRAIN_DEADLINE <=? now)%Z then Some remaining
      else drain fuel' reading (S i)
  end.


(** ** Removed users *)

(** The callback of the background task that follows the panel's users. *)
Definition on_user_diff (removed_ids uuid_changed_ids : list UserId) (m : ConnectionManager)
    : ConnectionManager :=
  foldl (λ m u, (kick_user u m).2) m (removed_ids ++ uuid_changed_ids).

Lemma kick_all_spec us m :
  manager_wf m →
  let m' := foldl (λ m u, (kick_user u m).2) m us in
  connections m' = connections m
  ∧ ∀ tok, tok ∈ cancelled m' ↔
      tok ∈ cancelled m
      ∨ ∃ id c, connections m !! id = Some c ∧ info_user c ∈ us ∧ cancel_token c = tok.
Proof.
  revert m. induction us as [|u us IH]; intros m Hwf; cbn [foldl].
  { split; [done|]. intros tok. split; [by left|]. intros [|(? & ? & _ & []%elem_of_nil & _)]; done. }
  pose proof (kick_user_spec m u Hwf) as Hk. pose proof (kick_user_wf m u Hwf) as Hwf'.
  destruct (kick_user u m) as [n m1]. destruct Hk as (_ & Hc & _ & Htok). cbn [snd] in *.
  destruct (IH m1 Hwf') as [Hc' Htok']. split; [by rewrite Hc', Hc|]. intros tok.
  rewrite Htok', Htok, Hc. setoid_rewrite elem_of_cons. naive_solver.
Qed.

(** ** The process *)

(** What a panic of any task does: the release profile of [Cargo.toml] aborts the
    process, the others unwind the task. *)
Inductive panic_strategy : Type := Unwind | Abort.

(** How the process ends: [main] returns, or it is aborted. *)
Inductive exit : Type :=
| Returned (r : result unit string)
| Aborted.

Section main.
Context `{AclLib, BindProbe, AclFiles, Pem, HumanTime, FileSystem, Host, Sockets, PanelStats T}.
Context {A D User : Type}.

(** What the process meets: the panel's answers, whether the handlers of SIGINT
    and SIGTERM can be installed, how the accept loop ended ([None] if a signal
    came first), and what the shutdown finds.  [profile] is how it was built;
    [abort_at] is how far the main task has come, counted in actions since the
    handler task was spawned, when a panic of that task aborts the process. *)
Record main_env := MkMainEnv {
  serde_json : string → result TrojanConfig string;
  panel_new : PanelConfig → result unit string;
  fetch_config : result NodeConfigEnum string;
  initialize : Z → result unit string;
  fetch_users : result (option (list User)) string;
  new_users : A;
  init_users : list User → A → A;
  new_stats : T;
  new_dns_cache : D;
  served : Server.Server (TrojanAuthenticator A) (TrojanStatsCollector T) built_router D →
    option (result unit string);
  manager_at_end : ConnectionManager;
  stats_at_end : T;
  reading : nat → nat * Z;
  sigint_setup : result unit string;
  sigterm_setup : result unit string;
  profile : panic_strategy;
  abort_at : nat;
  submit_traffic : list UserTraffic → result unit string;
  others : list stat_op;
}.

(** [None] is a panic of the main task; otherwise what was done, and how it
    ended. *)
Definition outcome : Type := option (list (main_action RustlsConfig) * exit).

Definition act (a : main_action RustlsConfig) (k : outcome) : outcome :=
  '(trace, r) ← k; Some (a :: trace, r).

(** [r?] of a startup step. *)
Definition proceed {B} (r : result B string) (k : B → outcome) : outcome :=
  match r with Ok b => k b | Err e => Some ([], Returned (Err e)) end.

(** The task that waits for a signal or for the token, which is cancelled when
    the server has stopped: both handlers must be installed, or it panics. *)
Definition handler_installed (env : main_env) : bool :=
  match sigint_setup env with
  | Err _ => false
  | Ok _ => match sigterm_setup env with Err _ => false | Ok _ => true end
  end.

(** A panic of that task ends a process built to abort, at some point before the
    main task has seen the handle join: [k] is what the main task would do. *)
Definition beside_handler (env : main_env) (k : outcome) : outcome :=
  match handler_installed env, profile env with
  | false, Abort => '(trace, _) ← k; Some (take (abort_at env) trace, Aborted)
  | _, _ => k
  end.

(** [select!] of [run_server] and the token. *)
Definition server_result (env : main_env) (sc : ServerConfig) (cc : ConnConfig)
    (server : Server.Server (TrojanAuthenticator A) (TrojanStatsCollector T) built_router D)
    : result unit string :=
  match served env server with
  | None => Ok tt
  | Some accept_loop => run_server (port sc) (tcp_backlog cc) accept_loop
  end.

(** After the server has stopped.  A report is submitted while the node is still
    registered; the background tasks end last; nothing of this happens if the
    handle of the handler task gives a [JoinError]. *)
Definition graceful_shutdown (env : main_env) (ended : result unit string) : outcome :=
  let n := (cancel_all (manager_at_end env)).1 in
  drained ← (if n =? 0 then Some [] else (λ k, [MDrained k]) <$> drain 51 (reading env) 0);
  let report :=
    match (flush_traffic (submit_traffic env) (others env) (stats_at_end env)).2 with
    | Some (data, r) => [MSubmit data r]
    | None => []
    end in
  Some (MCancelAll n :: drained
          ++ (if handler_installed env then report ++ [MUnregister; MBackgroundShutdown] else []),
        Returned ended).

Definition main (env : main_env) (cli : CliArgs) : outcome :=
  proceed (validate cli) (λ _,
  subscriber ← Log.init_logger (log_mode cli) None;
  act (MLogger subscriber) (
  act (MPanel (panel_config cli)) (
  proceed (panel_new env (panel_config cli)) (λ _,
  act MFetchConfig (
  proceed (fetch_config env) (λ node_config,
  proceed (parse_trojan_config (serde_json env) node_config) (λ remote_config,
  let server_config := from_remote remote_config cli in
  proceed (build_router server_config (refresh_geodata cli)) (λ rt,
  loaded ← load_tls server_config;
  proceed (map_err err_msg loaded) (λ tls_config,
  match initialize env (server_port remote_config) with
  | Err e => act (MInitialize (server_port remote_config) false) (Some ([], Returned (Err e)))
  | Ok _ =>
      act (MInitialize (server_port remote_config) true) (
      act MFetchUsers (
      match fetch_users env with
      | Err e => act MUnregister (Some ([], Returned (Err e)))
      | Ok users =>
          let um := match users with
                    | Some us => init_users env us (new_users env)
                    | None => new_users env
                    end in
          let resolved_max := resolve (cli_max_connections cli) in
          let cc := from_cli cli (rm_value resolved_max) in
          server ← build (Builder.dns_cache (new_dns_cache env) (
                          Builder.conn_config cc (
                          Builder.conn_manager manager_new (
                          Builder.router rt (
                          Builder.stats (MkTrojanStats (new_stats env)) (
                          Builder.authenticator (MkTrojanAuth um) builder_new))))));
          act (MBackgroundStart (task_config cli)) (
          beside_handler env (
          act (MRunServer server_config cc tls_config) (
          _ ← run_server_start (max_connections cc);
          graceful_shutdown env (server_result env server_config cc server))))
      end))
  end))))))))).

(** ** What every run looks like *)

Definition is_unregister {Tls} (a : main_action Tls) : bool :=
  match a with MUnregister => true | _ => false end.









End main.


(** ** The properties *)


(** When the panel drops a user or changes a user's key, exactly the
    connections of those users are cancelled, whatever connections there are. *)
Theorem user_diff_kicks_exact removed_ids uuid_changed_ids m :
  manager_wf m →
  let m' := on_user_diff removed_ids uuid_changed_ids m in
  connections m' = connections m
  ∧ ∀ tok, tok ∈ cancelled m' ↔
      tok ∈ cancelled m
      ∨ ∃ id c, connections m !! id = Some c ∧ cancel_token c = tok
          ∧ (info_user c ∈ removed_ids ∨ info_user c ∈ uuid_changed_ids).
Proof.
  intros Hwf. destruct (kick_all_spec (removed_ids ++ uuid_changed_ids) m Hwf) as [Hc Ht].
  split; [exact Hc|]. intros tok. rewrite (Ht tok). setoid_rewrite elem_of_app. naive_solver.
Qed.

Lemma user_diff_kicks_exact_witness :
  manager_wf (mgr one_client)
  ∧ 0 ∈ cancelled (on_user_diff [3%Z] [7%Z] (mgr one_client)).
Proof.
  split; [exact one_client_wf|].
  apply (proj2 (user_diff_kicks_exact [3%Z] [7%Z] (mgr one_client) one_client_wf)).
  right. exists 1%Z, (MkActive 7%Z 0). split; [reflexivity|]. split; [reflexivity|].
  right. by apply list_elem_of_singleton.
Defined.

(** ** A sample run *)

#[local] Existing Instance SampleAcl.sample_lib.
#[local] Existing Instance SampleAcl.sample_probe.
#[local] Existing Instance SampleConfig.time.
#[local] Existing Instance SampleConfig.fs.
#[local] Existing Instance SampleConfig.host.
#[local] Existing Instance SampleStats.log_stats.
#[local] Existing Instance SampleStats.log_laws.
#[local] Existing Instance SampleStats.log_panel.

Module SampleMain.

#[local] Instance sample_files : AclFiles := {|
  read_to_string _ := Err "no such file";
  yaml_from_str _ := Err "empty";
|}.

#[local] Instance sample_pem : Pem := {|
  Certificate := unit;
  PrivateKey := unit;
  Ticketer := unit;
  RustlsConfig := list (list byte);
  file_open _ := Ok [];
  pem_certs _ := [Ok tt];
  pem_private_key _ := Ok (Some tt);
  with_single_cert _ _ := Ok [];
  ticketer_new := Ok tt;
  set_ticketer _ c := c;
  set_alpn a _ := a;
|}.

#[local] Instance sample_sockets : Sockets := {|
  Socket := unit;
  TcpListener := unit;
  socket_new _ := Ok tt;
  set_reuse_address _ := Ok;
  set_nonblocking _ := Ok;
  set_only_v6 _ := Ok;
  sock_bind _ := Ok;
  sock_listen _ := Ok;
  from_std := Ok;
  local_addr _ := Ok (any_v6 443);
|}.

(** A signal ends the server while one client is connected; it drains at once. *)
Definition env (sigint : result unit string) : main_env (A := unit) (D := unit) (User := unit) := {|
  serde_json _ := Ok (MkTrojanConfig 443 (Some "grpc") None None);
  panel_new _ := Ok tt;
  fetch_config := Ok (TrojanNode "{}");
  initialize _ := Ok tt;
  fetch_users := Ok (Some [tt]);
  new_users := tt;
  init_users _ a := a;
  new_stats := [];
  new_dns_cache := tt;
  served _ := None;
  manager_at_end := mgr one_client;
  stats_at_end := [MkSnapshot 7%Z 10 20 1];
  reading i := (0, (100 * Z.of_nat i)%Z);
  sigint_setup := sigint;
  sigterm_setup := Ok tt;
  profile := Abort;
  abort_at := 1;
  submit_traffic _ := Ok tt;
  others := [];
|}.

Example sample_trace :
  (λ o, map is_unregister o.1) <$> main (env (Ok tt)) SampleConfig.cli
  = Some [false; false; false; false; false; false; false; false; false; false; true; false].
Proof. vm_compute. reflexivity. Qed.

End SampleMain.

#[local] Existing Instance SampleMain.sample_files.
#[local] Existing Instance SampleMain.sample_pem.
#[local] Existing Instance SampleMain.sample_sockets.

