(* ===== verification/Service.v ===== *)
(** * The running server: accept loop, connection tasks and manager together

    [src/src/server_runner.rs] spawns the tasks of [src/src/handler.rs], and all
    of them share one connection manager of [src/src/core/connection.rs], which
    the panel's updates and the shutdown also reach.  A state of the service holds
    the accept loop ([Runner]), the manager, the program each session still has
    to run ([Handler], [Udp]) and the kicks under way; a step is one event of the
    accept loop, one effect of one session, the drop of a session whose HTTP/2
    connection has ended, or one atomic access to the manager. *)

From S2P Require Import Prelude RustStd Protocol Dns Acl Hooks AsyncIo Relay Connection Config Server.
From S2P Require Import Effects Handler Udp UdpSession Net Runner Main.
#[local] Open Scope prog_scope.

(** Where a session is inside an operation of the manager. *)
Inductive manager_op : Type :=
| OpInsert (u : UserId) (id : ConnectionId)
| OpIndex (u : UserId) (id : ConnectionId) (tok : nat)
| OpUnindex (u : UserId) (id : ConnectionId).

Section service.
Context {A T R D : Type} `{AclLib, DnsCache D, !OutboundRouter R D, Authenticator A}.
Variable srv : Server A T R D.
Variable transport : TransportType.
Variable tls : bool.
Variable rounds : nat.

(** What a session has done, what it still has to do, and where it is inside a
    call of the manager. *)
Record session := MkSess {
  s_past : list event;
  s_rest : prog (result unit string);
  s_op : option manager_op;
}.

Record service := MkService {
  sv_runner : runner;
  sv_mgr : ConnectionManager;
  sv_sessions : gmap nat session;
  sv_kicks : gmap nat (list ConnectionId);
}.

Definition new_session : session :=
  MkSess [] (process_connection srv transport (handle_udp_associate rounds (conn_config srv))) None.

(** The tasks and streams that run [process_connection]. *)
Definition session_ids (r : runner) : gset nat :=
  dom (filter (λ kv, is_session kv.2 = true) (Runner.tasks r)) ∪ dom (streams r).

(** A session begins when its task gets to [process_connection]. *)
Definition launch (r : runner) (live : gmap nat session) : gmap nat session :=
  live ∪ gset_to_gmap new_session (session_ids r).

(** The end of [process_connection] ends its task or its stream. *)
Definition end_event (r : runner) (id : nat) (res : result unit string) : runner_event :=
  match streams r !! id with Some _ => StreamDone id | None => TaskDone id res end.

(** An event of the accept loop that does not end a session. *)
Definition keeps_sessions (r : runner) (ev : runner_event) : Prop :=
  match ev with
  | TaskDone id _ => match Runner.tasks r !! id with Some (PSession _) => False | _ => True end
  | StreamDone _ => False
  | _ => True
  end.

Definition is_manager_call (e : eff) : bool :=
  match e with ERegister _ | EUnregister _ => true | _ => false end.

(** The effects during which a session is suspended at an [await]: only there can
    its future be dropped. *)
Definition is_await (e : eff) : bool :=
  match e with
  | ERegister _ | EUnregister _ | EGuard _ | ERecordRequest _ | ERecordUpload _ _
  | ERecordDownload _ _ | ETune _ | EElapsedSecs => false
  | _ => true
  end.

(** The registration a session holds after the events [t]. *)
Definition hold (h : option (UserId * ConnectionId * nat)) (ev : event)
    : option (UserId * ConnectionId * nat) :=
  match ev with
  | Ev (ERegister u) (id, tok) => Some (u, id, tok)
  | Ev (EUnregister _) _ => None
  | _ => h
  end.
Definition held (t : list event) : option (UserId * ConnectionId * nat) := foldl hold None t.

(** The scope guard a session holds after the events [t], and what dropping the
    session runs: its guard, if it holds one. *)
Definition arm_guard (g : option ConnectionId) (ev : event) : option ConnectionId :=
  match ev_eff ev with EGuard id => Some id | EUnregister _ => None | _ => g end.
Definition guarded (t : list event) : option ConnectionId := foldl arm_guard None t.

Definition drop_glue (t : list event) : prog (result unit string) :=
  match guarded t with
  | Some id => trigger (EUnregister id) ;; Ret (Err "cancelled")
  | None => Ret (Err "cancelled")
  end.

(** The answers that report the session's token as cancelled. *)
Definition cut (ev : event) : bool :=
  match ev with
  | Ev (ERelay _ _ _) Kicked | Ev (ESelect None _) CancelArm | Ev (ESelect (Some _) _) (inl CancelArm) => true
  | _ => false
  end.

Definition may_answer (m : ConnectionManager) (t : list event) (ev : event) : Prop :=
  cut ev = true → ∃ u id tok, held t = Some (u, id, tok) ∧ tok ∈ cancelled m.

(** [sv_drop]: the HTTP/2 connection [c] of a gRPC stream has ended and cancelled
    its handlers, so the task of the stream drops [process_connection] where it
    is suspended. *)
Inductive service_step : service → service → Prop :=
| sv_run r m live kicks ev :
    keeps_sessions r ev →
    let r' := (runner_step tls transport ev r).1 in
    service_step (MkService r m live kicks) (MkService r' m (launch r' live) kicks)
| sv_effect r m live kicks i t e k x :
    live !! i = Some (MkSess t (Vis e k) None) → is_manager_call e = false →
    may_answer m t (Ev e x) →
    service_step (MkService r m live kicks)
      (MkService r m (<[i := MkSess (t ++ [Ev e x]) (k x) None]> live) kicks)
| sv_fetch r m live kicks i t u k id m' :
    live !! i = Some (MkSess t (Vis (ERegister u) k) None) →
    (next_conn_id m < u64_max)%Z → fetch_id m = (id, m') →
    service_step (MkService r m live kicks)
      (MkService r m' (<[i := MkSess t (Vis (ERegister u) k) (Some (OpInsert u id))]> live) kicks)
| sv_insert r m live kicks i t p u id tok m' :
    live !! i = Some (MkSess t p (Some (OpInsert u id))) → insert_conn id u m = (tok, m') →
    service_step (MkService r m live kicks)
      (MkService r m' (<[i := MkSess t p (Some (OpIndex u id tok))]> live) kicks)
| sv_index r m live kicks i t v k u id tok :
    live !! i = Some (MkSess t (Vis (ERegister v) k) (Some (OpIndex u id tok))) →
    service_step (MkService r m live kicks)
      (MkService r (index_conn u id m)
         (<[i := MkSess (t ++ [Ev (ERegister v) (id, tok)]) (k (id, tok)) None]> live) kicks)
| sv_remove r m live kicks i t id k c m' :
    live !! i = Some (MkSess t (Vis (EUnregister id) k) None) → remove_conn id m = (Some c, m') →
    service_step (MkService r m live kicks)
      (MkService r m'
         (<[i := MkSess t (Vis (EUnregister id) k) (Some (OpUnindex (info_user c) id))]> live) kicks)
| sv_remove_none r m live kicks i t id k m' :
    live !! i = Some (MkSess t (Vis (EUnregister id) k) None) → remove_conn id m = (None, m') →
    service_step (MkService r m live kicks)
      (MkService r m' (<[i := MkSess (t ++ [Ev (EUnregister id) tt]) (k tt) None]> live) kicks)
| sv_unindex r m live kicks i t v k u id :
    live !! i = Some (MkSess t (Vis (EUnregister v) k) (Some (OpUnindex u id))) →
    service_step (MkService r m live kicks)
      (MkService r (unindex_conn u id m)
         (<[i := MkSess (t ++ [Ev (EUnregister v) tt]) (k tt) None]> live) kicks)
| sv_end r m live kicks i t res :
    live !! i = Some (MkSess t (Ret res) None) →
    service_step (MkService r m live kicks)
      (MkService (runner_step tls transport (end_event r i res) r).1 m (delete i live) kicks)
| sv_drop r m live kicks i t e k c :
    live !! i = Some (MkSess t (Vis e k) None) → is_await e = true →
    streams r !! i = Some c → Runner.tasks r !! c = None →
    service_step (MkService r m live kicks)
      (MkService r m (<[i := MkSess t (drop_glue t) None]> live) kicks)
| sv_kick r m live kicks j u ids :
    kicks !! j = None → user_connections m !! u = Some ids →
    service_step (MkService r m live kicks)
      (MkService r m live (<[j := elements ids]> kicks))
| sv_cancel_all r m live kicks j :
    kicks !! j = None →
    service_step (MkService r m live kicks)
      (MkService r m live (<[j := (map_to_list (connections m)).*1]> kicks))
| sv_cancel r m live kicks j id todo n m' :
    kicks !! j = Some (id :: todo) → cancel_conn id m = (n, m') →
    service_step (MkService r m live kicks) (MkService r m' live (<[j := todo]> kicks))
| sv_cancelled r m live kicks j :
    kicks !! j = Some [] →
    service_step (MkService r m live kicks) (MkService r m live (delete j kicks)).

Definition service_init (r : runner) : service := MkService r manager_new ∅ ∅.

Definition served (r0 : runner) (s : service) : Prop := rtc service_step (service_init r0) s.

(** ** What the manager sees of a session *)

Definition task_of (s : session) : option task :=
  match s_op s with
  | Some (OpInsert u id) => Some (RegInsert u id)
  | Some (OpIndex u id tok) => Some (RegIndex u id tok)
  | Some (OpUnindex u id) => Some (UnregIndex u id)
  | None => (λ '(u, id, tok), Live u id tok) <$> held (s_past s)
  end.

(** Sessions at even numbers, kicks at odd ones. *)
Definition slot (i : nat) : nat := 2 * i.
Definition kick_slot (j : nat) : nat := S (2 * j).

Definition manager_tasks (live : gmap nat session) (kicks : gmap nat (list ConnectionId))
    : gmap nat task :=
  kmap slot (omap task_of live) ∪ kmap kick_slot (Cancelling <$> kicks).

Definition manager_view (s : service) : system :=
  MkSystem (sv_mgr s) (manager_tasks (sv_sessions s) (sv_kicks s)).

#[local] Instance slot_inj : Inj (=) (=) slot.
Proof. intros i j. unfold slot. lia. Qed.
#[local] Instance kick_slot_inj : Inj (=) (=) kick_slot.
Proof. intros i j. unfold kick_slot. lia. Qed.

Lemma kicks_no_slot (m : gmap nat task) i : kmap (M2 := gmap nat) kick_slot m !! slot i = None.
Proof.
  apply eq_None_not_Some. intros [x (j & Hj & _)%lookup_kmap_Some]; [|apply _].
  unfold slot, kick_slot in Hj. lia.
Qed.

Lemma slots_no_kick (m : gmap nat task) j : kmap (M2 := gmap nat) slot m !! kick_slot j = None.
Proof.
  apply eq_None_not_Some. intros [x (i & Hi & _)%lookup_kmap_Some]; [|apply _].
  unfold slot, kick_slot in Hi. lia.
Qed.

Lemma view_slot live kicks i : manager_tasks live kicks !! slot i = live !! i ≫= task_of.
Proof.
  unfold manager_tasks. rewrite lookup_union, kicks_no_slot, (lookup_kmap slot), lookup_omap.
  by destruct (live !! i ≫= task_of).
Qed.

Lemma view_kick live kicks j :
  manager_tasks live kicks !! kick_slot j = Cancelling <$> kicks !! j.
Proof.
  unfold manager_tasks. rewrite lookup_union, slots_no_kick, (lookup_kmap kick_slot), lookup_fmap.
  by destruct (kicks !! j).
Qed.

Lemma view_move live kicks i s k :
  task_of s = Some k → manager_tasks (<[i := s]> live) kicks = <[slot i := k]> (manager_tasks live kicks).
Proof.
  intros Hs. unfold manager_tasks.
  by rewrite omap_insert, Hs, (kmap_insert slot), insert_union_l.
Qed.

Lemma delete_slot (m : gmap nat task) kicks i :
  kmap (M2 := gmap nat) slot (delete i m) ∪ kmap kick_slot kicks
  = delete (slot i) (kmap slot m ∪ kmap kick_slot kicks).
Proof.
  rewrite (kmap_delete slot), delete_union.
  by rewrite (delete_id (kmap kick_slot kicks)) by apply kicks_no_slot.
Qed.

Lemma view_drop live kicks i s :
  task_of s = None → manager_tasks (<[i := s]> live) kicks = delete (slot i) (manager_tasks live kicks).
Proof. intros Hs. unfold manager_tasks. by rewrite omap_insert, Hs, delete_slot. Qed.

Lemma view_end live kicks i :
  manager_tasks (delete i live) kicks = delete (slot i) (manager_tasks live kicks).
Proof. unfold manager_tasks. by rewrite omap_delete, delete_slot. Qed.

Lemma view_same live kicks i s s' :
  live !! i = Some s → task_of s' = task_of s →
  manager_tasks (<[i := s']> live) kicks = manager_tasks live kicks.
Proof.
  intros Hi Hs. pose proof (view_slot live kicks i) as Hl. rewrite Hi in Hl. cbn in Hl.
  destruct (task_of s) as [k|] eqn:E.
  - rewrite (view_move _ _ _ _ k) by congruence. by apply insert_id.
  - rewrite view_drop by congruence. by apply delete_id.
Qed.

Lemma view_kick_insert live kicks j l :
  manager_tasks live (<[j := l]> kicks) = <[kick_slot j := Cancelling l]> (manager_tasks live kicks).
Proof.
  unfold manager_tasks. rewrite fmap_insert, (kmap_insert kick_slot).
  symmetry. apply insert_union_r, slots_no_kick.
Qed.

Lemma view_kick_delete live kicks j :
  manager_tasks live (delete j kicks) = delete (kick_slot j) (manager_tasks live kicks).
Proof.
  unfold manager_tasks. rewrite fmap_delete, (kmap_delete kick_slot), delete_union.
  by rewrite (delete_id (kmap slot _)) by apply slots_no_kick.
Qed.

(** ** The histories of a session *)

Lemma split_unique {X} (P : X → Prop) l1 x l2 m1 y m2 :
  l1 ++ x :: l2 = m1 ++ y :: m2 → P x → Forall (λ z, ¬ P z) m1 → Forall (λ z, ¬ P z) m2 →
  l1 = m1 ∧ x = y ∧ l2 = m2.
Proof.
  revert l1. induction m1 as [|z m1 IH]; intros [|a l1] E Px N1 N2; injection E as E0 E; subst.
  - done.
  - rewrite Forall_forall in N2. destruct (N2 x); [set_solver|done].
  - by inversion_clear N1.
  - inversion_clear N1. destruct (IH l1 E) as (-> & -> & ->); auto.
Qed.

(** Calls of the manager, and the guard that is to make one. *)
Definition is_call (e : eff) : bool :=
  match e with ERegister _ | EGuard _ | EUnregister _ => true | _ => false end.

Definition no_calls (t : list event) : Prop := Forall (λ ev, is_call (ev_eff ev) = false) t.

Lemma held_no_calls t h : no_calls t → foldl hold h t = h.
Proof.
  intros Ht. revert h. induction Ht as [|[e x] t He Ht IH]; intros h; [done|]. cbn [foldl].
  rewrite IH. by destruct e.
Qed.

Lemma guarded_no_calls t g : no_calls t → foldl arm_guard g t = g.
Proof.
  intros Ht. revert g. induction Ht as [|[e x] t He Ht IH]; intros g; [done|]. cbn [foldl].
  rewrite IH. by destruct e.
Qed.

Lemma held_snoc t ev : held (t ++ [ev]) = hold (held t) ev.
Proof. unfold held. by rewrite foldl_app. Qed.

Lemma count_zero_no_calls t : count is_register t = 0 → no_calls t.
Proof.
  induction t as [|[e x] t IH]; [constructor|]. rewrite count_cons. intros Hc.
  constructor; [|apply IH; lia]. by destruct e.
Qed.

(** The user of a request that is the first thing read in [t]. *)
Definition authenticated (t : list event) (u : UserId) : Prop :=
  ∃ reads rest req, t = reads ++ rest ∧ request_typed req
    ∧ header_wire req ++ payload req = read_bytes reads
    ∧ authenticate (authenticator srv) (password req) = Some u.

(** A history calls the manager not at all, or registers once, for the user its
    request names, takes a guard for it at once, and unregisters the same
    connection last. *)
Definition calls (t : list event) (o : option (result unit string)) : Prop :=
  no_calls t
  ∨ ∃ reads u id tok body,
      t = reads ++ Ev (ERegister u) (id, tok) :: Ev (EGuard id) tt :: body
          ++ match o with Some _ => [Ev (EUnregister id) tt] | None => [] end
      ∧ no_calls reads ∧ no_calls body ∧ authenticated reads u.

Lemma lifecycle_calls t o : lifecycle srv t o → calls t o.
Proof.
  intros (reads & rest & -> & Hreads & Hrest).
  assert (Hr : no_calls reads).
  { eapply Forall_impl; [exact Hreads|]. intros [e x] He. by destruct e. }
  destruct Hrest as [(x & e & -> & ->)|(req & u & id & tok & x & body & Hty & Hreq & Hau & (_ & Hc & _) & ->)].
  - left. apply Forall_app_2; [done|]. by repeat constructor.
  - right. exists reads, u, id, tok, (Ev (ERecordRequest u) x :: body). split; [done|].
    split; [done|]. split; [constructor; [done|by apply count_zero_no_calls]|].
    exists reads, [], req. by rewrite app_nil_r.
Qed.

Lemma no_calls_no {P : event → Prop} t :
  (∀ ev, P ev → is_call (ev_eff ev) = true) → no_calls t → Forall (λ ev, ¬ P ev) t.
Proof.
  intros HP Ht. eapply Forall_impl; [exact Ht|]. intros ev Hev Hp. specialize (HP ev Hp). congruence.
Qed.

Definition registers (ev : event) : Prop := match ev_eff ev with ERegister _ => True | _ => False end.
Definition unregisters (ev : event) : Prop := match ev_eff ev with EUnregister _ => True | _ => False end.

Lemma call_no {P : event → Prop} past ev t :
  (∀ ev, P ev → is_call (ev_eff ev) = true) → P ev → ¬ no_calls (past ++ ev :: t).
Proof.
  intros HP Hev (_ & Hno%Forall_inv)%Forall_app. specialize (HP ev Hev). congruence.
Qed.

Lemma calls_register u x past t o :
  calls (past ++ Ev (ERegister u) x :: t) o → held past = None ∧ authenticated past u.
Proof.
  assert (HP : ∀ ev, registers ev → is_call (ev_eff ev) = true) by (by intros [[] ?]).
  intros [Hno|(reads & v & id & tok & body & E & Hr & Hb & Hau)];
    [by eapply (call_no (P := registers)) in Hno|].
  destruct (split_unique registers _ _ _ _ _ _ E I) as (-> & Hev & _).
  - by apply no_calls_no.
  - constructor; [by intros []|].
    apply Forall_app_2; [by apply no_calls_no|]. destruct o; repeat constructor. by intros [].
  - injection Hev as <- _. split; [by apply held_no_calls|done].
Qed.

(** What a session holds after it has registered. *)
Lemma registered_holds reads u id tok body :
  no_calls reads → no_calls body →
  let t := reads ++ Ev (ERegister u) (id, tok) :: Ev (EGuard id) tt :: body in
  held t = Some (u, id, tok) ∧ guarded t = Some id.
Proof.
  intros Hr Hb t. subst t. unfold held, guarded. rewrite !foldl_app. cbn.
  by rewrite held_no_calls, guarded_no_calls.
Qed.

Lemma calls_unregister id x past t o :
  calls (past ++ Ev (EUnregister id) x :: t) o → ∃ u tok, held past = Some (u, id, tok).
Proof.
  assert (HP : ∀ ev, unregisters ev → is_call (ev_eff ev) = true) by (by intros [[] ?]).
  intros [Hno|(reads & v & id' & tok & body & E & Hr & Hb & Hau)];
    [by eapply (call_no (P := unregisters)) in Hno|].
  assert (Hfirst : Forall (λ ev, ¬ unregisters ev)
    (reads ++ Ev (ERegister v) (id', tok) :: Ev (EGuard id') tt :: body)).
  { apply Forall_app_2; [by apply no_calls_no|]. do 2 (constructor; [by intros []|]). by apply no_calls_no. }
  destruct o as [res|].
  - rewrite !app_comm_cons, (assoc_L (++)) in E.
    destruct (split_unique unregisters _ _ _ _ _ _ E I) as (-> & Hev & _); [done|constructor|].
    injection Hev as <- _. exists v, tok. by apply registered_holds.
  - rewrite app_nil_r in E. rewrite <- E in Hfirst.
    apply Forall_app in Hfirst as [_ Hall%Forall_inv]. by destruct Hall.
Qed.

Lemma calls_ended past res : calls past (Some res) → held past = None.
Proof.
  intros [Hno|(reads & v & id & tok & body & -> & Hr & Hb & Hau)]; [by apply held_no_calls|].
  by rewrite !app_comm_cons, (assoc_L (++)), held_snoc.
Qed.

(** A session that is dropped at an [await] keeps to the same pattern. *)
Lemma calls_dropped past e x t o res :
  is_await e = true → calls (past ++ Ev e x :: t) o →
  match guarded past with
  | Some id => calls (past ++ [Ev (EUnregister id) tt]) (Some res)
  | None => calls past (Some res)
  end.
Proof.
  intros He Hc.
  assert (Hno : no_calls past →
    match guarded past with
    | Some id => calls (past ++ [Ev (EUnregister id) tt]) (Some res)
    | None => calls past (Some res)
    end).
  { intros Hp. unfold guarded. rewrite guarded_no_calls by done. by left. }
  destruct Hc as [[Hp _]%Forall_app|(reads & u & id & tok & body & E & Hr & Hb & Hau)]; [by apply Hno|].
  apply app_eq_inv in E as [(k & -> & E)|(k & -> & _)]; [|apply Forall_app in Hr as [Hr _]; by apply Hno].
  destruct k as [|a [|b k]].
  { apply (f_equal (from_option ev_eff e ∘ head)) in E. cbn in E. by subst e. }
  { apply (f_equal (λ l, from_option ev_eff e (l !! 1))) in E. cbn in E. by subst e. }
  assert (a = Ev (ERegister u) (id, tok) ∧ b = Ev (EGuard id) tt) as [-> ->].
  { pose proof (f_equal (λ l, default a (head l)) E) as E0. pose proof (f_equal (λ l, default b (head (tail l))) E) as E1.
    cbn in E0, E1. by split. }
  apply (f_equal (drop 2)) in E. cbn in E. assert (Hk : no_calls k).
  { apply app_eq_inv in E as [(k' & -> & _)|(k' & -> & E)]; [by apply Forall_app in Hb as [Hb _]|].
    destruct o; [|by destruct k']. destruct k' as [|a k']; [|by destruct k'].
    apply (f_equal (from_option ev_eff e ∘ head)) in E. cbn in E. by subst e. }
  destruct (registered_holds reads u id tok k Hr Hk) as [_ ->]. right. exists reads, u, id, tok, k.
  by rewrite <- app_assoc.
Qed.

(** ** The simulation *)

(** A session is on a path of its life, and inside the manager exactly where its
    program calls it. *)
Record sess_ok (s : session) : Prop := MkSessOk {
  so_life : post anything (s_rest s) (λ t o, calls (s_past s ++ t) o);
  so_op : match s_op s with
          | Some (OpInsert u _) | Some (OpIndex u _ _) => ∃ k, s_rest s = Vis (ERegister u) k
          | Some (OpUnindex u id) =>
              ∃ k tok, s_rest s = Vis (EUnregister id) k ∧ held (s_past s) = Some (u, id, tok)
          | None => True
          end;
  so_user : ∀ u id tok, held (s_past s) = Some (u, id, tok) → authenticated (s_past s) u;
}.

Definition all_ok (live : gmap nat session) : Prop := map_Forall (λ _, sess_ok) live.

Lemma authenticated_app t t' u : authenticated t u → authenticated (t ++ t') u.
Proof.
  intros (reads & rest & req & -> & Hr). exists reads, (rest ++ t'), req. by rewrite <- app_assoc.
Qed.

(** One answered effect. *)
Lemma sess_ok_answer t e k x :
  post anything (Vis e k) (λ t' o, calls (t ++ t') o) →
  (∀ u id tok, hold (held t) (Ev e x) = Some (u, id, tok) → authenticated t u) →
  sess_ok (MkSess (t ++ [Ev e x]) (k x) None).
Proof.
  intros Hl Hu. constructor; cbn [s_past s_rest s_op]; [|done|].
  - eapply post_mono; [apply (Hl x I)|]. intros t' o. by rewrite <- app_assoc.
  - intros u id tok. rewrite held_snoc. intros Hh. eapply authenticated_app; eauto.
Qed.

Lemma at_register t u k :
  post anything (Vis (ERegister u) k) (λ t' o, calls (t ++ t') o) →
  held t = None ∧ authenticated t u.
Proof.
  intros Hl. destruct (post_some _ _ (Hl (0%Z, 0) I)) as (t2 & o2 & Hlife). by eapply calls_register.
Qed.

Lemma at_unregister t id k :
  post anything (Vis (EUnregister id) k) (λ t' o, calls (t ++ t') o) →
  ∃ u tok, held t = Some (u, id, tok).
Proof. intros Hl. destruct (post_some _ _ (Hl tt I)) as (t2 & o2 & Hlife). by eapply calls_unregister. Qed.

Lemma sess_ok_drop t e k :
  sess_ok (MkSess t (Vis e k) None) → is_await e = true → sess_ok (MkSess t (drop_glue t) None).
Proof.
  intros [Hlife _ Huser] He. cbn [s_past s_rest] in *.
  assert (Hdrop : ∀ res, match guarded t with
    | Some id => calls (t ++ [Ev (EUnregister id) tt]) (Some res)
    | None => calls t (Some res)
    end).
  { intros res. destruct (ans_inhabited e) as [x _].
    destruct (post_some _ _ (Hlife x I)) as (t2 & o & Hc). by eapply calls_dropped. }
  constructor; cbn [s_past s_rest s_op]; [|done|done].
  unfold drop_glue. destruct (guarded t); [intros [] _|]; cbn; [apply Hdrop|rewrite app_nil_r; apply Hdrop].
Qed.

Lemma new_session_ok : (0 ≤ conn_buffer_size (conn_config srv))%Z → sess_ok new_session.
Proof.
  intros Hsize. constructor; cbn [s_past s_rest s_op new_session]; [|done|done].
  eapply post_mono; [apply process_connection_lifecycle; [done|]|intros t o; apply lifecycle_calls].
  intros pl u. apply udp_session_events.
Qed.

Lemma launch_lookup r live i s :
  launch r live !! i = Some s → live !! i = Some s ∨ s = new_session.
Proof.
  unfold launch. intros [Hs|[_ (_ & <-)%lookup_gset_to_gmap_Some]]%lookup_union_Some_raw; auto.
Qed.

Lemma view_launch r live kicks : manager_tasks (launch r live) kicks = manager_tasks live kicks.
Proof.
  unfold manager_tasks. do 2 f_equal. apply map_eq. intros i. rewrite !lookup_omap.
  unfold launch. rewrite lookup_union. destruct (live !! i) as [s|]; [by destruct (gset_to_gmap _ _ !! i)|].
  destruct (gset_to_gmap new_session (session_ids r) !! i) as [s|] eqn:E; [|done].
  apply lookup_gset_to_gmap_Some in E as [_ <-]. done.
Qed.

Lemma index_simulated m live kicks i t v k u id tok :
  all_ok live → live !! i = Some (MkSess t (Vis (ERegister v) k) (Some (OpIndex u id tok))) →
  let live' := <[i := MkSess (t ++ [Ev (ERegister v) (id, tok)]) (k (id, tok)) None]> live in
  rtc Connection.step (MkSystem m (manager_tasks live kicks))
    (MkSystem (index_conn u id m) (manager_tasks live' kicks)) ∧ all_ok live'.
Proof.
  intros Hall Hi live'. pose proof (Hall i _ Hi) as [Hlife Hop _]. cbn [s_past s_rest s_op] in *.
  pose proof (view_slot live kicks i) as Hv. rewrite Hi in Hv.
  cbn [mbind option_bind task_of s_op s_past] in Hv.
  destruct Hop as [k' [= -> _]]. destruct (at_register _ _ _ Hlife) as [Hh Hau]. unfold live'.
  rewrite (view_move _ _ _ _ (Live u id tok)) by (cbn; by rewrite held_snoc).
  split; [by apply rtc_once, s_index|]. apply map_Forall_insert_2; [|done].
  apply sess_ok_answer; [done|]. by intros u' id' tok' [= <- _ _].
Qed.

Lemma remove_simulated m live kicks i t id k c m' :
  all_ok live → Connection.inv (MkSystem m (manager_tasks live kicks)) →
  live !! i = Some (MkSess t (Vis (EUnregister id) k) None) → remove_conn id m = (Some c, m') →
  let live' := <[i := MkSess t (Vis (EUnregister id) k) (Some (OpUnindex (info_user c) id))]> live in
  rtc Connection.step (MkSystem m (manager_tasks live kicks)) (MkSystem m' (manager_tasks live' kicks))
  ∧ all_ok live'.
Proof.
  intros Hall Hinv Hi Hm live'. pose proof (Hall i _ Hi) as [Hlife _ Huser]. cbn [s_past s_rest] in *.
  pose proof (view_slot live kicks i) as Hv. rewrite Hi in Hv.
  cbn [mbind option_bind task_of s_op s_past] in Hv.
  destruct (at_unregister _ _ _ Hlife) as (u & tok & Hh). rewrite Hh in Hv.
  destruct (inv_remove _ _ _ _ _ _ Hinv Hv) as [Hr _]. rewrite Hm in Hr. injection Hr as ->.
  unfold live'. rewrite (view_move _ _ _ _ (UnregIndex u id)) by done.
  split; [eapply rtc_once, (s_remove m _ _ u id tok (MkActive u tok)); done|].
  apply map_Forall_insert_2; [|done]. constructor; [done|by exists k, tok|done].
Qed.

Lemma fetch_simulated m live kicks i t u k id m' :
  all_ok live → live !! i = Some (MkSess t (Vis (ERegister u) k) None) →
  (next_conn_id m < u64_max)%Z → fetch_id m = (id, m') →
  let live' := <[i := MkSess t (Vis (ERegister u) k) (Some (OpInsert u id))]> live in
  rtc Connection.step (MkSystem m (manager_tasks live kicks)) (MkSystem m' (manager_tasks live' kicks))
  ∧ all_ok live'.
Proof.
  intros Hall Hi Hlt Hf live'. pose proof (Hall i _ Hi) as [Hlife _ Huser]. cbn [s_past s_rest] in *.
  pose proof (view_slot live kicks i) as Hv. rewrite Hi in Hv.
  cbn [mbind option_bind task_of s_op s_past] in Hv.
  destruct (at_register _ _ _ Hlife) as [Hh Hau]. rewrite Hh in Hv. unfold live'.
  rewrite (view_move _ _ _ _ (RegInsert u id)) by done.
  split; [by apply rtc_once, s_fetch|]. apply map_Forall_insert_2; [|done].
  constructor; [done|by exists k|done].
Qed.

(** Every step of the service is a step of the manager's interleaving, or
    nothing it sees. *)
Lemma service_step_simulated s s' :
  (0 ≤ conn_buffer_size (conn_config srv))%Z →
  service_step s s' → all_ok (sv_sessions s) → Connection.inv (manager_view s) →
  rtc Connection.step (manager_view s) (manager_view s') ∧ all_ok (sv_sessions s').
Proof.
  intros Hsize Hs Hall Hinv. unfold manager_view in *.
  destruct Hs as [r m live kicks ev _ r'|r m live kicks i t e k x Hi He _
                 |r m live kicks i t u k id m' Hi Hlt Hf|r m live kicks i t p u id tok m' Hi Hm
                 |r m live kicks i t v k u id tok Hi|r m live kicks i t id k c m' Hi Hm
                 |r m live kicks i t id k m' Hi Hm|r m live kicks i t v k u id Hi
                 |r m live kicks i t res Hi|r m live kicks i t e k c Hi He _ _|r m live kicks j u ids Hj Hu
                 |r m live kicks j Hj|r m live kicks j id todo n m' Hj Hm|r m live kicks j Hj];
    cbn [sv_mgr sv_sessions sv_kicks] in *;
    try (pose proof (Hall i _ Hi) as [Hlife Hop Huser]; cbn [s_past s_rest s_op] in *;
         pose proof (view_slot live kicks i) as Hv; rewrite Hi in Hv;
         cbn [mbind option_bind task_of s_op s_past] in Hv);
    try (pose proof (view_kick live kicks j) as Hv; rewrite Hj in Hv; cbn in Hv).
  - rewrite view_launch. split; [apply rtc_refl|].
    intros i s [Hi| ->]%launch_lookup; [by eapply Hall|by apply new_session_ok].
  - assert (Hh : hold (held t) (Ev e x) = held t) by (by destruct e).
    rewrite (view_same live kicks i _ _ Hi) by (cbn; by rewrite held_snoc, Hh).
    split; [apply rtc_refl|]. apply map_Forall_insert_2; [|done]. apply sess_ok_answer; [done|].
    by rewrite Hh.
  - by apply fetch_simulated.
  - rewrite (view_move _ _ _ _ (RegIndex u id tok)) by done.
    split; [by apply rtc_once, s_insert|]. apply map_Forall_insert_2; [|done]. by constructor.
  - by apply index_simulated.
  - by apply remove_simulated.
  - destruct (at_unregister _ _ _ Hlife) as (u & tok & Hh). rewrite Hh in Hv.
    rewrite view_drop by (cbn; by rewrite held_snoc).
    split; [by eapply rtc_once, (s_remove_none m _ _ u id tok)|]. apply map_Forall_insert_2; [|done].
    by apply sess_ok_answer.
  - rewrite view_drop by (cbn; by rewrite held_snoc).
    split; [by eapply rtc_once, s_unindex|]. apply map_Forall_insert_2; [|done].
    by apply sess_ok_answer.
  - cbn in Hlife. rewrite app_nil_r in Hlife. apply calls_ended in Hlife as Hh.
    rewrite Hh in Hv. rewrite view_end, delete_id by done.
    split; [apply rtc_refl|]. by apply map_Forall_delete.
  - rewrite (view_same live kicks i _ _ Hi) by done. split; [apply rtc_refl|].
    apply map_Forall_insert_2; [|done]. by apply (sess_ok_drop _ e k).
  - rewrite view_kick_insert. split; [|done]. by eapply rtc_once, s_kick.
  - rewrite view_kick_insert. split; [|done]. by eapply rtc_once, s_cancel_all.
  - rewrite view_kick_insert. split; [|done]. by eapply rtc_once, s_cancel.
  - rewrite view_kick_delete. split; [|done]. by eapply rtc_once, s_cancelled.
Qed.

(** ** The accept loop *)

Lemma session_ids_spec r i :
  i ∈ session_ids r ↔ (∃ t, Runner.tasks r !! i = Some (PSession t)) ∨ is_Some (streams r !! i).
Proof.
  unfold session_ids. rewrite elem_of_union, !elem_of_dom. f_equiv. split.
  - intros [ph [Hph Hs]%map_lookup_filter_Some]. destruct ph; try done. eauto.
  - intros [t Ht]. exists (PSession t). by apply map_lookup_filter_Some.
Qed.

Lemma session_ids_mono r r' :
  (∀ i t, Runner.tasks r !! i = Some (PSession t) → Runner.tasks r' !! i = Some (PSession t)) →
  (∀ i, is_Some (streams r !! i) → is_Some (streams r' !! i)) →
  session_ids r ⊆ session_ids r'.
Proof.
  intros Ht Hs i. rewrite !session_ids_spec. intros [[t Hi]|Hi]; [left|right]; eauto.
Qed.

(** Permits, fresh numbers, and no number shared by a task and a stream. *)
Record loop_inv (limit : option nat) (r : runner) : Prop := MkLoopInv {
  li_runner : runner_inv limit r;
  li_disjoint : dom (Runner.tasks r) ## dom (streams r);
}.

Lemma other_phase (m : gmap nat phase) id ph i t :
  m !! id = Some ph → is_session ph = false → m !! i = Some (PSession t) → i ≠ id.
Proof. intros Hid Hph Hi ->. rewrite Hid in Hi. by injection Hi as ->. Qed.

(** A handshake changes only a task that is not a session. *)
Lemma move_task_keeps limit id ph res r :
  loop_inv limit r → Runner.tasks r !! id = Some ph → is_session ph = false →
  dom (Runner.tasks (move_task id res r).1) ## dom (streams (move_task id res r).1)
  ∧ session_ids r ⊆ session_ids (move_task id res r).1.
Proof.
  intros [_ Hd] Hid Hph. pose proof (elem_of_dom_2 _ _ _ Hid) as Hin.
  destruct res as [ph'|e]; cbn; split.
  - rewrite dom_insert_L. set_solver.
  - apply session_ids_mono; [|done]. intros i t Hi. cbn.
    rewrite lookup_insert_ne; [done|]. apply not_eq_sym. by eapply other_phase.
  - rewrite dom_delete_L. set_solver.
  - apply session_ids_mono; [|done]. intros i t Hi. cbn.
    rewrite lookup_delete_ne; [done|]. apply not_eq_sym. by eapply other_phase.
Qed.

Lemma run_step_keeps limit ev r :
  loop_inv limit r → keeps_sessions r ev →
  let r' := (runner_step tls transport ev r).1 in
  loop_inv limit r' ∧ session_ids r ⊆ session_ids r'.
Proof.
  intros Hl Hk r'. pose proof Hl as [Hi Hd].
  assert (Hi' : runner_inv limit r') by by apply runner_step_inv.
  enough (dom (Runner.tasks r') ## dom (streams r') ∧ session_ids r ⊆ session_ids r') as [? ?] by by split.
  pose proof (fresh_none _ _ (ri_tasks _ _ Hi)) as Ft. pose proof (fresh_none _ _ (ri_streams _ _ Hi)) as Fs.
  pose proof (proj2 (not_elem_of_dom _ _) Ft) as Dt. pose proof (proj2 (not_elem_of_dom _ _) Fs) as Ds.
  subst r'. destruct ev as [res| |id res|id res|id|sid|id res]; cbn [runner_step] in *.
  - by destruct (waiting r), res.
  - destruct (waiting r); [|done]. unfold spawn_connection. cbn [fst].
    destruct (acquire (permits r)); [|done]. cbn. split; [rewrite dom_insert_L; set_solver|].
    apply session_ids_mono; [|done]. intros i t Ht. cbn. rewrite lookup_insert_ne; [done|]. congruence.
  - case_bool_decide as Hid; [|done]. by eapply move_task_keeps.
  - case_bool_decide as Hid; [|done]. by eapply move_task_keeps.
  - case_bool_decide as Hid; [|done]. unfold open_grpc_stream.
    destruct (acquire (permits r)); [|done]. cbn. split; [rewrite dom_insert_L; set_solver|].
    apply session_ids_mono; [done|]. intros i Hs. cbn. rewrite lookup_insert_ne; [done|].
    intros <-. rewrite Fs in Hs. by destruct Hs.
  - done.
  - unfold keeps_sessions in Hk. destruct (Runner.tasks r !! id) as [[| | |]|] eqn:Hid; try done. cbn.
    exact (move_task_keeps limit id PGrpcLoop (Err EmptyString) r Hl Hid eq_refl).
Qed.

Lemma end_step_ids limit r i res :
  loop_inv limit r → i ∈ session_ids r →
  let r' := (runner_step tls transport (end_event r i res) r).1 in
  loop_inv limit r' ∧ session_ids r' = session_ids r ∖ {[i]}.
Proof.
  intros [Hi Hd] Hin r'. assert (Hi' : runner_inv limit r') by by apply runner_step_inv.
  subst r'. unfold end_event in *. apply session_ids_spec in Hin.
  destruct (streams r !! i) as [c|] eqn:Hs; cbn [runner_step] in *.
  - rewrite Hs in *. cbn [fst] in *. split; [split; [done|]; cbn; rewrite dom_delete_L; set_solver|].
    assert (Hno : Runner.tasks r !! i = None).
    { apply not_elem_of_dom. pose proof (elem_of_dom_2 _ _ _ Hs). set_solver. }
    apply set_eq. intros j. rewrite elem_of_difference, elem_of_singleton, !session_ids_spec. cbn.
    destruct (decide (j = i)) as [->|Hne].
    + rewrite lookup_delete_eq, Hno. split; [intros [[? ?]|[? ?]]; done|intros [_ []]; done].
    + rewrite lookup_delete_ne by done. tauto.
  - destruct Hin as [[t Ht]|[? ?]]; [|done]. rewrite Ht in *. cbn [fst] in *.
    split; [split; [done|]; cbn; rewrite dom_delete_L; set_solver|].
    apply set_eq. intros j. rewrite elem_of_difference, elem_of_singleton, !session_ids_spec. cbn.
    destruct (decide (j = i)) as [->|Hne].
    + rewrite lookup_delete_eq, Hs. split; [intros [[? ?]|[? ?]]; done|intros [_ []]; done].
    + rewrite lookup_delete_ne by done. tauto.
Qed.

Lemma session_ids_size limit r : loop_inv limit r → size (session_ids r) = sessions r.
Proof.
  intros [_ Hd]. unfold session_ids, sessions. rewrite size_union, !size_dom; [done|].
  pose proof (dom_filter_subseteq (λ kv, is_session kv.2 = true) (Runner.tasks r)). set_solver.
Qed.

(** ** The service *)

Record service_inv (limit : option nat) (s : service) : Prop := MkServiceInv {
  sv_loop : loop_inv limit (sv_runner s);
  sv_dom : dom (sv_sessions s) = session_ids (sv_runner s);
  sv_ok : all_ok (sv_sessions s);
  sv_view : Connection.reachable (manager_view s);
}.

Lemma service_step_inv limit s s' :
  (0 ≤ conn_buffer_size (conn_config srv))%Z →
  service_inv limit s → service_step s s' → service_inv limit s'.
Proof.
  intros Hsize [Hl Hdom Hok Hv] Hs.
  destruct (service_step_simulated s s' Hsize Hs Hok (inv_reachable _ Hv)) as [Hsim Hok'].
  assert (Hv' : Connection.reachable (manager_view s')) by (by unfold Connection.reachable in *; etrans).
  enough (loop_inv limit (sv_runner s') ∧ dom (sv_sessions s') = session_ids (sv_runner s')) as [? ?]
    by by constructor.
  clear Hok Hok' Hv Hv' Hsim.
  destruct Hs as [r m live kicks ev Hk r'|r m live kicks i t e k x Hi He Ha| | | | | |
                 |r m live kicks i t res Hi| | | | |]; cbn [sv_runner sv_sessions] in *;
    try done; try (split; [done|]; rewrite dom_insert_L, <- Hdom;
                   match goal with Hi : _ !! ?i = Some _ |- _ => pose proof (elem_of_dom_2 _ _ _ Hi) end;
                   set_solver).
  - destruct (run_step_keeps limit ev r Hl Hk) as [Hl' Hsub]. split; [done|].
    unfold launch. rewrite dom_union_L, dom_gset_to_gmap, Hdom. fold r'. fold r' in Hsub. set_solver.
  - apply elem_of_dom_2 in Hi as Hin. rewrite Hdom in Hin.
    destruct (end_step_ids limit r i res Hl Hin) as [Hl' ->]. split; [done|].
    by rewrite dom_delete_L, Hdom.
Qed.

Lemma served_inv max_connections r0 s :
  (0 ≤ conn_buffer_size (conn_config srv))%Z →
  run_server_start max_connections = Some r0 → served r0 s →
  service_inv (limit_of max_connections) s.
Proof.
  intros Hsize Hr0 Hs.
  assert (Hempty : Runner.tasks r0 = ∅ ∧ streams r0 = ∅).
  { revert Hr0. unfold run_server_start. destruct (_ <? _)%Z; [destruct (_ <=? _)%Z|]; by intros [= <-]. }
  destruct Hempty as [Ht Hst].
  assert (H0i : service_inv (limit_of max_connections) (service_init r0)).
  { constructor; cbn.
    - split; [by apply run_server_start_inv|]. rewrite Ht, Hst. set_solver.
    - apply set_eq. intros i. rewrite session_ids_spec, Ht, Hst, !lookup_empty, dom_empty_L. split.
      + set_solver.
      + intros [[? ?]|[? ?]]; done.
    - apply map_Forall_empty.
    - unfold manager_view, manager_tasks. cbn. rewrite omap_empty, fmap_empty, !kmap_empty, map_union_empty.
      apply rtc_refl. }
  induction Hs; eauto using service_step_inv.
Qed.

(** A session registered with the manager, whatever it is doing there. *)
Lemma registered_session live kicks t k id :
  manager_tasks live kicks !! t = Some k → task_id k = Some id →
  ∃ i s, t = slot i ∧ live !! i = Some s ∧ task_of s = Some k.
Proof.
  intros Hk Hid. unfold manager_tasks in Hk. apply lookup_union_Some_raw in Hk as [Hk|[_ Hk]].
  - apply (lookup_kmap_Some slot) in Hk as (i & -> & Hk). rewrite lookup_omap in Hk.
    apply bind_Some in Hk as (s & Hs & Hk). eauto.
  - apply (lookup_kmap_Some kick_slot) in Hk as (j & -> & Hk). rewrite lookup_fmap in Hk.
    apply fmap_Some in Hk as (l & _ & ->). done.
Qed.

Lemma registered_user s u id k :
  sess_ok s → task_of s = Some k → task_conn k = Some (id, u) → authenticated (s_past s) (info_user u).
Proof.
  intros [Hlife Hop Huser]. unfold task_of.
  destruct (s_op s) as [[v i|v i tok|v i]|]; try (by intros [= <-]).
  - intros [= <-] [= <- <-]. destruct Hop as [k' Hk]. rewrite Hk in Hlife.
    by destruct (at_register _ _ _ Hlife).
  - intros (((v & i) & tok) & Hh & ->)%fmap_Some [= <- <-]. by eapply Huser.
Qed.

Lemma connections_bounded s :
  Connection.inv (manager_view s) → connection_count (sv_mgr s) ≤ size (sv_sessions s).
Proof.
  intros Hinv. unfold connection_count. rewrite <- !(size_dom (D := gset _)).
  apply (size_cover (λ i, ses ← sv_sessions s !! i; k ← task_of ses; task_id k)).
  intros id [c Hc]%elem_of_dom. apply (inv_conns _ Hinv) in Hc as (t & k & Hk & Hf).
  apply task_conn_id in Hf. destruct (registered_session _ _ _ _ _ Hk Hf) as (i & ses & -> & Hi & Ht).
  exists i. split; [by apply elem_of_dom_2 in Hi|]. rewrite Hi. cbn. by rewrite Ht.
Qed.

(** C2: the running server refines its parts.  However sockets arrive, sessions
    interleave, clients, remotes, kicks and the shutdown act, also when an HTTP/2
    connection ends and its sessions are dropped at whatever [await] they have got
    to, and between any two atomic accesses to the manager: the manager is in a state its own
    interleavings allow, so what holds of those holds here; there are at most as
    many registered connections as sessions, and as many sessions as the accept
    loop counts, at most [max_connections]; a registered connection belongs to a
    session whose client authenticated as that user; no session panics; and once
    no session is left, nothing is left in the manager's maps: a session that is
    dropped has its registration removed by its scope guard. *)
Theorem service_sound max_connections r0 s :
  (0 ≤ conn_buffer_size (conn_config srv))%Z →
  run_server_start max_connections = Some r0 → served r0 s →
  Connection.reachable (manager_view s)
  ∧ connection_count (sv_mgr s) ≤ size (sv_sessions s)
  ∧ size (sv_sessions s) = sessions (sv_runner s)
  ∧ match limit_of max_connections with Some max => sessions (sv_runner s) ≤ max | None => True end
  ∧ (∀ id c, connections (sv_mgr s) !! id = Some c →
       ∃ i ses, sv_sessions s !! i = Some ses ∧ authenticated (s_past ses) (info_user c))
  ∧ (∀ i ses, sv_sessions s !! i = Some ses → s_rest ses ≠ Crash)
  ∧ (sv_sessions s = ∅ → connections (sv_mgr s) = ∅ ∧ user_connections (sv_mgr s) = ∅).
Proof.
  intros Hsize Hr0 Hs. destruct (served_inv _ _ _ Hsize Hr0 Hs) as [Hl Hdom Hok Hv].
  pose proof (inv_reachable _ Hv) as Hinv. split_and!; [done|by apply connections_bounded|..].
  - rewrite <- (session_ids_size _ _ Hl), <- Hdom. by rewrite size_dom.
  - destruct (limit_of max_connections); [|done]. by apply sessions_bounded, Hl.
  - intros id c (t & k & Hk & Hf)%(inv_conns _ Hinv).
    destruct (registered_session _ _ _ _ _ Hk (task_conn_id _ _ _ Hf)) as (i & ses & -> & Hi & Ht).
    exists i, ses. split; [done|]. by eapply registered_user; [eapply Hok| |].
  - intros i ses Hi. destruct (Hok i ses Hi) as [Hlife _ _]. intros Hc. by rewrite Hc in Hlife.
  - intros Hnone. assert (Hno : ∀ t k id, manager_tasks (sv_sessions s) (sv_kicks s) !! t = Some k →
      task_id k ≠ Some id).
    { intros t k id Hk Hid. destruct (registered_session _ _ _ _ _ Hk Hid) as (i & ses & _ & Hi & _).
      by rewrite Hnone, lookup_empty in Hi. }
    split; apply map_empty; intros x; apply eq_None_not_Some.
    + intros [c (t & k & Hk & Hf)%(inv_conns _ Hinv)]. by eapply Hno, task_conn_id.
    + intros [ids Hids]. destruct (decide (ids = ∅)) as [->|Hne]; [by apply (inv_nonempty _ Hinv x)|].
      apply set_choose_L in Hne as [id Hid].
      assert (id ∈ index_of (sv_mgr s) x) as (t & k & Hk & Hf)%(inv_index _ Hinv).
      { unfold index_of. by rewrite Hids. }
      by eapply Hno, task_entry_id.
Qed.

(** C20: removing a user misses a session that is about to register.  In any state
    the server can be in, take a session that has authenticated as [u] and has
    not registered yet while no other connection of [u] is registered.  The
    panel's removal of [u] then finds nothing to cancel, and the session can go
    on to register and be served with a token nobody cancels. *)
Theorem removal_misses_registering max_connections r0 s i t u k :
  (0 ≤ conn_buffer_size (conn_config srv))%Z →
  run_server_start max_connections = Some r0 → served r0 s →
  sv_sessions s !! i = Some (MkSess t (Vis (ERegister u) k) None) →
  user_connections (sv_mgr s) !! u = None → (next_conn_id (sv_mgr s) < u64_max)%Z →
  on_user_diff [u] [] (sv_mgr s) = sv_mgr s
  ∧ ∃ s' id tok, served r0 s'
      ∧ sv_sessions s' !! i = Some (MkSess (t ++ [Ev (ERegister u) (id, tok)]) (k (id, tok)) None)
      ∧ connections (sv_mgr s') !! id = Some (MkActive u tok) ∧ tok ∉ cancelled (sv_mgr s').
Proof.
  intros Hsize Hr0 Hs Hi Hu Hlt. destruct (served_inv _ _ _ Hsize Hr0 Hs) as [_ _ _ Hv].
  pose proof (inv_cancelled _ (inv_reachable _ Hv)) as Hc. cbn in Hc.
  destruct s as [r m live kicks]. cbn [sv_mgr sv_sessions] in *. split.
  { unfold on_user_diff, kick_user. cbn. by rewrite Hu. }
  eexists _, (next_conn_id m), (next_token m). split_and!.
  - unfold served in *. etrans; [exact Hs|].
    eapply rtc_l; [by eapply sv_fetch|]. eapply rtc_l; [eapply sv_insert; [apply lookup_insert_eq|done]|].
    apply rtc_once. eapply sv_index. apply lookup_insert_eq.
  - apply lookup_insert_eq.
  - cbn. apply lookup_insert_eq.
  - cbn. intros Hin%Hc. lia.
Qed.

End service.

(** ** A sample service *)

Module SampleService.

#[local] Existing Instance SampleAcl.sample_lib.
#[local] Existing Instance SampleSession.one_user.
#[local] Existing Instance SampleSession.no_dns.

(** Two permits; one plain TCP client has been accepted. *)
Definition r0 : runner := MkRunner (Some 2) false ∅ ∅ 0.
Definition r1 : runner := (runner_step false Tcp (Accept (Ok tt)) r0).1.
Definition r2 : runner := (runner_step false Tcp PermitGranted r1).1.

Definition fresh : session := new_session SampleSession.server Tcp 3.

Definition accepted : service :=
  MkService r2 manager_new (launch SampleSession.server Tcp 3 r2 (launch SampleSession.server Tcp 3 r1 ∅)) ∅.

Lemma accepted_served : served SampleSession.server Tcp false 3 r0 accepted.
Proof.
  eapply rtc_l; [apply (sv_run SampleSession.server Tcp false 3 r0 manager_new ∅ ∅ (Accept (Ok tt))); exact I|].
  eapply rtc_l; [apply (sv_run SampleSession.server Tcp false 3 r1 manager_new _ ∅ PermitGranted); exact I|].
  apply rtc_refl.
Qed.

Definition request_read : event :=
  Ev EReadRequest (Done (Ok (header_wire SampleSession.request ++ payload SampleSession.request))).

(** The client's request has been read and its user is known. *)
Lemma reads_then_registers :
  ∃ k k', s_rest fresh = Vis EReadRequest k
    ∧ k (Done (Ok (header_wire SampleSession.request ++ payload SampleSession.request)))
      = Vis (ERegister 7%Z) k'.
Proof. eexists _, _. split; reflexivity. Qed.

Lemma about_to_register :
  ∃ live k, served SampleSession.server Tcp false 3 r0 (MkService r2 manager_new live ∅)
    ∧ live !! 0 = Some (MkSess [request_read] (Vis (ERegister 7%Z) k) None).
Proof.
  destruct reads_then_registers as (k & k' & Hk & Hk').
  assert (Hlive : sv_sessions accepted !! 0 = Some (MkSess [] (Vis EReadRequest k) None))
    by (rewrite <- Hk; reflexivity).
  eexists _, k'. split.
  - eapply rtc_r; [exact accepted_served|]. 
    by apply (sv_effect _ _ _ _ _ _ _ _ 0 [] EReadRequest k (ev_ans request_read) Hlive).
  - rewrite <- Hk'. apply lookup_insert_eq.
Qed.

Lemma one_registered :
  ∃ live, served SampleSession.server Tcp false 3 r0
    (MkService r2 (mgr one_client) live ∅).
Proof.
  destruct about_to_register as (live & k & Hs & Hi). eexists.
  eapply rtc_r; [|eapply sv_index, lookup_insert_eq].
  eapply rtc_r; [|eapply sv_insert; [apply lookup_insert_eq|reflexivity]].
  eapply rtc_r; [exact Hs|]. by eapply sv_fetch.
Qed.

(** A gRPC stream whose connection ends while its session is being routed. *)
Definition g2 : runner := (runner_step false Grpc PermitGranted (runner_step false Grpc (Accept (Ok tt)) r0).1).1.
Definition g3 : runner := (runner_step false Grpc (HandshakeDone 0 (Done (Ok tt))) g2).1.
Definition g4 : runner := (runner_step false Grpc (StreamOpened 0) g3).1.
Definition g5 : runner := (runner_step false Grpc (TaskDone 0 (Ok tt)) g4).1.

Abbreviation grpc_server := (served SampleSession.server Grpc false 3 r0).
Abbreviation launched r live := (launch SampleSession.server Grpc 3 r live).

Definition opened : gmap nat session :=
  launched g4 (launched g3 (launched g2 (launched (runner_step false Grpc (Accept (Ok tt)) r0).1 ∅))).

Lemma opened_served : grpc_server (MkService g4 manager_new opened ∅).
Proof.
  pose (step := sv_run SampleSession.server Grpc false 3).
  eapply rtc_l; [apply (step r0 manager_new ∅ ∅ (Accept (Ok tt))); exact I|].
  eapply rtc_l; [apply (step _ manager_new _ ∅ PermitGranted); exact I|].
  eapply rtc_l; [apply (step g2 manager_new _ ∅ (HandshakeDone 0 (Done (Ok tt)))); exact I|].
  eapply rtc_l; [apply (step g3 manager_new _ ∅ (StreamOpened 0)); exact I|]. apply rtc_refl.
Qed.

(** Registered and guarded, it waits for the router. *)
Lemma stream_routing :
  ∃ t k live, grpc_server (MkService g4 (mgr one_client) (<[1 := MkSess t (Vis (ERoute (addr SampleSession.request)) k) None]> live) ∅)
    ∧ guarded t = Some 1%Z ∧ delete 1 live = ∅.
Proof.
  assert (Hk : ∃ k k1 k2 k3 k4,
    s_rest (new_session SampleSession.server Grpc 3) = Vis EReadRequest k
    ∧ k (ev_ans request_read) = Vis (ERegister 7%Z) k1 ∧ k1 (1%Z, 0) = Vis (EGuard 1%Z) k2
    ∧ k2 tt = Vis (ERecordRequest 7%Z) k3 ∧ k3 tt = Vis (ERoute (addr SampleSession.request)) k4)
    by (eexists _, _, _, _, _; split_and!; reflexivity).
  destruct Hk as (k & k1 & k2 & k3 & k4 & Hk & H1 & H2 & H3 & H4).
  assert (H0 : opened !! 1 = Some (MkSess [] (Vis EReadRequest k) None)) by (rewrite <- Hk; reflexivity).
  pose proof opened_served as S0.
  eassert (grpc_server _) as S1
    by (eapply rtc_r; [exact S0|]; by apply (sv_effect _ _ _ _ _ _ _ _ 1 [] EReadRequest k (ev_ans request_read) H0)).
  rewrite H1 in S1.
  eassert (grpc_server _) as S2
    by (eapply rtc_r; [exact S1|]; eapply sv_fetch; [apply lookup_insert_eq|done|reflexivity]).
  eassert (grpc_server _) as S3
    by (eapply rtc_r; [exact S2|]; eapply sv_insert; [apply lookup_insert_eq|reflexivity]).
  eassert (grpc_server _) as S4 by (eapply rtc_r; [exact S3|]; eapply sv_index, lookup_insert_eq).
  change (k1 _) with (k1 (1%Z, 0)) in S4. rewrite H2 in S4.
  eassert (grpc_server _) as S5
    by (eapply rtc_r; [exact S4|]; eapply (sv_effect _ _ _ _ _ _ _ _ 1 _ _ k2 tt); [apply lookup_insert_eq|done..]).
  rewrite H3 in S5.
  eassert (grpc_server _) as S6
    by (eapply rtc_r; [exact S5|]; eapply (sv_effect _ _ _ _ _ _ _ _ 1 _ _ k3 tt); [apply lookup_insert_eq|done..]).
  rewrite H4 in S6. eexists _, k4, _. split; [exact S6|]. split; [reflexivity|].
  rewrite !delete_insert_eq. vm_compute. reflexivity.
Qed.

(** The connection ends, the session is dropped, and its guard unregisters it. *)
Lemma dropped_served :
  ∃ s, grpc_server s ∧ sv_sessions s = ∅ ∧ next_conn_id (sv_mgr s) = 2%Z.
Proof.
  destruct stream_routing as (t & k & live & S0 & Hg & Hl).
  eassert (grpc_server _) as S1.
  { eapply rtc_r; [exact S0|].
    apply (sv_run SampleSession.server Grpc false 3 g4 (mgr one_client) _ ∅ (TaskDone 0 (Ok tt))). exact I. }
  set (sessions := launch _ _ _ _ _) in S1.
  assert (Hi : sessions !! 1 = Some (MkSess t (Vis (ERoute (addr SampleSession.request)) k) None)).
  { unfold sessions, launch. apply lookup_union_Some_l, lookup_insert_eq. }
  assert (Hd : delete 1 sessions = ∅).
  { unfold sessions, launch. rewrite delete_union, delete_insert_eq, Hl. vm_compute. reflexivity. }
  eassert (grpc_server _) as S2
    by (eapply rtc_r; [exact S1|]; apply (sv_drop _ _ _ _ g5 (mgr one_client) sessions ∅ 1 t _ k 0 Hi);
        [reflexivity|vm_compute; reflexivity|vm_compute; reflexivity]).
  unfold drop_glue in S2. rewrite Hg in S2. cbn [pbind trigger] in S2.
  eassert (grpc_server _) as S3
    by (eapply rtc_r; [exact S2|]; eapply sv_remove; [apply lookup_insert_eq|reflexivity]).
  eassert (grpc_server _) as S4 by (eapply rtc_r; [exact S3|]; eapply sv_unindex, lookup_insert_eq).
  eassert (grpc_server _) as S5 by (eapply rtc_r; [exact S4|]; eapply sv_end, lookup_insert_eq).
  eexists. split; [exact S5|]. split; [|reflexivity]. cbn [sv_sessions]. by rewrite !delete_insert_eq.
Qed.

End SampleService.

#[local] Existing Instance SampleAcl.sample_lib.
#[local] Existing Instance SampleSession.one_user.
#[local] Existing Instance SampleSession.no_dns.

(** A client that is served, and one whose HTTP/2 connection ended under it. *)
Lemma service_sound_witness :
  (∃ s, served SampleSession.server Tcp false 3 SampleService.r0 s
     ∧ connections (sv_mgr s) !! 1%Z = Some (MkActive 7%Z 0)
     ∧ 1 ≤ size (sv_sessions s)
     ∧ ∃ i ses, sv_sessions s !! i = Some ses ∧ authenticated SampleSession.server (s_past ses) 7%Z)
  ∧ ∃ s, served SampleSession.server Grpc false 3 SampleService.r0 s
     ∧ next_conn_id (sv_mgr s) = 2%Z ∧ connections (sv_mgr s) = ∅ ∧ user_connections (sv_mgr s) = ∅.
Proof.
  split.
  - destruct SampleService.one_registered as [live Hs]. eexists. split; [exact Hs|]. split; [reflexivity|].
    destruct (service_sound SampleSession.server Tcp false 3 2 SampleService.r0 _
                ltac:(vm_compute; discriminate) eq_refl Hs) as (_ & Hcount & _ & _ & Hau & _).
    split; [exact Hcount|]. exact (Hau 1%Z (MkActive 7%Z 0) eq_refl).
  - destruct SampleService.dropped_served as (s & Hs & Hnone & Hid). exists s.
    destruct (service_sound SampleSession.server Grpc false 3 2 SampleService.r0 s
                ltac:(vm_compute; discriminate) eq_refl Hs) as (_ & _ & _ & _ & _ & _ & Hleft).
    split; [exact Hs|]. split; [exact Hid|exact (Hleft Hnone)].
Defined.

Lemma removal_misses_registering_witness :
  ∃ s id tok, served SampleSession.server Tcp false 3 SampleService.r0 s
    ∧ connections (sv_mgr s) !! id = Some (MkActive 7%Z tok) ∧ tok ∉ cancelled (sv_mgr s).
Proof.
  destruct SampleService.about_to_register as (live & k & Hs & Hi).
  destruct (removal_misses_registering SampleSession.server Tcp false 3 2 SampleService.r0 _ 0 _ 7%Z k
              ltac:(vm_compute; discriminate) eq_refl Hs Hi eq_refl eq_refl)
    as (_ & s & id & tok & Hs' & _ & Hc & Htok).
  exists s, id, tok. split; [exact Hs'|]. split; [exact Hc|exact Htok].
Defined.
