(* ===== verification/Wire.v ===== *)
(** * A connection task on its streams

    The programs of [src/src/handler.rs] run on the streams and the collector
    they work with: every effect of [Effects] gets its meaning as calls of the
    client transport, of the outbound stream and of the statistics, with tokio's
    [read_buf], [write_all] and [shutdown] as the loops over polls they are
    documented to be, and the relay of [src/src/core/relay.rs] in its place.  The
    outside decides how often each future is polled and when, what it routes and
    dials, and when a task is dropped. *)

From S2P Require Import Prelude RustStd Protocol Dns Acl Hooks AsyncIo Relay Config Server.
From S2P Require Import Effects Handler Udp UdpSession Panel.
#[local] Open Scope prog_scope.

(** ** Futures over polls *)

Section futures.
Context {St : Type} `{AsyncRead St, AsyncWrite St}.

(** [read_buf] on a buffer with [room] bytes reserved, and what more capacity it
    has at each poll; [None] while it is pending. *)
Fixpoint await_read (room : nat) (polls : list nat) (s : St)
    : St * option (result (list byte) io_error) :=
  match polls with
  | [] => (s, None)
  | more :: rest =>
      match poll_read (room + more) s with
      | (s', Ready r) => (s', Some r)
      | (s', Pending) => await_read room rest s'
      end
  end.

(** [write_all]. *)
Fixpoint await_write_all (polls : nat) (bs : list byte) (s : St) : St * option (result unit io_error) :=
  if decide (bs = []) then (s, Some (Ok tt))
  else match polls with
  | 0 => (s, None)
  | S polls' =>
      match poll_write bs s with
      | (s', Ready (Ok 0)) => (s', Some (Err (IoError EkWriteZero "failed to write whole buffer")))
      | (s', Ready (Ok n)) => await_write_all polls' (drop n bs) s'
      | (s', Ready (Err e)) => (s', Some (Err e))
      | (s', Pending) => await_write_all polls' bs s'
      end
  end.

(** [shutdown], its outcome ignored. *)
Fixpoint await_shutdown (polls : nat) (s : St) : St :=
  match polls with
  | 0 => s
  | S polls' =>
      match poll_shutdown s with
      | (s', Ready _) => s'
      | (s', Pending) => await_shutdown polls' s'
      end
  end.

Context `{!TracedStream St}.

Lemma await_read_law room polls s :
  let '(s', r) := await_read room polls s in
  received s' = received s ++ match r with Some (Ok bs) => bs | _ => [] end ∧ sent s' = sent s.
Proof.
  revert s. induction polls as [|more rest IH]; intros s; cbn [await_read]; [by rewrite app_nil_r|].
  pose proof (read_law (room + more) s) as Hl.
  destruct (poll_read (room + more) s) as [s' [[bs|e]|]].
  - tauto.
  - rewrite app_nil_r. tauto.
  - specialize (IH s'). destruct (await_read room rest s') as [s2 r].
    destruct Hl as [E1 E2]. by rewrite E1, E2 in IH.
Qed.

Lemma await_write_all_law polls bs s :
  let '(s', r) := await_write_all polls bs s in
  received s' = received s
  ∧ ∃ part rest, bs = part ++ rest ∧ sent s' = sent s ++ part ∧ (r = Some (Ok tt) → rest = []).
Proof.
  revert bs s. induction polls as [|polls IH]; intros bs s; cbn [await_write_all];
    (case_decide as Hbs; [subst; split; [done|]; exists [], []; by rewrite !app_nil_r|]).
  { split; [done|]. exists [], bs. by rewrite app_nil_r. }
  pose proof (write_law bs s) as Hl. destruct (poll_write bs s) as [s' [[[|n]|e]|]].
  - destruct Hl as (_ & -> & ->). split; [done|]. by exists [], bs.
  - destruct Hl as (Hn & Hr & Hs). specialize (IH (drop (S n) bs) s').
    destruct (await_write_all polls (drop (S n) bs) s') as [s2 r].
    destruct IH as (-> & part & rest & Hd & -> & Hok). split; [done|].
    exists (take (S n) bs ++ part), rest. rewrite Hs, <- !app_assoc, <- Hd, take_drop. done.
  - destruct Hl as [-> ->]. split; [done|]. exists [], bs. by rewrite app_nil_r.
  - destruct Hl as [Hr Hs]. specialize (IH bs s'). rewrite Hr, Hs in IH.
    by destruct (await_write_all polls bs s').
Qed.

Lemma await_shutdown_law polls s :
  received (await_shutdown polls s) = received s ∧ sent (await_shutdown polls s) = sent s.
Proof.
  revert s. induction polls as [|polls IH]; intros s; cbn [await_shutdown]; [done|].
  pose proof (shutdown_law s) as [Hr Hs]. destruct (poll_shutdown s) as [s' [r|]]; [done|].
  destruct (IH s') as [-> ->]. done.
Qed.

End futures.

(** ** Polling the relay with enough fuel *)

Section scheduled.
Context {A B T : Type} `{AsyncRead A, AsyncWrite A, !TracedStream A, !CoopStream A}.
Context `{AsyncRead B, AsyncWrite B, !TracedStream B, !CoopStream B}.
Context `{StatsCollector T}.

Definition relay_fuel (s : relay_state) (a : A) (b : B) : nat :=
  copy_fuel (a_to_b s) (budget a) `max` copy_fuel (b_to_a s) (budget b).

(** The schedule of a relay that is polled at the given times. *)
Fixpoint schedule_at (cfg : relay_config) (stats : option UserId) (times : list Z) (s : relay_state)
    (a : A) (b : B) (t : T) : list (nat * Z) :=
  match times with
  | [] => []
  | now :: rest =>
      (relay_fuel s a b, now)
      :: match poll_relay cfg stats (relay_fuel s a b) now s a b t with
         | Some (s', a', b', t', Pending) => schedule_at cfg stats rest s' a' b' t'
         | _ => []
         end
  end.

Lemma schedule_at_total cfg stats times size a0 b0 s (a : A) (b : B) (t : T) :
  relay_inv size a0 b0 s a b →
  ∃ out, relay_run cfg stats (schedule_at cfg stats times s a b t) s a b t = Some out.
Proof.
  revert s a b t. induction times as [|now rest IH]; intros s a b t Hinv; cbn [schedule_at relay_run].
  { eauto. }
  destruct (poll_relay_total cfg stats size (relay_fuel s a b) now s a b t) as [out E];
    [apply Hinv|apply Hinv|unfold relay_fuel; lia..|].
  rewrite E. destruct out as [[[[s' a'] b'] t'] [r|]]; cbn [mbind option_bind].
  - destruct (relay_finish stats s' t' r). eauto.
  - apply IH. by eapply poll_relay_keeps.
Qed.

End scheduled.

(** ** The world of a task *)

(** The arm of a UDP session's [select!] that fires, if reading the client is not
    over first.  The idle timer ends every round. *)
Inductive wake `{AclLib} : Type :=
| WakeClient
| WakeTick
| WakeCancel
| WakeUdp (r : result (list byte * AclAddr) string).

Section world.
Context {C B T : Type} `{AsyncRead C, AsyncWrite C, !CoopStream C}.
Context `{AsyncRead B, AsyncWrite B, !CoopStream B} `{StatsCollector T} `{AclLib}.

(** The request buffer of the connection. *)
Variable buffer_size : nat.

(** The client transport, the outbound stream once there is one, with its
    traffic, and the collector. *)
Record world := MkWorld {
  w_client : C;
  w_remote : option (Logged B);
  w_stats : T;
}.

Definition set_client (c : C) (w : world) : world := MkWorld c (w_remote w) (w_stats w).
Definition set_remote (b : Logged B) (w : world) : world := MkWorld (w_client w) (Some b) (w_stats w).
Definition set_stats (t : T) (w : world) : world := MkWorld (w_client w) (w_remote w) t.

(** What the outside decides about an effect: the polls of a future, the times
    at which the relay is polled, the stream a dial opens, or the answer. *)
Definition choice (e : eff) : Type :=
  match e with
  | EReadRequest => list nat
  | ECloseClient | EShutdownRemote | EWriteRemote _ | EWriteClient _ => nat
  | ERelay _ _ _ => Z * list Z
  | EConnect _ => timed (result B io_error)
  | EDialTcp _ _ => timed (result B string)
  | ESelect _ _ => list nat * wake
  | e => ans e
  end.

(** A dial that succeeds opens a new stream. *)
Definition dialled {E} (d : timed (result B E)) (w : world) : world * timed (result unit E) :=
  match d with
  | Done (Ok b) => (set_remote (MkLogged b [] []) w, Done (Ok tt))
  | Done (Err e) => (w, Done (Err e))
  | Elapsed => (w, Elapsed)
  end.

(** One round of the UDP session's [select!].  A client arm that does not read is
    ready at once; without an association there is no UDP arm. *)
Definition select (udp : option nat) (reads : bool) (polls : list nat) (k : wake) (w : world)
    : world * (arm + result (list byte * AclAddr) string) :=
  let other := match k, udp with
               | WakeClient, _ => if reads then inl TickArm else inl (ClientArm (Ok []))
               | WakeCancel, _ => inl CancelArm
               | WakeUdp r, Some _ => inr r
               | WakeTick, _ | WakeUdp _, None => inl TickArm
               end in
  if reads then
    match await_read (8 * 1024) polls (w_client w) with
    | (c', Some r) => (set_client c' w, inl (ClientArm r))
    | (c', None) => (set_client c' w, other)
    end
  else (w, other).

(** The relay between the client and the remote. *)
Definition relayed (cfg : relay_config) (half_close : bool) (u : UserId) (start : Z) (times : list Z)
    (b : Logged B) (w : world) : option (world * relay_end) :=
  let a := MkNoHalfClose (w_client w) half_close in
  let schedule := schedule_at cfg (Some u) times (relay_start cfg start) a b (w_stats w) in
  '(_, a', b', t', r) ←
    copy_bidirectional_with_stats cfg (Some u) start schedule a b (w_stats w);
  Some (MkWorld (nhc_inner a') (Some b') t',
        match r with Some r => RelayDone r | None => Kicked end).

(** The meaning of an effect: the world afterwards and the answer, which is
    [None] if the task is dropped while it waits for a future without a timeout.
    The whole is [None] where the effect makes no sense: a relay without a
    remote stream. *)
Definition handle (w : world) (e : eff) : choice e → option (world * option (ans e)) :=
  match e return choice e → option (world * option (ans e)) with
  | EReadRequest => λ polls,
      let '(c', r) := await_read buffer_size polls (w_client w) in
      Some (set_client c' w, Some (match r with Some r => Done r | None => Elapsed end))
  | ECloseClient => λ polls, Some (set_client (await_shutdown polls (w_client w)) w, Some tt)
  | ERecordRequest u => λ _, Some (set_stats (record_request u (w_stats w)) w, Some tt)
  | ERecordUpload u n => λ _, Some (set_stats (record_upload u n (w_stats w)) w, Some tt)
  | ERecordDownload u n => λ _, Some (set_stats (record_download u n (w_stats w)) w, Some tt)
  | EConnect _ | EDialTcp _ _ => λ d, let '(w', x) := dialled d w in Some (w', Some x)
  | EWriteRemote bs => λ polls,
      b ← w_remote w;
      let '(b', r) := await_write_all polls bs b in Some (set_remote b' w, r)
  | ERelay cfg half_close u => λ '(start, times),
      b ← w_remote w;
      '(w', r) ← relayed cfg half_close u start times b w; Some (w', Some r)
  | EShutdownRemote => λ polls,
      b ← w_remote w; Some (set_remote (await_shutdown polls b) w, Some tt)
  | ESelect None reads => λ '(polls, k),
      let '(w', r) := select None reads polls k w in
      Some (w', Some (match r with inl a => a | inr _ => TickArm end))
  | ESelect (Some conn) reads => λ '(polls, k),
      let '(w', r) := select (Some conn) reads polls k w in Some (w', Some r)
  | EWriteClient bs => λ polls,
      let '(c', r) := await_write_all polls bs (w_client w) in
      Some (set_client c' w, Some (match r with Some r => Done r | None => Elapsed end))
  | ERegister _ | EUnregister _ | ERoute _ | ERouteUdp _ | EResolve _ | ETune _ | EDialUdp _ _
  | EUdpSend _ _ _ | EElapsedSecs | ESleep10ms | EGuard _ => λ x, Some (w, Some x)
  end.

(** ** Running a program on a world *)

Definition outside : Type := list event → ∀ e : eff, choice e.

(** The world at the end, the events, and the result unless the task was
    dropped or the observation stopped. *)
Fixpoint play {X} (o : outside) (history : list event) (w : world) (p : prog X)
    : option (world * list event * option X) :=
  match p with
  | Ret a => Some (w, [], Some a)
  | Crash => None
  | Stop => Some (w, [], None)
  | Vis e k =>
      '(w', x) ← handle w e (o history e);
      match x with
      | None => Some (w', [], None)
      | Some x =>
          '(w2, t, r) ← play o (history ++ [Ev e x]) w' (k x); Some (w2, Ev e x :: t, r)
      end
  end.

(** Whatever the outside does, [p] does not crash, and where it gets to is in
    [Q]. *)
Fixpoint wpost {X} (w : world) (p : prog X) (Q : world → list event → option X → Prop) : Prop :=
  match p with
  | Ret a => Q w [] (Some a)
  | Crash => False
  | Stop => Q w [] None
  | Vis e k =>
      ∀ c, match handle w e c with
           | None => False
           | Some (w', None) => Q w' [] None
           | Some (w', Some x) => wpost w' (k x) (λ w2 t, Q w2 (Ev e x :: t))
           end
  end.

Lemma wpost_play {X} o history w (p : prog X) Q :
  wpost w p Q → ∃ w' t r, play o history w p = Some (w', t, r) ∧ Q w' t r.
Proof.
  revert history w Q. induction p as [a| | |e k IH]; intros h w Q Hp; simpl in *; [eauto|done|eauto|].
  specialize (Hp (o h e)). destruct (handle w e (o h e)) as [[w' [x|]]|]; [|eauto|done].
  destruct (IH x (h ++ [Ev e x]) w' _ Hp) as (w2 & t & r & E & HQ). simpl. rewrite E. eauto.
Qed.

Lemma wpost_mono {X} w (p : prog X) (Q Q' : world → list event → option X → Prop) :
  wpost w p Q → (∀ w' t r, Q w' t r → Q' w' t r) → wpost w p Q'.
Proof.
  revert w Q Q'. induction p as [a| | |e k IH]; intros w Q Q' Hp HQ; simpl in *; auto.
  intros c. specialize (Hp c). destruct (handle w e c) as [[w' [x|]]|]; [|auto|done].
  eapply IH; [exact Hp|]. auto.
Qed.

(** Sequencing. *)
Lemma wpost_seq {X Y} w (p : prog X) (f : X → prog Y) Q1 Q :
  wpost w p Q1 →
  (∀ w' t, Q1 w' t None → Q w' t None) →
  (∀ w' t a, Q1 w' t (Some a) → wpost w' (f a) (λ w2 t', Q w2 (t ++ t'))) →
  wpost w (pbind p f) Q.
Proof.
  revert w Q1 Q. induction p as [a| | |e k IH]; intros w Q1 Q Hp Hn Hs; simpl in *.
  - by apply (Hs w []).
  - done.
  - by apply Hn.
  - intros c. specialize (Hp c). destruct (handle w e c) as [[w' [x|]]|]; [|by apply Hn|done].
    apply (IH x w' _ _ Hp); [intros w2 t; apply Hn|intros w2 t a; apply (Hs w2 (Ev e x :: t))].
Qed.

(** ** Runs without an outbound stream *)

(** Effects that leave the outbound stream alone. *)
Definition plain (e : eff) : bool :=
  match e with
  | EConnect _ | EDialTcp _ _ | EWriteRemote _ | ERelay _ _ _ | EShutdownRemote => false
  | _ => true
  end.

(** The bytes an event took from the client. *)
Definition ev_read (ev : event) : list byte :=
  match ev with
  | Ev EReadRequest (Done (Ok bs)) => bs
  | Ev (ESelect None true) (ClientArm (Ok bs))
  | Ev (ESelect (Some _) true) (inl (ClientArm (Ok bs))) => bs
  | _ => []
  end.

Definition bytes_read (t : list event) : list byte := concat (map ev_read t).

(** [part] is what an event wrote to the client: all of it if it succeeded. *)
Definition wrote (ev : event) (part : list byte) : Prop :=
  match ev with
  | Ev (EWriteClient bs) r => part `prefix_of` bs ∧ (r = Done (Ok tt) → part = bs)
  | _ => part = []
  end.

Definition ev_ops (ev : event) : list stat_op :=
  match ev_eff ev with
  | ERecordRequest u => [OpRequest u]
  | ERecordUpload u n => [OpUpload u n]
  | ERecordDownload u n => [OpDownload u n]
  | _ => []
  end.

Definition ops_of (t : list event) : list stat_op := concat (map ev_ops t).

Context `{!TracedStream C}.

(** The events [t] lead from [w] to [w']. *)
Record ran (w : world) (t : list event) (w' : world) : Prop := MkRan {
  ran_remote : w_remote w' = w_remote w;
  ran_received : received (w_client w') = received (w_client w) ++ bytes_read t;
  ran_sent : ∃ parts, Forall2 wrote t parts ∧ sent (w_client w') = sent (w_client w) ++ concat parts;
  ran_stats : w_stats w' = apply_ops (ops_of t) (w_stats w);
}.

Lemma ran_nil w : ran w [] w.
Proof. constructor; try done; [by rewrite app_nil_r|exists []; by rewrite app_nil_r]. Qed.

Lemma ran_app w t w1 t' w2 : ran w t w1 → ran w1 t' w2 → ran w (t ++ t') w2.
Proof.
  intros [R1 I1 (ps & P1 & S1) T1] [R2 I2 (qs & P2 & S2) T2]. constructor.
  - congruence.
  - unfold bytes_read in *. by rewrite I2, I1, map_app, concat_app, app_assoc.
  - exists (ps ++ qs). split; [by apply Forall2_app|]. by rewrite S2, S1, concat_app, app_assoc.
  - unfold ops_of, apply_ops in *. by rewrite T2, T1, map_app, concat_app, foldl_app.
Qed.

(** One poll loop on the client. *)
Lemma ran_client w ev c part :
  received c = received (w_client w) ++ ev_read ev → sent c = sent (w_client w) ++ part →
  wrote ev part → ev_ops ev = [] → ran w [ev] (set_client c w).
Proof.
  intros Hr Hs Hw Ho. constructor; cbn [w_client w_remote w_stats set_client].
  - done.
  - unfold bytes_read. cbn. by rewrite app_nil_r.
  - exists [part]. split; [by repeat constructor|]. cbn. by rewrite app_nil_r.
  - unfold ops_of. cbn. by rewrite Ho.
Qed.

Lemma ran_other w ev :
  ev_read ev = [] → wrote ev [] → ev_ops ev = [] → ran w [ev] w.
Proof.
  intros Hr Hw Ho. constructor; [done| |exists [[]]; split; [by repeat constructor|]|];
    unfold bytes_read, ops_of; cbn; by rewrite ?Hr, ?Ho, ?app_nil_r.
Qed.

Lemma ran_op w ev :
  ev_read ev = [] → wrote ev [] → ran w [ev] (set_stats (apply_ops (ev_ops ev) (w_stats w)) w).
Proof.
  intros Hr Hw. constructor; cbn [w_client w_remote w_stats set_stats]; [done| |exists [[]]; split; [by repeat constructor|]|];
    unfold bytes_read, ops_of; cbn; by rewrite ?Hr, ?app_nil_r.
Qed.

Definition select_event (udp : option nat) (reads : bool) (r : arm + result (list byte * AclAddr) string)
    : event :=
  match udp with
  | None => Ev (ESelect None reads) (match r with inl a => a | inr _ => TickArm end)
  | Some conn => Ev (ESelect (Some conn) reads) r
  end.

Lemma select_ran udp reads polls k w :
  let '(w', r) := select udp reads polls k w in ran w [select_event udp reads r] w'.
Proof.
  unfold select. destruct reads.
  - pose proof (await_read_law (8 * 1024) polls (w_client w)) as Hl.
    destruct (await_read (8 * 1024) polls (w_client w)) as [c' [r|]]; destruct Hl as [Hr Hs];
      (apply (ran_client _ _ _ []); [|by rewrite app_nil_r|by destruct k, udp..]).
    + by destruct udp, r.
    + by destruct k, udp.
  - destruct k, udp; by apply ran_other.
Qed.

Lemma plain_step w e (c : choice e) :
  plain e = true →
  match handle w e c with Some (w', Some x) => ran w [Ev e x] w' | _ => False end.
Proof.
  intros He. destruct e as [| |u|id|u|u n|u n|a|a|a|sa|nd|hd a|hd a|bs|cfg hc u| |[conn|] reads|conn bs a|bs| | |id];
    try discriminate He; cbn [handle]; try (by apply ran_other).
  - pose proof (await_read_law buffer_size c (w_client w)) as Hl.
    destruct (await_read buffer_size c (w_client w)) as [c' r]. destruct Hl as [Hr Hs].
    apply (ran_client _ _ _ []); [|by rewrite app_nil_r|done|done].
    by destruct r as [[|]|].
  - destruct (await_shutdown_law c (w_client w)) as [Hr Hs].
    apply (ran_client _ _ _ []); [by rewrite app_nil_r|by rewrite app_nil_r|done..].
  - by apply (ran_op w (Ev (ERecordRequest u) tt)).
  - by apply (ran_op w (Ev (ERecordUpload u n) tt)).
  - by apply (ran_op w (Ev (ERecordDownload u n) tt)).
  - destruct c as [polls k]. pose proof (select_ran (Some conn) reads polls k w) as Hl.
    by destruct (select _ reads polls k w) as [w' r].
  - destruct c as [polls k]. pose proof (select_ran None reads polls k w) as Hl.
    by destruct (select _ reads polls k w) as [w' [a|r]].
  - pose proof (await_write_all_law c bs (w_client w)) as Hl.
    destruct (await_write_all c bs (w_client w)) as [c' r].
    destruct Hl as (Hr & part & rest & -> & Hs & Hok).
    apply (ran_client _ _ _ part); [by rewrite app_nil_r|done| |done].
    split; [by exists rest|]. destruct r as [r|]; [|done]. intros [= ->].
    by rewrite Hok, app_nil_r.
Qed.

(** A program that leaves the outbound stream alone does to the world what its
    events say. *)
Lemma plain_run {X} w (p : prog X) Q :
  post anything p (λ t r, Forall (λ ev, plain (ev_eff ev) = true) t ∧ Q t r) →
  wpost w p (λ w' t r, ran w t w' ∧ Q t r).
Proof.
  revert w Q. induction p as [a| | |e k IH]; intros w Q Hp; simpl in *.
  - split; [apply ran_nil|apply Hp].
  - done.
  - split; [apply ran_nil|apply Hp].
  - intros c. assert (He : plain e = true).
    { destruct (ans_inhabited e) as [x _]. destruct (post_some _ _ (Hp x I)) as (t & _ & Ht & _).
      by inversion_clear Ht. }
    pose proof (plain_step w e c He) as Hs. destruct (handle w e c) as [[w' [x|]]|]; [|done..].
    eapply wpost_mono; [apply (IH x w' (λ t, Q (Ev e x :: t)))|].
    + eapply post_mono; [apply (Hp x I)|]. intros t o [Ht HQ]. by inversion_clear Ht.
    + intros w2 t r [Ht HQ]. split; [by apply (ran_app _ [_] w')|done].
Qed.

End world.
