(* ===== verification/Session.v ===== *)
(** * A session, end to end

    The tasks of [src/src/handler.rs] on their streams ([Wire]): what the client
    sent, what the outside was sent, what came back, and what the user is
    billed, for a whole session from its first byte. *)

From S2P Require Import Prelude RustStd Protocol Dns Acl Hooks AsyncIo Relay Connection Config Server.
From S2P Require Import Panel Effects Handler Udp UdpSession UdpReplies Wire.
#[local] Open Scope prog_scope.

Section session.
Context {A R D : Type} `{AclLib, DnsCache D, !OutboundRouter R D, Authenticator A}.
Context {C B T : Type} `{AsyncRead C, AsyncWrite C, !TracedStream C, !CoopStream C}.
Context `{AsyncRead B, AsyncWrite B, !CoopStream B} `{StatsCollector T, !StatsLaws T}.

Abbreviation world := (world (C := C) (B := B) (T := T)).

(** User [u] is billed [bill] more than before, and nobody else anything. *)
Definition charged (t0 : T) (u : UserId) (bill : Z * Z * Z) (t : T) : Prop :=
  ∀ v, usage v t = plus3 (usage v t0) (if decide (u = v) then bill else (0, 0, 0)%Z).

Definition size (bs : list byte) : Z := Z.of_nat (length bs).

Lemma plus3_0_r a : plus3 a (0, 0, 0)%Z = a.
Proof. by rewrite plus3_comm, plus3_0_l. Qed.

Lemma charged_0 t u : charged t u (0, 0, 0)%Z t.
Proof. intros v. case_decide; by rewrite plus3_0_r. Qed.

Lemma charged_trans t0 u x t1 y t2 :
  charged t0 u x t1 → charged t1 u y t2 → charged t0 u (plus3 x y) t2.
Proof.
  intros Hx Hy v. rewrite Hy, Hx. unfold plus3. case_decide; apply triple_eq; simpl; lia.
Qed.

Lemma charged_ops t u x l :
  (∀ v, in_ops v l = if decide (u = v) then x else (0, 0, 0)%Z) → charged t u x (apply_ops l t).
Proof. intros Hl v. by rewrite apply_ops_usage, Hl. Qed.

(** ** The relay in its world *)

Lemma relayed_spec cfg hc u start times b (w : world) :
  ∃ w' r b' up held down lag,
    relayed cfg hc u start times b w = Some (w', r) ∧ w_remote w' = Some b'
    ∧ received (w_client w') = received (w_client w) ++ up ++ held ∧ sent b' = sent b ++ up
    ∧ received b' = received b ++ down ++ lag ∧ sent (w_client w') = sent (w_client w) ++ down
    ∧ charged (w_stats w) u (0%Z, size up, size down) (w_stats w')
    ∧ (∀ res, r = RelayDone (Ok res) → termination res = Completed → held = [] ∧ lag = []).
Proof.
  unfold relayed, copy_bidirectional_with_stats.
  set (a := MkNoHalfClose (w_client w) hc).
  pose proof (relay_start_inv cfg start a b) as Hinv.
  destruct (schedule_at_total cfg (Some u) times _ _ _ _ _ _ (w_stats w) Hinv) as [[[[[s' a'] b'] t'] r] E].
  rewrite E. cbn [mbind option_bind].
  destruct (relay_start_accounted cfg start u (w_stats w)) as [Hac Hset].
  destruct (relay_run_spec _ _ _ _ _ _ _ _ _ _ _ _ _ _ _ _ Hinv Hac Hset E)
    as ((_ & _ & (up & Hb & Ha & Hn) & (down & Ha' & Hb' & Hn')) & Ht & Hr).
  eexists _, _, b', up, (unwritten (a_to_b s')), down, (unwritten (b_to_a s')).
  split; [done|]. split_and!; try done.
  - intros v. destruct (Ht v) as (U & Dn & Q). unfold usage, plus3, size. cbn [w_stats]. rewrite U, Dn, Q, Hn, Hn'.
    case_decide; apply triple_eq; simpl; lia.
  - intros res Hres Hc. destruct r as [[res'|e]|]; try done. injection Hres as ->. by apply Hr.
Qed.

(** ** CONNECT *)

Definition is_relay (ev : event) : bool := match ev_eff ev with ERelay _ _ _ => true | _ => false end.

(** The relay has ended because both sides have. *)
Definition relay_completed (ev : event) : bool :=
  match ev with
  | Ev (ERelay _ _ _) (RelayDone (Ok res)) =>
      match termination res with Completed => true | _ => false end
  | _ => false
  end.

Definition completed (t : list event) : Prop := existsb relay_completed t = true.

Lemma completed_app t1 t2 : completed (t1 ++ t2) → completed t1 ∨ completed t2.
Proof. unfold completed. rewrite existsb_app. by intros []%orb_true_iff; auto. Qed.

Lemma no_relay_completed t : forallb (λ ev, negb (is_relay ev)) t = true → ¬ completed t.
Proof.
  unfold completed. induction t as [|[e x] t IH]; [done|]. cbn [forallb existsb].
  intros [He Ht]%andb_true_iff. destruct e; try done; cbn; by apply IH.
Qed.

(** The traffic of a task that has an outbound stream, since [w0], where the
    client had sent [pl] beyond the header.  The remote was sent a prefix of what
    the client sent, the client what the remote sent first; a completed relay
    holds nothing back.  The user is billed for what the remote was sent, and
    for all of [pl] even if its write failed, and for what the client was sent. *)
Definition tunnelled (w0 : world) (u : UserId) (pl : list byte) (w : world) (t : list event) : Prop :=
  ∃ b more held down lag,
    w_remote w = Some b
    ∧ received (w_client w) = received (w_client w0) ++ more ∧ pl ++ more = sent b ++ held
    ∧ sent (w_client w) = sent (w_client w0) ++ down ∧ received b = down ++ lag
    ∧ charged (w_stats w0) u (0, Z.max (size (sent b)) (size pl), size down)%Z (w_stats w)
    ∧ (completed t → held = [] ∧ lag = []).

Lemma tunnelled_events w0 u pl w t t' :
  (completed t' → completed t) → tunnelled w0 u pl w t → tunnelled w0 u pl w t'.
Proof. intros Hc (b & more & held & down & lag & ? & ? & ? & ? & ? & ? & ?). exists b, more, held, down, lag. auto 9. Qed.

(** Nothing has moved. *)
Definition still (w w' : world) : Prop :=
  w_remote w' = w_remote w ∧ received (w_client w') = received (w_client w)
  ∧ sent (w_client w') = sent (w_client w) ∧ w_stats w' = w_stats w.

Lemma still_refl w : still w w.
Proof. done. Qed.

Lemma still_close polls w : still w (set_client (await_shutdown polls (w_client w)) w).
Proof. split; [done|]. split; [apply await_shutdown_law|]. split; [apply await_shutdown_law|done]. Qed.

Lemma tunnelled_still w0 u pl w w' t : still w w' → tunnelled w0 u pl w t → tunnelled w0 u pl w' t.
Proof.
  intros (E1 & E2 & E3 & E4) (b & more & held & down & lag & Ht).
  exists b, more, held, down, lag. by rewrite E1, E2, E3, E4.
Qed.

Lemma tunnelled_from w0 w1 u pl w t : still w0 w1 → tunnelled w1 u pl w t → tunnelled w0 u pl w t.
Proof.
  intros (_ & E2 & E3 & E4) (b & more & held & down & lag & Ht).
  exists b, more, held, down, lag. by rewrite <- E2, <- E3, <- E4.
Qed.

Lemma tunnelled_remote w0 u pl w b polls t :
  w_remote w = Some b → tunnelled w0 u pl w t → tunnelled w0 u pl (set_remote (await_shutdown polls b) w) t.
Proof.
  intros Hb (b' & more & held & down & lag & Hb' & Hr & Hs & Hc & Hl & Ht).
  rewrite Hb in Hb'. injection Hb' as <-. destruct (await_shutdown_law polls b) as [E1 E2].
  exists (await_shutdown polls b), more, held, down, lag. by rewrite E1, E2.
Qed.

Abbreviation quiet_tail t := (forallb (λ ev, negb (is_relay ev)) t = true).

Lemma tunnelled_tail w0 u pl w t tail :
  quiet_tail tail → tunnelled w0 u pl w t → tunnelled w0 u pl w (t ++ tail).
Proof.
  intros Ht. apply tunnelled_events. intros [Hc|Hc]%completed_app; [done|].
  by destruct (no_relay_completed _ Ht).
Qed.

Lemma tunnelled_pre w0 u pl w pre t :
  quiet_tail pre → tunnelled w0 u pl w t → tunnelled w0 u pl w (pre ++ t).
Proof.
  intros Ht. apply tunnelled_events. intros [Hc|Hc]%completed_app; [|done].
  by destruct (no_relay_completed _ Ht).
Qed.

Variable buffer_size : nat.
Abbreviation wpost := (wpost (C := C) (B := B) (T := T) buffer_size).

(** The relay and the close, with [pl] delivered. *)
Lemma run_tunnel w0 w u pl b cfg hc :
  w_remote w = Some b → sent b = pl → received b = [] →
  received (w_client w) = received (w_client w0) → sent (w_client w) = sent (w_client w0) →
  charged (w_stats w0) u (0%Z, size pl, 0%Z) (w_stats w) →
  wpost w (let! ended := trigger (ERelay cfg hc u) in
           close_client ;;
           (match ended with Kicked => trigger EShutdownRemote | RelayDone _ => Ret tt end) ;;
           Ret (Ok tt : result unit string))
    (λ w' t _, tunnelled w0 u pl w' t).
Proof.
  intros Hb Hs Hr Hcr Hcs Hch [start times]. cbn [handle]. rewrite Hb. cbn [mbind option_bind].
  destruct (relayed_spec cfg hc u start times b w)
    as (w1 & r & b1 & up & held & down & lag & E & Hb1 & Hc1 & Hs1 & Hr1 & Hd1 & Hch1 & Hcomp).
  rewrite E. cbn [mbind option_bind].
  assert (Ht : tunnelled w0 u pl w1 [Ev (ERelay cfg hc u) r]).
  { exists b1, (up ++ held), held, down, lag. rewrite Hc1, Hcr, Hs1, Hs, Hr1, Hr, Hd1, Hcs.
    split_and!; try done; [by rewrite app_assoc| |].
    - pose proof (charged_trans _ _ _ _ _ _ Hch Hch1) as Hc. unfold charged in *. intros v. rewrite Hc.
      unfold plus3, size. rewrite !length_app. case_decide; apply triple_eq; simpl; lia.
    - unfold completed. cbn. destruct r as [[res|e]|]; try done. destruct (termination res) eqn:Et; try done.
      intros _. by apply (Hcomp res). }
  intros polls. cbn [handle]. apply (tunnelled_still _ _ _ _ _ _ (still_close polls w1)) in Ht.
  destruct r as [r|]; cbn [pbind Wire.wpost].
  - by apply (tunnelled_tail _ _ _ _ [_] [_]).
  - intros polls'. cbn [handle w_remote set_client]. rewrite Hb1. cbn [mbind option_bind].
    apply (tunnelled_tail _ _ _ _ [_] [_; _]); [done|]. by apply tunnelled_remote.
Qed.

Abbreviation context := (ConnectContext (A := A) (T := T) (R := R) (D := D)).

(** A first payload that was not written to its end. *)
Lemma payload_tunnel (w : world) u part rest b n :
  sent b = part → received b = [] → n = size (part ++ rest) →
  tunnelled w u (part ++ rest) (MkWorld (w_client w) (Some b) (record_upload u n (w_stats w))) [].
Proof.
  intros Hs Hr ->. exists b, [], rest, [], []. rewrite Hs, Hr, !app_nil_r.
  split_and!; try done; cbn [w_stats]. intros v. unfold usage.
  destruct (upload_law u (size (part ++ rest)) v (w_stats w)) as (-> & -> & ->).
  unfold plus3, size. rewrite length_app. case_decide; apply triple_eq; simpl; lia.
Qed.

Lemma relay_tunnel (ctx : context) w b :
  w_remote w = Some b → sent b = [] → received b = [] →
  wpost w (relay ctx) (λ w' t _, tunnelled w (user_id ctx) (initial_payload ctx) w' t).
Proof.
  intros Hb Hs Hr. unfold relay. case_decide as Hpl.
  { rewrite Hpl. apply (run_tunnel w w _ [] b); try done. apply charged_0. }
  intros x. cbn [handle]. intros polls. cbn [handle w_remote set_stats]. rewrite Hb. cbn [mbind option_bind].
  pose proof (await_write_all_law polls (initial_payload ctx) b) as Hl.
  destruct (await_write_all polls (initial_payload ctx) b) as [b' r].
  destruct Hl as (Hr' & part & rest & Hp & Hs' & Hok). rewrite Hs in Hs'. rewrite Hr in Hr'.
  pose proof (payload_tunnel w (user_id ctx) part rest b' _ Hs' Hr' eq_refl) as Ht. rewrite <- Hp in Ht.
  destruct r as [[[]|e]|].
  - rewrite (Hok eq_refl), app_nil_r in Hp. subst part.
    eapply wpost_mono; [apply (run_tunnel w _ _ (initial_payload ctx) b'); try done|].
    + cbn. intros v. unfold usage. destruct (upload_law (user_id ctx) (size (initial_payload ctx)) v (w_stats w))
        as (E1 & E2 & E3). unfold size in *. rewrite E1, E2, E3.
      unfold plus3. case_decide; apply triple_eq; simpl; lia.
    + intros w' t o Hw. by apply (tunnelled_pre _ _ _ _ [_; _]).
  - intros n. cbn [handle]. apply (tunnelled_tail _ _ _ _ [] [_; _; _]); [done|].
    by eapply tunnelled_still; [apply still_close|].
  - by apply (tunnelled_tail _ _ _ _ [] [_]).
Qed.

(** A command that has not got an outbound stream has moved nothing. *)
Definition connect_result (w : world) (u : UserId) (pl : list byte) (w' : world) (t : list event) : Prop :=
  still w w' ∨ tunnelled w u pl w' t.

Lemma connect_result_pre w u pl w' pre t :
  quiet_tail pre → connect_result w u pl w' t → connect_result w u pl w' (pre ++ t).
Proof. intros Hp [Hs|Ht]; [by left|right]. by apply tunnelled_pre. Qed.

Lemma close_still w w0 u pl (r : result unit string) pre :
  still w0 w → wpost w (close_client ;; Ret r) (λ w' t _, connect_result w0 u pl w' (pre ++ t)).
Proof.
  intros (E1 & E2 & E3 & E4) polls. left. destruct (still_close polls w) as (F1 & F2 & F3 & F4).
  split_and!; congruence.
Qed.

Lemma dial_via_handler_tunnel (ctx : context) h res kind w :
  wpost w (dial_via_handler ctx h res kind)
    (λ w' t _, connect_result w (user_id ctx) (initial_payload ctx) w' t).
Proof.
  intros d. cbn [handle]. destruct d as [[b|e]|]; cbn [dialled].
  - eapply wpost_mono; [by eapply (relay_tunnel ctx _ (MkLogged b [] []))|].
    intros w' t o Ht. right. by apply (tunnelled_pre _ _ _ _ [_]).
  - apply (close_still w w _ _ _ [_]), still_refl.
  - apply (close_still w w _ _ _ [_]), still_refl.
Qed.

Lemma connect_first_opens nodelay candidates last_err w :
  wpost w (connect_first nodelay candidates last_err) (λ w' t o, quiet_tail t
    ∧ match o with
      | Some (Ok _) => ∃ b, w' = set_remote (MkLogged b [] []) w
      | Some (Err _) => w' = w
      | None => False
      end).
Proof.
  revert last_err. induction candidates as [|sa rest IH]; intros last_err; [done|].
  intros d. cbn [handle]. destruct d as [[b|e]|]; cbn [dialled].
  - intros x. cbn. eauto.
  - eapply wpost_mono; [apply IH|]. intros w' t o [Ht Ho]. by split.
  - eapply wpost_mono; [apply IH|]. intros w' t o [Ht Ho]. by split.
Qed.

Lemma connect_resolved_tunnel (ctx : context) res w :
  wpost w (connect_resolved ctx res)
    (λ w' t _, connect_result w (user_id ctx) (initial_payload ctx) w' t).
Proof.
  unfold connect_resolved. eapply wpost_seq; [apply connect_first_opens|by intros w' t [_ []]|].
  intros w' t [[]|e] [Ht Ho].
  - destruct Ho as [b ->].
    eapply wpost_mono; [by eapply (relay_tunnel ctx _ (MkLogged b [] []))|].
    intros w2 t2 o Htun. right. by apply tunnelled_pre.
  - subst w'. apply close_still, still_refl.
Qed.

Lemma handle_connect_tunnel (ctx : context) w :
  wpost w (handle_connect ctx)
    (λ w' t _, connect_result w (user_id ctx) (initial_payload ctx) w' t).
Proof.
  assert (Hone : ∀ ev p, quiet_tail [ev] →
    wpost w p (λ w' t _, connect_result w (user_id ctx) (initial_payload ctx) w' t) →
    wpost w p (λ w' t (_ : option (result unit string)), connect_result w (user_id ctx) (initial_payload ctx) w' (ev :: t))).
  { intros ev p Hev Hp. eapply wpost_mono; [exact Hp|]. intros w' t o Hr. by apply (connect_result_pre _ _ _ _ [ev]). }
  intros out. cbn [handle]. destruct out as [resolved handler| |handler hijack].
  - apply Hone; [done|]. unfold handle_direct_connect. destruct handler as [h|]; [apply dial_via_handler_tunnel|].
    destruct resolved as [res|]; [apply connect_resolved_tunnel|].
    intros x. cbn [handle]. destruct x as [res|e]; [apply Hone; [done|apply connect_resolved_tunnel]|].
    apply (close_still w w _ _ _ [_]), still_refl.
  - apply (close_still w w _ _ _ [_]), still_refl.
  - apply Hone; [done|]. unfold handle_proxy_connect.
    destruct hijack as [ip|]; [|apply dial_via_handler_tunnel].
    apply (dial_via_handler_tunnel (set_target (Address.from_ip ip (Address.port (target ctx))) ctx)).
Qed.

(** ** UDP *)

Definition total (l : list Z) : Z := foldr Z.add 0%Z l.

(** The traffic of a UDP session, since [w0], where the client had sent [pl]
    beyond the header.  What leaves are the client's packets; the client gets one
    frame for each datagram that came in, the last one possibly cut off; the
    user is billed for what the outside took and for the frames delivered. *)
Definition udp_served (w0 : world) (u : UserId) (pl : list byte) (w : world) (t : list event) : Prop :=
  ∃ billed lost partial,
    w_remote w = w_remote w0
    ∧ received (w_client w) = received (w_client w0) ++ client_stream t
    ∧ sent_payloads t `sublist_of` map udp_payload (stream_packets (pl ++ client_stream t))
    ∧ arrivals t = billed ++ lost ∧ length lost ≤ 1
    ∧ sent (w_client w) = sent (w_client w0) ++ concat (map (frame ∘ reply) billed) ++ partial
    ∧ partial `prefix_of` concat (map (frame ∘ reply) lost)
    ∧ charged (w_stats w0) u (0%Z, total (taken t), total (map size_of billed)) (w_stats w).

Definition udp_event (u : UserId) (ev : event) : Prop :=
  plain (ev_eff ev) = true
  ∧ match ev_eff ev with
    | EReadRequest | ERecordRequest _ => False
    | ERecordUpload v _ | ERecordDownload v _ => v = u
    | _ => True
    end.

Lemma udp_events rounds cfg pl u :
  post anything (handle_udp_associate rounds cfg pl u) (λ t _, Forall (udp_event u) t).
Proof.
  eapply post_mono;
    [apply (handle_udp_associate_good u anything (udp_event u) (λ _, True) False
              (λ _, default_direct_handler)); try done|].
  - intros [e x] Hev. destruct e; by try destruct Hev.
  - intros t [r|]; [|done]. intros (_ & t' & x & -> & Ht). apply Forall_app_2; [done|by repeat constructor].
Qed.

Lemma udp_bytes_read u t : Forall (udp_event u) t → bytes_read t = client_stream t.
Proof.
  induction 1 as [|[e x] t [_ Hev] _ IH]; [done|]. unfold bytes_read, client_stream in *. cbn [map concat].
  rewrite IH. by destruct e.
Qed.

Lemma in_ops_app v l1 l2 : in_ops v (l1 ++ l2) = plus3 (in_ops v l1) (in_ops v l2).
Proof. unfold in_ops, plus3. by rewrite !tally_app. Qed.

Lemma udp_in_ops u t v :
  Forall (udp_event u) t →
  in_ops v (ops_of t)
  = if decide (u = v) then (0%Z, total (uploads u t), total (downloads u t)) else (0, 0, 0)%Z.
Proof.
  induction 1 as [|[e x] t [_ Hev] _ IH]; [by case_decide|].
  change (ops_of (Ev e x :: t)) with (ev_ops (Ev e x) ++ ops_of t). rewrite in_ops_app, IH.
  unfold uploads, downloads, total in *. cbn [map concat ev_eff].
  destruct e; cbn [ev_ops ev_eff app foldr]; try done; try (by case_decide).
  - cbn in Hev. subst. rewrite (decide_True _ _ eq_refl). unfold in_ops, tally, plus3. cbn.
    case_decide; apply triple_eq; simpl; lia.
  - cbn in Hev. subst. rewrite (decide_True _ _ eq_refl). unfold in_ops, tally, plus3. cbn.
    case_decide; apply triple_eq; simpl; lia.
Qed.

(** ** What the client gets *)

Lemma wrote_all t parts :
  forallb written_ok t = true → Forall2 wrote t parts → concat parts = concat (client_writes t).
Proof.
  intros Ht. induction 1 as [|[e x] part t parts Hw _ IH]; [done|].
  cbn [forallb] in Ht. apply andb_true_iff in Ht as [Hev Ht].
  change (client_writes (Ev e x :: t)) with ((match e with EWriteClient bs => [bs] | _ => [] end) ++ client_writes t).
  rewrite concat_app. cbn [concat]. rewrite (IH Ht). f_equal.
  destruct e; cbn in Hw; subst; try done. destruct Hw as [_ Hw]. cbn. rewrite app_nil_r. apply Hw.
  cbn in Hev. destruct x as [[[]|e]|]; done.
Qed.

(** The frames delivered, from what the events wrote. *)
Lemma settled_written u t g parts :
  round_settled u t g → Forall2 wrote t parts →
  ∃ billed lost partial,
    arrivals t = billed ++ lost ∧ length lost ≤ 1 ∧ uploads u t = taken t
    ∧ downloads u t = map size_of billed
    ∧ concat parts = concat (map (frame ∘ reply) billed) ++ partial
    ∧ partial `prefix_of` concat (map (frame ∘ reply) lost).
Proof.
  intros (t0 & t1 & -> & [W U Dn K] & Ht1) (ps & qs & Hps & Hqs & ->)%Forall2_app_inv_l.
  rewrite concat_app, (wrote_all _ _ K Hps), W.
  assert (Happ : ∀ {X} (f : event → list X), concat (map f (t0 ++ t1)) = concat (map f t0) ++ concat (map f t1)).
  { intros X f. by rewrite map_app, concat_app. }
  unfold arrivals, uploads, downloads, taken in *. rewrite !Happ, U, Dn.
  destruct t1 as [|[e x] t1].
  { inversion Hqs; subst. exists (arrivals t0), [], []. cbn. rewrite !app_nil_r. split_and!; try done. lia. }
  destruct e as [| | | | | | | | | | | | | | | | |[c|] reads| | | | |]; try done.
  destruct x as [|[d|]]; try done. destruct t1 as [|[e' w] t1]; [done|].
  destruct e'; try done. destruct Ht1 as (_ & -> & -> & _).
  inversion Hqs as [|? q ? qs' Hq Hqs']; subst. inversion Hqs' as [|? q' ? qs2 Hq' Hq2]; subst.
  inversion Hq2; subst. cbn in Hq. subst q. destruct Hq' as [Hpre _].
  exists (arrivals t0), [d], q'. cbn. rewrite !app_nil_r. done.
Qed.

Lemma handle_udp_served rounds cfg pl u w :
  wpost w (handle_udp_associate rounds cfg pl u) (λ w' t _, udp_served w u pl w' t).
Proof.
  eapply wpost_mono.
  { apply (plain_run buffer_size w _ (λ t o, Forall (udp_event u) t
       ∧ sent_payloads t `sublist_of` map udp_payload (stream_packets (pl ++ client_stream t))
       ∧ ∃ t1 t2, t = t1 ++ t2 ∧ round_settled u t1 (bool_decide (o = None))
           ∧ match o with None => t2 = [] | Some _ => ∃ x, t2 = [Ev ECloseClient x] end)).
    eapply post_mono;
      [eapply post_and; [apply udp_events|eapply post_and; [apply (handle_udp_forwards u anything False)|apply handle_udp_settles]]|];
      [done..|].
    intros t o (He & [Hf _] & Hs). split_and!; try done. eapply Forall_impl; [exact He|]. by intros ev []. }
  intros w' t o ([Rr Rc (parts & Hparts & Rs) Rt] & He & Hf & t1 & t2 & -> & Hset & Ht2).
  apply Forall2_app_inv_l in Hparts as (ps & qs & Hps & Hqs & ->).
  destruct (settled_written _ _ _ _ Hset Hps) as (billed & lost & partial & Ha & Hl & Hu & Hd & Hw & Hp).
  assert (Hend : concat qs = [] ∧ taken t2 = [] ∧ arrivals t2 = [] ∧ uploads u t2 = [] ∧ downloads u t2 = []).
  { destruct o; [destruct Ht2 as [x ->]|rewrite Ht2 in *].
    - inversion Hqs as [|? q ? qs' Hq Hqs']; subst. inversion Hqs'; subst. cbn in Hq. by subst.
    - by inversion Hqs. }
  destruct Hend as (E1 & E2 & E3 & E4 & E5).
  exists billed, lost, partial.
  assert (Happ : ∀ {X} (f : event → list X), concat (map f (t1 ++ t2)) = concat (map f t1) ++ concat (map f t2)).
  { intros X f. by rewrite map_app, concat_app. }
  split_and!; try done.
  - by rewrite Rc, (udp_bytes_read u).
  - unfold arrivals in *. by rewrite Happ, E3, app_nil_r.
  - by rewrite Rs, concat_app, E1, app_nil_r, Hw.
  - rewrite Rt. apply charged_ops. intros v. rewrite (udp_in_ops u) by done.
    unfold uploads, downloads, taken in *. rewrite !Happ, E2, E4, E5, !app_nil_r, Hu, Hd. done.
Qed.

(** ** The whole task *)

(** A task that took no request: nothing was written, nobody billed. *)
Definition refused (t0 : T) (w : world) : Prop :=
  w_remote w = None ∧ sent (w_client w) = [] ∧ w_stats w = t0.

(** A CONNECT request that was not connected, or not yet. *)
Definition unconnected (t0 : T) (req : TrojanRequest) (u : UserId) (w : world) : Prop :=
  w_remote w = None ∧ received (w_client w) = header_wire req ++ payload req
  ∧ sent (w_client w) = [] ∧ charged t0 u (1, 0, 0)%Z (w_stats w).

(** A CONNECT request with its outbound stream: the remote was sent what the
    client sent after the header but for the bytes still held, the client what
    the remote sent but for the bytes still held, and nothing else. *)
Definition connected_through (t0 : T) (req : TrojanRequest) (u : UserId) (w : world) (t : list event)
    : Prop :=
  ∃ b held lag,
    w_remote w = Some b
    ∧ received (w_client w) = header_wire req ++ sent b ++ held
    ∧ received b = sent (w_client w) ++ lag
    ∧ charged t0 u (1, Z.max (size (sent b)) (size (payload req)), size (sent (w_client w)))%Z (w_stats w)
    ∧ (completed t → held = [] ∧ lag = []).

(** A UDP request: what left are packets of the client's stream after the header,
    the client was sent the frames of the datagrams that came in. *)
Definition associated (t0 : T) (req : TrojanRequest) (u : UserId) (w : world) (t : list event) : Prop :=
  ∃ stream billed lost partial,
    w_remote w = None
    ∧ received (w_client w) = header_wire req ++ stream
    ∧ sent_payloads t `sublist_of` map udp_payload (stream_packets stream)
    ∧ arrivals t = billed ++ lost ∧ length lost ≤ 1
    ∧ sent (w_client w) = concat (map (frame ∘ reply) billed) ++ partial
    ∧ partial `prefix_of` concat (map (frame ∘ reply) lost)
    ∧ charged t0 u (1%Z, total (taken t), total (map size_of billed)) (w_stats w).

Definition session_outcome (srv : Server A T R D) (t0 : T) (w : world) (t : list event) : Prop :=
  refused t0 w
  ∨ ∃ req u, request_typed req ∧ authenticate (authenticator srv) (password req) = Some u
      ∧ match cmd req with
        | Connect => unconnected t0 req u w ∨ connected_through t0 req u w t
        | UdpAssociate => associated t0 req u w t
        end.

(** The world once the request is read, and counted. *)
Record begun (t0 : T) (req : TrojanRequest) (u : UserId) (w : world) : Prop := MkBegun {
  bg_remote : w_remote w = None;
  bg_received : received (w_client w) = header_wire req ++ payload req;
  bg_sent : sent (w_client w) = [];
  bg_stats : charged t0 u (1, 0, 0)%Z (w_stats w);
}.

Lemma begun_connect t0 req u w w' t pre post :
  begun t0 req u w → quiet_tail pre → quiet_tail post → connect_result w u (payload req) w' t →
  unconnected t0 req u w' ∨ connected_through t0 req u w' (pre ++ t ++ post).
Proof.
  intros [E1 E2 E3 E4] Hpre Hpost [(F1 & F2 & F3 & F4)|Ht].
  - left. split_and!; [congruence..|by rewrite F4].
  - right. apply (tunnelled_tail _ _ _ _ _ _ Hpost), (tunnelled_pre _ _ _ _ _ _ Hpre) in Ht.
    destruct Ht as (b & more & held & down & lag & F1 & F2 & F3 & F4 & F5 & F6 & F7).
    exists b, held, lag. rewrite F2, E2, F4, E3, F5, <- !app_assoc, F3. split_and!; try done.
    pose proof (charged_trans _ _ _ _ _ _ E4 F6) as Hc. exact Hc.
Qed.

Lemma begun_udp t0 req u w w' t pre post :
  begun t0 req u w →
  sent_payloads pre = [] → arrivals pre = [] → taken pre = [] →
  sent_payloads post = [] → arrivals post = [] → taken post = [] →
  udp_served w u (payload req) w' t → associated t0 req u w' (pre ++ t ++ post).
Proof.
  intros [E1 E2 E3 E4] P1 P2 P3 Q1 Q2 Q3 (billed & lost & partial & F1 & F2 & F3 & F4 & F5 & F6 & F7 & F8).
  assert (Happ : ∀ {X} (f : event → list X), concat (map f pre) = [] → concat (map f post) = [] →
    concat (map f (pre ++ t ++ post)) = concat (map f t)).
  { intros X f Hp Hq. by rewrite !map_app, !concat_app, Hp, Hq, app_nil_r. }
  exists (payload req ++ client_stream t), billed, lost, partial.
  unfold sent_payloads, arrivals, taken in *. rewrite !Happ by done.
  rewrite F1, F2, E2, F6, E3, <- !app_assoc. split_and!; try done.
  pose proof (charged_trans _ _ _ _ _ _ E4 F8) as Hc. exact Hc.
Qed.

(** Reading the request bills nobody and writes nothing. *)
Lemma reads_quiet t parts :
  Forall is_read t → Forall2 wrote t parts →
  ops_of t = [] ∧ bytes_read t = read_bytes t ∧ concat parts = [] ∧ quiet_tail t
  ∧ sent_payloads t = [] ∧ arrivals t = [] ∧ taken t = [].
Proof.
  intros Hreads. revert parts. induction Hreads as [|[e x] t He _ IH]; intros parts Hp.
  - by inversion Hp.
  - inversion Hp as [|? p ? ps Hw Hp']; subst. destruct e; try done. cbn in Hw. subst p.
    destruct (IH ps Hp') as (I1 & I2 & I3 & I4 & I5 & I6 & I7).
    unfold ops_of, bytes_read, read_bytes, sent_payloads, arrivals, taken in *. cbn. rewrite I2. auto 9.
Qed.

Lemma charged_request t u : charged t u (1, 0, 0)%Z (record_request u t).
Proof.
  intros v. unfold usage. destruct (request_law u v t) as (-> & -> & ->).
  unfold plus3. case_decide; apply triple_eq; simpl; lia.
Qed.

(** The command, from the registration on. *)
Lemma command_outcome (srv : Server A T R D) transport rounds (w : world) t0 req u id tok pre :
  request_typed req → authenticate (authenticator srv) (password req) = Some u →
  begun t0 req u w → quiet_tail pre →
  sent_payloads pre = [] → arrivals pre = [] → taken pre = [] →
  wpost w
    (let! result :=
       match cmd req with
       | Connect => handle_connect (MkContext srv (addr req) (payload req) u transport)
       | UdpAssociate => handle_udp_associate rounds (conn_config srv) (payload req) u
       end in
     trigger (EUnregister (id, tok : nat).1) ;;
     Ret result)
    (λ w' t _, session_outcome srv t0 w' (pre ++ t)).
Proof.
  intros Hty Hauth Hb Hq P1 P2 P3.
  assert (Hdone : ∀ w' t post,
    match cmd req with
    | Connect => connect_result w u (payload req) w' t
    | UdpAssociate => udp_served w u (payload req) w' t
    end → quiet_tail post → sent_payloads post = [] → arrivals post = [] → taken post = [] →
    session_outcome srv t0 w' (pre ++ t ++ post)).
  { intros w' t post Hr Hp Q1 Q2 Q3. right. exists req, u. split_and!; try done.
    destruct (cmd req); [by eapply begun_connect|by eapply begun_udp]. }
  eapply (wpost_seq _ _ _ _ (λ w' t _, match cmd req with
    | Connect => connect_result w u (payload req) w' t
    | UdpAssociate => udp_served w u (payload req) w' t
    end)).
  - destruct (cmd req); [apply (handle_connect_tunnel (MkContext srv (addr req) (payload req) u transport))
                        |apply handle_udp_served].
  - intros w' t Hr. specialize (Hdone w' t []). rewrite app_nil_r in Hdone. by apply Hdone.
  - intros w' t r Hr x. cbn [handle]. by apply Hdone.
Qed.

Lemma process_connection_outcome (srv : Server A T R D) transport rounds (w0 : world) :
  (0 ≤ conn_buffer_size (conn_config srv))%Z →
  w_remote w0 = None → received (w_client w0) = [] → sent (w_client w0) = [] →
  wpost w0 (process_connection srv transport (handle_udp_associate rounds (conn_config srv)))
    (λ w t _, session_outcome srv (w_stats w0) w t).
Proof.
  intros Hsize H0r H0i H0s. unfold process_connection.
  eapply wpost_seq.
  { apply (plain_run buffer_size w0 _ (read_result [])).
    eapply post_mono; [by apply read_trojan_request_result|].
    intros t o Hr. split; [|done]. destruct Hr as [Hr _]. eapply Forall_impl; [exact Hr|].
    intros [e x] He. by destruct e. }
  { intros w t [_ (_ & r & [=] & _)]. }
  intros w t r [[Rr Rc (parts & Hparts & Rs) Rt] (Hreads & r' & [= <-] & Hr)].
  destruct (reads_quiet t parts Hreads Hparts) as (Q1 & Q2 & Q3 & Q4 & Q5 & Q6 & Q7).
  rewrite Q1 in Rt. rewrite H0s, Q3 in Rs. rewrite H0i, Q2 in Rc. rewrite H0r in Rr. cbn in Rt, Rs, Rc.
  assert (Hclose : ∀ e : result unit string, wpost w (close_client ;; Ret e)
    (λ w' t' _, session_outcome srv (w_stats w0) w' (t ++ t'))).
  { intros e polls. cbn [handle]. left. destruct (still_close polls w) as (F1 & F2 & F3 & F4).
    split_and!; [by rewrite F1|by rewrite F3|by rewrite F4]. }
  destruct r as [[req|e]|]; [|apply Hclose|apply Hclose]. destruct Hr as [Hty Hreq].
  destruct (authenticate (authenticator srv) (password req)) as [u|] eqn:Hauth; [|apply Hclose].
  intros [id tok]. cbn [handle]. intros []. cbn [handle]. intros []. cbn [handle].
  set (pre := t ++ [Ev (ERegister u) (id, tok); Ev (EGuard id) tt; Ev (ERecordRequest u) tt]).
  eapply wpost_mono; [eapply (command_outcome srv transport rounds _ (w_stats w0) req u id tok pre)|].
  - done.
  - done.
  - constructor; cbn; [done|by rewrite Rc, Hreq|done|]. rewrite Rt. apply charged_request.
  - unfold pre. by rewrite forallb_app, Q4.
  - unfold pre, sent_payloads in *. by rewrite map_app, concat_app, Q5.
  - unfold pre, arrivals in *. by rewrite map_app, concat_app, Q6.
  - unfold pre, taken in *. by rewrite map_app, concat_app, Q7.
  - intros w' t' o Ho. unfold pre in Ho. by rewrite <- app_assoc in Ho.
Qed.

End session.

Section theorem.
Context {A R D : Type} `{AclLib, DnsCache D, !OutboundRouter R D, Authenticator A}.
Context {C B T : Type} `{AsyncRead C, AsyncWrite C, !TracedStream C, !CoopStream C}.
Context `{AsyncRead B, AsyncWrite B, !CoopStream B} `{StatsCollector T, !StatsLaws T}.

(** C3: a session, end to end.  Take a client that has sent and received nothing
    yet, and let the network, the router, the scheduler and the other tasks do
    what they like: the task does not panic, and wherever it has got to, one of
    these holds.  It has taken no request, and then it has written nothing, opened
    nothing and billed nobody.  Or what it read starts with a well-formed header
    of a user, who is charged with one request.  For CONNECT there is no outbound
    stream yet and nothing written, or everything the client sent after the
    header is what the remote was sent followed by what is still held back, and
    everything the remote sent is what the client was sent followed by what is
    still held back; the bill is what each side was sent, with the first payload
    counted in full; after a completed relay nothing is held back.  For UDP, what
    left are packets of the client's stream in order, the client was sent the
    frames of the datagrams that came in, the last possibly cut off, and the bill
    is what the outside took and the datagrams delivered. *)
Theorem session_end_to_end (srv : Server A T R D) transport rounds o (client : C) (t0 : T) :
  (0 ≤ conn_buffer_size (conn_config srv))%Z → received client = [] → sent client = [] →
  ∃ w t r,
    play (Z.to_nat (conn_buffer_size (conn_config srv))) o [] (MkWorld client None t0)
      (process_connection srv transport (handle_udp_associate rounds (conn_config srv))) = Some (w, t, r)
    ∧ session_outcome srv t0 w t.
Proof.
  intros Hsize Hr Hs. apply wpost_play.
  by apply (process_connection_outcome _ srv transport rounds (MkWorld client None t0)).
Qed.

End theorem.

(** ** A sample session: a request with two bytes of payload, and an answer *)

Module SampleWire.

#[local] Existing Instance SampleAcl.sample_lib.
#[local] Existing Instance SampleSession.one_user.
#[local] Existing Instance SampleSession.no_dns.

Definition config : ConnConfig :=
  MkConnConfig (from_secs 5) (from_secs 5) (from_secs 5) (from_secs 1) (from_secs 1) (from_secs 1) 1024 128 true 16.

Definition server : Server (list byte) Counters DirectRouter unit :=
  MkServer (repeat Byte.x61 56) SampleRelay.counters (GivenRouter (MkDirectRouter false)) manager_new config tt.

Definition client : Logged Scripted :=
  SampleRelay.stream
    [Ready (Ok (header_wire SampleSession.request ++ payload SampleSession.request)); Pending;
     SampleRelay.data " there"; SampleRelay.eof] [].

Definition remote : Scripted :=
  MkScripted [SampleRelay.data "hello"; SampleRelay.eof] [Ready (Ok 1)] false.

(** Everything goes well. *)
Definition outside : Wire.outside (B := Scripted) := λ history e,
  match e return Wire.choice (B := Scripted) e with
  | EReadRequest => [0]
  | ECloseClient | EShutdownRemote | EWriteRemote _ | EWriteClient _ => 5
  | ERelay _ _ _ => (0%Z, [0%Z; 1%Z])
  | EConnect _ => Done (Ok remote)
  | EDialTcp _ _ => Elapsed
  | ESelect _ _ => ([], WakeCancel)
  | e => SampleSession.env history e
  end.

Abbreviation run :=
  (play 1024 outside [] (MkWorld client None SampleRelay.counters)
     (process_connection server Tcp (handle_udp_associate 5 config))).

End SampleWire.

#[local] Existing Instance SampleAcl.sample_lib.
#[local] Existing Instance SampleSession.one_user.
#[local] Existing Instance SampleSession.no_dns.

Lemma session_end_to_end_witness :
  match SampleWire.run with
  | Some (w, t, r) =>
      (sent <$> w_remote w) = Some (as_bytes "hi there") ∧ sent (w_client w) = as_bytes "hello"
      ∧ usage 7%Z (w_stats w) = (1, 8, 5)%Z ∧ completed t ∧ r = Some (Ok tt)
      ∧ session_outcome SampleWire.server SampleRelay.counters w t
  | None => False
  end.
Proof.
  assert (Hok : match SampleWire.run with
                | Some (w, t, r) =>
                    Some (sent <$> w_remote w, sent (w_client w), usage 7%Z (w_stats w),
                          existsb relay_completed t, r)
                | None => None
                end = Some (Some (as_bytes "hi there"), as_bytes "hello", (1, 8, 5)%Z, true, Some (Ok tt)))
    by (vm_compute; reflexivity).
  destruct (session_end_to_end SampleWire.server Tcp 5 SampleWire.outside SampleWire.client SampleRelay.counters)
    as (w & t & r & E & Ho); [discriminate|reflexivity|reflexivity|].
  change (SampleWire.run = Some (w, t, r)) in E. rewrite E in *.
  apply (f_equal (from_option id (None, [], (0, 0, 0)%Z, false, None))) in Hok. cbn [from_option id] in Hok.
  split_and!; [exact (f_equal (λ x, x.1.1.1.1) Hok)|exact (f_equal (λ x, x.1.1.1.2) Hok)
              |exact (f_equal (λ x, x.1.1.2) Hok)|exact (f_equal (λ x, x.1.2) Hok)
              |exact (f_equal (λ x, x.2) Hok)|exact Ho].
Defined.
