(* ===== verification/WsSession.v ===== *)
(** * A session over a WebSocket, end to end

    [src/src/transport/ws.rs] under [src/src/handler.rs]: the transport that the
    upgrade hands over is the client stream of a connection task. *)

From S2P Require Import Prelude RustStd Protocol Dns Acl Hooks AsyncIo Relay Config Server.
From S2P Require Import Panel Effects Handler Udp UdpSession UdpReplies Wire Session Percent Ws WsRelay.

(** The data a socket has ready is bounded: every binary message uses up its
    length, and no poll and no send adds to it. *)
Class TungsteniteWindow `{Tungstenite} := {
  ready_bytes : WsStream → nat;
  poll_next_bytes w :
    match poll_next w with
    | (w', Ready (Some (Ok (Binary data)))) => length data + ready_bytes w' ≤ ready_bytes w
    | (w', _) => ready_bytes w' ≤ ready_bytes w
    end;
  sink_ready_bytes w : ready_bytes (sink_ready w).1 ≤ ready_bytes w;
  start_send_bytes m w : ready_bytes (start_send m w).1 ≤ ready_bytes w;
  sink_flush_bytes w : ready_bytes (sink_flush w).1 ≤ ready_bytes w;
}.

Section window.
Context `{TungsteniteLaws, !TungsteniteCoop, !TungsteniteWindow} {early : list byte}.

(** What a transport can still deliver. *)
Definition in_store (t : WebSocketTransport) : nat := length (unread t) + ready_bytes (ws_stream t).

Lemma binary_store room t w b data :
  unread t = [] → length (b :: data) + ready_bytes w ≤ ready_bytes (ws_stream t) →
  let n := length (b :: data) `min` room in
  length (take n (b :: data))
  + in_store (if n <? length (b :: data) then set_buffer (drop n (b :: data)) 0 (set_stream w t)
              else set_stream w t) ≤ in_store t.
Proof.
  intros Hu Hle n. unfold in_store. rewrite length_take, Hu.
  destruct (Nat.ltb_spec n (length (b :: data))).
  - change (unread (set_buffer (drop n (b :: data)) 0 (set_stream w t))) with (drop n (b :: data)).
    rewrite length_drop. cbn [ws_stream set_buffer set_stream]. lia.
  - change (unread (set_stream w t)) with (unread t). rewrite Hu. cbn [ws_stream set_stream]. lia.
Qed.

Lemma next_loop_store fuel room t t' r :
  next_loop fuel room t = Some (t', r) → unread t = [] →
  length (delivered r) + in_store t' ≤ in_store t.
Proof.
  revert t. induction fuel as [|fuel IH]; intros t Hr Hu; [done|]. cbn [next_loop] in Hr.
  pose proof (poll_next_bytes (ws_stream t)) as Hb. destruct (poll_next (ws_stream t)) as [w res].
  assert (Hgo : ready_bytes w ≤ ready_bytes (ws_stream t) →
    next_loop fuel room (set_stream w t) = Some (t', r) → length (delivered r) + in_store t' ≤ in_store t).
  { intros Hle E. specialize (IH _ E Hu). unfold in_store in *.
    change (unread (set_stream w t)) with (unread t) in IH.
    change (ws_stream (set_stream w t)) with w in IH. lia. }
  assert (Hend : ∀ x, ready_bytes w ≤ ready_bytes (ws_stream t) → delivered r = [] → t' = x →
    unread x = unread t → ws_stream x = w → length (delivered r) + in_store t' ≤ in_store t).
  { intros x Hle -> -> Hx Hw. unfold in_store. rewrite Hx, Hw. simpl. lia. }
  destruct res as [[[m|e]|]|].
  - destruct m as [s|data|bs|bs| |]; try (by apply Hgo).
    + destruct data as [|b data]; [by apply Hgo; simpl in *|]. injection Hr as <- <-.
      by apply binary_store.
    + injection Hr as <- <-. by eapply Hend.
  - injection Hr as <- <-. eapply Hend; try done. by destruct (orderly e).
  - injection Hr as <- <-. by eapply Hend.
  - injection Hr as <- <-. by eapply Hend.
Qed.

Lemma ws_poll_read_store fuel room t t' r :
  ws_poll_read fuel room t = Some (t', r) → length (delivered r) + in_store t' ≤ in_store t.
Proof.
  unfold ws_poll_read. destruct (read_closed t); [by intros [= <- <-]|].
  destruct (Nat.ltb_spec (read_pos t) (length (read_buffer t))) as [Hlt|Hge].
  - intros [= <- <-]. unfold in_store. cbn [delivered]. rewrite length_take. unfold unread at 2.
    destruct (Nat.leb_spec (length (read_buffer t)) (read_pos t + length (drop (read_pos t) (read_buffer t)) `min` room));
      unfold unread; cbn [read_pos read_buffer set_buffer ws_stream]; rewrite ?length_drop in *; simpl; lia.
  - intros Hn. eapply next_loop_store; [exact Hn|]. unfold unread. by apply drop_ge.
Qed.

(** Writing, flushing and closing deliver nothing. *)
Lemma ws_poll_flush_store t : in_store (ws_poll_flush t).1 ≤ in_store t.
Proof.
  unfold ws_poll_flush. pose proof (sink_flush_bytes (ws_stream t)) as Hb.
  destruct (sink_flush (ws_stream t)) as [w r]. unfold in_store. cbn [fst] in *.
  change (unread (set_stream w t)) with (unread t). cbn [ws_stream set_stream]. lia.
Qed.

Lemma ws_poll_write_store bs t : in_store (ws_poll_write bs t).1 ≤ in_store t.
Proof.
  unfold ws_poll_write. destruct (_ || _); [done|].
  pose proof (sink_ready_bytes (ws_stream t)) as Hb.
  assert (Hset : ∀ w', ready_bytes w' ≤ ready_bytes (ws_stream t) → in_store (set_stream w' t) ≤ in_store t).
  { intros w' Hle. unfold in_store. change (unread (set_stream w' t)) with (unread t). cbn [ws_stream set_stream set_write_closed]. lia. }
  destruct (sink_ready (ws_stream t)) as [w [[[]|e]|]]; cbn [fst] in *; auto.
  pose proof (start_send_bytes (Binary bs) w) as Hs. destruct (start_send (Binary bs) w) as [w' [[]|e]];
    cbn [fst] in *; apply Hset; lia.
Qed.

Lemma ws_poll_shutdown_store t : in_store (ws_poll_shutdown t).1 ≤ in_store t.
Proof.
  unfold ws_poll_shutdown. destruct (write_closed t); [apply ws_poll_flush_store|].
  pose proof (sink_ready_bytes (ws_stream t)) as Hb.
  assert (Hset : ∀ w', ready_bytes w' ≤ ready_bytes (ws_stream t) → in_store (set_write_closed (set_stream w' t)) ≤ in_store t).
  { intros w' Hle. unfold in_store. change (unread (set_write_closed (set_stream w' t))) with (unread t). cbn [ws_stream set_stream set_write_closed]. lia. }
  destruct (sink_ready (ws_stream t)) as [w [[[]|e]|]]; cbn [fst] in *.
  - pose proof (start_send_bytes Close w). etrans; [apply ws_poll_flush_store|]. apply Hset. lia.
  - etrans; [apply ws_poll_flush_store|]. by apply Hset.
  - unfold in_store. change (unread (set_stream w t)) with (unread t). cbn [ws_stream set_stream set_write_closed]. lia.
Qed.

Lemma write_with_tunnel (x : ws_tunnel early) bs o E : tunnel (write_with x bs o E).1 = o.1.
Proof. by destruct o. Qed.
Lemma flush_with_tunnel (x : ws_tunnel early) o E : tunnel (flush_with x o E).1 = o.1.
Proof. by destruct o. Qed.
Lemma shutdown_with_tunnel (x : ws_tunnel early) o E : tunnel (shutdown_with x o E).1 = o.1.
Proof. by destruct o. Qed.

#[export] Program Instance tunnel_coop : CoopStream (ws_tunnel early) :=
  {| budget x := in_store (tunnel x) |}.
Next Obligation.
  intros n x. destruct (tunnel_poll_read n x) as (t' & r & E & Ht & Hr & _).
  apply ws_poll_read_store in E. destruct (poll_read n x) as [x' r']. cbn in Ht, Hr. subst r t'.
  destruct r' as [[[|b bs]|e]|]; cbn [delivered length] in E; lia.
Qed.
Next Obligation.
  intros bs x. cbn [poll_write tunnel_write]. rewrite write_with_tunnel. apply ws_poll_write_store.
Qed.
Next Obligation.
  intros x. cbn [poll_flush tunnel_write]. rewrite flush_with_tunnel. apply ws_poll_flush_store.
Qed.
Next Obligation.
  intros x. cbn [poll_shutdown tunnel_write]. rewrite shutdown_with_tunnel. apply ws_poll_shutdown_store.
Qed.

End window.

(** The stream that the task of an upgraded connection works on. *)
Definition handed_over `{WsHandshakeLaws, PercentEncoding} {raw path cfg transport}
    (Ha : ws_accept raw path cfg = Ok transport) : ws_tunnel (unread transport) :=
  MkTunnel transport [] [] (ws_accept_fresh _ _ _ _ Ha).

(** C8: a session over a WebSocket, end to end.  Whenever the upgrade of a
    connection succeeds and its transport is handed to a connection task, for any
    outside: the task does not panic; the early data of the request and the binary
    messages of the client, put together, are what the task has read followed by
    what the transport still holds; the binary messages sent to the client, put
    together, are what the task has written; and what the task has read and
    written is a session as it should be: nothing, or a header of a user followed
    by what the remote was sent, back and forth, with the bill to match. *)
Theorem ws_session_end_to_end `{WsHandshakeLaws, PercentEncoding, !TungsteniteCoop, !TungsteniteWindow}
    {A R D B T : Type} `{AclLib, DnsCache D, !OutboundRouter R D, Authenticator A}
    `{AsyncRead B, AsyncWrite B, !CoopStream B} `{StatsCollector T, !StatsLaws T}
    (srv : Server A T R D) rounds o (t0 : T) raw path cfg transport
    (Ha : ws_accept raw path cfg = Ok transport) :
  (0 ≤ conn_buffer_size (conn_config srv))%Z →
  ∃ w t r,
    play (Z.to_nat (conn_buffer_size (conn_config srv))) o [] (MkWorld (handed_over Ha) None t0)
      (process_connection srv WebSocket (handle_udp_associate rounds (conn_config srv))) = Some (w, t, r)
    ∧ session_outcome srv t0 w t
    ∧ unread transport ++ payloads (msgs_in (ws_stream (tunnel (w_client w))))
      = received (w_client w) ++ unread (tunnel (w_client w))
    ∧ payloads (msgs_out (ws_stream (tunnel (w_client w)))) = sent (w_client w).
Proof.
  intros Hsize.
  assert (∃ w t r, play (Z.to_nat (conn_buffer_size (conn_config srv))) o [] (MkWorld (handed_over Ha) None t0)
    (process_connection srv WebSocket (handle_udp_associate rounds (conn_config srv))) = Some (w, t, r)
    ∧ session_outcome srv t0 w t) as (w & t & r & E & Ho).
  { apply wpost_play. by apply (process_connection_outcome _ srv WebSocket rounds (MkWorld (handed_over Ha) None t0)). }
  exists w, t, r. split; [exact E|]. split; [exact Ho|]. apply tunnel_messages.
Qed.

(** ** A sample session: the request comes as early data *)

Module SampleWsSession.

#[local] Existing Instance SampleWs.sample_ws.
#[local] Existing Instance SampleWs.sample_ws_laws.
#[local] Existing Instance SampleWs.sample_ws_coop.
#[local] Existing Instance SampleWs.sample_handshake.
#[local] Existing Instance SamplePercent.sample_percent.
#[local] Existing Instance SampleAcl.sample_lib.

Definition bytes_ahead (p : poll (result Message unit)) : nat :=
  match p with Ready (Ok (Binary data)) => length data | _ => 0 end.

#[local] Program Instance sample_window : TungsteniteWindow :=
  {| ready_bytes w := sum_list_with bytes_ahead (SampleWs.ahead w) |}.
Next Obligation. intros [[|[[[]|]|] ms] before after v]; simpl; lia. Qed.
Next Obligation. done. Qed.
Next Obligation. done. Qed.
Next Obligation. done. Qed.

Definition raw : RawStream :=
  ("/a%20b", Some (of_bytes (header_wire SampleSession.request ++ Protocol.payload SampleSession.request))).

Definition accepted : WebSocketTransport :=
  with_early_data SampleWs.fresh_socket (header_wire SampleSession.request ++ Protocol.payload SampleSession.request).

(** The remote listens. *)
Definition outside : Wire.outside (B := Scripted) := λ history e,
  match e return Wire.choice (B := Scripted) e with
  | EConnect _ => Done (Ok (MkScripted [] [] false))
  | e => SampleWire.outside history e
  end.

Definition upgraded : ws_accept raw "/a b" SampleWs.no_config = Ok accepted := eq_refl.

End SampleWsSession.

#[local] Existing Instance SampleWs.sample_ws.
#[local] Existing Instance SampleWs.sample_ws_laws.
#[local] Existing Instance SampleWs.sample_ws_coop.
#[local] Existing Instance SampleWs.sample_handshake.
#[local] Existing Instance SampleWs.sample_handshake_laws.
#[local] Existing Instance SamplePercent.sample_percent.
#[local] Existing Instance SampleWsSession.sample_window.
#[local] Existing Instance SampleAcl.sample_lib.
#[local] Existing Instance SampleSession.one_user.
#[local] Existing Instance SampleSession.no_dns.

Abbreviation ws_task :=
  (play 1024 SampleWsSession.outside []
     (MkWorld (handed_over SampleWsSession.upgraded) None SampleRelay.counters)
     (process_connection SampleWire.server WebSocket (handle_udp_associate 5 SampleWire.config))).

Lemma ws_session_end_to_end_witness :
  match ws_task with
  | Some (w, t, r) =>
      (sent <$> w_remote w) = Some (as_bytes "hidata")
      ∧ session_outcome SampleWire.server SampleRelay.counters w t
      ∧ payloads (msgs_out (ws_stream (tunnel (w_client w)))) = sent (w_client w)
  | None => False
  end.
Proof.
  assert (Hok : match ws_task with
                | Some (w, t, r) => Some (sent <$> w_remote w)
                | None => None
                end = Some (Some (as_bytes "hidata"))) by (vm_compute; reflexivity).
  destruct (ws_session_end_to_end SampleWire.server 5 SampleWsSession.outside SampleRelay.counters
              _ _ _ _ SampleWsSession.upgraded) as (w & t & r & E & Ho & _ & Hout); [discriminate|].
  change (ws_task = Some (w, t, r)) in E. rewrite E in *. injection Hok as Hok.
  split; [exact Hok|]. split; [exact Ho|exact Hout].
Defined.
