(* ===== verification/GrpcSession.v ===== *)
(** * A session over gRPC, end to end

    [src/src/transport/grpc/connection.rs] and [src/src/transport/grpc/transport.rs]
    under [src/src/handler.rs]: a stream that the connection loop accepts is the
    client stream of a connection task. *)

From S2P Require Import Prelude RustStd Codec Protocol Dns Acl Hooks AsyncIo Relay Config Server.
From S2P Require Import Panel Effects Handler Udp UdpSession UdpReplies Wire Session Percent Grpc GrpcConn GrpcRelay.

(** A message carries fewer bytes than it takes on the wire. *)
Lemma multi_hunk_short body ps : multi_hunk body ps → length (concat ps) ≤ length body.
Proof.
  induction 1 as [|body len n data rest ps _ Hd _ _ IH]; simpl; [lia|].
  apply (f_equal length) in Hd. rewrite length_drop, length_app in Hd. rewrite length_app. lia.
Qed.

Lemma parse_short bs payload consumed rest :
  parse_grpc_message_zerocopy bs = Some (Ok (Some (payload, consumed)), rest) →
  length payload + length rest < length bs.
Proof.
  intros E. pose proof (parse_cases bs) as Hc. rewrite E in Hc.
  destruct Hc as (b1 & b2 & b3 & b4 & body & ps & -> & _ & Hm%multi_hunk_short & -> & _).
  rewrite !length_app. change (length (frame_header _ _ _ _ _)) with 5. lia.
Qed.

Section window.
Context `{H2Laws, !H2Finite}.

(** What a transport can still deliver. *)
Definition in_store (t : GrpcTransport) : nat :=
  length (unread t) + length (read_pending t) + recv_left (recv_stream t).

Lemma same_read_store t t' : same_read t t' → in_store t' = in_store t.
Proof. unfold same_read, in_store, unread. by intros [= -> -> -> -> _ _ _ _]. Qed.

Lemma release_frame_store n t : in_store (release_frame n t) ≤ in_store t.
Proof.
  unfold release_frame. destruct (0 <? _); [|done].
  pose proof (release_left (pending_release_capacity t `min` n) (recv_stream t)) as Hr.
  unfold in_store, unread. cbn. lia.
Qed.

Lemma payload_store room t payload :
  unread t = [] →
  let n := length payload `min` room in
  length (take n payload)
  + in_store (if n <? length payload then set_buffer (drop n payload) 0 t else t)
  ≤ length payload + in_store t.
Proof.
  intros Hu n. unfold in_store. rewrite length_take, Hu. destruct (Nat.ltb_spec n (length payload)).
  - change (unread (set_buffer (drop n payload) 0 t)) with (drop n payload). rewrite length_drop. cbn. lia.
  - rewrite Hu. cbn [length]. lia.
Qed.

Lemma read_loop_store fuel room t t' r :
  read_loop fuel room t = Some (t', r) → unread t = [] →
  length (delivered r) + in_store t' ≤ in_store t.
Proof.
  revert t. induction fuel as [|fuel IH]; intros t Hr Hu; [done|]. cbn [read_loop] in Hr.
  destruct (match declared_frame_len (read_pending t) with Some _ => _ | None => _ end).
  { by injection Hr as <- <-. }
  apply bind_Some in Hr as ([parsed rest] & E & Hr). pose proof (parse_cases (read_pending t)) as Hp.
  rewrite E in Hp. destruct parsed as [[[payload consumed]|]|e].
  - apply parse_short in E. pose proof (release_frame_store consumed (set_pending rest t)) as Hf.
    assert (Hu' : unread (release_frame consumed (set_pending rest t)) = [])
      by (unfold release_frame; by destruct (0 <? _)).
    assert (Hs : length payload + in_store (set_pending rest t) ≤ in_store t)
      by (unfold in_store in *; change (unread (set_pending rest t)) with (unread t); cbn; lia).
    destruct (decide (payload = [])); [specialize (IH _ Hr Hu'); lia|].
    injection Hr as <- <-. pose proof (payload_store room _ payload Hu') as Hn. cbn [delivered] in *. lia.
  - destruct Hp as [-> _]. change (recv_stream (set_pending _ t)) with (recv_stream t) in Hr.
    pose proof (poll_data_left (recv_stream t)) as Hd.
    destruct (poll_data (recv_stream t)) as [recv [[[chunk|e]|]|]].
    + apply IH in Hr; [|done]. unfold in_store, unread in *. cbn in Hr. rewrite length_app in Hr. lia.
    + injection Hr as <- <-. unfold in_store, unread. repeat case_decide; destruct (is_normal_stream_close e); cbn; lia.
    + injection Hr as <- <-. unfold in_store, unread. repeat case_decide; cbn; lia.
    + injection Hr as <- <-. unfold in_store, unread. cbn. lia.
  - injection Hr as <- <-. destruct Hp as [-> _]. unfold in_store, unread. cbn. lia.
Qed.

Lemma grpc_poll_read_store fuel room t t' r :
  grpc_poll_read fuel room t = Some (t', r) → length (delivered r) + in_store t' ≤ in_store t.
Proof.
  unfold grpc_poll_read. destruct (read_closed t); [by intros [= <- <-]|].
  destruct (Nat.ltb_spec (read_pos t) (length (read_buf t))) as [Hlt|Hge].
  - intros [= <- <-]. unfold in_store. cbn [delivered]. rewrite length_take. unfold unread at 2.
    destruct (Nat.leb_spec (length (read_buf t)) (read_pos t + length (drop (read_pos t) (read_buf t)) `min` room));
      unfold unread; cbn; rewrite ?length_drop in *; simpl; lia.
  - intros Hn. eapply read_loop_store; [exact Hn|]. unfold unread. by apply drop_ge.
Qed.

Lemma read_with_store x fuel n o E Hs :
  length (delivered (read_with x fuel n o E Hs).2) + in_store (tunnel (read_with x fuel n o E Hs).1)
  ≤ in_store (tunnel x).
Proof. destruct o as [[t' r]|]; [by eapply grpc_poll_read_store|by destruct (is_Some_None Hs)]. Qed.

Lemma write_with_store x fuel bs o E Hs :
  in_store (tunnel (write_with x fuel bs o E Hs).1) = in_store (tunnel x).
Proof.
  destruct o as [[t' r]|]; [|by destruct (is_Some_None Hs)].
  destruct (grpc_reach_inv _ _ _ _ (tunnel_ok x)) as [_ W _ _ M _].
  apply same_read_store, (wo_read _ _ _ _ (grpc_write_spec _ _ _ _ _ E W M)).
Qed.

Lemma flush_with_store x fuel o E Hs :
  in_store (tunnel (flush_with x fuel o E Hs).1) = in_store (tunnel x).
Proof.
  destruct o as [[t' r]|]; [|by destruct (is_Some_None Hs)].
  destruct (grpc_reach_inv _ _ _ _ (tunnel_ok x)) as [_ W _ _ _ _].
  apply same_read_store, (se_read _ _ _ (grpc_flush_spec _ _ _ _ E W)).
Qed.

Lemma shutdown_with_store x fuel o E Hs :
  in_store (tunnel (shutdown_with x fuel o E Hs).1) = in_store (tunnel x).
Proof.
  destruct o as [[t' r]|]; [|by destruct (is_Some_None Hs)].
  destruct (grpc_reach_inv _ _ _ _ (tunnel_ok x)) as [_ W _ _ _ _].
  destruct (grpc_shutdown_spec _ _ _ _ E W) as (_ & _ & R & _). by apply same_read_store.
Qed.

#[export] Program Instance grpc_tunnel_coop : CoopStream grpc_tunnel :=
  {| budget x := in_store (tunnel x) |}.
Next Obligation.
  intros n x. cbn [poll_read grpc_tunnel_read].
  pose proof (read_with_store x _ n _ eq_refl (proj1 (tunnel_polls x) n)) as Hst.
  destruct (read_with _ _ _ _ _ _) as [x' [[[|b bs]|e]|]]; cbn in *; lia.
Qed.
Next Obligation. intros bs x. cbn [poll_write grpc_tunnel_write]. by rewrite write_with_store. Qed.
Next Obligation. intros x. cbn [poll_flush grpc_tunnel_write]. by rewrite flush_with_store. Qed.
Next Obligation. intros x. cbn [poll_shutdown grpc_tunnel_write]. by rewrite shutdown_with_store. Qed.

End window.

(** ** From the connection loop to the task *)

Section accept.
Context `{H2Laws, !H2Finite}.

(** The body of a request that has just been accepted has delivered nothing. *)
Definition fresh_body (ev : run_event) : Prop :=
  match ev with Accepted request _ => data_in (body request) = [] | _ => True end.

(** A transport that the loop spawns a task for is in its first state. *)
Lemma spawned_reach c evs s transport :
  Spawn transport ∈ (run_conn c evs s).1.2 → Forall fresh_body evs →
  (Z.of_nat (grpc_buffer_size c) ≤ u32_max - 16)%Z → grpc_reach transport [] [] false.
Proof.
  intros Hin Hf Hs. revert s Hin. induction Hf as [|ev evs Hev _ IH]; intros s; cbn [run_conn].
  { by intros ?%elem_of_nil. }
  assert (Hstep : Spawn transport ∈ (run_step c ev s).1.2 → grpc_reach transport [] [] false).
  { destruct ev; cbn; repeat case_match; cbn; rewrite ?list_elem_of_singleton, ?elem_of_nil; try done.
    intros [= ->]. by apply gr_new. }
  destruct (run_step c ev s) as [[s1 acts] [r|]].
  { cbn in *. intros [Hin|[=]%list_elem_of_singleton]%elem_of_app; auto. }
  specialize (IH s1).
  destruct (run_conn c evs s1) as [[s2 acts2] r]. cbn in *. intros [Hin|Hin]%elem_of_app; auto.
Qed.

(** The stream that the task works on. *)
Definition accepted_stream {c evs s transport}
    (Hin : Spawn transport ∈ (run_conn c evs s).1.2) (Hf : Forall fresh_body evs)
    (Hs : (Z.of_nat (grpc_buffer_size c) ≤ u32_max - 16)%Z) : grpc_tunnel :=
  MkGrpcTunnel transport [] [] false (spawned_reach _ _ _ _ Hin Hf Hs).

End accept.

(** C7: a session over gRPC, end to end.  Whenever the loop of an HTTP/2
    connection, after any events, spawns a task for a stream, for any outside: the
    task does not panic; the messages of the client carry what the task has read
    followed by what the transport still holds, even if writing has failed; as
    long as no write failed, the messages on the wire and in the queue carry what
    the task has written; and what the task has read and written is a session as
    it should be: nothing, or a header of a user followed by what the remote was
    sent, back and forth, with the bill to match. *)
Theorem grpc_session_end_to_end `{H2Laws, !H2Finite}
    {A R D B T : Type} `{AclLib, DnsCache D, !OutboundRouter R D, Authenticator A}
    `{AsyncRead B, AsyncWrite B, !CoopStream B} `{StatsCollector T, !StatsLaws T}
    (srv : Server A T R D) rounds o (t0 : T) c evs s transport
    (Hin : Spawn transport ∈ (run_conn c evs s).1.2) (Hf : Forall fresh_body evs)
    (Hs : (Z.of_nat (grpc_buffer_size c) ≤ u32_max - 16)%Z) :
  (0 ≤ conn_buffer_size (conn_config srv))%Z →
  ∃ w t r,
    play (Z.to_nat (conn_buffer_size (conn_config srv))) o [] (MkWorld (accepted_stream Hin Hf Hs) None t0)
      (process_connection srv AsyncIo.Grpc (handle_udp_associate rounds (conn_config srv))) = Some (w, t, r)
    ∧ session_outcome srv t0 w t
    ∧ hunks (data_in (recv_stream (tunnel (w_client w))))
      = received (w_client w) ++ unread (tunnel (w_client w)) ++ hunks (read_pending (tunnel (w_client w)))
    ∧ (broken (w_client w) = false →
       hunks (stream_out (tunnel (w_client w)) ++ unsent (tunnel (w_client w))) = sent (w_client w)).
Proof.
  intros Hsize.
  assert (∃ w t r, play (Z.to_nat (conn_buffer_size (conn_config srv))) o []
      (MkWorld (accepted_stream Hin Hf Hs) None t0)
      (process_connection srv AsyncIo.Grpc (handle_udp_associate rounds (conn_config srv))) = Some (w, t, r)
    ∧ session_outcome srv t0 w t) as (w & t & r & E & Ho).
  { apply wpost_play.
    by apply (process_connection_outcome _ srv AsyncIo.Grpc rounds (MkWorld (accepted_stream Hin Hf Hs) None t0)). }
  exists w, t, r. split; [exact E|]. split; [exact Ho|]. apply tunnel_data.
Qed.

(** ** A sample session: a stream among other events *)

#[local] Existing Instance SampleH2.sample_h2.
#[local] Existing Instance SampleH2.sample_laws.
#[local] Existing Instance SampleH2.sample_finite.
#[local] Existing Instance SamplePercent.sample_percent.
#[local] Existing Instance SampleAcl.sample_lib.
#[local] Existing Instance SampleSession.one_user.
#[local] Existing Instance SampleSession.no_dns.

Module SampleGrpcSession.

Definition wire : list byte :=
  encode_grpc_message (header_wire SampleSession.request ++ payload SampleSession.request)
  ++ encode_grpc_message (as_bytes " there").

(** The messages of the client, cut in chunks that are not theirs. *)
Definition request : http_request :=
  MkHttpRequest "POST" "/GunService/Tun" (SampleH2.MkIncoming [take 70 wire; drop 70 wire] []).

Definition events : list run_event :=
  [Heartbeat (HbTick true); Accepted (MkHttpRequest "GET" "/" (SampleH2.MkIncoming [] [])) [];
   IdleTick; Accepted request [SampleH2.Give 1000]].

Definition transport : GrpcTransport :=
  with_activity (body request) (RPending [SampleH2.Give 1000]) 1024 (Some false).

Lemma spawned : Spawn transport ∈ (run_conn SampleLoop.sample_conn events (run_start true)).1.2.
Proof. right. left. Qed.

Lemma fresh : Forall fresh_body events.
Proof. repeat constructor. Qed.

Lemma small : (Z.of_nat (grpc_buffer_size SampleLoop.sample_conn) ≤ u32_max - 16)%Z.
Proof. vm_compute. discriminate. Qed.

End SampleGrpcSession.

Abbreviation grpc_task :=
  (play 1024 SampleWire.outside []
     (MkWorld (accepted_stream SampleGrpcSession.spawned SampleGrpcSession.fresh SampleGrpcSession.small)
        None SampleRelay.counters)
     (process_connection SampleWire.server AsyncIo.Grpc (handle_udp_associate 5 SampleWire.config))).

Lemma grpc_session_end_to_end_witness :
  match grpc_task with
  | Some (w, t, r) =>
      (sent <$> w_remote w) = Some (as_bytes "hi there")
      ∧ hunks (stream_out (tunnel (w_client w))) = as_bytes "hello"
      ∧ session_outcome SampleWire.server SampleRelay.counters w t
      ∧ hunks (data_in (recv_stream (tunnel (w_client w))))
        = received (w_client w) ++ unread (tunnel (w_client w)) ++ hunks (read_pending (tunnel (w_client w)))
  | None => False
  end.
Proof.
  assert (Hok : match grpc_task with
                | Some (w, t, r) => Some (sent <$> w_remote w, hunks (stream_out (tunnel (w_client w))))
                | None => None
                end = Some (Some (as_bytes "hi there"), as_bytes "hello")) by (vm_compute; reflexivity).
  destruct (grpc_session_end_to_end SampleWire.server 5 SampleWire.outside SampleRelay.counters _ _ _ _
              SampleGrpcSession.spawned SampleGrpcSession.fresh SampleGrpcSession.small)
    as (w & t & r & E & Ho & Hin & _); [discriminate|].
  change (grpc_task = Some (w, t, r)) in E. rewrite E in *. injection Hok as Hb Hc.
  split; [exact Hb|]. split; [exact Hc|]. split; [exact Ho|exact Hin].
Defined.
